(* ===== verification/_CoqProject ===== *)
-Q . S2P
Prelude.v
Utils.v
BigIntLimbs.v
BigInt.v
BigIntDiv.v
BigIntBits.v
BigIntText.v
BigIntApi.v
BigIntNumber.v
Utf8.v
Utf16Index.v
StringMeta.v
TextDecoder.v
TextEncoder.v
Uri.v
JsonQuote.v
Connection.v
WebSocket.v
WebSocketHandshake.v
WebSocketServer.v
Hash.v
ShapeIndex.v
ShapeModel.v
ShapeLinks.v
ShapeCopy.v
ShapeProps.v
ShapeAttrs.v
Descriptors.v
ShapeCompact.v
ShapeTree.v
ShapeApi.v
ShapeGc.v
ShapeClient.v
ShapeTheorems.v
LexChars.v
LexSkip.v
LexScan.v
LexLiteral.v
Lexer.v
LexBounds.v
LexTokens.v
LexWords.v
LexNumber.v
LexString.v
LexDivergence.v
Calendar.v
Date.v
DateFields.v
DateObject.v
DateText.v
DateParse.v
DateRoundTrip.v
