(* ===== verification/Prelude.v ===== *)
(** * Verification of the Ant JavaScript runtime

    Ant is a JavaScript runtime in C.  A source text is parsed and compiled to bytecode by the
    engine under src/src/silver, values live on the heap of src/src/gc, and the built-in
    objects are C modules under src/src/modules; networking is libuv with the code of
    src/src/net and src/src/http on top.  This development models the parts of it that compute
    on their own data: the lexer of the engine, BigInt arithmetic, the text machinery under
    every string operation, the codecs at the border of the runtime (TextDecoder, URI functions,
    JSON quoting), dates, the path of a WebSocket message from the socket to the message event, and
    the shapes that describe the layout of every object.

    ** How code becomes definitions

    A C integer is a [Z] and wraps where its type does ([u8], [u16], [u32], [u64]); bit
    operations are those of [Z] under the primed notations of [c_scope].  An array or a string
    is the list of its elements.  A function that can fail returns an [outcome]: [Ok], [Throw]
    for a JavaScript error value, [Ub] for an access outside an object.  Every theorem that
    concludes [Ok] or [Throw] therefore also says that no buffer is left.  Allocation is the
    class [Heap]: each allocator is a predicate that says whether a request is granted, so
    refused allocations are part of the theorems; the predicate depends on the size only, so one
    size is granted or refused throughout a call (the shapes have an allocator of their own, which
    may refuse any block).  A loop is a [Fixpoint] on its data, or on a
    number of rounds that the caller sets to a bound on its length (the bytes that are left, 64
    doublings of a size); the lemmas prove these enough, so no theorem is about a loop that
    stopped early.  State that survives a call (caches, decoders, connections, sockets) is a
    record that the operations take and return.

    ** The files

    - [Prelude] (this file): words, outcomes, the heap, tactics ([word], [case_ltb],
      [outcome_inv]), lemmas on lists and arithmetic.
    - [Utils]: [hex_digit], [hex_char] (src/src/utils_portable.c), [is_space]
      (src/src/silver/lexer.c).
    - [BigIntLimbs], [BigInt], [BigIntDiv], [BigIntBits], [BigIntText], [BigIntApi],
      [BigIntNumber]: src/src/modules/bigint.c.  Limb arrays ([val] is the number they denote),
      the operators, long division, bitwise operators on two's complement, parsing and
      printing, BigInt(), asIntN, asUintN and exponentiation, conversions with doubles.
    - [Utf8]: sequence lengths, validation and Latin-1 of src/src/utf8.c and
      src/include/utf8.h; [enc] and [encode] are the encoding of the Unicode standard, and the
      class [Utf8proc] states what that third-party library promises.
    - [Utf16Index]: the mapping between UTF-16 indices and byte offsets in src/src/utf8.c with
      its scan cache and chunk index.  A [system] is the memory, the sweep epoch and the
      caches; its steps are queries, allocations and sweeps.  The epoch is a number without
      bound: that the 64-bit counter does not wrap is assumed.
    - [StringMeta]: the packed metadata word of a flat string in src/include/gc/strings.h.
    - [TextDecoder]: [utf8_whatwg_decode] of src/src/utf8.c and the decoder of
      src/src/modules/textcodec.c.
    - [TextEncoder]: the export of stored strings as strict UTF-8, [utf8_export_into] and its
      relatives of src/src/utf8.c and [te_encode] of src/src/modules/textcodec.c.
    - [Uri]: src/src/modules/uri.c.
    - [JsonQuote]: [utf8_json_quote] of src/src/utf8.c.
    - [Connection]: the read buffer of src/src/net/connection.c, and the class of what a
      connection promises to the code that reads from it.  libuv may suggest any size for a read
      and stores at most as many bytes as it was offered ([libuv_reads]); a byte stored outside of
      the buffer is [Ub].
    - [WebSocket], [WebSocketHandshake]: frames, masking and the opening handshake of
      src/src/http/websocket.c, with libbase64, SHA-1 and random bytes as parameters.
    - [WebSocketServer]: the server side of src/src/modules/websocket.c, over any connection
      that keeps the promises of [Connection].
    - [Hash]: src/include/hash.h, over the class [Multiplier] of the two ways it multiplies.
    - [ShapeIndex]: the open-addressing table of property keys in src/src/shapes.c.
    - [ShapeModel]: the rest of src/src/shapes.c and src/include/shapes.h.  The state is a
      store: maps from addresses to shapes and to descriptor tables, and the globals; a freed
      block is absent, and using it, or an array through a pointer that is out of date, is
      [Ub].  The class [Allocator] grants or refuses each block.  Operations are in a state
      monad over [outcome].
    - [ShapeLinks], [ShapeCopy], [ShapeProps], [ShapeAttrs], [ShapeCompact]: tables.  [links] is
      the invariant of shapes and the tables they share; [slots] is the list of properties a
      shape stands for; each operation is one on that list.
    - [Descriptors]: how src/src/descriptors.c writes attributes and accessors into a property.
    - [ShapeTree], [ShapeApi], [ShapeGc]: the tree.  [tree_ok] is the invariant of transitions
      and reference counts with the references clients hold; releasing, recording a transition,
      cloning, adding with a transition, marking and sweeping keep it.
    - [ShapeClient]: [js_obj_ensure_unique_shape] of src/src/ant.c, and clients: a [call] is
      [usable] when its arguments are references the client holds; [shape_reachable] is what
      any sequence of calls can lead to.
    - [ShapeTheorems]: what clients can rely on, and two runs in which the code goes wrong.
    - [LexChars], [LexSkip], [LexScan], [LexLiteral], [Lexer]: the lexer, src/src/silver/lexer.c
      with src/src/escape.c and the headers: tables and keywords; white space and comments; the
      scanners of identifiers, numbers, strings, templates and operators; the decoding of string
      literals; the state of the current token and the calls of the parser.  A text is a list of
      bytes and a position in it what is left of it, or an offset where the code compares
      offsets.  The classes [Unicode] (utf8proc with its categories), [Numerals] (the parser of
      decimal numerals, over the double-conversion library) and [Arena] are what the lexer is
      given.
    - [LexBounds], [LexTokens], [LexWords], [LexNumber], [LexString], [LexDivergence]: what is
      shown of it.
    - [Calendar], [Date], [DateText]: src/src/modules/date.c.  Days, years and months; time
      values, their fields, the constructor, getters and setters; the texts of a Date and
      [Date.parse].  A time value is an integer or NaN, doubles are integers with an explicit
      rounding ([rnd]), a Date is the value in its slot, and the class [TimeZone] is what the
      system knows of local time.
    - [DateFields], [DateObject], [DateParse], [DateRoundTrip]: what is shown of them.  [time_of]
      is the time value ECMAScript gives fields and [civil] a date of the calendar.

    ** What is shown

    - BigInt: every operator computes the exact integer, in a well-formed value, or reports a
      refused allocation; text and number conversions are exact or round to nearest even;
      printing and parsing round-trip.  Division and remainder hold where no correction of a
      trial digit wraps, and outside that condition a theorem exhibits a wrong quotient.
    - Strings: validation accepts exactly UTF-8; in every reachable state the caches are
      transparent, so code units, slices, lengths and offsets are those of the UTF-16 form;
      the metadata word never says anything untrue of the bytes.
    - Codecs: the decoders read text as the Unicode standard says, in one call or in pieces;
      the encoder writes the UTF-8 of the text, as much as fits;
      URI encoding is as specified and decoding undoes it; a quoted string is the JSON text
      that ECMAScript gives for its code units and reads back as them.  The places where the code leaves the standards are
      part of the theorems.
    - WebSocket: frames round-trip and parse incrementally, the handshake accepts exactly the
      requests it should, a connection hands on the bytes that arrived in order, and uncompressed messages
      within the limit come out as they were sent for every fragmentation and every cut of the
      stream, while a longer one ends the connection with code 1009; a close event is emitted at
      most once.
    - Shapes: in every reachable store each call returns, nothing is used after it was freed
      and every reference is counted; operations on properties are operations on the list of
      slots of one shape although tables are shared, and what is written into a property is stated field by
      field; a transition adds the property and leaves
      other shapes alone; releasing ends and frees exactly what nothing refers to; a collection
      leaves exactly the shapes in use and those on the way to them.  The assumptions: no block
      of 4 GB or more is granted ([Bounded]), clients hold fewer than 2^32 - 3 references to any
      shape ([few]) and fewer than 2^32 - 1 shapes are alive ([uncrowded]), so that no 32-bit
      count of references wraps.  A recursion over the tree has as fuel the number of allocations so far, which is
      enough because a child is younger than its parent.  The theorem on transitions is for
      clients that do not change shapes of the tree in place ([careful]); without that a run
      loses a property.

    - Lexer: a call skips exactly the white space and the comments ([skip1] says what these
      are), and gives the token that stands there, within the text; any text is read to its end;
      the switches over keywords and operators are tables searched for the longest match; numbers
      with a prefix are exact below 2^53; a string literal has the value that [literal_text]
      gives it, but for the line ends of continuations, and decoding stays within the token and its buffer.  The rounds of the scanning
      loops are the bytes that are left, and more rounds change nothing.  Where the lexer accepts
      what ECMAScript refuses, or reads it differently, one theorem states the rules.

    - Dates: time values and the dates of the calendar correspond one to one, and for fields out
      of range the code computes what ECMAScript says in spite of the rounding of doubles, as long
      as no part passes 2^53; the slot of a Date never holds anything but NaN or a time value in
      range, and the UTC setters replace the fields that the UTC getters read; every text fits its buffer, and what toISOString, toUTCString and toString print
      Date.parse reads.  The search for the year ends within three rounds for every day the code
      asks about, and the loop of the parser takes at most as many rounds as the text has bytes.
      Five places where the results are not those of ECMAScript are part of the theorems.

    ** What is not modelled

    The parser, the bytecode compiler, the interpreter and the garbage collector are far larger
    than the parts above and tied to the value representation; of the collector the string
    index relies only on what [Utf16Index] states.  Modules that drive libuv, OpenSSL, zlib,
    llhttp, PCRE2, yyjson or the operating system keep their state in those libraries.  Of the
    files above these parts are left out: registering functions as globals, the JavaScript
    surface of TextDecoder and WebSocket objects, the WebSocket client and compression, the
    ropes and builders that strings are concatenated with, the counter of object epochs, the
    registry of descriptors of exotic objects, the clock and the conversion of arguments to numbers
    in Dates.  What is left of the runtime's own C code (web streams, the other modules) works on engine objects, promises and
    their properties: it can be modelled only together with the interpreter. *)

From stdpp Require Export base tactics numbers list strings.
From Stdlib Require Export ZArith Lia.

#[global] Open Scope Z_scope.

(** ** Machine words

    A C unsigned integer of width [w] is the integer it denotes; every operation that can
    leave the range is followed by the wrap-around of its type. *)

Definition u8 (x : Z) : Z := x mod 2 ^ 8.

Definition u16 (x : Z) : Z := x mod 2 ^ 16.

Definition u32 (x : Z) : Z := x mod 2 ^ 32.

Definition u64 (x : Z) : Z := x mod 2 ^ 64.

(** [(int64_t)x] for an unsigned 64-bit [x] (two's complement). *)
Definition i64 (x : Z) : Z :=
  let r := x mod 2 ^ 64 in if r <? 2 ^ 63 then r else r - 2 ^ 64.

Declare Scope c_scope.
Delimit Scope c_scope with C.

Notation "x &' y" := (Z.land x y) (at level 40, left associativity) : c_scope.
Notation "x |' y" := (Z.lor x y) (at level 50, left associativity) : c_scope.
Notation "x ^' y" := (Z.lxor x y) (at level 48, left associativity) : c_scope.
Notation "x <<' n" := (Z.shiftl x n) (at level 38, left associativity) : c_scope.
Notation "x >>' n" := (Z.shiftr x n) (at level 38, left associativity) : c_scope.

#[global] Open Scope c_scope.

(** ** Outcomes of C code that can throw or go wrong

    [Ok]: the function returns a value.  [Throw]: it returns a JavaScript error value
    ([js_mkerr], [js_mkerr_typed]).  [Ub]: it reads or writes outside an object, which C
    leaves undefined; theorems that conclude [Ok] or [Throw] show this is not reached. *)

Inductive err_kind :=
  | JS_ERR_GENERIC
  | JS_ERR_TYPE
  | JS_ERR_RANGE
  | JS_ERR_URI
  | JS_ERR_SYNTAX.

Record js_err := mk_js_err { err_type : err_kind; err_msg : string }.

Inductive outcome (A : Type) :=
  | Ok (a : A)
  | Throw (e : js_err)
  | Ub.

Arguments Ok {A} a.
Arguments Throw {A} e.
Arguments Ub {A}.

(** [js_mkerr] of src/include/errors.h makes a TypeError. *)
Definition js_mkerr {A} (msg : string) : outcome A := Throw (mk_js_err JS_ERR_TYPE msg).

Definition js_mkerr_typed {A} (k : err_kind) (msg : string) : outcome A :=
  Throw (mk_js_err k msg).

(** NULL, where C returns it in place of a result. *)
Definition returns_null {A} : outcome A := Throw (mk_js_err JS_ERR_GENERIC "NULL").

#[global] Instance outcome_ret : MRet outcome := fun A a => Ok a.

#[global] Instance outcome_bind : MBind outcome := fun A B f o =>
  match o with
  | Ok a => f a
  | Throw e => Throw e
  | Ub => Ub
  end.

Definition is_ok {A} (o : outcome A) : bool :=
  match o with Ok _ => true | _ => false end.

(** The weakest-precondition reading of an outcome: it is a value satisfying [P]. *)
Definition returns {A} (o : outcome A) (P : A → Prop) : Prop :=
  match o with Ok a => P a | _ => False end.

(** ** Memory

    What the program asks of the memory managers.  [js_type_alloc n]: an allocation of [n]
    bytes on the collected heap succeeds.  [gc_push_root]: the root stack can grow.
    [calloc n], [malloc n], [realloc n]: a C allocation of [n] bytes succeeds. *)
Class Heap := {
  js_type_alloc : Z → bool;
  gc_push_root : bool;
  calloc : Z → bool;
  malloc : Z → bool;
  realloc : Z → bool
}.

(** A heap on which nothing is refused. *)
Definition roomy_heap : Heap :=
  {| js_type_alloc := λ _, true; gc_push_root := true;
     calloc := λ _, true; malloc := λ _, true; realloc := λ _, true |}.

(** ** Array reads *)

(** [a[i]], 0 past the end: used where the code guards the index or where the guard is a
    theorem. *)
Definition at_ (a : list Z) (i : nat) : Z := nth i a 0.

(** [a[i] = x] with the bound of the object explicit. *)
Definition store (a : list Z) (i : nat) (x : Z) : outcome (list Z) :=
  if decide (i < length a)%nat then Ok (<[i := x]> a) else Ub.

Definition zlen {A} (l : list A) : Z := Z.of_nat (length l).

Arguments u8 : simpl never.
Arguments u16 : simpl never.
Arguments u32 : simpl never.
Arguments u64 : simpl never.

(** ** Automation

    [word] proves linear goals about words after unfolding the wrap-arounds; [outcome_inv]
    takes an outcome equation apart. *)

Create HintDb word.

Ltac unfold_words := unfold u8, u16, u32, u64 in *.

Ltac word := unfold_words; Z.div_mod_to_equations; lia.

Ltac outcome_inv :=
  repeat match goal with
  | H : Ok _ = Ok _ |- _ => injection H as H
  | H : Ok _ = Throw _ |- _ => discriminate H
  | H : Throw _ = Ok _ |- _ => discriminate H
  | H : Ok _ = Ub |- _ => discriminate H
  | H : Ub = Ok _ |- _ => discriminate H
  end; subst.

Ltac case_ltb :=
  match goal with
  | |- context [?x <? ?y] => destruct (Z.ltb_spec x y)
  | |- context [?x <=? ?y] => destruct (Z.leb_spec x y)
  | |- context [?x =? ?y] => destruct (Z.eqb_spec x y)
  | |- context [(?x <? ?y)%nat] => destruct (Nat.ltb_spec x y)
  | |- context [(?x <=? ?y)%nat] => destruct (Nat.leb_spec x y)
  | |- context [(?x =? ?y)%nat] => destruct (Nat.eqb_spec x y)
  end.

Lemma u8_range x : 0 <= u8 x < 2 ^ 8.
Proof. apply Z.mod_pos_bound; lia. Qed.

Lemma u16_range x : 0 <= u16 x < 2 ^ 16.
Proof. apply Z.mod_pos_bound; lia. Qed.

Lemma u32_range x : 0 <= u32 x < 2 ^ 32.
Proof. apply Z.mod_pos_bound; lia. Qed.

Lemma u64_range x : 0 <= u64 x < 2 ^ 64.
Proof. apply Z.mod_pos_bound; lia. Qed.

Lemma u8_small x : 0 <= x < 2 ^ 8 → u8 x = x.
Proof. apply Z.mod_small. Qed.

Lemma u16_small x : 0 <= x < 2 ^ 16 → u16 x = x.
Proof. apply Z.mod_small. Qed.

Lemma u32_small x : 0 <= x < 2 ^ 32 → u32 x = x.
Proof. apply Z.mod_small. Qed.

Lemma u64_small x : 0 <= x < 2 ^ 64 → u64 x = x.
Proof. apply Z.mod_small. Qed.

#[export] Hint Resolve u8_range u16_range u32_range u64_range : word.

(** Shifts and masks as division and remainder. *)
Lemma shiftr_div x n : 0 <= n → x >>' n = x / 2 ^ n.
Proof. apply Z.shiftr_div_pow2. Qed.

Lemma shiftl_mul x n : 0 <= n → x <<' n = x * 2 ^ n.
Proof. apply Z.shiftl_mul_pow2. Qed.

Lemma land_mask x n : 0 <= n → x &' (2 ^ n - 1) = x mod 2 ^ n.
Proof.
  intros Hn. rewrite <- Z.land_ones by done. f_equal.
  rewrite Z.ones_equiv. lia.
Qed.

Lemma land_mask_eq x m n : 0 <= n → m = 2 ^ n - 1 → x &' m = x mod 2 ^ n.
Proof. intros Hn ->. by apply land_mask. Qed.

Lemma land_0xffffffff x : x &' 0xffffffff = x mod 2 ^ 32.
Proof. apply (land_mask x 32). lia. Qed.

(** A word or-ed below the bits of a shifted word is added to it. *)
Lemma land_low_0 a b n : 0 <= n → 0 <= b < 2 ^ n → (a * 2 ^ n) &' b = 0.
Proof.
  intros Hn Hb. apply Z.bits_inj'. intros i Hi.
  rewrite Z.land_spec, Z.bits_0, <- Z.shiftl_mul_pow2 by done.
  destruct (Z.lt_ge_cases i n).
  - rewrite Z.shiftl_spec_low by done. done.
  - rewrite <- (Z.mod_small b (2 ^ n)), Z.mod_pow2_bits_high by lia.
    apply andb_false_r.
Qed.

Lemma lor_add_low a b n : 0 <= n → 0 <= b < 2 ^ n → (a * 2 ^ n) |' b = a * 2 ^ n + b.
Proof.
  intros Hn Hb. symmetry. apply Z.add_nocarry_lor. by apply land_low_0.
Qed.

(** The digits of a number in base [b]. *)
Lemma div_mod_digits lo hi b : 0 <= lo < b → (lo + b * hi) / b = hi ∧ (lo + b * hi) mod b = lo.
Proof.
  intros H. rewrite Z.add_comm, Z.mul_comm. split.
  - rewrite Z.div_add_l, Z.div_small by lia. lia.
  - rewrite Z.add_comm, Z.mod_add, Z.mod_small by lia. done.
Qed.

(** Bits of a word above its width. *)
Lemma testbit_above x n i : 0 <= n → 0 <= x < 2 ^ n → n <= i → Z.testbit x i = false.
Proof.
  intros Hn Hx Hi. rewrite <- (Z.mod_small x (2 ^ n)) by done.
  apply Z.mod_pow2_bits_high. lia.
Qed.

(** *** Outcomes *)

Lemma bind_Ok {A B} (o : outcome A) (f : A → outcome B) b :
  o ≫= f = Ok b ↔ ∃ a, o = Ok a ∧ f a = Ok b.
Proof.
  destruct o as [a| |]; simpl; split.
  - by exists a.
  - intros (? & [= ->] & ?). done.
  - done.
  - by intros (? & ? & ?).
  - done.
  - by intros (? & ? & ?).
Qed.

Lemma bind_assoc {A B C} (o : outcome A) (f : A → outcome B) (g : B → outcome C) :
  (o ≫= λ a, f a ≫= g) = (o ≫= f) ≫= g.
Proof. by destruct o. Qed.

Lemma returns_bind {A B} (o : outcome A) (f : A → outcome B) P :
  returns o (λ a, returns (f a) P) → returns (o ≫= f) P.
Proof. by destruct o. Qed.

Lemma returns_mono {A} (o : outcome A) (P Q : A → Prop) :
  returns o P → (∀ a, P a → Q a) → returns o Q.
Proof. destruct o; simpl; auto. Qed.

Lemma returns_Ok {A} (o : outcome A) P : returns o P ↔ ∃ a, o = Ok a ∧ P a.
Proof.
  destruct o as [a| |]; simpl; split; try done.
  - by exists a.
  - intros (? & [= ->] & ?). done.
  - by intros (? & ? & ?).
  - by intros (? & ? & ?).
Qed.

(** *** Lists *)

Lemma zlen_app {A} (l1 l2 : list A) : zlen (l1 ++ l2) = zlen l1 + zlen l2.
Proof. unfold zlen. rewrite length_app. lia. Qed.

Lemma at_cons_S x l i : at_ (x :: l) (S i) = at_ l i.
Proof. done. Qed.

Lemma at_app_l l l' i : (i < length l)%nat → at_ (l ++ l') i = at_ l i.
Proof. intros H. apply app_nth1; lia. Qed.

Lemma at_app_r l l' i : (length l <= i)%nat → at_ (l ++ l') i = at_ l' (i - length l).
Proof. intros H. apply app_nth2; lia. Qed.

Lemma at_take l n i : (i < n)%nat → at_ (take n l) i = at_ l i.
Proof.
  intros H. unfold at_. revert n i H.
  induction l as [|x l IH]; intros [|n] [|i] H; simpl; try lia; auto.
  apply IH. lia.
Qed.

Lemma at_drop l n i : at_ (drop n l) i = at_ l (n + i).
Proof.
  unfold at_. revert n. induction l as [|x l IH]; intros [|n]; simpl; auto.
  by destruct i.
Qed.

Lemma at_beyond l i : (length l <= i)%nat → at_ l i = 0.
Proof. apply nth_overflow. Qed.

Lemma at_replicate_0 k i : at_ (replicate k 0) i = 0.
Proof. unfold at_. revert i. induction k as [|k IH]; intros [|i]; simpl; auto. Qed.

Lemma Forall_at (P : Z → Prop) l i : Forall P l → P 0 → P (at_ l i).
Proof.
  intros Hl H0. unfold at_. revert i.
  induction Hl as [|x l Hx Hl IH]; intros [|i]; simpl; auto.
Qed.

Lemma Forall_at_lt (P : Z → Prop) l i : Forall P l → (i < length l)%nat → P (at_ l i).
Proof.
  intros Hl Hi. rewrite Forall_nth in Hl. by apply Hl.
Qed.

Lemma Forall_hd (P : Z → Prop) l : Forall P l → P 0 → P (hd 0 l).
Proof. by destruct 1. Qed.

Lemma Forall_tl {A} (P : A → Prop) l : Forall P l → Forall P (tl l).
Proof. by destruct 1. Qed.

Lemma length_tl {A} (l : list A) : length (tl l) = (length l - 1)%nat.
Proof. destruct l; simpl; lia. Qed.

Lemma lookup_at (l : list Z) i : (i < length l)%nat → l !! i = Some (at_ l i).
Proof.
  intros Hi. destruct (lookup_lt_is_Some_2 l i Hi) as [x E]. rewrite E. f_equal.
  unfold at_. by rewrite nth_lookup, E.
Qed.

Lemma existsb_false {A} (f : A → bool) l : existsb f l = false ↔ Forall (λ x, f x = false) l.
Proof.
  induction l as [|x l IH]; simpl; [split; [constructor|done]|].
  rewrite orb_false_iff, IH, Forall_cons. done.
Qed.

Lemma filter_Forall_id {A} (P : A → Prop) `{∀ x, Decision (P x)} l : Forall P l → filter P l = l.
Proof. induction 1 as [|x l Hx _ IH]; [done|]. rewrite filter_cons_True by done. by rewrite IH. Qed.
