(* ===== verification/Utils.v ===== *)
(** * Character helpers

    [hex_digit] and [hex_char] of src/utils_portable.c and the character class test
    [is_space] of src/silver/lexer.c.  A C string is the list of its bytes. *)

From Stdlib Require Ascii.
From S2P Require Import Prelude.

(** The bytes of an ASCII literal. *)
Definition bytes (s : string) : list Z :=
  (λ a, Z.of_N (Ascii.N_of_ascii a)) <$> String.list_ascii_of_string s.

Definition byte_ok (c : Z) : Prop := 0 <= c < 256.

(** [memcpy] of bytes to a word on a little-endian machine. *)
Definition le_word (l : list Z) : Z := foldr (λ b w, b + 256 * w) 0 l.

(** The lookup table: '0'..'9', 'a'..'f', 'A'..'F'; every other byte is -1. *)
Definition hex_digit (c : Z) : Z :=
  if (48 <=? c) && (c <=? 57) then c - 48
  else if (97 <=? c) && (c <=? 102) then c - 97 + 10
  else if (65 <=? c) && (c <=? 70) then c - 65 + 10
  else -1.

Definition hex_char (v : Z) : Z := at_ (bytes "0123456789abcdef") (Z.to_nat (v &' 0x0f)).

(** Tab, line feed, carriage return, space. *)
Definition is_space (c : Z) : bool :=
  (c =? 9) || (c =? 10) || (c =? 13) || (c =? 32).

Lemma hex_digit_range c : -1 <= hex_digit c < 16.
Proof. unfold hex_digit. repeat case_ltb; simpl; lia. Qed.

Lemma hex_char_digit d : 0 <= d < 16 → hex_digit (hex_char d) = d.
Proof.
  intros Hd. assert (d ∈ seqZ 0 16) as Hin by (apply elem_of_seqZ; lia).
  clear Hd. revert d Hin. apply Forall_forall. repeat (constructor; [reflexivity|]). constructor.
Qed.

Lemma le_word_range l : Forall byte_ok l → 0 <= le_word l < 256 ^ zlen l.
Proof.
  unfold zlen. induction 1 as [|a l Ha Hl IH]; simpl length; [simpl; lia|].
  rewrite Nat2Z.inj_succ, Z.pow_succ_r by lia. unfold byte_ok in Ha. simpl. lia.
Qed.

(** A property of bytes is decided by looking at all of them. *)
Lemma byte_cases (P : Z → bool) : forallb P (seqZ 0 256) = true → ∀ b, byte_ok b → P b = true.
Proof.
  intros H b Hb. rewrite forallb_forall in H. apply H.
  apply list_elem_of_In, elem_of_seqZ. unfold byte_ok in Hb. lia.
Qed.

Lemma byte_eq (f g : Z → Z) :
  forallb (λ b, f b =? g b) (seqZ 0 256) = true → ∀ b, byte_ok b → f b = g b.
Proof. intros H b Hb. apply Z.eqb_eq. by apply (byte_cases (λ b, f b =? g b)). Qed.
