(* ===== verification/BigIntLimbs.v ===== *)
(** * BigInt magnitudes: arithmetic on arrays of 32-bit limbs

    Models the limb routines of src/modules/bigint.c.  A pointer and a count are the list of
    the limbs they delimit, least significant first; a loop over the limbs is a recursion
    over that list that carries the loop's variables.  [val] is the number a limb array
    denotes, the specification every routine is proved against. *)

From S2P Require Import Prelude.

Definition SIZE_MAX : Z := 2 ^ 64 - 1.

Definition UINT32_MAX : Z := 2 ^ 32 - 1.

Definition BIGINT_LIMB_SIZE : Z := 32.

Definition BIGINT_BASE : Z := 0x100000000.

Definition checked_add_size (a b : Z) : option Z :=
  if SIZE_MAX - b <? a then None else Some (u64 (a + b)).

Definition checked_mul_size (a b : Z) : option Z :=
  if negb (a =? 0) && (SIZE_MAX / a <? b) then None else Some (u64 (a * b)).

(** The number denoted by little-endian limbs. *)
Fixpoint val (l : list Z) : Z :=
  match l with
  | [] => 0
  | x :: l => x + BIGINT_BASE * val l
  end.

Definition limb (x : Z) : Prop := 0 <= x < BIGINT_BASE.

Definition limbs_ok (l : list Z) : Prop := Forall limb l.

(** [while ( *count > 1 && limbs[*count - 1] == 0) ( *count)--]: the count it stops at. *)
Fixpoint bigint_normalize_limbs (limbs : list Z) (count : nat) : nat :=
  match count with
  | S ((S _) as c) =>
      if at_ limbs c =? 0 then bigint_normalize_limbs limbs c else count
  | _ => count
  end.

Definition limbs_is_zero (limbs : list Z) (count : nat) : bool :=
  (count =? 1)%nat && (at_ limbs 0 =? 0).

(** [__builtin_clz] on a nonzero 32-bit word. *)
Definition clz32_nonzero (v : Z) : Z := 31 - Z.log2 v.

Definition bigint_abs_bitlen_limbs (limbs : list Z) : Z :=
  let count := bigint_normalize_limbs limbs (length limbs) in
  if (count =? 1)%nat && (at_ limbs 0 =? 0) then 0
  else
    let top := at_ limbs (count - 1) in
    let lead := clz32_nonzero top in
    (Z.of_nat count - 1) * BIGINT_LIMB_SIZE + (BIGINT_LIMB_SIZE - lead).

(** The loop [for (size_t i = alen; i-- > 0;)]: [i] limbs are left to compare. *)
Fixpoint cmp_from (a b : list Z) (i : nat) : Z :=
  match i with
  | O => 0
  | S i =>
      if at_ a i =? at_ b i then cmp_from a b i
      else if at_ b i <? at_ a i then 1 else -1
  end.

Definition bigint_cmp_abs_limbs (a b : list Z) : Z :=
  let alen := bigint_normalize_limbs a (length a) in
  let blen := bigint_normalize_limbs b (length b) in
  if negb (alen =? blen)%nat then (if (blen <? alen)%nat then 1 else -1)
  else cmp_from a b alen.

(** [n] limbs are left; a limb past the end of [a] or [b] reads as 0. *)
Fixpoint add_loop (n : nat) (a b : list Z) (carry : Z) : list Z * Z :=
  match n with
  | O => ([], carry)
  | S n =>
      let da := hd 0 a in
      let db := hd 0 b in
      let sum := u64 (da + db + carry) in
      let '(result, carry) := add_loop n (tl a) (tl b) (sum >>' 32) in
      (u32 sum :: result, carry)
  end.

(** The limbs written to [result], and the count returned. *)
Definition bigint_add_abs_limbs (a b : list Z) : list Z * nat :=
  let maxlen := if (length b <? length a)%nat then length a else length b in
  let '(result, carry) := add_loop maxlen a b 0 in
  (result ++ [u32 carry], (maxlen + (if (carry =? 0)%Z then 0 else 1))%nat).

Fixpoint add_u32_loop (result : list Z) (carry : Z) : list Z * Z :=
  match result with
  | [] => ([], carry)
  | x :: rest =>
      if carry =? 0 then (x :: rest, carry)
      else
        let sum := u64 (x + carry) in
        let '(rest, carry) := add_u32_loop rest (sum >>' 32) in
        (u32 sum :: rest, carry)
  end.

Definition bigint_add_u32_inplace (result : list Z) (capacity : nat) (value : Z)
  : list Z * nat :=
  let '(r, carry) := add_u32_loop result value in
  let r := if negb (carry =? 0) && (length result <? capacity)%nat
           then r ++ [u32 carry] else r in
  (r, bigint_normalize_limbs r (length r)).

Fixpoint sub_loop (a b : list Z) (borrow : Z) : list Z :=
  match a with
  | [] => []
  | da :: a =>
      let db := hd 0 b in
      let subtrahend := u64 (db + borrow) in
      if da <? subtrahend
      then u32 (u64 (BIGINT_BASE + da - subtrahend)) :: sub_loop a (tl b) 1
      else u32 (u64 (da - subtrahend)) :: sub_loop a (tl b) 0
  end.

Definition bigint_sub_abs_limbs (a b : list Z) : list Z * nat :=
  (sub_loop a b 0, length a).

(** [while (carry != 0)]: [result] is the buffer from index [k] on. *)
Fixpoint mul_carry (result : list Z) (carry : Z) : outcome (list Z) :=
  if carry =? 0 then Ok result
  else
    match result with
    | [] => Ub
    | r :: result =>
        let cur := u64 (r + (carry &' 0xffffffff)) in
        rest ← mul_carry result (u64 ((carry >>' 32) + (cur >>' 32)));
        Ok (u32 cur :: rest)
    end.

(** The inner loop over [j], then the carry; [result] is the buffer from index [i + j] on. *)
Fixpoint mul_row (ai : Z) (b result : list Z) (carry : Z) : outcome (list Z) :=
  match b with
  | [] => mul_carry result carry
  | bj :: b =>
      match result with
      | [] => Ub
      | r :: result =>
          let prod := u64 (ai * bj) in
          let lo := u64 (r + (prod &' 0xffffffff) + (carry &' 0xffffffff)) in
          rest ← mul_row ai b result (u64 ((prod >>' 32) + (carry >>' 32) + (lo >>' 32)));
          Ok (u32 lo :: rest)
      end
  end.

(** The outer loop over [i]; [result] is the buffer from index [i] on, which is all the
    remaining rows touch. *)
Fixpoint mul_rows (a b result : list Z) : outcome (list Z) :=
  match a with
  | [] => Ok result
  | ai :: a =>
      row ← mul_row ai b result 0;
      match row with
      | [] => Ub
      | r :: row => rest ← mul_rows a b row; Ok (r :: rest)
      end
  end.

Definition bigint_mul_abs_limbs (a b : list Z) : outcome (list Z * nat) :=
  if ((length a =? 1) && (length b =? 1))%nat then
    let product := u64 (at_ a 0 * at_ b 0) in
    let r0 := u32 product in
    let r1 := u32 (product >>' 32) in
    Ok ([r0; r1], if r1 =? 0 then 1%nat else 2%nat)
  else
    let capacity := (length a + length b + 1)%nat in
    result ← mul_rows a b (replicate capacity 0);
    Ok (result, capacity).

Fixpoint shl_loop (limbs : list Z) (bit_shift carry : Z) : list Z * Z :=
  match limbs with
  | [] => ([], carry)
  | x :: limbs =>
      let cur := u64 (x <<' bit_shift) |' carry in
      let '(out, carry) := shl_loop limbs bit_shift (u32 (cur >>' 32)) in
      (u32 cur :: out, carry)
  end.

(** The zeroed buffer [out] after the writes, and the count returned. *)
Definition bigint_shift_left_abs (limbs : list Z) (shift : Z) : list Z * nat :=
  let limb_shift := Z.to_nat (shift >>' 5) in
  let bit_shift := shift &' 31 in
  let count := length limbs in
  if bit_shift =? 0 then
    let out := replicate limb_shift 0 ++ limbs ++ [0] in
    (out, bigint_normalize_limbs out (count + limb_shift))
  else
    let '(r, carry) := shl_loop limbs bit_shift 0 in
    let out := replicate limb_shift 0 ++ r ++ [carry] in
    (out, bigint_normalize_limbs out (count + limb_shift + 1)).

(** The loop [for (size_t src = count; src-- > limb_shift;)] runs from the most significant
    limb down, so the carry into a limb is the one left by the limbs above it. *)
Fixpoint shr_loop (limbs : list Z) (bit_shift mask : Z) : list Z * Z :=
  match limbs with
  | [] => ([], 0)
  | cur :: limbs =>
      let '(out, carry) := shr_loop limbs bit_shift mask in
      ((cur >>' bit_shift) |' u32 (carry <<' (32 - bit_shift)) :: out, cur &' mask)
  end.

Definition any_nonzero (limbs : list Z) : bool := existsb (fun x => negb (x =? 0)) limbs.

(** The limbs written to [out], the count returned, and [*truncated]. *)
Definition bigint_shift_right_abs (limbs : list Z) (shift : Z) : list Z * nat * bool :=
  let bit_shift := shift &' 31 in
  let count := length limbs in
  if Z.of_nat count <=? shift >>' 5 then ([0], 1%nat, any_nonzero limbs)
  else
    let limb_shift := Z.to_nat (shift >>' 5) in
    let lost := any_nonzero (take limb_shift limbs) in
    let mask := u32 ((1 <<' bit_shift) - 1) in
    let out := if bit_shift =? 0 then drop limb_shift limbs
               else fst (shr_loop (drop limb_shift limbs) bit_shift mask) in
    let lost := if bit_shift =? 0 then lost
                else if negb (at_ limbs limb_shift &' mask =? 0) then true else lost in
    (out, bigint_normalize_limbs out (count - limb_shift), lost).

(** The loop runs from the most significant limb down; the remainder of the limbs above is
    carried into a limb. *)
Fixpoint bigint_div_small_inplace (limbs : list Z) (divisor : Z) : list Z * Z :=
  match limbs with
  | [] => ([], 0)
  | x :: limbs =>
      let '(q, rem) := bigint_div_small_inplace limbs divisor in
      let cur := u64 (rem <<' 32) |' x in
      (u32 (cur / divisor) :: q, cur mod divisor)
  end.

(** ** The value of limb arrays *)

#[local] Ltac Zify.zify_post_hook ::= Z.div_mod_to_equations.

Arguments val : simpl nomatch.

Lemma base_pow n : BIGINT_BASE ^ Z.of_nat (S n) = BIGINT_BASE * BIGINT_BASE ^ Z.of_nat n.
Proof. rewrite Nat2Z.inj_succ, Z.pow_succ_r by lia. done. Qed.

Lemma base_pow_pos n : 0 < BIGINT_BASE ^ Z.of_nat n.
Proof. apply Z.pow_pos_nonneg; unfold BIGINT_BASE; lia. Qed.

Lemma base_pow_2 n : 0 <= n → BIGINT_BASE ^ n = 2 ^ (32 * n).
Proof. intros. by rewrite Z.pow_mul_r by lia. Qed.

Lemma val_bounds l : limbs_ok l → 0 <= val l < BIGINT_BASE ^ Z.of_nat (length l).
Proof.
  induction 1 as [|x l Hx Hl IH]; simpl val; simpl length; [lia|].
  rewrite base_pow. unfold limb, BIGINT_BASE in *. nia.
Qed.

Lemma val_nonneg l : limbs_ok l → 0 <= val l.
Proof. intros H. by apply val_bounds. Qed.

Lemma val_app l l' : val (l ++ l') = val l + BIGINT_BASE ^ Z.of_nat (length l) * val l'.
Proof.
  induction l as [|x l IH]; simpl app; simpl val; simpl length; [lia|].
  rewrite base_pow, IH. ring.
Qed.

Lemma val_replicate_0 n : val (replicate n 0) = 0.
Proof. induction n as [|n IH]; simpl; [done|]. rewrite IH. lia. Qed.

Lemma val_hd_tl l : val l = hd 0 l + BIGINT_BASE * val (tl l).
Proof. destruct l; simpl; lia. Qed.

Lemma limb_0 : limb 0.
Proof. unfold limb, BIGINT_BASE. lia. Qed.

Lemma limb_u32 x : limb (u32 x).
Proof. apply u32_range. Qed.

Lemma limbs_ok_app l l' : limbs_ok (l ++ l') ↔ limbs_ok l ∧ limbs_ok l'.
Proof. apply Forall_app. Qed.

Lemma limbs_ok_replicate_0 n : limbs_ok (replicate n 0).
Proof. apply Forall_replicate, limb_0. Qed.

Lemma limbs_ok_take n l : limbs_ok l → limbs_ok (take n l).
Proof. apply Forall_take. Qed.

Lemma limbs_ok_drop n l : limbs_ok l → limbs_ok (drop n l).
Proof. apply Forall_drop. Qed.

Lemma limbs_ok_hd l : limbs_ok l → limb (hd 0 l).
Proof. intros H. apply Forall_hd; [done|apply limb_0]. Qed.

Lemma limbs_ok_tl l : limbs_ok l → limbs_ok (tl l).
Proof. apply Forall_tl. Qed.

Lemma limbs_ok_at l i : limbs_ok l → limb (at_ l i).
Proof. intros H. apply Forall_at; [done|apply limb_0]. Qed.

Create HintDb limbs.
#[export] Hint Resolve limb_0 limb_u32 limbs_ok_replicate_0 limbs_ok_take limbs_ok_drop
  limbs_ok_hd limbs_ok_tl limbs_ok_at val_nonneg base_pow_pos : limbs.
#[export] Hint Extern 1 (limbs_ok []) => apply Forall_nil : limbs.
#[export] Hint Extern 1 (limbs_ok (_ :: _)) => apply Forall_cons; split : limbs.
#[export] Hint Extern 1 (limbs_ok (_ ++ _)) => apply limbs_ok_app; split : limbs.
#[export] Hint Extern 1 (Forall limb _) => change (Forall limb) with limbs_ok : limbs.

Lemma val_take_drop n l :
  (n <= length l)%nat →
  val l = val (take n l) + BIGINT_BASE ^ Z.of_nat n * val (drop n l).
Proof.
  intros Hn. rewrite <- (take_drop n l) at 1. rewrite val_app, length_take.
  by rewrite Nat.min_l by lia.
Qed.

Lemma val_drop_S l i : val (drop i l) = at_ l i + BIGINT_BASE * val (drop (S i) l).
Proof.
  rewrite val_hd_tl. f_equal.
  - revert i. induction l as [|x l IH]; intros [|i]; try done. apply IH.
  - f_equal. f_equal. revert i. induction l as [|x l IH]; intros [|i]; try done. apply IH.
Qed.

Lemma val_zero_iff l : limbs_ok l → val l = 0 ↔ any_nonzero l = false.
Proof.
  induction 1 as [|x l Hx Hl IH]; simpl; [done|].
  pose proof (val_nonneg l Hl). unfold limb, BIGINT_BASE in *.
  destruct (Z.eqb_spec x 0); simpl.
  - rewrite <- IH. lia.
  - split; [lia|done].
Qed.

Lemma any_nonzero_val l : limbs_ok l → any_nonzero l = negb (val l =? 0).
Proof.
  intros Hl. pose proof (val_zero_iff l Hl) as H.
  destruct (Z.eqb_spec (val l) 0), (any_nonzero l); simpl; intuition congruence.
Qed.

(** ** Normalisation *)

Definition norm (l : list Z) : list Z := take (bigint_normalize_limbs l (length l)) l.

Lemma normalize_le l n : (bigint_normalize_limbs l n <= n)%nat.
Proof.
  induction n as [|[|n] IH]; simpl; [lia..|].
  destruct (_ =? 0); [|lia]. simpl in *. lia.
Qed.

Lemma normalize_pos l n : (1 <= n)%nat → (1 <= bigint_normalize_limbs l n)%nat.
Proof.
  induction n as [|[|n] IH]; intros H; simpl; [lia..|].
  destruct (_ =? 0); [|lia]. apply IH. lia.
Qed.

Lemma normalize_top l n :
  (1 < bigint_normalize_limbs l n)%nat → at_ l (bigint_normalize_limbs l n - 1) ≠ 0.
Proof.
  induction n as [|[|n] IH]; simpl; [lia..|].
  destruct (Z.eqb_spec (at_ l (S n)) 0); [|done]. apply IH.
Qed.

Lemma val_take_S n l : val (take (S n) l) = val (take n l) + BIGINT_BASE ^ Z.of_nat n * at_ l n.
Proof.
  revert n. induction l as [|x l IH]; intros n.
  { rewrite !take_nil, at_beyond by (simpl; lia). simpl. lia. }
  destruct n as [|n]; [simpl; unfold at_; simpl; lia|].
  change (take (S (S n)) (x :: l)) with (x :: take (S n) l).
  change (take (S n) (x :: l)) with (x :: take n l).
  simpl val. rewrite IH, base_pow, at_cons_S. ring.
Qed.

Lemma normalize_val l n : val (take (bigint_normalize_limbs l n) l) = val (take n l).
Proof.
  induction n as [|[|n] IH]; [done..|].
  change (bigint_normalize_limbs l (S (S n))) with
    (if at_ l (S n) =? 0 then bigint_normalize_limbs l (S n) else S (S n)).
  destruct (Z.eqb_spec (at_ l (S n)) 0) as [Hz|]; [|done].
  rewrite IH, (val_take_S (S n)), Hz. lia.
Qed.

Lemma norm_val l : val (norm l) = val l.
Proof. unfold norm. by rewrite normalize_val, firstn_all. Qed.

Lemma norm_ok l : limbs_ok l → limbs_ok (norm l).
Proof. apply limbs_ok_take. Qed.

Lemma length_norm l : length (norm l) = bigint_normalize_limbs l (length l).
Proof. unfold norm. rewrite length_take. pose proof (normalize_le l (length l)). lia. Qed.

Lemma at_norm l i : (i < length (norm l))%nat → at_ (norm l) i = at_ l i.
Proof. rewrite length_norm. apply at_take. Qed.

(** A normalised array: at least one limb, and no leading zero limb unless it is the only
    one. *)
Definition normalized (l : list Z) : Prop :=
  (1 <= length l)%nat ∧ ((1 < length l)%nat → at_ l (length l - 1) ≠ 0).

Lemma norm_normalized l : (1 <= length l)%nat → normalized (norm l).
Proof.
  intros H. split; rewrite length_norm.
  - by apply normalize_pos.
  - intros Hlt. unfold norm. rewrite at_take by lia. by apply normalize_top.
Qed.

Lemma normalize_id l : normalized l → bigint_normalize_limbs l (length l) = length l.
Proof.
  intros [H1 H2]. destruct (length l) as [|[|n]]; [done..|]. simpl.
  destruct (Z.eqb_spec (at_ l (S n)) 0) as [E|]; [|done].
  simpl in H2. destruct H2; [lia|]. done.
Qed.

Lemma norm_id l : normalized l → norm l = l.
Proof. intros H. unfold norm. by rewrite normalize_id, firstn_all. Qed.

Lemma val_split_last l :
  (1 <= length l)%nat →
  val l = val (take (length l - 1) l)
          + BIGINT_BASE ^ Z.of_nat (length l - 1) * at_ l (length l - 1).
Proof.
  intros H. rewrite <- val_take_S.
  replace (S (length l - 1)) with (length l) by lia. by rewrite firstn_all.
Qed.

(** A normalised array of more than one limb is at least [B^(n-1)]. *)
Lemma normalized_lower l :
  limbs_ok l → normalized l → (1 < length l)%nat →
  BIGINT_BASE ^ Z.of_nat (length l - 1) <= val l.
Proof.
  intros Hok [H1 H2] Hlt. rewrite val_split_last by done.
  pose proof (val_nonneg (take (length l - 1) l) ltac:(auto with limbs)).
  pose proof (limbs_ok_at l (length l - 1) Hok) as Ha.
  pose proof (base_pow_pos (length l - 1)).
  specialize (H2 Hlt). unfold limb in Ha. nia.
Qed.

(** A larger normalised number has at least as many limbs. *)
Lemma normalized_length_le a b :
  limbs_ok a → limbs_ok b → normalized a → normalized b →
  val b <= val a → (length b <= length a)%nat.
Proof.
  intros Ha Hb Na Nb Hle. destruct (le_lt_dec (length b) (length a)) as [|Hlt]; [done|].
  exfalso. pose proof (val_bounds a Ha). destruct Na as [Na _].
  pose proof (normalized_lower b Hb Nb ltac:(lia)).
  assert (BIGINT_BASE ^ Z.of_nat (length a) <= BIGINT_BASE ^ Z.of_nat (length b - 1)).
  { apply Z.pow_le_mono_r; unfold BIGINT_BASE; lia. }
  lia.
Qed.

(** Limb arrays of one length are determined by their value, and so are normalised ones. *)
Lemma val_inj a b : limbs_ok a → limbs_ok b → length a = length b → val a = val b → a = b.
Proof.
  intros Ha. revert b. induction Ha as [|x a Hx Ha IH]; intros b Hb L E.
  - by destruct b.
  - destruct Hb as [|y b Hy Hb]; [done|]. simpl in E, L. unfold limb, BIGINT_BASE in *.
    assert (x = y ∧ val a = val b) as [-> ?] by lia. f_equal. apply IH; auto.
Qed.

Lemma normalized_inj a b :
  limbs_ok a → limbs_ok b → normalized a → normalized b → val a = val b → a = b.
Proof.
  intros Ha Hb Na Nb E. apply val_inj; [done..| |done].
  apply Nat.le_antisymm; apply normalized_length_le; done || lia.
Qed.

(** ** Comparison *)

Lemma cmp_from_spec a b i :
  limbs_ok a → limbs_ok b →
  cmp_from a b i = Z.sgn (val (take i a) - val (take i b)).
Proof.
  intros Ha Hb. induction i as [|i IH]; [done|]. simpl cmp_from.
  rewrite IH, !val_take_S. clear IH.
  pose proof (val_bounds (take i a) ltac:(auto with limbs)) as Ba.
  pose proof (val_bounds (take i b) ltac:(auto with limbs)) as Bb.
  pose proof (base_pow_pos i) as Hp.
  assert (∀ l : list Z, BIGINT_BASE ^ Z.of_nat (length (take i l)) <= BIGINT_BASE ^ Z.of_nat i).
  { intros l. apply Z.pow_le_mono_r; [unfold BIGINT_BASE; lia|]. rewrite length_take. lia. }
  pose proof (H a). pose proof (H b).
  set (p := BIGINT_BASE ^ Z.of_nat i) in *.
  destruct (Z.eqb_spec (at_ a i) (at_ b i)) as [->|]; [f_equal; lia|].
  case_ltb; symmetry.
  - apply Z.sgn_pos_iff. nia.
  - apply Z.sgn_neg_iff. nia.
Qed.

Lemma bigint_cmp_abs_limbs_spec a b :
  limbs_ok a → limbs_ok b → (1 <= length a)%nat → (1 <= length b)%nat →
  bigint_cmp_abs_limbs a b = Z.sgn (val a - val b).
Proof.
  intros Ha Hb La Lb. unfold bigint_cmp_abs_limbs.
  rewrite <- (norm_val a), <- (norm_val b), <- !length_norm.
  pose proof (norm_normalized a La) as Na. pose proof (norm_normalized b Lb) as Nb.
  pose proof (norm_ok a Ha) as Oa. pose proof (norm_ok b Hb) as Ob.
  pose proof (normalized_length_le _ _ Oa Ob Na Nb).
  pose proof (normalized_length_le _ _ Ob Oa Nb Na).
  repeat case_ltb; simpl; try lia.
  - rewrite cmp_from_spec by done. unfold norm at 3 4. f_equal. f_equal; f_equal; f_equal.
    + apply length_norm.
    + rewrite e. apply length_norm.
Qed.

(** ** Addition and subtraction *)

Lemma add_loop_spec n a b carry r c :
  limbs_ok a → limbs_ok b → (length a <= n)%nat → (length b <= n)%nat →
  0 <= carry <= 1 → add_loop n a b carry = (r, c) →
  limbs_ok r ∧ length r = n ∧ 0 <= c <= 1 ∧
  val r + BIGINT_BASE ^ Z.of_nat n * c = val a + val b + carry.
Proof.
  revert a b carry r c. induction n as [|n IH]; intros a b carry r c Ha Hb La Lb Hc E; simpl in E.
  - injection E as <- <-. destruct a, b; simpl in *; try lia.
    split; [constructor|]. simpl. lia.
  - destruct (add_loop n (tl a) (tl b) _) as [r' c'] eqn:E'. injection E as <- <-.
    pose proof (limbs_ok_hd a Ha) as Da. pose proof (limbs_ok_hd b Hb) as Db.
    unfold limb, BIGINT_BASE in Da, Db.
    rewrite shiftr_div in E' by lia.
    apply IH in E' as (Hr & Hl & Hc' & Hv); auto with limbs;
      [|rewrite length_tl; lia..|word].
    split; [auto with limbs|]. split; [simpl; lia|]. split; [done|].
    simpl val. rewrite base_pow, (val_hd_tl a), (val_hd_tl b).
    unfold BIGINT_BASE in *. set (p := 0x100000000 ^ Z.of_nat n) in *.
    unfold_words. rewrite !(Z.mod_small _ (2 ^ 64)) in * by lia. nia.
Qed.

Lemma bigint_add_abs_limbs_spec a b r n :
  limbs_ok a → limbs_ok b → bigint_add_abs_limbs a b = (r, n) →
  limbs_ok r ∧ length r = S (length a `max` length b) ∧ (n <= length r)%nat ∧
  (length a `max` length b <= n)%nat ∧ val (take n r) = val a + val b.
Proof.
  intros Ha Hb. unfold bigint_add_abs_limbs. cbn zeta.
  replace (if (length b <? length a)%nat then length a else length b)
    with (length a `max` length b)%nat by (case_ltb; lia).
  destruct (add_loop _ a b 0) as [r' c] eqn:E. intros [= <- <-].
  apply add_loop_spec in E as (Hr & Hl & Hc & Hv); [|done|done|lia..].
  rewrite length_app, Hl. cbn [length].
  split; [auto with limbs|]. split; [lia|].
  assert (c = 0 ∨ c = 1) as [-> | ->] by lia; simpl.
  - rewrite Nat.add_0_r. split; [lia|]. split; [lia|].
    rewrite take_app_length' by lia. lia.
  - split; [lia|]. split; [lia|]. rewrite take_ge by (rewrite length_app; simpl; lia).
    rewrite val_app, Hl. simpl. change (u32 1) with 1. lia.
Qed.

Lemma sub_loop_spec a b borrow :
  limbs_ok a → limbs_ok b → (length b <= length a)%nat → 0 <= borrow <= 1 →
  limbs_ok (sub_loop a b borrow) ∧ length (sub_loop a b borrow) = length a ∧
  ∃ o, 0 <= o <= 1 ∧
    val (sub_loop a b borrow)
    = val a - val b - borrow + BIGINT_BASE ^ Z.of_nat (length a) * o.
Proof.
  intros Ha. revert b borrow. induction Ha as [|da a Hda Ha IH]; intros b borrow Hb Lb Hbo.
  - destruct b; simpl in *; [|lia]. split; [constructor|]. split; [done|]. exists borrow. lia.
  - pose proof (limbs_ok_hd b Hb) as Db. unfold limb, BIGINT_BASE in Db, Hda.
    simpl sub_loop. rewrite (val_hd_tl b). simpl val. simpl length. rewrite base_pow.
    assert (u64 (hd 0 b + borrow) = hd 0 b + borrow) as Hs by (rewrite u64_small; lia).
    rewrite !Hs.
    case_ltb.
    + destruct (IH (tl b) 1) as (H1 & H2 & o & Ho & Hv);
        [auto with limbs|rewrite length_tl; simpl in Lb; lia|lia|].
      split; [auto with limbs|]. split; [simpl; lia|]. exists o. split; [done|].
      simpl val. rewrite Hv. unfold BIGINT_BASE in *. unfold_words.
      rewrite !Z.mod_small by lia. nia.
    + destruct (IH (tl b) 0) as (H1 & H2 & o & Ho & Hv);
        [auto with limbs|rewrite length_tl; simpl in Lb; lia|lia|].
      split; [auto with limbs|]. split; [simpl; lia|]. exists o. split; [done|].
      simpl val. rewrite Hv. unfold BIGINT_BASE in *. unfold_words.
      rewrite !Z.mod_small by lia. nia.
Qed.

Lemma bigint_sub_abs_limbs_spec a b r n :
  limbs_ok a → limbs_ok b → (length b <= length a)%nat → val b <= val a →
  bigint_sub_abs_limbs a b = (r, n) →
  limbs_ok r ∧ length r = length a ∧ n = length a ∧ val (take n r) = val a - val b.
Proof.
  intros Ha Hb L V [= <- <-].
  destruct (sub_loop_spec a b 0) as (H1 & H2 & o & Ho & Hv); [done..|lia|].
  split; [done|]. split; [done|]. split; [done|].
  rewrite take_ge by lia. pose proof (val_bounds _ H1) as Hb1. rewrite H2 in Hb1.
  pose proof (val_nonneg b Hb). pose proof (val_bounds a Ha).
  assert (o = 0) by nia. subst. lia.
Qed.

(** ** Multiplication *)

Lemma mul_carry_spec res carry :
  limbs_ok res → limb carry →
  val res + carry < BIGINT_BASE ^ Z.of_nat (length res) →
  returns (mul_carry res carry) (λ r,
    limbs_ok r ∧ length r = length res ∧ val r = val res + carry).
Proof.
  intros Hr. revert carry. induction Hr as [|x res Hx Hr IH]; intros carry Hc Hfit.
  - simpl in *. destruct (Z.eqb_spec carry 0) as [->|]; [simpl; auto with limbs|].
    unfold limb in Hc. simpl in Hfit. lia.
  - simpl mul_carry. destruct (Z.eqb_spec carry 0) as [->|].
    { simpl. auto with limbs. split; [auto with limbs|]. split; [done|lia]. }
    rewrite land_0xffffffff, !shiftr_div by lia.
    simpl val in *. simpl length in *. rewrite base_pow in Hfit.
    unfold limb, BIGINT_BASE in Hc, Hx.
    set (cur := u64 (x + carry mod 2 ^ 32)).
    assert (Hcur : cur = x + carry) by (subst cur; word).
    apply returns_bind.
    eapply returns_mono; [apply IH|].
    + unfold limb, BIGINT_BASE. word.
    + unfold BIGINT_BASE in *. unfold_words. nia.
    + intros rest (H1 & H2 & H3). simpl. split; [auto with limbs|]. split; [lia|].
      rewrite H3. unfold BIGINT_BASE. word.
Qed.

(** One row adds [ai * b + carry] to the buffer, and stays inside it when the sum fits. *)
Lemma mul_row_spec ai b res carry :
  limb ai → limbs_ok b → limbs_ok res → limb carry → (length b <= length res)%nat →
  val res + ai * val b + carry < BIGINT_BASE ^ Z.of_nat (length res) →
  returns (mul_row ai b res carry) (λ r,
    limbs_ok r ∧ length r = length res ∧ val r = val res + ai * val b + carry).
Proof.
  intros Hai Hb. revert res carry.
  induction Hb as [|bj b Hbj Hb IH]; intros res carry Hr Hc L Hfit.
  - simpl mul_row. simpl val in *. rewrite Z.mul_0_r, Z.add_0_r in *.
    by apply mul_carry_spec.
  - destruct Hr as [|x res Hx Hr]; [simpl in L; lia|].
    simpl mul_row. rewrite !land_0xffffffff, !shiftr_div by lia.
    simpl val in *. simpl length in *. rewrite base_pow in Hfit.
    unfold limb, BIGINT_BASE in Hc, Hx, Hai, Hbj.
    assert (0 <= ai * bj <= 0xffffffff * 0xffffffff) by nia.
    set (prod := u64 (ai * bj)). assert (Hprod : prod = ai * bj) by (subst prod; word).
    set (lo := u64 (x + prod mod 2 ^ 32 + carry mod 2 ^ 32)).
    set (carry' := u64 (prod / 2 ^ 32 + carry / 2 ^ 32 + lo / 2 ^ 32)).
    assert (Hstep : u32 lo + 0x100000000 * carry' = x + ai * bj + carry).
    { subst carry' lo. rewrite Hprod. word. }
    assert (limb carry').
    { unfold limb, BIGINT_BASE. pose proof (u32_range lo). subst carry'. nia. }
    apply returns_bind.
    eapply returns_mono; [apply (IH res carry')|]; auto with limbs; [lia|..].
    + unfold BIGINT_BASE in *. pose proof (u32_range lo). nia.
    + intros rest (H1 & H2 & H3). simpl. split; [auto with limbs|]. split; [lia|].
      rewrite H3. unfold BIGINT_BASE. nia.
Qed.

Lemma mul_rows_spec a b res :
  limbs_ok a → limbs_ok b → limbs_ok res → (length a + length b <= length res)%nat →
  (1 <= length b)%nat →
  val res + val a * val b < BIGINT_BASE ^ Z.of_nat (length res) →
  returns (mul_rows a b res) (λ r,
    limbs_ok r ∧ length r = length res ∧ val r = val res + val a * val b).
Proof.
  intros Ha Hb. revert res.
  induction Ha as [|ai a Hai Ha IH]; intros res Hr L Lb Hfit.
  - simpl in *. split; [done|]. split; [done|lia].
  - simpl mul_rows. simpl val in *. simpl length in L. apply returns_bind.
    pose proof (val_nonneg a Ha). pose proof (val_nonneg b Hb).
    eapply returns_mono; [apply mul_row_spec|]; auto with limbs; [lia|..].
    { unfold BIGINT_BASE in *. nia. }
    intros row (H1 & H2 & H3).
    destruct H1 as [|x row Hx H1]; [simpl in H2; lia|].
    apply returns_bind. simpl in H2, H3. rewrite <- H2 in Hfit |- *.
    rewrite base_pow in Hfit. unfold limb in Hx.
    eapply returns_mono; [apply IH|]; auto; [lia|..].
    + unfold BIGINT_BASE in *. nia.
    + intros rest (K1 & K2 & K3). simpl. split; [auto with limbs|]. split; [lia|].
      rewrite K3. nia.
Qed.

(** A zeroed buffer of [alen + blen + 1] limbs holds the product. *)
Lemma mul_rows_zero a b :
  limbs_ok a → limbs_ok b → (1 <= length b)%nat →
  returns (mul_rows a b (replicate (length a + length b + 1) 0)) (λ r,
    limbs_ok r ∧ length r = (length a + length b + 1)%nat ∧ val r = val a * val b).
Proof.
  intros Ha Hb Lb. set (n := (length a + length b + 1)%nat).
  eapply returns_mono; [apply mul_rows_spec; auto with limbs|].
  - rewrite length_replicate. subst n. lia.
  - rewrite length_replicate, val_replicate_0. subst n.
    pose proof (val_bounds a Ha) as Ba. pose proof (val_bounds b Hb) as Bb.
    rewrite !Nat2Z.inj_add, !Z.pow_add_r by lia.
    pose proof (base_pow_pos (length a)). pose proof (base_pow_pos (length b)).
    set (p := BIGINT_BASE ^ Z.of_nat (length a)) in *.
    set (q := BIGINT_BASE ^ Z.of_nat (length b)) in *.
    change (BIGINT_BASE ^ Z.of_nat 1) with 0x100000000.
    assert (val a * val b < p * q) by nia. assert (0 < p * q) by nia. lia.
  - intros r (H1 & H2 & H3). rewrite length_replicate in H2.
    rewrite val_replicate_0 in H3. done.
Qed.

(** The schoolbook product never writes past [alen + blen + 1] limbs and denotes the
    product. *)
Lemma bigint_mul_abs_limbs_spec a b :
  limbs_ok a → limbs_ok b → (1 <= length a)%nat → (1 <= length b)%nat →
  returns (bigint_mul_abs_limbs a b) (λ '(r, n),
    limbs_ok r ∧ (1 <= n <= length r)%nat ∧ (length r <= length a + length b + 1)%nat ∧
    val (take n r) = val a * val b).
Proof.
  intros Ha Hb La Lb. unfold bigint_mul_abs_limbs. cbn zeta.
  destruct ((length a =? 1) && (length b =? 1))%nat eqn:E.
  - apply andb_true_iff in E as [E1%Nat.eqb_eq E2%Nat.eqb_eq].
    destruct a as [|x [|]], b as [|y [|]]; try done.
    apply Forall_cons in Ha as [Hx _]. apply Forall_cons in Hb as [Hy _].
    unfold at_. simpl nth. simpl val. unfold limb, BIGINT_BASE in *.
    rewrite !shiftr_div by lia.
    assert (0 <= x * y <= 0xffffffff * 0xffffffff) by nia.
    rewrite (u64_small (x * y)) by lia.
    split; [auto with limbs|]. split; [case_ltb; simpl; lia|]. split; [simpl; lia|].
    case_ltb; simpl; unfold BIGINT_BASE; word.
  - apply returns_bind. eapply returns_mono; [by apply mul_rows_zero|].
    intros r (H1 & H2 & H3). simpl. rewrite H2. split; [done|]. split; [lia|].
    split; [lia|]. by rewrite take_ge by lia.
Qed.

(** ** Shifts *)

Lemma shift_split s : 0 <= s → s = 32 * Z.of_nat (Z.to_nat (s >>' 5)) + (s &' 31).
Proof.
  intros Hs. rewrite (land_mask_eq s 31 5), shiftr_div by lia. rewrite Z2Nat.id by lia. lia.
Qed.

Lemma shift_bit_range s : 0 <= s &' 31 < 32.
Proof. rewrite (land_mask_eq s 31 5) by lia. lia. Qed.

Lemma pow2_shift s :
  0 <= s → 2 ^ s = BIGINT_BASE ^ Z.of_nat (Z.to_nat (s >>' 5)) * 2 ^ (s &' 31).
Proof.
  intros Hs. pose proof (shift_bit_range s). rewrite base_pow_2, <- Z.pow_add_r by lia.
  f_equal. by apply shift_split.
Qed.

Lemma pow2_range bs : 0 < bs < 32 → 2 <= 2 ^ bs <= 2 ^ 31.
Proof. intros H. split; [apply (Z.pow_le_mono_r 2 1)|apply Z.pow_le_mono_r]; lia. Qed.

Lemma pow2_compl bs : 0 < bs < 32 → 2 ^ bs * 2 ^ (32 - bs) = BIGINT_BASE.
Proof. intros H. rewrite <- Z.pow_add_r by lia. by replace (bs + (32 - bs)) with 32 by lia. Qed.

Lemma shl_loop_spec l bs carry r c :
  limbs_ok l → 0 < bs < 32 → 0 <= carry < 2 ^ bs → shl_loop l bs carry = (r, c) →
  limbs_ok r ∧ length r = length l ∧ 0 <= c < 2 ^ bs ∧
  val r + BIGINT_BASE ^ Z.of_nat (length l) * c = val l * 2 ^ bs + carry.
Proof.
  intros Hl Hbs. pose proof (pow2_range bs Hbs) as Hp. revert carry r c.
  induction Hl as [|x l Hx Hl IH]; intros carry r c Hc E; simpl in E.
  - injection E as <- <-. split; [constructor|]. simpl. lia.
  - destruct (shl_loop l bs _) as [r' c'] eqn:E'. injection E as <- <-.
    rewrite shiftl_mul in * by lia. unfold limb, BIGINT_BASE in Hx.
    rewrite u64_small in * by nia. rewrite lor_add_low in * by lia.
    rewrite shiftr_div in E' by lia.
    assert (0 <= (x * 2 ^ bs + carry) / 2 ^ 32 < 2 ^ bs) as Hq.
    { split; [apply Z.div_pos; nia|]. apply Z.div_lt_upper_bound; nia. }
    rewrite u32_small in E' by lia.
    apply IH in E' as (H1 & H2 & H3 & H4); [|done].
    split; [auto with limbs|]. split; [simpl; lia|]. split; [done|].
    simpl val. simpl length. rewrite base_pow. unfold BIGINT_BASE in *. unfold_words. nia.
Qed.

Lemma bigint_shift_left_abs_spec l s r n :
  limbs_ok l → (1 <= length l)%nat → 0 <= s → bigint_shift_left_abs l s = (r, n) →
  limbs_ok r ∧ length r = (length l + Z.to_nat (s >>' 5) + 1)%nat ∧
  (1 <= n <= length r)%nat ∧ val (take n r) = val l * 2 ^ s.
Proof.
  intros Hl L Hs. unfold bigint_shift_left_abs. cbn zeta.
  pose proof (shift_bit_range s) as Hb. rewrite (pow2_shift s) by done.
  set (k := Z.to_nat (s >>' 5)). set (bs := s &' 31) in *.
  destruct (Z.eqb_spec bs 0) as [->|].
  - intros [= <- <-]. set (out := replicate k 0 ++ l ++ [0]).
    pose proof (normalize_le out (length l + k)).
    pose proof (normalize_pos out (length l + k) ltac:(lia)).
    assert (length out = length l + k + 1)%nat.
    { subst out. rewrite !length_app, length_replicate. simpl. lia. }
    split; [subst out; auto 6 with limbs|]. split; [done|]. split; [lia|].
    rewrite normalize_val. subst out. rewrite app_assoc, take_app_le
      by (rewrite length_app, length_replicate; lia).
    rewrite take_ge by (rewrite length_app, length_replicate; lia).
    rewrite val_app, val_replicate_0, length_replicate. lia.
  - destruct (shl_loop l bs 0) as [r' c] eqn:E. intros [= <- <-].
    apply shl_loop_spec in E as (H1 & H2 & H3 & H4); [|done|lia..].
    set (out := replicate k 0 ++ r' ++ [c]).
    pose proof (pow2_range bs ltac:(lia)).
    assert (length out = length l + k + 1)%nat.
    { subst out. rewrite !length_app, length_replicate. simpl. lia. }
    pose proof (normalize_le out (length l + k + 1)).
    pose proof (normalize_pos out (length l + k + 1) ltac:(lia)).
    assert (limb c) by (unfold limb, BIGINT_BASE; lia).
    split; [subst out; auto 6 with limbs|]. split; [done|]. split; [lia|].
    rewrite normalize_val, take_ge by lia. subst out.
    rewrite val_app, val_replicate_0, length_replicate, val_app, H2. simpl. nia.
Qed.

Lemma shr_loop_spec l bs r c :
  limbs_ok l → 0 < bs < 32 → shr_loop l bs (u32 ((1 <<' bs) - 1)) = (r, c) →
  limbs_ok r ∧ length r = length l ∧ c = at_ l 0 mod 2 ^ bs ∧ val l = val r * 2 ^ bs + c.
Proof.
  intros Hl Hbs. pose proof (pow2_range bs Hbs) as Hp. pose proof (pow2_compl bs Hbs) as Hc.
  rewrite shiftl_mul, Z.mul_1_l, u32_small by lia. revert r c.
  induction Hl as [|x l Hx Hl IH]; intros r c E; simpl in E.
  - injection E as <- <-. split; [constructor|]. split; [done|]. split; [done|]. simpl. lia.
  - destruct (shr_loop l bs _) as [r' c'] eqn:E'. injection E as <- <-.
    destruct (IH r' c') as (H1 & H2 & H3 & H4); [done|]. clear IH E'.
    assert (0 <= c' < 2 ^ bs) by (subst c'; apply Z.mod_pos_bound; lia). clear H3.
    unfold limb, BIGINT_BASE in Hx. rewrite land_mask, shiftr_div, shiftl_mul by lia.
    set (p := 2 ^ bs) in *. set (w := 2 ^ (32 - bs)) in *. unfold BIGINT_BASE in Hc.
    assert (0 <= x / p < w) by (split; [apply Z.div_pos|apply Z.div_lt_upper_bound]; nia).
    rewrite u32_small by nia. rewrite Z.lor_comm. subst w.
    rewrite lor_add_low by lia. set (w := 2 ^ (32 - bs)) in *.
    pose proof (Z.div_mod x p ltac:(lia)).
    split; [|split; [simpl; lia|split; [done|]]].
    + apply Forall_cons. split; [|done]. unfold limb, BIGINT_BASE. nia.
    + simpl val. rewrite H4. unfold BIGINT_BASE. nia.
Qed.

(** The branch of the right shift that keeps some limbs: [k] whole limbs and [bs] bits go. *)
Lemma shr_core_spec l k bs :
  limbs_ok l → (k < length l)%nat → 0 <= bs < 32 →
  let out := if bs =? 0 then drop k l
             else fst (shr_loop (drop k l) bs (u32 ((1 <<' bs) - 1))) in
  let lost := if bs =? 0 then any_nonzero (take k l)
              else if negb (at_ l k &' u32 ((1 <<' bs) - 1) =? 0) then true
              else any_nonzero (take k l) in
  limbs_ok out ∧ length out = (length l - k)%nat ∧
  val out = val l / (BIGINT_BASE ^ Z.of_nat k * 2 ^ bs) ∧
  lost = negb (val l mod (BIGINT_BASE ^ Z.of_nat k * 2 ^ bs) =? 0).
Proof.
  intros Hl Hk Hbs. cbn zeta. pose proof (base_pow_pos k) as Hb.
  rewrite (val_take_drop k l) by lia.
  rewrite (any_nonzero_val (take k l)) by auto with limbs.
  pose proof (val_bounds (take k l) ltac:(auto with limbs)) as Hlo.
  rewrite length_take, Nat.min_l in Hlo by lia.
  pose proof (val_nonneg (drop k l) ltac:(auto with limbs)) as Hhi.
  assert (limbs_ok (drop k l)) as Hd by auto with limbs.
  set (lo := val (take k l)) in *. set (p := BIGINT_BASE ^ Z.of_nat k) in *.
  destruct (Z.eqb_spec bs 0) as [->|].
  - rewrite length_drop. split; [done|]. split; [done|].
    destruct (div_mod_digits lo (val (drop k l)) p ltac:(lia)) as [E1 E2].
    rewrite Z.mul_1_r, E1, E2. done.
  - destruct (shr_loop _ _ _) as [r c] eqn:E. simpl fst.
    apply shr_loop_spec in E as (H1 & H2 & H3 & H4); [|done|lia].
    rewrite length_drop in H2. rewrite at_drop, Nat.add_0_r in H3.
    split; [done|]. split; [done|].
    rewrite shiftl_mul, Z.mul_1_l by lia. pose proof (pow2_range bs ltac:(lia)).
    rewrite (u32_small (2 ^ bs - 1)), land_mask, <- H3 by lia.
    assert (0 <= c < 2 ^ bs) by (subst c; apply Z.mod_pos_bound; lia).
    rewrite H4. clear H3 H4. set (q := 2 ^ bs) in *.
    replace (lo + p * (val r * q + c)) with (lo + p * c + p * q * val r) by ring.
    destruct (div_mod_digits (lo + p * c) (val r) (p * q) ltac:(nia)) as [E1 E2].
    rewrite E1, E2. split; [done|].
    destruct (Z.eqb_spec c 0), (Z.eqb_spec lo 0), (Z.eqb_spec (lo + p * c) 0); simpl; nia.
Qed.

(** Shifting right drops the low bits and reports whether any of them was set. *)
Lemma bigint_shift_right_abs_spec l s r n t :
  limbs_ok l → (1 <= length l)%nat → 0 <= s →
  bigint_shift_right_abs l s = (r, n, t) →
  limbs_ok r ∧ (1 <= n <= length r)%nat ∧
  zlen r = (if zlen l <=? s >>' 5 then 1 else zlen l - (s >>' 5)) ∧
  val (take n r) = val l / 2 ^ s ∧ t = negb (val l mod 2 ^ s =? 0).
Proof.
  intros Hl L Hs. unfold bigint_shift_right_abs. cbn zeta.
  pose proof (shift_bit_range s) as Hb. rewrite (pow2_shift s) by done.
  set (k := Z.to_nat (s >>' 5)). set (bs := s &' 31) in *.
  pose proof (val_bounds l Hl) as Hv. pose proof (base_pow_pos k) as Hk.
  assert (Z.of_nat k = s >>' 5) as Ek.
  { subst k. rewrite Z2Nat.id; [done|]. apply Z.shiftr_nonneg. lia. }
  unfold zlen. rewrite <- Ek.
  destruct (Z.leb_spec (Z.of_nat (length l)) (Z.of_nat k)) as [Hle|Hlt].
  - intros [= <- <- <-]. split; [auto with limbs|]. split; [simpl; lia|]. split; [done|].
    assert (BIGINT_BASE ^ Z.of_nat (length l) <= BIGINT_BASE ^ Z.of_nat k)
      by (apply Z.pow_le_mono_r; unfold BIGINT_BASE; lia).
    assert (1 <= 2 ^ bs) by (apply (Z.pow_le_mono_r 2 0); lia).
    assert (val l < BIGINT_BASE ^ Z.of_nat k * 2 ^ bs) by nia.
    rewrite Z.div_small, Z.mod_small by lia. split; [done|].
    by apply any_nonzero_val.
  - destruct (shr_core_spec l k bs Hl ltac:(lia) ltac:(lia)) as (H1 & H2 & H3 & H4).
    intros [= <- <- <-]. set (out := if bs =? 0 then _ else _) in *.
    pose proof (normalize_le out (length l - k)).
    pose proof (normalize_pos out (length l - k) ltac:(lia)).
    split; [done|]. split; [lia|]. split; [lia|].
    rewrite normalize_val, take_ge by lia. done.
Qed.

(** ** Division by one limb, and incrementing in place *)

Lemma bigint_div_small_inplace_spec l d q r :
  limbs_ok l → 0 < d < BIGINT_BASE → bigint_div_small_inplace l d = (q, r) →
  limbs_ok q ∧ length q = length l ∧ 0 <= r < d ∧ val l = val q * d + r.
Proof.
  intros Hl Hd. revert q r. unfold BIGINT_BASE in Hd.
  induction Hl as [|x l Hx Hl IH]; intros q r E; simpl in E.
  - injection E as <- <-. split; [constructor|]. simpl. lia.
  - destruct (bigint_div_small_inplace l d) as [q' r'] eqn:E'. injection E as <- <-.
    destruct (IH q' r') as (H1 & H2 & H3 & H4); [done|]. clear IH E'.
    unfold limb, BIGINT_BASE in Hx. rewrite shiftl_mul by lia.
    rewrite u64_small, lor_add_low by lia. set (cur := r' * 2 ^ 32 + x).
    assert (0 <= cur / d < 2 ^ 32) by (split; [apply Z.div_pos|apply Z.div_lt_upper_bound]; nia).
    rewrite u32_small by lia. split.
    { apply Forall_cons. split; [|done]. unfold limb, BIGINT_BASE. lia. }
    split; [simpl; lia|]. split; [apply Z.mod_pos_bound; lia|].
    pose proof (Z.div_mod cur d ltac:(lia)). simpl val. rewrite H4.
    unfold BIGINT_BASE. nia.
Qed.

Lemma add_u32_loop_spec l carry r c :
  limbs_ok l → limb carry → add_u32_loop l carry = (r, c) →
  limbs_ok r ∧ length r = length l ∧ limb c ∧
  val r + BIGINT_BASE ^ Z.of_nat (length l) * c = val l + carry.
Proof.
  intros Hl. revert carry r c. induction Hl as [|x l Hx Hl IH]; intros carry r c Hc E; simpl in E.
  - injection E as <- <-. split; [constructor|]. split; [done|]. split; [done|].
    simpl val. simpl length. rewrite Z.pow_0_r. lia.
  - destruct (Z.eqb_spec carry 0) as [->|].
    { injection E as <- <-. split; [auto with limbs|]. split; [done|]. split; [done|]. lia. }
    destruct (add_u32_loop l _) as [r' c'] eqn:E'. injection E as <- <-.
    rewrite shiftr_div in E' by lia. unfold limb, BIGINT_BASE in Hx, Hc.
    rewrite u64_small in E' by lia.
    apply IH in E' as (H1 & H2 & H3 & H4); [|unfold limb, BIGINT_BASE; word].
    split; [auto with limbs|]. split; [simpl; lia|]. split; [done|].
    simpl val. simpl length. rewrite base_pow. unfold BIGINT_BASE in *. unfold_words. nia.
Qed.

Lemma bigint_add_u32_inplace_spec l cap v r n :
  limbs_ok l → (1 <= length l <= cap)%nat → limb v →
  val l + v < BIGINT_BASE ^ Z.of_nat cap →
  bigint_add_u32_inplace l cap v = (r, n) →
  limbs_ok r ∧ (1 <= n <= length r)%nat ∧ (length r <= cap)%nat ∧ val (take n r) = val l + v.
Proof.
  intros Hl Hlen Hv Hfit. unfold bigint_add_u32_inplace.
  destruct (add_u32_loop l v) as [r' c] eqn:E. cbn zeta. intros [= <- <-].
  apply add_u32_loop_spec in E as (H1 & H2 & H3 & H4); [|done..].
  set (out := if negb (c =? 0) && (length l <? cap)%nat then r' ++ [u32 c] else r').
  assert (limbs_ok out ∧ (length l <= length out <= cap)%nat ∧ val out = val l + v)
    as (K1 & K2 & K3).
  { subst out. destruct (Z.eqb_spec c 0) as [->|]; simpl.
    { split; [done|]. split; [lia|lia]. }
    case_ltb.
    - rewrite length_app. simpl. split; [auto with limbs|]. split; [lia|].
      rewrite val_app, H2. simpl. rewrite u32_small by (unfold limb, BIGINT_BASE in H3; lia).
      lia.
    - exfalso. replace cap with (length l) in Hfit by lia.
      pose proof (val_nonneg r' H1). unfold limb in H3.
      pose proof (base_pow_pos (length l)). nia. }
  pose proof (normalize_le out (length out)).
  pose proof (normalize_pos out (length out) ltac:(lia)).
  split; [done|]. split; [lia|]. split; [lia|].
  by rewrite normalize_val, take_ge.
Qed.

(** ** Bit length *)

Lemma log2_split lo top k :
  0 <= k → 0 < top → 0 <= lo < 2 ^ k → Z.log2 (lo + 2 ^ k * top) = k + Z.log2 top.
Proof.
  intros Hk Ht Hlo. pose proof (Z.log2_spec top Ht) as [H1 H2].
  pose proof (Z.log2_nonneg top). apply Z.log2_unique; [lia|].
  rewrite Z.pow_succ_r, Z.pow_add_r by lia. rewrite Z.pow_succ_r in H2 by lia. nia.
Qed.

Lemma bigint_abs_bitlen_limbs_spec l :
  limbs_ok l → (1 <= length l)%nat →
  bigint_abs_bitlen_limbs l = if val l =? 0 then 0 else Z.log2 (val l) + 1.
Proof.
  intros Hl L. unfold bigint_abs_bitlen_limbs, clz32_nonzero, BIGINT_LIMB_SIZE. cbn zeta.
  rewrite <- length_norm, <- (norm_val l).
  pose proof (norm_normalized l L) as [N1 N2]. pose proof (norm_ok l Hl) as O.
  rewrite <- (at_norm l 0), <- (at_norm l (length (norm l) - 1)) by lia.
  revert N1 N2 O. generalize (norm l). clear l Hl L. intros l N1 N2 O.
  pose proof (limbs_ok_at l (length l - 1) O) as Ht. unfold limb in Ht.
  destruct (Nat.eqb_spec (length l) 1) as [E1|E1]; simpl.
  - destruct l as [|x [|]]; simpl in *; try lia. unfold at_ in *. simpl in *.
    rewrite Z.mul_0_r, Z.add_0_r. case_ltb; lia.
  - specialize (N2 ltac:(lia)). pose proof (val_bounds (take (length l - 1) l)
      ltac:(auto with limbs)) as Hlo.
    rewrite length_take, Nat.min_l in Hlo by lia.
    rewrite (val_split_last l) by lia. rewrite base_pow_2 in * by lia.
    destruct (Z.eqb_spec (val (take (length l - 1) l)
      + 2 ^ (32 * Z.of_nat (length l - 1)) * at_ l (length l - 1)) 0); [nia|].
    rewrite log2_split by lia. lia.
Qed.
