(* ===== verification/BigInt.v ===== *)
(** * BigInt values and their operators

    Models the signed layer of src/modules/bigint.c: the payload, its allocation and
    normalisation, and the operators the interpreter calls on two BigInt values.  The limbs
    are those of [BigIntLimbs]. *)

From S2P Require Import Prelude BigIntLimbs.

(** [bigint_payload_t]: [sign] is the byte [sign == 1], [limbs] the first [limb_count]
    limbs. *)
Record bigint := mk_bigint { sign : bool; limbs : list Z }.

Definition bigint_is_negative (v : bigint) : bool := sign v.

(** The limbs and their count, at least one. *)
Definition bigint_limbs (v : bigint) : list Z :=
  match limbs v with [] => [0] | l => l end.

Definition oom : js_err := mk_js_err JS_ERR_TYPE "oom".

Section operations.
Context `{Heap}.

Definition limb_alloc (count : Z) : bool :=
  let count := if count =? 0 then 1 else count in calloc (count * 4).

Definition bigint_alloc_payload (capacity : Z) : outcome unit :=
  let capacity := if capacity =? 0 then 1 else capacity in
  if UINT32_MAX <? capacity then js_mkerr "oom"
  else
    match checked_mul_size capacity 4 with
    | None => js_mkerr "oom"
    | Some limbs_bytes =>
        match checked_add_size 8 limbs_bytes with
        | None => js_mkerr "oom"
        | Some payload_size =>
            if js_type_alloc payload_size then Ok tt else js_mkerr "oom"
        end
    end.

Definition bigint_alloc_binary_payload (capacity : Z) : outcome unit :=
  if negb gc_push_root || negb gc_push_root then js_mkerr "oom"
  else bigint_alloc_payload capacity.

Definition bigint_alloc_unary_payload (capacity : Z) : outcome unit :=
  if negb gc_push_root then js_mkerr "oom" else bigint_alloc_payload capacity.

(** The payload's limbs are [buf], of which the first [count] hold the result. *)
Definition bigint_finish_payload (buf : list Z) (count : nat) (negative : bool) : bigint :=
  let count := bigint_normalize_limbs buf count in
  let negative := if (count =? 1)%nat && (at_ buf 0 =? 0) then false else negative in
  mk_bigint negative (take (Z.to_nat (u32 (Z.of_nat count))) buf).

Definition js_mkbigint_limbs (l : list Z) (negative : bool) : outcome bigint :=
  let l := match l with [] => [0] | _ => l end in
  let count := bigint_normalize_limbs l (length l) in
  _ ← bigint_alloc_payload (Z.of_nat count);
  Ok (bigint_finish_payload (take count l) count negative).

(** The operators compute into a stack buffer of 32 limbs, or into a fresh payload when they
    need more, and finish in the matching way.  [written] is what the limb routine wrote from
    the start of the buffer and [count] the count it returned. *)
Definition deliver (capacity : Z) (written : list Z) (count : nat) (negative : bool)
  : outcome bigint :=
  let heap := BIGINT_LIMB_SIZE <? capacity in
  let room := if heap then capacity else BIGINT_LIMB_SIZE in
  if room <? zlen written then Ub
  else if heap then Ok (bigint_finish_payload written count negative)
  else js_mkbigint_limbs (take count written) negative.

Definition bigint_from_uint64 (value : Z) : outcome bigint :=
  let l0 := u32 (value &' 0xffffffff) in
  let l1 := u32 (value >>' 32) in
  let count := if l1 =? 0 then 1%nat else 2%nat in
  js_mkbigint_limbs (take count [l0; l1]) false.

(** [-(value + 1)] is computed as [int64_t], then converted. *)
Definition bigint_from_int64 (value : Z) : outcome bigint :=
  let magnitude := if value <? 0 then u64 (u64 (- (value + 1)) + 1) else u64 value in
  let l0 := u32 (magnitude &' 0xffffffff) in
  let l1 := u32 (magnitude >>' 32) in
  let count := if l1 =? 0 then 1%nat else 2%nat in
  js_mkbigint_limbs (take count [l0; l1]) (value <? 0).

Definition bigint_low_u64 (v : bigint) : Z :=
  let l := bigint_limbs v in
  let out := if (0 <? length l)%nat then at_ l 0 else 0 in
  if (1 <? length l)%nat then out |' u64 (at_ l 1 <<' 32) else out.

Definition bigint_to_uint64_wrapping (v : bigint) : Z :=
  let low := bigint_low_u64 v in
  if bigint_is_negative v then u64 (0 - low) else low.

Definition bigint_to_int64_wrapping (v : bigint) : Z := i64 (bigint_to_uint64_wrapping v).

Definition bigint_parse_abs_u64 (v : bigint) : option Z :=
  let l := bigint_limbs v in
  if (2 <? length l)%nat then None
  else
    let acc := at_ l 0 in
    Some (if (length l =? 2)%nat then acc |' u64 (at_ l 1 <<' 32) else acc).

Definition bigint_parse_u64 (v : bigint) : option Z :=
  if bigint_is_negative v then None else bigint_parse_abs_u64 v.

Definition bigint_to_uint64_checked (v : bigint) : option Z := bigint_parse_u64 v.

Definition bigint_to_int64_checked (v : bigint) : option Z :=
  match bigint_parse_abs_u64 v with
  | None => None
  | Some magnitude =>
      let negative := bigint_is_negative v in
      if (2 ^ 63 - 1) + (if negative then 1 else 0) <? magnitude then None
      else
        Some (if negative && negb (magnitude =? 0)
              then - (i64 (magnitude - 1)) - 1 else i64 magnitude)
  end.

Definition bigint_add (a b : bigint) : outcome bigint :=
  let aneg := bigint_is_negative a in
  let bneg := bigint_is_negative b in
  let ad := bigint_limbs a in
  let bd := bigint_limbs b in
  let cmp := if Bool.eqb aneg bneg then 0 else bigint_cmp_abs_limbs ad bd in
  let '(capacity, rneg) :=
    if Bool.eqb aneg bneg
    then ((if zlen bd <? zlen ad then zlen ad else zlen bd) + 1, aneg)
    else if 0 <=? cmp then (zlen ad, aneg) else (zlen bd, bneg) in
  _ ← (if BIGINT_LIMB_SIZE <? capacity then bigint_alloc_binary_payload capacity else Ok tt);
  let '(result, rlen) :=
    if Bool.eqb aneg bneg then bigint_add_abs_limbs ad bd
    else if 0 <=? cmp then bigint_sub_abs_limbs ad bd
    else bigint_sub_abs_limbs bd ad in
  deliver capacity result rlen rneg.

Definition bigint_sub (a b : bigint) : outcome bigint :=
  let aneg := bigint_is_negative a in
  let bneg := bigint_is_negative b in
  let ad := bigint_limbs a in
  let bd := bigint_limbs b in
  let cmp := if negb (Bool.eqb aneg bneg) then 0 else bigint_cmp_abs_limbs ad bd in
  let '(capacity, rneg) :=
    if negb (Bool.eqb aneg bneg)
    then ((if zlen bd <? zlen ad then zlen ad else zlen bd) + 1, aneg)
    else if 0 <=? cmp then (zlen ad, aneg) else (zlen bd, negb aneg) in
  _ ← (if BIGINT_LIMB_SIZE <? capacity then bigint_alloc_binary_payload capacity else Ok tt);
  let '(result, rlen) :=
    if negb (Bool.eqb aneg bneg) then bigint_add_abs_limbs ad bd
    else if 0 <=? cmp then bigint_sub_abs_limbs ad bd
    else bigint_sub_abs_limbs bd ad in
  deliver capacity result rlen rneg.

Definition bigint_mul (a b : bigint) : outcome bigint :=
  let aneg := bigint_is_negative a in
  let bneg := bigint_is_negative b in
  let ad := bigint_limbs a in
  let bd := bigint_limbs b in
  let capacity := zlen ad + zlen bd + 1 in
  _ ← (if BIGINT_LIMB_SIZE <? capacity then bigint_alloc_binary_payload capacity else Ok tt);
  '(result, rlen) ← bigint_mul_abs_limbs ad bd;
  deliver capacity result rlen (negb (Bool.eqb aneg bneg)).

Definition bigint_neg (a : bigint) : outcome bigint :=
  let l := bigint_limbs a in
  _ ← bigint_alloc_unary_payload (zlen l);
  Ok (bigint_finish_payload l (length l) (negb (bigint_is_negative a))).

Definition bigint_is_odd (v : bigint) : bool := negb (at_ (bigint_limbs v) 0 &' 1 =? 0).

Definition bigint_is_zero (v : bigint) : bool :=
  limbs_is_zero (bigint_limbs v) (length (bigint_limbs v)).

Definition bigint_shift_left (v : bigint) (shift : Z) : outcome bigint :=
  if shift =? 0 then Ok v
  else
    let l := bigint_limbs v in
    if limbs_is_zero l (length l) then Ok v
    else
      let limb_shift_u64 := shift >>' 5 in
      if SIZE_MAX - zlen l - 1 <? limb_shift_u64 then js_mkerr "oom"
      else
        let capacity := zlen l + limb_shift_u64 + 1 in
        let negative := bigint_is_negative v in
        _ ← (if BIGINT_LIMB_SIZE <? capacity
             then bigint_alloc_unary_payload capacity else Ok tt);
        let '(result, rlen) := bigint_shift_left_abs l shift in
        deliver capacity result rlen negative.

Definition bigint_shift_right (v : bigint) (shift : Z) : outcome bigint :=
  if shift =? 0 then Ok v
  else
    let l := bigint_limbs v in
    if limbs_is_zero l (length l) then Ok v
    else
      let neg := bigint_is_negative v in
      let limb_shift_u64 := shift >>' 5 in
      let capacity :=
        if zlen l <=? limb_shift_u64 then 1
        else zlen l - limb_shift_u64 + (if neg then 1 else 0) in
      _ ← (if BIGINT_LIMB_SIZE <? capacity
           then bigint_alloc_unary_payload capacity else Ok tt);
      let '(result, qlen, truncated) := bigint_shift_right_abs l shift in
      let '(result, qlen) :=
        if neg && truncated
        then bigint_add_u32_inplace (take qlen result) (Z.to_nat capacity) 1
        else (result, qlen) in
      let negative := neg && negb (limbs_is_zero result qlen) in
      deliver capacity result qlen negative.

Definition bigint_shift_right_logical (v : bigint) (shift : Z) : outcome bigint :=
  js_mkerr_typed JS_ERR_TYPE "BigInts have no unsigned right shift, use >> instead".

Definition bigint_compare (a b : bigint) : Z :=
  let aneg := bigint_is_negative a in
  let bneg := bigint_is_negative b in
  if aneg && negb bneg then -1
  else if negb aneg && bneg then 1
  else
    let cmp := bigint_cmp_abs_limbs (bigint_limbs a) (bigint_limbs b) in
    if aneg then - cmp else cmp.

(** A zeroed array with one bit set. *)
Definition bigint_pow2 (bits : Z) : outcome bigint :=
  let limb_index_u64 := bits >>' 5 in
  if SIZE_MAX - 1 <? limb_index_u64 then js_mkerr "oom"
  else if negb (limb_alloc (limb_index_u64 + 1)) then js_mkerr "oom"
  else
    let l := replicate (Z.to_nat limb_index_u64) 0 ++ [u32 (1 <<' (bits &' 31))] in
    js_mkbigint_limbs l false.

End operations.

(** ** Values *)

(** The integer a BigInt denotes. *)
Definition to_Z (v : bigint) : Z := if sign v then - val (limbs v) else val (limbs v).

(** The representation invariant: 32-bit limbs, at least one, no leading zero limb, zero is
    not negative, and a count that fits [limb_count]. *)
Record wf (v : bigint) : Prop := mk_wf {
  wf_limbs : limbs_ok (limbs v);
  wf_norm : normalized (limbs v);
  wf_zero : val (limbs v) = 0 → sign v = false;
  wf_count : zlen (limbs v) <= UINT32_MAX
}.

(** The only error these operators report is running out of memory, and they report it only
    when an allocation of at most [cap] limbs was refused. *)
Definition refused `{Heap} (cap : Z) : Prop :=
  gc_push_root = false
  ∨ (∃ n, 1 <= n <= cap ∧ bigint_alloc_payload n = Throw oom)
  ∨ (∃ n, 1 <= n <= cap ∧ limb_alloc n = false)
  ∨ SIZE_MAX < cap.

(** [o] returns a well-formed BigInt that denotes [x], or reports a refused allocation; it
    never leaves the bounds of a buffer. *)
Definition computes `{Heap} (cap : Z) (o : outcome bigint) (x : Z) : Prop :=
  match o with
  | Ok r => wf r ∧ to_Z r = x
  | Throw e => e = oom ∧ refused cap
  | Ub => False
  end.

Lemma bigint_limbs_wf v : wf v → bigint_limbs v = limbs v.
Proof.
  intros [_ [Hl _] _ _]. revert Hl. unfold bigint_limbs.
  destruct (limbs v); simpl; [lia|done].
Qed.

Lemma wf_length v : wf v → (1 <= length (limbs v))%nat.
Proof. by intros [_ [Hl _] _ _]. Qed.

Lemma to_Z_zero v : wf v → to_Z v = 0 ↔ val (limbs v) = 0.
Proof. unfold to_Z. destruct (sign v); lia. Qed.

Lemma to_Z_sign v : wf v → sign v = (to_Z v <? 0).
Proof.
  intros Hw. pose proof (val_nonneg _ (wf_limbs v Hw)). pose proof (wf_zero v Hw) as Hz.
  revert Hz. unfold to_Z. destruct (sign v); intros Hz; symmetry; [apply Z.ltb_lt|apply Z.ltb_ge; lia].
  destruct (Z.eq_dec (val (limbs v)) 0) as [E|]; [discriminate (Hz E)|lia].
Qed.

Lemma to_Z_abs v : wf v → val (limbs v) = Z.abs (to_Z v).
Proof.
  intros Hw. pose proof (val_nonneg _ (wf_limbs v Hw)). unfold to_Z.
  destruct (sign v); lia.
Qed.

Lemma limbs_is_zero_spec l :
  limbs_ok l → normalized l → limbs_is_zero l (length l) = (val l =? 0).
Proof.
  intros Hl Hn. unfold limbs_is_zero. destruct (Nat.eqb_spec (length l) 1) as [E|E]; simpl.
  - destruct l as [|x [|]]; simpl in *; try lia. by rewrite Z.mul_0_r, Z.add_0_r.
  - symmetry. apply Z.eqb_neq. pose proof (proj1 Hn).
    pose proof (normalized_lower l Hl Hn ltac:(lia)). pose proof (base_pow_pos (length l - 1)).
    lia.
Qed.

Lemma bigint_is_zero_spec v : wf v → bigint_is_zero v = (to_Z v =? 0).
Proof.
  intros Hw. unfold bigint_is_zero. rewrite bigint_limbs_wf by done.
  rewrite limbs_is_zero_spec by apply Hw. pose proof (to_Z_zero v Hw).
  destruct (Z.eqb_spec (val (limbs v)) 0), (Z.eqb_spec (to_Z v) 0); tauto.
Qed.

(** ** Allocation and delivery *)

Section delivery.
Context `{Heap}.

Lemma bigint_alloc_payload_cases c :
  1 <= c →
  (bigint_alloc_payload c = Ok tt ∧ c <= UINT32_MAX) ∨ bigint_alloc_payload c = Throw oom.
Proof.
  intros Hc. unfold bigint_alloc_payload. cbn zeta.
  destruct (Z.eqb_spec c 0); [lia|]. case_ltb; [by right|].
  destruct (checked_mul_size c 4); [|by right].
  destruct (checked_add_size 8 _); [|by right].
  destruct (js_type_alloc _); auto.
Qed.

(** An operator first secures its buffer, then computes. *)
Lemma computes_alloc cap (binary : bool) (k : outcome bigint) x :
  1 <= cap →
  (cap <= 32 ∨ cap <= UINT32_MAX → computes cap k x) →
  computes cap
    (_ ← (if BIGINT_LIMB_SIZE <? cap
          then (if binary then bigint_alloc_binary_payload cap
                else bigint_alloc_unary_payload cap)
          else Ok tt); k) x.
Proof.
  intros Hc Hk. unfold BIGINT_LIMB_SIZE. case_ltb; [|apply Hk; lia].
  unfold bigint_alloc_binary_payload, bigint_alloc_unary_payload.
  destruct gc_push_root eqn:E; simpl.
  2: { destruct binary; (split; [done|]); by left. }
  destruct (bigint_alloc_payload_cases cap) as [[-> ?] | E']; [done|..].
  - destruct binary; apply Hk; lia.
  - rewrite E'. destruct binary; simpl; (split; [done|]); right; left; exists cap; auto with lia.
Qed.

Lemma bigint_finish_payload_spec buf count neg :
  limbs_ok buf → (1 <= count <= length buf)%nat → Z.of_nat count <= UINT32_MAX →
  wf (bigint_finish_payload buf count neg) ∧
  to_Z (bigint_finish_payload buf count neg)
  = (if neg then - val (take count buf) else val (take count buf)).
Proof.
  intros Hb Hc Hu. unfold bigint_finish_payload. cbn zeta.
  pose proof (normalize_le buf count). pose proof (normalize_pos buf count ltac:(lia)).
  pose proof (normalize_val buf count) as Hv. pose proof (normalize_top buf count) as Ht.
  set (n := bigint_normalize_limbs buf count) in *.
  rewrite u32_small, Nat2Z.id by (unfold UINT32_MAX in Hu; lia).
  assert (limbs_ok (take n buf)) by auto with limbs.
  assert (length (take n buf) = n) as Hlen by (rewrite length_take; lia).
  assert (normalized (take n buf)) as Hn.
  { unfold normalized. rewrite Hlen. split; [lia|]. intros Hlt. rewrite at_take by lia. auto. }
  assert ((n =? 1)%nat && (at_ buf 0 =? 0) = (val (take count buf) =? 0)) as ->.
  { rewrite <- Hv, <- limbs_is_zero_spec by done. unfold limbs_is_zero. rewrite Hlen.
    by rewrite at_take by lia. }
  split; [split; simpl|]; try done.
  - intros Hz. rewrite <- Hv, Hz. done.
  - unfold zlen. rewrite Hlen. lia.
  - unfold to_Z. simpl. rewrite Hv. case_ltb; destruct neg; lia.
Qed.

Lemma js_mkbigint_limbs_spec l neg :
  limbs_ok l → (1 <= length l)%nat →
  computes (zlen l) (js_mkbigint_limbs l neg) (if neg then - val l else val l).
Proof.
  intros Hl L. unfold js_mkbigint_limbs. cbn zeta.
  replace (match l with [] => [0] | _ :: _ => l end) with l
    by (destruct l; [simpl in L; lia|done]).
  change (take (bigint_normalize_limbs l (length l)) l) with (norm l).
  rewrite <- length_norm, <- (norm_val l).
  pose proof (proj1 (norm_normalized l L)). pose proof (norm_ok l Hl) as No.
  pose proof (length_norm l) as Ln. pose proof (normalize_le l (length l)).
  destruct (bigint_alloc_payload_cases (Z.of_nat (length (norm l)))) as [[-> ?] | E];
    [lia|..].
  - simpl. pose proof (bigint_finish_payload_spec (norm l) (length (norm l)) neg No) as K.
    rewrite firstn_all in K. apply K; lia.
  - rewrite E. simpl. split; [done|]. right; left.
    exists (Z.of_nat (length (norm l))). unfold zlen. auto with lia.
Qed.

Lemma refused_mono c c' : c <= c' → refused c → refused c'.
Proof.
  intros Hc [?|[(n & ? & ?)|[(n & ? & ?)|?]]]; [by left|right; left|right; right; left|].
  - exists n. auto with lia.
  - exists n. auto with lia.
  - do 3 right. lia.
Qed.

Lemma computes_mono c c' o x : c <= c' → computes c o x → computes c' o x.
Proof.
  intros Hc. destruct o; simpl; auto. intros [? ?]. split; [done|]. by eapply refused_mono.
Qed.

Lemma deliver_spec cap w n neg :
  limbs_ok w → (1 <= n <= length w)%nat → zlen w <= cap →
  cap <= 32 ∨ cap <= UINT32_MAX →
  computes cap (deliver cap w n neg) (if neg then - val (take n w) else val (take n w)).
Proof.
  intros Hw Hn Hz Hc. unfold deliver, BIGINT_LIMB_SIZE. cbn zeta. unfold zlen in *.
  destruct (Z.ltb_spec 32 cap).
  - destruct (Z.ltb_spec cap (Z.of_nat (length w))); [lia|].
    apply bigint_finish_payload_spec; [done|lia..].
  - destruct (Z.ltb_spec 32 (Z.of_nat (length w))); [lia|].
    eapply computes_mono; [|apply js_mkbigint_limbs_spec; [auto with limbs|]].
    + unfold zlen. rewrite length_take. lia.
    + rewrite length_take. lia.
Qed.

End delivery.

(** ** Addition, subtraction, multiplication, negation *)

Section arithmetic.
Context `{Heap}.

#[local] Ltac open_wf a Ha :=
  pose proof (bigint_limbs_wf a Ha); pose proof (wf_limbs a Ha); pose proof (wf_norm a Ha);
  pose proof (wf_length a Ha); pose proof (val_nonneg _ (wf_limbs a Ha)).

(** Both signs agree: the magnitudes are added. *)
Lemma add_magnitudes a b neg :
  wf a → wf b →
  let cap := (if zlen (limbs b) <? zlen (limbs a) then zlen (limbs a) else zlen (limbs b)) + 1 in
  cap <= 32 ∨ cap <= UINT32_MAX →
  computes cap
    (let '(r, n) := bigint_add_abs_limbs (limbs a) (limbs b) in deliver cap r n neg)
    (if neg then - (val (limbs a) + val (limbs b)) else val (limbs a) + val (limbs b)).
Proof.
  intros Ha Hb cap Hc. open_wf a Ha. open_wf b Hb.
  destruct (bigint_add_abs_limbs _ _) as [r n] eqn:E.
  apply bigint_add_abs_limbs_spec in E as (E1 & E2 & E3 & E4 & E5); [|done..].
  rewrite <- E5. apply deliver_spec; [done|lia| |done].
  subst cap. unfold zlen in *. rewrite E2. case_ltb; lia.
Qed.

(** The signs differ: the smaller magnitude is subtracted from the larger. *)
Lemma sub_magnitudes a b neg :
  wf a → wf b → val (limbs b) <= val (limbs a) →
  computes (zlen (limbs a))
    (let '(r, n) := bigint_sub_abs_limbs (limbs a) (limbs b) in
     deliver (zlen (limbs a)) r n neg)
    (if neg then - (val (limbs a) - val (limbs b)) else val (limbs a) - val (limbs b)).
Proof.
  intros Ha Hb Hle. open_wf a Ha. open_wf b Hb.
  destruct (bigint_sub_abs_limbs _ _) as [r n] eqn:E.
  apply bigint_sub_abs_limbs_spec in E as (E1 & E2 & E3 & E4);
    [|done|done|by apply normalized_length_le|done].
  rewrite <- E4. apply deliver_spec; [done|lia| |right; apply (wf_count a Ha)].
  unfold zlen. lia.
Qed.

Lemma zlen_pos a : wf a → 1 <= zlen (limbs a).
Proof. intros Ha. pose proof (wf_length a Ha). unfold zlen. lia. Qed.

(** The capacity the result of an addition or subtraction needs. *)
Definition sum_cap (a b : bigint) : Z := zlen (limbs a) `max` zlen (limbs b) + 1.

Lemma bigint_add_computes a b :
  wf a → wf b → computes (sum_cap a b) (bigint_add a b) (to_Z a + to_Z b).
Proof.
  intros Ha Hb. unfold bigint_add. cbn zeta. rewrite !bigint_limbs_wf by done.
  unfold bigint_is_negative. pose proof (zlen_pos a Ha). pose proof (zlen_pos b Hb).
  rewrite (bigint_cmp_abs_limbs_spec (limbs a) (limbs b));
    [|apply wf_limbs; done|apply wf_limbs; done|apply wf_length; done..].
  destruct (Bool.eqb (sign a) (sign b)) eqn:Es; cbv iota.
  - apply Bool.eqb_prop in Es. eapply computes_mono; [|apply (computes_alloc _ true)].
    + unfold sum_cap. case_ltb; lia.
    + case_ltb; lia.
    + intros Hc. replace (to_Z a + to_Z b) with (if sign a
        then - (val (limbs a) + val (limbs b)) else val (limbs a) + val (limbs b)).
      * by apply add_magnitudes.
      * unfold to_Z. rewrite <- Es. destruct (sign a); lia.
  - apply Bool.eqb_false_iff in Es.
    destruct (Z.leb_spec 0 (Z.sgn (val (limbs a) - val (limbs b)))).
    + eapply computes_mono; [|apply (computes_alloc _ true); [done|]]; [unfold sum_cap; lia|].
      intros _. replace (to_Z a + to_Z b) with (if sign a
        then - (val (limbs a) - val (limbs b)) else val (limbs a) - val (limbs b)).
      * apply sub_magnitudes; [done..|lia].
      * unfold to_Z. destruct (sign a), (sign b); try done; lia.
    + eapply computes_mono; [|apply (computes_alloc _ true); [done|]]; [unfold sum_cap; lia|].
      intros _. replace (to_Z a + to_Z b) with (if sign b
        then - (val (limbs b) - val (limbs a)) else val (limbs b) - val (limbs a)).
      * apply sub_magnitudes; [done..|lia].
      * unfold to_Z. destruct (sign a), (sign b); try done; lia.
Qed.

Lemma bigint_sub_computes a b :
  wf a → wf b → computes (sum_cap a b) (bigint_sub a b) (to_Z a - to_Z b).
Proof.
  intros Ha Hb. unfold bigint_sub. cbn zeta. rewrite !bigint_limbs_wf by done.
  unfold bigint_is_negative. pose proof (zlen_pos a Ha). pose proof (zlen_pos b Hb).
  rewrite (bigint_cmp_abs_limbs_spec (limbs a) (limbs b));
    [|apply wf_limbs; done|apply wf_limbs; done|apply wf_length; done..].
  destruct (Bool.eqb (sign a) (sign b)) eqn:Es; cbn [negb]; cbv iota.
  - apply Bool.eqb_prop in Es.
    destruct (Z.leb_spec 0 (Z.sgn (val (limbs a) - val (limbs b)))).
    + eapply computes_mono; [|apply (computes_alloc _ true); [done|]]; [unfold sum_cap; lia|].
      intros _. replace (to_Z a - to_Z b) with (if sign a
        then - (val (limbs a) - val (limbs b)) else val (limbs a) - val (limbs b)).
      * apply sub_magnitudes; [done..|lia].
      * unfold to_Z. rewrite <- Es. destruct (sign a); lia.
    + eapply computes_mono; [|apply (computes_alloc _ true); [done|]]; [unfold sum_cap; lia|].
      intros _. replace (to_Z a - to_Z b) with (if negb (sign a)
        then - (val (limbs b) - val (limbs a)) else val (limbs b) - val (limbs a)).
      * apply sub_magnitudes; [done..|lia].
      * unfold to_Z. rewrite <- Es. destruct (sign a); simpl; lia.
  - apply Bool.eqb_false_iff in Es. eapply computes_mono; [|apply (computes_alloc _ true)].
    + unfold sum_cap. case_ltb; lia.
    + case_ltb; lia.
    + intros Hc. replace (to_Z a - to_Z b) with (if sign a
        then - (val (limbs a) + val (limbs b)) else val (limbs a) + val (limbs b)).
      * by apply add_magnitudes.
      * unfold to_Z. destruct (sign a), (sign b); try done; lia.
Qed.

Definition mul_cap (a b : bigint) : Z := zlen (limbs a) + zlen (limbs b) + 1.

Lemma bigint_mul_computes a b :
  wf a → wf b → computes (mul_cap a b) (bigint_mul a b) (to_Z a * to_Z b).
Proof.
  intros Ha Hb. unfold bigint_mul. cbn zeta. rewrite !bigint_limbs_wf by done.
  unfold bigint_is_negative, mul_cap. pose proof (zlen_pos a Ha). pose proof (zlen_pos b Hb).
  apply (computes_alloc _ true); [lia|]. intros Hc.
  pose proof (bigint_mul_abs_limbs_spec (limbs a) (limbs b) (wf_limbs a Ha) (wf_limbs b Hb)
    (wf_length a Ha) (wf_length b Hb)) as Hm.
  apply returns_Ok in Hm as ([r n] & -> & M1 & M2 & M3 & M4). simpl.
  replace (to_Z a * to_Z b) with (if negb (Bool.eqb (sign a) (sign b))
    then - val (take n r) else val (take n r)).
  - apply deliver_spec; [done|done| |done]. unfold zlen in *. lia.
  - rewrite M4. unfold to_Z. destruct (sign a), (sign b); simpl; lia.
Qed.

Lemma bigint_neg_computes a : wf a → computes (zlen (limbs a)) (bigint_neg a) (- to_Z a).
Proof.
  intros Ha. unfold bigint_neg. cbn zeta. rewrite bigint_limbs_wf by done.
  unfold bigint_is_negative, bigint_alloc_unary_payload.
  pose proof (zlen_pos a Ha). pose proof (wf_length a Ha).
  destruct gc_push_root eqn:E; simpl; [|split; [done|by left]].
  destruct (bigint_alloc_payload_cases (zlen (limbs a))) as [[-> ?] | E']; [done|..]; simpl.
  - pose proof (bigint_finish_payload_spec (limbs a) (length (limbs a)) (negb (sign a))
      (wf_limbs a Ha) ltac:(lia) (wf_count a Ha)) as [K1 K2].
    split; [done|]. rewrite K2, firstn_all. unfold to_Z. destruct (sign a); simpl; lia.
  - rewrite E'. split; [done|]. right; left. exists (zlen (limbs a)). auto with lia.
Qed.

Lemma bigint_compare_sgn a b : wf a → wf b → bigint_compare a b = Z.sgn (to_Z a - to_Z b).
Proof.
  intros Ha Hb. unfold bigint_compare. cbn zeta. rewrite !bigint_limbs_wf by done.
  rewrite bigint_cmp_abs_limbs_spec;
    [|apply wf_limbs; done|apply wf_limbs; done|apply wf_length; done..].
  pose proof (val_nonneg _ (wf_limbs a Ha)). pose proof (val_nonneg _ (wf_limbs b Hb)).
  pose proof (to_Z_sign a Ha) as Sa. pose proof (to_Z_sign b Hb) as Sb.
  unfold to_Z, bigint_is_negative in *.
  destruct (sign a), (sign b); simpl in *; symmetry in Sa, Sb;
    rewrite ?Z.ltb_lt, ?Z.ltb_ge in Sa, Sb; lia.
Qed.

End arithmetic.

(** ** Shifts *)

Section shifts.
Context `{Heap}.

Lemma bigint_shift_left_computes v s :
  wf v → 0 <= s →
  computes (zlen (limbs v) + (s >>' 5) + 1) (bigint_shift_left v s) (to_Z v * 2 ^ s).
Proof.
  intros Hv Hs. unfold bigint_shift_left. cbn zeta. rewrite bigint_limbs_wf by done.
  pose proof (zlen_pos v Hv).
  destruct (Z.eqb_spec s 0) as [->|Hs0]; [split; [done|lia]|].
  rewrite limbs_is_zero_spec by apply Hv.
  destruct (Z.eqb_spec (val (limbs v)) 0) as [Ez|Ez].
  { split; [done|]. rewrite (proj2 (to_Z_zero v Hv) Ez). lia. }
  assert (0 <= s >>' 5) by (apply Z.shiftr_nonneg; lia).
  case_ltb; [split; [done|]; do 3 right; lia|].
  apply (computes_alloc _ false); [lia|]. intros Hc.
  destruct (bigint_shift_left_abs (limbs v) s) as [r n] eqn:E.
  apply bigint_shift_left_abs_spec in E as (E1 & E2 & E3 & E4);
    [|apply wf_limbs; done|apply wf_length; done|done].
  replace (to_Z v * 2 ^ s) with (if sign v then - val (take n r) else val (take n r)).
  - apply deliver_spec; [done|done| |done]. unfold zlen in *. lia.
  - rewrite E4. unfold to_Z. destruct (sign v); lia.
Qed.

(** Rounding toward minus infinity, as the code does it: truncate the magnitude, then add
    one to it when the value is negative and a set bit was dropped. *)
Lemma floor_shift_neg m s :
  0 <= s → (- m) / 2 ^ s = - (m / 2 ^ s + (if m mod 2 ^ s =? 0 then 0 else 1)).
Proof.
  intros Hs. assert (0 < 2 ^ s) by (apply Z.pow_pos_nonneg; lia).
  destruct (Z.eqb_spec (m mod 2 ^ s) 0).
  - rewrite Z.div_opp_l_z by lia. lia.
  - rewrite Z.div_opp_l_nz by lia. lia.
Qed.

Lemma limbs_is_zero_val r n : limbs_is_zero r n = true → val (take n r) = 0.
Proof.
  unfold limbs_is_zero. intros [->%Nat.eqb_eq E%Z.eqb_eq]%andb_true_iff.
  destruct r as [|x r]; [done|]. unfold at_ in E. simpl in *. lia.
Qed.

Lemma deliver_neg cap w n :
  limbs_ok w → (1 <= n <= length w)%nat → zlen w <= cap →
  cap <= 32 ∨ cap <= UINT32_MAX →
  computes cap (deliver cap w n (true && negb (limbs_is_zero w n))) (- val (take n w)).
Proof.
  intros Hw Hn Hz Hc. pose proof (limbs_is_zero_val w n) as Hzero.
  pose proof (deliver_spec cap w n (true && negb (limbs_is_zero w n)) Hw Hn Hz Hc) as K.
  destruct (limbs_is_zero w n); simpl in *; [|done]. by rewrite Hzero in *.
Qed.

(** The buffer of a right shift has room for the increment of a negative result. *)
Lemma shift_right_room v s m :
  wf v → 0 <= s → m = val (limbs v) / 2 ^ s →
  m + 1 < BIGINT_BASE ^ Z.of_nat (Z.to_nat
    (if zlen (limbs v) <=? s >>' 5 then 1 else zlen (limbs v) - (s >>' 5) + 1)).
Proof.
  intros Hv Hs ->. pose proof (val_bounds _ (wf_limbs v Hv)) as [B1 B2].
  assert (0 <= s >>' 5) by (apply Z.shiftr_nonneg; lia).
  pose proof (shift_bit_range s) as Hb.
  rewrite pow2_shift by done. rewrite Z2Nat.id by done.
  assert (1 <= 2 ^ (s &' 31)) by (apply (Z.pow_le_mono_r 2 0); lia).
  fold (zlen (limbs v)) in B2. set (n := zlen (limbs v)) in *.
  assert (0 < BIGINT_BASE ^ (s >>' 5)) by (apply Z.pow_pos_nonneg; unfold BIGINT_BASE; lia).
  case_ltb.
  - assert (BIGINT_BASE ^ n <= BIGINT_BASE ^ (s >>' 5))
      by (apply Z.pow_le_mono_r; unfold BIGINT_BASE; lia).
    rewrite Z.div_small by nia. done.
  - rewrite Z2Nat.id by lia. rewrite Z.pow_add_r by lia.
    assert (BIGINT_BASE ^ n = BIGINT_BASE ^ (s >>' 5) * BIGINT_BASE ^ (n - (s >>' 5))) as E.
    { rewrite <- Z.pow_add_r by lia. f_equal. lia. }
    assert (0 < BIGINT_BASE ^ (n - (s >>' 5)))
      by (apply Z.pow_pos_nonneg; unfold BIGINT_BASE; lia).
    assert (val (limbs v) / (BIGINT_BASE ^ (s >>' 5) * 2 ^ (s &' 31))
            < BIGINT_BASE ^ (n - (s >>' 5))) by (apply Z.div_lt_upper_bound; nia).
    change (BIGINT_BASE ^ 1) with 0x100000000. lia.
Qed.

Lemma bigint_shift_right_computes v s :
  wf v → 0 <= s →
  computes (zlen (limbs v) + 1) (bigint_shift_right v s) (to_Z v / 2 ^ s).
Proof.
  intros Hv Hs. unfold bigint_shift_right. cbn zeta. rewrite bigint_limbs_wf by done.
  pose proof (zlen_pos v Hv) as Hp.
  destruct (Z.eqb_spec s 0) as [->|Hs0]; [split; [done|by rewrite Z.div_1_r]|].
  rewrite limbs_is_zero_spec by apply Hv.
  destruct (Z.eqb_spec (val (limbs v)) 0) as [Ez|Ez].
  { split; [done|]. rewrite (proj2 (to_Z_zero v Hv) Ez). done. }
  assert (0 <= s >>' 5) by (apply Z.shiftr_nonneg; lia).
  set (cap := if zlen (limbs v) <=? s >>' 5 then 1 else _).
  assert (1 <= cap <= zlen (limbs v) + 1) as Hcap.
  { subst cap. unfold bigint_is_negative. case_ltb; [lia|]. destruct (sign v); lia. }
  apply (computes_mono cap); [lia|]. apply (computes_alloc _ false); [lia|]. intros Hc.
  destruct (bigint_shift_right_abs (limbs v) s) as [[r n] t] eqn:E.
  apply bigint_shift_right_abs_spec in E as (E1 & E2 & E3 & E4 & E5);
    [|apply wf_limbs; done|apply wf_length; done|done].
  pose proof (val_nonneg _ (wf_limbs v Hv)) as Hvn.
  assert (0 < 2 ^ s) by (apply Z.pow_pos_nonneg; lia).
  unfold to_Z, bigint_is_negative in *. destruct (sign v) eqn:Sv; simpl andb.
  2: { rewrite <- E4. apply (deliver_spec cap r n false); [done|done| |done].
       subst cap. rewrite E3. case_ltb; lia. }
  rewrite floor_shift_neg by done.
  replace (if val (limbs v) mod 2 ^ s =? 0 then 0 else 1) with (if t then 1 else 0)
    by (rewrite E5; by destruct (_ =? 0)).
  rewrite <- E4. clear E5.
  assert (zlen r <= cap) as Hr by (subst cap; rewrite E3; case_ltb; lia).
  unfold zlen in Hr.
  destruct t.
  - destruct (bigint_add_u32_inplace _ _ 1) as [r2 n2] eqn:E'.
    apply bigint_add_u32_inplace_spec in E' as (K1 & K2 & K3 & K4).
    + rewrite <- K4. apply deliver_neg; [done|done| |done]. unfold zlen. lia.
    + auto with limbs.
    + rewrite length_take. lia.
    + unfold limb, BIGINT_BASE. lia.
    + apply shift_right_room; [done|done|]. subst cap. rewrite E4. lia.
  - rewrite Z.add_0_r. apply deliver_neg; [done|done| |done]. unfold zlen. lia.
Qed.
End shifts.

(** ** Conversions to and from 64-bit integers *)

Section conversions.
Context `{Heap}.

Lemma lor_hi_lo lo hi : limb lo → limb hi → lo |' u64 (hi <<' 32) = lo + 2 ^ 32 * hi.
Proof.
  unfold limb, BIGINT_BASE. intros Hlo Hhi. rewrite shiftl_mul, u64_small by lia.
  rewrite Z.lor_comm, lor_add_low by lia. lia.
Qed.

(** A one- or two-limb array holds any 64-bit magnitude. *)
Lemma u64_limbs m neg :
  0 <= m < 2 ^ 64 →
  computes 2 (js_mkbigint_limbs (take (if u32 (m >>' 32) =? 0 then 1%nat else 2%nat)
      [u32 (m &' 0xffffffff); u32 (m >>' 32)]) neg) (if neg then - m else m).
Proof.
  intros Hm. rewrite land_0xffffffff, shiftr_div by lia.
  set (l := take _ _).
  assert (limbs_ok l ∧ (1 <= length l <= 2)%nat ∧ val l = m) as (L1 & L2 & L3).
  { subst l. split; [auto with limbs|]. case_ltb; simpl; unfold BIGINT_BASE; word. }
  rewrite <- L3. eapply computes_mono; [|apply js_mkbigint_limbs_spec; [done|lia]].
  unfold zlen. lia.
Qed.

Lemma bigint_from_uint64_computes m :
  0 <= m < 2 ^ 64 → computes 2 (bigint_from_uint64 m) m.
Proof. apply (u64_limbs m false). Qed.

Lemma bigint_from_int64_computes x :
  - 2 ^ 63 <= x < 2 ^ 63 → computes 2 (bigint_from_int64 x) x.
Proof.
  intros Hx. unfold bigint_from_int64. cbn zeta.
  destruct (Z.ltb_spec x 0).
  - replace (u64 (u64 (- (x + 1)) + 1)) with (- x) by word.
    replace x with (- - x) at 4 by lia. apply (u64_limbs (- x) true). lia.
  - rewrite u64_small by lia. apply (u64_limbs x false). lia.
Qed.

(** The two low limbs of a well-formed value. *)
Lemma bigint_low_u64_spec v : wf v → bigint_low_u64 v = val (limbs v) mod 2 ^ 64.
Proof.
  intros Hv. unfold bigint_low_u64. cbn zeta. rewrite bigint_limbs_wf by done.
  pose proof (wf_limbs v Hv) as Hl. pose proof (wf_length v Hv) as Hn.
  destruct Hl as [|x l Hx Hl]; [simpl in Hn; lia|].
  destruct Hl as [|y l Hy Hl]; unfold at_; simpl.
  - unfold limb, BIGINT_BASE in *. rewrite Z.mod_small; lia.
  - rewrite lor_hi_lo by done. unfold limb, BIGINT_BASE in *.
    destruct (div_mod_digits (x + 2 ^ 32 * y) (val l) (2 ^ 64) ltac:(lia)) as [_ E].
    rewrite <- E. f_equal. lia.
Qed.

Lemma bigint_to_uint64_wrapping_mod v :
  wf v → bigint_to_uint64_wrapping v = to_Z v mod 2 ^ 64.
Proof.
  intros Hv. unfold bigint_to_uint64_wrapping, bigint_is_negative, to_Z. cbn zeta.
  rewrite bigint_low_u64_spec by done. destruct (sign v); [|done].
  unfold u64. rewrite Zminus_mod_idemp_r. done.
Qed.

(** [bigint_parse_abs_u64] reads the magnitude exactly when it fits 64 bits. *)
Lemma bigint_parse_abs_u64_spec v :
  wf v →
  bigint_parse_abs_u64 v = if val (limbs v) <? 2 ^ 64 then Some (val (limbs v)) else None.
Proof.
  intros Hv. unfold bigint_parse_abs_u64. cbn zeta. rewrite bigint_limbs_wf by done.
  pose proof (wf_limbs v Hv) as Hl. pose proof (wf_norm v Hv) as Hn.
  destruct (Nat.ltb_spec 2 (length (limbs v))) as [Hgt|Hle].
  - pose proof (normalized_lower _ Hl Hn ltac:(lia)) as Hlow.
    assert (BIGINT_BASE ^ 2 <= BIGINT_BASE ^ Z.of_nat (length (limbs v) - 1))
      by (apply Z.pow_le_mono_r; unfold BIGINT_BASE; lia).
    change (BIGINT_BASE ^ 2) with (2 ^ 64) in *. by case_ltb; [lia|].
  - revert Hl Hn Hle. generalize (limbs v). intros l Hl [Hn _] Hle.
    pose proof (val_bounds l Hl) as Hb.
    destruct Hl as [|x l Hx Hl]; [simpl in Hn; lia|].
    destruct Hl as [|y l Hy Hl]; unfold at_; simpl in *.
    + unfold limb, BIGINT_BASE in *. case_ltb; f_equal; lia.
    + destruct l; [|simpl in *; lia]. rewrite lor_hi_lo by done. simpl in *.
      unfold limb, BIGINT_BASE in *. case_ltb; f_equal; lia.
Qed.

Lemma bigint_to_uint64_checked_iff v :
  wf v →
  bigint_to_uint64_checked v
  = if (0 <=? to_Z v) && (to_Z v <? 2 ^ 64) then Some (to_Z v) else None.
Proof.
  intros Hv. unfold bigint_to_uint64_checked, bigint_parse_u64, bigint_is_negative.
  rewrite bigint_parse_abs_u64_spec by done. pose proof (to_Z_sign v Hv) as Hs.
  pose proof (to_Z_abs v Hv). unfold to_Z in *. destruct (sign v).
  - symmetry in Hs. apply Z.ltb_lt in Hs.
    by destruct (Z.leb_spec 0 (- val (limbs v))); [lia|].
  - symmetry in Hs. apply Z.ltb_ge in Hs. destruct (Z.leb_spec 0 (val (limbs v))); [done|lia].
Qed.

Lemma bigint_to_int64_checked_iff v :
  wf v →
  bigint_to_int64_checked v
  = if (- 2 ^ 63 <=? to_Z v) && (to_Z v <? 2 ^ 63) then Some (to_Z v) else None.
Proof.
  intros Hv. unfold bigint_to_int64_checked, bigint_is_negative.
  rewrite bigint_parse_abs_u64_spec by done. pose proof (to_Z_sign v Hv) as Hs.
  pose proof (val_nonneg _ (wf_limbs v Hv)). unfold to_Z, i64 in *.
  set (m := val (limbs v)) in *. destruct (sign v); symmetry in Hs.
  - apply Z.ltb_lt in Hs. destruct (Z.ltb_spec m (2 ^ 64)).
    + destruct (Z.ltb_spec (2 ^ 63 - 1 + 1) m).
      * by destruct (Z.leb_spec (- 2 ^ 63) (- m)); [lia|].
      * destruct (Z.eqb_spec m 0); [lia|]. simpl andb. rewrite Z.mod_small by lia.
        destruct (Z.ltb_spec (m - 1) (2 ^ 63)); [|lia].
        destruct (Z.leb_spec (- 2 ^ 63) (- m)); [|lia].
        destruct (Z.ltb_spec (- m) (2 ^ 63)); [|lia]. simpl. f_equal. lia.
    + by destruct (Z.leb_spec (- 2 ^ 63) (- m)); [lia|].
  - destruct (Z.leb_spec (- 2 ^ 63) m); [|lia]. simpl andb.
    destruct (Z.ltb_spec m (2 ^ 64)).
    + rewrite Z.add_0_r. destruct (Z.ltb_spec (2 ^ 63 - 1) m), (Z.ltb_spec m (2 ^ 63)); try lia;
        [done|]. rewrite Z.mod_small by lia. destruct (Z.ltb_spec m (2 ^ 63)); [done|lia].
    + destruct (Z.ltb_spec m (2 ^ 63)); [lia|done].
Qed.

Lemma bigint_pow2_computes bits :
  0 <= bits → computes ((bits >>' 5) + 1) (bigint_pow2 bits) (2 ^ bits).
Proof.
  intros Hb. unfold bigint_pow2. cbn zeta.
  assert (0 <= bits >>' 5) by (apply Z.shiftr_nonneg; lia).
  case_ltb.
  { split; [done|]. right; right. right. lia. }
  destruct (limb_alloc (bits >>' 5 + 1)) eqn:Ea; simpl negb; cbv iota.
  2: { split; [done|]. right; right; left. exists ((bits >>' 5) + 1). split; [lia|done]. }
  set (l := replicate _ 0 ++ _).
  pose proof (shift_bit_range bits).
  assert (2 ^ (bits &' 31) <= 2 ^ 31) by (apply Z.pow_le_mono_r; lia).
  assert (0 < 2 ^ (bits &' 31)) by (apply Z.pow_pos_nonneg; lia).
  assert (val l = 2 ^ bits) as El.
  { subst l. rewrite val_app, val_replicate_0, length_replicate, pow2_shift by lia. simpl.
    rewrite shiftl_mul, Z.mul_1_l, u32_small by lia. lia. }
  rewrite <- El. eapply computes_mono; [|apply (js_mkbigint_limbs_spec l false)].
  - subst l. unfold zlen. rewrite length_app, length_replicate. simpl. lia.
  - subst l. auto with limbs.
  - subst l. rewrite length_app. simpl. lia.
Qed.

End conversions.

(** ** Statements *)

(** Proves that a concrete BigInt is well formed. *)
Ltac solve_wf :=
  split;
  [ repeat (constructor; [unfold limb, BIGINT_BASE; simpl; lia|]); constructor
  | split; [simpl; lia|simpl; intros; unfold at_; simpl; lia]
  | simpl; unfold BIGINT_BASE; intros; first [done|lia]
  | unfold zlen, UINT32_MAX; simpl; lia ].

Section statements.
Context `{Heap}.

(** C10: [+], [-], [*], unary [-] and [<<] return the exact result, well formed, or report a
    refused allocation; no limb is written outside its buffer.  [>>] divides by a power of two
    rounding toward minus infinity, for every shift count; [>>>] is a TypeError; comparing two
    values gives the sign of their difference. *)
Theorem bigint_arithmetic_correct a b s :
  wf a → wf b → 0 <= s →
  computes (sum_cap a b) (bigint_add a b) (to_Z a + to_Z b) ∧
  computes (sum_cap a b) (bigint_sub a b) (to_Z a - to_Z b) ∧
  computes (mul_cap a b) (bigint_mul a b) (to_Z a * to_Z b) ∧
  computes (zlen (limbs a)) (bigint_neg a) (- to_Z a) ∧
  computes (zlen (limbs a) + (s >>' 5) + 1) (bigint_shift_left a s) (to_Z a * 2 ^ s) ∧
  computes (zlen (limbs a) + 1) (bigint_shift_right a s) (to_Z a / 2 ^ s) ∧
  (∃ msg, bigint_shift_right_logical a s = js_mkerr_typed JS_ERR_TYPE msg) ∧
  bigint_compare a b = Z.sgn (to_Z a - to_Z b).
Proof.
  intros Ha Hb Hs. split_and!; eauto using bigint_add_computes, bigint_sub_computes, bigint_mul_computes,
    bigint_neg_computes, bigint_shift_left_computes, bigint_shift_right_computes, bigint_compare_sgn.
Qed.

(** The conversions between BigInt and 64-bit integers: from them exactly, to them modulo
    [2^64] in the wrapping form, and exactly or not at all in the checked form. *)
Lemma bigint_int64_conversions v u i :
  wf v → 0 <= u < 2 ^ 64 → - 2 ^ 63 <= i < 2 ^ 63 →
  computes 2 (bigint_from_uint64 u) u ∧ computes 2 (bigint_from_int64 i) i ∧
  bigint_to_uint64_wrapping v = to_Z v mod 2 ^ 64 ∧
  bigint_to_uint64_checked v
  = (if (0 <=? to_Z v) && (to_Z v <? 2 ^ 64) then Some (to_Z v) else None) ∧
  bigint_to_int64_checked v
  = (if (- 2 ^ 63 <=? to_Z v) && (to_Z v <? 2 ^ 63) then Some (to_Z v) else None).
Proof.
  intros Hv Hu Hi. split; [by apply bigint_from_uint64_computes|].
  split; [by apply bigint_from_int64_computes|]. split; [by apply bigint_to_uint64_wrapping_mod|].
  split; [by apply bigint_to_uint64_checked_iff|by apply bigint_to_int64_checked_iff].
Qed.

End statements.

Lemma bigint_arithmetic_witness :
  let a := mk_bigint true [7] in let b := mk_bigint false [4294967295; 3] in
  computes (H := roomy_heap) (sum_cap a b) (bigint_add (H := roomy_heap) a b) (2 ^ 34 - 8) ∧
  computes (H := roomy_heap) (sum_cap a b) (bigint_sub (H := roomy_heap) a b) (- 2 ^ 34 - 6) ∧
  computes (H := roomy_heap) 4 (bigint_mul (H := roomy_heap) a b) (- 7 * (2 ^ 34 - 1)) ∧
  computes (H := roomy_heap) 1 (bigint_neg (H := roomy_heap) a) 7 ∧
  computes (H := roomy_heap) 3 (bigint_shift_left (H := roomy_heap) a 33) (- 7 * 2 ^ 33) ∧
  computes (H := roomy_heap) 2 (bigint_shift_right (H := roomy_heap) a 33) (-1) ∧
  (∃ msg, bigint_shift_right_logical a 33 = js_mkerr_typed JS_ERR_TYPE msg) ∧
  bigint_compare a b = -1.
Proof.
  apply (bigint_arithmetic_correct (H := roomy_heap) (mk_bigint true [7]) (mk_bigint false [4294967295; 3]) 33);
    [solve_wf|solve_wf|lia].
Defined.
