(* ===== verification/BigIntDiv.v ===== *)
(** * BigInt division: Knuth's algorithm D on limb arrays

    Models [bigint_divmod_abs_limbs] of src/modules/bigint.c and the operators [bigint_div]
    and [bigint_mod] built on it.  The dividend array [un] is seen as its lower limbs and the
    [den_count] limbs above them, which hold the running remainder: step [j] works on the
    window [un[j .. j + den_count]], and the limb at its top is not read again. *)

From S2P Require Import Prelude BigIntLimbs BigInt.

(** [while (qhat * vn[n-2] > ((rhat << 32) | un[j+n-2]))].  The shift of [rhat] is a 64-bit
    one.  [None]: out of fuel. *)
Fixpoint qhat_correct (fuel : nat) (vtop vsecond unext qhat rhat : Z) : option Z :=
  if u64 (qhat * vsecond) >? (u64 (rhat <<' 32) |' unext) then
    let qhat := qhat - 1 in
    let rhat := u64 (rhat + vtop) in
    if BIGINT_BASE <=? rhat then Some qhat
    else
      match fuel with
      | O => None
      | S fuel => qhat_correct fuel vtop vsecond unext qhat rhat
      end
  else Some qhat.

(** The estimate before the correction loop. *)
Definition qhat_first (numerator vtop : Z) : Z * Z :=
  let qhat := numerator / vtop in
  let rhat := numerator mod vtop in
  if BIGINT_BASE <=? qhat
  then (BIGINT_BASE - 1, u64 (numerator - u64 ((BIGINT_BASE - 1) * vtop)))
  else (qhat, rhat).

(** Subtracts [qhat * vn] from the window's lower limbs; returns the final [k]. *)
Fixpoint mulsub_loop (qhat : Z) (vn w : list Z) (k : Z) : list Z * Z :=
  match vn, w with
  | v :: vn, u :: w =>
      let p := u64 (qhat * v + k) in
      let k := p >>' 32 in
      let plow := u32 p in
      if u <? plow then
        let '(r, k) := mulsub_loop qhat vn w (k + 1) in
        (u32 (u64 (u + BIGINT_BASE - plow)) :: r, k)
      else
        let '(r, k) := mulsub_loop qhat vn w k in
        (u - plow :: r, k)
  | _, _ => ([], k)
  end.

(** One round of the main loop on the window [w] ([length vn + 1] limbs): the quotient limb
    and the lower limbs of the window afterwards. *)
Definition div_step (vn w : list Z) : option (Z * list Z) :=
  let n := length vn in
  let vtop := at_ vn (n - 1) in
  let numerator := u64 (at_ w n <<' 32) |' at_ w (n - 1) in
  let '(qhat, rhat) := qhat_first numerator vtop in
  match qhat_correct 2 vtop (at_ vn (n - 2)) (at_ w (n - 2)) qhat rhat with
  | None => None
  | Some qhat =>
      let '(lower, k) := mulsub_loop qhat vn (take n w) 0 in
      if at_ w n <? k then
        let '(lower, carry) := add_loop n lower vn 0 in
        Some (u32 (qhat - 1), lower)
      else Some (u32 qhat, lower)
  end.

(** The main loop, from the most significant window down: [low] is [un[0 .. j]] and [rem] the
    limbs above, the running remainder. *)
Fixpoint div_loop (vn low rem : list Z) : option (list Z * list Z) :=
  match low with
  | [] => Some ([], rem)
  | u :: low =>
      match div_loop vn low rem with
      | None => None
      | Some (q, rem) =>
          match div_step vn (u :: rem) with
          | None => None
          | Some (digit, rem) => Some (digit :: q, rem)
          end
      end
  end.

Section divmod.
Context `{Heap}.

(** [None]: the function returns [false].  [want_q], [want_r]: [q_out], [r_out] are not
    null; the result not asked for is left empty. *)
Definition bigint_divmod_abs_limbs (num den : list Z) (want_q want_r : bool)
  : option (list Z * list Z) :=
  let num_count := length num in
  let den_count := length den in
  if (den_count =? 1)%nat && (at_ den 0 =? 0) then None
  else
    let cmp := bigint_cmp_abs_limbs num den in
    if cmp <? 0 then
      if want_q && negb (limb_alloc 1) then None
      else if want_r && negb (limb_alloc (zlen num)) then None
      else
        Some (if want_q then [0] else [],
              if want_r then take (bigint_normalize_limbs num num_count) num else [])
    else if (den_count =? 1)%nat then
      if negb (limb_alloc (zlen num)) then None
      else
        let '(q, rem) := bigint_div_small_inplace num (at_ den 0) in
        if want_r && negb (limb_alloc 1) then None
        else
          Some (if want_q then take (bigint_normalize_limbs q num_count) q else [],
                if want_r then [u32 rem] else [])
    else
      let m := (num_count - den_count)%nat in
      if negb (limb_alloc (zlen den)) || negb (limb_alloc (zlen num + 1))
         || negb (limb_alloc (Z.of_nat m + 1)) then None
      else
        let shift := clz32_nonzero (at_ den (den_count - 1)) in
        let vn := if shift =? 0 then den else fst (shl_loop den shift 0) in
        let un :=
          if shift =? 0 then num ++ [0]
          else let '(u, carry) := shl_loop num shift 0 in u ++ [carry] in
        match div_loop vn (take (m + 1) un) (drop (m + 1) un) with
        | None => None
        | Some (q, un) =>
            let q := take (bigint_normalize_limbs q (m + 1)) q in
            if want_r && negb (limb_alloc (zlen den)) then None
            else
              let r := if shift =? 0 then un
                       else fst (shr_loop un shift (u32 ((1 <<' shift) - 1))) in
              Some (if want_q then q else [],
                    if want_r then take (bigint_normalize_limbs r den_count) r else [])
        end.

Definition bigint_div (a b : bigint) : outcome bigint :=
  let aneg := bigint_is_negative a in
  let bneg := bigint_is_negative b in
  let ad := bigint_limbs a in
  let bd := bigint_limbs b in
  if (length bd =? 1)%nat && (at_ bd 0 =? 0) then js_mkerr "Division by zero"
  else
    match bigint_divmod_abs_limbs ad bd true false with
    | None => js_mkerr "oom"
    | Some (quot, _) =>
        let qneg := negb (Bool.eqb aneg bneg)
                    && negb ((length quot =? 1)%nat && (at_ quot 0 =? 0)) in
        js_mkbigint_limbs quot qneg
    end.

Definition bigint_mod (a b : bigint) : outcome bigint :=
  let aneg := bigint_is_negative a in
  let ad := bigint_limbs a in
  let bd := bigint_limbs b in
  if (length bd =? 1)%nat && (at_ bd 0 =? 0) then js_mkerr "Division by zero"
  else
    match bigint_divmod_abs_limbs ad bd false true with
    | None => js_mkerr "oom"
    | Some (_, rem) =>
        let rneg := aneg && negb ((length rem =? 1)%nat && (at_ rem 0 =? 0)) in
        js_mkbigint_limbs rem rneg
    end.

End divmod.

(** The first correction test compares with [rhat << 32] in 64 bits.  After clamping, [rhat]
    can reach [2^32], and the shift loses its top bit; the step is sound unless the test then
    holds. *)
Definition step_safe (vn w : list Z) : bool :=
  let n := length vn in
  let vtop := at_ vn (n - 1) in
  let numerator := u64 (at_ w n <<' 32) |' at_ w (n - 1) in
  let '(qhat, rhat) := qhat_first numerator vtop in
  (rhat <? BIGINT_BASE)
  || negb (u64 (qhat * at_ vn (n - 2)) >? (u64 (rhat <<' 32) |' at_ w (n - 2))).

Fixpoint loop_safe (vn low rem : list Z) : bool :=
  match low with
  | [] => true
  | u :: low =>
      loop_safe vn low rem &&
      match div_loop vn low rem with
      | None => true
      | Some (_, rem) => step_safe vn (u :: rem)
      end
  end.

(** Every step of a division is sound. *)
Definition divmod_safe (num den : list Z) : bool :=
  (length den <? 2)%nat || (bigint_cmp_abs_limbs num den <? 0) ||
  let m := (length num - length den)%nat in
  let shift := clz32_nonzero (at_ den (length den - 1)) in
  let vn := fst (shl_loop den shift 0) in
  let un := let '(u, carry) := shl_loop num shift 0 in u ++ [carry] in
  loop_safe vn (take (m + 1) un) (drop (m + 1) un).

#[local] Ltac Zify.zify_post_hook ::= Z.div_mod_to_equations.

(** ** The quotient estimate

    [P] is the weight of the limbs below the leading two of the divisor: the divisor is
    [(vtop * B + vsec) * P + vl] and the window [(numerator * B + unext) * P + wl]. *)

Section estimate.
Variables vtop vsec unext numerator P vl wl : Z.
Hypothesis Hvtop : 2 ^ 31 <= vtop < BIGINT_BASE.
Hypothesis Hvsec : limb vsec.
Hypothesis Hunext : limb unext.
Hypothesis HP : 0 < P.
Hypothesis Hvl : 0 <= vl < P.
Hypothesis Hwl : 0 <= wl < P.
Hypothesis Hnum : 0 <= numerator.

Let V := (vtop * BIGINT_BASE + vsec) * P + vl.
Let W := (numerator * BIGINT_BASE + unext) * P + wl.

(** Dividing by the leading limb alone does not underestimate. *)
Lemma estimate_first q : 0 <= q → numerator < (q + 1) * vtop → W < (q + 1) * V.
Proof.
  intros Hq Hlt. subst V W. unfold limb in *.
  assert (numerator * BIGINT_BASE + unext + 1 <= (q + 1) * vtop * BIGINT_BASE) as H1
    by (clear - Hlt Hunext; unfold BIGINT_BASE in *; lia).
  apply (Z.mul_le_mono_nonneg_r _ _ P) in H1; [|lia].
  assert (0 <= (q + 1) * (vsec * P + vl)) by (apply Z.mul_nonneg_nonneg; nia). lia.
Qed.

(** A decrement is justified: the estimate exceeded the true quotient limb. *)
Lemma estimate_over qhat rhat :
  0 <= qhat → qhat * vtop + rhat = numerator →
  rhat * BIGINT_BASE + unext < qhat * vsec → W < qhat * V.
Proof.
  intros Hq E Hlt. subst V W. rewrite <- E.
  assert (qhat * (vtop * BIGINT_BASE + vsec) >= (qhat * vtop + rhat) * BIGINT_BASE + unext + 1)
    by lia.
  assert (qhat * (vtop * BIGINT_BASE + vsec) * P
    >= ((qhat * vtop + rhat) * BIGINT_BASE + unext + 1) * P) by nia.
  nia.
Qed.

(** When the test fails the estimate is at most one too large. *)
Lemma estimate_close qhat rhat :
  0 <= qhat < BIGINT_BASE → qhat * vtop + rhat = numerator →
  qhat * vsec <= rhat * BIGINT_BASE + unext → qhat * V < W + V.
Proof.
  intros Hq E Hle. subst V W. unfold limb in *.
  assert (qhat * (vtop * BIGINT_BASE + vsec) <= numerator * BIGINT_BASE + unext) by nia.
  assert (qhat * (vtop * BIGINT_BASE + vsec) * P <= (numerator * BIGINT_BASE + unext) * P)
    by nia.
  assert (qhat * vl <= BIGINT_BASE * P) by nia.
  assert (BIGINT_BASE * P <= vtop * BIGINT_BASE * P) by nia.
  nia.
Qed.

Lemma test_exact qhat rhat :
  0 <= qhat < BIGINT_BASE → 0 <= rhat < BIGINT_BASE →
  (u64 (qhat * vsec) >? (u64 (rhat <<' 32) |' unext))
  = (rhat * BIGINT_BASE + unext <? qhat * vsec).
Proof.
  intros Hq Hr. unfold limb, BIGINT_BASE in *.
  rewrite shiftl_mul, !u64_small, lor_add_low by nia. rewrite Z.gtb_ltb. f_equal; lia.
Qed.

Lemma test_fails qhat rhat :
  0 <= qhat < BIGINT_BASE → BIGINT_BASE <= rhat →
  qhat * vsec <= rhat * BIGINT_BASE + unext.
Proof.
  intros Hq Hr. clear Hvtop. unfold limb in *.
  assert (qhat * vsec <= BIGINT_BASE * BIGINT_BASE) by (apply Z.mul_le_mono_nonneg; lia).
  assert (BIGINT_BASE * BIGINT_BASE <= rhat * BIGINT_BASE)
    by (apply Z.mul_le_mono_nonneg_r; unfold BIGINT_BASE in *; lia).
  lia.
Qed.

(** The correction loop stops within its fuel, on an estimate that is exact or one too
    large. *)
Lemma qhat_correct_spec fuel qhat rhat :
  0 <= qhat < BIGINT_BASE → 0 <= rhat < BIGINT_BASE →
  qhat * vtop + rhat = numerator → W < (qhat + 1) * V →
  BIGINT_BASE - rhat <= (Z.of_nat fuel + 1) * 2 ^ 31 →
  ∃ q, qhat_correct fuel vtop vsec unext qhat rhat = Some q ∧
    0 <= q < BIGINT_BASE ∧ W < (q + 1) * V ∧ q * V < W + V.
Proof.
  revert qhat rhat. induction fuel as [|fuel IH]; intros qhat rhat Hq Hr E Hub Hfuel;
    cbn [qhat_correct]; rewrite test_exact by done;
    (destruct (Z.ltb_spec (rhat * BIGINT_BASE + unext) (qhat * vsec)) as [Hlt|Hge];
      [|exists qhat; split; [done|]; split; [done|]; split; [done|];
        by apply (estimate_close qhat rhat)]).
  all: pose proof (estimate_over qhat rhat ltac:(lia) E Hlt) as Hover.
  all: assert (1 <= qhat) by (unfold limb, BIGINT_BASE in *; nia).
  all: rewrite u64_small by (unfold BIGINT_BASE in *; lia).
  all: assert ((qhat - 1) * vtop + (rhat + vtop) = numerator) as E' by lia.
  all: destruct (Z.leb_spec BIGINT_BASE (rhat + vtop)) as [Hb|Hb].
  1, 3: exists (qhat - 1); split; [done|]; split; [lia|]; split;
    [by replace (qhat - 1 + 1) with qhat by lia|];
    apply (estimate_close (qhat - 1) (rhat + vtop)); [lia|done|];
    apply test_fails; lia.
  - exfalso. unfold BIGINT_BASE in *. lia.
  - apply IH; [lia|lia|done| |unfold BIGINT_BASE in *; lia].
    by replace (qhat - 1 + 1) with qhat by lia.
Qed.

End estimate.

(** ** Multiply and subtract *)

Lemma mulsub_digit qhat v u k :
  0 <= qhat < BIGINT_BASE → limb v → limb u → limb k →
  let p := qhat * v + k in
  0 <= p < 2 ^ 64 ∧ limb (p / 2 ^ 32) ∧ (u < p mod 2 ^ 32 → limb (p / 2 ^ 32 + 1)).
Proof.
  unfold limb, BIGINT_BASE. intros Hq Hv Hu Hk. cbn zeta.
  assert (0 <= qhat * v <= 0xffffffff * 0xffffffff) by nia.
  generalize dependent (qhat * v). intros. clear Hv Hq. lia.
Qed.

Lemma mulsub_loop_spec qhat vn w k r k' :
  0 <= qhat < BIGINT_BASE → limbs_ok vn → limbs_ok w → length w = length vn → limb k →
  mulsub_loop qhat vn w k = (r, k') →
  limbs_ok r ∧ length r = length vn ∧ limb k' ∧
  val w - qhat * val vn - k = val r - BIGINT_BASE ^ Z.of_nat (length vn) * k'.
Proof.
  intros Hq Hvn. revert w k r k'.
  induction Hvn as [|v vn Hv Hvn IH]; intros w k r k' Hw L Hk E; simpl in E.
  - injection E as <- <-. destruct w; [|done]. split; [constructor|].
    split; [done|]. split; [done|]. simpl. lia.
  - destruct Hw as [|u w Hu Hw]; [done|]. simpl in L.
    destruct (mulsub_digit qhat v u k Hq Hv Hu Hk) as (Hp & Hc & Hc1).
    rewrite u64_small in E by done. rewrite shiftr_div in E by lia.
    simpl val. simpl length. rewrite base_pow.
    pose proof (Z.div_mod (qhat * v + k) (2 ^ 32) ltac:(lia)) as Hdm.
    unfold u32 at 1 in E.
    destruct (Z.ltb_spec u ((qhat * v + k) mod 2 ^ 32)) as [Hlt|Hge].
    + destruct (mulsub_loop qhat vn w _) as [r0 k0] eqn:E0. injection E as <- <-.
      apply IH in E0 as (H1 & H2 & H3 & H4); [|done|lia|auto].
      split; [auto with limbs|]. split; [simpl; lia|]. split; [done|].
      simpl val. unfold limb, BIGINT_BASE in *. unfold u32.
      pose proof (Z.mod_pos_bound (qhat * v + k) (2 ^ 32) ltac:(lia)).
      rewrite u64_small, Z.mod_small by lia. nia.
    + destruct (mulsub_loop qhat vn w _) as [r0 k0] eqn:E0. injection E as <- <-.
      apply IH in E0 as (H1 & H2 & H3 & H4); [|done|lia|auto].
      unfold u32. pose proof (Z.mod_pos_bound (qhat * v + k) (2 ^ 32) ltac:(lia)).
      split; [apply Forall_cons; split; [unfold limb, BIGINT_BASE in *; lia|done]|].
      split; [simpl; lia|]. split; [done|].
      simpl val. unfold BIGINT_BASE in *. nia.
Qed.

(** ** One step *)

Lemma qhat_first_spec wn w1 vtop q r :
  2 ^ 31 <= vtop < BIGINT_BASE → limb w1 → 0 <= wn <= vtop →
  qhat_first (wn * BIGINT_BASE + w1) vtop = (q, r) →
  0 <= q < BIGINT_BASE ∧ 0 <= r < 2 * BIGINT_BASE ∧ q * vtop + r = wn * BIGINT_BASE + w1 ∧
  (wn * BIGINT_BASE + w1 < (q + 1) * vtop ∨ q = BIGINT_BASE - 1).
Proof.
  intros Hv Hw1 Hwn. unfold qhat_first. cbn zeta. unfold limb in Hw1.
  pose proof (Z.div_mod (wn * BIGINT_BASE + w1) vtop ltac:(unfold BIGINT_BASE in *; lia)).
  pose proof (Z.mod_pos_bound (wn * BIGINT_BASE + w1) vtop ltac:(unfold BIGINT_BASE in *; lia)).
  set (Q := (wn * BIGINT_BASE + w1) / vtop) in *.
  set (R := (wn * BIGINT_BASE + w1) mod vtop) in *.
  assert (0 <= Q) by (apply Z.div_pos; unfold BIGINT_BASE in *; lia).
  destruct (Z.leb_spec BIGINT_BASE Q); intros [= <- <-].
  - assert (BIGINT_BASE * vtop <= wn * BIGINT_BASE + w1) by nia.
    unfold BIGINT_BASE in *. rewrite !u64_small by (rewrite ?u64_small; lia). lia.
  - split; [lia|]. split; [lia|]. split; [lia|]. left. nia.
Qed.

(** Subtracting an estimate that is exact or one too large, and adding the divisor back in
    the second case, leaves the remainder. *)
Lemma step_finish vn w q lower k :
  limbs_ok vn → limbs_ok w → length w = S (length vn) →
  0 <= q < BIGINT_BASE → 0 < val vn →
  val w < (q + 1) * val vn → q * val vn < val w + val vn →
  mulsub_loop q vn (take (length vn) w) 0 = (lower, k) →
  if at_ w (length vn) <? k
  then q - 1 = val w / val vn ∧
       ∃ r c, add_loop (length vn) lower vn 0 = (r, c) ∧
         limbs_ok r ∧ length r = length vn ∧ val r = val w mod val vn
  else q = val w / val vn ∧ limbs_ok lower ∧ length lower = length vn ∧
       val lower = val w mod val vn.
Proof.
  intros Hvn Hw L Hq Hpos Hub Hlb E.
  apply mulsub_loop_spec in E as (H1 & H2 & H3 & H4);
    [|auto with limbs..|rewrite length_take; lia|auto with limbs].
  assert (val w = val (take (length vn) w)
    + BIGINT_BASE ^ Z.of_nat (length vn) * at_ w (length vn)) as Ew.
  { rewrite <- val_take_S, <- L. by rewrite firstn_all. }
  pose proof (val_bounds vn Hvn) as Bv. pose proof (val_bounds lower H1) as Bl.
  rewrite H2 in Bl. pose proof (limbs_ok_at w (length vn) Hw) as Ht.
  set (M := BIGINT_BASE ^ Z.of_nat (length vn)) in *.
  set (top := at_ w (length vn)) in *. set (V := val vn) in *. set (W := val w) in *.
  assert (W - q * V = val lower + M * (top - k)) as D by lia.
  destruct (Z.ltb_spec top k).
  - assert (top - k = -1) as Ek by nia. rewrite Ek in D.
    destruct (div_mod_digits (W - (q - 1) * V) (q - 1) V ltac:(lia)) as [Hd Hm].
    replace (W - (q - 1) * V + V * (q - 1)) with W in Hd, Hm by ring.
    split; [lia|].
    destruct (add_loop (length vn) lower vn 0) as [r c] eqn:Ea.
    apply add_loop_spec in Ea as (K1 & K2 & K3 & K4); [|auto; lia..].
    fold M V in K4. exists r, c. split; [done|]. split; [done|]. split; [done|].
    pose proof (val_bounds r K1) as Br. rewrite K2 in Br. fold M in Br.
    assert (c = 1) by nia. subst c. lia.
  - assert (top - k = 0) as Ek by nia. rewrite Ek in D.
    destruct (div_mod_digits (W - q * V) q V ltac:(lia)) as [Hd Hm].
    replace (W - q * V + V * q) with W in Hd, Hm by ring.
    split; [lia|]. split; [done|]. split; [done|]. lia.
Qed.

Lemma val_top2 l n :
  length l = S (S n) →
  val l = (at_ l (S n) * BIGINT_BASE + at_ l n) * BIGINT_BASE ^ Z.of_nat n + val (take n l).
Proof.
  intros L. rewrite <- (firstn_all l) at 1. rewrite L, !val_take_S, base_pow. ring.
Qed.

Lemma val_top3 l n :
  length l = S (S (S n)) →
  val l = ((at_ l (S (S n)) * BIGINT_BASE + at_ l (S n)) * BIGINT_BASE + at_ l n)
          * BIGINT_BASE ^ Z.of_nat n + val (take n l).
Proof.
  intros L. rewrite <- (firstn_all l) at 1. rewrite L, !val_take_S, !base_pow. ring.
Qed.

(** The leading limb of a window below [B * V] is at most the divisor's. *)
Lemma window_top vtop vsec vl wn w1 w2 wl P :
  0 < P → 0 <= vl < P → 0 <= wl → limb vsec → limb w1 → limb w2 → 0 <= vtop →
  ((wn * BIGINT_BASE + w1) * BIGINT_BASE + w2) * P + wl
    < BIGINT_BASE * ((vtop * BIGINT_BASE + vsec) * P + vl) →
  wn <= vtop.
Proof.
  intros HP Hvl Hwl Hvs Hw1 Hw2 Hvt Hlt. unfold limb in *.
  destruct (Z.le_gt_cases wn vtop) as [|Hgt]; [done|exfalso].
  assert ((vtop * BIGINT_BASE + vsec) * P + vl < (vtop + 1) * BIGINT_BASE * P)
    by (unfold BIGINT_BASE in *; nia).
  assert ((vtop + 1) * BIGINT_BASE * BIGINT_BASE * P
    <= ((wn * BIGINT_BASE + w1) * BIGINT_BASE + w2) * P) by (unfold BIGINT_BASE in *; nia).
  unfold BIGINT_BASE in *. nia.
Qed.

(** A sound step computes the quotient limb and the remainder of its window. *)
Lemma div_step_spec vn w :
  limbs_ok vn → limbs_ok w → (2 <= length vn)%nat → length w = S (length vn) →
  2 ^ 31 <= at_ vn (length vn - 1) → val w < BIGINT_BASE * val vn →
  step_safe vn w = true →
  ∃ r, div_step vn w = Some (val w / val vn, r) ∧
    limbs_ok r ∧ length r = length vn ∧ val r = val w mod val vn.
Proof.
  intros Hvn Hw Ln Lw Hv Hlt. unfold step_safe, div_step. cbn zeta.
  destruct (length vn) as [|[|n]] eqn:En; [lia..|].
  replace (S (S n) - 1)%nat with (S n) in * by lia.
  replace (S (S n) - 2)%nat with n in * by lia.
  pose proof (limbs_ok_at vn (S n) Hvn) as Lvt. pose proof (limbs_ok_at vn n Hvn) as Lvs.
  pose proof (limbs_ok_at w (S (S n)) Hw) as Lwn. pose proof (limbs_ok_at w (S n) Hw) as Lw1.
  pose proof (limbs_ok_at w n Hw) as Lw2.
  pose proof (val_bounds (take n vn) ltac:(auto with limbs)) as Bvl.
  pose proof (val_bounds (take n w) ltac:(auto with limbs)) as Bwl.
  rewrite length_take, Nat.min_l in Bvl, Bwl by lia.
  pose proof (base_pow_pos n) as HP.
  pose proof (val_top2 vn n En) as EV. pose proof (val_top3 w n Lw) as EW.
  rewrite shiftl_mul, u64_small, lor_add_low by (unfold limb, BIGINT_BASE in *; lia).
  change (2 ^ 32) with BIGINT_BASE.
  assert (at_ w (S (S n)) <= at_ vn (S n)) as Htop.
  { rewrite EV, EW in Hlt. 
    assert (0 <= at_ vn (S n)) as H0 by lia.
    exact (window_top _ _ _ _ _ _ _ _ HP Bvl (proj1 Bwl) Lvs Lw1 Lw2 H0 Hlt). }
  destruct (qhat_first _ _) as [q0 r0] eqn:Eq.
  apply qhat_first_spec in Eq as (Q1 & Q2 & Q3 & Q4);
    [|unfold limb in *; lia|done|unfold limb in *; lia].
  set (P := BIGINT_BASE ^ Z.of_nat n) in *.
  assert (0 < val vn) as Hpos by (rewrite EV; unfold limb, BIGINT_BASE in *; nia).
  assert (val w < (q0 + 1) * val vn) as Hub.
  { destruct Q4 as [Q4 | ->]; [|by replace (BIGINT_BASE - 1 + 1) with BIGINT_BASE by lia].
    rewrite EV, EW. apply estimate_first; first [done | unfold limb in *; lia | lia]. }
  intros Hsafe.
  assert (∃ q, qhat_correct 2 (at_ vn (S n)) (at_ vn n) (at_ w n) q0 r0 = Some q ∧
    0 <= q < BIGINT_BASE ∧ val w < (q + 1) * val vn ∧ q * val vn < val w + val vn)
    as (q & -> & K1 & K2 & K3).
  { rewrite EV, EW in *. destruct (Z.ltb_spec r0 BIGINT_BASE) as [Hr|Hr].
    - apply (qhat_correct_spec _ _ _ (at_ w (S (S n)) * BIGINT_BASE + at_ w (S n)));
        unfold limb, BIGINT_BASE in *; try done; lia.
    - simpl in Hsafe. apply negb_true_iff in Hsafe. cbn [qhat_correct]. rewrite Hsafe.
      exists q0. split; [done|]. split; [done|]. split; [done|].
      apply (estimate_close _ _ _ (at_ w (S (S n)) * BIGINT_BASE + at_ w (S n)) P _ _) with r0;
        first [done | by apply test_fails | unfold limb, BIGINT_BASE in *; lia]. }
  clear Hsafe EV EW Hub Htop Q1 Q2 Q3 Q4.
  destruct (mulsub_loop q vn _ 0) as [lower k] eqn:Em. rewrite <- En in Em |- *.
  pose proof (step_finish vn w q lower k Hvn Hw ltac:(lia) K1 Hpos K2 K3 Em) as Hf.
  assert (0 <= val w / val vn < BIGINT_BASE).
  { pose proof (val_nonneg w Hw). split; [apply Z.div_pos; lia|].
    apply Z.div_lt_upper_bound; lia. }
  destruct (_ <? k).
  - destruct Hf as (E1 & r & c & -> & H1 & H2 & H3). exists r.
    rewrite E1, u32_small by (unfold BIGINT_BASE in *; lia). done.
  - destruct Hf as (E1 & H1 & H2 & H3). exists lower.
    rewrite E1, u32_small by (unfold BIGINT_BASE in *; lia). done.
Qed.

(** ** The main loop *)

Lemma div_loop_spec vn low rem :
  limbs_ok vn → limbs_ok low → limbs_ok rem → (2 <= length vn)%nat →
  2 ^ 31 <= at_ vn (length vn - 1) →
  length rem = length vn → val rem < val vn → loop_safe vn low rem = true →
  ∃ q r, div_loop vn low rem = Some (q, r) ∧
    limbs_ok q ∧ length q = length low ∧ limbs_ok r ∧ length r = length vn ∧
    val r < val vn ∧
    val low + BIGINT_BASE ^ Z.of_nat (length low) * val rem = val q * val vn + val r.
Proof.
  intros Hvn Hlow Hrem Ln Hv Lr Hlt. induction Hlow as [|u low Hu Hlow IH]; intros Hsafe.
  - exists [], rem. simpl. split_and!; try done; [constructor|lia].
  - simpl in Hsafe. apply andb_true_iff in Hsafe as [Hs1 Hs2].
    destruct (IH Hs1) as (q & r & E & Q1 & Q2 & Q3 & Q4 & Q5 & Q6).
    simpl. rewrite E in *. unfold limb in Hu.
    destruct (div_step_spec vn (u :: r)) as (r' & -> & R1 & R2 & R3).
    { done. } { auto with limbs. } { done. } { simpl. lia. } { done. }
    { simpl val. unfold BIGINT_BASE in *. lia. } { done. }
    assert (0 < val vn) by (pose proof (val_nonneg r Q3); lia).
    pose proof (val_nonneg r Q3). simpl val in R3.
    pose proof (Z.div_mod (u + BIGINT_BASE * val r) (val vn) ltac:(lia)) as Hdm.
    pose proof (Z.mod_pos_bound (u + BIGINT_BASE * val r) (val vn) ltac:(lia)).
    exists (val (u :: r) / val vn :: q), r'. simpl val. split; [done|].
    split; [|split; [simpl; lia|]; split; [done|]; split; [done|]; split; [lia|]].
    + apply Forall_cons. split; [|done]. split; [apply Z.div_pos; unfold BIGINT_BASE in *; lia|].
      apply Z.div_lt_upper_bound; unfold BIGINT_BASE in *; lia.
    + simpl length. rewrite base_pow, R3. nia.
Qed.

(** ** Normalising the operands *)

Lemma shl_loop_0 l : limbs_ok l → shl_loop l 0 0 = (l, 0).
Proof.
  induction 1 as [|x l Hx Hl IH]; simpl; [done|]. unfold limb, BIGINT_BASE in Hx.
  rewrite Z.shiftl_0_r, Z.lor_0_r, u64_small, shiftr_div by lia.
  rewrite Z.div_small by lia. change (u32 0) with 0. rewrite IH, u32_small by lia. done.
Qed.

Lemma shl_loop_val l bs r c :
  limbs_ok l → 0 <= bs < 32 → shl_loop l bs 0 = (r, c) →
  limbs_ok r ∧ length r = length l ∧ 0 <= c < 2 ^ bs ∧
  val r + BIGINT_BASE ^ Z.of_nat (length l) * c = val l * 2 ^ bs.
Proof.
  intros Hl Hbs E. destruct (Z.eq_dec bs 0) as [->|].
  - rewrite shl_loop_0 in E by done. injection E as <- <-.
    split; [done|]. split; [done|]. split; [lia|]. rewrite Z.mul_0_r. lia.
  - assert (0 < 2 ^ bs) by (apply Z.pow_pos_nonneg; lia).
    apply shl_loop_spec in E as (H1 & H2 & H3 & H4); [|done|lia|lia].
    split; [done|]. split; [done|]. split; [done|]. lia.
Qed.

(** The shift makes the leading limb of the divisor at least [2^31]. *)
Lemma clz_range x : 0 < x < BIGINT_BASE → 0 <= clz32_nonzero x < 32 ∧
  2 ^ 31 <= x * 2 ^ clz32_nonzero x < BIGINT_BASE.
Proof.
  intros Hx. unfold clz32_nonzero, BIGINT_BASE in *.
  pose proof (Z.log2_spec x ltac:(lia)) as [H1 H2]. pose proof (Z.log2_nonneg x).
  assert (Z.log2 x < 32) by (apply Z.log2_lt_pow2; lia).
  split; [lia|]. set (e := Z.log2 x) in *. rewrite Z.pow_succ_r in H2 by lia.
  assert (2 ^ e * 2 ^ (31 - e) = 2 ^ 31) by (rewrite <- Z.pow_add_r by lia; f_equal; lia).
  assert (0 < 2 ^ (31 - e)) by (apply Z.pow_pos_nonneg; lia). nia.
Qed.

Lemma divisor_normalized den vn c s :
  limbs_ok den → normalized den → (2 <= length den)%nat →
  s = clz32_nonzero (at_ den (length den - 1)) → shl_loop den s 0 = (vn, c) →
  0 <= s < 32 ∧ limbs_ok vn ∧ length vn = length den ∧ val vn = val den * 2 ^ s ∧
  2 ^ 31 <= at_ vn (length vn - 1) ∧
  2 ^ s * BIGINT_BASE ^ Z.of_nat (length den - 1) <= val vn.
Proof.
  intros Hd [_ Hn] L -> E. specialize (Hn ltac:(lia)).
  pose proof (limbs_ok_at den (length den - 1) Hd) as Ht.
  set (top := at_ den (length den - 1)) in *. set (s := clz32_nonzero top) in *.
  destruct (clz_range top) as [Hs Hts]; [unfold limb in *; lia|]. fold s in Hs, Hts.
  apply shl_loop_val in E as (H1 & H2 & H3 & H4); [|done..].
  pose proof (val_bounds vn H1) as Bv. rewrite H2 in Bv.
  pose proof (val_split_last den ltac:(lia)) as Ed. fold top in Ed.
  pose proof (val_bounds (take (length den - 1) den) ltac:(auto with limbs)) as Bl.
  rewrite length_take, Nat.min_l in Bl by lia.
  assert (BIGINT_BASE ^ Z.of_nat (length den)
    = BIGINT_BASE * BIGINT_BASE ^ Z.of_nat (length den - 1)) as Ep.
  { rewrite <- base_pow. do 2 f_equal. lia. }
  pose proof (base_pow_pos (length den - 1)) as HM.
  set (M := BIGINT_BASE ^ Z.of_nat (length den - 1)) in *. rewrite Ep in *.
  assert (0 < 2 ^ s <= 2 ^ 31)
    by (split; [apply Z.pow_pos_nonneg|apply Z.pow_le_mono_r]; lia).
  assert (BIGINT_BASE mod 2 ^ s = 0) as Hdiv.
  { unfold BIGINT_BASE. change 0x100000000 with (2 ^ 32). replace 32 with (s + (32 - s)) by lia.
    rewrite Z.pow_add_r, Z.mul_comm by lia. apply Z.mod_mul. lia. }
  assert ((top + 1) * 2 ^ s <= BIGINT_BASE) as Htop1.
  { apply Z.mod_divide in Hdiv as [z Hz]; [|lia]. rewrite Hz in Hts |- *.
    apply Z.mul_le_mono_nonneg_r; [lia|]. apply proj2, Z.mul_lt_mono_pos_r in Hts; lia. }
  clear Hdiv. assert (val den < (top + 1) * M) by lia.
  assert (val den * 2 ^ s < BIGINT_BASE * M) by nia.
  assert (c = 0) as ->.
  { assert (0 < BIGINT_BASE * M) by (unfold BIGINT_BASE; lia).
    assert (c < 1) by (apply (Z.mul_lt_mono_pos_l (BIGINT_BASE * M)); lia). lia. }
  assert (2 ^ 31 * M <= val vn) by nia.
  split; [done|]. split; [done|]. split; [done|]. split; [lia|]. split; [|nia].
  pose proof (val_split_last vn ltac:(lia)) as Ev.
  pose proof (val_bounds (take (length vn - 1) vn) ltac:(auto with limbs)) as Bvl.
  rewrite length_take, Nat.min_l in Bvl by lia. rewrite H2 in *. fold M in Ev, Bvl. nia.
Qed.

(** The normalised dividend: its upper limbs are below the divisor. *)
Lemma dividend_upper (num den vn u : list Z) c s m :
  limbs_ok num → (1 <= length den)%nat → length num = (m + length den)%nat →
  0 <= s < 32 → shl_loop num s 0 = (u, c) →
  2 ^ s * BIGINT_BASE ^ Z.of_nat (length den - 1) <= val vn →
  let un := u ++ [c] in
  limbs_ok un ∧ length un = (m + 1 + length den)%nat ∧ val un = val num * 2 ^ s ∧
  val (drop (m + 1) un) < val vn.
Proof.
  intros Hnum Ld Ln Hs E Hvn un.
  apply shl_loop_val in E as (H1 & H2 & H3 & H4); [|done..].
  assert (2 ^ s <= 2 ^ 31) by (apply Z.pow_le_mono_r; lia).
  assert (limb c) by (unfold limb, BIGINT_BASE; lia).
  assert (limbs_ok un) as Hun by (subst un; auto with limbs).
  assert (length un = (m + 1 + length den)%nat) as Lun
    by (subst un; rewrite length_app; simpl; lia).
  assert (val un = val num * 2 ^ s) as Eun.
  { subst un. rewrite val_app, H2. simpl. lia. }
  split; [done|]. split; [done|]. split; [done|].
  pose proof (val_take_drop (m + 1) un ltac:(lia)) as Ed.
  pose proof (val_nonneg (take (m + 1) un) ltac:(auto with limbs)) as Bt.
  pose proof (val_bounds num Hnum) as Bn.
  assert (BIGINT_BASE ^ Z.of_nat (length num)
    = BIGINT_BASE ^ Z.of_nat (m + 1) * BIGINT_BASE ^ Z.of_nat (length den - 1)) as Ep.
  { rewrite <- Z.pow_add_r by lia. f_equal. lia. }
  pose proof (base_pow_pos (m + 1)). pose proof (base_pow_pos (length den - 1)).
  set (M := BIGINT_BASE ^ Z.of_nat (m + 1)) in *.
  set (K := BIGINT_BASE ^ Z.of_nat (length den - 1)) in *.
  apply (Z.mul_lt_mono_pos_l M); [done|]. rewrite Eun, Ep in *.
  assert (0 < 2 ^ s) by (apply Z.pow_pos_nonneg; lia).
  assert (val num * 2 ^ s < M * (2 ^ s * K)) by nia. nia.
Qed.

(** Undoing the normalisation on the remainder. *)
Lemma remainder_unshift r s k :
  limbs_ok r → 0 <= s < 32 → val r = k * 2 ^ s →
  let out := if s =? 0 then r else fst (shr_loop r s (u32 ((1 <<' s) - 1))) in
  limbs_ok out ∧ length out = length r ∧ val out = k.
Proof.
  intros Hr Hs E. cbn zeta. destruct (Z.eqb_spec s 0) as [->|].
  - split; [done|]. split; [done|]. lia.
  - destruct (shr_loop _ _ _) as [out c] eqn:Eo.
    apply shr_loop_spec in Eo as (H1 & H2 & H3 & H4); [|done|lia].
    simpl. split; [done|]. split; [done|].
    assert (0 < 2 ^ s) by (apply Z.pow_pos_nonneg; lia).
    assert (0 <= c < 2 ^ s) by (subst c; apply Z.mod_pos_bound; lia). nia.
Qed.

Lemma shl_choice l s :
  limbs_ok l → 0 <= s < 32 →
  (if s =? 0 then l else fst (shl_loop l s 0)) = fst (shl_loop l s 0).
Proof. intros Hl Hs. destruct (Z.eqb_spec s 0) as [->|]; [|done]. by rewrite shl_loop_0. Qed.

Lemma shl_choice_app l s :
  limbs_ok l → 0 <= s < 32 →
  (if s =? 0 then l ++ [0] else let '(u, c) := shl_loop l s 0 in u ++ [c])
  = let '(u, c) := shl_loop l s 0 in u ++ [c].
Proof. intros Hl Hs. destruct (Z.eqb_spec s 0) as [->|]; [|done]. by rewrite shl_loop_0. Qed.

Section divmod_spec.
Context `{Heap}.

(** What a division returns for [q_out] and [r_out]. *)
Definition divides (num den : list Z) (wq wr : bool) (q r : list Z) : Prop :=
  (wq = true → limbs_ok q ∧ normalized q ∧ (length q <= length num)%nat ∧
               val q = val num / val den) ∧
  (wr = true → limbs_ok r ∧ normalized r ∧ (length r <= length num)%nat ∧
               val r = val num mod val den).

Lemma take_normalize l n :
  length l = n → take (bigint_normalize_limbs l n) l = norm l.
Proof. by intros <-. Qed.

Lemma norm_result l n x :
  limbs_ok l → (1 <= length l <= n)%nat → val l = x →
  limbs_ok (norm l) ∧ normalized (norm l) ∧ (length (norm l) <= n)%nat ∧ val (norm l) = x.
Proof.
  intros Hl Ln Hv. rewrite norm_val. pose proof (normalize_le l (length l)).
  split; [by apply norm_ok|]. split; [apply norm_normalized; lia|].
  split; [rewrite length_norm; lia|done].
Qed.

(** The long division, with both operands normalised. *)
Lemma long_division num den :
  limbs_ok num → limbs_ok den → normalized den → (2 <= length den <= length num)%nat →
  let m := (length num - length den)%nat in
  let s := clz32_nonzero (at_ den (length den - 1)) in
  let vn := fst (shl_loop den s 0) in
  let un := let '(u, carry) := shl_loop num s 0 in u ++ [carry] in
  loop_safe vn (take (m + 1) un) (drop (m + 1) un) = true →
  0 <= s < 32 ∧
  ∃ q r, div_loop vn (take (m + 1) un) (drop (m + 1) un) = Some (q, r) ∧
    limbs_ok q ∧ length q = (m + 1)%nat ∧ val q = val num / val den ∧
    limbs_ok r ∧ length r = length den ∧ val r = val num mod val den * 2 ^ s.
Proof.
  intros Hnum Hden Nd L m s vn un Hsafe.
  destruct (shl_loop den s 0) as [vn' cv] eqn:Ev. subst vn. simpl fst in *.
  destruct (divisor_normalized den vn' cv s Hden Nd ltac:(lia) eq_refl Ev)
    as (Hs & V1 & V2 & V3 & V4 & V5).
  destruct (shl_loop num s 0) as [u c] eqn:Eu.
  destruct (dividend_upper num den vn' u c s m Hnum ltac:(lia) ltac:(lia) Hs Eu V5)
    as (U1 & U2 & U3 & U4).
  fold un in U1, U2, U3, U4.
  destruct (div_loop_spec vn' (take (m + 1) un) (drop (m + 1) un))
    as (q & r & Eq & Q1 & Q2 & Q3 & Q4 & Q5 & Q6);
    [auto with limbs..|lia|done|rewrite length_drop; lia|done|done|].
  rewrite length_take, Nat.min_l in Q2, Q6 by lia.
  rewrite <- val_take_drop, U3, V3 in Q6 by lia.
  split; [done|]. exists q, r. split; [done|].
  assert (0 < 2 ^ s) by (apply Z.pow_pos_nonneg; lia).
  pose proof (val_nonneg r Q3). rewrite V3 in Q5.
  assert (val r = (val num - val q * val den) * 2 ^ s) as Er by lia.
  assert (0 <= val num - val q * val den < val den) as Hrange by nia.
  destruct (div_mod_digits (val num - val q * val den) (val q) (val den) Hrange) as [D1 D2].
  replace (val num - val q * val den + val den * val q) with (val num) in D1, D2 by ring.
  rewrite D1, D2. split; [done|]. split; [lia|]. split; [done|].
  split; [done|]. split; [lia|done].
Qed.

Lemma alloc_refused n cap : 1 <= n <= cap → limb_alloc n = false → refused cap.
Proof. intros Hn E. right; right; left. by exists n. Qed.

(** [o] is a pair satisfying [P], or reports a refused allocation. *)
Definition yields (cap : Z) (o : option (list Z * list Z)) (P : list Z → list Z → Prop) : Prop :=
  match o with Some (q, r) => P q r | None => refused cap end.

Lemma yields_guard (w : bool) n cap k P :
  1 <= n <= cap → yields cap k P → yields cap (if w && negb (limb_alloc n) then None else k) P.
Proof.
  intros Hn Hk. destruct (limb_alloc n) eqn:E; rewrite ?andb_false_r; [done|].
  destruct w; [|done]. by apply (alloc_refused n).
Qed.

Lemma yields_guard1 n cap k P :
  1 <= n <= cap → yields cap k P → yields cap (if negb (limb_alloc n) then None else k) P.
Proof. apply (yields_guard true). Qed.

Lemma singleton_result x n :
  limb x → (1 <= n)%nat →
  limbs_ok [x] ∧ normalized [x] ∧ (length [x] <= n)%nat ∧ val [x] = x.
Proof.
  intros Hx Hn. split; [auto with limbs|]. split; [split; simpl; lia|]. simpl. lia.
Qed.

(** The dividend is the smaller number. *)
Lemma divmod_less num den (wq wr : bool) :
  limbs_ok num → (1 <= length num)%nat → val num < val den →
  yields (zlen num + 1)
    (if wq && negb (limb_alloc 1) then None
     else if wr && negb (limb_alloc (zlen num)) then None
     else Some (if wq then [0] else [],
                if wr then take (bigint_normalize_limbs num (length num)) num else []))
    (divides num den wq wr).
Proof.
  intros Hnum Ln Hlt. pose proof (val_nonneg num Hnum). unfold zlen.
  apply yields_guard; [lia|]. apply yields_guard; [lia|].
  split; intros ->; rewrite ?Z.div_small, ?Z.mod_small by lia.
  - apply singleton_result; [apply limb_0|done].
  - rewrite take_normalize by done. by apply norm_result; [|lia|].
Qed.

(** The divisor is one limb. *)
Lemma divmod_single num d (wq wr : bool) :
  limbs_ok num → (1 <= length num)%nat → 0 < d < BIGINT_BASE →
  yields (zlen num + 1)
    (if negb (limb_alloc (zlen num)) then None
     else let '(q, rem) := bigint_div_small_inplace num d in
          if wr && negb (limb_alloc 1) then None
          else Some (if wq then take (bigint_normalize_limbs q (length num)) q else [],
                     if wr then [u32 rem] else []))
    (divides num [d] wq wr).
Proof.
  intros Hnum Ln Hd. unfold zlen. apply yields_guard1; [lia|].
  destruct (bigint_div_small_inplace num d) as [q r] eqn:Eq.
  apply bigint_div_small_inplace_spec in Eq as (Q1 & Q2 & Q3 & Q4); [|done|lia].
  destruct (div_mod_digits r (val q) d Q3) as [D1 D2].
  replace (r + d * val q) with (val num) in D1, D2 by lia.
  apply yields_guard; [lia|].
  split; intros ->; simpl val; rewrite !Z.mul_0_r, !Z.add_0_r, ?D1, ?D2.
  - rewrite take_normalize by done. by apply norm_result; [|lia|].
  - rewrite u32_small by (unfold BIGINT_BASE in *; lia).
    destruct (singleton_result r (length num)) as (?&?&?&?); [unfold limb; lia|done|].
    done.
Qed.

(** [bigint_divmod_abs_limbs] computes quotient and remainder when every step is sound, and
    otherwise fails only on a refused allocation. *)
Lemma bigint_divmod_abs_limbs_spec num den wq wr :
  limbs_ok num → limbs_ok den → normalized num → normalized den → val den ≠ 0 →
  divmod_safe num den = true →
  yields (zlen num + 1) (bigint_divmod_abs_limbs num den wq wr) (divides num den wq wr).
Proof.
  intros Hnum Hden Nn Nd Hz Hsafe. unfold bigint_divmod_abs_limbs. cbn zeta.
  pose proof (limbs_is_zero_spec den Hden Nd) as Ez. unfold limbs_is_zero in Ez. rewrite Ez.
  destruct (Z.eqb_spec (val den) 0); [done|]. clear Ez.
  pose proof (proj1 Nn) as Ln. pose proof (proj1 Nd) as Ld.
  unfold divmod_safe in Hsafe. rewrite bigint_cmp_abs_limbs_spec in * by done.
  destruct (Z.ltb_spec (Z.sgn (val num - val den)) 0) as [Hlt|Hge].
  { apply divmod_less; [done..|lia]. }
  destruct (Nat.eqb_spec (length den) 1) as [E1|E1].
  { destruct den as [|d [|]]; [done| |done].
    apply Forall_cons in Hden as [Hd _]. simpl in Hz. unfold limb in Hd.
    apply (divmod_single num d); [done..|lia]. }
  assert (2 <= length den <= length num)%nat as HL.
  { split; [lia|]. by apply normalized_length_le; [..|lia]. }
  destruct (Nat.ltb_spec (length den) 2); [lia|]. cbn [orb] in Hsafe.
  destruct (long_division num den Hnum Hden Nd HL Hsafe)
    as (Hs & q & r & Ed & Q1 & Q2 & Q3 & R1 & R2 & R3).
  rewrite shl_choice, shl_choice_app, Ed by done. unfold zlen.
  destruct (limb_alloc (Z.of_nat (length den))) eqn:A1; cbn [negb orb];
    [|apply (alloc_refused (Z.of_nat (length den))); [lia|done]].
  destruct (limb_alloc (Z.of_nat (length num) + 1)) eqn:A2; cbn [negb orb];
    [|apply (alloc_refused (Z.of_nat (length num) + 1)); [lia|done]].
  apply yields_guard1; [lia|]. rewrite andb_false_r.
  destruct (remainder_unshift r _ (val num mod val den) R1 Hs R3) as (O1 & O2 & O3).
  split; intros ->; rewrite take_normalize by lia; by apply norm_result; [|lia|].
Qed.

End divmod_spec.

(** ** The operators *)

Section operators.
Context `{Heap}.

(** The division of two BigInts is sound when its limb division is. *)
Definition div_safe (a b : bigint) : bool := divmod_safe (limbs a) (limbs b).

Lemma finish_div (num q : list Z) x (neg : bool) :
  limbs_ok q → normalized q → (length q <= length num)%nat →
  x = (if neg then - val q else val q) →
  computes (zlen num + 1)
    (js_mkbigint_limbs q (neg && negb ((length q =? 1)%nat && (at_ q 0 =? 0)))) x.
Proof.
  intros Hq Nq Lq ->. pose proof (limbs_is_zero_spec q Hq Nq) as Ez.
  unfold limbs_is_zero in Ez. rewrite Ez.
  eapply computes_mono; [|].
  2: { replace (if neg then - val q else val q) with
    (if neg && negb (val q =? 0) then - val q else val q).
    - apply js_mkbigint_limbs_spec; [done|apply Nq].
    - destruct neg; [|done]. destruct (Z.eqb_spec (val q) 0); simpl; lia. }
  unfold zlen. lia.
Qed.

Lemma bigint_div_computes a b :
  wf a → wf b → to_Z b ≠ 0 → div_safe a b = true →
  computes (zlen (limbs a) + 1) (bigint_div a b) (Z.quot (to_Z a) (to_Z b)).
Proof.
  intros Ha Hb Hz Hs. unfold bigint_div. cbn zeta. rewrite !bigint_limbs_wf by done.
  pose proof (limbs_is_zero_spec _ (wf_limbs b Hb) (wf_norm b Hb)) as Ez.
  unfold limbs_is_zero in Ez. rewrite Ez. rewrite (to_Z_zero b Hb) in Hz.
  destruct (Z.eqb_spec (val (limbs b)) 0); [done|].
  pose proof (bigint_divmod_abs_limbs_spec (limbs a) (limbs b) true false (wf_limbs a Ha)
    (wf_limbs b Hb) (wf_norm a Ha) (wf_norm b Hb) Hz Hs) as Hd.
  destruct (bigint_divmod_abs_limbs _ _ true false) as [[q r]|]; [|by split].
  destruct Hd as [Hd _]. destruct (Hd eq_refl) as (Q1 & Q2 & Q3 & Q4).
  apply finish_div; [done..|]. rewrite Q4. unfold to_Z, bigint_is_negative.
  pose proof (val_nonneg _ (wf_limbs a Ha)). pose proof (val_nonneg _ (wf_limbs b Hb)).
  rewrite <- Z.quot_div_nonneg by lia.
  destruct (sign a), (sign b); simpl; rewrite ?Z.quot_opp_l, ?Z.quot_opp_r by lia; lia.
Qed.

Lemma bigint_mod_computes a b :
  wf a → wf b → to_Z b ≠ 0 → div_safe a b = true →
  computes (zlen (limbs a) + 1) (bigint_mod a b) (Z.rem (to_Z a) (to_Z b)).
Proof.
  intros Ha Hb Hz Hs. unfold bigint_mod. cbn zeta. rewrite !bigint_limbs_wf by done.
  pose proof (limbs_is_zero_spec _ (wf_limbs b Hb) (wf_norm b Hb)) as Ez.
  unfold limbs_is_zero in Ez. rewrite Ez. rewrite (to_Z_zero b Hb) in Hz.
  destruct (Z.eqb_spec (val (limbs b)) 0); [done|].
  pose proof (bigint_divmod_abs_limbs_spec (limbs a) (limbs b) false true (wf_limbs a Ha)
    (wf_limbs b Hb) (wf_norm a Ha) (wf_norm b Hb) Hz Hs) as Hd.
  destruct (bigint_divmod_abs_limbs _ _ false true) as [[q r]|]; [|by split].
  destruct Hd as [_ Hd]. destruct (Hd eq_refl) as (Q1 & Q2 & Q3 & Q4).
  apply finish_div; [done..|]. rewrite Q4. unfold to_Z, bigint_is_negative.
  pose proof (val_nonneg _ (wf_limbs a Ha)). pose proof (val_nonneg _ (wf_limbs b Hb)).
  rewrite <- Z.rem_mod_nonneg by lia.
  destruct (sign a), (sign b); simpl; rewrite ?Z.rem_opp_l, ?Z.rem_opp_r by lia; lia.
Qed.

Lemma bigint_div_by_zero a b :
  wf b → to_Z b = 0 →
  bigint_div a b = js_mkerr "Division by zero" ∧ bigint_mod a b = js_mkerr "Division by zero".
Proof.
  intros Hb Hz. unfold bigint_div, bigint_mod. cbn zeta. rewrite (bigint_limbs_wf b) by done.
  pose proof (limbs_is_zero_spec _ (wf_limbs b Hb) (wf_norm b Hb)) as Ez.
  unfold limbs_is_zero in Ez. rewrite Ez, (proj1 (to_Z_zero b Hb) Hz). done.
Qed.

End operators.

(** ** When every step is sound *)

(** A zero second limb makes the correction test fail at once. *)
Lemma step_safe_second_zero vn w :
  limbs_ok w → at_ vn (length vn - 2) = 0 → step_safe vn w = true.
Proof.
  intros Hw Hz. unfold step_safe. cbn zeta. destruct (qhat_first _ _) as [q r].
  rewrite Hz, Z.mul_0_r. apply orb_true_intro. right. apply negb_true_iff.
  change (u64 0) with 0. rewrite Z.gtb_ltb. apply Z.ltb_ge.
  apply Z.lor_nonneg. split; [apply u64_range|].
  pose proof (limbs_ok_at w (length vn - 2) Hw) as Hl. apply Hl.
Qed.

Lemma loop_safe_second_zero vn low rem :
  limbs_ok vn → limbs_ok low → limbs_ok rem → (2 <= length vn)%nat →
  2 ^ 31 <= at_ vn (length vn - 1) → length rem = length vn → val rem < val vn →
  at_ vn (length vn - 2) = 0 → loop_safe vn low rem = true.
Proof.
  intros Hvn Hlow Hrem Ln Hv Lr Hlt Hz.
  induction Hlow as [|u low Hu Hlow IH]; [done|]. simpl. rewrite IH.
  destruct (div_loop_spec vn low rem) as (q & r & -> & _ & _ & Hr & _); [done..|].
  apply step_safe_second_zero; [auto with limbs|done].
Qed.

(** A division by a normalised number whose normalised second limb is zero is sound. *)
Lemma divmod_safe_second_zero num den :
  limbs_ok num → limbs_ok den → normalized num → normalized den →
  ((2 <= length den)%nat →
   let s := clz32_nonzero (at_ den (length den - 1)) in
   at_ (fst (shl_loop den s 0)) (length den - 2) = 0) →
  divmod_safe num den = true.
Proof.
  intros Hnum Hden Nn Nd Hz. unfold divmod_safe. cbn zeta.
  pose proof (proj1 Nn). pose proof (proj1 Nd).
  destruct (Nat.ltb_spec (length den) 2); [done|]. cbn [orb].
  rewrite bigint_cmp_abs_limbs_spec by done.
  destruct (Z.ltb_spec (Z.sgn (val num - val den)) 0); [done|]. cbn [orb].
  specialize (Hz ltac:(done)). cbn zeta in Hz. set (s := clz32_nonzero _) in *.
  assert (length den <= length num)%nat by (apply normalized_length_le; done || lia).
  destruct (shl_loop den s 0) as [vn cv] eqn:Ev. simpl fst in *.
  destruct (divisor_normalized den vn cv s Hden Nd ltac:(lia) eq_refl Ev)
    as (Hs & V1 & V2 & V3 & V4 & V5).
  destruct (shl_loop num s 0) as [u c] eqn:Eu.
  destruct (dividend_upper num den vn u c s (length num - length den) Hnum ltac:(lia)
    ltac:(lia) Hs Eu V5) as (U1 & U2 & U3 & U4).
  apply loop_safe_second_zero; auto with limbs; [lia|rewrite length_drop; lia|by rewrite V2].
Qed.

Lemma shl_loop_zeros k x s :
  limb x → 0 <= s < 32 →
  ∃ y c, shl_loop (replicate k 0 ++ [x]) s 0 = (replicate k 0 ++ [y], c).
Proof.
  intros Hx Hs. induction k as [|k (y & c & IH)]; simpl.
  - eauto.
  - rewrite Z.shiftl_0_l. change (u64 0 |' 0) with 0. change (u32 (0 >>' 32)) with 0.
    rewrite IH. by exists y, c.
Qed.

(** The limbs of a power of two. *)
Lemma pow2_limbs b n :
  wf b → 0 <= n → to_Z b = 2 ^ n →
  limbs b = replicate (Z.to_nat (n >>' 5)) 0 ++ [2 ^ (n &' 31)].
Proof.
  intros Hb Hn E. assert (0 < 2 ^ n) by (apply Z.pow_pos_nonneg; lia).
  pose proof (shift_bit_range n).
  assert (0 < 2 ^ (n &' 31) <= 2 ^ 31)
    by (split; [apply Z.pow_pos_nonneg|apply Z.pow_le_mono_r]; lia).
  apply normalized_inj; [apply Hb| |apply Hb| |].
  - apply limbs_ok_app. split; [auto with limbs|]. apply Forall_cons.
    split; [unfold limb, BIGINT_BASE; lia|constructor].
  - split; rewrite length_app; simpl; [lia|]. intros _.
    rewrite at_app_r, length_replicate by lia.
    replace (Z.to_nat (n >>' 5) + 1 - 1 - Z.to_nat (n >>' 5))%nat with 0%nat by lia.
    change (at_ [2 ^ (n &' 31)] 0) with (2 ^ (n &' 31)). lia.
  - rewrite to_Z_abs, E, Z.abs_eq by (done || lia).
    rewrite val_app, val_replicate_0, length_replicate, (pow2_shift n) by done. simpl. lia.
Qed.

(** Dividing by a power of two is always sound. *)
Lemma div_safe_pow2 a b n :
  wf a → wf b → 0 <= n → to_Z b = 2 ^ n → div_safe a b = true.
Proof.
  intros Ha Hb Hn E. unfold div_safe.
  apply divmod_safe_second_zero; [apply Ha|apply Hb|apply Ha|apply Hb|].
  rewrite (pow2_limbs b n) by done. intros Hlen. cbn zeta.
  assert (0 < 2 ^ (n &' 31) <= 2 ^ 31) as Hx.
  { pose proof (shift_bit_range n). split; [apply Z.pow_pos_nonneg|apply Z.pow_le_mono_r]; lia. }
  set (k := Z.to_nat (n >>' 5)) in *. set (x := 2 ^ (n &' 31)) in *.
  rewrite length_app, length_replicate in *. simpl length in *.
  replace (k + 1 - 1)%nat with k by lia.
  rewrite at_app_r, length_replicate, Nat.sub_diag by (rewrite length_replicate; lia).
  destruct (clz_range x) as [Hs _]; [unfold BIGINT_BASE; lia|].
  destruct (shl_loop_zeros k x (clz32_nonzero x)) as (y & c & Es);
    [unfold limb, BIGINT_BASE; lia|done|].
  change (at_ [x] 0) with x. rewrite Es. simpl fst.
  rewrite at_app_l by (rewrite length_replicate; lia). apply at_replicate_0.
Qed.

(** ** Where it is not

    For [2^95 + 2^63] divided by [2^63 + 2^32 - 1] the first correction test wraps, the
    quotient limb is decremented once too often, and the quotient returned is one less than
    the true one; the remainder is then larger than the divisor. *)
Definition bad_num : bigint := mk_bigint false [0; 2 ^ 31; 2 ^ 31].

Definition bad_den : bigint := mk_bigint false [2 ^ 32 - 1; 2 ^ 31].

(** On these two well-formed values the division loses one. *)
Lemma bigint_div_off_by_one :
  wf bad_num ∧ wf bad_den ∧ div_safe bad_num bad_den = false ∧
  bigint_div (H := roomy_heap) bad_num bad_den = Ok (mk_bigint false [4294967294]) ∧
  Z.quot (to_Z bad_num) (to_Z bad_den) = 4294967295 ∧
  ∃ r, bigint_mod (H := roomy_heap) bad_num bad_den = Ok r ∧ to_Z bad_den <= to_Z r.
Proof.
  assert (wf bad_num).
  { split; [repeat constructor; vm_compute; congruence|split; vm_compute; lia|done|done]. }
  assert (wf bad_den).
  { split; [repeat constructor; vm_compute; congruence|split; vm_compute; lia|done|done]. }
  split; [done|]. split; [done|]. split; [reflexivity|]. split; [reflexivity|].
  split; [reflexivity|]. exists (mk_bigint false [4294967294; 2147483650]).
  split; [reflexivity|]. vm_compute. congruence.
Qed.

(** ** Statements *)

Section statements.
Context `{Heap}.

(** C11: [/] truncates the exact quotient toward zero and [%] is the remainder with the sign of
    the dividend, whenever no correction step of the long division wraps ([div_safe], which
    holds for every divisor of one limb and every power of two); a divisor of zero is refused by
    both with a TypeError.  Outside that condition the code is wrong: of two well-formed values it returns the
    quotient 4294967294 where the exact one is 4294967295, and a remainder that is at least the
    divisor. *)
Theorem bigint_divmod_correct a b :
  wf a → wf b → div_safe a b = true →
  (to_Z b = 0 →
   bigint_div a b = Throw (mk_js_err JS_ERR_TYPE "Division by zero") ∧
   bigint_mod a b = Throw (mk_js_err JS_ERR_TYPE "Division by zero")) ∧
  (to_Z b ≠ 0 → computes (zlen (limbs a) + 1) (bigint_div a b) (Z.quot (to_Z a) (to_Z b)) ∧
                computes (zlen (limbs a) + 1) (bigint_mod a b) (Z.rem (to_Z a) (to_Z b))) ∧
  (wf bad_num ∧ wf bad_den ∧ div_safe bad_num bad_den = false ∧
   bigint_div (H := roomy_heap) bad_num bad_den = Ok (mk_bigint false [4294967294]) ∧
   Z.quot (to_Z bad_num) (to_Z bad_den) = 4294967295 ∧
   ∃ r, bigint_mod (H := roomy_heap) bad_num bad_den = Ok r ∧ to_Z bad_den <= to_Z r).
Proof.
  intros Ha Hb Hs. split; [|split; [|exact bigint_div_off_by_one]]; intros Hz; [|split; [by apply bigint_div_computes|by apply bigint_mod_computes]].
  by apply bigint_div_by_zero.
Qed.

End statements.

Lemma bigint_divmod_witness :
  let a := mk_bigint true [9; 8; 7] in let b := mk_bigint false [5; 2147483648] in
  computes (H := roomy_heap) 4 (bigint_div (H := roomy_heap) a b) (Z.quot (to_Z a) (to_Z b)) ∧
  computes (H := roomy_heap) 4 (bigint_mod (H := roomy_heap) a b) (Z.rem (to_Z a) (to_Z b)).
Proof.
  apply (bigint_divmod_correct (H := roomy_heap) (mk_bigint true [9; 8; 7])
    (mk_bigint false [5; 2147483648])); [solve_wf|solve_wf|reflexivity|done].
Defined.
