(* ===== verification/BigIntBits.v ===== *)
(** * BigInt bitwise operators

    Models the two's complement view of a sign and magnitude in src/modules/bigint.c:
    [bigint_twos_complement_limb], [bigint_twos_complement_to_magnitude],
    [bigint_bitwise_binary] with its three operators, and [bigint_bitnot].  The theorems say
    that [&], [|], [^] and [~] are the bitwise operations on the infinite two's complement
    representation of the integers, which [Z.land], [Z.lor], [Z.lxor] and [Z.lnot] are. *)

From S2P Require Import Prelude BigIntLimbs BigInt.

Inductive bigint_bitop_t := BIGINT_BAND | BIGINT_BOR | BIGINT_BXOR.

(** The limb, and the new value of [*carry]. *)
Definition bigint_twos_complement_limb (limbs : list Z) (negative : bool) (index : nat)
    (carry : Z) : Z * Z :=
  let limb := if (index <? length limbs)%nat then at_ limbs index else 0 in
  if negb negative then (limb, carry)
  else
    let cur := u64 (u32 (Z.lnot limb) + carry) in
    (u32 cur, cur >>' 32).

Fixpoint negate_loop (limbs : list Z) (carry : Z) : list Z :=
  match limbs with
  | [] => []
  | x :: limbs =>
      let cur := u64 (u32 (Z.lnot x) + carry) in
      u32 cur :: negate_loop limbs (cur >>' 32)
  end.

(** The limbs after the conversion in place, the count returned, and [*negative_out]. *)
Definition bigint_twos_complement_to_magnitude (limbs : list Z) (width : nat)
  : list Z * nat * bool :=
  let width := if (width =? 0)%nat then 1%nat else width in
  let negative := negb (at_ limbs (width - 1) &' 0x80000000 =? 0) in
  let limbs := if negative then negate_loop (take width limbs) 1 ++ drop width limbs
               else limbs in
  let width := bigint_normalize_limbs limbs width in
  let negative := if (width =? 1)%nat && (at_ limbs 0 =? 0) then false else negative in
  (limbs, width, negative).

Definition apply_bitop (op : bigint_bitop_t) (x y : Z) : Z :=
  match op with
  | BIGINT_BAND => x &' y
  | BIGINT_BOR => x |' y
  | BIGINT_BXOR => x ^' y
  end.

(** The [n] limbs of the result from limb [i] on. *)
Fixpoint bitwise_loop (op : bigint_bitop_t) (ad bd : list Z) (aneg bneg : bool)
    (i n : nat) (acarry bcarry : Z) : list Z :=
  match n with
  | O => []
  | S n =>
      let '(x, acarry) := bigint_twos_complement_limb ad aneg i acarry in
      let '(y, bcarry) := bigint_twos_complement_limb bd bneg i bcarry in
      apply_bitop op x y :: bitwise_loop op ad bd aneg bneg (S i) n acarry bcarry
  end.

Fixpoint bitnot_loop (limbs : list Z) (neg : bool) (i n : nat) (carry : Z) : list Z :=
  match n with
  | O => []
  | S n =>
      let '(x, carry) := bigint_twos_complement_limb limbs neg i carry in
      u32 (Z.lnot x) :: bitnot_loop limbs neg (S i) n carry
  end.

Section operations.
Context `{Heap}.

Definition bigint_bitwise_binary (a b : bigint) (op : bigint_bitop_t) : outcome bigint :=
  let aneg := bigint_is_negative a in
  let bneg := bigint_is_negative b in
  let ad := bigint_limbs a in
  let bd := bigint_limbs b in
  let abit := bigint_abs_bitlen_limbs ad in
  let bbit := bigint_abs_bitlen_limbs bd in
  let width_bits := (if bbit <? abit then abit else bbit) + 1 in
  let width := (width_bits + 31) / 32 in
  let width := if width =? 0 then 1 else width in
  _ ← (if BIGINT_LIMB_SIZE <? width then bigint_alloc_binary_payload width else Ok tt);
  let result := bitwise_loop op ad bd aneg bneg 0 (Z.to_nat width) 1 1 in
  let '(result, count, negative) :=
    bigint_twos_complement_to_magnitude result (Z.to_nat width) in
  deliver width result count negative.

Definition bigint_bitand (a b : bigint) : outcome bigint := bigint_bitwise_binary a b BIGINT_BAND.

Definition bigint_bitor (a b : bigint) : outcome bigint := bigint_bitwise_binary a b BIGINT_BOR.

Definition bigint_bitxor (a b : bigint) : outcome bigint := bigint_bitwise_binary a b BIGINT_BXOR.

Definition bigint_bitnot (value : bigint) : outcome bigint :=
  let neg := bigint_is_negative value in
  let limbs := bigint_limbs value in
  let bits := bigint_abs_bitlen_limbs limbs in
  let width_bits := bits + 1 in
  let width := (width_bits + 31) / 32 in
  let width := if width =? 0 then 1 else width in
  _ ← (if BIGINT_LIMB_SIZE <? width then bigint_alloc_unary_payload width else Ok tt);
  let result := bitnot_loop limbs neg 0 (Z.to_nat width) 1 in
  let '(result, out_count, out_neg) :=
    bigint_twos_complement_to_magnitude result (Z.to_nat width) in
  deliver width result out_count out_neg.

End operations.

(** ** Bitwise operations commute with taking digits *)

Lemma apply_bitop_shiftr op x y n :
  apply_bitop op x y >>' n = apply_bitop op (x >>' n) (y >>' n).
Proof. destruct op; [apply Z.shiftr_land|apply Z.shiftr_lor|apply Z.shiftr_lxor]. Qed.

Lemma apply_bitop_mod op x y n :
  0 <= n → apply_bitop op x y mod 2 ^ n = apply_bitop op (x mod 2 ^ n) (y mod 2 ^ n).
Proof.
  intros Hn. apply Z.bits_inj'. intros i Hi.
  destruct (Z.lt_ge_cases i n); destruct op; simpl;
    rewrite ?Z.land_spec, ?Z.lor_spec, ?Z.lxor_spec;
    rewrite ?Z.mod_pow2_bits_low, ?Z.mod_pow2_bits_high by lia;
    rewrite ?Z.land_spec, ?Z.lor_spec, ?Z.lxor_spec; done.
Qed.

Lemma apply_bitop_digit op x y :
  apply_bitop op x y mod BIGINT_BASE = apply_bitop op (x mod BIGINT_BASE) (y mod BIGINT_BASE).
Proof. by apply (apply_bitop_mod op x y 32). Qed.

Lemma apply_bitop_rest op x y :
  apply_bitop op x y / BIGINT_BASE = apply_bitop op (x / BIGINT_BASE) (y / BIGINT_BASE).
Proof. change BIGINT_BASE with (2 ^ 32). by rewrite <- !shiftr_div, apply_bitop_shiftr. Qed.

Lemma apply_bitop_limb op x y : limb x → limb y → limb (apply_bitop op x y).
Proof.
  intros Hx Hy. unfold limb, BIGINT_BASE in *. change (4294967296) with (2 ^ 32) in *.
  rewrite <- (Z.mod_small x (2 ^ 32)), <- (Z.mod_small y (2 ^ 32)) by done.
  rewrite <- apply_bitop_mod by lia. apply Z.mod_pos_bound. lia.
Qed.

(** An integer is within [-2^m, 2^m) when its bits from [m] on are all its sign. *)
Lemma signed_range_iff x m : 0 <= m → - 2 ^ m <= x < 2 ^ m ↔ x >>' m = 0 ∨ x >>' m = -1.
Proof.
  intros Hm. rewrite shiftr_div by done. pose proof (Z.pow_pos_nonneg 2 m ltac:(lia) Hm).
  split.
  - intros Hx. destruct (Z.lt_ge_cases x 0).
    + right. symmetry. apply (Z.div_unique_pos _ _ _ (x + 2 ^ m)); lia.
    + left. apply Z.div_small. lia.
  - pose proof (Z.div_mod x (2 ^ m) ltac:(lia)). pose proof (Z.mod_pos_bound x (2 ^ m) ltac:(lia)).
    intros [E|E]; rewrite E in *; lia.
Qed.

Lemma apply_bitop_range op x y m :
  0 <= m → - 2 ^ m <= x < 2 ^ m → - 2 ^ m <= y < 2 ^ m →
  - 2 ^ m <= apply_bitop op x y < 2 ^ m.
Proof.
  intros Hm. rewrite !signed_range_iff, apply_bitop_shiftr by done.
  intros [-> | ->] [-> | ->]; destruct op; simpl; auto.
Qed.

Lemma lnot_mod x n : 0 <= n → Z.lnot (x mod 2 ^ n) mod 2 ^ n = Z.lnot x mod 2 ^ n.
Proof.
  intros Hn. apply Z.bits_inj'. intros i Hi. destruct (Z.lt_ge_cases i n).
  - rewrite !Z.mod_pow2_bits_low, !Z.lnot_spec, Z.mod_pow2_bits_low by lia. done.
  - rewrite !Z.mod_pow2_bits_high by lia. done.
Qed.

(** The first [n + 1] digits of an integer. *)
Lemma mod_base_S x n :
  x mod BIGINT_BASE ^ Z.of_nat (S n)
  = x mod BIGINT_BASE + BIGINT_BASE * ((x / BIGINT_BASE) mod BIGINT_BASE ^ Z.of_nat n).
Proof.
  rewrite base_pow. pose proof (base_pow_pos n).
  rewrite Z.rem_mul_r by (unfold BIGINT_BASE; lia). done.
Qed.

(** ** The two's complement digits of a sign and magnitude *)

(** What is left of the number from limb [i] on, [c] being the carry into that limb. *)
Definition stream (l : list Z) (neg : bool) (i : nat) (c : Z) : Z :=
  if neg then c - 1 - val (drop i l) else val (drop i l).

Lemma u32_lnot x : limb x → u32 (Z.lnot x) = BIGINT_BASE - 1 - x.
Proof.
  intros Hx. unfold limb, BIGINT_BASE, u32 in *. rewrite <- (Z_mod_plus_full _ 1).
  rewrite Z.mod_small; unfold Z.lnot; lia.
Qed.

(** One step of a negation: the digit and the carry out of it. *)
Lemma negate_digit x c :
  limb x → 0 <= c <= 1 →
  let cur := u64 (u32 (Z.lnot x) + c) in
  limb (u32 cur) ∧ 0 <= cur >>' 32 <= 1 ∧
  u32 cur + BIGINT_BASE * ((cur >>' 32) - 1) = c - 1 - x.
Proof.
  intros Hx Hc. cbn zeta. rewrite u32_lnot, shiftr_div by (done || lia).
  unfold limb, BIGINT_BASE in *. rewrite u64_small by lia. word.
Qed.

Lemma twos_complement_limb_spec l neg i c x c' :
  limbs_ok l → 0 <= c <= 1 → bigint_twos_complement_limb l neg i c = (x, c') →
  limb x ∧ 0 <= c' <= 1 ∧ x = stream l neg i c mod BIGINT_BASE ∧
  stream l neg (S i) c' = stream l neg i c / BIGINT_BASE.
Proof.
  intros Hl Hc. unfold bigint_twos_complement_limb. cbn zeta.
  replace (if (i <? length l)%nat then at_ l i else 0) with (at_ l i)
    by (case_ltb; [done|by apply at_beyond]).
  pose proof (limbs_ok_at l i Hl) as Hx. pose proof (val_drop_S l i) as Hv.
  unfold stream. destruct neg; simpl negb; cbv iota; intros [= <- <-].
  - pose proof (negate_digit (at_ l i) c Hx Hc) as (D1 & D2 & D3). cbn zeta in *.
    revert D1 D2 D3. set (cur := u64 _). intros D1 D2 D3. split; [done|]. split; [done|].
    destruct (div_mod_digits (u32 cur) ((cur >>' 32) - 1 - val (drop (S i) l)) BIGINT_BASE D1)
      as [E1 E2].
    replace (c - 1 - val (drop i l)) with
      (u32 cur + BIGINT_BASE * ((cur >>' 32) - 1 - val (drop (S i) l))) by lia.
    done.
  - split; [done|]. split; [done|]. rewrite Hv.
    by destruct (div_mod_digits (at_ l i) (val (drop (S i) l)) BIGINT_BASE Hx) as [-> ->].
Qed.

Lemma bitwise_loop_spec op ad bd aneg bneg n i ac bc :
  limbs_ok ad → limbs_ok bd → 0 <= ac <= 1 → 0 <= bc <= 1 →
  let r := bitwise_loop op ad bd aneg bneg i n ac bc in
  limbs_ok r ∧ length r = n ∧
  val r = apply_bitop op (stream ad aneg i ac) (stream bd bneg i bc)
          mod BIGINT_BASE ^ Z.of_nat n.
Proof.
  intros Ha Hb. revert i ac bc. induction n as [|n IH]; intros i ac bc Hac Hbc; cbn zeta; simpl.
  { split; [constructor|]. split; [done|]. by rewrite Z.mod_1_r. }
  destruct (bigint_twos_complement_limb ad _ _ _) as [x ac'] eqn:Ex.
  destruct (bigint_twos_complement_limb bd _ _ _) as [y bc'] eqn:Ey.
  apply twos_complement_limb_spec in Ex as (X1 & X2 & X3 & X4); [|done..].
  apply twos_complement_limb_spec in Ey as (Y1 & Y2 & Y3 & Y4); [|done..].
  destruct (IH (S i) ac' bc' X2 Y2) as (R1 & R2 & R3). cbn zeta in *.
  split; [|split]; [constructor; [by apply apply_bitop_limb|done]|simpl; lia|].
  simpl val. rewrite R3, X4, Y4, mod_base_S, X3, Y3.
  by rewrite apply_bitop_digit, apply_bitop_rest.
Qed.

Lemma bitnot_loop_spec l neg n i c :
  limbs_ok l → 0 <= c <= 1 →
  let r := bitnot_loop l neg i n c in
  limbs_ok r ∧ length r = n ∧
  val r = Z.lnot (stream l neg i c) mod BIGINT_BASE ^ Z.of_nat n.
Proof.
  intros Hl. revert i c. induction n as [|n IH]; intros i c Hc; cbn zeta; simpl.
  { split; [constructor|]. split; [done|]. by rewrite Z.mod_1_r. }
  destruct (bigint_twos_complement_limb _ _ _ _) as [x c'] eqn:Ex.
  apply twos_complement_limb_spec in Ex as (X1 & X2 & X3 & X4); [|done..].
  destruct (IH (S i) c' X2) as (R1 & R2 & R3). cbn zeta in *.
  split; [|split]; [constructor; auto with limbs|simpl; lia|].
  simpl val. rewrite R3, X4, mod_base_S, X3. f_equal.
  - unfold u32, BIGINT_BASE. by apply (lnot_mod _ 32).
  - do 2 f_equal. unfold BIGINT_BASE, Z.lnot. word.
Qed.

(** ** Back to a magnitude *)

Lemma negate_loop_spec l c :
  limbs_ok l → 0 <= c <= 1 →
  limbs_ok (negate_loop l c) ∧ length (negate_loop l c) = length l ∧
  val (negate_loop l c) = (c - 1 - val l) mod BIGINT_BASE ^ Z.of_nat (length l).
Proof.
  intros Hl. revert c. induction Hl as [|x l Hx Hl IH]; intros c Hc; simpl.
  { split; [constructor|]. split; [done|]. by rewrite Z.mod_1_r. }
  pose proof (negate_digit x c Hx Hc) as (D1 & D2 & D3). cbn zeta in *.
  destruct (IH _ D2) as (R1 & R2 & R3). revert D1 D2 D3 R1 R2 R3. set (cur := u64 _). intros.
  split; [by constructor|]. split; [lia|].
  rewrite R3, mod_base_S.
  replace (c - 1 - (x + BIGINT_BASE * val l)) with
    (u32 cur + BIGINT_BASE * ((cur >>' 32) - 1 - val l)) by lia.
  by destruct (div_mod_digits (u32 cur) ((cur >>' 32) - 1 - val l) BIGINT_BASE D1) as [-> ->].
Qed.

Lemma land_top x : limb x → x &' 0x80000000 = if x <? 2 ^ 31 then 0 else 2 ^ 31.
Proof.
  intros Hx. unfold limb, BIGINT_BASE in *. apply Z.bits_inj'. intros i Hi.
  change 0x80000000 with (2 ^ 31). rewrite Z.land_spec, Z.pow2_bits_eqb by lia.
  destruct (Z.eqb_spec 31 i) as [<- | Hne].
  - rewrite andb_true_r, Z.testbit_odd, shiftr_div by lia. case_ltb.
    + by rewrite Z.div_small by lia.
    + by rewrite <- (Z.div_unique_pos x (2 ^ 31) 1 (x - 2 ^ 31)) by lia.
  - rewrite andb_false_r. case_ltb; [by rewrite Z.bits_0|].
    by rewrite Z.pow2_bits_false.
Qed.

Lemma top_bit_test l :
  limbs_ok l → (1 <= length l)%nat →
  negb (at_ l (length l - 1) &' 0x80000000 =? 0)
  = (BIGINT_BASE ^ Z.of_nat (length l) <=? 2 * val l).
Proof.
  intros Hl L. rewrite land_top by auto with limbs.
  pose proof (val_split_last l L) as Hv. pose proof (limbs_ok_at l (length l - 1) Hl).
  pose proof (val_bounds (take (length l - 1) l) ltac:(auto with limbs)) as Hb.
  rewrite length_take, Nat.min_l in Hb by lia.
  replace (length l) with (S (length l - 1)) at 2 by lia. rewrite base_pow.
  set (P := BIGINT_BASE ^ _) in *. set (t := at_ _ _) in *. unfold limb, BIGINT_BASE in *.
  destruct (Z.ltb_spec t (2 ^ 31)); symmetry; [apply Z.leb_gt|apply Z.leb_le]; nia.
Qed.

(** The limbs hold an integer of the signed range of the width, modulo the width. *)
Lemma twos_complement_to_magnitude_spec l x r n neg :
  limbs_ok l → (1 <= length l)%nat →
  - BIGINT_BASE ^ Z.of_nat (length l) <= 2 * x < BIGINT_BASE ^ Z.of_nat (length l) →
  val l = x mod BIGINT_BASE ^ Z.of_nat (length l) →
  bigint_twos_complement_to_magnitude l (length l) = (r, n, neg) →
  limbs_ok r ∧ length r = length l ∧ (1 <= n <= length r)%nat ∧
  (if neg then - val (take n r) else val (take n r)) = x.
Proof.
  intros Hl L Hx Hv. unfold bigint_twos_complement_to_magnitude. cbn zeta.
  destruct (Nat.eqb_spec (length l) 0); [lia|]. rewrite top_bit_test by done.
  rewrite firstn_all, skipn_all, app_nil_r. set (P := BIGINT_BASE ^ _) in *.
  set (m := if P <=? 2 * val l then negate_loop l 1 else l).
  assert (limbs_ok m ∧ length m = length l ∧ val m = Z.abs x ∧ (P <=? 2 * val l) = (x <? 0))
    as (M1 & M2 & M3 & M4).
  { subst m. destruct (negate_loop_spec l 1 Hl ltac:(lia)) as (N1 & N2 & N3).
    fold P in N3. pose proof (base_pow_pos (length l)) as HP. fold P in HP.
    destruct (Z.lt_ge_cases x 0).
    - assert (val l = x + P) as E by (rewrite Hv; symmetry; apply (Z.mod_unique _ _ (-1)); lia).
      destruct (Z.leb_spec P (2 * val l)); [|lia]. split; [done|]. split; [done|].
      split; [|symmetry; by apply Z.ltb_lt]. rewrite N3. symmetry.
      apply (Z.mod_unique _ _ (-1)); lia.
    - rewrite Z.mod_small in Hv by lia. destruct (Z.leb_spec P (2 * val l)); [lia|].
      split; [done|]. split; [done|]. split; [lia|]. symmetry. by apply Z.ltb_ge. }
  rewrite M4. clearbody m. intros [= <- <- <-].
  pose proof (normalize_le m (length l)). pose proof (normalize_pos m (length l) L).
  split; [done|]. split; [done|]. split; [lia|]. rewrite normalize_val, <- M2, firstn_all, M3.
  change (((bigint_normalize_limbs m (length m)) =? 1)%nat && (at_ m 0 =? 0))
    with (limbs_is_zero m (bigint_normalize_limbs m (length m))).
  destruct (limbs_is_zero _ _) eqn:Ez; [|case_ltb; lia].
  apply andb_true_iff in Ez as [Ez1%Nat.eqb_eq Ez2%Z.eqb_eq].
  pose proof (normalize_val m (length m)) as K. rewrite firstn_all, M3, Ez1 in K.
  destruct m as [|y m]; simpl in *; [lia|]. unfold at_ in Ez2; simpl in Ez2. lia.
Qed.

(** ** The operators *)

Lemma stream_to_Z v : stream (limbs v) (sign v) 0 1 = to_Z v.
Proof. unfold stream, to_Z. rewrite drop_0. destruct (sign v); lia. Qed.

(** The number of bits of the magnitude. *)
Definition bitlen (v : bigint) : Z := bigint_abs_bitlen_limbs (limbs v).

Lemma bitlen_range v m :
  wf v → bitlen v <= m → 0 <= bitlen v ∧ - 2 ^ m <= to_Z v < 2 ^ m.
Proof.
  intros Hv Hm. unfold bitlen in *. pose proof (to_Z_abs v Hv) as Ha.
  rewrite bigint_abs_bitlen_limbs_spec in * by (apply wf_limbs || apply wf_length; done).
  pose proof (val_nonneg _ (wf_limbs v Hv)). destruct (Z.eqb_spec (val (limbs v)) 0).
  - pose proof (Z.pow_pos_nonneg 2 m ltac:(lia) ltac:(lia)). lia.
  - pose proof (Z.log2_spec (val (limbs v)) ltac:(lia)). pose proof (Z.log2_nonneg (val (limbs v))).
    pose proof (Z.pow_le_mono_r 2 (Z.succ (Z.log2 (val (limbs v)))) m ltac:(lia) ltac:(lia)). lia.
Qed.

(** The bit length is at most that of the limbs. *)
Lemma bitlen_le v : wf v → bitlen v <= 32 * zlen (limbs v).
Proof.
  intros Hv. unfold bitlen, zlen. pose proof (wf_length v Hv).
  rewrite bigint_abs_bitlen_limbs_spec by (apply wf_limbs || apply wf_length; done).
  pose proof (val_bounds _ (wf_limbs v Hv)) as Hb. rewrite base_pow_2 in Hb by lia.
  destruct (Z.eqb_spec (val (limbs v)) 0); [lia|].
  pose proof (proj1 (Z.log2_lt_pow2 (val (limbs v)) (32 * Z.of_nat (length (limbs v))) ltac:(lia))
    ltac:(lia)). lia.
Qed.

(** The width the operators choose for [m] bits leaves room for the sign. *)
Definition width_for (m : Z) : Z :=
  let width := (m + 1 + 31) / 32 in if width =? 0 then 1 else width.

Lemma width_for_spec m :
  0 <= m →
  1 <= width_for m ∧ m + 1 <= 32 * width_for m <= m + 32 ∧
  2 * 2 ^ m <= BIGINT_BASE ^ width_for m.
Proof.
  intros Hm. unfold width_for. cbn zeta. pose proof (Z.div_mod (m + 1 + 31) 32 ltac:(lia)) as E.
  pose proof (Z.mod_pos_bound (m + 1 + 31) 32 ltac:(lia)). set (w := (m + 1 + 31) / 32) in *.
  clearbody w. destruct (Z.eqb_spec w 0); [lia|]. split; [lia|]. split; [lia|].
  rewrite base_pow_2, <- Z.pow_succ_r by lia. apply Z.pow_le_mono_r; lia.
Qed.

Section correctness.
Context `{Heap}.

(** What both operators do once the digits are there. *)
Lemma deliver_twos_complement w l x :
  1 <= w → limbs_ok l → length l = Z.to_nat w →
  - BIGINT_BASE ^ w <= 2 * x < BIGINT_BASE ^ w → val l = x mod BIGINT_BASE ^ w →
  w <= 32 ∨ w <= UINT32_MAX →
  computes w
    (let '(r, n, neg) := bigint_twos_complement_to_magnitude l (Z.to_nat w) in
     deliver w r n neg) x.
Proof.
  intros Hw Hl L Hx Hv Hc. rewrite <- L.
  destruct (bigint_twos_complement_to_magnitude l (length l)) as [[r n] neg] eqn:E.
  assert (Z.of_nat (length l) = w) as Lw by lia.
  apply (twos_complement_to_magnitude_spec l x) in E as (E1 & E2 & E3 & E4);
    [|done|lia|rewrite Lw; done..].
  rewrite <- E4. apply deliver_spec; [done..| |done]. unfold zlen. lia.
Qed.

Lemma bigint_bitwise_binary_computes a b op :
  wf a → wf b →
  computes (sum_cap a b) (bigint_bitwise_binary a b op) (apply_bitop op (to_Z a) (to_Z b)).
Proof.
  intros Ha Hb. unfold bigint_bitwise_binary. cbn zeta. rewrite !bigint_limbs_wf by done.
  unfold bigint_is_negative. fold (bitlen a) (bitlen b).
  set (m := if bitlen b <? bitlen a then bitlen a else bitlen b).
  assert (bitlen a <= m ∧ bitlen b <= m ∧ (m = bitlen a ∨ m = bitlen b)) as (Ma & Mb & Mm)
    by (subst m; case_ltb; lia).
  destruct (bitlen_range a m Ha Ma) as [A1 A2]. destruct (bitlen_range b m Hb Mb) as [B1 B2].
  pose proof (bitlen_le a Ha). pose proof (bitlen_le b Hb). clearbody m.
  change (if (m + 1 + 31) / 32 =? 0 then 1 else (m + 1 + 31) / 32) with (width_for m).
  destruct (width_for_spec m ltac:(lia)) as (W1 & W2 & W3). set (w := width_for m) in *.
  clearbody w. eapply computes_mono; [|apply (computes_alloc _ true); [done|]].
  { unfold sum_cap. lia. }
  intros Hc.
  destruct (bitwise_loop_spec op (limbs a) (limbs b) (sign a) (sign b) (Z.to_nat w) 0 1 1
    (wf_limbs a Ha) (wf_limbs b Hb)) as (L1 & L2 & L3); [lia..|]. cbn zeta in *.
  rewrite !stream_to_Z, Z2Nat.id in L3 by lia.
  pose proof (apply_bitop_range op (to_Z a) (to_Z b) m ltac:(lia) A2 B2).
  apply deliver_twos_complement; try done. lia.
Qed.

Lemma bigint_bitnot_computes a :
  wf a → computes (zlen (limbs a) + 1) (bigint_bitnot a) (Z.lnot (to_Z a)).
Proof.
  intros Ha. unfold bigint_bitnot. cbn zeta. rewrite !bigint_limbs_wf by done.
  unfold bigint_is_negative. fold (bitlen a).
  destruct (bitlen_range a (bitlen a) Ha ltac:(lia)) as [A1 A2]. pose proof (bitlen_le a Ha).
  set (m := bitlen a) in *. clearbody m.
  change (if (m + 1 + 31) / 32 =? 0 then 1 else (m + 1 + 31) / 32) with (width_for m).
  destruct (width_for_spec m ltac:(lia)) as (W1 & W2 & W3). set (w := width_for m) in *.
  clearbody w. eapply computes_mono; [|apply (computes_alloc _ false); [done|]]; [lia|].
  intros Hc.
  destruct (bitnot_loop_spec (limbs a) (sign a) (Z.to_nat w) 0 1 (wf_limbs a Ha))
    as (L1 & L2 & L3); [lia|]. cbn zeta in *.
  rewrite stream_to_Z, Z2Nat.id in L3 by lia.
  apply deliver_twos_complement; try done. unfold Z.lnot. lia.
Qed.

End correctness.

(** ** Statement *)

(** C19: [&], [|], [^] and [~] are the bitwise operations on the two's complement
    representation of the integers, for operands of any size and sign. *)
Theorem bigint_bitwise_correct `{Heap} a b :
  wf a → wf b →
  computes (sum_cap a b) (bigint_bitand a b) (Z.land (to_Z a) (to_Z b)) ∧
  computes (sum_cap a b) (bigint_bitor a b) (Z.lor (to_Z a) (to_Z b)) ∧
  computes (sum_cap a b) (bigint_bitxor a b) (Z.lxor (to_Z a) (to_Z b)) ∧
  computes (zlen (limbs a) + 1) (bigint_bitnot a) (Z.lnot (to_Z a)).
Proof.
  intros Ha Hb. split; [by apply (bigint_bitwise_binary_computes a b BIGINT_BAND)|].
  split; [by apply (bigint_bitwise_binary_computes a b BIGINT_BOR)|].
  split; [by apply (bigint_bitwise_binary_computes a b BIGINT_BXOR)|].
  by apply bigint_bitnot_computes.
Qed.

Lemma bigint_bitwise_witness :
  let a := mk_bigint true [4294967295] in let b := mk_bigint false [1; 1] in
  computes (H := roomy_heap) (sum_cap a b) (bigint_bitand (H := roomy_heap) a b)
    (Z.land (to_Z a) (to_Z b)) ∧
  computes (H := roomy_heap) (sum_cap a b) (bigint_bitor (H := roomy_heap) a b)
    (Z.lor (to_Z a) (to_Z b)) ∧
  computes (H := roomy_heap) (sum_cap a b) (bigint_bitxor (H := roomy_heap) a b)
    (Z.lxor (to_Z a) (to_Z b)) ∧
  computes (H := roomy_heap) (zlen (limbs a) + 1) (bigint_bitnot (H := roomy_heap) a)
    (Z.lnot (to_Z a)).
Proof.
  apply (bigint_bitwise_correct (H := roomy_heap) (mk_bigint true [4294967295])
    (mk_bigint false [1; 1])); solve_wf.
Defined.
