(* ===== verification/BigIntText.v ===== *)
(** * BigInt text: parsing and printing

    Models the conversions of src/modules/bigint.c between BigInt values and text:
    [bigint_from_string_digits], [js_mkbigint], the string case of [bigint_from_value], the
    decimal and radix printers, [strbigint] and [BigInt.prototype.toString].

    The theorems: parsing accepts exactly the numerals of the grammar below and gives their
    value; printing gives the canonical numeral of the value; parsing what was printed gives
    the value back.  The buffers the code sizes up front are never exceeded. *)

From S2P Require Import Prelude Utils BigIntLimbs BigInt.

Definition BIGINT_DEC_GROUP_BASE : Z := 1000000000.

Fixpoint muladd_loop (limbs : list Z) (base carry : Z) : list Z * Z :=
  match limbs with
  | [] => ([], carry)
  | x :: limbs =>
      let cur := u64 (x * base + carry) in
      let '(limbs, carry) := muladd_loop limbs base (cur >>' 32) in
      (u32 cur :: limbs, carry)
  end.

Definition not_a_bigint {A} : outcome A := js_mkerr "Cannot convert string to BigInt".

(** The base and the first digit: 0x, 0o and 0b prefixes in either case. *)
Definition numeral_prefix (digits : list Z) : Z * nat :=
  if (2 <=? length digits)%nat && (at_ digits 0 =? 48) then
    let p := at_ digits 1 |' 0x20 in
    if p =? 120 then (16, 2%nat)
    else if p =? 111 then (8, 2%nat)
    else if p =? 98 then (2, 2%nat)
    else (10, 0%nat)
  else (10, 0%nat).

Definition digits_cap (len : Z) : Z :=
  let cap := len / 8 + 2 in if cap <? 4 then 4 else cap.

(** [printf]'s conversion of an [unsigned int], [%u], and its zero-padded form [%09u]. *)
Fixpoint dec_digits (fuel : nat) (v : Z) : list Z :=
  match fuel with
  | O => []
  | S fuel => if v <? 10 then [48 + v] else dec_digits fuel (v / 10) ++ [48 + v mod 10]
  end.

Definition fmt_u (v : Z) : list Z := dec_digits 10 v.

Definition fmt_09u (v : Z) : list Z :=
  let s := fmt_u v in replicate (9 - length s) 48 ++ s.

Definition u32_dec_len (v : Z) : Z :=
  if 1000000000 <=? v then 10
  else if 100000000 <=? v then 9
  else if 10000000 <=? v then 8
  else if 1000000 <=? v then 7
  else if 100000 <=? v then 6
  else if 10000 <=? v then 5
  else if 1000 <=? v then 4
  else if 100 <=? v then 3
  else if 10 <=? v then 2
  else 1.

(** [snprintf(out + pos, len + 1 - pos, ...)]: what fits before the terminator is written,
    and [pos] advances by the length of the text. *)
Definition snprintf (len : Z) (st : list Z * Z) (text : list Z) : list Z * Z :=
  let '(out, pos) := st in (out ++ take (Z.to_nat (len - pos)) text, pos + zlen text).

Definition digit_map : list Z := bytes "0123456789abcdefghijklmnopqrstuvwxyz".

Section operations.
Context `{Heap}.

(** The new capacity; a false return is [Throw oom], and a byte count that does not fit
    [size_t] leaves the buffer shorter than its capacity. *)
Definition grow_u32_buffer (cap : Z) : outcome Z :=
  if (cap =? 0) || (SIZE_MAX / 2 <? cap) then Throw oom
  else
    let new_cap := cap * 2 in
    if negb (realloc (u64 (new_cap * 4))) then Throw oom
    else if SIZE_MAX <? new_cap * 4 then Ub
    else Ok new_cap.

(** [limbs] are the first [*count] limbs of a buffer of [cap]; a 64-bit carry is at most two
    limbs, so two rounds are enough. *)
Fixpoint append_carry_limbs (rounds : nat) (limbs : list Z) (cap carry : Z)
  : outcome (list Z * Z) :=
  if carry =? 0 then Ok (limbs, cap)
  else
    match rounds with
    | O => Ub
    | S rounds =>
        cap ← (if zlen limbs =? cap then grow_u32_buffer cap else Ok cap);
        if cap <=? zlen limbs then Ub
        else append_carry_limbs rounds (limbs ++ [u32 carry]) cap (carry >>' 32)
    end.

(** The loop over the digits from [i] on: the limbs, [has_digit] and [prev_sep]. *)
Fixpoint digits_loop (digits : list Z) (base : Z) (allow_separators : bool)
    (limbs : list Z) (cap : Z) (has_digit prev_sep : bool) : outcome (list Z * bool * bool) :=
  match digits with
  | [] => Ok (limbs, has_digit, prev_sep)
  | ch :: digits =>
      if ch =? 95 then
        if negb allow_separators || negb has_digit || prev_sep then not_a_bigint
        else digits_loop digits base allow_separators limbs cap has_digit true
      else
        let digit := hex_digit ch in
        if (digit <? 0) || (base <=? digit) then not_a_bigint
        else
          let '(limbs, carry) := muladd_loop limbs base digit in
          '(limbs, cap) ← append_carry_limbs 2 limbs cap carry;
          digits_loop digits base allow_separators limbs cap true false
  end.

Definition bigint_from_string_digits (digits : list Z) (negative allow_separators : bool)
  : outcome bigint :=
  if (length digits =? 0)%nat then js_mkbigint_limbs [0] false
  else
    let '(base, start) := numeral_prefix digits in
    if (length digits <=? start)%nat then not_a_bigint
    else
      let cap := digits_cap (zlen digits) in
      if negb (limb_alloc cap) then js_mkerr "oom"
      else
        '(limbs, has_digit, prev_sep) ←
          digits_loop (drop start digits) base allow_separators [0] cap false false;
        if negb has_digit || prev_sep then not_a_bigint
        else js_mkbigint_limbs limbs negative.

Definition js_mkbigint (digits : list Z) (negative : bool) : outcome bigint :=
  bigint_from_string_digits digits negative true.

(** The string case of [bigint_from_value]: spaces around, one optional sign. *)
Fixpoint trim_start (s : list Z) : list Z :=
  match s with
  | [] => []
  | c :: s' => if is_space c then trim_start s' else s
  end.

Definition trim_end (s : list Z) : list Z := rev (trim_start (rev s)).

Definition bigint_from_js_string (str : list Z) : outcome bigint :=
  let s := trim_end (trim_start str) in
  match s with
  | [] => js_mkbigint (bytes "0") false
  | c :: s' =>
      let '(neg, s) :=
        if c =? 45 then (true, s') else if c =? 43 then (false, s') else (false, s) in
      if (length s =? 0)%nat then not_a_bigint
      else bigint_from_string_digits s neg false
  end.

(** The groups of nine decimal digits, least significant first.  [tmp] are the first
    [tmp_count] limbs.  A NULL return of the printers is [Throw oom], as their callers report
    it. *)
Fixpoint dec_groups (fuel : nat) (tmp groups : list Z) (cap : Z) : outcome (list Z) :=
  if (length tmp =? 1)%nat && (at_ tmp 0 =? 0) then Ok groups
  else
    match fuel with
    | O => Ub
    | S fuel =>
        cap ← (if zlen groups =? cap then grow_u32_buffer cap else Ok cap);
        if cap <=? zlen groups then Ub
        else
          let '(q, rem) := bigint_div_small_inplace tmp BIGINT_DEC_GROUP_BASE in
          dec_groups fuel (take (bigint_normalize_limbs q (length q)) q) (groups ++ [rem]) cap
    end.

Definition bigint_abs_to_decimal_string (limbs : list Z) : outcome (list Z) :=
  if limbs_is_zero limbs (length limbs) then
    if malloc 2 then Ok [48] else Throw oom
  else if negb (limb_alloc (zlen limbs)) then Throw oom
  else
    let groups_cap := zlen limbs * 2 + 1 in
    if negb (malloc (groups_cap * 4)) then Throw oom
    else
      groups ← dec_groups (Z.to_nat groups_cap) limbs [] groups_cap;
      let n := length groups in
      let len := u32_dec_len (at_ groups (n - 1)) + (Z.of_nat n - 1) * 9 in
      if negb (malloc (len + 1)) then Throw oom
      else
        let st := snprintf len ([], 0) (fmt_u (at_ groups (n - 1))) in
        let '(out, pos) :=
          foldl (λ st i, snprintf len st (fmt_09u (at_ groups i))) st (rev (seq 0 (n - 1))) in
        Ok (take (Z.to_nat len) out).

(** The digits, least significant first; [out] holds [out_pos] of [out_cap] bytes. *)
Fixpoint radix_loop (fuel : nat) (tmp : list Z) (radix : Z) (out : list Z) (out_cap : Z)
  : outcome (list Z) :=
  if (length tmp =? 1)%nat && (at_ tmp 0 =? 0) then
    if out_cap <=? zlen out then Ub else Ok out
  else
    match fuel with
    | O => Ub
    | S fuel =>
        out_cap ← (if out_cap <=? zlen out + 1
                   then if realloc (u64 (out_cap * 2)) then Ok (u64 (out_cap * 2))
                        else Throw oom
                   else Ok out_cap);
        if out_cap <=? zlen out then Ub
        else
          let '(q, rem) := bigint_div_small_inplace tmp radix in
          radix_loop fuel (take (bigint_normalize_limbs q (length q)) q) radix
            (out ++ [at_ digit_map (Z.to_nat rem)]) out_cap
    end.

(** Reversing in place is [rev]. *)
Definition bigint_abs_to_radix_string (limbs : list Z) (radix : Z) : outcome (list Z) :=
  if limbs_is_zero limbs (length limbs) then
    if malloc 2 then Ok [48] else Throw oom
  else if negb (limb_alloc (zlen limbs)) then Throw oom
  else
    let out_cap := zlen limbs * 32 + 2 in
    if negb (malloc out_cap) then Throw oom
    else
      out ← radix_loop (Z.to_nat out_cap) limbs radix [] out_cap;
      Ok (rev out).

Definition bigint_digits_len (v : bigint) : Z :=
  match bigint_abs_to_decimal_string (bigint_limbs v) with
  | Ok digits => zlen digits
  | _ => 0
  end.

(** [this]: the BigInt behind [this], if any; [radix]: the first argument as an [int], when it
    is a number.  The bytes handed to [js_mkstr]. *)
Definition builtin_bigint_toString (this : option bigint) (radix : option Z)
  : outcome (list Z) :=
  match this with
  | None => js_mkerr "toString called on non-BigInt"
  | Some v =>
      let r := match radix with Some r => r | None => 10 end in
      if match radix with Some _ => (r <? 2) || (36 <? r) | None => false end
      then js_mkerr "radix must be between 2 and 36"
      else
        let neg := bigint_is_negative v in
        let limbs := bigint_limbs v in
        digits ← (if r =? 10 then bigint_abs_to_decimal_string limbs
                  else bigint_abs_to_radix_string limbs r);
        if negb neg then Ok digits
        else if negb (malloc (zlen digits + 2)) then js_mkerr "oom"
        else Ok (45 :: digits)
  end.

End operations.

(** ** Numerals

    digit | digit numeral | digit _ numeral, the last only where separators are allowed.  The
    digits read, most significant first. *)
Fixpoint read_numeral (base : Z) (sep : bool) (s : list Z) : option (list Z) :=
  match s with
  | [] => None
  | c :: s =>
      let d := hex_digit c in
      if (d <? 0) || (base <=? d) then None
      else
        match s with
        | [] => Some [d]
        | c' :: s' =>
            if c' =? 95 then if sep then cons d <$> read_numeral base sep s' else None
            else cons d <$> read_numeral base sep s
        end
  end.

(** What may follow a digit. *)
Definition read_rest (base : Z) (sep : bool) (s : list Z) : option (list Z) :=
  match s with
  | [] => Some []
  | c :: s' => if c =? 95 then if sep then read_numeral base sep s' else None
               else read_numeral base sep s
  end.

Lemma read_numeral_cons base sep c s :
  read_numeral base sep (c :: s)
  = if (hex_digit c <? 0) || (base <=? hex_digit c) then None
    else cons (hex_digit c) <$> read_rest base sep s.
Proof.
  simpl. destruct (_ || _); [done|]. destruct s as [|c' s]; [done|]. simpl.
  destruct (c' =? 95); [by destruct sep|done].
Qed.

Lemma read_numeral_sep base sep s : read_numeral base sep (95 :: s) = None.
Proof. done. Qed.

Definition horner (base acc : Z) (ds : list Z) : Z := foldl (λ acc d, acc * base + d) acc ds.

Definition digits_value (base : Z) (ds : list Z) : Z := horner base 0 ds.

(** ** Accumulating digits *)

Lemma muladd_loop_spec l base carry r c :
  limbs_ok l → 2 <= base <= 16 → 0 <= carry < base → muladd_loop l base carry = (r, c) →
  limbs_ok r ∧ length r = length l ∧ 0 <= c < base ∧
  val r + BIGINT_BASE ^ Z.of_nat (length l) * c = val l * base + carry.
Proof.
  intros Hl Hb. revert carry r c.
  induction Hl as [|x l Hx Hl IH]; intros carry r c Hc; simpl.
  { intros [= <- <-]. split; [constructor|]. simpl. lia. }
  unfold limb, BIGINT_BASE in Hx. rewrite u64_small, shiftr_div by nia.
  destruct (muladd_loop l base _) as [r' c'] eqn:E. intros [= <- <-].
  assert (0 <= (x * base + carry) / 2 ^ 32 < base)
    by (split; [apply Z.div_pos|apply Z.div_lt_upper_bound]; nia).
  apply IH in E as (E1 & E2 & E3 & E4); [|done].
  split; [constructor; auto with limbs|]. split; [simpl; lia|]. split; [done|].
  simpl val. rewrite Nat2Z.inj_succ, Z.pow_succ_r by lia.
  pose proof (Z.div_mod (x * base + carry) (2 ^ 32) ltac:(lia)).
  unfold u32, BIGINT_BASE in *. nia.
Qed.

Lemma normalized_of_lower l :
  limbs_ok l → (1 <= length l)%nat →
  ((1 < length l)%nat → BIGINT_BASE ^ Z.of_nat (length l - 1) <= val l) → normalized l.
Proof.
  intros Hl L Hlow. split; [done|]. intros Hgt Hz.
  pose proof (val_split_last l L) as E. rewrite Hz in E.
  pose proof (val_bounds (take (length l - 1) l) ltac:(auto with limbs)) as Hb.
  rewrite length_take, Nat.min_l in Hb by lia. specialize (Hlow Hgt). lia.
Qed.

(** The limbs that hold the value of at most [k] digits. *)
Definition accumulates (k : Z) (l : list Z) : Prop :=
  limbs_ok l ∧ normalized l ∧ 0 <= k ∧ val l < 16 ^ k.

Lemma accumulates_length k l : accumulates k l → zlen l <= k / 8 + 1.
Proof.
  intros (Hl & Hn & Hk & Hv). unfold zlen. destruct (Nat.ltb_spec 1 (length l)) as [Hgt|].
  2: { assert (0 <= k / 8) by (apply Z.div_pos; lia). lia. }
  pose proof (normalized_lower l Hl Hn Hgt) as Hlow. rewrite base_pow_2 in Hlow by lia.
  change 16 with (2 ^ 4) in Hv. rewrite <- Z.pow_mul_r in Hv by lia.
  assert (32 * Z.of_nat (length l - 1) < 4 * k) by (apply (Z.pow_lt_mono_r_iff 2); lia).
  assert (Z.of_nat (length l - 1) <= k / 8) by (apply Z.div_le_lower_bound; lia). lia.
Qed.

Lemma accumulates_zero k : 0 <= k → accumulates k [0].
Proof.
  intros Hk. split; [auto with limbs|]. split; [split; simpl; lia|]. split; [done|].
  simpl. apply Z.pow_pos_nonneg; lia.
Qed.

Lemma accumulates_mono k k' l : k <= k' → accumulates k l → accumulates k' l.
Proof.
  intros Hk (? & ? & ? & ?). split; [done|]. split; [done|]. split; [lia|].
  pose proof (Z.pow_le_mono_r 16 k k' ltac:(lia) Hk). lia.
Qed.

Section parsing.
Context `{Heap}.

Lemma append_carry_zero rounds l cap : append_carry_limbs rounds l cap 0 = Ok (l, cap).
Proof. by destruct rounds. Qed.

Lemma append_carry_one l cap c :
  zlen l < cap → 0 < c < BIGINT_BASE → append_carry_limbs 2 l cap c = Ok (l ++ [c], cap).
Proof.
  intros Hl Hc. unfold BIGINT_BASE in Hc. cbn [append_carry_limbs].
  rewrite (proj2 (Z.eqb_neq c 0)), (proj2 (Z.eqb_neq (zlen l) cap)) by lia.
  cbn [mbind outcome_bind]. rewrite (proj2 (Z.leb_gt cap (zlen l))) by lia.
  by rewrite shiftr_div, Z.div_small, u32_small by lia.
Qed.

(** One digit: the buffer has room for the carry, so nothing is reallocated. *)
Lemma muladd_append l base d k cap :
  accumulates k l → 2 <= base <= 16 → 0 <= d < base → k / 8 + 1 < cap →
  ∃ l', (let '(r, c) := muladd_loop l base d in append_carry_limbs 2 r cap c) = Ok (l', cap)
    ∧ accumulates (k + 1) l' ∧ val l' = val l * base + d.
Proof.
  intros Ha Hb Hd Hc. pose proof (accumulates_length k l Ha). destruct Ha as (Hl & Hn & Hk & Hv).
  destruct (muladd_loop l base d) as [r c] eqn:E.
  apply muladd_loop_spec in E as (E1 & E2 & E3 & E4); [|done..].
  pose proof (proj1 Hn) as L. pose proof (val_nonneg l Hl).
  assert (val l * base + d < 16 ^ (k + 1)) by (rewrite Z.pow_add_r by lia; nia).
  destruct (Z.eq_dec c 0) as [->|Hc0].
  - exists r. rewrite append_carry_zero. split; [done|]. split; [|lia]. split; [done|]. split; [|lia].
    apply normalized_of_lower; [done|lia|]. rewrite E2. intros Hgt.
    pose proof (normalized_lower l Hl Hn Hgt). nia.
  - exists (r ++ [c]). rewrite append_carry_one by (unfold zlen, BIGINT_BASE in *; lia).
    split; [done|].
    assert (val (r ++ [c]) = val l * base + d) as Ev by (rewrite val_app, E2; simpl; lia).
    assert (limbs_ok (r ++ [c])).
    { apply limbs_ok_app. split; [done|]. constructor; [unfold limb, BIGINT_BASE; lia|constructor]. }
    split; [|done]. split; [done|]. split; [|rewrite Ev; lia].
    apply normalized_of_lower; [done|rewrite length_app; simpl; lia|]. intros _.
    rewrite Ev, length_app. simpl. replace (length r + 1 - 1)%nat with (length l) by lia.
    rewrite <- E4. pose proof (base_pow_pos (length l)). pose proof (val_nonneg r E1). nia.
Qed.

(** What the loop makes of the digits that are left. *)
Definition loop_result (base : Z) (acc : list Z) (read : option (list Z)) (k : Z)
    (o : outcome (list Z * bool * bool)) : Prop :=
  match read with
  | Some ds => ∃ l, o = Ok (l, true, false) ∧ accumulates k l
                    ∧ val l = horner base (val acc) ds
  | None => o = not_a_bigint ∨ ∃ l h p, o = Ok (l, h, p) ∧ negb h || p = true
  end.

Lemma digits_loop_spec s base sep l cap k has prev :
  accumulates k l → 2 <= base <= 16 → (k + zlen s) / 8 + 1 < cap →
  loop_result base l
    (if has && negb prev then read_rest base sep s else read_numeral base sep s)
    (k + zlen s) (digits_loop s base sep l cap has prev).
Proof.
  intros Ha Hb. revert l k has prev Ha. unfold zlen.
  induction s as [|c s IH]; intros l k has prev Ha Hc; simpl length in *.
  { simpl. destruct has, prev; simpl; [right; eauto 6| |right; eauto 6..].
    exists l. rewrite Z.add_0_r. auto. }
  assert (0 <= k) as Hk by apply Ha.
  assert (k / 8 + 1 < cap).
  { pose proof (Z.div_le_mono k (k + Z.of_nat (S (length s))) 8 ltac:(lia) ltac:(lia)). lia. }
  assert (k + Z.of_nat (S (length s)) = k + 1 + Z.of_nat (length s)) as Hlen by lia.
  cbn [digits_loop]. destruct (Z.eqb_spec c 95) as [->|Hne].
  - replace (if has && negb prev then read_rest base sep (95 :: s)
             else read_numeral base sep (95 :: s))
      with (if has && negb prev && sep then read_numeral base sep s else None)
      by (rewrite read_numeral_sep; by destruct has, prev, sep).
    destruct has, prev, sep; simpl; try by left.
    rewrite Hlen. apply (IH l (k + 1) true true); [|by rewrite <- Hlen].
    apply (accumulates_mono k); [lia|done].
  - replace (if has && negb prev then read_rest base sep (c :: s)
             else read_numeral base sep (c :: s)) with (read_numeral base sep (c :: s))
      by (simpl read_rest; rewrite (proj2 (Z.eqb_neq c 95)) by done; by destruct (_ && _)).
    rewrite read_numeral_cons. pose proof (hex_digit_range c). set (d := hex_digit c) in *.
    destruct (Z.ltb_spec d 0); simpl orb; [by left|].
    destruct (Z.leb_spec base d); [by left|].
    destruct (muladd_append l base d k cap) as (l' & E & A & V); [done|done|lia|done|].
    destruct (muladd_loop l base d) as [r c']. rewrite E. cbn [mbind outcome_bind].
    specialize (IH l' (k + 1) true false A). rewrite <- Hlen in IH. specialize (IH Hc).
    simpl in IH. destruct (read_rest base sep s) as [ds|]; [|done].
    destruct IH as (l2 & I1 & I2 & I3). exists l2. split; [done|]. split; [done|].
    by rewrite I3, V.
Qed.

End parsing.

(** ** Parsing *)

(** The value of a numeral with its prefix; the empty text is zero. *)
Definition numeral_value (sep : bool) (s : list Z) : option Z :=
  match s with
  | [] => Some 0
  | _ =>
      let '(base, start) := numeral_prefix s in
      digits_value base <$> read_numeral base sep (drop start s)
  end.

Lemma numeral_prefix_base s : 2 <= (numeral_prefix s).1 <= 16.
Proof. unfold numeral_prefix. cbn zeta. repeat destruct (_ =? _); destruct (_ && _); simpl; lia. Qed.

Lemma bigint_from_string_digits_spec `{Heap} s neg sep :
  match numeral_value sep s with
  | Some v => computes (digits_cap (zlen s)) (bigint_from_string_digits s neg sep)
                (if neg then - v else v)
  | None => bigint_from_string_digits s neg sep = not_a_bigint
            ∨ (bigint_from_string_digits s neg sep = Throw oom
               ∧ limb_alloc (digits_cap (zlen s)) = false)
  end.
Proof.
  unfold bigint_from_string_digits, numeral_value. destruct s as [|c0 s0] eqn:Es.
  { simpl length. rewrite Nat.eqb_refl. replace (if neg then - 0 else 0) with 0 by by destruct neg.
    eapply computes_mono; [|apply (js_mkbigint_limbs_spec [0] false)]; [done| |done].
    auto with limbs. }
  rewrite <- Es. assert (1 <= length s)%nat as L by (subst s; simpl; lia). clear c0 s0 Es.
  rewrite (proj2 (Nat.eqb_neq (length s) 0)) by lia.
  pose proof (numeral_prefix_base s) as Hb. destruct (numeral_prefix s) as [base start].
  simpl fst in Hb. destruct (Nat.leb_spec (length s) start).
  { rewrite drop_ge by lia. by left. }
  destruct (limb_alloc _) eqn:Ea; cbn [negb].
  2: { destruct (read_numeral _ _ _); simpl; [|by right].
       split; [done|]. right; right; left. exists (digits_cap (zlen s)).
       split; [|done]. unfold digits_cap. cbn zeta. case_ltb; lia. }
  pose proof (digits_loop_spec (drop start s) base sep [0] (digits_cap (zlen s)) 0 false false)
    as K. simpl andb in K. cbv iota in K.
  assert (zlen (drop start s) <= zlen s) as Hd by (unfold zlen; rewrite length_drop; lia).
  assert (zlen s / 8 + 1 < digits_cap (zlen s)) as Hcap.
  { unfold digits_cap. cbn zeta. case_ltb; lia. }
  pose proof (Z.div_le_mono _ _ 8 ltac:(lia) Hd).
  specialize (K (accumulates_zero 0 ltac:(lia)) Hb ltac:(rewrite Z.add_0_l; lia)).
  destruct (read_numeral base sep (drop start s)) as [ds|]; simpl in K |- *.
  - destruct K as (l & -> & A & V). cbn [mbind outcome_bind negb orb].
    pose proof (accumulates_length _ _ A). destruct A as (A1 & A2 & A3 & A4).
    change (val l = digits_value base ds) in V. rewrite <- V.
    eapply computes_mono; [|apply js_mkbigint_limbs_spec; [done|apply A2]].
    rewrite Z.add_0_l in *. lia.
  - destruct K as [-> | (l & h & p & -> & E)]; [by left|].
    cbn [mbind outcome_bind]. rewrite E. by left.
Qed.

(** ** Positional notation *)

(** The value of digits given least significant first. *)
Definition little (base : Z) (gs : list Z) : Z := foldr (λ g acc, g + base * acc) 0 gs.

Lemma horner_app base acc ds ds' :
  horner base acc (ds ++ ds') = horner base (horner base acc ds) ds'.
Proof. apply foldl_app. Qed.

Lemma horner_acc base acc ds :
  horner base acc ds = acc * base ^ zlen ds + horner base 0 ds.
Proof.
  revert acc. unfold zlen. induction ds as [|d ds IH]; intros acc.
  { simpl. lia. }
  simpl length. change (horner base acc (d :: ds)) with (horner base (acc * base + d) ds).
  change (horner base 0 (d :: ds)) with (horner base d ds).
  rewrite (IH (acc * base + d)), (IH d), Nat2Z.inj_succ, Z.pow_succ_r by lia. ring.
Qed.

Lemma horner_rev base acc gs :
  horner base acc (rev gs) = acc * base ^ zlen gs + little base gs.
Proof.
  revert acc. unfold zlen. induction gs as [|g gs IH]; intros acc.
  { simpl. lia. }
  cbn [rev]. rewrite horner_app, IH. simpl length. rewrite Nat2Z.inj_succ, Z.pow_succ_r by lia.
  simpl. ring.
Qed.

(** [ds] is the canonical numeral of [n]: digits of the base, no leading zero. *)
Record canonical (base : Z) (ds : list Z) (n : Z) : Prop := mk_canonical {
  can_digits : Forall (λ d, 0 <= d < base) ds;
  can_value : digits_value base ds = n;
  can_nonempty : (1 <= length ds)%nat;
  can_leading : hd 0 ds = 0 → ds = [0]
}.

Lemma canonical_zero base : 0 < base → canonical base [0] 0.
Proof. intros Hb. split; [|done|simpl; lia|done]. constructor; [lia|constructor]. Qed.

Lemma horner_bounds base ds :
  1 < base → Forall (λ d, 0 <= d < base) ds → 0 <= horner base 0 ds < base ^ zlen ds.
Proof.
  intros Hb. induction 1 as [|d ds Hd Hds IH]; [simpl; unfold zlen; simpl; lia|].
  change (horner base 0 (d :: ds)) with (horner base d ds). rewrite horner_acc.
  unfold zlen in *. simpl length. rewrite Nat2Z.inj_succ, Z.pow_succ_r by lia.
  assert (0 < base ^ Z.of_nat (length ds)) by (apply Z.pow_pos_nonneg; lia). nia.
Qed.

(** A number has one canonical numeral. *)
Lemma canonical_length base ds n :
  1 < base → canonical base ds n → 0 < n →
  base ^ (zlen ds - 1) <= n < base ^ zlen ds.
Proof.
  intros Hb [Hd Hv Hl Hh] Hn. pose proof (horner_bounds base ds Hb Hd) as Hr.
  unfold digits_value in Hv. rewrite Hv in Hr. split; [|lia].
  destruct Hd as [|d ds Hd Hds]; [simpl in Hl; lia|].
  change (horner base d ds = n) in Hv. rewrite horner_acc in Hv.
  pose proof (horner_bounds base ds Hb Hds). unfold zlen in *. simpl length in *.
  replace (Z.of_nat (S (length ds)) - 1) with (Z.of_nat (length ds)) by lia.
  assert (d ≠ 0).
  { intros ->. simpl in Hh. specialize (Hh eq_refl). injection Hh as ->. simpl in *. lia. }
  assert (0 < base ^ Z.of_nat (length ds)) by (apply Z.pow_pos_nonneg; lia). nia.
Qed.

(** ** The conversions of printf *)

Definition dec_chars (ds : list Z) : list Z := (λ d, 48 + d) <$> ds.

Lemma dec_digits_spec fuel v :
  (1 <= fuel)%nat → 0 <= v < 10 ^ Z.of_nat fuel →
  ∃ ds, dec_digits fuel v = dec_chars ds ∧ canonical 10 ds v.
Proof.
  revert v. induction fuel as [|fuel IH]; intros v Hf Hv; [lia|]. cbn [dec_digits].
  destruct (Z.ltb_spec v 10) as [Hlt|Hge].
  { exists [v]. split; [done|]. split; [|done|simpl; lia|].
    - constructor; [lia|constructor].
    - by simpl; intros ->. }
  rewrite Nat2Z.inj_succ, Z.pow_succ_r in Hv by lia.
  assert (1 <= v / 10 < 10 ^ Z.of_nat fuel)
    by (split; [apply Z.div_le_lower_bound|apply Z.div_lt_upper_bound]; lia).
  destruct fuel as [|fuel]; [simpl in *; lia|].
  destruct (IH (v / 10)) as (ds & E & [C1 C2 C3 C4]); [lia|lia|].
  exists (ds ++ [v mod 10]). pose proof (Z.div_mod v 10 ltac:(lia)).
  pose proof (Z.mod_pos_bound v 10 ltac:(lia)). split.
  - rewrite E. unfold dec_chars. by rewrite fmap_app.
  - split.
    + apply Forall_app. split; [done|]. constructor; [lia|constructor].
    + unfold digits_value in *. rewrite horner_app, C2. simpl. lia.
    + rewrite length_app. simpl. lia.
    + destruct ds as [|d ds]; [simpl in C3; lia|]. simpl. intros ->.
      specialize (C4 eq_refl). injection C4 as ->. unfold digits_value in C2. simpl in C2. lia.
Qed.

Lemma u32_dec_len_spec v ds :
  0 <= v < BIGINT_DEC_GROUP_BASE → canonical 10 ds v → u32_dec_len v = zlen ds.
Proof.
  intros Hv Hc. unfold BIGINT_DEC_GROUP_BASE in Hv. unfold u32_dec_len.
  destruct (Z.eq_dec v 0) as [->|Hn].
  { simpl. destruct Hc as [C1 C2 C3 C4]. destruct C1 as [|d ds Hd Hds]; [simpl in C3; lia|].
    unfold digits_value in C2. change (horner 10 d ds = 0) in C2. rewrite horner_acc in C2.
    pose proof (horner_bounds 10 ds ltac:(lia) Hds).
    assert (0 < 10 ^ zlen ds) by (apply Z.pow_pos_nonneg; unfold zlen; lia).
    assert (d = 0) by nia. subst d. by rewrite C4. }
  pose proof (canonical_length 10 ds v ltac:(lia) Hc ltac:(lia)) as [H1 H2].
  pose proof (can_nonempty _ _ _ Hc). unfold zlen in *. set (n := length ds) in *.
  assert (n < 10)%nat.
  { destruct (le_lt_dec 10 n) as [Hge|]; [|done].
    pose proof (Z.pow_le_mono_r 10 9 (Z.of_nat n - 1) ltac:(lia) ltac:(lia)). lia. }
  clearbody n. do 10 (destruct n as [|n]; [simpl in *; repeat case_ltb; lia|]). lia.
Qed.

Lemma fmt_u_spec v :
  0 <= v < BIGINT_DEC_GROUP_BASE →
  ∃ ds, fmt_u v = dec_chars ds ∧ canonical 10 ds v ∧ u32_dec_len v = zlen ds.
Proof.
  intros Hv. destruct (dec_digits_spec 10 v) as (ds & E & C); [lia| |].
  { unfold BIGINT_DEC_GROUP_BASE in Hv. simpl. lia. }
  exists ds. split; [done|]. split; [done|]. by apply u32_dec_len_spec.
Qed.

Lemma horner_zeros base k : horner base 0 (replicate k 0) = 0.
Proof. induction k as [|k IH]; [done|]. exact IH. Qed.

Lemma fmt_09u_spec v :
  0 <= v < BIGINT_DEC_GROUP_BASE →
  ∃ ds, fmt_09u v = dec_chars ds ∧ Forall (λ d, 0 <= d < 10) ds ∧ length ds = 9%nat
    ∧ horner 10 0 ds = v.
Proof.
  intros Hv. destruct (fmt_u_spec v Hv) as (ds & E & C & L). unfold fmt_09u. cbn zeta. rewrite E.
  assert (length ds <= 9)%nat as Hle.
  { unfold zlen in L. unfold BIGINT_DEC_GROUP_BASE in Hv. revert L. unfold u32_dec_len.
    repeat case_ltb; lia. }
  assert (length (dec_chars ds) = length ds) as Hl by apply length_fmap.
  exists (replicate (9 - length ds) 0 ++ ds). destruct C as [C1 C2 C3 C4]. split; [|split; [|split]].
  - unfold dec_chars in *. by rewrite fmap_app, fmap_replicate, Hl.
  - apply Forall_app. split; [|done]. apply Forall_replicate. lia.
  - rewrite length_app, length_replicate. lia.
  - by rewrite horner_app, horner_zeros.
Qed.

(** Groups written one after the other while they fit. *)
Lemma snprintf_groups len gs out pos :
  Forall (λ g, 0 <= g < BIGINT_DEC_GROUP_BASE) gs →
  pos = zlen out → pos + 9 * zlen gs <= len →
  ∃ ds, foldl (λ st g, snprintf len st (fmt_09u g)) (out, pos) gs
        = (out ++ dec_chars ds, pos + 9 * zlen gs)
    ∧ Forall (λ d, 0 <= d < 10) ds ∧ zlen ds = 9 * zlen gs
    ∧ ∀ acc, horner 10 acc ds = horner BIGINT_DEC_GROUP_BASE acc gs.
Proof.
  intros Hg. revert out pos. unfold zlen. induction Hg as [|g gs Hg Hgs IH]; intros out pos Hp Hl.
  { exists []. simpl. rewrite app_nil_r. split; [f_equal; lia|]. auto. }
  destruct (fmt_09u_spec g Hg) as (d0 & E & D1 & D2 & D3). cbn [foldl]. unfold snprintf at 2.
  simpl length in Hl. assert (length (dec_chars d0) = 9%nat) as L0 by (rewrite <- D2; apply length_fmap).
  rewrite E, take_ge by lia. unfold zlen. rewrite L0.
  destruct (IH (out ++ dec_chars d0) (pos + Z.of_nat 9)) as (ds & I1 & I2 & I3 & I4).
  { rewrite length_app. lia. }
  { lia. }
  exists (d0 ++ ds). rewrite I1. split; [|split; [|split]].
  - unfold dec_chars. rewrite fmap_app, app_assoc. f_equal. simpl length. lia.
  - by apply Forall_app.
  - rewrite length_app. simpl length. lia.
  - intros acc. rewrite horner_app, I4. simpl. f_equal.
    rewrite horner_acc, D3. unfold zlen. by rewrite D2.
Qed.

Lemma foldl_at {A} (f : A → Z → A) gs m st :
  (m <= length gs)%nat →
  foldl (λ st i, f st (at_ gs i)) st (rev (seq 0 m)) = foldl f st (rev (take m gs)).
Proof.
  revert st. induction m as [|m IH]; intros st Hm; [done|].
  rewrite seq_S, rev_app_distr. simpl. rewrite IH by lia.
  rewrite (take_S_r gs m (at_ gs m)), rev_app_distr; [done|].
  apply lookup_at. lia.
Qed.

Lemma little_split_last base gs :
  (1 <= length gs)%nat →
  little base gs = little base (take (length gs - 1) gs)
                   + base ^ Z.of_nat (length gs - 1) * at_ gs (length gs - 1).
Proof.
  induction gs as [|g gs IH]; intros L; simpl length in *; [lia|].
  rewrite Nat.sub_succ, Nat.sub_0_r. destruct gs as [|g' gs]; [unfold at_; simpl; lia|].
  simpl length in *. rewrite Nat.sub_succ, Nat.sub_0_r in IH. cbn [take]. rewrite at_cons_S.
  change (little base (g :: ?l)) with (g + base * little base l).
  rewrite IH, Nat2Z.inj_succ, Z.pow_succ_r by lia. simpl little. lia.
Qed.

(** ** Dividing the limbs down to their digits *)

(** One division step of the printers. *)
Lemma peel_step tmp d q rem :
  limbs_ok tmp → normalized tmp → 1 < d < BIGINT_BASE →
  bigint_div_small_inplace tmp d = (q, rem) →
  let t := take (bigint_normalize_limbs q (length q)) q in
  limbs_ok t ∧ normalized t ∧ val t = val tmp / d ∧ rem = val tmp mod d ∧ 0 <= rem < d.
Proof.
  intros Ht Hn Hd E. apply bigint_div_small_inplace_spec in E as (E1 & E2 & E3 & E4); [|done|lia].
  pose proof (proj1 Hn). fold (norm q). split; [by apply norm_ok|].
  split; [apply norm_normalized; lia|]. rewrite norm_val.
  destruct (div_mod_digits rem (val q) d E3) as [D1 D2].
  replace (rem + d * val q) with (val tmp) in * by lia. done.
Qed.

Lemma val_zero_test tmp :
  limbs_ok tmp → normalized tmp → (length tmp =? 1)%nat && (at_ tmp 0 =? 0) = (val tmp =? 0).
Proof. apply limbs_is_zero_spec. Qed.

(** The digits [gs] of [n], least significant first, without a leading zero. *)
Record peeled (base : Z) (gs : list Z) (n : Z) : Prop := mk_peeled {
  peel_digits : Forall (λ g, 0 <= g < base) gs;
  peel_value : little base gs = n;
  peel_zero : n = 0 → gs = [];
  peel_top : n ≠ 0 → (1 <= length gs)%nat ∧ at_ gs (length gs - 1) ≠ 0
}.

Lemma peeled_cons base gs n :
  1 < base → 0 < n → peeled base gs (n / base) → peeled base (n mod base :: gs) n.
Proof.
  intros Hb Hn [P1 P2 P0 P3]. pose proof (Z.div_mod n base ltac:(lia)).
  pose proof (Z.mod_pos_bound n base ltac:(lia)). split; [by constructor|simpl; lia|lia|].
  intros _. simpl length. split; [lia|]. destruct (Z.eq_dec (n / base) 0) as [Ez|Ez].
  - rewrite (P0 Ez). unfold at_. simpl. lia.
  - destruct (P3 Ez) as [Q1 Q2]. by replace (S (length gs) - 1)%nat with (S (length gs - 1)) by lia.
Qed.

Lemma peeled_zero base : peeled base [] 0.
Proof. by split. Qed.

Section printing.
Context `{Heap}.

Lemma dec_groups_spec fuel tmp groups cap :
  limbs_ok tmp → normalized tmp → val tmp < BIGINT_DEC_GROUP_BASE ^ Z.of_nat fuel →
  zlen groups + Z.of_nat fuel <= cap →
  ∃ gs, dec_groups fuel tmp groups cap = Ok (groups ++ gs)
    ∧ peeled BIGINT_DEC_GROUP_BASE gs (val tmp) ∧ (length gs <= fuel)%nat.
Proof.
  revert tmp groups. induction fuel as [|fuel IH]; intros tmp groups Ht Hn Hv Hc;
    cbn [dec_groups]; rewrite val_zero_test by done; pose proof (val_nonneg tmp Ht);
    (destruct (Z.eqb_spec (val tmp) 0) as [Ez|Ez];
      [exists []; rewrite app_nil_r, Ez; split; [done|split; [apply peeled_zero|simpl; lia]]|]).
  { simpl in Hv. lia. }
  rewrite (proj2 (Z.eqb_neq (zlen groups) cap)) by lia. cbn [mbind outcome_bind].
  rewrite (proj2 (Z.leb_gt cap (zlen groups))) by lia.
  destruct (bigint_div_small_inplace tmp _) as [q rem] eqn:E.
  apply peel_step in E as (S1 & S2 & S3 & S4 & S5); [|done..]. cbn zeta in *.
  set (t := take _ q) in *. clearbody t.
  rewrite Nat2Z.inj_succ, Z.pow_succ_r in Hv by lia.
  destruct (IH t (groups ++ [rem])) as (gs & I1 & I2 & I3); [done|done| | |].
  { rewrite S3. apply Z.div_lt_upper_bound; [done|]. lia. }
  { unfold zlen in *. rewrite length_app. simpl. lia. }
  exists (rem :: gs). rewrite I1, <- app_assoc. split; [done|]. split; [|simpl; lia].
  rewrite S4. apply peeled_cons; [done|lia|]. by rewrite <- S3.
Qed.

Lemma radix_loop_spec n fuel tmp radix out cap :
  limbs_ok tmp → normalized tmp → 2 <= radix <= 36 → val tmp < radix ^ Z.of_nat n →
  (n <= fuel)%nat → zlen out + Z.of_nat n + 2 <= cap →
  ∃ gs, radix_loop fuel tmp radix out cap
        = Ok (out ++ ((λ d, at_ digit_map (Z.to_nat d)) <$> gs))
    ∧ peeled radix gs (val tmp) ∧ (length gs <= n)%nat.
Proof.
  intros Ht Hn Hr. revert fuel tmp out Ht Hn.
  induction n as [|n IH]; intros fuel tmp out Ht Hn Hv Hf Hc;
    pose proof (val_nonneg tmp Ht);
    (destruct (Z.eq_dec (val tmp) 0) as [Ez|Ez];
      [exists []; rewrite app_nil_r, Ez; split; [|split; [apply peeled_zero|simpl; lia]];
       destruct fuel; cbn [radix_loop]; rewrite val_zero_test, Ez by done;
       by rewrite (proj2 (Z.leb_gt cap (zlen out))) by lia|]).
  { simpl in Hv. lia. }
  destruct fuel as [|fuel]; [lia|].
  cbn [radix_loop]. rewrite val_zero_test, (proj2 (Z.eqb_neq (val tmp) 0)) by done.
  rewrite (proj2 (Z.leb_gt cap (zlen out + 1))) by lia. cbn [mbind outcome_bind].
  rewrite (proj2 (Z.leb_gt cap (zlen out))) by lia.
  destruct (bigint_div_small_inplace tmp _) as [q rem] eqn:E.
  apply peel_step in E as (S1 & S2 & S3 & S4 & S5);
    [|done..|unfold BIGINT_BASE; lia]. cbn zeta in *.
  set (t := take _ q) in *. clearbody t.
  rewrite Nat2Z.inj_succ, Z.pow_succ_r in Hv by lia.
  destruct (IH fuel t (out ++ [at_ digit_map (Z.to_nat rem)])) as (gs & I1 & I2 & I3);
    [done|done| |lia| |].
  { rewrite S3. apply Z.div_lt_upper_bound; lia. }
  { unfold zlen in *. rewrite length_app. simpl. lia. }
  exists (rem :: gs). rewrite I1, <- app_assoc. split; [done|]. split; [|simpl; lia].
  rewrite S4. apply peeled_cons; [lia|lia|]. by rewrite <- S3.
Qed.

(** [o] is text satisfying [P], or NULL because an allocation of at most [bound] bytes was
    refused. *)
Definition prints (bound : Z) (o : outcome (list Z)) (P : list Z → Prop) : Prop :=
  match o with
  | Ok s => P s
  | Throw e => e = oom ∧ ∃ n, n <= bound ∧ (calloc n = false ∨ malloc n = false)
  | Ub => False
  end.

Lemma prints_malloc bound n k P :
  n <= bound → prints bound k P → prints bound (if negb (malloc n) then Throw oom else k) P.
Proof.
  intros Hn Hk. destruct (malloc n) eqn:E; [done|]. split; [done|]. exists n. auto.
Qed.

Lemma prints_limb_alloc bound n k P :
  1 <= n → n * 4 <= bound → prints bound k P →
  prints bound (if negb (limb_alloc n) then Throw oom else k) P.
Proof.
  intros H1 Hn Hk. unfold limb_alloc. rewrite (proj2 (Z.eqb_neq n 0)) by lia.
  destruct (calloc _) eqn:E; [done|]. split; [done|]. exists (n * 4). auto.
Qed.

Lemma prints_zero bound P :
  2 <= bound → P [48] → prints bound (if malloc 2 then Ok [48] else Throw oom) P.
Proof.
  intros Hn Hk. destruct (malloc 2) eqn:E; [done|]. split; [done|]. exists 2. auto.
Qed.

(** The bytes the printers may ask for at once. *)
Definition print_bound (limbs : list Z) : Z := 32 * zlen limbs + 64.

(** The top group and the padded groups below it are the canonical numeral. *)
Lemma canonical_groups gs n dtop ds :
  peeled BIGINT_DEC_GROUP_BASE gs n → n ≠ 0 →
  canonical 10 dtop (at_ gs (length gs - 1)) → Forall (λ d, 0 <= d < 10) ds →
  (∀ acc, horner 10 acc ds
          = horner BIGINT_DEC_GROUP_BASE acc (rev (take (length gs - 1) gs))) →
  canonical 10 (dtop ++ ds) n.
Proof.
  intros [P1 P2 _ P3] Hn [C1 C2 C3 C4] Hds Hh. destruct (P3 Hn) as [L Htop].
  unfold digits_value in *. split.
  - by apply Forall_app.
  - unfold digits_value. rewrite horner_app, C2, Hh, horner_rev, <- P2.
    rewrite (little_split_last _ gs L). unfold zlen. rewrite length_take, Nat.min_l by lia. lia.
  - rewrite length_app. lia.
  - destruct dtop as [|d dtop]; [simpl in C3; lia|]. simpl in *. intros ->.
    specialize (C4 eq_refl). injection C4 as ->. simpl in C2. lia.
Qed.

Lemma group_base_enough l :
  limbs_ok l → val l < BIGINT_DEC_GROUP_BASE ^ Z.of_nat (Z.to_nat (zlen l * 2 + 1)).
Proof.
  intros Hl. pose proof (val_bounds l Hl) as Hb. unfold zlen. rewrite Z2Nat.id by lia.
  assert (BIGINT_BASE ^ Z.of_nat (length l)
          <= (BIGINT_DEC_GROUP_BASE ^ 2) ^ Z.of_nat (length l)) as H1.
  { apply Z.pow_le_mono_l. unfold BIGINT_BASE, BIGINT_DEC_GROUP_BASE. lia. }
  rewrite <- Z.pow_mul_r in H1 by lia.
  assert (BIGINT_DEC_GROUP_BASE ^ (2 * Z.of_nat (length l))
          <= BIGINT_DEC_GROUP_BASE ^ (Z.of_nat (length l) * 2 + 1)).
  { apply Z.pow_le_mono_r; unfold BIGINT_DEC_GROUP_BASE; lia. }
  lia.
Qed.

Lemma bigint_abs_to_decimal_string_spec l :
  limbs_ok l → normalized l →
  prints (print_bound l) (bigint_abs_to_decimal_string l)
    (λ s, ∃ ds, s = dec_chars ds ∧ canonical 10 ds (val l) ∧ zlen ds <= 18 * zlen l + 9).
Proof.
  intros Hl Hn. unfold bigint_abs_to_decimal_string, print_bound.
  assert (1 <= zlen l) by (unfold zlen; pose proof (proj1 Hn); lia).
  rewrite limbs_is_zero_spec by done. destruct (Z.eqb_spec (val l) 0) as [Ez|Ez].
  { apply prints_zero; [lia|]. exists [0]. rewrite Ez. split; [done|].
    split; [by apply canonical_zero|]. change (zlen [0]) with 1. lia. }
  apply prints_limb_alloc; [done|lia|]. cbn zeta. apply prints_malloc; [lia|].
  destruct (dec_groups_spec (Z.to_nat (zlen l * 2 + 1)) l [] (zlen l * 2 + 1)) as (gs & -> & P & L);
    [done|done|by apply group_base_enough|unfold zlen; simpl; lia|].
  cbn [mbind outcome_bind app]. destruct (peel_top _ _ _ P Ez) as [L1 Htop].
  pose proof (peel_digits _ _ _ P) as Pd.
  assert (0 <= at_ gs (length gs - 1) < BIGINT_DEC_GROUP_BASE) as Hr
    by (apply (Forall_at_lt (λ g, 0 <= g < BIGINT_DEC_GROUP_BASE)); [done|lia]).
  destruct (fmt_u_spec _ Hr) as (dtop & -> & C & Lt). rewrite Lt.
  assert (zlen dtop <= 9) as L9.
  { rewrite <- Lt. unfold BIGINT_DEC_GROUP_BASE in Hr. unfold u32_dec_len.
    repeat case_ltb; lia. }
  apply prints_malloc; [lia|]. unfold snprintf at 2.
  assert (length (dec_chars dtop) = length dtop) as Ld by apply length_fmap.
  rewrite take_ge by (rewrite Ld; unfold zlen; lia).
  rewrite (foldl_at (λ st g, snprintf _ st (fmt_09u g))) by lia.
  destruct (snprintf_groups (zlen dtop + (Z.of_nat (length gs) - 1) * 9)
    (rev (take (length gs - 1) gs)) ([] ++ dec_chars dtop) (0 + zlen (dec_chars dtop)))
    as (ds & -> & D1 & D2 & D3).
  - by apply Forall_rev, Forall_take.
  - done.
  - unfold zlen. rewrite Ld, length_rev, length_take. lia.
  - unfold zlen in D2. rewrite length_rev, length_take in D2. exists (dtop ++ ds).
    split; [|split; [by apply (canonical_groups gs)|unfold zlen in *; rewrite length_app; lia]].
    rewrite take_ge; [unfold dec_chars; by rewrite fmap_app|].
    rewrite app_nil_l, length_app, Ld. unfold dec_chars. rewrite length_fmap.
    unfold zlen in *. lia.
Qed.

Definition radix_chars (ds : list Z) : list Z := (λ d, at_ digit_map (Z.to_nat d)) <$> ds.

(** Reversing the peeled digits gives the canonical numeral. *)
Lemma canonical_rev base gs n : peeled base gs n → n ≠ 0 → canonical base (rev gs) n.
Proof.
  intros [P1 P2 _ P3] Hn. destruct (P3 Hn) as [L Htop]. split.
  - by apply Forall_rev.
  - unfold digits_value. rewrite horner_rev. lia.
  - by rewrite length_rev.
  - destruct gs as [|g gs _] using rev_ind; [simpl in L; lia|].
    rewrite length_app in Htop. simpl in Htop.
    rewrite at_app_r in Htop by lia.
    replace (length gs + 1 - 1 - length gs)%nat with 0%nat in Htop by lia.
    rewrite rev_app_distr. simpl. intros ->. done.
Qed.

Lemma bigint_abs_to_radix_string_spec l radix :
  limbs_ok l → normalized l → 2 <= radix <= 36 →
  prints (print_bound l) (bigint_abs_to_radix_string l radix)
    (λ s, ∃ ds, s = radix_chars ds ∧ canonical radix ds (val l) ∧ zlen ds <= 32 * zlen l).
Proof.
  intros Hl Hn Hr. unfold bigint_abs_to_radix_string, print_bound.
  assert (1 <= zlen l) by (unfold zlen; pose proof (proj1 Hn); lia).
  rewrite limbs_is_zero_spec by done. destruct (Z.eqb_spec (val l) 0) as [Ez|Ez].
  { apply prints_zero; [lia|]. exists [0]. rewrite Ez. split; [done|].
    split; [apply canonical_zero; lia|]. change (zlen [0]) with 1. lia. }
  apply prints_limb_alloc; [done|lia|]. cbn zeta. apply prints_malloc; [lia|].
  destruct (radix_loop_spec (32 * length l) (Z.to_nat (zlen l * 32 + 2)) l radix []
    (zlen l * 32 + 2)) as (gs & -> & P & L); [done|done|done| | | |].
  - pose proof (val_bounds l Hl) as Hb. rewrite base_pow_2 in Hb by lia.
    assert (2 ^ (32 * Z.of_nat (length l)) <= radix ^ Z.of_nat (32 * length l)).
    { rewrite Nat2Z.inj_mul. apply Z.pow_le_mono_l. lia. }
    lia.
  - unfold zlen. lia.
  - unfold zlen. simpl length. lia.
  - cbn [mbind outcome_bind prints app]. exists (rev gs). split; [|split].
    + unfold radix_chars. by rewrite <- map_rev.
    + by apply canonical_rev.
    + unfold zlen. rewrite length_rev. lia.
Qed.

(** ** toString *)

(** The text of a value in a radix. *)
Definition numeral_text (radix : Z) (s : list Z) (n : Z) : Prop :=
  ∃ ds, canonical radix ds (Z.abs n) ∧
        s = (if n <? 0 then [45] else []) ++ radix_chars ds.

Lemma dec_chars_radix ds : Forall (λ d, 0 <= d < 10) ds → dec_chars ds = radix_chars ds.
Proof.
  intros Hd. apply list_fmap_ext. intros i d E. apply (Forall_lookup_1 _ _ _ _ Hd) in E.
  assert (d ∈ seqZ 0 10) as Hin by (apply elem_of_seqZ; lia).
  clear E. revert d Hin. apply Forall_forall. repeat (constructor; [reflexivity|]). constructor.
Qed.

Lemma abs_to_string_spec l r :
  limbs_ok l → normalized l → 2 <= r <= 36 →
  prints (print_bound l)
    (if r =? 10 then bigint_abs_to_decimal_string l else bigint_abs_to_radix_string l r)
    (λ s, ∃ ds, s = radix_chars ds ∧ canonical r ds (val l) ∧ zlen ds <= 32 * zlen l).
Proof.
  intros Hl Hn Hr. destruct (Z.eqb_spec r 10) as [->|]; [|by apply bigint_abs_to_radix_string_spec].
  pose proof (bigint_abs_to_decimal_string_spec l Hl Hn) as K.
  destruct (bigint_abs_to_decimal_string l); [|done..].
  destruct K as (ds & -> & C & L). exists ds. assert (1 <= zlen l) by (unfold zlen; pose proof (proj1 Hn); lia).
  split; [apply dec_chars_radix; apply C|]. split; [done|lia].
Qed.

Lemma builtin_bigint_toString_spec v radix :
  wf v → match radix with Some r => 2 <= r <= 36 | None => True end →
  prints (print_bound (limbs v)) (builtin_bigint_toString (Some v) radix)
    (λ s, numeral_text (default 10 radix) s (to_Z v)).
Proof.
  intros Hv Hr. unfold builtin_bigint_toString, bigint_is_negative.
  rewrite bigint_limbs_wf by done.
  set (r := match radix with Some r => r | None => 10 end).
  assert (2 <= r <= 36 ∧ default 10 radix = r) as [Hr' ->] by (destruct radix; simpl; split; auto; lia).
  assert (match radix with Some _ => (r <? 2) || (36 <? r) | None => false end = false) as ->.
  { destruct radix; [|done]. rewrite (proj2 (Z.ltb_ge r 2)), (proj2 (Z.ltb_ge 36 r)) by lia. done. }
  cbn zeta. pose proof (abs_to_string_spec (limbs v) r (wf_limbs v Hv) (wf_norm v Hv) Hr') as K.
  destruct (if r =? 10 then _ else _) as [s| |]; [|done..]. cbn [mbind outcome_bind].
  destruct K as (ds & -> & C & L). rewrite to_Z_abs in C by done. rewrite to_Z_sign by done.
  destruct (to_Z v <? 0) eqn:E; cbn [negb].
  - apply prints_malloc.
    + unfold print_bound, zlen in *. unfold radix_chars. rewrite length_fmap. lia.
    + exists ds. rewrite E. done.
  - exists ds. rewrite E. done.
Qed.

End printing.

(** ** Parsing what was printed *)

Lemma read_numeral_dec sep ds :
  Forall (λ d, 0 <= d < 10) ds → (1 <= length ds)%nat →
  read_numeral 10 sep (dec_chars ds) = Some ds.
Proof.
  intros Hd. induction Hd as [|d ds Hd Hds IH]; intros L; [simpl in L; lia|].
  change (dec_chars (d :: ds)) with (48 + d :: dec_chars ds). rewrite read_numeral_cons.
  assert (hex_digit (48 + d) = d) as ->.
  { unfold hex_digit. repeat case_ltb; simpl; lia. }
  rewrite (proj2 (Z.ltb_ge d 0)), (proj2 (Z.leb_gt 10 d)) by lia. cbn [orb].
  destruct ds as [|d' ds]; [done|]. inversion_clear Hds.
  change (dec_chars (d' :: ds)) with (48 + d' :: dec_chars ds) in *. cbn [read_rest].
  rewrite (proj2 (Z.eqb_neq (48 + d') 95)), IH by (simpl; lia). done.
Qed.

Lemma numeral_value_dec sep ds n :
  canonical 10 ds n → numeral_value sep (dec_chars ds) = Some n.
Proof.
  intros [C1 C2 C3 C4]. unfold numeral_value.
  destruct (dec_chars ds) as [|c cs] eqn:E; [destruct ds; [simpl in C3; lia|done]|].
  rewrite <- E. assert (numeral_prefix (dec_chars ds) = (10, 0%nat)) as ->.
  { unfold numeral_prefix. destruct ds as [|d ds]; [done|]. unfold at_. simpl.
    destruct (Z.eqb_spec (48 + d) 48); [|by rewrite andb_false_r].
    assert (d = 0) as -> by lia. specialize (C4 eq_refl). by injection C4 as ->. }
  rewrite drop_0, read_numeral_dec by done. simpl. by rewrite C2.
Qed.

Lemma trim_start_id s : is_space (hd 0 s) = false → trim_start s = s.
Proof. destruct s; simpl; [done|]. by intros ->. Qed.

Lemma trim_id s :
  is_space (hd 0 s) = false → is_space (hd 0 (rev s)) = false → trim_end (trim_start s) = s.
Proof.
  intros H1 H2. rewrite trim_start_id by done. unfold trim_end.
  rewrite trim_start_id by done. apply rev_involutive.
Qed.

Lemma dec_char_not_space c : 33 <= c → is_space c = false.
Proof. intros Hc. unfold is_space. rewrite !(proj2 (Z.eqb_neq _ _)) by lia. done. Qed.

Lemma hd_Forall_33 s : Forall (λ c, 33 <= c) s → is_space (hd 0 s) = false.
Proof. destruct 1; [done|]. by apply dec_char_not_space. Qed.

(** The text of a value in radix 10 is read back as the value. *)
Lemma bigint_from_js_string_numeral `{Heap} s n :
  numeral_text 10 s n →
  computes (digits_cap (zlen s)) (bigint_from_js_string s) n.
Proof.
  intros (ds & C & ->). pose proof (can_digits _ _ _ C) as Cd. rewrite <- dec_chars_radix by done.
  assert (Forall (λ c, 48 <= c <= 57) (dec_chars ds)) as F.
  { apply Forall_fmap. eapply Forall_impl; [done|]. simpl. lia. }
  set (s := _ ++ _). assert (Forall (λ c, 33 <= c) s) as F'.
  { subst s. apply Forall_app. split; [destruct (n <? 0); repeat constructor; lia|].
    eapply Forall_impl; [done|]. simpl. lia. }
  unfold bigint_from_js_string. rewrite trim_id by (apply hd_Forall_33; done || by apply Forall_rev).
  subst s. pose proof (can_nonempty _ _ _ C) as L.
  assert (length (dec_chars ds) = length ds) as Ld by apply length_fmap.
  pose proof (bigint_from_string_digits_spec (dec_chars ds) (n <? 0) false) as K.
  rewrite (numeral_value_dec _ _ _ C) in K.
  destruct (Z.ltb_spec n 0); cbn [app].
  - rewrite Z.eqb_refl, Ld, (proj2 (Nat.eqb_neq (length ds) 0)) by lia.
    replace (- Z.abs n) with n in K by lia. eapply computes_mono; [|exact K].
    unfold zlen, digits_cap. simpl length.
    pose proof (Z.div_le_mono (Z.of_nat (length (dec_chars ds)))
      (Z.of_nat (S (length (dec_chars ds)))) 8 ltac:(lia) ltac:(lia)). repeat case_ltb; lia.
  - destruct (dec_chars ds) as [|c cs] eqn:E; [simpl in Ld; lia|]. inversion_clear F.
    rewrite (proj2 (Z.eqb_neq c 45)), (proj2 (Z.eqb_neq c 43)) by lia.
    replace (length (c :: cs) =? 0)%nat with false by done.
    by replace (Z.abs n) with n in K by lia.
Qed.

(** ** Statements *)

Section statements.
Context `{Heap}.

(** A BigInt printed in decimal and read back is the same integer. *)
Lemma bigint_text_roundtrip v s :
  wf v → builtin_bigint_toString (Some v) None = Ok s →
  computes (digits_cap (zlen s)) (bigint_from_js_string s) (to_Z v).
Proof.
  intros Hv E. pose proof (builtin_bigint_toString_spec v None Hv I) as K. rewrite E in K.
  by apply bigint_from_js_string_numeral.
Qed.

End statements.
