(* ===== verification/BigIntApi.v ===== *)
(** * BigInt: exponentiation and the functions scripts call

    Models [bigint_exp], [strbigint], [bigint_asint_bits], [BigInt.asIntN], [BigInt.asUintN]
    and the dispatch of [BigInt(value)] in src/modules/bigint.c over the operators of
    [BigInt], [BigIntDiv] and [BigIntText]. *)

From S2P Require Import Prelude Utils BigIntLimbs BigInt BigIntDiv BigIntText.

(** A JavaScript number: [(-1)^neg * m * 2^e], an infinity, or NaN. *)
Inductive number :=
  | Finite (neg : bool) (m e : Z)
  | Infinite (neg : bool)
  | NaN.

(** [d == trunc(d)], and the magnitude of [trunc(d)]. *)
Definition is_integral (m e : Z) : bool := (0 <=? e) || (m mod 2 ^ (- e) =? 0).

Definition int_part (m e : Z) : Z := if 0 <=? e then m * 2 ^ e else m / 2 ^ (- e).

(** The values [BigInt()] and [BigInt.asIntN] tell apart.  For the first argument of the
    latter, [JsNumber] is the result of [js_to_number]. *)
Inductive js_value :=
  | JsBigInt (v : bigint)
  | JsNumber (d : number)
  | JsString (s : list Z)
  | JsBool (b : bool)
  | JsOther.

(** [printf]'s [%.0f] of an integral magnitude. *)
Definition fmt_0f (n : Z) : list Z := dec_digits (S (Z.to_nat (Z.log2 n))) n.

(** Copying into a buffer of [length buf] bytes. *)
Definition memcpy (buf : list Z) (off : nat) (src : list Z) : outcome (list Z) :=
  if (off + length src <=? length buf)%nat
  then Ok (take off buf ++ src ++ drop (off + length src) buf)
  else Ub.

Section operations.
Context `{Heap}.

(** [result] may hold an error value: the loop does not test it before the first
    multiplication, which would take it for a BigInt. *)
Fixpoint exp_loop (fuel : nat) (result : outcome bigint) (b e : bigint) : outcome bigint :=
  if bigint_is_zero e then result
  else
    match fuel with
    | O => Ub
    | S fuel =>
        next ← (if bigint_is_odd e
                then r ← match result with Ok r => bigint_mul r b | _ => Ub end; Ok (Ok r)
                else Ok result);
        b ← bigint_mul b b;
        e ← bigint_shift_right e 1;
        exp_loop fuel next b e
    end.

(** An exponent of [n] limbs has at most [32 n] bits. *)
Definition bigint_exp (base exp : bigint) : outcome bigint :=
  if bigint_is_negative exp then js_mkerr "Exponent must be positive"
  else if bigint_is_zero exp then js_mkbigint (bytes "1") false
  else exp_loop (32 * length (bigint_limbs exp)) (js_mkbigint (bytes "1") false) base exp.

(** The buffer after the call, and the length returned. *)
Definition strbigint (value : bigint) (buf : list Z) : outcome (list Z * Z) :=
  let neg := bigint_is_negative value in
  match bigint_abs_to_decimal_string (bigint_limbs value) with
  | Ub => Ub
  | Throw _ => Ok (buf, 0)
  | Ok digits =>
      let len := length buf in
      let dlen := length digits in
      let total := Z.of_nat (dlen + if neg then 1 else 0)%nat in
      if (len =? 0)%nat then Ok (buf, total)
      else
        buf ← (if neg && (0 <? len - 1)%nat then store buf 0 45 else Ok buf);
        let n := if neg then 1%nat else 0%nat in
        let avail := if (n <? len)%nat then (len - n - 1)%nat else 0%nat in
        let copy_len := if (dlen <? avail)%nat then dlen else avail in
        buf ← (if (0 <? copy_len)%nat then memcpy buf n (take copy_len digits) else Ok buf);
        let term := (n + copy_len)%nat in
        let term := if (len <=? term)%nat then (len - 1)%nat else term in
        buf ← store buf term 0;
        Ok (buf, total)
  end.

Definition bigint_from_value (arg : js_value) : outcome bigint :=
  match arg with
  | JsBigInt v => Ok v
  | JsNumber (Infinite _) | JsNumber NaN => js_mkerr "Cannot convert Infinity or NaN to BigInt"
  | JsNumber (Finite neg m e) =>
      if negb (is_integral m e) then js_mkerr "Cannot convert non-integer to BigInt"
      else
        let neg := neg && negb (m =? 0) in
        let text := fmt_0f (int_part m e) in
        let need := zlen text in
        if negb (malloc (need + 1)) then js_mkerr "oom"
        else js_mkbigint text neg
  | JsString s => bigint_from_js_string s
  | JsBool b => js_mkbigint (bytes (if b then "1" else "0")) false
  | JsOther => js_mkerr "Cannot convert to BigInt"
  end.

(** [new_target]: the call is a construction. *)
Definition builtin_BigInt (new_target : bool) (args : list js_value) : outcome bigint :=
  if new_target then js_mkerr_typed JS_ERR_TYPE "BigInt is not a constructor"
  else
    match args with
    | [] => js_mkbigint (bytes "0") false
    | arg :: _ => bigint_from_value arg
    end.

Definition bigint_to_u64 (value : bigint) : outcome Z :=
  match bigint_parse_u64 value with
  | None => js_mkerr_typed JS_ERR_RANGE "Invalid bits"
  | Some bits => Ok bits
  end.

(** The literal 18446744073709551615.0 is the double [2^64]; converting that double to
    [uint64_t] is undefined. *)
Definition bigint_asint_bits (arg : js_value) : outcome Z :=
  match arg with
  | JsBigInt v => bigint_to_u64 v
  | JsNumber (Finite neg m e) =>
      if (neg && negb (m =? 0)) || negb (is_integral m e)
      then js_mkerr_typed JS_ERR_RANGE "Invalid bits"
      else if 2 ^ 64 <? int_part m e then js_mkerr_typed JS_ERR_RANGE "Invalid bits"
      else if 2 ^ 64 <=? int_part m e then Ub
      else Ok (int_part m e)
  | _ => js_mkerr_typed JS_ERR_RANGE "Invalid bits"
  end.

(** What both functions do: reduce modulo [2^bits] into the non-negative range. *)
Definition builtin_BigInt_asUintN (args : list js_value) : outcome bigint :=
  match args with
  | a0 :: a1 :: _ =>
      bits ← bigint_asint_bits a0;
      match a1 with
      | JsBigInt v =>
          if bits =? 0 then js_mkbigint (bytes "0") false
          else
            modulus ← bigint_pow2 bits;
            res ← bigint_mod v modulus;
            if bigint_is_negative res then bigint_add res modulus else Ok res
      | _ => js_mkerr_typed JS_ERR_TYPE "Cannot convert to BigInt"
      end
  | _ => js_mkerr "BigInt.asUintN requires 2 arguments"
  end.

Definition builtin_BigInt_asIntN (args : list js_value) : outcome bigint :=
  match args with
  | a0 :: a1 :: _ =>
      bits ← bigint_asint_bits a0;
      match a1 with
      | JsBigInt v =>
          if bits =? 0 then js_mkbigint (bytes "0") false
          else
            modulus ← bigint_pow2 bits;
            res ← bigint_mod v modulus;
            res ← (if bigint_is_negative res then bigint_add res modulus else Ok res);
            threshold ← bigint_pow2 (bits - 1);
            if 0 <=? bigint_compare res threshold then bigint_sub res modulus else Ok res
      | _ => js_mkerr_typed JS_ERR_TYPE "Cannot convert to BigInt"
      end
  | _ => js_mkerr "BigInt.asIntN requires 2 arguments"
  end.

(** [this]: the BigInt behind [this], if any. *)
Definition builtin_bigint_valueOf (this : option bigint) : outcome bigint :=
  match this with
  | None => js_mkerr "valueOf called on non-BigInt"
  | Some v => Ok v
  end.

End operations.

(** ** Sequencing operators *)

Section sequencing.
Context `{Heap}.

(** The first operator computes [x], and the second computes [y] from any value of [x]. *)
Lemma computes_bind c o x (k : bigint → outcome bigint) y :
  computes c o x → (∀ r, wf r → to_Z r = x → computes c (k r) y) → computes c (o ≫= k) y.
Proof. destruct o as [r| |]; simpl; [|done..]. intros [? ?] Hk. by apply Hk. Qed.

Lemma computes_zero c : 4 <= c → computes c (js_mkbigint (bytes "0") false) 0.
Proof.
  intros Hc. apply (computes_mono 4); [done|].
  exact (bigint_from_string_digits_spec (bytes "0") false true).
Qed.

Lemma computes_one c : 4 <= c → computes c (js_mkbigint (bytes "1") false) 1.
Proof.
  intros Hc. apply (computes_mono 4); [done|].
  exact (bigint_from_string_digits_spec (bytes "1") false true).
Qed.

(** A value below [B^m] has at most [m] limbs. *)
Lemma zlen_le v m : wf v → 1 <= m → Z.abs (to_Z v) < BIGINT_BASE ^ m → zlen (limbs v) <= m.
Proof.
  intros Hv Hm Hlt. rewrite <- to_Z_abs in Hlt by done. unfold zlen.
  destruct (Z.le_gt_cases (Z.of_nat (length (limbs v))) m) as [|Hgt]; [done|].
  pose proof (normalized_lower _ (wf_limbs v Hv) (wf_norm v Hv) ltac:(lia)).
  assert (BIGINT_BASE ^ m <= BIGINT_BASE ^ Z.of_nat (length (limbs v) - 1))
    by (apply Z.pow_le_mono_r; unfold BIGINT_BASE; lia).
  lia.
Qed.

Lemma abs_lt_zlen v : wf v → Z.abs (to_Z v) < BIGINT_BASE ^ zlen (limbs v).
Proof. intros Hv. rewrite <- to_Z_abs by done. apply val_bounds, Hv. Qed.

(** A power of a value has at most as many limbs as the exponent times those of the base. *)
Lemma zlen_pow v b k :
  wf v → wf b → 0 <= k → to_Z v = to_Z b ^ k → zlen (limbs v) <= k * zlen (limbs b) + 1.
Proof.
  intros Hv Hb Hk E. pose proof (zlen_pos b Hb). apply zlen_le; [done|nia|].
  rewrite E, Z.abs_pow. pose proof (abs_lt_zlen b Hb).
  assert (Z.abs (to_Z b) ^ k <= (BIGINT_BASE ^ zlen (limbs b)) ^ k)
    by (apply Z.pow_le_mono_l; lia).
  rewrite <- Z.pow_mul_r in * by lia.
  assert (BIGINT_BASE ^ (zlen (limbs b) * k) < BIGINT_BASE ^ (k * zlen (limbs b) + 1))
    by (apply Z.pow_lt_mono_r; [done|nia|lia]).
  lia.
Qed.

End sequencing.

(** ** Exponentiation *)

Section exponentiation.
Context `{Heap}.

Lemma bigint_is_odd_spec v : wf v → bigint_is_odd v = Z.odd (to_Z v).
Proof.
  intros Hv. unfold bigint_is_odd. rewrite bigint_limbs_wf by done.
  assert (Z.odd (to_Z v) = Z.odd (val (limbs v))) as ->.
  { unfold to_Z. destruct (sign v); [apply Z.odd_opp|done]. }
  rewrite (land_mask_eq _ 1 1), val_hd_tl by lia. change (at_ (limbs v) 0) with (nth 0 (limbs v) 0).
  replace (nth 0 (limbs v) 0) with (hd 0 (limbs v)) by by destruct (limbs v).
  rewrite Z.odd_add, Z.odd_mul. change (Z.odd BIGINT_BASE) with false. simpl.
  rewrite xorb_false_r, Zmod_odd. by destruct (Z.odd _).
Qed.

Lemma exp_loop_spec fuel r b e base j k N cap :
  wf r → wf b → wf e → wf base → 0 <= to_Z e < 2 ^ Z.of_nat fuel →
  1 <= k → 0 <= j → to_Z r = to_Z base ^ j → to_Z b = to_Z base ^ k → j + k * to_Z e = N →
  2 * N * zlen (limbs base) + 3 <= cap → zlen (limbs e) + 1 <= cap →
  computes cap (exp_loop fuel (Ok r) b e) (to_Z base ^ N).
Proof.
  revert r b e j k. induction fuel as [|fuel IH]; intros r b e j k Hr Hb He Hbase Hf Hk Hj Er Eb EN Hc Hce;
    cbn [exp_loop]; rewrite bigint_is_zero_spec by done;
    (destruct (Z.eqb_spec (to_Z e) 0) as [Ez|Ez];
      [rewrite Ez, Z.mul_0_r, Z.add_0_r in EN; subst j; split; [done|exact Er]|]).
  { simpl in Hf. lia. }
  rewrite Nat2Z.inj_succ, Z.pow_succ_r in Hf by lia. rewrite bigint_is_odd_spec by done.
  pose proof (zlen_pos base Hbase) as HL. set (L := zlen (limbs base)) in *.
  pose proof (zlen_pow r base j Hr Hbase Hj Er) as Zr. fold L in Zr.
  pose proof (zlen_pow b base k Hb Hbase ltac:(lia) Eb) as Zb. fold L in Zb.
  assert (j + k <= N) by nia. pose proof (Z.div_mod (to_Z e) 2 ltac:(lia)) as Ed.
  rewrite Zmod_odd in Ed.
  assert (∀ r', wf r' → to_Z r' = to_Z base ^ (if Z.odd (to_Z e) then j + k else j) →
    computes cap (b ← bigint_mul b b; e ← bigint_shift_right e 1; exp_loop fuel (Ok r') b e)
      (to_Z base ^ N)) as Hnext.
  { intros r' Hr' Er'.
    eapply computes_bind; [eapply computes_mono; [|by apply bigint_mul_computes]|].
    { unfold mul_cap. nia. }
    intros b' Hb' Eb'.
    eapply computes_bind; [eapply computes_mono; [|apply bigint_shift_right_computes; done]|];
      [done|].
    intros e' He' Ee'. change (2 ^ 1) with 2 in Ee'.
    assert (0 <= to_Z e / 2 <= to_Z e)
      by (split; [apply Z.div_pos|apply Z.div_le_upper_bound]; lia).
    assert (to_Z e / 2 < 2 ^ Z.of_nat fuel) by (apply Z.div_lt_upper_bound; lia).
    apply (IH r' b' e' (if Z.odd (to_Z e) then j + k else j) (2 * k)); try done; try lia.
    - destruct (Z.odd (to_Z e)); lia.
    - rewrite Eb', Eb, <- Z.pow_add_r by lia. f_equal. lia.
    - rewrite Ee', <- EN. destruct (Z.odd (to_Z e)); nia.
    - pose proof (zlen_pos e He). pose proof (abs_lt_zlen e He).
      pose proof (zlen_le e' (zlen (limbs e)) He' ltac:(lia) ltac:(lia)). lia. }
  destruct (Z.odd (to_Z e)); [|by apply Hnext].
  pose proof (bigint_mul_computes r b Hr Hb) as K.
  destruct (bigint_mul r b) as [r'|err|]; cbn [mbind outcome_bind] in *; [|split|done].
  - destruct K as [K1 K2]. apply Hnext; [done|]. by rewrite K2, Er, Eb, <- Z.pow_add_r by lia.
  - apply K.
  - eapply refused_mono; [|apply K]. unfold mul_cap. nia.
Qed.

(** The limbs the largest product may need. *)
Definition exp_cap (base exp : bigint) : Z :=
  2 * to_Z exp * zlen (limbs base) + zlen (limbs exp) + 4.

Lemma bigint_exp_computes base exp one :
  wf base → wf exp → 0 <= to_Z exp → js_mkbigint (bytes "1") false = Ok one →
  computes (exp_cap base exp) (bigint_exp base exp) (to_Z base ^ to_Z exp).
Proof.
  intros Hb He Hn E1. unfold bigint_exp, bigint_is_negative, exp_cap.
  rewrite to_Z_sign, (proj2 (Z.ltb_ge (to_Z exp) 0)), bigint_is_zero_spec by done.
  pose proof (zlen_pos base Hb). pose proof (zlen_pos exp He).
  pose proof (computes_one 4 ltac:(lia)) as K1. rewrite E1 in *. destruct K1 as [K1 K2].
  destruct (Z.eqb_spec (to_Z exp) 0) as [Ez|Ez]; [by rewrite Ez|].
  rewrite bigint_limbs_wf by done.
  eapply (exp_loop_spec _ one base exp base 0 1); try done; try lia.
  pose proof (abs_lt_zlen exp He). rewrite base_pow_2 in * by lia. unfold zlen in *.
  rewrite Nat2Z.inj_mul. lia.
Qed.

End exponentiation.

(** The error value of a failed allocation of the constant 1 is used as a BigInt. *)
Lemma bigint_exp_unchecked `{Heap} base exp :
  wf exp → 0 < to_Z exp → Z.odd (to_Z exp) = true →
  js_mkbigint (bytes "1") false = Throw oom → bigint_exp base exp = Ub.
Proof.
  intros He Hn Ho E1. unfold bigint_exp, bigint_is_negative.
  rewrite to_Z_sign, (proj2 (Z.ltb_ge (to_Z exp) 0)), bigint_is_zero_spec by (done || lia).
  rewrite (proj2 (Z.eqb_neq (to_Z exp) 0)), bigint_limbs_wf, E1 by (done || lia).
  pose proof (wf_length exp He). destruct (32 * length (limbs exp))%nat eqn:El; [lia|].
  cbn [exp_loop]. rewrite bigint_is_zero_spec, (proj2 (Z.eqb_neq (to_Z exp) 0)) by (done || lia).
  by rewrite bigint_is_odd_spec, Ho.
Qed.

(** ** Wrapping to a number of bits *)

(** The integer of [bits] bits in two's complement that is congruent to [x]. *)
Definition wrap_signed (bits x : Z) : Z :=
  if bits =? 0 then 0 else (x + 2 ^ (bits - 1)) mod 2 ^ bits - 2 ^ (bits - 1).

Section wrapping.
Context `{Heap}.

Definition wrap_cap (v : bigint) (bits : Z) : Z := zlen (limbs v) + (bits >>' 5) + 4.

Lemma rem_to_mod x m : 0 < m → x mod m = Z.rem x m + (if Z.rem x m <? 0 then m else 0).
Proof.
  intros Hm. pose proof (Z.quot_rem' x m) as E. pose proof (Z.rem_bound_abs x m ltac:(lia)).
  case_ltb; symmetry.
  - apply (Z.mod_unique_pos _ _ (Z.quot x m - 1)); lia.
  - apply (Z.mod_unique_pos _ _ (Z.quot x m)); lia.
Qed.

Lemma zlen_pow2 m bits : wf m → 0 <= bits → to_Z m = 2 ^ bits → zlen (limbs m) <= (bits >>' 5) + 1.
Proof.
  intros Hm Hb E. assert (0 <= bits >>' 5) by (apply Z.shiftr_nonneg; lia).
  apply zlen_le; [done|lia|]. rewrite E, base_pow_2, Z.abs_eq by (try apply Z.pow_nonneg; lia).
  apply Z.pow_lt_mono_r; [lia..|]. pose proof (shift_split bits Hb). pose proof (shift_bit_range bits).
  lia.
Qed.

(** Reducing modulo a power of two; the rest [k] of the function sees both numbers. *)
Lemma reduce_mod v bits c (k : bigint → bigint → outcome bigint) y :
  wf v → 0 <= bits → wrap_cap v bits <= c →
  (∀ m r, wf m → to_Z m = 2 ^ bits → wf r → to_Z r = to_Z v mod 2 ^ bits →
          computes c (k m r) y) →
  computes c
    (m ← bigint_pow2 bits; res ← bigint_mod v m;
     res ← (if bigint_is_negative res then bigint_add res m else Ok res); k m res) y.
Proof.
  intros Hv Hb Hc Hk. unfold wrap_cap in Hc. assert (0 <= bits >>' 5) by (apply Z.shiftr_nonneg; lia).
  assert (0 < 2 ^ bits) by (apply Z.pow_pos_nonneg; lia). pose proof (zlen_pos v Hv).
  eapply computes_bind; [eapply computes_mono; [|by apply bigint_pow2_computes]; lia|].
  intros m Hm Em.
  eapply computes_bind;
    [eapply computes_mono; [|apply bigint_mod_computes;
       [done|done|lia|by apply (div_safe_pow2 _ _ bits)]]; lia|].
  intros r Hr Er. rewrite Em in Er. pose proof (rem_to_mod (to_Z v) (2 ^ bits) ltac:(done)) as Erm.
  unfold bigint_is_negative. rewrite to_Z_sign, Er by done.
  destruct (Z.ltb_spec (Z.rem (to_Z v) (2 ^ bits)) 0).
  - eapply computes_bind; [eapply computes_mono; [|by apply bigint_add_computes]|].
    { unfold sum_cap. pose proof (zlen_pow2 m bits Hm Hb Em). pose proof (abs_lt_zlen v Hv).
      pose proof (zlen_le r (zlen (limbs v)) Hr ltac:(lia)) as Hz. rewrite Er in Hz.
      pose proof (Z.rem_le (Z.abs (to_Z v)) (2 ^ bits) ltac:(lia) ltac:(lia)).
      rewrite Z.rem_abs_l in * by lia. specialize (Hz ltac:(lia)). lia. }
    intros r' Hr' Er'. apply Hk; [done..|]. lia.
  - apply Hk; [done..|]. lia.
Qed.

Lemma builtin_BigInt_asUintN_computes a0 bits v :
  bigint_asint_bits a0 = Ok bits → 0 <= bits → wf v →
  computes (wrap_cap v bits) (builtin_BigInt_asUintN [a0; JsBigInt v]) (to_Z v mod 2 ^ bits).
Proof.
  intros E Hb Hv. unfold builtin_BigInt_asUintN. rewrite E. cbn [mbind outcome_bind].
  assert (0 <= bits >>' 5) by (apply Z.shiftr_nonneg; lia). pose proof (zlen_pos v Hv).
  destruct (Z.eqb_spec bits 0) as [->|].
  { rewrite Z.mod_1_r. apply computes_zero. unfold wrap_cap. lia. }
  pose proof (reduce_mod v bits (wrap_cap v bits) (λ _ r, Ok r) (to_Z v mod 2 ^ bits) Hv Hb
    ltac:(lia)) as K. specialize (K ltac:(by intros; split)). revert K.
  destruct (bigint_pow2 bits) as [m| |]; cbn [mbind outcome_bind]; [|done..].
  destruct (bigint_mod v m) as [r| |]; cbn [mbind outcome_bind]; [|done..].
  destruct (bigint_is_negative r); [|done]. by destruct (bigint_add r m).
Qed.

Lemma wrap_signed_mod x bits :
  0 < bits →
  wrap_signed bits x
  = (if 2 ^ (bits - 1) <=? x mod 2 ^ bits then x mod 2 ^ bits - 2 ^ bits else x mod 2 ^ bits).
Proof.
  intros Hb. unfold wrap_signed. rewrite (proj2 (Z.eqb_neq bits 0)) by lia.
  assert (2 ^ bits = 2 * 2 ^ (bits - 1)) as E by (rewrite <- Z.pow_succ_r by lia; f_equal; lia).
  assert (0 < 2 ^ (bits - 1)) by (apply Z.pow_pos_nonneg; lia). rewrite E.
  set (h := 2 ^ (bits - 1)) in *. clearbody h. pose proof (Z.mod_pos_bound x (2 * h) ltac:(lia)).
  pose proof (Z.div_mod x (2 * h) ltac:(lia)). case_ltb.
  - rewrite <- (Z.mod_unique_pos (x + h) (2 * h) (x / (2 * h) + 1) (x mod (2 * h) - h)); lia.
  - rewrite <- (Z.mod_unique_pos (x + h) (2 * h) (x / (2 * h)) (x mod (2 * h) + h)); lia.
Qed.

Lemma builtin_BigInt_asIntN_computes a0 bits v :
  bigint_asint_bits a0 = Ok bits → 0 <= bits → wf v →
  computes (wrap_cap v bits) (builtin_BigInt_asIntN [a0; JsBigInt v])
    (wrap_signed bits (to_Z v)).
Proof.
  intros E Hb Hv. unfold builtin_BigInt_asIntN. rewrite E. cbn [mbind outcome_bind].
  assert (0 <= bits >>' 5) by (apply Z.shiftr_nonneg; lia). pose proof (zlen_pos v Hv).
  destruct (Z.eqb_spec bits 0) as [->|].
  { apply computes_zero. unfold wrap_cap. lia. }
  apply reduce_mod; [done|done|lia|]. intros m r Hm Em Hr Er.
  pose proof (zlen_pow2 m bits Hm Hb Em).
  assert (zlen (limbs r) <= (bits >>' 5) + 1).
  { pose proof (Z.mod_pos_bound (to_Z v) (2 ^ bits) ltac:(lia)).
    apply zlen_le; [done|lia|]. pose proof (abs_lt_zlen m Hm).
    pose proof (Z.pow_le_mono_r BIGINT_BASE (zlen (limbs m)) ((bits >>' 5) + 1) ltac:(done)
      ltac:(done)). lia. }
  eapply computes_bind; [eapply computes_mono; [|apply (bigint_pow2_computes (bits - 1)); lia]|].
  { unfold wrap_cap. rewrite !shiftr_div by lia.
    pose proof (Z.div_le_mono (bits - 1) bits (2 ^ 5) ltac:(lia) ltac:(lia)). lia. }
  intros t Ht Et. rewrite bigint_compare_sgn, wrap_signed_mod, <- Er, <- Em, <- Et by (done || lia).
  destruct (Z.leb_spec 0 (Z.sgn (to_Z r - to_Z t))), (Z.leb_spec (to_Z t) (to_Z r)); try lia; [|done].
  eapply computes_mono; [|by apply bigint_sub_computes]. unfold sum_cap, wrap_cap. lia.
Qed.

End wrapping.

(** ** Printing into a caller's buffer *)

Lemma store_app (a b : list Z) x y :
  store (a ++ x :: b) (length a) y = Ok (a ++ y :: b).
Proof.
  unfold store. rewrite decide_True by (rewrite length_app; simpl; lia).
  rewrite insert_app_r_alt by lia. by rewrite Nat.sub_diag.
Qed.

Lemma memcpy_at (a b src : list Z) n :
  length a = n → (length src <= length b)%nat →
  memcpy (a ++ b) n src = Ok (a ++ src ++ drop (length src) b).
Proof.
  intros <- Hl. unfold memcpy. rewrite (proj2 (Nat.leb_le _ _)) by (rewrite length_app; lia).
  rewrite take_app_length, drop_app_ge by lia. by replace (length a + length src - length a)%nat
    with (length src) by lia.
Qed.

(** Writing as much of [text] as fits before a terminator. *)
Definition fill (text buf : list Z) : list Z :=
  let n := Nat.min (length text) (length buf - 1) in
  take n text ++ 0 :: drop (S n) buf.

(** The digits and the terminator, after what is already there. *)
Lemma copy_terminate a b digits c :
  (1 <= length b)%nat → c = Nat.min (length digits) (length b - 1) →
  (buf ← (if (0 <? c)%nat then memcpy (a ++ b) (length a) (take c digits) else Ok (a ++ b));
   store buf (length a + c) 0)
  = Ok (a ++ take c digits ++ 0 :: drop (S c) b).
Proof.
  intros Hb Hc. assert (length (take c digits) = c) as Lc by (rewrite length_take; lia).
  assert ((if (0 <? c)%nat then memcpy (a ++ b) (length a) (take c digits) else Ok (a ++ b))
          = Ok (a ++ take c digits ++ drop c b)) as ->.
  { destruct (Nat.ltb_spec 0 c).
    - rewrite memcpy_at, Lc by (done || lia). done.
    - by replace c with 0%nat by lia. }
  cbn [mbind outcome_bind].
  destruct (drop c b) as [|y b'] eqn:Ed.
  { apply (f_equal length) in Ed. rewrite length_drop in Ed. simpl in Ed. lia. }
  assert (drop (S c) b = b') as ->.
  { replace (S c) with (c + 1)%nat by lia. by rewrite <- drop_drop, Ed. }
  pose proof (store_app (a ++ take c digits) b' y 0) as K. rewrite length_app, Lc in K.
  by rewrite <- !app_assoc in K.
Qed.

Lemma strbigint_spec `{Heap} v buf digits :
  wf v → bigint_abs_to_decimal_string (limbs v) = Ok digits →
  let text := (if to_Z v <? 0 then [45] else []) ++ digits in
  strbigint v buf = Ok (if (length buf =? 0)%nat then buf else fill text buf, zlen text).
Proof.
  intros Hv E. cbn zeta. unfold strbigint, bigint_is_negative.
  rewrite bigint_limbs_wf, E, to_Z_sign by done. cbn zeta.
  set (neg := to_Z v <? 0).
  assert (zlen ((if neg then [45] else []) ++ digits)
          = Z.of_nat (length digits + (if neg then 1 else 0))) as ->
    by (unfold zlen; destruct neg; simpl; lia).
  destruct buf as [|x buf]; [done|]. replace (length (x :: buf) =? 0)%nat with false by done.
  unfold fill. cbn zeta. rewrite length_app. destruct neg; simpl length.
  - destruct buf as [|y buf]; [done|].
    assert (store (x :: y :: buf) 0 45 = Ok (45 :: y :: buf)) as -> by apply (store_app []).
    simpl length. replace (0 <? S (S (length buf)) - 1)%nat with true by done.
    replace (1 <? S (S (length buf)))%nat with true by done. cbn [andb mbind outcome_bind].
    replace (S (S (length buf)) - 1 - 1)%nat with (length buf) by lia.
    set (c := if (length digits <? length buf)%nat then _ else _).
    assert (c = Nat.min (length digits) (length (y :: buf) - 1)) as Hc.
    { subst c. simpl. case_ltb; lia. }
    pose proof (copy_terminate [45] (y :: buf) digits c ltac:(simpl; lia) Hc) as K.
    rewrite (proj2 (Nat.leb_gt (S (S (length buf))) (1 + c))) by (simpl in Hc; lia).
    rewrite bind_assoc. simpl length in K. cbn [app] in K. rewrite K. cbn [mbind outcome_bind].
    simpl in Hc. rewrite Nat.sub_0_r in Hc.
    by replace (Nat.min (1 + length digits) (S (S (length buf)) - 1)) with (S c) by lia.
  - replace (0 <? S (length buf))%nat with true by done. cbn [andb mbind outcome_bind].
    replace (S (length buf) - 0 - 1)%nat with (length buf) by lia.
    set (c := if (length digits <? length buf)%nat then _ else _).
    assert (c = Nat.min (length digits) (length (x :: buf) - 1)) as Hc.
    { subst c. simpl. rewrite Nat.sub_0_r. case_ltb; lia. }
    pose proof (copy_terminate [] (x :: buf) digits c ltac:(simpl; lia) Hc) as K.
    rewrite (proj2 (Nat.leb_gt (S (length buf)) (0 + c))) by (simpl in Hc; lia).
    rewrite bind_assoc. simpl length in K. cbn [app] in K. rewrite K. cbn [mbind outcome_bind].
    simpl in Hc. rewrite Nat.sub_0_r in Hc.
    by replace (Nat.min (0 + length digits) (S (length buf) - 1)) with c by lia.
Qed.

(** ** BigInt(number) and the bit counts *)

Lemma fmt_0f_canonical n : 0 <= n → ∃ ds, fmt_0f n = dec_chars ds ∧ canonical 10 ds n.
Proof.
  intros Hn. unfold fmt_0f. apply dec_digits_spec; [lia|]. split; [done|].
  pose proof (Z.log2_nonneg n). rewrite Nat2Z.inj_succ, Z2Nat.id by done.
  assert (n < 2 ^ Z.succ (Z.log2 n)).
  { destruct (Z.eq_dec n 0) as [->|]; [done|]. apply Z.log2_spec. lia. }
  pose proof (Z.pow_le_mono_l 2 10 (Z.succ (Z.log2 n)) ltac:(lia)). lia.
Qed.

Lemma bigint_from_number `{Heap} neg m e :
  0 <= m → is_integral m e = true → malloc (zlen (fmt_0f (int_part m e)) + 1) = true →
  computes (digits_cap (zlen (fmt_0f (int_part m e)))) (bigint_from_value (JsNumber (Finite neg m e)))
    (if neg then - int_part m e else int_part m e).
Proof.
  intros Hm Hi Ha. unfold bigint_from_value. rewrite Hi, Ha. cbn [negb].
  assert (0 <= int_part m e) as Hp.
  { unfold int_part. case_ltb; [|apply Z.div_pos; [done|apply Z.pow_pos_nonneg; lia]].
    apply Z.mul_nonneg_nonneg; [done|apply Z.pow_nonneg; lia]. }
  destruct (fmt_0f_canonical _ Hp) as (ds & E & C).
  pose proof (bigint_from_string_digits_spec (fmt_0f (int_part m e)) (neg && negb (m =? 0)) true)
    as K.
  assert (numeral_value true (fmt_0f (int_part m e)) = Some (int_part m e)) as Ev
    by (rewrite E; by apply numeral_value_dec).
  rewrite Ev in K. unfold js_mkbigint.
  replace (if neg then - int_part m e else int_part m e)
    with (if neg && negb (m =? 0) then - int_part m e else int_part m e); [done|].
  destruct neg; [|done]. destruct (Z.eqb_spec m 0) as [->|]; [|done]. cbn [andb negb].
  unfold int_part. destruct (0 <=? e); [lia|]. by rewrite Zdiv_0_l.
Qed.

(** The largest bit count a number can ask for passes the range test although it does not fit
    [uint64_t]. *)
Lemma bigint_asint_bits_overflow : bigint_asint_bits (JsNumber (Finite false 1 64)) = Ub.
Proof. reflexivity. Qed.

(** Below that, the bit count is the number itself, and anything negative, fractional or
    larger is a RangeError. *)
Lemma bigint_asint_bits_number neg m e :
  0 <= m → int_part m e ≠ 2 ^ 64 →
  bigint_asint_bits (JsNumber (Finite neg m e))
  = if (neg && negb (m =? 0)) || negb (is_integral m e) || (2 ^ 64 <? int_part m e)
    then js_mkerr_typed JS_ERR_RANGE "Invalid bits" else Ok (int_part m e).
Proof.
  intros Hm Hne. unfold bigint_asint_bits.
  destruct (_ || negb (is_integral m e)); [done|]. cbn [orb].
  destruct (Z.ltb_spec (2 ^ 64) (int_part m e)); [done|].
  by rewrite (proj2 (Z.leb_gt (2 ^ 64) (int_part m e))) by lia.
Qed.

(** ** Statements *)

Section statements.
Context `{Heap}.

(** C20: [**] with a non-negative exponent returns the exact power, or reports a refused
    allocation, provided the constant 1 could be allocated; a negative exponent is a TypeError. *)
Theorem bigint_exp_correct base exp one :
  wf base → wf exp → js_mkbigint (bytes "1") false = Ok one →
  (to_Z exp < 0 → bigint_exp base exp = Throw (mk_js_err JS_ERR_TYPE "Exponent must be positive")) ∧
  (0 <= to_Z exp →
   computes (exp_cap base exp) (bigint_exp base exp) (to_Z base ^ to_Z exp)).
Proof.
  intros Hb He H1. split; [|intros Hn; by apply (bigint_exp_computes base exp one)].
  intros Hn. unfold bigint_exp, bigint_is_negative.
  by rewrite to_Z_sign, (proj2 (Z.ltb_lt _ _) Hn) by done.
Qed.

(** C22: fixed widths.  [BigInt.asUintN] is the value modulo [2^bits] and [BigInt.asIntN] its
    two's complement reading in [bits] bits, for every size of both; 64-bit integers become
    exactly their BigInt, and back they are taken modulo [2^64] in the wrapping form, exactly or
    not at all in the checked form. *)
Theorem bigint_fixed_width_correct a0 bits v u i :
  bigint_asint_bits a0 = Ok bits → 0 <= bits → wf v → 0 <= u < 2 ^ 64 → - 2 ^ 63 <= i < 2 ^ 63 →
  computes (wrap_cap v bits) (builtin_BigInt_asUintN [a0; JsBigInt v]) (to_Z v mod 2 ^ bits) ∧
  computes (wrap_cap v bits) (builtin_BigInt_asIntN [a0; JsBigInt v])
    (wrap_signed bits (to_Z v)) ∧
  computes 2 (bigint_from_uint64 u) u ∧ computes 2 (bigint_from_int64 i) i ∧
  bigint_to_uint64_wrapping v = to_Z v mod 2 ^ 64 ∧
  bigint_to_uint64_checked v
  = (if (0 <=? to_Z v) && (to_Z v <? 2 ^ 64) then Some (to_Z v) else None) ∧
  bigint_to_int64_checked v
  = (if (- 2 ^ 63 <=? to_Z v) && (to_Z v <? 2 ^ 63) then Some (to_Z v) else None).
Proof.
  intros E Hb Hv Hu Hi. split; [by apply builtin_BigInt_asUintN_computes|].
  split; [by apply builtin_BigInt_asIntN_computes|]. by apply bigint_int64_conversions.
Qed.


End statements.

Lemma bigint_exp_witness :
  let base := mk_bigint true [10] in let exp := mk_bigint false [11] in
  (to_Z exp < 0 → bigint_exp (H := roomy_heap) base exp = Throw (mk_js_err JS_ERR_TYPE "Exponent must be positive")) ∧
  (0 <= to_Z exp →
   computes (H := roomy_heap) 27 (bigint_exp (H := roomy_heap) base exp) (- 100000000000)).
Proof.
  apply (bigint_exp_correct (H := roomy_heap) (mk_bigint true [10]) (mk_bigint false [11])
    (mk_bigint false [1])); [solve_wf|solve_wf|reflexivity].
Defined.

Lemma bigint_fixed_width_witness :
  let v := mk_bigint true [1] in
  computes (H := roomy_heap) 7 (builtin_BigInt_asUintN (H := roomy_heap)
    [JsNumber (Finite false 1 6); JsBigInt v]) (2 ^ 64 - 1) ∧
  computes (H := roomy_heap) 7 (builtin_BigInt_asIntN (H := roomy_heap)
    [JsNumber (Finite false 1 6); JsBigInt v]) (-1) ∧
  computes (H := roomy_heap) 2 (bigint_from_uint64 (H := roomy_heap) 7) 7 ∧
  computes (H := roomy_heap) 2 (bigint_from_int64 (H := roomy_heap) (- 2 ^ 63)) (- 2 ^ 63) ∧
  bigint_to_uint64_wrapping v = 2 ^ 64 - 1 ∧
  bigint_to_uint64_checked v = None ∧ bigint_to_int64_checked v = Some (-1).
Proof.
  apply (bigint_fixed_width_correct (H := roomy_heap) (JsNumber (Finite false 1 6)) 64
    (mk_bigint true [1]) 7 (- 2 ^ 63)); [reflexivity|lia|solve_wf|lia|lia].
Defined.

