(* ===== verification/BigIntNumber.v ===== *)
(** * BigInt and IEEE doubles

    Models [bigint_to_double] with its bit helpers, and [bigint_from_integral_double], of
    src/modules/bigint.c.  The first is proved to round to nearest, ties to even, the second
    to be exact on integral doubles and an error on all others. *)

From S2P Require Import Prelude BigIntLimbs BigInt BigIntApi.

Definition BIGINT_DOUBLE_PRECISION : Z := 53.

Definition DBL_MAX_EXP : Z := 1024.

Definition bigint_extract_u64 (limbs : list Z) (bit_offset : Z) : Z :=
  let count := zlen limbs in
  let word := bit_offset / BIGINT_LIMB_SIZE in
  let shift := bit_offset mod BIGINT_LIMB_SIZE in
  let value := at_ limbs (Z.to_nat word) >>' shift in
  let value :=
    if word + 1 <? count
    then value |' u64 (at_ limbs (Z.to_nat (word + 1)) <<' (BIGINT_LIMB_SIZE - shift))
    else value in
  if negb (shift =? 0) && (word + 2 <? count)
  then value |' u64 (at_ limbs (Z.to_nat (word + 2)) <<' (64 - shift))
  else value.

Definition bigint_test_bit (limbs : list Z) (bit : Z) : bool :=
  let word := bit / BIGINT_LIMB_SIZE in
  if zlen limbs <=? word then false
  else negb ((at_ limbs (Z.to_nat word) >>' (bit mod BIGINT_LIMB_SIZE)) &' 1 =? 0).

Definition bigint_any_bits_below (limbs : list Z) (bit_count : Z) : bool :=
  let full_words := bit_count / BIGINT_LIMB_SIZE in
  if any_nonzero (take (Z.to_nat full_words) limbs) then true
  else
    let remaining := bit_count mod BIGINT_LIMB_SIZE in
    if (remaining =? 0) || (zlen limbs <=? full_words) then false
    else
      let mask := u32 (u32 (1 <<' remaining) - 1) in
      negb (at_ limbs (Z.to_nat full_words) &' mask =? 0).

Definition bigint_should_round_up (limbs : list Z) (discarded_bits significand : Z) : bool :=
  let halfway_bit := discarded_bits - 1 in
  if negb (bigint_test_bit limbs halfway_bit) then false
  else
    let above_halfway := bigint_any_bits_below limbs halfway_bit in
    let odd_significand := negb (significand &' 1 =? 0) in
    above_halfway || odd_significand.

(** The conversion of a significand of at most 53 bits to [double] and [ldexp] within the
    exponent range are exact. *)
Definition bigint_to_double (v : bigint) : number :=
  let limbs := bigint_limbs v in
  let bit_length := bigint_abs_bitlen_limbs limbs in
  if bit_length =? 0 then Finite false 0 0
  else
    let discarded_bits :=
      if BIGINT_DOUBLE_PRECISION <? bit_length
      then bit_length - BIGINT_DOUBLE_PRECISION else 0 in
    let significand := bigint_extract_u64 limbs discarded_bits in
    let '(significand, bit_length) :=
      if negb (discarded_bits =? 0) && bigint_should_round_up limbs discarded_bits significand
      then
        let significand := u64 (significand + 1) in
        if significand =? u64 (1 <<' BIGINT_DOUBLE_PRECISION)
        then (significand >>' 1, bit_length + 1)
        else (significand, bit_length)
      else (significand, bit_length) in
    let neg := bigint_is_negative v in
    if bit_length <=? BIGINT_DOUBLE_PRECISION then Finite neg significand 0
    else if DBL_MAX_EXP <? bit_length then Infinite neg
    else Finite neg significand (bit_length - BIGINT_DOUBLE_PRECISION).

(** The number a 64-bit pattern stands for. *)
Definition number_of_bits (bits : Z) : number :=
  let neg := negb (bits >>' 63 =? 0) in
  let exp_bits := (bits >>' 52) &' 0x7ff in
  let frac := bits &' 0x000fffffffffffff in
  if exp_bits =? 0x7ff then (if frac =? 0 then Infinite neg else NaN)
  else if exp_bits =? 0 then Finite neg frac (-1074)
  else Finite neg (frac + 2 ^ 52) (exp_bits - 1075).

Definition DOUBLE_LIMB_CAP : nat := 33.

(** [limbs[i] |= x]. *)
Definition or_at (limbs : list Z) (i : nat) (x : Z) : list Z := <[i := at_ limbs i |' x]> limbs.

Definition too_large {A} : outcome A := js_mkerr "BigInt is too large".

(** One round of the loop over the two halves of the mantissa. *)
Definition place_part (limbs : list Z) (part : Z) (dst : nat) (bit_shift : Z)
  : outcome (list Z) :=
  if part =? 0 then Ok limbs
  else if (DOUBLE_LIMB_CAP <=? dst)%nat then too_large
  else
    let limbs := or_at limbs dst (u32 (part <<' bit_shift)) in
    if bit_shift =? 0 then Ok limbs
    else if (DOUBLE_LIMB_CAP <=? dst + 1)%nat then too_large
    else Ok (or_at limbs (dst + 1) (part >>' (32 - bit_shift))).

Definition bigint_from_integral_double `{Heap} (bits : Z) : outcome bigint :=
  match number_of_bits bits with
  | Finite negative m e =>
      if negb (is_integral m e) then
        js_mkerr "Cannot convert non-integral double to BigInt"
      else if m =? 0 then bigint_from_uint64 0
      else
        let exp_bits := u32 ((bits >>' 52) &' 0x7ff) in
        if exp_bits =? 0 then bigint_from_uint64 0
        else
          let mantissa := (bits &' 0x000fffffffffffff) |' (1 <<' 52) in
          let exp := exp_bits - 1023 in
          if exp <? 52 then
            let magnitude := mantissa >>' (52 - exp) in
            js_mkbigint_limbs
              (take (if UINT32_MAX <? magnitude then 2 else 1)
                 [u32 (magnitude &' 0xffffffff); u32 (magnitude >>' 32)]) negative
          else
            let shift := exp - 52 in
            let word_shift := Z.to_nat (shift / 32) in
            let bit_shift := shift mod 32 in
            limbs ← place_part (replicate DOUBLE_LIMB_CAP 0) (u32 (mantissa &' 0xffffffff))
                      word_shift bit_shift;
            limbs ← place_part limbs (u32 (mantissa >>' 32)) (word_shift + 1) bit_shift;
            let count := bigint_normalize_limbs limbs DOUBLE_LIMB_CAP in
            js_mkbigint_limbs (take count limbs) negative
  | _ => js_mkerr "Cannot convert non-integral double to BigInt"
  end.

(** ** Bits of the limbs *)

Lemma val_div_pow l n : limbs_ok l → val l / BIGINT_BASE ^ Z.of_nat n = val (drop n l).
Proof.
  intros Hl. destruct (le_lt_dec n (length l)) as [Hn|Hn].
  - pose proof (val_bounds (take n l) ltac:(auto with limbs)) as Hb.
    rewrite length_take, Nat.min_l in Hb by lia. rewrite (val_take_drop n l Hn).
    by apply div_mod_digits.
  - rewrite drop_ge by lia. pose proof (val_bounds l Hl). apply Z.div_small. split; [lia|].
    pose proof (Z.pow_le_mono_r BIGINT_BASE (Z.of_nat (length l)) (Z.of_nat n) ltac:(done)
      ltac:(lia)). lia.
Qed.

Lemma val_mod_pow l n : limbs_ok l → val l mod BIGINT_BASE ^ Z.of_nat n = val (take n l).
Proof.
  intros Hl. pose proof (base_pow_pos n).
  pose proof (Z.div_mod (val l) (BIGINT_BASE ^ Z.of_nat n) ltac:(lia)) as E.
  rewrite val_div_pow in E by done. destruct (le_lt_dec n (length l)) as [Hn|Hn].
  - rewrite (val_take_drop n l Hn) in E at 1. lia.
  - rewrite drop_ge in E by lia. rewrite take_ge by lia. simpl in E. lia.
Qed.

(** A bit offset splits into a limb index and a bit of that limb. *)
Lemma val_div_bits l off :
  limbs_ok l → 0 <= off →
  val l / 2 ^ off = val (drop (Z.to_nat (off / 32)) l) / 2 ^ (off mod 32).
Proof.
  intros Hl Ho. pose proof (Z.div_mod off 32 ltac:(lia)) as E.
  pose proof (Z.mod_pos_bound off 32 ltac:(lia)). assert (0 <= off / 32) by (apply Z.div_pos; lia).
  rewrite E at 1. rewrite Z.pow_add_r, <- base_pow_2 by lia.
  rewrite <- Z.div_div by (try apply Z.pow_nonzero; try apply Z.pow_pos_nonneg; unfold BIGINT_BASE; lia).
  f_equal. rewrite <- (Z2Nat.id (off / 32)) at 1 by lia. by apply val_div_pow.
Qed.

Lemma lor_at_guard x l i s c :
  zlen l = c → x |' u64 (at_ l (Z.to_nat i) <<' s) = (if i <? c then x |' u64 (at_ l (Z.to_nat i) <<' s) else x).
Proof.
  intros <-. case_ltb; [done|]. unfold zlen in *. rewrite at_beyond by lia.
  by rewrite Z.shiftl_0_l, Z.lor_0_r.
Qed.

(** Three adjacent limbs, shifted down to one 64-bit word. *)
Lemma extract_word a b c R s :
  limb a → limb b → limb c → 0 < s < 32 →
  (a >>' s) |' u64 (b <<' (32 - s)) |' u64 (c <<' (64 - s))
  = (a + BIGINT_BASE * (b + BIGINT_BASE * (c + BIGINT_BASE * R))) / 2 ^ s mod 2 ^ 64.
Proof.
  intros Ha Hb Hc Hs. unfold limb in *. pose proof (pow2_range s Hs) as Hp.
  pose proof (pow2_compl s Hs) as Hpq.
  set (P := 2 ^ s) in *. set (Q := 2 ^ (32 - s)) in *.
  assert (2 ^ (64 - s) = BIGINT_BASE * Q) as HW.
  { subst Q. change BIGINT_BASE with (2 ^ 32). rewrite <- Z.pow_add_r by lia. f_equal. lia. }
  rewrite shiftr_div, !shiftl_mul by lia. fold P Q. rewrite HW.
  assert (0 < Q) by (apply Z.pow_pos_nonneg; lia).
  pose proof (Z.div_mod a P ltac:(lia)) as Ea. pose proof (Z.mod_pos_bound a P ltac:(lia)).
  assert (0 <= a / P < Q) by nia.
  assert (2 ^ 64 = BIGINT_BASE * Q * P) as H64 by (unfold BIGINT_BASE in *; nia).
  rewrite (u64_small (b * Q)) by nia.
  pose proof (lor_add_low b (a / P) (32 - s) ltac:(lia)) as K1. fold Q in K1.
  rewrite (Z.lor_comm (a / P)), K1 by lia.
  assert (u64 (c * (BIGINT_BASE * Q)) = (c mod P) * (BIGINT_BASE * Q)) as ->.
  { unfold u64. rewrite H64, (Z.mul_comm c), (Z.mul_comm (c mod P)). apply Z.mul_mod_distr_l; lia. }
  pose proof (lor_add_low (c mod P) (b * Q + a / P) (64 - s) ltac:(lia)) as K2. rewrite HW in K2.
  rewrite Z.lor_comm, K2 by nia.
  pose proof (Z.div_mod c P ltac:(lia)) as Ec. pose proof (Z.mod_pos_bound c P ltac:(lia)).
  apply (Z.mod_unique_pos _ _ (c / P + Q * R)); [nia|].
  symmetry. rewrite H64. apply Z.div_unique_pos with (a mod P); [lia|].
  rewrite Ea at 1. rewrite Ec at 1. rewrite <- Hpq. ring.
Qed.

Lemma bigint_extract_u64_spec l off :
  limbs_ok l → 0 <= off → bigint_extract_u64 l off = (val l / 2 ^ off) mod 2 ^ 64.
Proof.
  intros Hl Ho. unfold bigint_extract_u64, BIGINT_LIMB_SIZE. cbn zeta.
  rewrite val_div_bits by done. assert (0 <= off / 32) by (apply Z.div_pos; lia).
  pose proof (Z.mod_pos_bound off 32 ltac:(lia)). set (s := off mod 32) in *.
  rewrite <- lor_at_guard by done.
  replace (Z.to_nat (off / 32 + 1)) with (S (Z.to_nat (off / 32))) by lia.
  pose proof (lor_at_guard ((at_ l (Z.to_nat (off / 32)) >>' s)
    |' u64 (at_ l (S (Z.to_nat (off / 32))) <<' (32 - s))) l (off / 32 + 2) (64 - s) (zlen l)
    eq_refl) as G.
  replace (Z.to_nat (off / 32 + 2)) with (S (S (Z.to_nat (off / 32)))) in * by lia.
  set (w := Z.to_nat (off / 32)) in *. clearbody w s.
  rewrite (val_drop_S l w), (val_drop_S l (S w)), (val_drop_S l (S (S w))).
  pose proof (limbs_ok_at l w Hl) as L0. pose proof (limbs_ok_at l (S w) Hl) as L1.
  pose proof (limbs_ok_at l (S (S w)) Hl) as L2.
  destruct (Z.eqb_spec s 0) as [->|]; cbn [negb andb].
  - rewrite Z.shiftr_0_r, Z.sub_0_r, Z.div_1_r, lor_hi_lo by done.
    set (X := val _). replace (at_ l w + BIGINT_BASE * (at_ l (S w) + BIGINT_BASE * (at_ l (S (S w)) + BIGINT_BASE * X)))
      with (at_ l w + 2 ^ 32 * at_ l (S w) + 2 ^ 64 * (at_ l (S (S w)) + BIGINT_BASE * X))
      by (unfold BIGINT_BASE; ring).
    symmetry. apply div_mod_digits. unfold limb, BIGINT_BASE in *. lia.
  - rewrite <- G. by apply extract_word; [..|lia].
Qed.

(** The limb that holds a bit, as a part of the whole number. *)
Lemma limb_part l bit :
  limbs_ok l → 0 <= bit →
  let a := at_ l (Z.to_nat (bit / 32)) in
  let s := bit mod 32 in
  ∃ R, val (drop (Z.to_nat (bit / 32)) l) = a + 2 ^ s * 2 ^ (32 - s) * R ∧ 0 <= s < 32 ∧ limb a.
Proof.
  intros Hl Hb. cbn zeta. pose proof (Z.mod_pos_bound bit 32 ltac:(lia)).
  exists (val (drop (S (Z.to_nat (bit / 32))) l)).
  rewrite val_drop_S, <- Z.pow_add_r by lia.
  replace (2 ^ (bit mod 32 + (32 - bit mod 32))) with BIGINT_BASE
    by (rewrite Z.add_sub_assoc, Z.add_comm, Z.add_simpl_r; done).
  split; [done|]. split; [done|]. by apply limbs_ok_at.
Qed.

Lemma land_1_odd x : negb (x &' 1 =? 0) = Z.odd x.
Proof. rewrite (land_mask_eq x 1 1) by lia. change (2 ^ 1) with 2. rewrite Zmod_odd. by destruct (Z.odd x). Qed.

Lemma bigint_test_bit_spec l bit :
  limbs_ok l → 0 <= bit → bigint_test_bit l bit = Z.odd (val l / 2 ^ bit).
Proof.
  intros Hl Hb. unfold bigint_test_bit, BIGINT_LIMB_SIZE. cbn zeta.
  rewrite val_div_bits by done. destruct (limb_part l bit Hl Hb) as (R & E & Hs & Ha).
  assert (0 <= bit / 32) by (apply Z.div_pos; lia).
  destruct (Z.leb_spec (zlen l) (bit / 32)) as [Hle|].
  { rewrite drop_ge by (unfold zlen in Hle; lia). by rewrite Zdiv_0_l. }
  rewrite land_1_odd, shiftr_div, E by lia. set (s := bit mod 32) in *.
  rewrite <- Z.mul_assoc, (Z.mul_comm (2 ^ s)), Z.div_add by (apply Z.pow_nonzero; lia).
  replace (32 - s) with (Z.succ (31 - s)) by lia. rewrite Z.pow_succ_r by lia.
  rewrite Z.odd_add, !Z.odd_mul. simpl. by rewrite xorb_false_r.
Qed.

Lemma bigint_any_bits_below_spec l n :
  limbs_ok l → 0 <= n → bigint_any_bits_below l n = negb (val l mod 2 ^ n =? 0).
Proof.
  intros Hl Hn. unfold bigint_any_bits_below, BIGINT_LIMB_SIZE. cbn zeta.
  destruct (limb_part l n Hl Hn) as (R & E & Hs & Ha).
  assert (0 <= n / 32) by (apply Z.div_pos; lia). set (w := Z.to_nat (n / 32)) in *.
  set (s := n mod 32) in *. assert (0 < 2 ^ s) by (apply Z.pow_pos_nonneg; lia).
  assert (n = 32 * Z.of_nat w + s) as En by (subst w s; pose proof (Z.div_mod n 32 ltac:(lia)); lia).
  assert (val l mod 2 ^ n
          = val l mod BIGINT_BASE ^ Z.of_nat w
            + BIGINT_BASE ^ Z.of_nat w * (val (drop w l) mod 2 ^ s)) as Em.
  { rewrite En at 1. rewrite Z.pow_add_r, <- base_pow_2 by lia. rewrite <- val_div_pow by done.
    pose proof (base_pow_pos w). apply Z.rem_mul_r; lia. }
  rewrite Em, val_mod_pow, any_nonzero_val by auto with limbs. clear Em.
  pose proof (val_nonneg (take w l) ltac:(auto with limbs)). pose proof (base_pow_pos w).
  pose proof (Z.mod_pos_bound (val (drop w l)) (2 ^ s) ltac:(done)) as Hm.
  destruct (Z.eqb_spec (val (take w l)) 0) as [->|]; cbn [negb].
  2: { symmetry. apply negb_true_iff, Z.eqb_neq. nia. }
  assert (val (drop w l) mod 2 ^ s = at_ l w mod 2 ^ s) as Er.
  { rewrite E, <- Z.mul_assoc, (Z.mul_comm (2 ^ s)). apply Z.mod_add. lia. }
  assert ((0 + BIGINT_BASE ^ Z.of_nat w * (val (drop w l) mod 2 ^ s) =? 0)
          = (at_ l w mod 2 ^ s =? 0)) as ->.
  { rewrite <- Er. apply eq_true_iff_eq. rewrite !Z.eqb_eq. nia. }
  destruct (Z.eqb_spec s 0) as [Es|]; cbn [orb]; [rewrite Es, Z.mod_1_r; done|].
  destruct (Z.leb_spec (zlen l) (n / 32)) as [Hle|].
  { unfold zlen in Hle. by rewrite at_beyond, Zmod_0_l by lia. }
  pose proof (pow2_range s ltac:(lia)). rewrite shiftl_mul, Z.mul_1_l, (u32_small (2 ^ s)), u32_small by lia.
  by rewrite land_mask by lia.
Qed.

(** ** Rounding *)

(** [x / 2^d] rounded to the nearest integer, a tie to the even one. *)
Definition round_half_even (x d : Z) : Z :=
  let q := x / 2 ^ d in
  let r := x mod 2 ^ d in
  if 2 * r <? 2 ^ d then q
  else if 2 ^ d <? 2 * r then q + 1
  else if Z.even q then q else q + 1.

(** The double nearest to a natural number, [None] for infinity. *)
Definition round_double (z : Z) : option Z :=
  if z <? 2 ^ 53 then Some z
  else
    let d := Z.log2 z - 52 in
    let r := round_half_even z d * 2 ^ d in
    if r <? 2 ^ 1024 then Some r else None.

Lemma round_double_exact z : z < 2 ^ 53 → round_double z = Some z.
Proof. intros Hz. unfold round_double. by rewrite (proj2 (Z.ltb_lt _ _)) by done. Qed.

Lemma bigint_should_round_up_spec l d :
  limbs_ok l → 1 <= d →
  val l / 2 ^ d + (if bigint_should_round_up l d (val l / 2 ^ d) then 1 else 0)
  = round_half_even (val l) d.
Proof.
  intros Hl Hd. unfold bigint_should_round_up, round_half_even. cbn zeta.
  rewrite bigint_test_bit_spec, bigint_any_bits_below_spec, land_1_odd by (done || lia).
  assert (2 ^ d = 2 ^ (d - 1) * 2) as E.
  { rewrite Z.mul_comm, <- Z.pow_succ_r by lia. f_equal. lia. }
  assert (0 < 2 ^ (d - 1)) by (apply Z.pow_pos_nonneg; lia). rewrite E.
  set (h := 2 ^ (d - 1)) in *. set (x := val l). clearbody h x. clear E.
  rewrite <- Z.div_div by lia. rewrite Z.rem_mul_r, Zmod_odd by lia.
  pose proof (Z.mod_pos_bound x h ltac:(lia)). rewrite <- Z.negb_odd.
  destruct (Z.odd (x / h)) eqn:Eo; cbn [negb].
  - destruct (Z.ltb_spec (2 * (x mod h + h * 1)) (h * 2)); [lia|].
    destruct (Z.ltb_spec (h * 2) (2 * (x mod h + h * 1))), (Z.eqb_spec (x mod h) 0); cbn [negb orb]; try lia.
    destruct (Z.odd (x / h / 2)); cbn [negb]; lia.
  - destruct (Z.ltb_spec (2 * (x mod h + h * 0)) (h * 2)); lia.
Qed.

(** The distance of a rounded quotient is at most half a unit, and exactly half only for an
    even one. *)
Lemma round_half_even_nearest x d :
  0 <= d → let q := round_half_even x d in
  2 * Z.abs (x - q * 2 ^ d) <= 2 ^ d ∧ (2 * Z.abs (x - q * 2 ^ d) = 2 ^ d → Z.even q = true) ∧
  x / 2 ^ d <= q <= x / 2 ^ d + 1.
Proof.
  intros Hd. unfold round_half_even. cbn zeta.
  assert (0 < 2 ^ d) by (apply Z.pow_pos_nonneg; lia).
  pose proof (Z.div_mod x (2 ^ d) ltac:(lia)) as E. pose proof (Z.mod_pos_bound x (2 ^ d) ltac:(lia)).
  set (q := x / 2 ^ d) in *. set (r := x mod 2 ^ d) in *. set (P := 2 ^ d) in *. clearbody q r P.
  destruct (Z.ltb_spec (2 * r) P); [nia|]. destruct (Z.ltb_spec P (2 * r)); [nia|].
  assert (2 * r = P) by lia. destruct (Z.even q) eqn:Eq; [split; [nia|]; split; [done|lia]|].
  split; [nia|]. split; [|lia]. intros _. by rewrite Z.even_add, Eq.
Qed.

(** The doubles that are non-negative integers, each in one form: [m * 2 ^ e] is below 2^53, or
    has 53 significant bits. *)
Definition integral_double (m e : Z) : Prop := 0 <= m < 2 ^ 53 ∧ 0 <= e <= 971 ∧ (e = 0 ∨ 2 ^ 52 <= m).

(** [d] is the double nearest to the integer [x]: none is nearer, and of two that are equally near
    it is the one with the even significand; infinite from the midpoint above the largest finite
    double on.  Doubles that are no integers need not be looked at: an integer below 2^53 is a
    double, and above they are further away than 2^53. *)
Definition nearest_double (x : Z) (d : number) : Prop :=
  let n := Z.abs x in
  match d with
  | Finite neg m e =>
      neg = (x <? 0) ∧ n < 2 ^ 1024 - 2 ^ 970 ∧ integral_double m e ∧
      ∀ m' e', integral_double m' e' →
        Z.abs (n - m * 2 ^ e) <= Z.abs (n - m' * 2 ^ e') ∧
        (Z.abs (n - m * 2 ^ e) = Z.abs (n - m' * 2 ^ e') → m' * 2 ^ e' = m * 2 ^ e ∨ Z.even m = true)
  | Infinite neg => neg = (x <? 0) ∧ 2 ^ 1024 - 2 ^ 970 <= n
  | NaN => False
  end.

(** A multiple of the spacing within half of it is nearer than every other. *)
Lemma nearest_multiple n P q k :
  0 < P → 2 * Z.abs (n - q * P) <= P →
  Z.abs (n - q * P) <= Z.abs (n - k * P) ∧ (Z.abs (n - q * P) = Z.abs (n - k * P) → k = q ∨ 2 * Z.abs (n - q * P) = P).
Proof.
  intros HP Hq. destruct (Z.eq_dec k q) as [->|Hne]; [lia|].
  assert (P <= Z.abs (k * P - q * P)) as Hd by (rewrite <- Z.mul_sub_distr_r, Z.abs_mul, (Z.abs_eq P) by lia; nia). lia.
Qed.

(** From one power of two to the next, doubles are the multiples of the spacing. *)
Lemma nearest_in_binade n d q m' e' :
  1 <= d → 2 ^ (d + 52) <= n < 2 ^ (d + 53) → 2 * Z.abs (n - q * 2 ^ d) <= 2 ^ d → integral_double m' e' →
  Z.abs (n - q * 2 ^ d) <= Z.abs (n - m' * 2 ^ e') ∧
  (Z.abs (n - q * 2 ^ d) = Z.abs (n - m' * 2 ^ e') → m' * 2 ^ e' = q * 2 ^ d ∨ 2 * Z.abs (n - q * 2 ^ d) = 2 ^ d).
Proof.
  intros Hd Hn Hq (Hm & He & _). assert (0 < 2 ^ d) as HP by (apply Z.pow_pos_nonneg; lia).
  destruct (Z.le_gt_cases d e') as [Hle|Hlt].
  - replace (m' * 2 ^ e') with (m' * 2 ^ (e' - d) * 2 ^ d) by (rewrite <- Z.mul_assoc, <- Z.pow_add_r by lia; do 2 f_equal; lia).
    destruct (nearest_multiple n (2 ^ d) q (m' * 2 ^ (e' - d)) HP Hq) as [H1 H2]. split; [done|]. intros E. destruct (H2 E) as [->|?]; auto.
  - destruct (nearest_multiple n (2 ^ d) q (2 ^ 52) HP Hq) as [H1 _]. rewrite Z.pow_add_r in Hn by lia.
    assert (2 * 2 ^ e' <= 2 ^ d) by (rewrite <- Z.pow_succ_r by lia; apply Z.pow_le_mono_r; lia).
    assert (m' * 2 ^ e' < 2 ^ 53 * 2 ^ e') by (apply Z.mul_lt_mono_pos_r; [apply Z.pow_pos_nonneg; lia|lia]). lia.
Qed.

(** The significand and bit length after rounding [n] of [L] bits. *)
Definition rounded (n L : Z) : Z * Z :=
  let q := round_half_even n (L - 53) in
  if q =? 2 ^ 53 then (2 ^ 52, L + 1) else (q, L).

Lemma quotient_53 n d : 1 <= d → 2 ^ (d + 52) <= n < 2 ^ (d + 53) → 2 ^ 52 <= n / 2 ^ d < 2 ^ 53.
Proof.
  intros Hd Hn. rewrite !Z.pow_add_r in Hn by lia. assert (0 < 2 ^ d) by (apply Z.pow_pos_nonneg; lia).
  split; [apply Z.div_le_lower_bound|apply Z.div_lt_upper_bound]; lia.
Qed.

Lemma rounded_spec n L m L' :
  54 <= L → 2 ^ (L - 1) <= n < 2 ^ L → rounded n L = (m, L') →
  let e := L' - 53 in
  L <= L' <= L + 1 ∧ 2 ^ 52 <= m < 2 ^ 53 ∧ 2 * Z.abs (n - m * 2 ^ e) <= 2 ^ e ∧
  (2 * Z.abs (n - m * 2 ^ e) = 2 ^ e → Z.even m = true) ∧
  (L' = L + 1 ↔ 2 ^ L - 2 ^ (L - 54) <= n).
Proof.
  intros HL Hn. unfold rounded. cbn zeta. pose proof (quotient_53 n (L - 53) ltac:(lia)) as Hq.
  replace (L - 53 + 52) with (L - 1) in Hq by lia. replace (L - 53 + 53) with L in Hq by lia.
  specialize (Hq Hn). destruct (round_half_even_nearest n (L - 53) ltac:(lia)) as (R1 & R2 & R3).
  cbn zeta in *. set (q := round_half_even n (L - 53)) in *. clearbody q.
  assert (2 ^ L = 2 ^ 53 * 2 ^ (L - 53)) as E1 by (rewrite <- Z.pow_add_r by lia; f_equal; lia).
  assert (2 ^ (L - 53) = 2 * 2 ^ (L - 54)) as E2 by (rewrite <- Z.pow_succ_r by lia; f_equal; lia).
  set (P := 2 ^ (L - 53)) in *. set (h := 2 ^ (L - 54)) in *.
  assert (0 < h) by (apply Z.pow_pos_nonneg; lia).
  destruct (Z.eqb_spec q (2 ^ 53)) as [->|Hne]; intros [= <- <-].
  - replace (2 ^ (L + 1 - 53)) with (2 * P)
      by (subst P; rewrite <- Z.pow_succ_r by lia; f_equal; lia).
    replace (n - 2 ^ 52 * (2 * P)) with (n - 2 ^ 53 * P) by lia.
    split; [lia|]. split; [lia|]. split; [lia|]. split; [done|]. split; [|lia].
    intros _. rewrite E1. lia.
  - split; [lia|]. split; [lia|]. split; [done|]. split; [done|]. split; [lia|].
    intros Hge. exfalso. rewrite E1 in Hge. destruct (Z.eq_dec q (2 ^ 53 - 1)) as [Eq|].
    + rewrite Eq in *. discriminate R2. lia.
    + assert ((q + 2) * P <= 2 ^ 53 * P) by (apply Z.mul_le_mono_nonneg_r; lia). lia.
Qed.

(** What is rounded to is a multiple of the spacing within half of it. *)
Lemma rounded_multiple n L m L' :
  54 <= L → 2 ^ (L - 1) <= n < 2 ^ L → rounded n L = (m, L') →
  ∃ q, m * 2 ^ (L' - 53) = q * 2 ^ (L - 53) ∧ 2 * Z.abs (n - q * 2 ^ (L - 53)) <= 2 ^ (L - 53) ∧
    (2 * Z.abs (n - q * 2 ^ (L - 53)) = 2 ^ (L - 53) → Z.even m = true).
Proof.
  intros HL Hn. unfold rounded. cbn zeta. destruct (round_half_even_nearest n (L - 53) ltac:(lia)) as (R1 & R2 & _).
  cbn zeta in *. set (q := round_half_even n (L - 53)) in *. clearbody q. exists q.
  destruct (Z.eqb_spec q (2 ^ 53)) as [->|Hne]; simplify_eq; [|by split_and!].
  replace (L + 1 - 53) with (Z.succ (L - 53)) by lia. rewrite Z.pow_succ_r by lia. split; [lia|]. by split.
Qed.

(** The value computed before the sign and the range are looked at. *)
Lemma to_double_significand l L :
  limbs_ok l → val l ≠ 0 → L = Z.log2 (val l) + 1 →
  let d := if BIGINT_DOUBLE_PRECISION <? L then L - BIGINT_DOUBLE_PRECISION else 0 in
  let s := bigint_extract_u64 l d in
  (if negb (d =? 0) && bigint_should_round_up l d s
   then let s := u64 (s + 1) in
        if s =? u64 (1 <<' BIGINT_DOUBLE_PRECISION) then (s >>' 1, L + 1) else (s, L)
   else (s, L))
  = if 53 <? L then rounded (val l) L else (val l, L).
Proof.
  intros Hl Hz HL. unfold BIGINT_DOUBLE_PRECISION. cbn zeta. pose proof (val_nonneg l Hl).
  pose proof (Z.log2_spec (val l) ltac:(lia)) as Hlog. pose proof (Z.log2_nonneg (val l)).
  replace (Z.log2 (val l)) with (L - 1) in * by lia. replace (Z.succ (L - 1)) with L in Hlog by lia.
  destruct (Z.ltb_spec 53 L) as [Hgt|Hle].
  - pose proof (quotient_53 (val l) (L - 53) ltac:(lia)) as Hq.
    replace (L - 53 + 52) with (L - 1) in Hq by lia. replace (L - 53 + 53) with L in Hq by lia.
    specialize (Hq Hlog). rewrite bigint_extract_u64_spec, Z.mod_small by (done || lia).
    rewrite (proj2 (Z.eqb_neq (L - 53) 0)) by lia. cbn [negb andb]. unfold rounded. cbn zeta.
    rewrite <- bigint_should_round_up_spec by (done || lia).
    destruct (bigint_should_round_up _ _ _).
    + rewrite u64_small by lia. change (u64 (1 <<' 53)) with (2 ^ 53).
      destruct (Z.eqb_spec (val l / 2 ^ (L - 53) + 1) (2 ^ 53)) as [->|]; [|done].
      done.
    + rewrite Z.add_0_r, (proj2 (Z.eqb_neq _ (2 ^ 53))) by lia. done.
  - cbn [negb andb Z.eqb]. rewrite bigint_extract_u64_spec, Z.div_1_r, Z.mod_small; try done.
    pose proof (Z.pow_le_mono_r 2 L 53 ltac:(lia) Hle). lia.
Qed.

(** The rounded value leaves the exponent range exactly from the overflow threshold on. *)
Lemma overflow_threshold n L L' :
  L <= L' <= L + 1 → 2 ^ (L - 1) <= n < 2 ^ L → 54 <= L →
  (L' = L + 1 ↔ 2 ^ L - 2 ^ (L - 54) <= n) →
  1024 < L' ↔ 2 ^ 1024 - 2 ^ 970 <= n.
Proof.
  intros HL Hn H54 H. assert (0 < 2 ^ 970) by done.
  assert (2 ^ 1023 < 2 ^ 1024 - 2 ^ 970) by done.
  destruct (Z.lt_trichotomy L 1024) as [Hlt|[->|Hgt]].
  - pose proof (Z.pow_le_mono_r 2 L 1023 ltac:(lia) ltac:(lia)). lia.
  - change (1024 - 54) with 970 in H. lia.
  - pose proof (Z.pow_le_mono_r 2 1024 (L - 1) ltac:(lia) ltac:(lia)). lia.
Qed.

Lemma bigint_to_double_nearest v : wf v → nearest_double (to_Z v) (bigint_to_double v).
Proof.
  intros Hv. unfold bigint_to_double, nearest_double, bigint_is_negative. cbn zeta.
  rewrite bigint_limbs_wf, bigint_abs_bitlen_limbs_spec by (apply wf_length || apply wf_limbs || done; done).
  rewrite to_Z_sign, <- to_Z_abs by done. pose proof (wf_limbs v Hv) as Hl.
  pose proof (val_nonneg _ Hl). pose proof (to_Z_zero v Hv) as Hzero.
  destruct (Z.eqb_spec (val (limbs v)) 0) as [Ez|Ez].
  { rewrite Z.eqb_refl, (proj2 Hzero Ez). split; [done|]. rewrite Ez. split; [done|]. split; [split; lia|].
    intros m' e' (Hm & He & _). pose proof (Z.pow_pos_nonneg 2 e' ltac:(lia) ltac:(lia)). split; [lia|]. by right. }
  set (L := Z.log2 (val (limbs v)) + 1). pose proof (Z.log2_nonneg (val (limbs v))).
  rewrite (proj2 (Z.eqb_neq L 0)) by lia. rewrite to_double_significand by done.
  pose proof (Z.log2_spec (val (limbs v)) ltac:(lia)) as Hlog.
  replace (Z.log2 (val (limbs v))) with (L - 1) in Hlog by lia.
  replace (Z.succ (L - 1)) with L in Hlog by lia. clearbody L. set (n := val (limbs v)) in *.
  unfold BIGINT_DOUBLE_PRECISION, DBL_MAX_EXP. destruct (Z.ltb_spec 53 L) as [Hgt|Hle].
  2: { rewrite (proj2 (Z.leb_le L 53)) by done. split; [done|].
       pose proof (Z.pow_le_mono_r 2 L 53 ltac:(lia) Hle). split; [lia|]. split; [split; lia|].
       intros m' e' _. rewrite Z.pow_0_r, Z.mul_1_r, Z.sub_diag. split; [lia|]. left. lia. }
  destruct (rounded n L) as [m L'] eqn:E. destruct (rounded_multiple n L m L' ltac:(lia) Hlog E) as (q & Eq & Hq & Htie).
  apply rounded_spec in E as (R1 & R2 & _ & _ & R5); [|lia|done]. cbn zeta in *.
  rewrite (proj2 (Z.leb_gt L' 53)) by lia.
  destruct (Z.ltb_spec 1024 L') as [Hinf|Hfin].
  - split; [done|]. by apply (overflow_threshold n L L' R1 Hlog ltac:(lia) R5).
  - split; [done|]. split; [pose proof (overflow_threshold n L L' R1 Hlog ltac:(lia) R5); lia|].
    split; [split; [lia|]; split; [lia|]; right; lia|]. intros m' e' Hd. rewrite Eq.
    destruct (nearest_in_binade n (L - 53) q m' e') as [H1 H2]; [lia| |done|done|].
    { replace (L - 53 + 52) with (L - 1) by lia. by replace (L - 53 + 53) with L by lia. }
    split; [done|]. intros Ed. destruct (H2 Ed) as [?|?]; auto.
Qed.

(** ** From a double *)

Lemma at_app_length (a b : list Z) : at_ (a ++ b) (length a) = hd 0 b.
Proof. rewrite at_app_r, Nat.sub_diag by lia. by destruct b. Qed.

Lemma or_at_app (a b : list Z) x y : or_at (a ++ x :: b) (length a) y = a ++ (x |' y) :: b.
Proof.
  unfold or_at. rewrite at_app_length, insert_app_r_alt by lia. by rewrite Nat.sub_diag.
Qed.

(** A half of the mantissa lands in two adjacent limbs. *)
Lemma place_part_spec pre a b post part bs n :
  limb part → 0 <= bs < 32 → n = length pre → (n + 1 < DOUBLE_LIMB_CAP)%nat →
  place_part (pre ++ a :: b :: post) part n bs
  = Ok (pre ++ (a |' u32 (part <<' bs)) :: (b |' (part >>' (32 - bs))) :: post).
Proof.
  intros Hp Hbs -> Hl. unfold place_part, limb, BIGINT_BASE in *.
  destruct (Z.eqb_spec part 0) as [->|].
  { by rewrite Z.shiftl_0_l, Z.shiftr_0_l, !Z.lor_0_r. }
  rewrite (proj2 (Nat.leb_gt _ (length pre))), (proj2 (Nat.leb_gt _ (length pre + 1))) by lia.
  rewrite or_at_app. destruct (Z.eqb_spec bs 0) as [->|].
  - by rewrite Z.sub_0_r, shiftr_div, Z.div_small, Z.lor_0_r by lia.
  - rewrite (cons_middle (a |' _)), app_assoc.
    replace (length pre + 1)%nat with (length (pre ++ [a |' u32 (part <<' bs)]))
      by (rewrite length_app; simpl; lia).
    by rewrite or_at_app, <- app_assoc.
Qed.

(** The digits of [part * 2^bs]. *)
Lemma place_digits part bs :
  limb part → 0 <= bs < 32 →
  u32 (part <<' bs) + BIGINT_BASE * (part >>' (32 - bs)) = part * 2 ^ bs ∧
  0 <= part >>' (32 - bs) < 2 ^ bs ∧ ∃ k, u32 (part <<' bs) = k * 2 ^ bs.
Proof.
  intros Hp Hbs. rewrite shiftl_mul, shiftr_div by lia.
  assert (BIGINT_BASE = 2 ^ bs * 2 ^ (32 - bs)) as E.
  { rewrite <- Z.pow_add_r by lia. by replace (bs + (32 - bs)) with 32 by lia. }
  assert (0 < 2 ^ bs) by (apply Z.pow_pos_nonneg; lia).
  assert (0 < 2 ^ (32 - bs)) by (apply Z.pow_pos_nonneg; lia).
  set (Q := 2 ^ (32 - bs)) in *. set (P := 2 ^ bs) in *. unfold u32.
  change (2 ^ 32) with BIGINT_BASE. rewrite E. clearbody P Q.
  rewrite (Z.mul_comm part), Z.mul_mod_distr_l by lia.
  pose proof (Z.div_mod part Q ltac:(lia)). unfold limb in Hp. rewrite E in Hp.
  split; [nia|]. split; [split; [apply Z.div_pos; lia|apply Z.div_lt_upper_bound; lia]|].
  exists (part mod Q). lia.
Qed.

Lemma place_value ws lo hi bs n :
  limb lo → limb hi → 0 <= bs < 32 →
  let l := replicate ws 0 ++ [u32 (lo <<' bs); (lo >>' (32 - bs)) |' u32 (hi <<' bs);
                              hi >>' (32 - bs)] ++ replicate n 0 in
  limbs_ok l ∧ val l = (lo + BIGINT_BASE * hi) * (BIGINT_BASE ^ Z.of_nat ws * 2 ^ bs).
Proof.
  intros Hlo Hhi Hbs. cbn zeta.
  destruct (place_digits lo bs Hlo Hbs) as (L1 & L2 & _).
  destruct (place_digits hi bs Hhi Hbs) as (H1 & H2 & k & H3).
  assert (2 ^ bs <= 2 ^ 31) by (apply Z.pow_le_mono_r; lia).
  pose proof (u32_range (hi <<' bs)).
  assert ((lo >>' (32 - bs)) |' u32 (hi <<' bs) = (lo >>' (32 - bs)) + u32 (hi <<' bs)) as ->.
  { rewrite Z.lor_comm, H3, lor_add_low by lia. lia. }
  assert (limb (lo >>' (32 - bs) + u32 (hi <<' bs))).
  { unfold limb, BIGINT_BASE. rewrite H3 in *.
    assert (2 ^ 32 = 2 ^ (32 - bs) * 2 ^ bs) as E by (rewrite <- Z.pow_add_r by lia; f_equal; lia).
    assert (k + 1 <= 2 ^ (32 - bs)) by nia. nia. }
  split.
  - apply limbs_ok_app. split; [auto with limbs|]. apply limbs_ok_app. split; [|auto with limbs].
    constructor; [auto with limbs|]. constructor; [done|]. constructor; [|constructor].
    unfold limb, BIGINT_BASE. lia.
  - rewrite !val_app, !val_replicate_0, length_replicate. simpl val. nia.
Qed.

Section from_double.
Context `{Heap}.

(** A magnitude below [2^53], as one limb or two. *)
Lemma small_magnitude m neg :
  0 <= m < 2 ^ 53 →
  computes 2 (js_mkbigint_limbs (take (if UINT32_MAX <? m then 2 else 1)
      [u32 (m &' 0xffffffff); u32 (m >>' 32)]) neg) (if neg then - m else m).
Proof.
  intros Hm. replace (if UINT32_MAX <? m then 2%nat else 1%nat)
    with (if u32 (m >>' 32) =? 0 then 1%nat else 2%nat); [apply u64_limbs; lia|].
  unfold UINT32_MAX. rewrite shiftr_div by lia.
  destruct (Z.eqb_spec (u32 (m / 2 ^ 32)) 0), (Z.ltb_spec (2 ^ 32 - 1) m); try done; word.
Qed.

(** A mantissa scaled by [2^e]. *)
Lemma scaled_mantissa m e neg :
  2 ^ 52 <= m < 2 ^ 53 → 0 <= e <= 971 →
  computes 33
    (limbs ← place_part (replicate DOUBLE_LIMB_CAP 0) (u32 (m &' 0xffffffff))
               (Z.to_nat (e / 32)) (e mod 32);
     limbs ← place_part limbs (u32 (m >>' 32)) (Z.to_nat (e / 32) + 1) (e mod 32);
     js_mkbigint_limbs (take (bigint_normalize_limbs limbs DOUBLE_LIMB_CAP) limbs) neg)
    (if neg then - (m * 2 ^ e) else m * 2 ^ e).
Proof.
  intros Hm He. pose proof (Z.div_mod e 32 ltac:(lia)) as E.
  pose proof (Z.mod_pos_bound e 32 ltac:(lia)) as Hbs.
  assert (0 <= e / 32 <= 30) by lia. set (ws := Z.to_nat (e / 32)) in *. set (bs := e mod 32) in *.
  assert (ws <= 30)%nat by lia.
  assert (replicate DOUBLE_LIMB_CAP 0 = replicate ws 0 ++ 0 :: 0 :: 0 :: replicate (30 - ws) 0) as ->.
  { change (0 :: 0 :: 0 :: replicate (30 - ws) 0) with (replicate (S (S (S (30 - ws)))) 0).
    rewrite <- replicate_add. f_equal. unfold DOUBLE_LIMB_CAP. lia. }
  set (lo := u32 (m &' 0xffffffff)). set (hi := u32 (m >>' 32)).
  assert (lo + BIGINT_BASE * hi = m) as Em.
  { subst lo hi. rewrite land_0xffffffff, shiftr_div by lia. unfold BIGINT_BASE. word. }
  rewrite place_part_spec; [|apply limb_u32|done|by rewrite length_replicate|unfold DOUBLE_LIMB_CAP; lia].
  cbn [mbind outcome_bind]. rewrite !Z.lor_0_l.
  rewrite (cons_middle (u32 _)), app_assoc.
  rewrite place_part_spec; [|apply limb_u32|done|rewrite length_app, length_replicate; simpl; lia
    |unfold DOUBLE_LIMB_CAP; lia].
  cbn [mbind outcome_bind]. rewrite Z.lor_0_l, <- app_assoc. cbn [app].
  destruct (place_value ws lo hi bs (30 - ws) (limb_u32 _) (limb_u32 _) Hbs) as [P1 P2].
  cbn [app] in P1, P2. set (l := replicate ws 0 ++ _) in *.
  assert (length l = DOUBLE_LIMB_CAP) as Ll.
  { subst l. rewrite length_app, length_replicate. simpl. rewrite length_replicate.
    unfold DOUBLE_LIMB_CAP. lia. }
  clearbody l. rewrite Em in P2. rewrite <- Ll. fold (norm l).
  assert (val l = m * 2 ^ e) as <-.
  { rewrite P2, base_pow_2, <- Z.pow_add_r by lia. do 2 f_equal. subst ws. lia. }
  rewrite <- norm_val. pose proof (normalize_le l (length l)).
  pose proof (proj1 (norm_normalized l ltac:(rewrite Ll; unfold DOUBLE_LIMB_CAP; lia))).
  eapply computes_mono; [|apply js_mkbigint_limbs_spec; [by apply norm_ok|done]].
  unfold zlen. rewrite length_norm. unfold DOUBLE_LIMB_CAP in *. lia.
Qed.

(** The fields of a pattern. *)
Lemma number_of_bits_fields bits :
  let x := (bits >>' 52) &' 0x7ff in
  let f := bits &' 0x000fffffffffffff in
  0 <= x < 2 ^ 11 ∧ 0 <= f < 2 ^ 52 ∧ f |' (1 <<' 52) = f + 2 ^ 52.
Proof.
  cbn zeta. rewrite (land_mask_eq _ 0x7ff 11), (land_mask_eq _ 0x000fffffffffffff 52) by lia.
  pose proof (Z.mod_pos_bound (bits >>' 52) (2 ^ 11) ltac:(lia)).
  pose proof (Z.mod_pos_bound bits (2 ^ 52) ltac:(lia)). split; [done|]. split; [done|].
  rewrite Z.lor_comm. change (1 <<' 52) with (1 * 2 ^ 52). rewrite lor_add_low by lia. lia.
Qed.

Lemma bigint_from_integral_double_spec bits :
  match number_of_bits bits with
  | Finite neg m e =>
      if is_integral m e
      then computes 33 (bigint_from_integral_double bits)
             (if neg then - int_part m e else int_part m e)
      else bigint_from_integral_double bits
           = js_mkerr "Cannot convert non-integral double to BigInt"
  | _ => bigint_from_integral_double bits
         = js_mkerr "Cannot convert non-integral double to BigInt"
  end.
Proof.
  unfold bigint_from_integral_double, number_of_bits. cbn zeta.
  destruct (number_of_bits_fields bits) as (X & F & ->). cbn zeta in *.
  set (x := (bits >>' 52) &' 0x7ff) in *. set (f := bits &' 0x000fffffffffffff) in *.
  set (neg := negb (bits >>' 63 =? 0)). clearbody x f neg. rewrite u32_small by lia.
  assert (∀ m, m = 0 → (if neg then - m else m) = 0) as Hzero by (intros m ->; by destruct neg).
  destruct (Z.eqb_spec x 0x7ff); [by destruct (f =? 0)|].
  destruct (Z.eqb_spec x 0) as [->|Hx].
  - destruct (is_integral f (-1074)) eqn:Ei; [|done]. cbn [negb].
    replace (if f =? 0 then bigint_from_uint64 0 else bigint_from_uint64 0)
      with (bigint_from_uint64 0) by by destruct (f =? 0).
    rewrite Hzero; [apply (computes_mono 2); [lia|]; apply bigint_from_uint64_computes; lia|].
    unfold int_part. rewrite (proj2 (Z.leb_gt 0 (-1074))) by lia. apply Z.div_small.
    pose proof (Z.pow_lt_mono_r 2 52 (- -1074) ltac:(lia) ltac:(lia) ltac:(lia)). lia.
  - destruct (is_integral (f + 2 ^ 52) (x - 1075)) eqn:Ei; [|done]. cbn [negb].
    rewrite (proj2 (Z.eqb_neq (f + 2 ^ 52) 0)) by lia. unfold int_part.
    destruct (Z.ltb_spec (x - 1023) 52), (Z.leb_spec 0 (x - 1075)); try lia.
    + replace (52 - (x - 1023)) with (- (x - 1075)) by lia. rewrite shiftr_div by lia.
      apply (computes_mono 2); [lia|]. apply small_magnitude.
      assert (0 < 2 ^ (- (x - 1075))) by (apply Z.pow_pos_nonneg; lia).
      split; [apply Z.div_pos; lia|]. apply Z.div_lt_upper_bound; nia.
    + replace (x - 1023 - 52) with (x - 1075) by lia. apply scaled_mantissa; lia.
Qed.

End from_double.

(** ** Statements *)

(** C23: [Number(bigint)] is the nearest double: no double is nearer to the value, of two that
    are equally near it is the one with the even significand, and it is infinite exactly from the
    IEEE overflow threshold on.  An integral double becomes exactly its integer, whatever its exponent; every
    other double is refused with a TypeError. *)
Theorem bigint_double_correct `{Heap} v bits :
  wf v →
  nearest_double (to_Z v) (bigint_to_double v) ∧
  match number_of_bits bits with
  | Finite neg m e =>
      if is_integral m e
      then computes 33 (bigint_from_integral_double bits)
             (if neg then - int_part m e else int_part m e)
      else bigint_from_integral_double bits
           = js_mkerr "Cannot convert non-integral double to BigInt"
  | _ => bigint_from_integral_double bits
         = js_mkerr "Cannot convert non-integral double to BigInt"
  end.
Proof. intros Hv. split; [by apply bigint_to_double_nearest|apply bigint_from_integral_double_spec]. Qed.

Lemma bigint_double_witness : nearest_double (2 ^ 53 + 1) (Finite false (2 ^ 52) 1).
Proof.
  refine (proj1 (bigint_double_correct (H := roomy_heap) (mk_bigint false [1; 2097152]) 0 _)). solve_wf.
Defined.
