(* ===== verification/Utf8.v ===== *)
(** * UTF-8: sequences, validation, Latin-1

    Models the byte-level helpers of src/utf8.c and include/utf8.h: [utf8_sequence_length],
    [utf8_char_len_at], [utf8_strlen], [utf8_validate_bytes], [latin1_to_utf8],
    [utf8_to_latin1].  [enc] is the encoding of the Unicode standard, the specification the
    theorems compare them with, and [Utf8proc] what the library of that name promises. *)

From S2P Require Import Prelude Utils.

(** ** The program *)

Definition utf8_sequence_length (first_byte : Z) : Z :=
  if first_byte &' 0x80 =? 0 then 1
  else if first_byte &' 0xE0 =? 0xC0 then 2
  else if first_byte &' 0xF0 =? 0xE0 then 3
  else if first_byte &' 0xF8 =? 0xF0 then 4
  else -1.

Definition utf8_char_len_at (str : list Z) (pos : nat) : nat :=
  let byte_len := length str in
  if (byte_len <=? pos)%nat then 1%nat
  else
    let seq := utf8_sequence_length (at_ str pos) in
    if seq <=? 0 then 1%nat
    else if (byte_len <? pos + Z.to_nat seq)%nat then (byte_len - pos)%nat
    else Z.to_nat seq.

(** The loops below look at the bytes that are left, and each round consumes at least one, so
    as many rounds as bytes are enough. *)
Fixpoint strlen_loop (rounds : nat) (p : list Z) : Z :=
  match rounds, p with
  | S rounds, c :: _ =>
      let seq_len := utf8_sequence_length c in
      if (seq_len <=? 0) || (zlen p <? seq_len) then 1 + strlen_loop rounds (drop 1 p)
      else 1 + strlen_loop rounds (drop (Z.to_nat seq_len) p)
  | _, _ => 0
  end.

Definition utf8_strlen (str : list Z) : Z := strlen_loop (length str) str.

(** How many continuation bytes a lead byte takes, and the range of the first of them. *)
Definition lead_range (c : Z) : option (nat * Z * Z) :=
  if (0xc2 <=? c) && (c <=? 0xdf) then Some (1%nat, 0x80, 0xbf)
  else if c =? 0xe0 then Some (2%nat, 0xa0, 0xbf)
  else if (0xe1 <=? c) && (c <=? 0xec) then Some (2%nat, 0x80, 0xbf)
  else if c =? 0xed then Some (2%nat, 0x80, 0x9f)
  else if (c =? 0xee) || (c =? 0xef) then Some (2%nat, 0x80, 0xbf)
  else if c =? 0xf0 then Some (3%nat, 0x90, 0xbf)
  else if (0xf1 <=? c) && (c <=? 0xf3) then Some (3%nat, 0x80, 0xbf)
  else if c =? 0xf4 then Some (3%nat, 0x80, 0x8f)
  else None.

(** One round of [utf8_validate_bytes]: [None] for [return false], or what is left. *)
Definition validate_round (s : list Z) : option (list Z) :=
  match s with
  | [] => Some []
  | c :: s' =>
      if c <? 0x80 then Some s'
      else
        match lead_range c with
        | None => None
        | Some (cont, lo, hi) =>
            if (length s <=? cont)%nat then None
            else if (at_ s 1 <? lo) || (hi <? at_ s 1) then None
            else if existsb (λ x, (x <? 0x80) || (0xbf <? x)) (take (cont - 1) (drop 2 s))
            then None
            else Some (drop (cont + 1) s)
        end
  end.

Fixpoint validate_loop (rounds : nat) (s : list Z) : bool :=
  match rounds, s with
  | _, [] => true
  | O, _ => false
  | S rounds, _ =>
      match validate_round s with
      | None => false
      | Some s => validate_loop rounds s
      end
  end.

Definition utf8_validate_bytes (str : list Z) : bool := validate_loop (length str) str.

(** The bytes written, NULL being [Throw]; a write past the buffer is [Ub]. *)
Definition latin1_to_utf8 `{Heap} (src : list Z) : outcome (list Z) :=
  let len := zlen src in
  if (2 ^ 64 - 1) / 2 <? len then returns_null
  else
    let size := if len =? 0 then 1 else len * 2 in
    if negb (malloc size) then returns_null
    else
      let out := concat ((λ byte, if byte <? 0x80 then [byte]
        else [u8 (0xc0 |' (byte >>' 6)); u8 (0x80 |' (byte &' 0x3f))]) <$> src) in
      if size <? zlen out then Ub else Ok out.

(** The bytes from [src] on, or [None] for text that is not Latin-1. *)
Fixpoint latin1_loop (rounds : nat) (src : list Z) : option (list Z) :=
  match rounds, src with
  | _, [] => Some []
  | O, _ => None
  | S rounds, first :: rest =>
      if first <? 0x80 then cons first <$> latin1_loop rounds rest
      else
        match rest with
        | second :: rest' =>
            if ((first =? 0xc2) || (first =? 0xc3)) && (second &' 0xc0 =? 0x80)
            then cons (u8 (((first &' 0x1f) <<' 6) |' (second &' 0x3f)))
                   <$> latin1_loop rounds rest'
            else None
        | [] => None
        end
  end.

(** The buffer, and [*is_latin1]. *)
Definition utf8_to_latin1 `{Heap} (src : list Z) : option (list Z) * bool :=
  if negb (malloc (if zlen src =? 0 then 1 else zlen src)) then (None, true)
  else
    match latin1_loop (length src) src with
    | Some out => (Some out, true)
    | None => (None, false)
    end.

(** ** The standard *)

Definition scalar (cp : Z) : Prop := 0 <= cp < 0xd800 ∨ 0xe000 <= cp < 0x110000.

Definition enc (cp : Z) : list Z :=
  if cp <? 0x80 then [cp]
  else if cp <? 0x800 then [0xc0 + cp / 64; 0x80 + cp mod 64]
  else if cp <? 0x10000 then [0xe0 + cp / 4096; 0x80 + cp / 64 mod 64; 0x80 + cp mod 64]
  else [0xf0 + cp / 262144; 0x80 + cp / 4096 mod 64; 0x80 + cp / 64 mod 64; 0x80 + cp mod 64].

Definition encode (cps : list Z) : list Z := concat (enc <$> cps).

(** ** Encoded characters *)

Lemma enc_byte_ok cp : 0 <= cp < 0x110000 → Forall byte_ok (enc cp).
Proof.
  intros Hc. unfold enc, byte_ok. repeat case_ltb; repeat constructor; word.
Qed.

Lemma enc_length cp : (1 <= length (enc cp) <= 4)%nat.
Proof. unfold enc. repeat case_ltb; simpl; lia. Qed.

(** Any lead and continuation bytes in range are the encoding of the number they spell. *)
Lemma enc_2 a b :
  0xc2 <= a <= 0xdf → 0x80 <= b <= 0xbf → enc ((a - 0xc0) * 64 + (b - 0x80)) = [a; b].
Proof.
  intros Ha Hb. set (cp := (a - 0xc0) * 64 + (b - 0x80)). unfold enc.
  rewrite (proj2 (Z.ltb_ge cp 0x80)), (proj2 (Z.ltb_lt cp 0x800)) by lia.
  subst cp. repeat f_equal; word.
Qed.

Lemma enc_3 a b c :
  0xe0 <= a <= 0xef → 0x80 <= b <= 0xbf → 0x80 <= c <= 0xbf → (a = 0xe0 → 0xa0 <= b) →
  enc ((a - 0xe0) * 4096 + (b - 0x80) * 64 + (c - 0x80)) = [a; b; c].
Proof.
  intros Ha Hb Hc Hx. set (cp := (a - 0xe0) * 4096 + (b - 0x80) * 64 + (c - 0x80)). unfold enc.
  rewrite (proj2 (Z.ltb_ge cp 0x80)), (proj2 (Z.ltb_ge cp 0x800)),
    (proj2 (Z.ltb_lt cp 0x10000)) by lia.
  subst cp. repeat f_equal; word.
Qed.

Lemma enc_4 a b c d :
  0xf0 <= a <= 0xf4 → 0x80 <= b <= 0xbf → 0x80 <= c <= 0xbf → 0x80 <= d <= 0xbf →
  (a = 0xf0 → 0x90 <= b) →
  enc ((a - 0xf0) * 262144 + (b - 0x80) * 4096 + (c - 0x80) * 64 + (d - 0x80)) = [a; b; c; d].
Proof.
  intros Ha Hb Hc Hd Hx.
  set (cp := (a - 0xf0) * 262144 + (b - 0x80) * 4096 + (c - 0x80) * 64 + (d - 0x80)). unfold enc.
  rewrite (proj2 (Z.ltb_ge cp 0x80)), (proj2 (Z.ltb_ge cp 0x800)),
    (proj2 (Z.ltb_ge cp 0x10000)) by lia.
  subst cp. repeat f_equal; word.
Qed.

(** ** Validation *)

(** What one round accepts, as a relation on the bytes. *)
Inductive wellformed : list Z → Prop :=
  | wf_1 a : 0 <= a < 0x80 → wellformed [a]
  | wf_2 a b : 0xc2 <= a <= 0xdf → 0x80 <= b <= 0xbf → wellformed [a; b]
  | wf_3 a b c : 0xe0 <= a <= 0xef → 0x80 <= b <= 0xbf → 0x80 <= c <= 0xbf →
      (a = 0xe0 → 0xa0 <= b) → (a = 0xed → b <= 0x9f) → wellformed [a; b; c]
  | wf_4 a b c d : 0xf0 <= a <= 0xf4 → 0x80 <= b <= 0xbf → 0x80 <= c <= 0xbf →
      0x80 <= d <= 0xbf → (a = 0xf0 → 0x90 <= b) → (a = 0xf4 → b <= 0x8f) →
      wellformed [a; b; c; d].

Lemma wellformed_enc w : wellformed w ↔ ∃ cp, scalar cp ∧ w = enc cp.
Proof.
  unfold scalar. split.
  - destruct 1 as [a Ha|a b|a b c|a b c d].
    + exists a. split; [lia|]. unfold enc. by rewrite (proj2 (Z.ltb_lt a 0x80)) by lia.
    + exists ((a - 0xc0) * 64 + (b - 0x80)). rewrite enc_2 by done. split; [lia|done].
    + exists ((a - 0xe0) * 4096 + (b - 0x80) * 64 + (c - 0x80)). rewrite enc_3 by done.
      split; [lia|done].
    + exists ((a - 0xf0) * 262144 + (b - 0x80) * 4096 + (c - 0x80) * 64 + (d - 0x80)).
      rewrite enc_4 by done. split; [lia|done].
  - intros (cp & Hcp & ->). unfold enc. repeat case_ltb; constructor; word.
Qed.

Lemma lead_range_spec c :
  lead_range c
  = if (0xc2 <=? c) && (c <=? 0xdf) then Some (1%nat, 0x80, 0xbf)
    else if (0xe0 <=? c) && (c <=? 0xef)
    then Some (2%nat, if c =? 0xe0 then 0xa0 else 0x80, if c =? 0xed then 0x9f else 0xbf)
    else if (0xf0 <=? c) && (c <=? 0xf4)
    then Some (3%nat, if c =? 0xf0 then 0x90 else 0x80, if c =? 0xf4 then 0x8f else 0xbf)
    else None.
Proof. unfold lead_range. repeat (case_ltb; try lia; cbn [andb orb]). all: done. Qed.

Lemma in_range_spec x lo hi : (x <? lo) || (hi <? x) = false ↔ lo <= x <= hi.
Proof. rewrite orb_false_iff, !Z.ltb_ge. lia. Qed.

Lemma in_range_if x (b c : bool) lo lo' hi hi' :
  lo <= lo' → hi' <= hi →
  (x <? if b then lo' else lo) || ((if c then hi' else hi) <? x) = false ↔
  lo <= x <= hi ∧ (b = true → lo' <= x) ∧ (c = true → x <= hi').
Proof. intros. rewrite in_range_spec. destruct b, c; intuition lia. Qed.

Lemma wellformed_round w rest : wellformed w → validate_round (w ++ rest) = Some rest.
Proof.
  destruct 1 as [a|a b|a b c|a b c d]; cbn [app validate_round];
    (destruct (Z.ltb_spec a 0x80); [try done; lia|try lia]);
    rewrite lead_range_spec; unfold at_;
    cbn [length nth drop take Nat.sub Nat.add existsb]; rewrite ?take_0, ?drop_0;
    repeat match goal with |- context [a =? ?k] => destruct (Z.eqb_spec a k); try lia end;
    repeat (case_ltb; try lia; cbn [andb orb drop take Nat.sub Nat.add existsb nth]);
    rewrite ?take_0, ?drop_0; repeat (case_ltb; try lia; cbn [andb orb existsb]); done.
Qed.

Lemma validate_round_iff s rest :
  Forall byte_ok s → s ≠ [] →
  validate_round s = Some rest ↔ ∃ w, wellformed w ∧ s = w ++ rest.
Proof.
  intros Hs Hne. split; [|intros (w & Hw & ->); by apply wellformed_round].
  destruct Hs as [|a s Ha Hs]; [done|]. unfold byte_ok in Ha. unfold validate_round.
  destruct (Z.ltb_spec a 0x80); [intros [= <-]; exists [a]; split; [constructor; lia|done]|].
  rewrite lead_range_spec.
  destruct ((0xc2 <=? a) && (a <=? 0xdf)) eqn:E2; [|destruct ((0xe0 <=? a) && (a <=? 0xef)) eqn:E3;
    [|destruct ((0xf0 <=? a) && (a <=? 0xf4)) eqn:E4; [|done]]];
  (destruct (_ <=? _)%nat eqn:Hl; [done|apply Nat.leb_gt in Hl]);
  (destruct (_ || _) eqn:Er; [done|]);
  (destruct (existsb _ _) eqn:Ee; [done|]); intros [= <-];
  rewrite existsb_false in Ee.
  - apply in_range_spec in Er. destruct s as [|b s]; [simpl in Hl; lia|].
    exists [a; b]. split; [|done]. unfold at_ in Er; simpl in Er. constructor; lia.
  - apply in_range_if in Er as (Er1 & Er2 & Er3); [|lia..]. unfold at_ in *.
    destruct s as [|b [|c s]]; simpl in Hl; try lia. inversion Ee as [|?? Hc]; subst.
    apply in_range_spec in Hc. exists [a; b; c]. split; [|done]. simpl in *.
    constructor; try lia; intros ->; auto.
  - apply in_range_if in Er as (Er1 & Er2 & Er3); [|lia..]. unfold at_ in *.
    destruct s as [|b [|c [|d s]]]; simpl in Hl; try lia.
    inversion Ee as [|?? Hc Hd]; subst. inversion Hd as [|?? Hd']; subst.
    apply in_range_spec in Hc, Hd'. exists [a; b; c; d]. split; [|done]. simpl in *.
    constructor; try lia; intros ->; auto.
Qed.

(** Exactly the encodings of Unicode scalar values are accepted. *)
Lemma validate_loop_iff rounds s :
  Forall byte_ok s → (length s <= rounds)%nat →
  validate_loop rounds s = true ↔ ∃ cps, Forall scalar cps ∧ s = encode cps.
Proof.
  revert s. induction rounds as [|rounds IH]; intros s Hs Hr.
  { destruct s; [|simpl in Hr; lia]. split; [by exists []|done]. }
  destruct s as [|c s]; [split; [by exists []|done]|].
  change (validate_loop (S rounds) (c :: s)) with
    (match validate_round (c :: s) with None => false | Some s => validate_loop rounds s end).
  assert (∀ cps, Forall scalar cps → c :: s = encode cps →
    ∃ cps', Forall scalar cps' ∧ validate_round (c :: s) = Some (encode cps')) as Hinv.
  { intros [|cp cps] Hc Ec; [done|]. inversion Hc; subst. exists cps. split; [done|].
    rewrite Ec. apply wellformed_round, wellformed_enc. eauto. }
  destruct (validate_round (c :: s)) as [rest|] eqn:E.
  - apply validate_round_iff in E as (w & Hw & E); [|done..].
    apply wellformed_enc in Hw as (cp & Hcp & ->). pose proof (enc_length cp) as Hl.
    rewrite E, length_app in Hr. rewrite E in Hs. apply Forall_app in Hs as [_ Hs].
    rewrite IH by (done || lia). split.
    + intros (cps & Hc & ->). exists (cp :: cps). split; [by constructor|done].
    + intros (cps & Hc & Ec). destruct (Hinv cps Hc Ec) as (cps' & ? & [= ->]). eauto.
  - split; [done|]. intros (cps & Hc & Ec). by destruct (Hinv cps Hc Ec) as (? & _ & ?).
Qed.

Lemma utf8_validate_bytes_iff s :
  Forall byte_ok s →
  utf8_validate_bytes s = true ↔ ∃ cps, Forall scalar cps ∧ s = encode cps.
Proof. intros Hs. by apply validate_loop_iff. Qed.

(** ** The library

    [utf8proc] is a third-party library; the class states what two of its functions are
    documented to do.  [utf8proc_encode_char]: the bytes it writes, none when it returns 0.
    [utf8proc_iterate]: the length of the sequence at the head of the bytes and its code point,
    [None] for an error. *)
Class Utf8proc := {
  utf8proc_encode_char : Z → list Z;
  utf8proc_encode_char_law cp : scalar cp → utf8proc_encode_char cp = enc cp;
  utf8proc_iterate : list Z → option (nat * Z);
  utf8proc_iterate_law cp rest :
    scalar cp → utf8proc_iterate (enc cp ++ rest) = Some (length (enc cp), cp)
}.

(** The library as the standard has it. *)
Definition standard_iterate (s : list Z) : option (nat * Z) :=
  match s with
  | [] => None
  | a :: _ =>
      rest ← validate_round s;
      let n := (length s - length rest)%nat in
      let t k := at_ s k - 0x80 in
      Some (n, match n with
               | 1%nat => a
               | 2%nat => (a - 0xc0) * 64 + t 1%nat
               | 3%nat => (a - 0xe0) * 4096 + t 1%nat * 64 + t 2%nat
               | _ => (a - 0xf0) * 262144 + t 1%nat * 4096 + t 2%nat * 64 + t 3%nat
               end)
  end.

Lemma standard_iterate_enc cp rest :
  scalar cp → standard_iterate (enc cp ++ rest) = Some (length (enc cp), cp).
Proof.
  intros Hs. pose proof (wellformed_round (enc cp) rest) as Hr. unfold standard_iterate.
  destruct (enc cp ++ rest) as [|a s] eqn:E.
  { apply (f_equal length) in E. pose proof (enc_length cp). rewrite length_app in E. simpl in E. lia. }
  rewrite Hr by (apply wellformed_enc; eauto). cbn [mbind option_bind]. cbv zeta.
  assert (length (a :: s) - length rest = length (enc cp))%nat as -> by (rewrite <- E, length_app; lia).
  f_equal. f_equal. revert E. unfold scalar in Hs. unfold enc.
  repeat case_ltb; cbn [length app]; intros [= <- <-]; unfold at_; cbn [nth]; word.
Qed.

Definition standard_utf8proc : Utf8proc :=
  {| utf8proc_encode_char := enc; utf8proc_encode_char_law := λ _ _, eq_refl;
     utf8proc_iterate := standard_iterate; utf8proc_iterate_law := standard_iterate_enc |}.

(** ** Lengths *)

Lemma utf8_sequence_length_ranges b :
  byte_ok b →
  utf8_sequence_length b
  = if b <? 0x80 then 1 else if b <? 0xc0 then -1 else if b <? 0xe0 then 2
    else if b <? 0xf0 then 3 else if b <? 0xf8 then 4 else -1.
Proof.
  apply (byte_eq utf8_sequence_length (λ b, if b <? 0x80 then 1 else if b <? 0xc0 then -1
    else if b <? 0xe0 then 2 else if b <? 0xf0 then 3 else if b <? 0xf8 then 4 else -1)).
  vm_compute. reflexivity.
Qed.

(** The lead byte of an encoded character announces its length. *)
Lemma enc_lead cp :
  0 <= cp < 0x110000 →
  ∃ b w, enc cp = b :: w ∧ byte_ok b ∧ utf8_sequence_length b = zlen (enc cp).
Proof.
  intros Hc. unfold enc. repeat case_ltb; eexists _, _; (split; [done|]);
    (split; [unfold byte_ok; word|]);
    rewrite utf8_sequence_length_ranges by (unfold byte_ok; word);
    unfold zlen; cbn [length]; repeat case_ltb; word.
Qed.

Lemma strlen_loop_enc cps rounds :
  Forall (λ cp, 0 <= cp < 0x110000) cps → (length (encode cps) <= rounds)%nat →
  strlen_loop rounds (encode cps) = zlen cps.
Proof.
  intros Hc. revert rounds. induction Hc as [|cp cps Hcp Hc IH]; intros rounds Hr.
  { by destruct rounds. }
  destruct (enc_lead cp Hcp) as (b & w & E & Hb & Hl).
  change (encode (cp :: cps)) with (enc cp ++ encode cps) in *. pose proof (enc_length cp).
  rewrite length_app in Hr. destruct rounds as [|rounds]; [lia|].
  rewrite E at 1. cbn [strlen_loop app]. rewrite Hl. unfold zlen in *.
  assert (b :: w ++ encode cps = enc cp ++ encode cps) as -> by by rewrite E.
  rewrite length_app, (proj2 (Z.leb_gt _ 0)), (proj2 (Z.ltb_ge _ _)) by lia.
  cbn [orb]. rewrite Nat2Z.id, drop_app_length, IH by lia. simpl length. lia.
Qed.

Lemma utf8_strlen_encode cps :
  Forall (λ cp, 0 <= cp < 0x110000) cps → utf8_strlen (encode cps) = zlen cps.
Proof. intros Hc. by apply strlen_loop_enc. Qed.

(** ** Latin-1 *)

Lemma latin1_encode_byte b :
  byte_ok b →
  (if b <? 0x80 then [b] else [u8 (0xc0 |' (b >>' 6)); u8 (0x80 |' (b &' 0x3f))]) = enc b.
Proof.
  intros Hb. apply (bool_decide_eq_true_1 (_ = _)). revert b Hb. apply byte_cases.
  vm_compute. reflexivity.
Qed.

Lemma latin1_to_utf8_encode `{Heap} src :
  Forall byte_ok src → 2 * zlen src <= 2 ^ 64 - 2 →
  latin1_to_utf8 src = Ok (encode src)
  ∨ latin1_to_utf8 src = returns_null ∧ malloc (if zlen src =? 0 then 1 else zlen src * 2) = false.
Proof.
  intros Hs Hl. unfold latin1_to_utf8. cbn zeta.
  rewrite (proj2 (Z.ltb_ge ((2 ^ 64 - 1) / 2) (zlen src))) by (apply Z.div_le_lower_bound; lia).
  destruct (malloc _) eqn:Em; cbn [negb]; [|by right]. left.
  assert (concat ((λ b, if b <? 0x80 then [b]
    else [u8 (0xc0 |' (b >>' 6)); u8 (0x80 |' (b &' 0x3f))]) <$> src) = encode src) as ->.
  { unfold encode. f_equal. apply list_fmap_ext. intros i b E.
    apply latin1_encode_byte. by apply (Forall_lookup_1 _ _ _ _ Hs E). }
  assert (zlen (encode src) <= 2 * zlen src) as Hle.
  { clear Em Hl. unfold zlen. induction Hs as [|b src Hb Hs IH]; [simpl; lia|].
    change (encode (b :: src)) with (enc b ++ encode src). rewrite length_app. simpl length.
    assert (length (enc b) <= 2)%nat; [|lia]. unfold enc. unfold byte_ok in Hb.
    repeat case_ltb; simpl; lia. }
  unfold zlen in *. destruct (Z.eqb_spec (Z.of_nat (length src)) 0).
  - destruct src; [done|simpl in *; lia].
  - by rewrite (proj2 (Z.ltb_ge _ _)) by lia.
Qed.

Lemma continuation_byte b : byte_ok b → (b &' 0xc0 =? 0x80) = (0x80 <=? b) && (b <=? 0xbf).
Proof.
  intros Hb. apply eqb_prop. revert b Hb. apply byte_cases. vm_compute. reflexivity.
Qed.

Lemma latin1_decode_pair a b :
  a = 0xc2 ∨ a = 0xc3 → byte_ok b → 0x80 <= b <= 0xbf →
  u8 (((a &' 0x1f) <<' 6) |' (b &' 0x3f)) = (a - 0xc0) * 64 + (b - 0x80).
Proof.
  intros Ha Hb Hr. apply Z.eqb_eq.
  assert (∀ b, byte_ok b → ((b <? 0x80) || (0xbf <? b)
    || (u8 (((a &' 0x1f) <<' 6) |' (b &' 0x3f)) =? (a - 0xc0) * 64 + (b - 0x80))) = true) as K.
  { destruct Ha as [-> | ->]; apply byte_cases; vm_compute; reflexivity. }
  specialize (K b Hb). by rewrite (proj2 (in_range_spec _ _ _)) in K.
Qed.

Lemma latin1_loop_sound rounds s out :
  Forall byte_ok s → latin1_loop rounds s = Some out → Forall byte_ok out ∧ s = encode out.
Proof.
  revert s out. induction rounds as [|rounds IH]; intros s out Hs.
  { destruct s; [|done]. by intros [= <-]. }
  destruct Hs as [|a s Ha Hs]; [by intros [= <-]|]. cbn [latin1_loop].
  destruct (Z.ltb_spec a 0x80) as [Hlt|].
  - intros (o & E & ->)%fmap_Some. destruct (IH s o Hs E) as [I1 ->].
    split; [by constructor|]. change (encode (a :: o)) with (enc a ++ encode o).
    unfold enc. by rewrite (proj2 (Z.ltb_lt a 0x80)).
  - destruct Hs as [|b s Hb Hs]; [done|]. rewrite continuation_byte by done.
    destruct (_ && _) eqn:Ec; [|done]. apply andb_true_iff in Ec as [Ea Eb].
    apply orb_true_iff in Ea. rewrite !Z.eqb_eq in Ea.
    apply andb_true_iff in Eb. rewrite !Z.leb_le in Eb.
    intros (o & E & ->)%fmap_Some. destruct (IH s o Hs E) as [I1 ->].
    rewrite latin1_decode_pair by done. split; [constructor; [unfold byte_ok; lia|done]|].
    change (encode (?c :: o)) with (enc c ++ encode o). rewrite enc_2 by lia. done.
Qed.

Lemma latin1_loop_complete out rounds :
  Forall byte_ok out → (length (encode out) <= rounds)%nat →
  latin1_loop rounds (encode out) = Some out.
Proof.
  intros Ho. revert rounds. induction Ho as [|c o Hc Ho IH]; intros rounds Hr.
  { by destruct rounds. }
  change (encode (c :: o)) with (enc c ++ encode o) in *. rewrite length_app in Hr.
  pose proof (enc_length c). destruct rounds as [|rounds]; [lia|].
  specialize (IH rounds ltac:(lia)). unfold byte_ok in Hc. unfold enc.
  destruct (Z.ltb_spec c 0x80) as [Hlt|]; cbn [app latin1_loop].
  - by rewrite (proj2 (Z.ltb_lt c 0x80)), IH.
  - rewrite (proj2 (Z.ltb_lt c 0x800)) by lia. cbn [app latin1_loop].
    pose proof (Z.div_mod c 64 ltac:(lia)). pose proof (Z.mod_pos_bound c 64 ltac:(lia)).
    assert (c / 64 = 2 ∨ c / 64 = 3) by lia.
    rewrite (proj2 (Z.ltb_ge _ 0x80)), continuation_byte by (unfold byte_ok; lia).
    rewrite (proj2 (Z.leb_le 0x80 _)), (proj2 (Z.leb_le _ 0xbf)) by lia.
    replace ((0xc0 + c / 64 =? 0xc2) || (0xc0 + c / 64 =? 0xc3)) with true
      by (symmetry; apply orb_true_iff; rewrite !Z.eqb_eq; lia).
    cbn [andb]. rewrite IH. simpl. rewrite latin1_decode_pair by (unfold byte_ok; lia).
    do 2 f_equal. lia.
Qed.

Lemma utf8_to_latin1_iff `{Heap} s out :
  Forall byte_ok s → malloc (if zlen s =? 0 then 1 else zlen s) = true →
  utf8_to_latin1 s = (Some out, true) ↔ Forall byte_ok out ∧ s = encode out.
Proof.
  intros Hs Hm. unfold utf8_to_latin1. rewrite Hm. cbn [negb]. split.
  - destruct (latin1_loop _ _) eqn:E; [|done]. intros [= <-]. by eapply latin1_loop_sound.
  - intros [Ho ->]. by rewrite latin1_loop_complete.
Qed.

(** ** Statements *)

(** C29: validation accepts exactly the UTF-8 encodings of sequences of Unicode scalar values:
    no overlong form, no surrogate, nothing above U+10FFFF, no truncated sequence.  Bytes taken
    for Latin-1 and converted to UTF-8 convert back to the same bytes, the buffer of twice the
    length being enough, and the back conversion refuses any text that is not such a
    conversion. *)
Theorem utf8_bytes_correct `{Heap} s :
  Forall byte_ok s →
  (utf8_validate_bytes s = true ↔ ∃ cps, Forall scalar cps ∧ s = encode cps) ∧
  (∀ src, Forall byte_ok src → 2 * zlen src <= 2 ^ 64 - 2 →
   malloc (if zlen src =? 0 then 1 else zlen src * 2) = true →
   malloc (if zlen s =? 0 then 1 else zlen s) = true →
   latin1_to_utf8 src = Ok (encode src) ∧
   (utf8_to_latin1 s = (Some src, true) ↔ s = encode src)).
Proof.
  intros Hb. split; [by apply utf8_validate_bytes_iff|]. intros src Hs Hl M1 M2. split.
  - destruct (latin1_to_utf8_encode src Hs Hl) as [?|[_ ?]]; [done|congruence].
  - rewrite (utf8_to_latin1_iff s src Hb M2). tauto.
Qed.

Lemma utf8_bytes_witness :
  (utf8_validate_bytes [0x41; 0xc3; 0xa9] = true ↔ ∃ cps, Forall scalar cps ∧ [0x41; 0xc3; 0xa9] = encode cps) ∧
  latin1_to_utf8 (H := roomy_heap) [0x41; 0xe9] = Ok [0x41; 0xc3; 0xa9] ∧
  (utf8_to_latin1 (H := roomy_heap) [0x41; 0xc3; 0xa9] = (Some [0x41; 0xe9], true) ↔
   [0x41; 0xc3; 0xa9] = encode [0x41; 0xe9]).
Proof.
  destruct (utf8_bytes_correct (H := roomy_heap) [0x41; 0xc3; 0xa9]) as [Hv Hl];
    [repeat (constructor; [unfold byte_ok; lia|]); constructor|]. split; [exact Hv|].
  apply (Hl [0x41; 0xe9]); [repeat (constructor; [unfold byte_ok; lia|]); constructor|unfold zlen; simpl; lia|done|done].
Defined.
