(* ===== verification/Utf16Index.v ===== *)
(** * UTF-16 positions in UTF-8 strings

    JavaScript indexes strings by UTF-16 code units; the runtime stores them as (W)UTF-8.
    Models the scanner of src/utf8.c that maps one to the other, with its two caches: the
    position of the last scan ([utf16_scan_cache]) and, for long strings, a table of
    checkpoints every 64 code units ([utf16_index_cache]), both keyed by the address of the
    string and dropped when the sweep epoch of the string collector changes.

    The theorems say that the caches are transparent: every operation gives what a scan from
    the start of the string gives, whatever operations ran before it, and the code units are
    those of the string. *)

From stdpp Require Import relations.
From S2P Require Import Prelude Utils Utf8.

#[local] Open Scope nat_scope.

(** ** Decoding one sequence *)

(** [p] are the bytes from the position to the end of the string, of which there is at least
    one; [want_cp] says that [cp_out] is not NULL.  The bytes, the code units, the code
    point. *)
Definition utf16_scan_decode (p : list Z) (want_cp : bool) : nat * nat * Z :=
  let c := at_ p 0 in
  let bytes := length p in
  if (c <? 0x80)%Z then (1, 1, c)
  else if (c &' 0xE0 =? 0xC0)%Z then
    if want_cp && (1 <? bytes)
    then (2, 1, ((c &' 0x1F) <<' 6) |' (at_ p 1 &' 0x3F))
    else if negb want_cp then (2, 1, 0%Z)
    else (1, 1, c)
  else if (c &' 0xF0 =? 0xE0)%Z then
    if want_cp && (2 <? bytes)
    then (3, 1, ((c &' 0x0F) <<' 12) |' ((at_ p 1 &' 0x3F) <<' 6) |' (at_ p 2 &' 0x3F))
    else if negb want_cp then (3, 1, 0%Z)
    else (1, 1, c)
  else if (c &' 0xF8 =? 0xF0)%Z then
    if want_cp && (3 <? bytes)
    then (4, 2, ((c &' 0x07) <<' 18) |' ((at_ p 1 &' 0x3F) <<' 12)
                |' ((at_ p 2 &' 0x3F) <<' 6) |' (at_ p 3 &' 0x3F))
    else if negb want_cp then (4, 2, 0%Z)
    else (1, 1, c)
  else (1, 1, c).

(** ** State *)

Definition ptr : Type := Z.

Record utf16_scan_cache_t := mk_scan_cache {
  sc_epoch : Z;
  sc_str : ptr;
  sc_byte_len : nat;
  sc_byte_pos : nat;
  sc_utf16_pos : nat
}.

(** [p] is the offset of the pointer from [start]. *)
Record utf16_scan_cursor_t := mk_cursor {
  c_str : ptr;
  c_byte_len : nat;
  c_p : nat;
  c_utf16_pos : nat
}.

Definition UTF16_INDEX_CHUNK : nat := 64.

Definition UTF16_INDEX_WAYS : nat := 8.

Definition UTF16_INDEX_MIN_BYTES : nat := 256.

(** Two [uint32_t] fields. *)
Record utf16_index_point_t := mk_point { byte_off : Z; utf16_pos : Z }.

Record utf16_index_entry_t := mk_entry {
  e_str : ptr;
  e_byte_len : nat;
  e_points : option (list utf16_index_point_t)
}.

Definition empty_entry : utf16_index_entry_t := mk_entry 0%Z 0 None.

Record index_cache_t := mk_index_cache {
  ic_epoch : Z;
  ic_victim : nat;
  ic_mru : nat;
  ic_entries : list utf16_index_entry_t
}.

(** The two thread-local variables. *)
Record caches := mk_caches { scan_cache : utf16_scan_cache_t; index_cache : index_cache_t }.

Definition initial_caches : caches :=
  mk_caches (mk_scan_cache 0%Z 0%Z 0 0 0)
    (mk_index_cache 0%Z 0 0 (replicate UTF16_INDEX_WAYS empty_entry)).

(** ** Operations

    [mem] gives the bytes of the string object at an address, [epoch] is the value of
    [gc_strings_sweep_epoch()]. *)

Section operations.
Context `{Heap} (mem : ptr → list Z) (epoch : Z).

Definition utf16_scan_cache_sync_epoch (sc : utf16_scan_cache_t) : utf16_scan_cache_t :=
  if (sc_epoch sc =? epoch)%Z then sc else mk_scan_cache epoch 0%Z 0 0 0.

Definition utf16_scan_cursor_init (str : ptr) (byte_len : nat) : utf16_scan_cursor_t :=
  mk_cursor str byte_len 0 0.

Definition utf16_scan_cache_matches (sc : utf16_scan_cache_t) (cursor : utf16_scan_cursor_t)
  : bool :=
  (sc_str sc =? c_str cursor)%Z && (sc_byte_pos sc <=? c_byte_len cursor).

Definition utf16_scan_cursor_resume_utf16 (sc : utf16_scan_cache_t)
    (cursor : utf16_scan_cursor_t) (target_utf16 : nat) : utf16_scan_cursor_t :=
  if negb (utf16_scan_cache_matches sc cursor) then cursor
  else if target_utf16 <? sc_utf16_pos sc then cursor
  else mk_cursor (c_str cursor) (c_byte_len cursor) (sc_byte_pos sc) (sc_utf16_pos sc).

Definition utf16_scan_cursor_resume_byte (sc : utf16_scan_cache_t)
    (cursor : utf16_scan_cursor_t) (target_byte : nat) : utf16_scan_cursor_t :=
  if negb (utf16_scan_cache_matches sc cursor) then cursor
  else if target_byte <? sc_byte_pos sc then cursor
  else mk_cursor (c_str cursor) (c_byte_len cursor) (sc_byte_pos sc) (sc_utf16_pos sc).

Definition utf16_scan_cursor_store (st : caches) (cursor : utf16_scan_cursor_t) : caches :=
  mk_caches
    (mk_scan_cache (sc_epoch (scan_cache st)) (c_str cursor) (c_byte_len cursor) (c_p cursor)
       (c_utf16_pos cursor))
    (index_cache st).

Definition sync (st : caches) : caches :=
  mk_caches (utf16_scan_cache_sync_epoch (scan_cache st)) (index_cache st).

Definition utf16_index_sync_epoch (ic : index_cache_t) : index_cache_t :=
  if (ic_epoch ic =? epoch)%Z then ic
  else mk_index_cache epoch 0 0 (replicate UTF16_INDEX_WAYS empty_entry).

(** [s] are the bytes from [p] to the end; each round consumes at least one. *)
Fixpoint index_build_loop (rounds : nat) (s : list Z) (p pos max_points : nat)
    (points : list utf16_index_point_t) : outcome (list utf16_index_point_t) :=
  match s, rounds with
  | [], _ => Ok points
  | _, O => Ub
  | _, S rounds =>
      let '(slen, units, _) := utf16_scan_decode s false in
      points ← (if length points * UTF16_INDEX_CHUNK <? pos + units
                then if max_points <=? length points then Ub
                     else Ok (points ++ [mk_point (u32 (Z.of_nat p)) (u32 (Z.of_nat pos))])
                else Ok points);
      index_build_loop rounds (drop slen s) (p + slen) (pos + units) max_points points
  end.

(** The points of the table, or NULL. *)
Definition utf16_index_build (str : ptr) (byte_len : nat)
  : outcome (option (list utf16_index_point_t)) :=
  let max_points := byte_len / UTF16_INDEX_CHUNK + 2 in
  if negb (malloc (Z.of_nat max_points * 8)) then Ok None
  else
    points ← index_build_loop byte_len (take byte_len (mem str)) 0 0 max_points
               [mk_point 0%Z 0%Z];
    Ok (Some points).

Definition entry_is (str : ptr) (byte_len : nat) (e : utf16_index_entry_t) : bool :=
  (e_str e =? str)%Z && (e_byte_len e =? byte_len).

(** The loop over the ways, the most recently used one skipped. *)
Fixpoint find_way (str : ptr) (byte_len mru i : nat) (entries : list utf16_index_entry_t)
  : option nat :=
  match entries with
  | [] => None
  | e :: entries =>
      if negb (i =? mru) && entry_is str byte_len e then Some i
      else find_way str byte_len mru (S i) entries
  end.

Definition entry_at (ic : index_cache_t) (i : nat) : utf16_index_entry_t :=
  nth i (ic_entries ic) empty_entry.

(** The table for a string, if there is one. *)
Definition utf16_index_get (ic : index_cache_t) (str : ptr) (byte_len : nat)
  : outcome (option (list utf16_index_point_t) * index_cache_t) :=
  if (byte_len <? UTF16_INDEX_MIN_BYTES) || (2 ^ 32 - 1 <? Z.of_nat byte_len)%Z
  then Ok (None, ic)
  else
    let ic := utf16_index_sync_epoch ic in
    let way :=
      if entry_is str byte_len (entry_at ic (ic_mru ic)) then Some (ic_mru ic)
      else find_way str byte_len (ic_mru ic) 0 (ic_entries ic) in
    match way with
    | None =>
        let entries := <[ic_victim ic := mk_entry str byte_len None]> (ic_entries ic) in
        let mru := ic_victim ic in
        let victim := S (ic_victim ic) in
        let victim := if victim =? UTF16_INDEX_WAYS then 0 else victim in
        Ok (None, mk_index_cache (ic_epoch ic) victim mru entries)
    | Some i =>
        let ic := mk_index_cache (ic_epoch ic) (ic_victim ic) i (ic_entries ic) in
        match e_points (entry_at ic i) with
        | Some points => Ok (Some points, ic)
        | None =>
            points ← utf16_index_build str byte_len;
            match points with
            | None => Ok (None, ic)
            | Some points =>
                let entries := <[i := mk_entry str byte_len (Some points)]> (ic_entries ic) in
                Ok (Some points, mk_index_cache (ic_epoch ic) (ic_victim ic) i entries)
            end
        end
    end.

Definition point_at (points : list utf16_index_point_t) (i : nat) : utf16_index_point_t :=
  nth i points (mk_point 0%Z 0%Z).

Fixpoint seek_down (points : list utf16_index_point_t) (target : nat) (point : nat) : nat :=
  match point with
  | O => O
  | S point' =>
      if (Z.of_nat target <? utf16_pos (point_at points point))%Z
      then seek_down points target point' else point
  end.

Definition utf16_index_seek (points : list utf16_index_point_t)
    (cursor : utf16_scan_cursor_t) (target : nat) : utf16_scan_cursor_t :=
  let point := target / UTF16_INDEX_CHUNK in
  let point := if length points <=? point then length points - 1 else point in
  let checkpoint := point_at points (seek_down points target point) in
  if (utf16_pos checkpoint <=? Z.of_nat (c_utf16_pos cursor))%Z then cursor
  else mk_cursor (c_str cursor) (c_byte_len cursor) (Z.to_nat (byte_off checkpoint))
         (Z.to_nat (utf16_pos checkpoint)).

Definition utf16_scan_cursor_resume_indexed (st : caches) (cursor : utf16_scan_cursor_t)
    (target : nat) : outcome (utf16_scan_cursor_t * caches) :=
  let cursor := utf16_scan_cursor_resume_utf16 (scan_cache st) cursor target in
  if (target <=? c_utf16_pos cursor) || (target - c_utf16_pos cursor <=? UTF16_INDEX_CHUNK)
  then Ok (cursor, st)
  else
    '(index, ic) ← utf16_index_get (index_cache st) (c_str cursor) (c_byte_len cursor);
    let st := mk_caches (scan_cache st) ic in
    match index with
    | None => Ok (cursor, st)
    | Some points => Ok (utf16_index_seek points cursor target, st)
    end.

(** The bytes a cursor scans, from [p] to [end]. *)
Definition rest_of (cursor : utf16_scan_cursor_t) : list Z :=
  drop (c_p cursor) (take (c_byte_len cursor) (mem (c_str cursor))).

Definition move (cursor : utf16_scan_cursor_t) (p pos : nat) : utf16_scan_cursor_t :=
  mk_cursor (c_str cursor) (c_byte_len cursor) p pos.

(** The cursor, and whether it stayed within [bound_end]. *)
Definition utf16_scan_cursor_advance (cursor : utf16_scan_cursor_t) (bound_end : nat)
  : utf16_scan_cursor_t * bool :=
  let '(slen, units, _) := utf16_scan_decode (rest_of cursor) false in
  let next := c_p cursor + slen in
  let pos := c_utf16_pos cursor + units in
  if bound_end <? next then (move cursor bound_end pos, false) else (move cursor next pos, true).

(** [while (p < end) advance]; a round moves [p] forward, so [byte_len] rounds are enough. *)
Fixpoint advance_all (rounds : nat) (cursor : utf16_scan_cursor_t) : utf16_scan_cursor_t :=
  match rounds with
  | O => cursor
  | S rounds =>
      if c_p cursor <? c_byte_len cursor
      then advance_all rounds (utf16_scan_cursor_advance cursor (c_byte_len cursor)).1
      else cursor
  end.

Definition utf16_strlen (st : caches) (str : ptr) (byte_len : nat) : nat * caches :=
  let st := sync st in
  (c_utf16_pos (advance_all byte_len (utf16_scan_cursor_init str byte_len)), st).

(** [while (p < end && utf16_pos < utf16_idx) advance]. *)
Fixpoint advance_to (rounds idx : nat) (cursor : utf16_scan_cursor_t) : utf16_scan_cursor_t :=
  match rounds with
  | O => cursor
  | S rounds =>
      if (c_p cursor <? c_byte_len cursor) && (c_utf16_pos cursor <? idx)
      then advance_to rounds idx (utf16_scan_cursor_advance cursor (c_byte_len cursor)).1
      else cursor
  end.

Definition str_is_ascii (str : ptr) : bool := forallb (λ c, c <? 0x80)%Z (mem str).

(** [(int)x] of a [size_t]. *)
Definition to_int (x : nat) : Z :=
  let r := (Z.of_nat x mod 2 ^ 32)%Z in if (r <? 2 ^ 31)%Z then r else (r - 2 ^ 32)%Z.

(** The offset returned, and [*out_char_bytes] when it is written. *)
Definition utf16_index_to_byte_offset (st : caches) (str : ptr) (byte_len utf16_idx : nat)
  : outcome (Z * option nat * caches) :=
  if str_is_ascii str then
    if byte_len <? utf16_idx then Ok ((-1)%Z, None, st)
    else Ok (to_int utf16_idx, Some (if utf16_idx <? byte_len then 1 else 0), st)
  else
    let st := sync st in
    let cursor := utf16_scan_cursor_init str byte_len in
    '(cursor, st) ← utf16_scan_cursor_resume_indexed st cursor utf16_idx;
    let cursor := advance_to byte_len utf16_idx cursor in
    let st := utf16_scan_cursor_store st cursor in
    if c_byte_len cursor <=? c_p cursor then
      if c_utf16_pos cursor =? utf16_idx then Ok (to_int byte_len, Some 0, st)
      else Ok ((-1)%Z, None, st)
    else
      let '(slen, _, _) := utf16_scan_decode (rest_of cursor) false in
      Ok (to_int (c_p cursor), Some slen, st).

(** Stop before the sequence that would pass the index. *)
Fixpoint floor_to (rounds idx : nat) (cursor : utf16_scan_cursor_t) : utf16_scan_cursor_t :=
  match rounds with
  | O => cursor
  | S rounds =>
      if (c_p cursor <? c_byte_len cursor) && (c_utf16_pos cursor <? idx)
      then
        let '(slen, units, _) := utf16_scan_decode (rest_of cursor) false in
        if idx <? c_utf16_pos cursor + units then cursor
        else floor_to rounds idx (move cursor (c_p cursor + slen) (c_utf16_pos cursor + units))
      else cursor
  end.

Definition utf16_index_to_byte_offset_floor (st : caches) (str : ptr) (byte_len utf16_idx : nat)
  : nat * caches :=
  if str_is_ascii str then ((if byte_len <? utf16_idx then byte_len else utf16_idx), st)
  else
    let st := sync st in
    let cursor := utf16_scan_cursor_init str byte_len in
    let cursor := utf16_scan_cursor_resume_utf16 (scan_cache st) cursor utf16_idx in
    let cursor := floor_to byte_len utf16_idx cursor in
    (c_p cursor, utf16_scan_cursor_store st cursor).

(** The halves of a surrogate pair. *)
Definition high_half (cp : Z) : Z := (0xD800 + (u32 (cp - 0x10000) >>' 10))%Z.

Definition low_half (cp : Z) : Z := (0xDC00 + (u32 (cp - 0x10000) &' 0x3FF))%Z.

(** The first loop of [utf16_range_to_byte_range]: the cursor and [prefix_surrogate]. *)
Fixpoint range_start (rounds start : nat) (cursor : utf16_scan_cursor_t)
  : utf16_scan_cursor_t * Z :=
  match rounds with
  | O => (cursor, 0%Z)
  | S rounds =>
      if (c_p cursor <? c_byte_len cursor) && (c_utf16_pos cursor <? start)
      then
        let '(slen, units, _) := utf16_scan_decode (rest_of cursor) false in
        if (units =? 2) && (c_utf16_pos cursor + 1 =? start) then
          let '(slen, units, cp) := utf16_scan_decode (rest_of cursor) true in
          (move cursor (c_p cursor + slen) (c_utf16_pos cursor + units), u16 (low_half cp))
        else range_start rounds start (move cursor (c_p cursor + slen) (c_utf16_pos cursor + units))
      else (cursor, 0%Z)
  end.

(** The second loop: the cursor and [suffix_surrogate]. *)
Fixpoint range_end (rounds stop : nat) (cursor : utf16_scan_cursor_t)
  : utf16_scan_cursor_t * Z :=
  match rounds with
  | O => (cursor, 0%Z)
  | S rounds =>
      if (c_p cursor <? c_byte_len cursor) && (c_utf16_pos cursor <? stop)
      then
        let '(slen, units, _) := utf16_scan_decode (rest_of cursor) false in
        if (units =? 2) && (c_utf16_pos cursor + 1 =? stop) then
          let '(_, _, cp) := utf16_scan_decode (rest_of cursor) true in
          (cursor, u16 (high_half cp))
        else range_end rounds stop (move cursor (c_p cursor + slen) (c_utf16_pos cursor + units))
      else (cursor, 0%Z)
  end.

(** The prefix and suffix surrogates, [*byte_start] and [*byte_end]. *)
Definition utf16_range_to_byte_range (st : caches) (str : ptr)
    (byte_len utf16_start utf16_end : nat) : outcome (Z * Z * nat * nat * caches) :=
  if utf16_end <=? utf16_start then Ok (0%Z, 0%Z, 0, 0, st)
  else if str_is_ascii str then
    Ok (0%Z, 0%Z, (if utf16_start <=? byte_len then utf16_start else byte_len),
        (if utf16_end <=? byte_len then utf16_end else byte_len), st)
  else
    let st := sync st in
    let cursor := utf16_scan_cursor_init str byte_len in
    '(cursor, st) ← utf16_scan_cursor_resume_indexed st cursor utf16_start;
    let '(cursor, prefix) := range_start byte_len utf16_start cursor in
    let byte_start := c_p cursor in
    let '(cursor, suffix) := range_end byte_len utf16_end cursor in
    Ok (prefix, suffix, byte_start, c_p cursor, utf16_scan_cursor_store st cursor).

(** The cursor, and [ended_on_boundary]. *)
Fixpoint advance_bounded (rounds bound : nat) (cursor : utf16_scan_cursor_t)
  : utf16_scan_cursor_t * bool :=
  match rounds with
  | O => (cursor, true)
  | S rounds =>
      if c_p cursor <? bound then
        let '(cursor, inside) := utf16_scan_cursor_advance cursor bound in
        if inside then advance_bounded rounds bound cursor else (cursor, false)
      else (cursor, true)
  end.

Definition byte_offset_to_utf16 (st : caches) (str : ptr) (byte_off : nat) : nat * caches :=
  if str_is_ascii str then (byte_off, st)
  else
    let st := sync st in
    let cursor := utf16_scan_cursor_init str byte_off in
    let cursor := utf16_scan_cursor_resume_byte (scan_cache st) cursor byte_off in
    let '(cursor, ended_on_boundary) := advance_bounded byte_off byte_off cursor in
    (c_utf16_pos cursor, if ended_on_boundary then utf16_scan_cursor_store st cursor else st).

(** The scan of [utf16_code_unit_at] and [utf16_codepoint_at], which differ in what they
    return for the index of a whole sequence. *)
Fixpoint unit_scan (rounds idx : nat) (whole : nat → Z → Z) (cursor : utf16_scan_cursor_t)
  : Z * utf16_scan_cursor_t :=
  match rounds with
  | O => (0xFFFFFFFF%Z, cursor)
  | S rounds =>
      if c_p cursor <? c_byte_len cursor then
        let '(slen, units, cp) := utf16_scan_decode (rest_of cursor) true in
        if c_utf16_pos cursor =? idx then (whole units cp, cursor)
        else if (units =? 2) && (c_utf16_pos cursor + 1 =? idx) then (low_half cp, cursor)
        else unit_scan rounds idx whole
               (move cursor (c_p cursor + slen) (c_utf16_pos cursor + units))
      else (0xFFFFFFFF%Z, cursor)
  end.

Definition utf16_code_unit_at (st : caches) (str : ptr) (byte_len utf16_idx : nat)
  : outcome (Z * caches) :=
  if str_is_ascii str then
    Ok (if byte_len <=? utf16_idx then 0xFFFFFFFF%Z else at_ (mem str) utf16_idx, st)
  else
    let st := sync st in
    let cursor := utf16_scan_cursor_init str byte_len in
    let cursor := utf16_scan_cursor_resume_utf16 (scan_cache st) cursor utf16_idx in
    '(cursor, st) ←
      (if (c_utf16_pos cursor <? utf16_idx)
          && (UTF16_INDEX_CHUNK <? utf16_idx - c_utf16_pos cursor)
       then
         '(index, ic) ← utf16_index_get (index_cache st) str byte_len;
         let st := mk_caches (scan_cache st) ic in
         match index with
         | None => Ok (cursor, st)
         | Some points => Ok (utf16_index_seek points cursor utf16_idx, st)
         end
       else Ok (cursor, st));
    let '(r, cursor) :=
      unit_scan (S byte_len) utf16_idx
        (λ units cp, if units =? 2 then high_half cp else cp) cursor in
    Ok (r, utf16_scan_cursor_store st cursor).

Definition utf16_codepoint_at (st : caches) (str : ptr) (byte_len utf16_idx : nat)
  : outcome (Z * caches) :=
  if str_is_ascii str then
    Ok (if byte_len <=? utf16_idx then 0xFFFFFFFF%Z else at_ (mem str) utf16_idx, st)
  else
    let st := sync st in
    let cursor := utf16_scan_cursor_init str byte_len in
    '(cursor, st) ← utf16_scan_cursor_resume_indexed st cursor utf16_idx;
    let '(r, cursor) := unit_scan (S byte_len) utf16_idx (λ _ cp, cp) cursor in
    Ok (r, utf16_scan_cursor_store st cursor).

End operations.

(** ** The iterator *)

(** [next] are the bytes from [iterator->next] to [iterator->end]. *)
Record utf16_iterator_t := mk_iterator { it_next : list Z; trailing_surrogate : Z }.

Definition utf16_iterator (str : list Z) : utf16_iterator_t := mk_iterator str 0%Z.

(** The unit, or [None] at the end. *)
Definition utf16_next_code_unit (it : utf16_iterator_t) : option (Z * utf16_iterator_t) :=
  if negb (trailing_surrogate it =? 0)%Z
  then Some (trailing_surrogate it, mk_iterator (it_next it) 0%Z)
  else
    match it_next it with
    | [] => None
    | _ =>
        let '(bytes, units, codepoint) := utf16_scan_decode (it_next it) true in
        let rest := drop bytes (it_next it) in
        if units =? 2
        then Some (u16 (high_half codepoint), mk_iterator rest (u16 (low_half codepoint)))
        else Some (u16 codepoint, mk_iterator rest 0%Z)
    end.

(** ** Text

    A string holds the generalised UTF-8 encoding of code points, lone surrogates included
    (WTF-8); its UTF-16 form has one unit per code point below 0x10000 and a surrogate pair
    per other code point. *)

#[local] Open Scope Z_scope.

Definition codepoint (cp : Z) : Prop := 0 <= cp < 0x110000.

Definition utf16 (cp : Z) : list Z :=
  if cp <? 0x10000 then [cp] else [0xD800 + (cp - 0x10000) / 1024; 0xDC00 + (cp - 0x10000) mod 1024].

Definition code_units (cps : list Z) : list Z := concat (utf16 <$> cps).

Definition ulen (cp : Z) : nat := length (utf16 cp).

Lemma ulen_cases cp : ulen cp = if cp <? 0x10000 then 1%nat else 2%nat.
Proof. unfold ulen, utf16. by case_ltb. Qed.

Lemma encode_cons cp cps : encode (cp :: cps) = enc cp ++ encode cps.
Proof. done. Qed.

Lemma encode_app cps cps' : encode (cps ++ cps') = encode cps ++ encode cps'.
Proof. unfold encode. by rewrite fmap_app, concat_app. Qed.

Lemma code_units_app cps cps' : code_units (cps ++ cps') = code_units cps ++ code_units cps'.
Proof. unfold code_units. by rewrite fmap_app, concat_app. Qed.

Lemma lead_masks c :
  byte_ok c →
  (c &' 0xE0 =? 0xC0) = (0xC0 <=? c) && (c <? 0xE0) ∧
  (c &' 0xF0 =? 0xE0) = (0xE0 <=? c) && (c <? 0xF0) ∧
  (c &' 0xF8 =? 0xF0) = (0xF0 <=? c) && (c <? 0xF8).
Proof.
  intros Hc. repeat split; apply eqb_prop; revert c Hc; apply byte_cases; vm_compute; reflexivity.
Qed.

Lemma land_3f b : b &' 0x3F = b mod 64.
Proof. by apply (land_mask_eq b 0x3F 6). Qed.

Lemma land_1f b : b &' 0x1F = b mod 32.
Proof. by apply (land_mask_eq b 0x1F 5). Qed.

Lemma land_0f b : b &' 0x0F = b mod 16.
Proof. by apply (land_mask_eq b 0x0F 4). Qed.

Lemma land_07 b : b &' 0x07 = b mod 8.
Proof. by apply (land_mask_eq b 0x07 3). Qed.

(** Six payload bits below a shifted number. *)
Lemma lor_6 a b : (a <<' 6) |' (b &' 0x3F) = a * 64 + b mod 64.
Proof. rewrite land_3f, shiftl_mul, lor_add_low by (try apply Z.mod_pos_bound; lia). lia. Qed.

Lemma lor_12 a b c :
  (a <<' 12) |' ((b &' 0x3F) <<' 6) |' (c &' 0x3F) = (a * 64 + b mod 64) * 64 + c mod 64.
Proof.
  rewrite <- (lor_6 _ c). f_equal. rewrite <- lor_6, Z.shiftl_lor, Z.shiftl_shiftl by lia. done.
Qed.

Lemma lor_18 a b c d :
  (a <<' 18) |' ((b &' 0x3F) <<' 12) |' ((c &' 0x3F) <<' 6) |' (d &' 0x3F)
  = ((a * 64 + b mod 64) * 64 + c mod 64) * 64 + d mod 64.
Proof.
  rewrite <- (lor_6 _ d). f_equal. rewrite <- lor_12, !Z.shiftl_lor, !Z.shiftl_shiftl by lia. done.
Qed.

(** Decoding an encoded code point gives it back, with its lengths. *)
Lemma decode_enc cp rest w :
  codepoint cp →
  let '(n, k, c) := utf16_scan_decode (enc cp ++ rest) w in
  n = length (enc cp) ∧ k = ulen cp ∧ (w = true → c = cp).
Proof.
  intros Hc. unfold codepoint in Hc. rewrite ulen_cases. unfold utf16_scan_decode, enc.
  destruct (Z.ltb_spec cp 0x80); [|destruct (Z.ltb_spec cp 0x800);
    [|destruct (Z.ltb_spec cp 0x10000)]]; unfold at_; cbn [app nth length].
  1: rewrite (proj2 (Z.ltb_lt cp 0x80)), (proj2 (Z.ltb_lt cp 0x10000)) by lia; done.
  all: match goal with |- context [?c <? 0x80] => 
    assert (byte_ok c ∧ 0xC0 <= c) as [Hb Hge] by (unfold byte_ok; word);
    destruct (lead_masks c Hb) as (-> & -> & ->);
    rewrite (proj2 (Z.ltb_ge c 0x80)) by lia end.
  - rewrite (proj2 (Z.ltb_lt cp 0x10000)) by lia.
    rewrite (proj2 (Z.leb_le 0xC0 _)), (proj2 (Z.ltb_lt _ 0xE0)) by word.
    destruct w; cbn [andb negb Nat.ltb Nat.leb]; [|done].
    split; [done|]. split; [done|]. intros _. rewrite lor_6, land_1f. word.
  - rewrite (proj2 (Z.ltb_ge _ 0xE0)), (proj2 (Z.leb_le 0xE0 _)), (proj2 (Z.ltb_lt _ 0xF0)) by word.
    rewrite andb_false_r. destruct w; cbn [andb negb Nat.ltb Nat.leb]; [|done].
    split; [done|]. split; [done|]. intros _. rewrite lor_12, land_0f. word.
  - rewrite (proj2 (Z.ltb_ge _ 0xE0)), (proj2 (Z.ltb_ge _ 0xF0)), (proj2 (Z.leb_le 0xF0 _)),
      (proj2 (Z.ltb_lt _ 0xF8)) by word.
    rewrite !andb_false_r. destruct w; cbn [andb negb Nat.ltb Nat.leb]; [|done].
    split; [done|]. split; [done|]. intros _. rewrite lor_18, land_07. word.
Qed.

(** ** Boundaries

    The offset and the position of the [k]th code point. *)

#[local] Open Scope nat_scope.

Definition boff (cps : list Z) (k : nat) : nat := length (encode (take k cps)).

Definition bpos (cps : list Z) (k : nat) : nat := length (code_units (take k cps)).

Lemma ulen_range cp : 1 <= ulen cp <= 2 ∧ ulen cp <= length (enc cp).
Proof.
  rewrite ulen_cases. pose proof (enc_length cp). destruct (Z.ltb_spec cp 0x10000) as [|Hge].
  - lia.
  - unfold enc. rewrite (proj2 (Z.ltb_ge cp 0x10000) Hge).
    rewrite (proj2 (Z.ltb_ge cp 0x80)), (proj2 (Z.ltb_ge cp 0x800)) by lia. simpl. lia.
Qed.

Lemma boff_S cps k cp : cps !! k = Some cp → boff cps (S k) = boff cps k + length (enc cp).
Proof.
  intros E. unfold boff. rewrite (take_S_r _ _ _ E), encode_app, length_app.
  unfold encode at 2. simpl. rewrite app_nil_r. done.
Qed.

Lemma bpos_S cps k cp : cps !! k = Some cp → bpos cps (S k) = bpos cps k + ulen cp.
Proof.
  intros E. unfold bpos. rewrite (take_S_r _ _ _ E), code_units_app, length_app.
  unfold code_units at 2. simpl. rewrite app_nil_r. done.
Qed.

Lemma boff_0 cps : boff cps 0 = 0.
Proof. done. Qed.

Lemma bpos_0 cps : bpos cps 0 = 0.
Proof. done. Qed.

Lemma boff_end cps : boff cps (length cps) = length (encode cps).
Proof. unfold boff. by rewrite firstn_all. Qed.

Lemma bpos_end cps : bpos cps (length cps) = length (code_units cps).
Proof. unfold bpos. by rewrite firstn_all. Qed.

Lemma lookup_lt_ex (cps : list Z) k : k < length cps → ∃ cp, cps !! k = Some cp.
Proof. intros Hk. by apply lookup_lt_is_Some_2 in Hk. Qed.

(** Offsets and positions increase strictly. *)
Lemma bounds_mono cps j k :
  j <= k → k <= length cps →
  boff cps j + (k - j) <= boff cps k ∧ bpos cps j + (k - j) <= bpos cps k ∧
  bpos cps k - bpos cps j <= boff cps k - boff cps j.
Proof.
  induction 1 as [|k Hjk IH]; intros Hk; [lia|].
  destruct (lookup_lt_ex cps k ltac:(lia)) as [cp E].
  rewrite (boff_S _ _ _ E), (bpos_S _ _ _ E). pose proof (ulen_range cp). pose proof (enc_length cp).
  specialize (IH ltac:(lia)). lia.
Qed.

Lemma bpos_le_boff cps k : k <= length cps → bpos cps k <= boff cps k.
Proof. intros Hk. pose proof (bounds_mono cps 0 k ltac:(lia) Hk). rewrite boff_0, bpos_0 in *. lia. Qed.

Lemma boff_inj cps j k : j <= length cps → k <= length cps → boff cps j = boff cps k → j = k.
Proof.
  intros Hj Hk E. destruct (Nat.le_ge_cases j k).
  - pose proof (bounds_mono cps j k ltac:(lia) ltac:(lia)). lia.
  - pose proof (bounds_mono cps k j ltac:(lia) ltac:(lia)). lia.
Qed.

Lemma bpos_lt cps j k : j < k → k <= length cps → bpos cps j < bpos cps k.
Proof. intros Hj Hk. pose proof (bounds_mono cps j k ltac:(lia) ltac:(lia)). lia. Qed.

Lemma bpos_le cps j k : j <= k → k <= length cps → bpos cps j <= bpos cps k.
Proof. intros Hj Hk. pose proof (bounds_mono cps j k ltac:(lia) ltac:(lia)). lia. Qed.

Lemma boff_le cps j k : j <= k → k <= length cps → boff cps j <= boff cps k.
Proof. intros Hj Hk. pose proof (bounds_mono cps j k ltac:(lia) ltac:(lia)). lia. Qed.

Lemma boff_end_iff cps k : k <= length cps → boff cps k < length (encode cps) ↔ k < length cps.
Proof.
  intros Hk. rewrite <- boff_end. split; intros Hlt.
  - destruct (Nat.eq_dec k (length cps)) as [->|]; lia.
  - pose proof (bounds_mono cps k (length cps) ltac:(lia) ltac:(lia)). lia.
Qed.

Lemma encode_drop cps k : drop (boff cps k) (encode cps) = encode (drop k cps).
Proof.
  unfold boff. rewrite <- (take_drop k cps) at 2. by rewrite encode_app, drop_app_length.
Qed.

Lemma code_units_drop cps k : drop (bpos cps k) (code_units cps) = code_units (drop k cps).
Proof.
  unfold bpos. rewrite <- (take_drop k cps) at 2. by rewrite code_units_app, drop_app_length.
Qed.

Lemma encode_take cps k : take (boff cps k) (encode cps) = encode (take k cps).
Proof.
  unfold boff. rewrite <- (take_drop k cps) at 2. by rewrite encode_app, take_app_length.
Qed.

Lemma code_units_take cps k : take (bpos cps k) (code_units cps) = code_units (take k cps).
Proof.
  unfold bpos. rewrite <- (take_drop k cps) at 2. by rewrite code_units_app, take_app_length.
Qed.

(** ** Scanning from a boundary *)

Section scanning.
Context (mem : ptr → list Z) (str : ptr) (cps : list Z).
Hypothesis Hmem : mem str = encode cps.
Hypothesis Hcps : Forall codepoint cps.

(** The cursor at the [k]th code point. *)
Definition cursor_at (k : nat) : utf16_scan_cursor_t :=
  mk_cursor str (length (encode cps)) (boff cps k) (bpos cps k).

Lemma rest_of_cursor_at k : rest_of mem (cursor_at k) = encode (drop k cps).
Proof. unfold rest_of. simpl. rewrite Hmem, firstn_all. apply encode_drop. Qed.

Lemma decode_at k cp w :
  cps !! k = Some cp →
  ∃ c, utf16_scan_decode (rest_of mem (cursor_at k)) w = (length (enc cp), ulen cp, c)
       ∧ (w = true → c = cp).
Proof.
  intros E. rewrite rest_of_cursor_at, (drop_S _ _ _ E), encode_cons.
  pose proof (decode_enc cp (encode (drop (S k) cps)) w (Forall_lookup_1 _ _ _ _ Hcps E)) as K.
  destruct (utf16_scan_decode _ w) as [[n u] c]. destruct K as (-> & -> & K). eauto.
Qed.

Lemma move_at k cp :
  cps !! k = Some cp →
  move (cursor_at k) (boff cps k + length (enc cp)) (bpos cps k + ulen cp) = cursor_at (S k).
Proof. intros E. unfold cursor_at. by rewrite (boff_S _ _ _ E), (bpos_S _ _ _ E). Qed.

Lemma advance_at k bound :
  k < length cps →
  utf16_scan_cursor_advance mem (cursor_at k) bound
  = if bound <? boff cps (S k) then (move (cursor_at k) bound (bpos cps (S k)), false)
    else (cursor_at (S k), true).
Proof.
  intros Hk. destruct (lookup_lt_ex cps k Hk) as [cp E]. unfold utf16_scan_cursor_advance.
  destruct (decode_at k cp false E) as (c & -> & _). cbn [c_p c_utf16_pos cursor_at].
  change (boff cps k + length (enc cp)) with (c_p (cursor_at k) + length (enc cp)).
  cbn [c_p cursor_at]. rewrite <- (boff_S _ _ _ E), <- (bpos_S _ _ _ E). done.
Qed.

Lemma at_end_test k : k <= length cps → (c_p (cursor_at k) <? c_byte_len (cursor_at k)) = (k <? length cps).
Proof.
  intros Hk. pose proof (boff_end_iff cps k Hk). simpl.
  destruct (Nat.ltb_spec (boff cps k) (length (encode cps))), (Nat.ltb_spec k (length cps)); tauto || lia.
Qed.

Lemma advance_at_end k :
  k < length cps →
  (utf16_scan_cursor_advance mem (cursor_at k) (length (encode cps))).1 = cursor_at (S k).
Proof.
  intros Hk. rewrite advance_at by done.
  assert (boff cps (S k) <= length (encode cps)) by (rewrite <- boff_end; apply boff_le; lia).
  by rewrite (proj2 (Nat.ltb_ge _ _)).
Qed.

Lemma advance_all_at rounds k :
  k <= length cps → length cps - k <= rounds →
  advance_all mem rounds (cursor_at k) = cursor_at (length cps).
Proof.
  revert k. induction rounds as [|rounds IH]; intros k Hk Hr; cbn [advance_all].
  { by replace k with (length cps) by lia. }
  rewrite at_end_test by done. destruct (Nat.ltb_spec k (length cps)).
  - cbn [c_byte_len cursor_at]. rewrite advance_at_end by done. apply IH; lia.
  - by replace k with (length cps) by lia.
Qed.

(** The first boundary at or after a code unit index, or the end. *)
Definition ceiling (idx j : nat) : Prop :=
  j <= length cps ∧ (∀ i, i < j → bpos cps i < idx) ∧ (j = length cps ∨ idx <= bpos cps j).

Lemma advance_to_at rounds idx k :
  k <= length cps → length cps - k <= rounds → (∀ i, i < k → bpos cps i < idx) →
  ∃ j, advance_to mem rounds idx (cursor_at k) = cursor_at j ∧ ceiling idx j.
Proof.
  revert k. induction rounds as [|rounds IH]; intros k Hk Hr Hi; cbn [advance_to].
  { exists k. split; [done|]. split; [done|]. split; [done|]. left. lia. }
  rewrite at_end_test by done. cbn [c_utf16_pos c_byte_len cursor_at].
  destruct (Nat.ltb_spec k (length cps)); cbn [andb].
  2: { exists k. split; [done|]. split; [done|]. split; [done|]. left. lia. }
  destruct (Nat.ltb_spec (bpos cps k) idx).
  2: { exists k. split; [done|]. split; [done|]. split; [done|]. by right. }
  rewrite advance_at_end by done. apply IH; [lia|lia|]. intros i Hik.
  destruct (Nat.eq_dec i k) as [->|]; [done|]. apply Hi. lia.
Qed.

(** The last boundary at or before a code unit index. *)
Definition flooring (idx j : nat) : Prop :=
  j <= length cps ∧ bpos cps j <= idx ∧ (∀ i, i <= length cps → bpos cps i <= idx → i <= j).

Lemma flooring_next idx k :
  k <= length cps → bpos cps k <= idx →
  (k < length cps → idx < bpos cps (S k)) → flooring idx k.
Proof.
  intros Hk Hle Hlt. split; [done|]. split; [done|]. intros i Hi Hb.
  destruct (le_lt_dec i k) as [|Hgt]; [done|]. specialize (Hlt ltac:(lia)).
  pose proof (bpos_le cps (S k) i ltac:(lia) ltac:(lia)). lia.
Qed.

Lemma floor_to_at rounds idx k :
  k <= length cps → length cps - k <= rounds → bpos cps k <= idx →
  ∃ j, floor_to mem rounds idx (cursor_at k) = cursor_at j ∧ flooring idx j.
Proof.
  revert k. induction rounds as [|rounds IH]; intros k Hk Hr Hi; cbn [floor_to].
  { exists k. split; [done|]. apply flooring_next; [done..|lia]. }
  rewrite at_end_test by done. cbn [c_utf16_pos c_byte_len c_p cursor_at].
  destruct (Nat.ltb_spec k (length cps)) as [Hlt|]; cbn [andb].
  2: { exists k. split; [done|]. apply flooring_next; [done..|lia]. }
  destruct (lookup_lt_ex cps k Hlt) as [cp E]. pose proof (bpos_S _ _ _ E) as ES.
  pose proof (ulen_range cp). destruct (Nat.ltb_spec (bpos cps k) idx).
  2: { exists k. split; [done|]. apply flooring_next; [done..|lia]. }
  destruct (decode_at k cp false E) as (c & -> & _). rewrite (move_at k cp E), <- ES.
  destruct (Nat.ltb_spec idx (bpos cps (S k))).
  - exists k. split; [done|]. by apply flooring_next.
  - apply IH; lia.
Qed.

(** What the unit scan returns for an index: the whole sequence that starts there, the second
    half of the pair that starts before it, or the mark for no such unit. *)
Definition unit_result (whole : nat → Z → Z) (idx : nat) (r : Z) : Prop :=
  (∃ k cp, cps !! k = Some cp ∧ bpos cps k = idx ∧ r = whole (ulen cp) cp)
  ∨ (∃ k cp, cps !! k = Some cp ∧ bpos cps k + 1 = idx ∧ ulen cp = 2 ∧ r = low_half cp)
  ∨ (length (code_units cps) <= idx ∧ r = 0xFFFFFFFF%Z).

Lemma unit_scan_at rounds idx whole k :
  k <= length cps → length cps - k < rounds → bpos cps k <= idx →
  ∃ r j, unit_scan mem rounds idx whole (cursor_at k) = (r, cursor_at j) ∧ j <= length cps
         ∧ unit_result whole idx r.
Proof.
  revert k. induction rounds as [|rounds IH]; intros k Hk Hr Hi; [lia|]. cbn [unit_scan].
  rewrite at_end_test by done. cbn [c_utf16_pos c_byte_len c_p cursor_at].
  destruct (Nat.ltb_spec k (length cps)) as [Hlt|].
  2: { eexists _, k. split; [done|]. split; [done|]. right; right. split; [|done].
       rewrite <- bpos_end. by replace (length cps) with k by lia. }
  destruct (lookup_lt_ex cps k Hlt) as [cp E]. pose proof (bpos_S _ _ _ E) as ES.
  pose proof (ulen_range cp). destruct (decode_at k cp true E) as (c & -> & Hc).
  rewrite (Hc eq_refl). destruct (Nat.eqb_spec (bpos cps k) idx).
  { eexists _, k. split; [done|]. split; [done|]. left. eauto. }
  destruct ((ulen cp =? 2) && (bpos cps k + 1 =? idx)) eqn:Ep.
  { apply andb_true_iff in Ep as [Ep1%Nat.eqb_eq Ep2%Nat.eqb_eq].
    eexists _, k. split; [done|]. split; [done|]. right; left. eauto 10. }
  rewrite (move_at k cp E). apply IH; [lia|lia|].
  apply andb_false_iff in Ep. rewrite !Nat.eqb_neq in Ep. lia.
Qed.

(** Without [cp_out] only the lead byte is looked at, so the end of the scan does not matter. *)
Lemma decode_lead p p' :
  at_ p 0 = at_ p' 0 →
  (utf16_scan_decode p false).1 = (utf16_scan_decode p' false).1.
Proof.
  intros E. unfold utf16_scan_decode. rewrite E. cbn zeta. repeat destruct (_ : bool); done.
Qed.

Lemma advance_len k len bound :
  k < length cps → boff cps k < len →
  utf16_scan_cursor_advance mem (mk_cursor str len (boff cps k) (bpos cps k)) bound
  = if bound <? boff cps (S k) then (mk_cursor str len bound (bpos cps (S k)), false)
    else (mk_cursor str len (boff cps (S k)) (bpos cps (S k)), true).
Proof.
  intros Hk Hl. destruct (lookup_lt_ex cps k Hk) as [cp E].
  destruct (decode_at k cp false E) as (c & D & _). unfold utf16_scan_cursor_advance.
  set (cur := mk_cursor str len _ _).
  assert (at_ (rest_of mem cur) 0 = at_ (rest_of mem (cursor_at k)) 0) as Hd.
  { unfold rest_of, cur. simpl. rewrite !at_drop, Nat.add_0_r, Hmem, firstn_all.
    apply at_take. lia. }
  apply decode_lead in Hd. rewrite D in Hd.
  destruct (utf16_scan_decode (rest_of mem cur) false) as [[n u] c'].
  simpl in Hd. injection Hd as -> ->. unfold cur, move. cbn [c_p c_utf16_pos c_str c_byte_len].
  by rewrite <- (boff_S _ _ _ E), <- (bpos_S _ _ _ E).
Qed.

(** A bounded scan counts the units of the code points that start before the bound, and
    notices when the last of them extends past it. *)
Lemma advance_bounded_at rounds k bound :
  k <= length cps → boff cps k <= bound → bound - boff cps k <= rounds →
  bound <= length (encode cps) →
  ∃ j, k <= j <= length cps ∧ (∀ i, i < j → boff cps i < bound) ∧ bound <= boff cps j ∧
    advance_bounded mem rounds bound (mk_cursor str bound (boff cps k) (bpos cps k))
    = if boff cps j =? bound then (mk_cursor str bound (boff cps j) (bpos cps j), true)
      else (mk_cursor str bound bound (bpos cps j), false).
Proof.
  revert k. induction rounds as [|rounds IH]; intros k Hk Hle Hr Hb;
    cbn [advance_bounded c_p];
    assert (∀ i, i < k → boff cps i < bound) as Hi
      by (intros i Hik; pose proof (bounds_mono cps i k ltac:(lia) Hk); lia).
  { exists k. split; [lia|]. split; [done|]. split; [lia|].
    by rewrite (proj2 (Nat.eqb_eq (boff cps k) bound)) by lia. }
  destruct (Nat.ltb_spec (boff cps k) bound) as [Hlt|Hge].
  2: { exists k. split; [lia|]. split; [done|]. split; [lia|].
       by rewrite (proj2 (Nat.eqb_eq (boff cps k) bound)) by lia. }
  assert (k < length cps) as Hk' by (apply boff_end_iff; lia).
  rewrite advance_len by done. destruct (Nat.ltb_spec bound (boff cps (S k))) as [Hov|Hin].
  - exists (S k). split; [lia|]. split; [|split; [lia|]].
    + intros i Hik. pose proof (boff_le cps i k ltac:(lia) ltac:(lia)). lia.
    + by rewrite (proj2 (Nat.eqb_neq (boff cps (S k)) bound)) by lia.
  - pose proof (bounds_mono cps k (S k) ltac:(lia) ltac:(lia)).
    destruct (IH (S k)) as (j & J1 & J2 & J3 & J4); [lia..|]. exists j.
    split; [lia|]. done.
Qed.

(** ** Ranges *)

Lemma u16_low_half cp : (0x10000 <= cp < 0x110000)%Z → u16 (low_half cp) = low_half cp ∧ low_half cp ≠ 0%Z.
Proof.
  intros Hc. unfold low_half. rewrite (land_mask_eq _ 0x3FF 10) by lia.
  rewrite u32_small by lia. pose proof (Z.mod_pos_bound (cp - 0x10000) (2 ^ 10) ltac:(lia)).
  rewrite u16_small; lia.
Qed.

Lemma u16_high_half cp : (0x10000 <= cp < 0x110000)%Z → u16 (high_half cp) = high_half cp ∧ high_half cp ≠ 0%Z.
Proof.
  intros Hc. unfold high_half. rewrite u32_small, shiftr_div by lia.
  assert (0 <= (cp - 0x10000) / 2 ^ 10 < 1024)%Z
    by (split; [apply Z.div_pos|apply Z.div_lt_upper_bound]; lia).
  rewrite u16_small; lia.
Qed.

Lemma utf16_pair cp :
  (0x10000 <= cp < 0x110000)%Z → utf16 cp = [high_half cp; low_half cp].
Proof.
  intros Hc. unfold utf16, high_half, low_half.
  rewrite (proj2 (Z.ltb_ge cp 0x10000)), (land_mask_eq _ 0x3FF 10), shiftr_div, u32_small by lia.
  done.
Qed.

Lemma ulen_2 cp : codepoint cp → ulen cp = 2 → (0x10000 <= cp < 0x110000)%Z.
Proof. unfold codepoint. rewrite ulen_cases. destruct (Z.ltb_spec cp 0x10000); lia. Qed.

Lemma code_units_S k cp :
  cps !! k = Some cp → code_units (drop k cps) = utf16 cp ++ code_units (drop (S k) cps).
Proof. intros E. by rewrite (drop_S _ _ _ E). Qed.

(** A split surrogate, if there is one. *)
Definition half (x : Z) : list Z := if (x =? 0)%Z then [] else [x].

(** What the first loop leaves: a split half, then whole code points. *)
Definition starts (start j : nat) (prefix : Z) : Prop :=
  j <= length cps ∧ bpos cps j <= start + length (half prefix)
  ∧ (j < length cps ∨ prefix ≠ 0%Z → bpos cps j = start + length (half prefix))
  ∧ drop start (code_units cps) = half prefix ++ code_units (drop j cps).

Lemma starts_end start : bpos cps (length cps) <= start → starts start (length cps) 0.
Proof.
  intros Hb. split; [done|]. split; [simpl; lia|]. split; [intros [|]; [lia|done]|].
  rewrite bpos_end in Hb. by rewrite !drop_ge by lia.
Qed.

Lemma range_start_at rounds start k :
  k <= length cps → length cps - k <= rounds → bpos cps k <= start →
  ∃ j prefix, range_start mem rounds start (cursor_at k) = (cursor_at j, prefix)
    ∧ starts start j prefix.
Proof.
  revert k. induction rounds as [|rounds IH]; intros k Hk Hr Hi; cbn [range_start].
  { exists k, 0%Z. replace k with (length cps) in * by lia. split; [done|]. by apply starts_end. }
  rewrite at_end_test by done. cbn [c_utf16_pos c_byte_len c_p cursor_at].
  destruct (Nat.ltb_spec k (length cps)) as [Hlt|]; cbn [andb].
  2: { exists k, 0%Z. replace k with (length cps) in * by lia. split; [done|]. by apply starts_end. }
  destruct (Nat.ltb_spec (bpos cps k) start) as [Hs|Hs].
  2: { exists k, 0%Z. split; [done|]. split; [done|]. simpl. split; [lia|]. split; [lia|].
       replace start with (bpos cps k) by lia. apply code_units_drop. }
  destruct (lookup_lt_ex cps k Hlt) as [cp E]. pose proof (bpos_S _ _ _ E) as ES.
  pose proof (ulen_range cp). pose proof (Forall_lookup_1 _ _ _ _ Hcps E) as Hcp.
  destruct (decode_at k cp false E) as (c & -> & _).
  destruct ((ulen cp =? 2) && (bpos cps k + 1 =? start)) eqn:Ep.
  - apply andb_true_iff in Ep as [Ep1%Nat.eqb_eq Ep2%Nat.eqb_eq].
    destruct (decode_at k cp true E) as (c' & -> & Hc). rewrite (Hc eq_refl), (move_at k cp E).
    pose proof (ulen_2 cp Hcp Ep1) as Ha. destruct (u16_low_half cp Ha) as [-> Hnz].
    exists (S k), (low_half cp). split; [done|]. unfold starts, half.
    rewrite (proj2 (Z.eqb_neq (low_half cp) 0)) by done. simpl length.
    split; [lia|]. split; [lia|]. split; [lia|].
    rewrite <- Ep2, <- drop_drop, code_units_drop, (code_units_S k cp E), utf16_pair by done. done.
  - rewrite (move_at k cp E). apply IH; [lia|lia|].
    apply andb_false_iff in Ep. rewrite !Nat.eqb_neq in Ep. lia.
Qed.

Lemma range_end_nil k n m :
  length cps <= k → take n (code_units (drop k cps)) = code_units (take m (drop k cps)) ++ half 0.
Proof.
  intros Hk. rewrite drop_ge, take_nil by done. change (code_units []) with (@nil Z).
  by rewrite take_nil.
Qed.

(** The second loop takes whole code points up to [stop], then a split half. *)
Lemma range_end_at rounds stop k :
  k <= length cps → length cps - k <= rounds → bpos cps k <= stop →
  ∃ m suffix, range_end mem rounds stop (cursor_at k) = (cursor_at m, suffix)
    ∧ k <= m <= length cps
    ∧ take (stop - bpos cps k) (code_units (drop k cps))
      = code_units (take (m - k) (drop k cps)) ++ half suffix.
Proof.
  revert k. induction rounds as [|rounds IH]; intros k Hk Hr Hi; cbn [range_end].
  { exists k, 0%Z. split; [done|]. split; [lia|]. apply range_end_nil. lia. }
  rewrite at_end_test by done. cbn [c_utf16_pos c_byte_len c_p cursor_at].
  destruct (Nat.ltb_spec k (length cps)) as [Hlt|]; cbn [andb].
  2: { exists k, 0%Z. split; [done|]. split; [lia|]. apply range_end_nil. lia. }
  destruct (Nat.ltb_spec (bpos cps k) stop) as [Hs|Hs].
  2: { exists k, 0%Z. split; [done|]. split; [lia|]. by rewrite !Nat.sub_diag, !take_0, (proj2 (Nat.sub_0_le _ _)) by lia. }
  destruct (lookup_lt_ex cps k Hlt) as [cp E]. pose proof (bpos_S _ _ _ E) as ES.
  pose proof (ulen_range cp). pose proof (Forall_lookup_1 _ _ _ _ Hcps E) as Hcp.
  destruct (decode_at k cp false E) as (c & -> & _). rewrite (code_units_S k cp E).
  destruct ((ulen cp =? 2) && (bpos cps k + 1 =? stop)) eqn:Ep.
  - apply andb_true_iff in Ep as [Ep1%Nat.eqb_eq Ep2%Nat.eqb_eq].
    destruct (decode_at k cp true E) as (c' & -> & Hc). rewrite (Hc eq_refl).
    pose proof (ulen_2 cp Hcp Ep1) as Ha. destruct (u16_high_half cp Ha) as [-> Hnz].
    exists k, (high_half cp). split; [done|]. split; [lia|]. unfold half.
    rewrite (proj2 (Z.eqb_neq (high_half cp) 0)), Nat.sub_diag, take_0, utf16_pair by done.
    by replace (stop - bpos cps k) with 1 by lia.
  - apply andb_false_iff in Ep. rewrite !Nat.eqb_neq in Ep. rewrite (move_at k cp E).
    destruct (IH (S k)) as (m & suffix & -> & Hm & T); [lia..|].
    exists m, suffix. split; [done|]. split; [lia|].
    rewrite take_app, take_ge by (unfold ulen in *; lia).
    replace (stop - bpos cps k - length (utf16 cp)) with (stop - bpos cps (S k))
      by (unfold ulen in *; lia).
    rewrite T. replace (m - k) with (S (m - S k)) by lia.
    rewrite (drop_S _ _ _ E). cbn [take]. unfold code_units at 2. simpl. by rewrite <- app_assoc.
Qed.

End scanning.

(** ** The checkpoint table *)

Definition point_ok (cps : list Z) (pt : utf16_index_point_t) : Prop :=
  ∃ k, k <= length cps ∧ byte_off pt = Z.of_nat (boff cps k) ∧ utf16_pos pt = Z.of_nat (bpos cps k).

(** A table starts at the start of the string and holds boundaries only. *)
Definition points_ok (cps : list Z) (pts : list utf16_index_point_t) : Prop :=
  Forall (point_ok cps) pts ∧ utf16_pos (point_at pts 0) = 0%Z ∧ 1 <= length pts.

Lemma encode_cons_not_nil cp cps : ∃ b s, encode (cp :: cps) = b :: s.
Proof.
  rewrite encode_cons. pose proof (enc_length cp). destruct (enc cp) as [|b w]; [simpl in *; lia|].
  by eexists _, _.
Qed.

(** Building the table never exceeds the points allocated for it. *)
Lemma index_build_loop_ok rounds cps k pts :
  Forall codepoint cps → k <= length cps → length cps - k <= rounds →
  (Z.of_nat (length (encode cps)) < 2 ^ 32)%Z →
  points_ok cps pts → (length pts - 1) * 64 <= bpos cps k →
  ∃ pts', index_build_loop rounds (encode (drop k cps)) (boff cps k) (bpos cps k)
            (length (encode cps) / 64 + 2) pts = Ok pts' ∧ points_ok cps pts'.
Proof.
  intros Hcps. revert k pts. induction rounds as [|rounds IH]; intros k pts Hk Hr Hl Hp Hc.
  { rewrite drop_ge by lia. exists pts. by split. }
  destruct (Nat.eq_dec k (length cps)) as [->|Hne].
  { rewrite drop_ge by lia. exists pts. by split. }
  destruct (lookup_lt_ex cps k ltac:(lia)) as [cp E]. rewrite (drop_S _ _ _ E).
  pose proof (decode_enc cp (encode (drop (S k) cps)) false (Forall_lookup_1 _ _ _ _ Hcps E)) as D.
  rewrite <- encode_cons in D. destruct (encode_cons_not_nil cp (drop (S k) cps)) as (b & s & Es).
  cbn [index_build_loop]. rewrite Es. rewrite Es in D.
  destruct (utf16_scan_decode (b :: s) false) as [[n u] c]. destruct D as (-> & -> & _).
  rewrite <- Es, encode_cons, drop_app_length, <- (boff_S _ _ _ E), <- (bpos_S _ _ _ E).
  pose proof (boff_le cps (S k) (length cps) ltac:(lia) ltac:(lia)) as Hle. rewrite boff_end in Hle.
  pose proof (bpos_le_boff cps (S k) ltac:(lia)). pose proof (bpos_le_boff cps k ltac:(lia)).
  pose proof (boff_le cps k (S k) ltac:(lia) ltac:(lia)).
  pose proof (bpos_le cps k (S k) ltac:(lia) ltac:(lia)).
  unfold UTF16_INDEX_CHUNK. destruct Hp as (P1 & P2 & P3).
  destruct (Nat.ltb_spec (length pts * 64) (bpos cps (S k))) as [Happ|].
  - assert (length pts <= length (encode cps) / 64) by (apply Nat.div_le_lower_bound; lia).
    rewrite (proj2 (Nat.leb_gt (length (encode cps) / 64 + 2) (length pts))) by lia.
    cbn [mbind outcome_bind]. apply IH; [lia|lia|done| |].
    + split; [|split].
      * apply Forall_app. split; [done|]. constructor; [|constructor].
        exists k. simpl. rewrite !u32_small by lia. split; [lia|done].
      * unfold point_at in *. rewrite app_nth1 by lia. done.
      * rewrite length_app. simpl. lia.
    + rewrite length_app. simpl. lia.
  - cbn [mbind outcome_bind]. apply IH; [lia|lia|done|by split|lia].
Qed.

Lemma point_at_ok cps pts i : points_ok cps pts → point_ok cps (point_at pts i).
Proof.
  intros (P1 & _ & _). unfold point_at. rewrite nth_lookup.
  destruct (pts !! i) as [pt|] eqn:E; simpl; [by apply (Forall_lookup_1 _ _ _ _ P1 E)|].
  exists 0. split; [lia|done].
Qed.

Lemma seek_down_le cps pts target i :
  points_ok cps pts → (utf16_pos (point_at pts (seek_down pts target i)) <= Z.of_nat target)%Z.
Proof.
  intros (_ & P2 & _). induction i as [|i IH]; cbn [seek_down]; [rewrite P2; lia|].
  by destruct (Z.ltb_spec (Z.of_nat target) (utf16_pos (point_at pts (S i)))).
Qed.

(** Seeking moves a cursor forward to a boundary that is not past the target. *)
Lemma utf16_index_seek_ok str cps pts k target :
  points_ok cps pts → k <= length cps → bpos cps k <= target →
  ∃ j, j <= length cps ∧ bpos cps j <= target ∧
    utf16_index_seek pts (cursor_at str cps k) target = cursor_at str cps j.
Proof.
  intros Hp Hk Hb. unfold utf16_index_seek. cbn zeta.
  set (i := seek_down _ _ _). pose proof (seek_down_le cps pts target
    (if length pts <=? target / UTF16_INDEX_CHUNK then length pts - 1
     else target / UTF16_INDEX_CHUNK) Hp) as Hle. fold i in Hle.
  destruct (point_at_ok cps pts i Hp) as (j & J1 & J2 & J3). rewrite J2, J3 in *.
  destruct (Z.leb_spec (Z.of_nat (bpos cps j)) (Z.of_nat (c_utf16_pos (cursor_at str cps k)))).
  - by exists k.
  - exists j. rewrite !Nat2Z.id. split; [done|]. split; [lia|done].
Qed.

(** ** The caches

    [text a] are the code points of the live string at [a]. *)

Definition heap_text : Type := ptr → option (list Z).

Definition bytes_at (text : heap_text) (a : ptr) : list Z := encode (default [] (text a)).

Section invariant.
Context (text : heap_text) (epoch : Z).

Definition at_boundary (cps : list Z) (p u : nat) : Prop :=
  ∃ k, k <= length cps ∧ p = boff cps k ∧ u = bpos cps k.

Definition scan_ok (sc : utf16_scan_cache_t) : Prop :=
  (sc_epoch sc <= epoch)%Z ∧
  (sc_epoch sc = epoch →
   (sc_byte_pos sc = 0 ∧ sc_utf16_pos sc = 0)
   ∨ ∃ cps, text (sc_str sc) = Some cps ∧ at_boundary cps (sc_byte_pos sc) (sc_utf16_pos sc)).

Definition entry_ok (e : utf16_index_entry_t) : Prop :=
  ∀ pts, e_points e = Some pts →
  ∃ cps, text (e_str e) = Some cps ∧ (e_byte_len e = length (encode cps) → points_ok cps pts).

Record index_ok (ic : index_cache_t) : Prop := mk_index_ok {
  ic_ways : length (ic_entries ic) = UTF16_INDEX_WAYS;
  ic_victim_lt : ic_victim ic < UTF16_INDEX_WAYS;
  ic_mru_lt : ic_mru ic < UTF16_INDEX_WAYS;
  ic_epoch_le : (ic_epoch ic <= epoch)%Z;
  ic_valid : ic_epoch ic = epoch → Forall entry_ok (ic_entries ic)
}.

Definition caches_ok (st : caches) : Prop := scan_ok (scan_cache st) ∧ index_ok (index_cache st).

Lemma empty_entry_ok : entry_ok empty_entry.
Proof. by intros pts [=]. Qed.

Lemma utf16_index_sync_ok ic :
  index_ok ic →
  index_ok (utf16_index_sync_epoch epoch ic) ∧ ic_epoch (utf16_index_sync_epoch epoch ic) = epoch.
Proof.
  intros Hi. unfold utf16_index_sync_epoch. destruct (Z.eqb_spec (ic_epoch ic) epoch); [done|].
  split; [|done]. split; simpl; [done|unfold UTF16_INDEX_WAYS; lia..|lia|]. intros _.
  repeat constructor; apply empty_entry_ok.
Qed.

Lemma sync_ok st : caches_ok st → caches_ok (sync epoch st) ∧ sc_epoch (scan_cache (sync epoch st)) = epoch.
Proof.
  intros [Hs Hi]. unfold sync, utf16_scan_cache_sync_epoch. simpl.
  destruct (Z.eqb_spec (sc_epoch (scan_cache st)) epoch); [done|]. split; [|done].
  split; [|done]. split; [simpl; lia|]. intros _. by left.
Qed.

Lemma store_ok st str cps k :
  text str = Some cps → k <= length cps → caches_ok st →
  caches_ok (utf16_scan_cursor_store st (cursor_at str cps k)).
Proof.
  intros E Hk [Hs Hi]. split; [|done]. split; [apply Hs|]. intros _. right. exists cps. split; [done|].
  by exists k.
Qed.

(** Resuming starts at a boundary that is not past the target. *)
Lemma resume_utf16_ok sc str cps target :
  text str = Some cps → scan_ok sc → sc_epoch sc = epoch →
  ∃ k, k <= length cps ∧ bpos cps k <= target ∧
    utf16_scan_cursor_resume_utf16 sc (utf16_scan_cursor_init str (length (encode cps))) target
    = cursor_at str cps k.
Proof.
  intros E Hs He. unfold utf16_scan_cursor_resume_utf16, utf16_scan_cache_matches. simpl.
  assert (∃ k, k <= length cps ∧ bpos cps k <= target ∧
    utf16_scan_cursor_init str (length (encode cps)) = cursor_at str cps k) as H0.
  { exists 0. split; [lia|]. split; [rewrite bpos_0; lia|done]. }
  destruct (Z.eqb_spec (sc_str sc) str) as [Hstr|]; [|done].
  destruct (_ <=? _); [|done]. cbn [andb negb].
  destruct (Nat.ltb_spec target (sc_utf16_pos sc)); [done|].
  destruct (proj2 Hs He) as [[E1 E2]|(cps' & E' & k & K1 & K2 & K3)].
  - exists 0. rewrite E1, E2. split; [lia|]. split; [rewrite bpos_0; lia|done].
  - rewrite Hstr, E in E'. injection E' as <-. exists k. rewrite K2, K3. split; [done|]. split; [lia|done].
Qed.

End invariant.

Section lookup.
Context `{Heap} (text : heap_text) (epoch : Z).
Hypothesis texts_ok : ∀ a cps, text a = Some cps → Forall codepoint cps.

Lemma mem_text str cps : text str = Some cps → bytes_at text str = encode cps.
Proof. intros E. unfold bytes_at. by rewrite E. Qed.

Lemma utf16_index_build_ok str cps :
  text str = Some cps → (Z.of_nat (length (encode cps)) < 2 ^ 32)%Z →
  ∃ o, utf16_index_build (bytes_at text) str (length (encode cps)) = Ok o
    ∧ ∀ pts, o = Some pts → points_ok cps pts.
Proof.
  intros E Hl. unfold utf16_index_build. destruct (malloc _); cbn [negb]; [|by exists None].
  rewrite (mem_text _ _ E), firstn_all.
  assert (length cps <= length (encode cps)).
  { pose proof (bounds_mono cps 0 (length cps) ltac:(lia) ltac:(lia)). rewrite boff_end in *. lia. }
  destruct (index_build_loop_ok (length (encode cps)) cps 0 [mk_point 0%Z 0%Z]) as (pts & E' & P);
    [by eapply texts_ok|lia|lia|done| |simpl; lia|].
  { split; [|simpl; split; [done|lia]]. constructor; [|constructor]. exists 0. split; [lia|done]. }
  rewrite drop_0, boff_0, bpos_0 in E'. unfold UTF16_INDEX_CHUNK. rewrite E'.
  exists (Some pts). split; [done|]. by intros ? [= <-].
Qed.

Lemma find_way_spec str len mru i entries n :
  find_way str len mru i entries = Some n →
  i <= n < i + length entries ∧ entry_is str len (nth (n - i) entries empty_entry) = true.
Proof.
  revert i. induction entries as [|e entries IH]; intros i; [done|]. cbn [find_way].
  destruct (_ && _) eqn:Em.
  - intros [= <-]. rewrite Nat.sub_diag. simpl. split; [lia|].
    by apply andb_true_iff in Em as [_ Em].
  - intros Hf. apply IH in Hf as [H1 H2]. simpl length. split; [lia|].
    by replace (n - i) with (S (n - S i)) by lia.
Qed.

Lemma entry_at_ok ic i : index_ok text epoch ic → ic_epoch ic = epoch → entry_ok text (entry_at ic i).
Proof.
  intros Hi He. unfold entry_at. rewrite nth_lookup.
  destruct (ic_entries ic !! i) as [e|] eqn:E; simpl; [|apply empty_entry_ok].
  by apply (Forall_lookup_1 _ _ _ _ (ic_valid _ _ _ Hi He) E).
Qed.

Lemma victim_next v :
  v < UTF16_INDEX_WAYS → (if S v =? UTF16_INDEX_WAYS then 0 else S v) < UTF16_INDEX_WAYS.
Proof. intros Hv. destruct (Nat.eqb_spec (S v) UTF16_INDEX_WAYS); lia. Qed.

(** What the table lookup returns is a table of the string, and the cache stays valid. *)
Lemma utf16_index_get_ok ic str cps :
  text str = Some cps → index_ok text epoch ic →
  ∃ o ic', utf16_index_get (bytes_at text) epoch ic str (length (encode cps)) = Ok (o, ic')
    ∧ index_ok text epoch ic' ∧ ∀ pts, o = Some pts → points_ok cps pts.
Proof.
  intros E Hi. unfold utf16_index_get.
  destruct (_ <? UTF16_INDEX_MIN_BYTES); cbn [orb]; [by eexists _, _|].
  destruct (Z.ltb_spec (2 ^ 32 - 1) (Z.of_nat (length (encode cps)))) as [|Hl]; [by eexists _, _|].
  destruct (utf16_index_sync_ok text epoch ic Hi) as [Hs He]. cbn zeta.
  set (ic1 := utf16_index_sync_epoch epoch ic) in *. clearbody ic1. clear ic Hi.
  destruct Hs as [S1 S2 S3 S0 S4].
  set (way := if entry_is _ _ _ then Some _ else _).
  destruct way as [i|] eqn:Ew.
  - assert (i < UTF16_INDEX_WAYS ∧ entry_is str (length (encode cps)) (entry_at ic1 i) = true)
      as [Hi Hentry].
    { subst way. destruct (entry_is _ _ (entry_at ic1 (ic_mru ic1))) eqn:Em.
      - injection Ew as <-. done.
      - apply find_way_spec in Ew as [W1 W2]. rewrite Nat.sub_0_r in W2. split; [lia|done]. }
    apply andb_true_iff in Hentry as [E1%Z.eqb_eq E2%Nat.eqb_eq].
    pose proof (entry_at_ok ic1 i (mk_index_ok _ _ _ S1 S2 S3 S0 S4) He) as Hok.
    change (entry_at (mk_index_cache (ic_epoch ic1) (ic_victim ic1) i (ic_entries ic1)) i)
      with (entry_at ic1 i).
    destruct (e_points (entry_at ic1 i)) as [pts|] eqn:Ep.
    + eexists _, _. split; [done|]. split; [by split|]. intros ? [= <-].
      destruct (Hok pts Ep) as (cps' & E' & K). rewrite E1, E in E'. injection E' as <-. auto.
    + destruct (utf16_index_build_ok str cps E ltac:(lia)) as (o & -> & Ho). cbn [mbind outcome_bind].
      destruct o as [pts|]; [|eexists _, _; split; [done|]; split; [by split|done]].
      eexists _, _. split; [done|]. split; [|by apply Ho].
      split; simpl; [by rewrite length_insert|done|done|done|]. intros _.
      apply Forall_insert; [by apply S4|]. intros pts' [= <-]. exists cps. auto.
  - eexists _, _. split; [done|]. split; [|done].
    split; cbn [ic_entries ic_victim ic_mru ic_epoch]; [by rewrite length_insert|by apply victim_next|done|done|].
    intros _. apply Forall_insert; [by apply S4|]. by intros ? [=].
Qed.

Lemma resume_indexed_ok st str cps target :
  text str = Some cps → caches_ok text epoch st → sc_epoch (scan_cache st) = epoch →
  ∃ k st', utf16_scan_cursor_resume_indexed (bytes_at text) epoch st
             (utf16_scan_cursor_init str (length (encode cps))) target
           = Ok (cursor_at str cps k, st')
    ∧ k <= length cps ∧ bpos cps k <= target ∧ caches_ok text epoch st'.
Proof.
  intros E [Hs Hi] He. unfold utf16_scan_cursor_resume_indexed.
  destruct (resume_utf16_ok text epoch _ str cps target E Hs He) as (k & K1 & K2 & ->). cbn zeta.
  destruct (_ || _); [by eexists _, _|]. cbn [c_str c_byte_len cursor_at].
  destruct (utf16_index_get_ok (index_cache st) str cps E Hi) as (o & ic' & -> & I1 & I2).
  cbn [mbind outcome_bind]. destruct o as [pts|].
  - destruct (utf16_index_seek_ok str cps pts k target (I2 _ eq_refl) K1 K2) as (j & J1 & J2 & J3).
    exists j, (mk_caches (scan_cache st) ic'). rewrite J3. split; [done|]. split; [done|].
    split; [done|]. by split.
  - eexists k, _. split; [done|]. split; [done|]. split; [done|]. by split.
Qed.

(** *** ASCII strings: one byte and one unit per code point *)

Lemma ascii_text cps :
  Forall codepoint cps → forallb (λ c, c <? 0x80)%Z (encode cps) = true →
  encode cps = cps ∧ code_units cps = cps.
Proof.
  intros Hc. induction Hc as [|cp cps Hcp Hc IH]; [done|]. rewrite encode_cons, forallb_app.
  intros [Ha Hr]%andb_true_iff. destruct (IH Hr) as [-> E2]. unfold codepoint in Hcp.
  assert (cp < 0x80)%Z as Hlt.
  { destruct (Z.lt_ge_cases cp 0x80) as [|Hge]; [done|]. exfalso. revert Ha. unfold enc.
    rewrite (proj2 (Z.ltb_ge cp 0x80)) by done.
    destruct (Z.ltb_spec cp 0x800); [|destruct (Z.ltb_spec cp 0x10000)]; cbn [forallb];
      rewrite (proj2 (Z.ltb_ge _ 0x80)) by word; done. }
  unfold enc, code_units, utf16 in *. cbn [fmap list_fmap concat].
  rewrite (proj2 (Z.ltb_lt cp 0x80)), (proj2 (Z.ltb_lt cp 0x10000)) by lia. cbn [app].
  by rewrite E2.
Qed.

Lemma ascii_bounds str cps :
  text str = Some cps → str_is_ascii (bytes_at text) str = true →
  encode cps = cps ∧ code_units cps = cps ∧ ∀ k, k <= length cps → boff cps k = k ∧ bpos cps k = k.
Proof.
  intros E Ha. unfold str_is_ascii in Ha. rewrite (mem_text _ _ E) in Ha.
  pose proof (texts_ok _ _ E) as Hc. destruct (ascii_text cps Hc Ha) as [E1 E2].
  split; [done|]. split; [done|]. intros k Hk. unfold boff, bpos.
  destruct (ascii_text (take k cps)) as [-> ->]; [by apply Forall_take| |rewrite length_take; lia].
  rewrite <- (take_drop k cps), encode_app, forallb_app in Ha. by apply andb_true_iff in Ha as [? _].
Qed.

Lemma rounds_enough cps : length cps <= length (encode cps).
Proof.
  pose proof (bounds_mono cps 0 (length cps) ltac:(lia) ltac:(lia)). rewrite boff_end in *. lia.
Qed.

(** *** Code units *)

Lemma nth_code_units cps k cp i :
  cps !! k = Some cp → i < ulen cp → nth (bpos cps k + i) (code_units cps) 0xFFFFFFFF%Z = nth i (utf16 cp) 0%Z.
Proof.
  intros E Hi. rewrite <- nth_skipn. change (skipn ?n ?l) with (drop n l).
  rewrite code_units_drop, (code_units_S cps k cp E). unfold ulen in Hi.
  rewrite app_nth1 by done. by apply nth_indep.
Qed.

Lemma unit_result_nth cps idx r :
  Forall codepoint cps →
  unit_result cps (λ units cp, if units =? 2 then high_half cp else cp) idx r →
  r = nth idx (code_units cps) 0xFFFFFFFF%Z.
Proof.
  intros Hc [(k & cp & E & <- & ->)|[(k & cp & E & <- & Hu & ->)|[Hl ->]]].
  - pose proof (ulen_range cp). rewrite <- (Nat.add_0_r (bpos cps k)), (nth_code_units _ _ _ _ E) by lia.
    pose proof (Forall_lookup_1 _ _ _ _ Hc E) as Hcp. destruct (Nat.eqb_spec (ulen cp) 2) as [Eu|Hne].
    + by rewrite utf16_pair by by apply ulen_2.
    + unfold utf16. rewrite ulen_cases in Hne. by destruct (cp <? 0x10000)%Z.
  - rewrite (nth_code_units _ _ _ _ E) by lia.
    rewrite utf16_pair; [done|]. apply ulen_2; [|done]. by apply (Forall_lookup_1 _ _ _ _ Hc E).
  - by rewrite nth_overflow.
Qed.

Lemma utf16_code_unit_at_ok st str cps idx :
  text str = Some cps → caches_ok text epoch st →
  ∃ st', utf16_code_unit_at (bytes_at text) epoch st str (length (encode cps)) idx
         = Ok (nth idx (code_units cps) 0xFFFFFFFF%Z, st') ∧ caches_ok text epoch st'.
Proof.
  intros E Hst. unfold utf16_code_unit_at. pose proof (texts_ok _ _ E) as Hc.
  destruct (str_is_ascii _ _) eqn:Ea.
  { destruct (ascii_bounds str cps E Ea) as (E1 & E2 & _). exists st. split; [|done].
    rewrite (mem_text _ _ E), E1, E2. do 2 f_equal. destruct (Nat.leb_spec (length cps) idx).
    - by rewrite nth_overflow.
    - unfold at_. by apply nth_indep. }
  destruct (sync_ok text epoch st Hst) as [[Hs Hi] He]. cbn zeta.
  destruct (resume_utf16_ok text epoch _ str cps idx E Hs He) as (k & K1 & K2 & ->).
  pose proof (rounds_enough cps).
  assert (∀ k st, k <= length cps → bpos cps k <= idx → caches_ok text epoch st →
    ∃ st', (let '(r, cursor) := unit_scan (bytes_at text) (S (length (encode cps))) idx
              (λ units cp, if units =? 2 then high_half cp else cp) (cursor_at str cps k) in
            Ok (r, utf16_scan_cursor_store st cursor))
           = Ok (nth idx (code_units cps) 0xFFFFFFFF%Z, st') ∧ caches_ok text epoch st') as Hscan.
  { intros k' st' Hk' Hb' Hst'.
    destruct (unit_scan_at (bytes_at text) str cps (mem_text _ _ E) Hc (S (length (encode cps))) idx
      (λ units cp, if units =? 2 then high_half cp else cp) k' Hk' ltac:(lia) Hb') as (r & j & -> & J1 & J2).
    rewrite (unit_result_nth cps idx r Hc J2). eexists. split; [done|]. by apply store_ok. }
  destruct (_ && _); [|by apply Hscan].
  destruct (utf16_index_get_ok _ str cps E Hi) as (o & ic' & -> & I1 & I2). cbn [mbind outcome_bind].
  destruct o as [pts|]; [|by apply Hscan].
  destruct (utf16_index_seek_ok str cps pts k idx (I2 _ eq_refl) K1 K2) as (j & J1 & J2 & ->).
  by apply Hscan.
Qed.

Lemma utf16_codepoint_at_ok st str cps idx :
  text str = Some cps → caches_ok text epoch st →
  ∃ r st', utf16_codepoint_at (bytes_at text) epoch st str (length (encode cps)) idx = Ok (r, st')
    ∧ unit_result cps (λ _ cp, cp) idx r ∧ caches_ok text epoch st'.
Proof.
  intros E Hst. unfold utf16_codepoint_at. pose proof (texts_ok _ _ E) as Hc.
  destruct (str_is_ascii _ _) eqn:Ea.
  { destruct (ascii_bounds str cps E Ea) as (E1 & E2 & E3). eexists _, st. split; [done|].
    split; [|done]. rewrite (mem_text _ _ E), E1. destruct (Nat.leb_spec (length cps) idx).
    - right; right. by rewrite E2.
    - left. exists idx, (at_ cps idx). split; [by apply lookup_at|]. split; [apply E3; lia|done]. }
  destruct (sync_ok text epoch st Hst) as [Hst' He]. cbn zeta.
  destruct (resume_indexed_ok (sync epoch st) str cps idx E Hst' He) as (k & st1 & -> & K1 & K2 & K3).
  cbn [mbind outcome_bind]. pose proof (rounds_enough cps).
  destruct (unit_scan_at (bytes_at text) str cps (mem_text _ _ E) Hc (S (length (encode cps))) idx
    (λ _ cp, cp) k K1 ltac:(lia) K2) as (r & j & -> & J1 & J2).
  eexists _, _. split; [done|]. split; [done|]. by apply store_ok.
Qed.

(** *** Offsets *)

Lemma to_int_small x : (Z.of_nat x < 2 ^ 31)%Z → to_int x = Z.of_nat x.
Proof. intros Hx. unfold to_int. rewrite Z.mod_small by lia. by rewrite (proj2 (Z.ltb_lt _ _)). Qed.

(** The offset of a code unit index is that of the first boundary at or after it, with the
    bytes of the code point there; past the last unit, and inside a pair that ends the
    string, it is -1. *)
Definition offset_result (cps : list Z) (idx : nat) (r : Z) (char_bytes : option nat) : Prop :=
  ∃ j, ceiling cps idx j ∧
    match cps !! j with
    | Some cp => r = Z.of_nat (boff cps j) ∧ char_bytes = Some (length (enc cp))
    | None => if bpos cps j =? idx then r = Z.of_nat (length (encode cps)) ∧ char_bytes = Some 0
              else r = (-1)%Z ∧ char_bytes = None
    end.

Lemma utf16_index_to_byte_offset_ok st str cps idx :
  text str = Some cps → caches_ok text epoch st → (Z.of_nat (length (encode cps)) < 2 ^ 31)%Z →
  ∃ r cb st', utf16_index_to_byte_offset (bytes_at text) epoch st str (length (encode cps)) idx
              = Ok (r, cb, st')
    ∧ offset_result cps idx r cb ∧ caches_ok text epoch st'.
Proof.
  intros E Hst Hl. unfold utf16_index_to_byte_offset. pose proof (texts_ok _ _ E) as Hc.
  destruct (str_is_ascii _ _) eqn:Ea.
  { destruct (ascii_bounds str cps E Ea) as (E1 & E2 & E3). rewrite E1 in *.
    destruct (Nat.ltb_spec (length cps) idx) as [Hgt|Hle].
    - eexists _, _, st. split; [done|]. split; [|done]. exists (length cps). split.
      + split; [done|]. split; [|by left]. intros i Hi. destruct (E3 i); lia.
      + rewrite lookup_ge_None_2 by done. destruct (E3 (length cps)); [done|].
        by rewrite (proj2 (Nat.eqb_neq (bpos cps (length cps)) idx)) by lia.
    - eexists _, _, st. split; [done|]. split; [|done]. rewrite to_int_small by lia.
      destruct (E3 idx Hle) as [B1 B2]. exists idx. split.
      + split; [done|]. split; [|right; lia]. intros i Hi. destruct (E3 i); lia.
      + destruct (Nat.ltb_spec idx (length cps)) as [Hlt|].
        * destruct (lookup_lt_ex cps idx Hlt) as [cp Ecp]. rewrite Ecp, B1. split; [done|]. f_equal.
          pose proof (boff_S _ _ _ Ecp) as ES. destruct (E3 (S idx)); lia.
        * rewrite lookup_ge_None_2 by lia. rewrite B2, Nat.eqb_refl, E1. split; [|done]. f_equal. lia. }
  destruct (sync_ok text epoch st Hst) as [Hst' He]. cbn zeta.
  destruct (resume_indexed_ok (sync epoch st) str cps idx E Hst' He) as (k & st1 & -> & K1 & K2 & K3).
  cbn [mbind outcome_bind]. pose proof (rounds_enough cps).
  destruct (advance_to_at (bytes_at text) str cps (mem_text _ _ E) Hc (length (encode cps)) idx k K1
    ltac:(lia)) as (j & -> & J).
  { intros i Hi. pose proof (bpos_lt cps i k Hi K1). lia. }
  pose proof (proj1 J) as Jl. pose proof (at_end_test str cps j Jl) as Ht.
  assert (caches_ok text epoch (utf16_scan_cursor_store st1 (cursor_at str cps j))) by by apply store_ok.
  rewrite Nat.leb_antisym, Ht. cbn [c_utf16_pos cursor_at].
  destruct (Nat.ltb_spec j (length cps)) as [Hlt|]; cbn [negb].
  - destruct (lookup_lt_ex cps j Hlt) as [cp Ecp].
    destruct (decode_at (bytes_at text) str cps (mem_text _ _ E) Hc j cp false Ecp) as (c & -> & _).
    eexists _, _, _. split; [done|]. split; [|done]. exists j. rewrite Ecp. split; [done|].
    split; [|done]. simpl. apply to_int_small.
    pose proof (boff_le cps j (length cps) Jl ltac:(lia)). rewrite boff_end in *. lia.
  - destruct (Nat.eqb_spec (bpos cps j) idx) as [Eb|Hne];
      (eexists _, _, _; split; [done|]; split; [|done]; exists j; split; [done|];
       rewrite lookup_ge_None_2 by done).
    + rewrite (proj2 (Nat.eqb_eq _ _) Eb). split; [by apply to_int_small|done].
    + by rewrite (proj2 (Nat.eqb_neq _ _) Hne).
Qed.

Lemma utf16_floor_ok st str cps idx :
  text str = Some cps → caches_ok text epoch st →
  ∃ j st', utf16_index_to_byte_offset_floor (bytes_at text) epoch st str (length (encode cps)) idx
           = (boff cps j, st')
    ∧ flooring cps idx j ∧ caches_ok text epoch st'.
Proof.
  intros E Hst. unfold utf16_index_to_byte_offset_floor. pose proof (texts_ok _ _ E) as Hc.
  destruct (str_is_ascii _ _) eqn:Ea.
  { destruct (ascii_bounds str cps E Ea) as (E1 & E2 & E3). rewrite E1.
    exists (if length cps <? idx then length cps else idx), st.
    assert (∀ k, k <= length cps → k <= idx → (k < length cps → idx <= k) → flooring cps idx k) as Hf.
    { intros k Hk1 Hk2 Hk3. apply flooring_next; [done|destruct (E3 k); lia|].
      intros Hlt. destruct (E3 (S k)); lia. }
    destruct (Nat.ltb_spec (length cps) idx); (split; [f_equal; symmetry; apply E3; lia|]);
      (split; [apply Hf; lia|done]). }
  destruct (sync_ok text epoch st Hst) as [[Hs Hi] He]. cbn zeta.
  destruct (resume_utf16_ok text epoch _ str cps idx E Hs He) as (k & K1 & K2 & ->).
  pose proof (rounds_enough cps).
  destruct (floor_to_at (bytes_at text) str cps (mem_text _ _ E) Hc (length (encode cps)) idx k K1
    ltac:(lia) K2) as (j & -> & J).
  eexists j, _. split; [done|]. split; [done|]. apply store_ok; [done|apply J|by split].
Qed.

Lemma utf16_strlen_ok st str cps :
  text str = Some cps → caches_ok text epoch st →
  ∃ st', utf16_strlen (bytes_at text) epoch st str (length (encode cps))
         = (length (code_units cps), st') ∧ caches_ok text epoch st'.
Proof.
  intros E Hst. unfold utf16_strlen. cbn zeta. pose proof (rounds_enough cps).
  change (utf16_scan_cursor_init str (length (encode cps))) with (cursor_at str cps 0).
  rewrite (advance_all_at (bytes_at text) str cps (mem_text _ _ E) (texts_ok _ _ E)) by lia.
  eexists. cbn [c_utf16_pos cursor_at]. rewrite bpos_end. split; [done|]. by apply sync_ok.
Qed.

(** *** Ranges: the bytes between two boundaries, and the halves of split pairs at the ends,
    are the code units asked for. *)
Definition range_result (cps : list Z) (start stop : nat) (prefix suffix : Z) (bs be : nat) : Prop :=
  ∃ j m, j <= m <= length cps ∧ bs = boff cps j ∧ be = boff cps m ∧
    half prefix ++ code_units (take (m - j) (drop j cps)) ++ half suffix
    = take (stop - start) (drop start (code_units cps)).

Lemma code_units_slice cps j m :
  j <= m → m <= length cps →
  code_units (take (m - j) (drop j cps))
  = take (bpos cps m - bpos cps j) (drop (bpos cps j) (code_units cps)).
Proof.
  intros Hj Hm. rewrite code_units_drop.
  assert (bpos cps m - bpos cps j = bpos (drop j cps) (m - j)) as ->; [|by rewrite code_units_take].
  unfold bpos at 3. assert (take m cps = take j cps ++ take (m - j) (drop j cps)) as Em.
  { rewrite take_drop_commute. replace (j + (m - j)) with m by lia.
    rewrite <- (take_drop j (take m cps)) at 1. by rewrite take_take, Nat.min_l by lia. }
  unfold bpos. rewrite Em, code_units_app, length_app. lia.
Qed.

Lemma range_result_ascii cps start stop :
  start < stop → code_units cps = cps → (∀ k, k <= length cps → boff cps k = k ∧ bpos cps k = k) →
  range_result cps start stop 0 0 (start `min` length cps) (stop `min` length cps).
Proof.
  intros Hlt Eu Eb. exists (start `min` length cps), (stop `min` length cps).
  split; [lia|]. split; [symmetry; apply Eb; lia|]. split; [symmetry; apply Eb; lia|].
  change (half 0) with (@nil Z). rewrite app_nil_r. cbn [app].
  rewrite code_units_slice by lia. rewrite !(λ k H, proj2 (Eb k H)) by lia. rewrite Eu.
  destruct (Nat.le_gt_cases (length cps) start).
  - by rewrite !drop_ge, !take_nil by lia.
  - replace (start `min` length cps) with start by lia.
    destruct (Nat.le_gt_cases stop (length cps)).
    + by replace (stop `min` length cps) with stop by lia.
    + by rewrite !take_ge by (rewrite length_drop; lia).
Qed.

Lemma utf16_range_ok st str cps start stop :
  text str = Some cps → caches_ok text epoch st →
  ∃ prefix suffix bs be st',
    utf16_range_to_byte_range (bytes_at text) epoch st str (length (encode cps)) start stop
    = Ok (prefix, suffix, bs, be, st')
    ∧ range_result cps start stop prefix suffix bs be ∧ caches_ok text epoch st'.
Proof.
  intros E Hst. unfold utf16_range_to_byte_range. pose proof (texts_ok _ _ E) as Hc.
  destruct (Nat.leb_spec stop start) as [Hle|Hlt].
  { eexists _, _, _, _, st. split; [done|]. split; [|done]. exists 0, 0. split; [lia|].
    split; [done|]. split; [done|]. by rewrite (proj2 (Nat.sub_0_le stop start)), !take_0. }
  destruct (str_is_ascii _ _) eqn:Ea.
  { destruct (ascii_bounds str cps E Ea) as (E1 & E2 & E3). rewrite E1.
    eexists _, _, _, _, st. split; [done|]. split; [|done].
    pose proof (range_result_ascii cps start stop Hlt E2 E3) as K.
    replace (if start <=? length cps then start else length cps) with (start `min` length cps)
      by (case_ltb; lia).
    replace (if stop <=? length cps then stop else length cps) with (stop `min` length cps)
      by (case_ltb; lia). done. }
  destruct (sync_ok text epoch st Hst) as [Hst' He]. cbn zeta.
  destruct (resume_indexed_ok (sync epoch st) str cps start E Hst' He) as (k & st1 & -> & K1 & K2 & K3).
  cbn [mbind outcome_bind]. pose proof (rounds_enough cps).
  destruct (range_start_at (bytes_at text) str cps (mem_text _ _ E) Hc (length (encode cps)) start k K1
    ltac:(lia) K2) as (j & prefix & -> & J1 & J2 & J3 & J4).
  assert (length (half prefix) <= 1) by (unfold half; destruct (prefix =? 0)%Z; simpl; lia).
  destruct (range_end_at (bytes_at text) str cps (mem_text _ _ E) Hc (length (encode cps)) stop j J1
    ltac:(lia) ltac:(lia)) as (m & suffix & -> & M1 & M2).
  eexists _, _, _, _, _. split; [done|]. split; [|apply store_ok; [done|lia|done]].
  exists j, m. split; [done|]. split; [done|]. split; [done|].
  rewrite <- M2, J4, take_app. f_equal; [symmetry; apply take_ge; lia|].
  destruct (Nat.eq_dec j (length cps)) as [->|].
  - rewrite drop_ge by lia. change (code_units []) with (@nil Z). by rewrite !take_nil.
  - f_equal. specialize (J3 ltac:(left; lia)). lia.
Qed.

(** A byte offset is the number of units of the code points that start before it. *)
Lemma byte_offset_to_utf16_ok st str cps off :
  text str = Some cps → caches_ok text epoch st → off <= length (encode cps) →
  ∃ j st', byte_offset_to_utf16 (bytes_at text) epoch st str off = (bpos cps j, st')
    ∧ j <= length cps ∧ (∀ i, i < j → boff cps i < off) ∧ off <= boff cps j
    ∧ caches_ok text epoch st'.
Proof.
  intros E Hst Ho. unfold byte_offset_to_utf16. pose proof (texts_ok _ _ E) as Hc.
  destruct (str_is_ascii _ _) eqn:Ea.
  { destruct (ascii_bounds str cps E Ea) as (E1 & E2 & E3). rewrite E1 in Ho.
    destruct (E3 off Ho) as [B1 B2]. exists off, st. rewrite B2. split; [done|]. split; [done|].
    split; [intros i Hi; destruct (E3 i); lia|]. split; [lia|done]. }
  destruct (sync_ok text epoch st Hst) as [Hst' He]. cbn zeta. set (st1 := sync epoch st) in *.
  clearbody st1. clear st Hst.
  assert (∃ k, k <= length cps ∧ boff cps k <= off ∧
    utf16_scan_cursor_resume_byte (scan_cache st1) (utf16_scan_cursor_init str off) off
    = mk_cursor str off (boff cps k) (bpos cps k)) as (k & K1 & K2 & ->).
  { unfold utf16_scan_cursor_resume_byte, utf16_scan_cache_matches. simpl.
    assert (∃ k, k <= length cps ∧ boff cps k <= off ∧
      utf16_scan_cursor_init str off = mk_cursor str off (boff cps k) (bpos cps k)) as H0.
    { exists 0. split; [lia|]. split; [rewrite boff_0; lia|done]. }
    destruct (Z.eqb_spec (sc_str (scan_cache st1)) str) as [Hstr|]; [|done].
    destruct (Nat.leb_spec (sc_byte_pos (scan_cache st1)) off); [|done]. cbn [andb negb].
    rewrite (proj2 (Nat.ltb_ge off _)) by done.
    destruct (proj2 (proj1 Hst') He) as [[Z1 Z2]|(cps' & E' & k & Q1 & Q2 & Q3)].
    - rewrite Z1, Z2. exists 0. split; [lia|]. split; [rewrite boff_0; lia|done].
    - rewrite Hstr, E in E'. injection E' as <-. exists k. rewrite Q2, Q3 in *. done. }
  destruct (advance_bounded_at (bytes_at text) str cps (mem_text _ _ E) Hc off k off K1 K2 ltac:(lia) Ho)
    as (j & J1 & J2 & J3 & ->).
  destruct (Nat.eqb_spec (boff cps j) off) as [Ej|].
  - eexists j, _. split; [done|]. split; [lia|]. split; [done|]. split; [done|].
    split; [|by destruct Hst']. split; [apply Hst'|]. intros _. right. exists cps. split; [done|]. exists j. simpl. split; [lia|done].
  - eexists j, _. split; [done|]. split; [lia|]. split; [done|]. split; [done|]. done.
Qed.

End lookup.

(** ** Any sequence of queries, allocations and sweeps

    A live string never changes.  A new string is put at an address that holds none; a sweep
    frees some strings and advances the epoch. *)

Record system := mk_system { sys_caches : caches; sys_epoch : Z; sys_text : heap_text }.

Definition initial_system : system := mk_system initial_caches 1 (λ _, None).

(** The caches after one call on a live string. *)
Inductive query `{Heap} (mem : ptr → list Z) (epoch : Z) (str : ptr) (len : nat) (st : caches)
  : caches → Prop :=
  | query_unit idx r st' :
      utf16_code_unit_at mem epoch st str len idx = Ok (r, st') → query mem epoch str len st st'
  | query_codepoint idx r st' :
      utf16_codepoint_at mem epoch st str len idx = Ok (r, st') → query mem epoch str len st st'
  | query_floor idx r st' :
      utf16_index_to_byte_offset_floor mem epoch st str len idx = (r, st') →
      query mem epoch str len st st'
  | query_offset idx r cb st' :
      (Z.of_nat len < 2 ^ 31)%Z →
      utf16_index_to_byte_offset mem epoch st str len idx = Ok (r, cb, st') →
      query mem epoch str len st st'
  | query_range start stop p s b e st' :
      utf16_range_to_byte_range mem epoch st str len start stop = Ok (p, s, b, e, st') →
      query mem epoch str len st st'
  | query_byte off r st' :
      off <= len → byte_offset_to_utf16 mem epoch st str off = (r, st') →
      query mem epoch str len st st'
  | query_strlen r st' :
      utf16_strlen mem epoch st str len = (r, st') → query mem epoch str len st st'.

Inductive step `{Heap} : system → system → Prop :=
  | step_query st epoch (text : heap_text) str cps st' :
      text str = Some cps →
      query (bytes_at text) epoch str (length (encode cps)) st st' →
      step (mk_system st epoch text) (mk_system st' epoch text)
  | step_alloc st epoch text a cps :
      text a = None → Forall codepoint cps →
      step (mk_system st epoch text)
           (mk_system st epoch (λ b, if (b =? a)%Z then Some cps else text b))
  | step_sweep st epoch text (text' : heap_text) :
      (∀ a cps, text' a = Some cps → text a = Some cps) →
      step (mk_system st epoch text) (mk_system st (epoch + 1) text').

Definition reachable `{Heap} (s : system) : Prop := rtc step initial_system s.

Record system_ok (s : system) : Prop := mk_system_ok {
  sys_texts_ok : ∀ a cps, sys_text s a = Some cps → Forall codepoint cps;
  sys_caches_ok : caches_ok (sys_text s) (sys_epoch s) (sys_caches s)
}.

Lemma query_ok `{Heap} (text : heap_text) epoch str cps st st' :
  (∀ a cps, text a = Some cps → Forall codepoint cps) → text str = Some cps →
  caches_ok text epoch st → query (bytes_at text) epoch str (length (encode cps)) st st' →
  caches_ok text epoch st'.
Proof.
  intros Ht E Hst. destruct 1 as [idx r st' Eq|idx r st' Eq|idx r st' Eq|idx r cb st' Hl Eq
    |start stop p s b e st' Eq|off r st' Ho Eq|r st' Eq].
  - destruct (utf16_code_unit_at_ok text epoch Ht st str cps idx E Hst) as (? & K & ?). congruence.
  - destruct (utf16_codepoint_at_ok text epoch Ht st str cps idx E Hst) as (? & ? & K & _ & ?). congruence.
  - destruct (utf16_floor_ok text epoch Ht st str cps idx E Hst) as (? & ? & K & _ & ?). congruence.
  - destruct (utf16_index_to_byte_offset_ok text epoch Ht st str cps idx E Hst Hl)
      as (? & ? & ? & K & _ & ?). congruence.
  - destruct (utf16_range_ok text epoch Ht st str cps start stop E Hst)
      as (? & ? & ? & ? & ? & K & _ & ?). congruence.
  - destruct (byte_offset_to_utf16_ok text epoch Ht st str cps off E Hst Ho)
      as (? & ? & K & _ & _ & _ & ?). congruence.
  - destruct (utf16_strlen_ok text epoch Ht st str cps E Hst) as (? & K & ?). congruence.
Qed.

(** More live strings leave the caches valid, and so does a new epoch. *)
Lemma caches_ok_extend (text text' : heap_text) epoch st :
  (∀ a cps, text a = Some cps → text' a = Some cps) →
  caches_ok text epoch st → caches_ok text' epoch st.
Proof.
  intros Hsub [[Hle Hs] [I1 I2 I3 I0 I4]]. split.
  - split; [done|]. intros He. destruct (Hs He) as [?|(cps & E & Hb)]; [by left|].
    right. exists cps. auto.
  - split; [done..|]. intros He. eapply Forall_impl; [by apply I4|]. intros e Hok pts Ep.
    destruct (Hok pts Ep) as (cps & E & K). eauto.
Qed.

Lemma caches_ok_sweep (text text' : heap_text) epoch st :
  caches_ok text epoch st → caches_ok text' (epoch + 1) st.
Proof.
  intros [[Hle Hs] [I1 I2 I3 I0 I4]]. split; [split; [lia|]; intros; lia|].
  split; [done..|lia|]. intros; lia.
Qed.

Lemma step_ok `{Heap} s s' : step s s' → system_ok s → system_ok s'.
Proof.
  destruct 1 as [st epoch text str cps st' E Hq|st epoch text a cps Hfree Hc|st epoch text text' Hsub];
    intros [Ht Hst]; split; simpl in *.
  - done.
  - by eapply query_ok.
  - intros b cps' Eb. destruct (Z.eqb_spec b a) as [->|]; [by injection Eb as <-|by eapply Ht].
  - eapply caches_ok_extend; [|done]. intros b cps' Eb.
    destruct (Z.eqb_spec b a) as [->|]; [congruence|done].
  - intros b cps' Eb. eapply Ht. eauto.
  - by eapply caches_ok_sweep.
Qed.

Lemma reachable_ok `{Heap} s : reachable s → system_ok s.
Proof.
  unfold reachable. revert s. apply rtc_ind_r; [|intros y z _ Hstep IH; by eapply step_ok].
  split; [done|]. split.
  - split; [simpl; lia|]. intros _. by left.
  - split; simpl; [done|unfold UTF16_INDEX_WAYS; lia..|lia|]. intros [=].
Qed.

(** ** The iterator *)

(** The units of at most [n] calls. *)
Fixpoint collect (n : nat) (it : utf16_iterator_t) : list Z :=
  match n with
  | O => []
  | S n =>
      match utf16_next_code_unit it with
      | None => []
      | Some (unit, it) => unit :: collect n it
      end
  end.

Lemma collect_encode cps n :
  Forall codepoint cps → length (code_units cps) < n →
  collect n (utf16_iterator (encode cps)) = code_units cps.
Proof.
  intros Hc. revert n. induction Hc as [|cp cps Hcp Hc IH]; intros n Hn.
  { by destruct n. }
  change (code_units (cp :: cps)) with (utf16 cp ++ code_units cps) in *. rewrite length_app in Hn.
  pose proof (ulen_range cp) as [Hu _]. destruct n as [|n]; [lia|]. cbn [collect].
  unfold utf16_next_code_unit, utf16_iterator. cbn [trailing_surrogate it_next negb Z.eqb].
  pose proof (decode_enc cp (encode cps) true Hcp) as D. rewrite <- encode_cons in D.
  destruct (encode_cons_not_nil cp cps) as (b & s & Es). rewrite Es. rewrite Es in D.
  destruct (utf16_scan_decode (b :: s) true) as [[bytes units] c]. destruct D as (-> & -> & D).
  rewrite (D eq_refl), <- Es, encode_cons, drop_app_length.
  destruct (Nat.eqb_spec (ulen cp) 2) as [E2|].
  - destruct (u16_low_half cp (ulen_2 cp Hcp E2)) as [-> Hnz].
    destruct (u16_high_half cp (ulen_2 cp Hcp E2)) as [-> _].
    rewrite (utf16_pair cp (ulen_2 cp Hcp E2)) in *. simpl length in Hn. destruct n as [|n]; [lia|].
    cbn [collect]. unfold utf16_next_code_unit. cbn [trailing_surrogate it_next].
    rewrite (proj2 (Z.eqb_neq (low_half cp) 0)) by done. cbn [negb app]. do 2 f_equal.
    apply (IH n). lia.
  - unfold ulen, utf16, codepoint in *. destruct (Z.ltb_spec cp 0x10000); [|simpl in *; lia].
    rewrite u16_small by lia. cbn [app]. f_equal. apply (IH n). simpl in Hn. lia.
Qed.

(** ** Statements *)

(** After any sequence of queries on live strings, allocations and sweeps, reading the
    code unit of a live string at an index gives that unit of its UTF-16 form, or the mark
    for an index past the end: neither cache ever changes an answer. *)
Lemma utf16_code_unit_at_answer `{Heap} s str cps idx :
  reachable s → sys_text s str = Some cps →
  ∃ st', utf16_code_unit_at (bytes_at (sys_text s)) (sys_epoch s) (sys_caches s) str
           (length (encode cps)) idx
         = Ok (nth idx (code_units cps) 0xFFFFFFFF%Z, st').
Proof.
  intros Hr E. destruct (reachable_ok s Hr) as [Ht Hst].
  destruct (utf16_code_unit_at_ok (sys_text s) (sys_epoch s) Ht (sys_caches s) str cps idx E Hst)
    as (st' & K & _). eauto.
Qed.

(** Cutting a live string at two UTF-16 indices gives, in any reachable state, a byte range
    between whole code points and the halves of the surrogate pairs split at its ends, which
    together are exactly the code units asked for. *)
Lemma utf16_range_answer `{Heap} s str cps start stop :
  reachable s → sys_text s str = Some cps →
  ∃ prefix suffix bs be st',
    utf16_range_to_byte_range (bytes_at (sys_text s)) (sys_epoch s) (sys_caches s) str
      (length (encode cps)) start stop = Ok (prefix, suffix, bs, be, st')
    ∧ range_result cps start stop prefix suffix bs be.
Proof.
  intros Hr E. destruct (reachable_ok s Hr) as [Ht Hst].
  destruct (utf16_range_ok (sys_text s) (sys_epoch s) Ht (sys_caches s) str cps start stop E Hst)
    as (? & ? & ? & ? & ? & K & K' & _). eauto 10.
Qed.

(** In any reachable state the length of a live string is the number of its code units,
    a unit index maps to the byte offset of the first boundary at or after it, the floor of
    an index to the last boundary at or before it, and a byte offset to the units before
    it. *)
Lemma utf16_offsets_answer `{Heap} s str cps idx off :
  reachable s → sys_text s str = Some cps → (Z.of_nat (length (encode cps)) < 2 ^ 31)%Z →
  off <= length (encode cps) →
  let mem := bytes_at (sys_text s) in
  (utf16_strlen mem (sys_epoch s) (sys_caches s) str (length (encode cps))).1
  = length (code_units cps) ∧
  (∃ r cb st', utf16_index_to_byte_offset mem (sys_epoch s) (sys_caches s) str
                 (length (encode cps)) idx = Ok (r, cb, st') ∧ offset_result cps idx r cb) ∧
  (∃ j, (utf16_index_to_byte_offset_floor mem (sys_epoch s) (sys_caches s) str
           (length (encode cps)) idx).1 = boff cps j ∧ flooring cps idx j) ∧
  (∃ j, (byte_offset_to_utf16 mem (sys_epoch s) (sys_caches s) str off).1 = bpos cps j ∧
        j <= length cps ∧ (∀ i, i < j → boff cps i < off) ∧ off <= boff cps j).
Proof.
  intros Hr E Hl Ho. destruct (reachable_ok s Hr) as [Ht Hst]. cbn zeta.
  destruct (utf16_strlen_ok _ _ Ht _ str cps E Hst) as (? & -> & _).
  destruct (utf16_index_to_byte_offset_ok _ _ Ht _ str cps idx E Hst Hl) as (? & ? & ? & K1 & K2 & _).
  destruct (utf16_floor_ok _ _ Ht _ str cps idx E Hst) as (? & ? & -> & K3 & _).
  destruct (byte_offset_to_utf16_ok _ _ Ht _ str cps off E Hst Ho)
    as (? & ? & -> & K4 & K5 & K6 & _).
  split; [done|]. split; [eauto 10|]. split; eauto 10.
Qed.

(** C3: after any sequence of queries on live strings, allocations and sweeps, every question
    about a live string is answered from its UTF-16 form, whatever the two caches hold: the code
    unit at an index, or the mark for an index past the end; the number of units; the byte
    offset of the first boundary at or after an index and of the last at or before it; the units
    before a byte offset; and for two indices a byte range between whole code points with the
    halves of the surrogate pairs split at its ends, which together are exactly the units asked
    for.  The iterator yields the units in order and then stops. *)
Theorem utf16_queries_correct `{Heap} s str cps idx :
  reachable s → sys_text s str = Some cps →
  let mem := bytes_at (sys_text s) in
  (∃ st', utf16_code_unit_at mem (sys_epoch s) (sys_caches s) str (length (encode cps)) idx
          = Ok (nth idx (code_units cps) 0xFFFFFFFF%Z, st')) ∧
  (∀ n, length (code_units cps) < n → collect n (utf16_iterator (encode cps)) = code_units cps) ∧
  (∀ stop, ∃ prefix suffix bs be st',
     utf16_range_to_byte_range mem (sys_epoch s) (sys_caches s) str (length (encode cps)) idx stop
     = Ok (prefix, suffix, bs, be, st') ∧ range_result cps idx stop prefix suffix bs be) ∧
  ∀ off, (Z.of_nat (length (encode cps)) < 2 ^ 31)%Z → off <= length (encode cps) →
  (utf16_strlen mem (sys_epoch s) (sys_caches s) str (length (encode cps))).1
  = length (code_units cps) ∧
  (∃ r cb st', utf16_index_to_byte_offset mem (sys_epoch s) (sys_caches s) str
                 (length (encode cps)) idx = Ok (r, cb, st') ∧ offset_result cps idx r cb) ∧
  (∃ j, (utf16_index_to_byte_offset_floor mem (sys_epoch s) (sys_caches s) str
           (length (encode cps)) idx).1 = boff cps j ∧ flooring cps idx j) ∧
  (∃ j, (byte_offset_to_utf16 mem (sys_epoch s) (sys_caches s) str off).1 = bpos cps j ∧
        j <= length cps ∧ (∀ i, i < j → boff cps i < off) ∧ off <= boff cps j).
Proof.
  intros Hr E. split; [by apply utf16_code_unit_at_answer|]. destruct (reachable_ok s Hr) as [Ht _].
  split; [intros n; apply collect_encode; by apply (Ht str)|]. split; [intros stop; by apply utf16_range_answer|].
  intros off Hl Ho. by apply utf16_offsets_answer.
Qed.

(** *** A state with a live string, reached by an allocation and two queries *)

Definition sample : list Z := [0x41; 0x20AC; 0x1F600; 0x42]%Z.

Definition sample_text : heap_text := λ b, if (b =? 16)%Z then Some sample else None.

Definition sample_system : system :=
  mk_system
    (mk_caches (mk_scan_cache 1 16%Z 9 4 2)
       (mk_index_cache 0 0 0 (replicate UTF16_INDEX_WAYS empty_entry))) 1 sample_text.

Lemma sample_codepoints : Forall codepoint sample.
Proof. repeat (constructor; [unfold codepoint; lia|]). constructor. Qed.

Lemma sample_reachable : reachable (H := roomy_heap) sample_system.
Proof.
  unfold reachable. eapply rtc_l; [|eapply rtc_l; [|apply rtc_refl]].
  - apply (step_alloc (H := roomy_heap) _ _ _ 16%Z sample); [done|apply sample_codepoints].
  - apply (step_query (H := roomy_heap) _ _ sample_text 16%Z sample); [reflexivity|].
    apply (query_unit _ _ _ _ _ 3 0xDE00%Z). reflexivity.
Qed.

Lemma utf16_queries_witness :
  (∃ st', utf16_code_unit_at (H := roomy_heap) (bytes_at sample_text) 1 (sys_caches sample_system)
            16%Z 9 3 = Ok (0xDE00%Z, st')) ∧
  collect 6 (utf16_iterator (encode sample)) = [0x41; 0x20AC; 0xD83D; 0xDE00; 0x42]%Z ∧
  (∃ prefix suffix bs be st',
    utf16_range_to_byte_range (H := roomy_heap) (bytes_at sample_text) 1
      (sys_caches sample_system) 16%Z 9 3 5 = Ok (prefix, suffix, bs, be, st')
    ∧ range_result sample 3 5 prefix suffix bs be) ∧
  (utf16_strlen (bytes_at sample_text) 1 (sys_caches sample_system) 16%Z 9).1 = 5.
Proof.
  destruct (utf16_queries_correct (H := roomy_heap) sample_system 16%Z sample 3) as (H1 & H2 & H3 & H4);
    [apply sample_reachable|reflexivity|]. split; [exact H1|].
  split; [apply (H2 6); vm_compute; lia|]. split; [apply (H3 5)|]. apply (H4 4); [reflexivity|vm_compute; lia].
Defined.
