(* ===== verification/StringMeta.v ===== *)
(** * The metadata of flat strings

    Models the packed metadata word of a flat string in include/gc/strings.h: bits 0 to 55 hold
    the length in UTF-16 code units, bits 56 and 57 whether the bytes are ASCII, bits 58 and 59
    whether they are valid UTF-8, each with a value for "not known yet".  The accessors, the
    ASCII test that reads up to 32 bytes at a time, and the two predicates that fill the word
    on demand. *)

From S2P Require Import Prelude Utils Utf8.

(** ** The program *)

Definition STR_META_ASCII_SHIFT : Z := 56.
Definition STR_META_VALID_SHIFT : Z := 58.

Definition STR_UTF_UNKNOWN : Z := 0.
Definition STR_UTF_VALID : Z := 1.
Definition STR_UTF_INVALID : Z := 2.
Definition STR_UTF_INVALID_SAME_LENGTH : Z := 3.

Definition STR_ASCII_UNKNOWN : Z := 0.
Definition STR_ASCII_YES : Z := 1.
Definition STR_ASCII_NO : Z := 2.

Definition STR_META_FIELD_MASK : Z := 0x3.
Definition STR_META_UTF16_MASK : Z := u64 (1 <<' STR_META_ASCII_SHIFT) - 1.
Definition STR_META_ASCII_MASK : Z := u64 (STR_META_FIELD_MASK <<' STR_META_ASCII_SHIFT).
Definition STR_META_VALID_MASK : Z := u64 (STR_META_FIELD_MASK <<' STR_META_VALID_SHIFT).
Definition STR_META_STATE_MASK : Z := u64 (Z.lnot STR_META_UTF16_MASK).
Definition STR_UTF16_LEN_UNKNOWN : Z := STR_META_UTF16_MASK.

(** [len] is the number of bytes. *)
Record ant_flat_string_t := mk_flat { flat_bytes : list Z; meta : Z }.

Definition set_meta (flat : ant_flat_string_t) (m : Z) : ant_flat_string_t :=
  mk_flat (flat_bytes flat) m.

Definition str_flat_ascii_state (flat : ant_flat_string_t) : Z :=
  u8 ((meta flat &' STR_META_ASCII_MASK) >>' STR_META_ASCII_SHIFT).

Definition str_flat_utf_valid_state (flat : ant_flat_string_t) : Z :=
  u8 ((meta flat &' STR_META_VALID_MASK) >>' STR_META_VALID_SHIFT).

Definition str_flat_set_utf_valid_state (flat : ant_flat_string_t) (state : Z) : ant_flat_string_t :=
  set_meta flat ((meta flat &' u64 (Z.lnot STR_META_VALID_MASK))
                 |' (u64 (state <<' STR_META_VALID_SHIFT) &' STR_META_VALID_MASK)).

Definition str_flat_cached_utf16_len (flat : ant_flat_string_t) : Z :=
  meta flat &' STR_META_UTF16_MASK.

Definition str_flat_init_meta (flat : ant_flat_string_t) (ascii_state : Z) : ant_flat_string_t :=
  set_meta flat (u64 (ascii_state <<' STR_META_ASCII_SHIFT) |' STR_UTF16_LEN_UNKNOWN).

Definition str_flat_set_utf16_len (flat : ant_flat_string_t) (len : Z) : ant_flat_string_t :=
  set_meta flat ((meta flat &' STR_META_STATE_MASK) |' (len &' STR_META_UTF16_MASK)).

Definition HIGH_BITS : Z := 0x8080808080808080.

(** The [i]th of the words copied from [s]. *)
Definition word_at (s : list Z) (i : nat) : Z := le_word (take 8 (drop (8 * i) s)).

(** Four words at a time; [None] when a byte is not ASCII, else what is left. *)
Fixpoint detect_blocks (rounds : nat) (s : list Z) : option (list Z) :=
  match rounds with
  | O => Some s
  | S rounds =>
      if (32 <=? length s)%nat then
        if negb ((word_at s 0 |' word_at s 1 |' word_at s 2 |' word_at s 3) &' HIGH_BITS =? 0)
        then None
        else detect_blocks rounds (drop 32 s)
      else Some s
  end.

Fixpoint detect_words (rounds : nat) (s : list Z) : option (list Z) :=
  match rounds with
  | O => Some s
  | S rounds =>
      if (8 <=? length s)%nat then
        if negb (word_at s 0 &' HIGH_BITS =? 0) then None else detect_words rounds (drop 8 s)
      else Some s
  end.

Definition str_detect_ascii_bytes (str : list Z) : Z :=
  match detect_blocks (length str) str with
  | None => STR_ASCII_NO
  | Some s =>
      match detect_words (length s) s with
      | None => STR_ASCII_NO
      | Some s => if existsb (λ b, 0x80 <=? b) s then STR_ASCII_NO else STR_ASCII_YES
      end
  end.

(** The answer and the string with what was found out stored in it. *)
Definition flat_is_ascii (flat : ant_flat_string_t) : bool * ant_flat_string_t :=
  let state := str_flat_ascii_state flat in
  let '(state, flat) :=
    if state =? STR_ASCII_UNKNOWN then
      let state := str_detect_ascii_bytes (flat_bytes flat) in
      (state, str_flat_init_meta flat state)
    else (state, flat) in
  (state =? STR_ASCII_YES, flat).

Definition str_is_valid_utf8 (flat : ant_flat_string_t) : bool * ant_flat_string_t :=
  let '(ascii, flat) := flat_is_ascii flat in
  if ascii then (true, flat)
  else
    let state := str_flat_utf_valid_state flat in
    let '(state, flat) :=
      if state =? STR_UTF_UNKNOWN then
        let state := if utf8_validate_bytes (flat_bytes flat) then STR_UTF_VALID
                     else STR_UTF_INVALID in
        (state, str_flat_set_utf_valid_state flat state)
      else (state, flat) in
    (state =? STR_UTF_VALID, flat).

(** ** The fields of the word *)

(** A word as the three fields it holds; the bits above are never set. *)
Definition pack (len ascii valid : Z) : Z := valid * 2 ^ 58 + ascii * 2 ^ 56 + len.

Definition fields (m len ascii valid : Z) : Prop :=
  m = pack len ascii valid ∧ 0 <= len < 2 ^ 56 ∧ 0 <= ascii < 4 ∧ 0 <= valid < 4.

(** Bits [a] up to [b] of a number, shifted down. *)
Lemma land_field x a n : 0 <= a → 0 <= n → (x &' ((2 ^ n - 1) * 2 ^ a)) >>' a = (x / 2 ^ a) mod 2 ^ n.
Proof.
  intros Ha Hn. rewrite Z.shiftr_land, <- (Z.shiftl_mul_pow2 _ a), Z.shiftr_shiftl_l by done.
  by rewrite Z.sub_diag, Z.shiftl_0_r, land_mask, Z.shiftr_div_pow2 by done.
Qed.

Lemma fields_get f len ascii valid :
  fields (meta f) len ascii valid →
  str_flat_ascii_state f = ascii ∧ str_flat_utf_valid_state f = valid ∧
  str_flat_cached_utf16_len f = len.
Proof.
  intros (E & Hl & Ha & Hv). unfold str_flat_ascii_state, str_flat_utf_valid_state, str_flat_cached_utf16_len.
  change STR_META_ASCII_MASK with ((2 ^ 2 - 1) * 2 ^ 56). change STR_META_ASCII_SHIFT with 56.
  change STR_META_VALID_MASK with ((2 ^ 2 - 1) * 2 ^ 58). change STR_META_VALID_SHIFT with 58.
  change STR_META_UTF16_MASK with (2 ^ 56 - 1).
  rewrite !land_field, land_mask, E by lia. unfold pack.
  assert ((valid * 2 ^ 58 + ascii * 2 ^ 56 + len) / 2 ^ 56 = valid * 4 + ascii) as -> by word.
  assert ((valid * 2 ^ 58 + ascii * 2 ^ 56 + len) / 2 ^ 58 = valid) as -> by word.
  split_and!; word.
Qed.

(** A number below the bits of the other does not meet them. *)
Lemma land_high_low hi lo k a : 0 <= a → 0 <= lo < 2 ^ a →
  (hi * 2 ^ a + lo) &' (k * 2 ^ a) = (hi &' k) * 2 ^ a.
Proof.
  intros Ha Hlo. rewrite <- (lor_add_low hi lo a), Z.land_lor_distr_l by done.
  rewrite (Z.land_comm lo), (land_low_0 k lo a), Z.lor_0_r by done.
  rewrite <- !Z.shiftl_mul_pow2 by done. symmetry. apply Z.shiftl_land.
Qed.

Lemma land_low_mask hi lo a : 0 <= a → 0 <= lo < 2 ^ a → (hi * 2 ^ a + lo) &' (2 ^ a - 1) = lo.
Proof.
  intros Ha Hlo. rewrite land_mask by done. rewrite Z.add_comm, Z.mod_add by lia. by apply Z.mod_small.
Qed.

Lemma fields_set_valid f len ascii valid state :
  fields (meta f) len ascii valid → 0 <= state < 4 →
  fields (meta (str_flat_set_utf_valid_state f state)) len ascii state.
Proof.
  intros (E & Hl & Ha & Hv) Hs. split; [|done]. cbn [meta str_flat_set_utf_valid_state set_meta].
  assert (0 <= ascii * 2 ^ 56 + len < 2 ^ 58) as Hlow by lia.
  change (u64 (Z.lnot STR_META_VALID_MASK)) with ((60 * 2 ^ 58) |' (2 ^ 58 - 1)).
  change STR_META_VALID_MASK with (3 * 2 ^ 58). change STR_META_VALID_SHIFT with 58.
  rewrite E, shiftl_mul, u64_small, Z.land_lor_distr_r by lia. unfold pack at 1 2.
  replace (valid * 2 ^ 58 + ascii * 2 ^ 56 + len) with (valid * 2 ^ 58 + (ascii * 2 ^ 56 + len)) by lia.
  rewrite land_high_low, land_low_mask by done.
  replace (state * 2 ^ 58) with (state * 2 ^ 58 + 0) by lia. rewrite land_high_low by lia.
  assert (valid &' 60 = 0 ∧ state &' 3 = state) as [-> ->].
  { split; [|by rewrite (land_mask_eq state 3 2), Z.mod_small by lia].
    assert (valid = 0 ∨ valid = 1 ∨ valid = 2 ∨ valid = 3) as [-> | [-> | [-> | ->]]] by lia; done. }
  rewrite Z.mul_0_l, Z.lor_0_l, Z.lor_comm, lor_add_low by lia. unfold pack. lia.
Qed.

Lemma fields_init f ascii :
  0 <= ascii < 4 → fields (meta (str_flat_init_meta f ascii)) STR_UTF16_LEN_UNKNOWN ascii 0.
Proof.
  intros Ha. change STR_UTF16_LEN_UNKNOWN with (2 ^ 56 - 1). split; [|lia].
  cbn [meta str_flat_init_meta set_meta]. change STR_UTF16_LEN_UNKNOWN with (2 ^ 56 - 1).
  change STR_META_ASCII_SHIFT with 56. rewrite shiftl_mul, u64_small, lor_add_low by lia. unfold pack. lia.
Qed.

Lemma fields_set_len f len ascii valid len' :
  fields (meta f) len ascii valid → 0 <= len' < 2 ^ 56 →
  fields (meta (str_flat_set_utf16_len f len')) len' ascii valid.
Proof.
  intros (E & Hl & Ha & Hv) Hs. split; [|done]. cbn [meta str_flat_set_utf16_len set_meta].
  change STR_META_STATE_MASK with (255 * 2 ^ 56). change STR_META_UTF16_MASK with (2 ^ 56 - 1).
  rewrite E, (land_mask len'), (Z.mod_small len') by lia. unfold pack at 1.
  replace (valid * 2 ^ 58 + ascii * 2 ^ 56 + len) with ((valid * 4 + ascii) * 2 ^ 56 + len) by lia.
  rewrite land_high_low by done. rewrite (land_mask_eq _ 255 8), Z.mod_small, lor_add_low by lia.
  unfold pack. lia.
Qed.

(** ** The ASCII test *)

Definition ascii (s : list Z) : bool := forallb (λ b, b <? 0x80) s.

Lemma land_digits a m w k :
  0 <= a < 256 → 0 <= m < 256 → (a + 256 * w) &' (m + 256 * k) = (a &' m) + 256 * (w &' k).
Proof.
  intros Ha Hm. replace (a + 256 * w) with (w * 2 ^ 8 + a) by lia.
  replace (m + 256 * k) with (k * 2 ^ 8 + m) by lia.
  rewrite <- (lor_add_low k m 8), Z.land_lor_distr_r by lia. rewrite land_high_low by lia.
  rewrite <- (lor_add_low w a 8), Z.land_lor_distr_l, (land_low_0 w m 8), Z.lor_0_l by lia.
  assert (0 <= a &' m < 2 ^ 8).
  { assert (a &' m = (a &' m) mod 2 ^ 8) as ->; [|apply Z.mod_pos_bound; lia].
    rewrite <- land_mask, <- Z.land_assoc, (land_mask m 8), (Z.mod_small m) by lia. done. }
  rewrite lor_add_low by lia. lia.
Qed.

Lemma le_word_nonneg l : Forall byte_ok l → 0 <= le_word l.
Proof. induction 1 as [|b l Hb Hl IH]; [done|]. unfold byte_ok in Hb. cbn. fold (le_word l). lia. Qed.

(** The high bits of a word of bytes. *)
Lemma high_bits_ascii l :
  Forall byte_ok l → (le_word l &' le_word (replicate (length l) 0x80) =? 0) = ascii l.
Proof.
  intros Hl. induction Hl as [|b l Hb Hl IH]; [done|].
  cbn [length replicate ascii forallb]. fold (ascii l). rewrite <- IH.
  change (le_word (b :: l)) with (b + 256 * le_word l).
  change (le_word (0x80 :: replicate (length l) 0x80)) with (0x80 + 256 * le_word (replicate (length l) 0x80)).
  rewrite land_digits by (unfold byte_ok in Hb; lia).
  assert ((b &' 0x80 =? 0) = (b <? 0x80)) as <-.
  { apply eqb_prop. revert b Hb. apply byte_cases. vm_compute. reflexivity. }
  assert (0 <= b &' 0x80) by (apply Z.land_nonneg; lia).
  assert (0 <= le_word l &' le_word (replicate (length l) 0x80))
    by (apply Z.land_nonneg; left; by apply le_word_nonneg).
  destruct (Z.eqb_spec (b &' 0x80) 0) as [->|]; cbn [andb]; [|apply Z.eqb_neq; lia].
  destruct (Z.eqb_spec (le_word l &' le_word (replicate (length l) 0x80)) 0) as [->|]; [done|].
  apply Z.eqb_neq. lia.
Qed.

Lemma ascii_app l l' : ascii (l ++ l') = ascii l && ascii l'.
Proof. apply forallb_app. Qed.

Lemma word_at_ascii s i :
  Forall byte_ok s → (8 * i + 8 <= length s)%nat →
  (word_at s i &' HIGH_BITS =? 0) = ascii (take 8 (drop (8 * i) s)).
Proof.
  intros Hs Hl. unfold word_at. set (w := take 8 _).
  assert (length w = 8%nat) as E by (unfold w; rewrite length_take, length_drop; lia).
  change HIGH_BITS with (le_word (replicate 8 0x80)). rewrite <- E.
  apply high_bits_ascii. by apply Forall_take, Forall_drop.
Qed.

Lemma lor_zero_test a b m :
  ((a |' b) &' m =? 0) = (a &' m =? 0) && (b &' m =? 0).
Proof.
  rewrite Z.land_lor_distr_l. destruct (Z.eqb_spec (a &' m) 0) as [->|Ha]; cbn [andb].
  - by rewrite Z.lor_0_l.
  - apply Z.eqb_neq. intros [E _]%Z.lor_eq_0_iff. done.
Qed.

Lemma detect_blocks_spec rounds s :
  Forall byte_ok s →
  match detect_blocks rounds s with
  | Some t => ascii s = ascii t ∧ Forall byte_ok t
  | None => ascii s = false
  end.
Proof.
  revert s. induction rounds as [|rounds IH]; intros s Hs; [done|]. cbn [detect_blocks].
  destruct (Nat.leb_spec 32 (length s)); [|done].
  rewrite !lor_zero_test, !word_at_ascii by (done || lia).
  assert (ascii s = ascii (take 8 (drop (8 * 0) s)) && ascii (take 8 (drop (8 * 1) s))
    && ascii (take 8 (drop (8 * 2) s)) && ascii (take 8 (drop (8 * 3) s)) && ascii (drop 32 s)) as ->.
  { rewrite <- !ascii_app. f_equal. cbn [Nat.mul Nat.add].
    rewrite <- (take_drop 8 s) at 1. rewrite drop_0, <- !app_assoc. f_equal.
    do 2 (rewrite <- (take_drop 8 (drop _ s)) at 1; f_equal; rewrite drop_drop; cbn [Nat.add]).
    rewrite <- (take_drop 8 (drop 24 s)) at 1. by rewrite drop_drop. }
  destruct (_ && ascii (take 8 (drop (8 * 3) s))); [|done]. cbn [negb andb].
  apply IH. by apply Forall_drop.
Qed.

Lemma detect_words_spec rounds s :
  Forall byte_ok s →
  match detect_words rounds s with
  | Some t => ascii s = ascii t ∧ Forall byte_ok t
  | None => ascii s = false
  end.
Proof.
  revert s. induction rounds as [|rounds IH]; intros s Hs; [done|]. cbn [detect_words].
  destruct (Nat.leb_spec 8 (length s)); [|done]. rewrite word_at_ascii by (done || lia).
  assert (ascii s = ascii (take 8 (drop (8 * 0) s)) && ascii (drop 8 s)) as ->
    by (rewrite <- ascii_app, drop_0, take_drop; done).
  destruct (ascii (take 8 _)); [|done]. cbn [negb andb]. apply IH. by apply Forall_drop.
Qed.

Lemma str_detect_ascii_bytes_spec s :
  Forall byte_ok s → str_detect_ascii_bytes s = if ascii s then STR_ASCII_YES else STR_ASCII_NO.
Proof.
  intros Hs. unfold str_detect_ascii_bytes. pose proof (detect_blocks_spec (length s) s Hs) as H1.
  destruct (detect_blocks _ s) as [t|]; [|by rewrite H1]. destruct H1 as [-> Ht].
  pose proof (detect_words_spec (length t) t Ht) as H2.
  destruct (detect_words _ t) as [u|]; [|by rewrite H2]. destruct H2 as [-> _].
  assert (existsb (λ b, 0x80 <=? b) u = negb (ascii u)) as ->; [|by destruct (ascii u)].
  clear. induction u as [|b u IH]; [done|]. cbn. rewrite IH. fold (ascii u).
  destruct (Z.leb_spec 0x80 b), (Z.ltb_spec b 0x80); cbn; done || lia.
Qed.

Lemma ascii_valid s : Forall byte_ok s → ascii s = true → utf8_validate_bytes s = true.
Proof.
  intros Hs Ha. apply utf8_validate_bytes_iff; [done|]. exists s.
  induction Hs as [|b s Hb Hs IH]; [done|]. cbn in Ha. apply andb_true_iff in Ha as [Hl%Z.ltb_lt Ha].
  destruct (IH Ha) as [IH1 IH2]. unfold byte_ok in Hb. split; [constructor; [unfold scalar; lia|done]|].
  change (encode (b :: s)) with (enc b ++ encode s). rewrite <- IH2.
  unfold enc. by rewrite (proj2 (Z.ltb_lt b 0x80)) by lia.
Qed.

(** ** What the word says is true

    [same] is what the state [STR_UTF_INVALID_SAME_LENGTH] records of the bytes, and
    [units] their length in code units. *)

Section truth.
Context (same : list Z → Prop) (units : list Z → Z).

Definition truthful (f : ant_flat_string_t) : Prop :=
  let s := flat_bytes f in
  Forall byte_ok s ∧
  ∃ len asc valid, fields (meta f) len asc valid ∧
    (len = STR_UTF16_LEN_UNKNOWN ∨ len = units s) ∧
    (asc = STR_ASCII_UNKNOWN ∨ asc = if ascii s then STR_ASCII_YES else STR_ASCII_NO) ∧
    (valid = STR_UTF_UNKNOWN ∨
     (valid = STR_UTF_VALID ∧ utf8_validate_bytes s = true) ∨
     (valid = STR_UTF_INVALID ∧ utf8_validate_bytes s = false) ∨
     (valid = STR_UTF_INVALID_SAME_LENGTH ∧ utf8_validate_bytes s = false ∧ same s)).

Lemma truthful_init f :
  Forall byte_ok (flat_bytes f) →
  truthful (str_flat_init_meta f STR_ASCII_UNKNOWN) ∧
  truthful (str_flat_init_meta f (str_detect_ascii_bytes (flat_bytes f))).
Proof.
  intros Hs. rewrite str_detect_ascii_bytes_spec by done.
  assert (∀ a, 0 <= a < 4 → (a = STR_ASCII_UNKNOWN ∨
    a = if ascii (flat_bytes f) then STR_ASCII_YES else STR_ASCII_NO) →
    truthful (str_flat_init_meta f a)) as K.
  { intros a Hr Ha. split; [done|]. exists STR_UTF16_LEN_UNKNOWN, a, 0.
    split; [by apply fields_init|]. split; [by left|]. split; [done|]. by left. }
  split; apply K; try (by left); try (by right); [|destruct (ascii _)];
    unfold STR_ASCII_UNKNOWN, STR_ASCII_YES, STR_ASCII_NO; lia.
Qed.

Lemma flat_is_ascii_spec f :
  truthful f → ∃ f', flat_is_ascii f = (ascii (flat_bytes f), f') ∧ truthful f' ∧
    flat_bytes f' = flat_bytes f ∧ str_flat_ascii_state f' ≠ STR_ASCII_UNKNOWN.
Proof.
  intros (Hs & len & asc & valid & Hfl & Hlen & Hasc & Hvalid).
  destruct (fields_get f _ _ _ Hfl) as (Ea & _ & _). unfold flat_is_ascii. cbv zeta. rewrite Ea.
  destruct (Z.eqb_spec asc STR_ASCII_UNKNOWN) as [->|Hne].
  - eexists. split; [f_equal|]; [rewrite str_detect_ascii_bytes_spec by done; by destruct (ascii _)|].
    split; [by apply truthful_init|]. split; [done|].
    set (state := str_detect_ascii_bytes (flat_bytes f)).
    assert (0 < state < 4) as Hr.
    { unfold state. rewrite str_detect_ascii_bytes_spec by done. by destruct (ascii _). }
    destruct (fields_get _ _ _ _ (fields_init f state ltac:(lia))) as (-> & _).
    unfold STR_ASCII_UNKNOWN. lia.
  - destruct Hasc as [->| ->]; [done|]. exists f. split; [by destruct (ascii _)|].
    split; [|split; [done|by rewrite Ea]]. split; [done|]. eexists _, _, _. by split_and!; [..|right|].
Qed.

Lemma str_is_valid_utf8_spec f :
  truthful f → ∃ f', str_is_valid_utf8 f = (utf8_validate_bytes (flat_bytes f), f') ∧ truthful f' ∧
    flat_bytes f' = flat_bytes f.
Proof.
  intros Hf. destruct (flat_is_ascii_spec f Hf) as (f1 & E1 & Hf1 & Eb & _).
  unfold str_is_valid_utf8. rewrite E1. destruct (ascii (flat_bytes f)) eqn:Ea.
  { exists f1. rewrite ascii_valid; [done| |done]. by destruct Hf. }
  destruct Hf1 as (Hs & len & asc & valid & Hfl & Hlen & Hasc & Hvalid). rewrite Eb in *.
  destruct (fields_get f1 _ _ _ Hfl) as (_ & Ev & _). cbv zeta. rewrite Ev.
  destruct (Z.eqb_spec valid STR_UTF_UNKNOWN) as [->|Hne].
  - eexists. split; [f_equal; by destruct (utf8_validate_bytes _)|].
    split; [|by rewrite <- Eb]. split; [cbn; by rewrite Eb|]. cbn [flat_bytes str_flat_set_utf_valid_state set_meta].
    eexists _, _, _. split; [eapply fields_set_valid; [exact Hfl|by destruct (utf8_validate_bytes _)]|].
    rewrite Eb. split; [done|]. split; [done|]. destruct (utf8_validate_bytes _); right; [by left|].
    right. by left.
  - exists f1. split; [|split; [|done]].
    + f_equal. destruct Hvalid as [->|[[-> ->]|[[-> ->]|(-> & -> & _)]]]; done.
    + split; [by rewrite Eb|]. eexists _, _, _. rewrite Eb. by split_and!.
Qed.

Lemma truthful_set_len f :
  truthful f → 0 <= units (flat_bytes f) < 2 ^ 56 →
  truthful (str_flat_set_utf16_len f (units (flat_bytes f))).
Proof.
  intros (Hs & len & asc & valid & Hfl & Hlen & Hasc & Hvalid) Hu. split; [done|].
  eexists _, _, _. split; [by eapply fields_set_len|]. cbn. by split_and!; [right|..].
Qed.

End truth.

(** ** Properties *)

(** C32: The metadata word of a string never says anything untrue of its bytes, and the answers
    that use it are those of a look at the bytes: from a new header on, asking whether the
    string is ASCII or valid UTF-8, in whatever order and with whatever is already stored, and
    storing its length in code units keep the word truthful.  The ASCII test by words of
    memory agrees with a test of each byte. *)
Theorem str_meta_correct same units s :
  Forall byte_ok s → 0 <= units s < 2 ^ 56 →
  (∀ m, truthful same units (str_flat_init_meta (mk_flat s m) STR_ASCII_UNKNOWN)) ∧
  str_detect_ascii_bytes s = (if forallb (λ b, b <? 0x80) s then STR_ASCII_YES else STR_ASCII_NO) ∧
  ∀ f, truthful same units f → flat_bytes f = s →
    (flat_is_ascii f).1 = forallb (λ b, b <? 0x80) s ∧ truthful same units (flat_is_ascii f).2 ∧
    (str_is_valid_utf8 f).1 = utf8_validate_bytes s ∧ truthful same units (str_is_valid_utf8 f).2 ∧
    truthful same units (str_flat_set_utf16_len f (units s)) ∧
    str_flat_cached_utf16_len (str_flat_set_utf16_len f (units s)) = units s.
Proof.
  intros Hs Hu. split; [by intros m; apply truthful_init|].
  split; [by apply str_detect_ascii_bytes_spec|]. intros f Hf <-.
  destruct (flat_is_ascii_spec same units f Hf) as (f1 & -> & H1 & _).
  destruct (str_is_valid_utf8_spec same units f Hf) as (f2 & -> & H2 & _).
  split_and!; [done..|by apply truthful_set_len|].
  destruct Hf as (_ & len & asc & valid & Hfl & _).
  by destruct (fields_get _ _ _ _ (fields_set_len _ _ _ _ _ Hfl Hu)) as (_ & _ & ->).
Qed.

Lemma str_meta_correct_witness :
  let f := str_flat_init_meta (mk_flat [0x61; 0xC3; 0xA9] 0) STR_ASCII_UNKNOWN in
  (flat_is_ascii f).1 = false ∧ (str_is_valid_utf8 f).1 = true.
Proof.
  destruct (str_meta_correct (λ _, False) (λ _, 2) [0x61; 0xC3; 0xA9]
    ltac:(repeat constructor; vm_compute; congruence) ltac:(lia)) as (H1 & _ & H2).
  destruct (H2 _ (H1 0) eq_refl) as (E1 & _ & E2 & _). split; [exact E1|exact E2].
Defined.
