(* ===== verification/TextDecoder.v ===== *)
(** * TextDecoder

    Models [utf8_whatwg_decode] of src/utf8.c and the decoders of src/modules/textcodec.c:
    [utf16_decode], [decode_single_byte] with its two tables, [td_decode] with the bytes it
    keeps between calls, [resolve_encoding], [trim_label],
    [encoding_name] and the constructor. *)

From Stdlib Require Ascii.
From S2P Require Import Prelude Utils Utf8 Utf16Index.

(** ** UTF-8 *)

Record utf8_dec_t := mk_dec { ignore_bom : bool; bom_seen : bool; pend_buf : list Z }.

Definition see (dec : utf8_dec_t) : utf8_dec_t := mk_dec (ignore_bom dec) true (pend_buf dec).

Definition FFFD : list Z := [0xEF; 0xBF; 0xBD].

(** The targets of the dispatch table; a lead label sets [bc], [lo], [hi] and [cp]. *)
Inductive label :=
  | L_ASCII
  | L_BAD
  | L_LEAD (bc : nat) (lo hi cp : Z).

Definition tbl (b : Z) : label :=
  if b <=? 0x7F then L_ASCII
  else if b <=? 0xBF then L_BAD
  else if b <=? 0xC1 then L_BAD
  else if b <=? 0xDF then L_LEAD 1 0x80 0xBF (b &' 0x1F)
  else if b =? 0xE0 then L_LEAD 2 0xA0 0xBF (b &' 0x0F)
  else if b <=? 0xEC then L_LEAD 2 0x80 0xBF (b &' 0x0F)
  else if b =? 0xED then L_LEAD 2 0x80 0x9F (b &' 0x0F)
  else if b <=? 0xEF then L_LEAD 2 0x80 0xBF (b &' 0x0F)
  else if b =? 0xF0 then L_LEAD 3 0x90 0xBF (b &' 0x07)
  else if b <=? 0xF3 then L_LEAD 3 0x80 0xBF (b &' 0x07)
  else if b =? 0xF4 then L_LEAD 3 0x80 0x8F (b &' 0x07)
  else L_BAD.

(** Where the machine is: about to dispatch, or at [cont] with [bc > 0] bytes to come. *)
Inductive mode :=
  | Dispatch
  | Cont (bc : nat) (lo hi cp : Z) (pb : list Z).

Section utf8.
Context `{Utf8proc}.
Variables fatal stream : bool.

(** The end of [cont]: the character is complete. *)
Definition emit_char (dec : utf8_dec_t) (cp : Z) (out : list Z) : utf8_dec_t * list Z :=
  if negb (bom_seen dec) && (cp =? 0xFEFF) && negb (ignore_bom dec) then (see dec, out)
  else (see dec, out ++ utf8proc_encode_char cp).

(** The state left in [*dec], and the output, [None] for the return of -1. *)
Fixpoint whatwg_loop (md : mode) (dec : utf8_dec_t) (src out : list Z)
    : utf8_dec_t * option (list Z) :=
  match src with
  | [] =>
      match md with
      | Dispatch => (dec, Some out)
      | Cont _ _ _ _ pb =>
          if stream then (mk_dec (ignore_bom dec) (bom_seen dec) pb, Some out)
          else if fatal then (dec, None) else (dec, Some (out ++ FFFD))
      end
  | b :: rest =>
      let goto_tbl dec out :=
        match tbl b with
        | L_ASCII => whatwg_loop Dispatch (see dec) rest (out ++ [b])
        | L_BAD => if fatal then (dec, None) else whatwg_loop Dispatch (see dec) rest (out ++ FFFD)
        | L_LEAD bc lo hi cp => whatwg_loop (Cont bc lo hi cp [b]) dec rest out
        end in
      match md with
      | Dispatch => goto_tbl dec out
      | Cont bc lo hi cp pb =>
          if (b <? lo) || (hi <? b) then
            if fatal then (dec, None) else goto_tbl (see dec) (out ++ FFFD)
          else
            let cp := (cp <<' 6) |' (b &' 0x3F) in
            if (bc =? 1)%nat
            then let '(dec, out) := emit_char dec cp out in whatwg_loop Dispatch dec rest out
            else whatwg_loop (Cont (bc - 1) 0x80 0xBF cp (pb ++ [b])) dec rest out
      end
  end.

Definition utf8_whatwg_decode (dec : utf8_dec_t) (src : list Z) : utf8_dec_t * option (list Z) :=
  whatwg_loop Dispatch dec src [].

End utf8.

(** ** UTF-16 and single bytes *)

Inductive td_encoding_t :=
  TD_ENC_UTF8 | TD_ENC_UTF16LE | TD_ENC_UTF16BE | TD_ENC_WINDOWS_1252 | TD_ENC_ISO_8859_2.

#[global] Instance td_encoding_eq_dec : EqDecision td_encoding_t.
Proof. solve_decision. Defined.

(** [pending] is the first [pending_len] bytes of the array. *)
Record td_state_t := mk_td {
  encoding : td_encoding_t;
  pending : list Z;
  td_fatal : bool;
  td_ignore_bom : bool;
  td_bom_seen : bool
}.

Definition fresh (e : td_encoding_t) (fatal ignore_bom : bool) : td_state_t :=
  mk_td e [] fatal ignore_bom false.

(** [NULL] when the sixteen bytes of the structure are refused. *)
Definition td_state_new `{Heap} (e : td_encoding_t) (fatal ignore_bom : bool) : option td_state_t :=
  if calloc 16 then Some (fresh e fatal ignore_bom) else None.

Definition td_set (st : td_state_t) (pend : list Z) (seen : bool) : td_state_t :=
  mk_td (encoding st) pend (td_fatal st) (td_ignore_bom st) seen.

Definition u16_read (p : list Z) (be : bool) : Z :=
  if be then u16 (u16 (at_ p 0 <<' 8) |' at_ p 1) else u16 (u16 (at_ p 1 <<' 8) |' at_ p 0).

Definition U16_IS_HIGH (cu : Z) : bool := (0xD800 <=? cu) && (cu <=? 0xDBFF).

Definition U16_IS_LOW (cu : Z) : bool := (0xDC00 <=? cu) && (cu <=? 0xDFFF).

Definition U16_PAIR (hi lo : Z) : Z := 0x10000 + u32 (u32 (hi - 0xD800) <<' 10) + (lo - 0xDC00).

Definition specials_1252 : list Z :=
  [0x20AC; 0x0081; 0x201A; 0x0192; 0x201E; 0x2026; 0x2020; 0x2021;
   0x02C6; 0x2030; 0x0160; 0x2039; 0x0152; 0x008D; 0x017D; 0x008F;
   0x0090; 0x2018; 0x2019; 0x201C; 0x201D; 0x2022; 0x2013; 0x2014;
   0x02DC; 0x2122; 0x0161; 0x203A; 0x0153; 0x009D; 0x017E; 0x0178].

Definition decode_windows_1252_byte (byte : Z) : Z :=
  if byte <? 0x80 then byte
  else if byte <? 0xA0 then at_ specials_1252 (Z.to_nat (byte - 0x80))
  else byte.

Definition upper_8859_2 : list Z :=
  [0x00A0; 0x0104; 0x02D8; 0x0141; 0x00A4; 0x013D; 0x015A; 0x00A7;
   0x00A8; 0x0160; 0x015E; 0x0164; 0x0179; 0x00AD; 0x017D; 0x017B;
   0x00B0; 0x0105; 0x02DB; 0x0142; 0x00B4; 0x013E; 0x015B; 0x02C7;
   0x00B8; 0x0161; 0x015F; 0x0165; 0x017A; 0x02DD; 0x017E; 0x017C;
   0x0154; 0x00C1; 0x00C2; 0x0102; 0x00C4; 0x0139; 0x0106; 0x00C7;
   0x010C; 0x00C9; 0x0118; 0x00CB; 0x011A; 0x00CD; 0x00CE; 0x010E;
   0x0110; 0x0143; 0x0147; 0x00D3; 0x00D4; 0x0150; 0x00D6; 0x00D7;
   0x0158; 0x016E; 0x00DA; 0x0170; 0x00DC; 0x00DD; 0x0162; 0x00DF;
   0x0155; 0x00E1; 0x00E2; 0x0103; 0x00E4; 0x013A; 0x0107; 0x00E7;
   0x010D; 0x00E9; 0x0119; 0x00EB; 0x011B; 0x00ED; 0x00EE; 0x010F;
   0x0111; 0x0144; 0x0148; 0x00F3; 0x00F4; 0x0151; 0x00F6; 0x00F7;
   0x0159; 0x016F; 0x00FA; 0x0171; 0x00FC; 0x00FD; 0x0163; 0x02D9].

Definition decode_iso_8859_2_byte (byte : Z) : Z :=
  if byte <? 0xA0 then byte else at_ upper_8859_2 (Z.to_nat (byte - 0xA0)).

Section decoders.
Context `{Utf8proc}.

Definition u8_emit (out : list Z) (cp : Z) : list Z := out ++ utf8proc_encode_char cp.

Definition u8_fffd (out : list Z) : list Z := out ++ FFFD.

Definition decode_single_byte (st : td_state_t) (src : list Z) : list Z :=
  foldl (λ out b, u8_emit out
    (if bool_decide (encoding st = TD_ENC_WINDOWS_1252) then decode_windows_1252_byte b
     else decode_iso_8859_2_byte b)) [] src.

(** [pend_tail]: one byte is left. *)
Definition pend_tail (st : td_state_t) (stream : bool) (rest out : list Z)
    : td_state_t * option (list Z) :=
  if stream then (td_set st [at_ rest 0] (td_bom_seen st), Some out)
  else if td_fatal st then (st, None) else (st, Some (u8_fffd out)).

(** [pend_hi]: a high surrogate and less than a unit behind it. *)
Definition pend_hi (st : td_state_t) (stream : bool) (rest out : list Z)
    : td_state_t * option (list Z) :=
  if stream then (td_set st rest (td_bom_seen st), Some out)
  else if td_fatal st then (st, None)
  else
    let out := u8_fffd out in
    (st, Some (if (length rest - 2 =? 1)%nat then u8_fffd out else out)).

(** The loop on the bytes from [i] on; each round consumes a unit, so as many rounds as bytes
    are enough. *)
Fixpoint utf16_loop (rounds : nat) (st : td_state_t) (be stream : bool) (src out : list Z)
    : td_state_t * option (list Z) :=
  match rounds with
  | O => (st, Some out)
  | S rounds =>
      if (length src =? 0)%nat then (st, Some out)
      else if (length src <? 2)%nat then pend_tail st stream src out
      else
        let cu := u16_read src be in
        let rest := drop 2 src in
        let err := if td_fatal st then (st, None)
                   else utf16_loop rounds st be stream rest (u8_fffd out) in
        if negb (U16_IS_HIGH cu) && negb (U16_IS_LOW cu)
        then utf16_loop rounds st be stream rest (u8_emit out cu)
        else if U16_IS_LOW cu then err
        else if (length rest <? 2)%nat then pend_hi st stream src out
        else
          let lo := u16_read rest be in
          if U16_IS_LOW lo
          then utf16_loop rounds st be stream (drop 2 rest) (u8_emit out (U16_PAIR cu lo))
          else err
  end.

Definition utf16_decode (st : td_state_t) (src : list Z) (stream : bool)
    : td_state_t * option (list Z) :=
  let be := bool_decide (encoding st = TD_ENC_UTF16BE) in
  if negb (td_bom_seen st) then
    if (length src <? 2)%nat then pend_tail st stream src []
    else
      let i := if (u16_read src be =? 0xFEFF) && negb (td_ignore_bom st) then 2%nat else 0%nat in
      utf16_loop (length src) (td_set st (pending st) true) be stream (drop i src) []
  else utf16_loop (length src) st be stream src [].

(** ** A call of [decode] *)

Definition invalid_data : outcome (list Z) :=
  js_mkerr_typed JS_ERR_TYPE "The encoded data was not valid.".

(** The decoder that [td_decode] selects, with the state it leaves. *)
Definition td_run (st : td_state_t) (src : list Z) (stream : bool)
    : td_state_t * option (list Z) :=
  match encoding st with
  | TD_ENC_UTF16LE | TD_ENC_UTF16BE => utf16_decode st src stream
  | TD_ENC_WINDOWS_1252 | TD_ENC_ISO_8859_2 =>
      (td_set st [] false, Some (decode_single_byte st src))
  | TD_ENC_UTF8 =>
      let dec := mk_dec (td_ignore_bom st) (td_bom_seen st) [] in
      let '(dec, out) := utf8_whatwg_decode (td_fatal st) stream dec src in
      (td_set st (pend_buf dec) (if stream then bom_seen dec else false), out)
  end.

(** The value returned and the state of the decoder; a write past [out] is [Ub]. *)
Definition td_decode `{Heap} (st : td_state_t) (input : list Z) (stream_mode : bool)
    : td_state_t * outcome (list Z) :=
  let src := pending st ++ input in
  let total := zlen src in
  if total =? 0 then
    (if stream_mode then st else td_set st (pending st) false, Ok [])
  else if (0 <? zlen (pending st)) && negb (malloc total) then (st, js_mkerr "out of memory")
  else
    let st := td_set st [] (td_bom_seen st) in
    if negb (malloc (u64 (total * 3 + 1))) then (st, js_mkerr "out of memory")
    else
      match td_run st src stream_mode with
      | (st, None) => (st, invalid_data)
      | (st, Some out) =>
          let st := if bool_decide (encoding st ≠ TD_ENC_UTF8) && negb stream_mode
                    then td_set st (pending st) false else st in
          if u64 (total * 3 + 1) <? zlen out then (st, Ub) else (st, Ok out)
      end.

End decoders.

(** ** Labels *)

Definition encoding_name (e : td_encoding_t) : string :=
  match e with
  | TD_ENC_UTF16LE => "utf-16le"
  | TD_ENC_UTF16BE => "utf-16be"
  | TD_ENC_WINDOWS_1252 => "windows-1252"
  | TD_ENC_ISO_8859_2 => "iso-8859-2"
  | TD_ENC_UTF8 => "utf-8"
  end.

(** [tolower] in the C locale. *)
Definition lower (c : Z) : Z := if (65 <=? c) && (c <=? 90) then c + 32 else c.

(** [strncasecmp(a, b, n) == 0]: both end at a NUL, which a label has after its last byte. *)
Fixpoint strncase_eq (n : nat) (a b : list Z) : bool :=
  match n with
  | O => true
  | S n =>
      let x := hd 0 a in let y := hd 0 b in
      if lower x =? lower y then if x =? 0 then true else strncase_eq n (tl a) (tl b) else false
  end.

(** The table with the lengths it states. *)
Definition label_map : list (string * nat * td_encoding_t) :=
  [("unicode-1-1-utf-8", 17, TD_ENC_UTF8); ("unicode11utf8", 13, TD_ENC_UTF8);
   ("unicode20utf8", 13, TD_ENC_UTF8); ("utf-8", 5, TD_ENC_UTF8); ("utf8", 4, TD_ENC_UTF8);
   ("x-unicode20utf8", 17, TD_ENC_UTF8);
   ("ansi_x3.4-1968", 14, TD_ENC_WINDOWS_1252); ("ascii", 5, TD_ENC_WINDOWS_1252);
   ("cp1252", 6, TD_ENC_WINDOWS_1252); ("cp819", 5, TD_ENC_WINDOWS_1252);
   ("csisolatin1", 11, TD_ENC_WINDOWS_1252); ("ibm819", 6, TD_ENC_WINDOWS_1252);
   ("iso-8859-1", 10, TD_ENC_WINDOWS_1252); ("iso-ir-100", 10, TD_ENC_WINDOWS_1252);
   ("iso8859-1", 9, TD_ENC_WINDOWS_1252); ("iso88591", 8, TD_ENC_WINDOWS_1252);
   ("iso_8859-1", 10, TD_ENC_WINDOWS_1252); ("iso_8859-1:1987", 15, TD_ENC_WINDOWS_1252);
   ("l1", 2, TD_ENC_WINDOWS_1252); ("latin1", 6, TD_ENC_WINDOWS_1252);
   ("us-ascii", 8, TD_ENC_WINDOWS_1252); ("windows-1252", 12, TD_ENC_WINDOWS_1252);
   ("x-cp1252", 8, TD_ENC_WINDOWS_1252);
   ("unicodefffe", 11, TD_ENC_UTF16BE); ("utf-16be", 8, TD_ENC_UTF16BE);
   ("csunicode", 9, TD_ENC_UTF16LE); ("iso-10646-ucs-2", 16, TD_ENC_UTF16LE);
   ("ucs-2", 5, TD_ENC_UTF16LE); ("unicode", 7, TD_ENC_UTF16LE);
   ("unicodefeff", 11, TD_ENC_UTF16LE); ("utf-16", 6, TD_ENC_UTF16LE);
   ("utf-16le", 8, TD_ENC_UTF16LE); ("iso-8859-2", 10, TD_ENC_ISO_8859_2)]%nat.

Definition resolve_encoding (s : list Z) : option td_encoding_t :=
  snd <$> List.find (λ '(label, len, _), (length s =? len)%nat && strncase_eq len s (bytes label))
            label_map.

Fixpoint skip_low (s : list Z) : list Z :=
  match s with
  | c :: s' => if c <=? 0x20 then skip_low s' else s
  | [] => []
  end.

Definition trim_label (s : list Z) : list Z := rev (skip_low (rev (skip_low s))).

(** The C string of bytes, for a message. *)
Definition of_bytes (s : list Z) : string :=
  String.string_of_list_ascii ((λ b, Ascii.ascii_of_N (Z.to_N b)) <$> s).

Definition bad_label (trimmed : list Z) : string :=
  "Failed to construct 'TextDecoder': The encoding label provided ('"
  +:+ of_bytes trimmed +:+ "') is invalid.".

(** The constructor: [new_target] says it was called with [new], [label] is the string of the
    first argument when there is one, and the two flags the options as booleans.  The object
    that holds the state belongs to the engine. *)
Definition js_textdecoder_ctor `{Heap} (new_target : bool) (label : option (list Z))
    (fatal ignore_bom : bool) : outcome td_state_t :=
  if negb new_target
  then js_mkerr_typed JS_ERR_TYPE "TextDecoder constructor requires 'new'"
  else
    enc ← match label with
          | Some raw =>
              let trimmed := trim_label raw in
              match resolve_encoding trimmed with
              | Some e => Ok e
              | None => js_mkerr_typed JS_ERR_RANGE (bad_label trimmed)
              end
          | None => Ok TD_ENC_UTF8
          end;
    match td_state_new enc fatal ignore_bom with
    | Some st => Ok st
    | None => js_mkerr "out of memory"
    end.

(** ** What decoding means

    A text of bytes reads as a sequence of code points: a well-formed sequence is its
    character, and a maximal subpart of one that cannot be completed, or a byte that cannot
    start one, is U+FFFD (Unicode, 3.9, best practice for replacement). *)

Definition viable (p : list Z) : Prop := ∃ w, wellformed w ∧ p `prefix_of` w.

(** [p] is replaced when [s] follows. *)
Definition ill_formed (p s : list Z) : Prop :=
  p ≠ [] ∧ ¬ wellformed p ∧ (viable p ∨ length p = 1%nat) ∧
  match s with [] => True | b :: _ => ¬ viable (p ++ [b]) end.

(** The last index says whether anything was replaced. *)
Inductive decodes : list Z → list Z → bool → Prop :=
  | decodes_nil : decodes [] [] false
  | decodes_char cp s cps e :
      scalar cp → decodes s cps e → decodes (enc cp ++ s) (cp :: cps) e
  | decodes_bad p s cps e :
      ill_formed p s → decodes s cps e → decodes (p ++ s) (0xFFFD :: cps) true.

(** A leading byte order mark is dropped unless one was asked for or text came before. *)
Definition strip (dec : utf8_dec_t) (cps : list Z) : list Z :=
  match cps with
  | cp :: rest =>
      if negb (bom_seen dec) && (cp =? 0xFEFF) && negb (ignore_bom dec) then rest else cps
  | [] => []
  end.

(** *** Prefixes of well-formed sequences *)

(** The states at [cont]: the bytes read, how many are to come, and the range of the next. *)
Inductive partial : nat → Z → Z → Z → list Z → Prop :=
  | partial_2 a : 0xc2 <= a <= 0xdf → partial 1 0x80 0xbf (a - 0xc0) [a]
  | partial_3 a : 0xe0 <= a <= 0xef →
      partial 2 (if a =? 0xe0 then 0xa0 else 0x80) (if a =? 0xed then 0x9f else 0xbf)
        (a - 0xe0) [a]
  | partial_3b a b : 0xe0 <= a <= 0xef → 0x80 <= b <= 0xbf → (a = 0xe0 → 0xa0 <= b) →
      (a = 0xed → b <= 0x9f) → partial 1 0x80 0xbf ((a - 0xe0) * 64 + (b - 0x80)) [a; b]
  | partial_4 a : 0xf0 <= a <= 0xf4 →
      partial 3 (if a =? 0xf0 then 0x90 else 0x80) (if a =? 0xf4 then 0x8f else 0xbf)
        (a - 0xf0) [a]
  | partial_4b a b : 0xf0 <= a <= 0xf4 → 0x80 <= b <= 0xbf → (a = 0xf0 → 0x90 <= b) →
      (a = 0xf4 → b <= 0x8f) → partial 2 0x80 0xbf ((a - 0xf0) * 64 + (b - 0x80)) [a; b]
  | partial_4c a b c : 0xf0 <= a <= 0xf4 → 0x80 <= b <= 0xbf → (a = 0xf0 → 0x90 <= b) →
      (a = 0xf4 → b <= 0x8f) → 0x80 <= c <= 0xbf →
      partial 1 0x80 0xbf (((a - 0xf0) * 64 + (b - 0x80)) * 64 + (c - 0x80)) [a; b; c].

(** [(cp << 6) | (b & 0x3F)] on a continuation byte. *)
Lemma append_bits v b :
  0 <= v → 0x80 <= b <= 0xbf → (v <<' 6) |' (b &' 0x3F) = v * 64 + (b - 0x80).
Proof.
  intros Hv Hb. rewrite (land_mask_eq b 0x3F 6), shiftl_mul by done.
  assert (b mod 2 ^ 6 = b - 0x80) as -> by word. by rewrite lor_add_low by lia.
Qed.

Lemma partial_range bc lo hi cp pb b :
  partial bc lo hi cp pb → lo <= b <= hi → 0x80 <= b <= 0xbf ∧ 0 <= cp.
Proof. destruct 1; repeat case_ltb; lia. Qed.

Lemma partial_step bc lo hi cp pb b :
  partial bc lo hi cp pb → lo <= b <= hi → bc ≠ 1%nat →
  partial (bc - 1) 0x80 0xBF ((cp <<' 6) |' (b &' 0x3F)) (pb ++ [b]).
Proof.
  intros Hp Hb Hbc. destruct (partial_range _ _ _ _ _ _ Hp Hb) as [Hr Hcp].
  rewrite append_bits by done.
  destruct Hp; try done; cbn [app Nat.sub]; constructor; try done; intros ->; simpl in Hb; lia.
Qed.

Lemma partial_last lo hi cp pb b :
  partial 1 lo hi cp pb → lo <= b <= hi →
  let cp' := (cp <<' 6) |' (b &' 0x3F) in scalar cp' ∧ enc cp' = pb ++ [b].
Proof.
  intros Hp Hb. destruct (partial_range _ _ _ _ _ _ Hp Hb) as [Hr Hcp]. cbv zeta.
  rewrite append_bits by done. unfold scalar.
  inversion Hp as [a Ha| |a b' Ha Hb' H1 H2| | |a b' c Ha Hb' H1 H2 Hc]; subst; cbn [app].
  - split; [lia|]. by apply enc_2.
  - split; [lia|]. rewrite <- (enc_3 a b' b) by done. f_equal. lia.
  - split; [lia|]. rewrite <- (enc_4 a b' c b) by done. f_equal. lia.
Qed.

Lemma partial_incomplete bc lo hi cp pb : partial bc lo hi cp pb → ¬ wellformed pb ∧ pb ≠ [].
Proof. intros Hp. split; [intros Hw|]; destruct Hp; try done; inversion Hw; lia. Qed.

Lemma partial_viable bc lo hi cp pb : partial bc lo hi cp pb → viable pb.
Proof.
  destruct 1 as [a Ha|a Ha|a b Ha Hb H1 H2|a Ha|a b Ha Hb H1 H2|a b c Ha Hb H1 H2 Hc].
  - exists [a; 0x80]. split; [constructor; lia|by exists [0x80]].
  - exists [a; if a =? 0xe0 then 0xa0 else 0x80; 0x80].
    split; [constructor; repeat case_ltb; lia|by eexists].
  - exists [a; b; 0x80]. split; [constructor; auto; lia|by eexists].
  - exists [a; if a =? 0xf0 then 0x90 else 0x80; 0x80; 0x80].
    split; [constructor; repeat case_ltb; lia|by eexists].
  - exists [a; b; 0x80; 0x80]. split; [constructor; auto; lia|by eexists].
  - exists [a; b; c; 0x80]. split; [constructor; auto; lia|by eexists].
Qed.

Lemma partial_stuck bc lo hi cp pb b :
  partial bc lo hi cp pb → b < lo ∨ hi < b → ¬ viable (pb ++ [b]).
Proof.
  intros Hp Hb (w & Hw & [k ->]).
  destruct Hp; cbn [app] in Hw; inversion Hw; subst; revert Hb; repeat case_ltb; lia.
Qed.

(** The table: a byte is a character, the start of a sequence, or neither. *)
Lemma tbl_spec b :
  byte_ok b →
  match tbl b with
  | L_ASCII => 0 <= b < 0x80
  | L_BAD => ¬ viable [b]
  | L_LEAD bc lo hi cp => partial bc lo hi cp [b]
  end.
Proof.
  unfold byte_ok. intros Hb. unfold tbl.
  assert (∀ k, 0 <= k → b &' (2 ^ k - 1) = b mod 2 ^ k) as Hm by (intros; by apply land_mask).
  pose proof (Hm 5) as H5. pose proof (Hm 4) as H4. pose proof (Hm 3) as H3. clear Hm.
  change (2 ^ 5 - 1) with 0x1F in H5. change (2 ^ 4 - 1) with 0x0F in H4.
  change (2 ^ 3 - 1) with 0x07 in H3. rewrite H5, H4, H3 by lia. clear H5 H4 H3.
  assert (b < 0xc2 ∧ 0x80 <= b ∨ 0xf5 <= b → ¬ viable [b]) as Hbad.
  { intros Hr (w & Hw & [k ->]). inversion Hw; subst; lia. }
  repeat (case_ltb; [try lia; try (apply Hbad; lia)|]); try (apply Hbad; lia).
  - replace (b mod 2 ^ 5) with (b - 0xc0) by word. constructor. lia.
  - subst b. by apply (partial_3 0xe0).
  - replace (b mod 2 ^ 4) with (b - 0xe0) by word. pose proof (partial_3 b ltac:(lia)) as Hp.
    by rewrite !(proj2 (Z.eqb_neq b _)) in Hp by lia.
  - subst b. by apply (partial_3 0xed).
  - replace (b mod 2 ^ 4) with (b - 0xe0) by word. pose proof (partial_3 b ltac:(lia)) as Hp.
    by rewrite !(proj2 (Z.eqb_neq b _)) in Hp by lia.
  - subst b. by apply (partial_4 0xf0).
  - replace (b mod 2 ^ 3) with (b - 0xf0) by word. pose proof (partial_4 b ltac:(lia)) as Hp.
    by rewrite !(proj2 (Z.eqb_neq b _)) in Hp by lia.
  - subst b. by apply (partial_4 0xf4).
Qed.

(** A first byte leads to the one state it can lead to. *)
Lemma tbl_lead bc lo hi cp a : partial bc lo hi cp [a] → tbl a = L_LEAD bc lo hi cp.
Proof.
  intros Hp. assert (byte_ok a) as Ha by (inversion Hp; subst; unfold byte_ok; lia).
  pose proof (tbl_spec a Ha) as Ht. pose proof (partial_viable _ _ _ _ _ Hp).
  destruct (tbl a) as [| |bc' lo' hi' cp'] eqn:E; [inversion Hp; lia|done|].
  inversion Hp; inversion Ht; subst; try lia; done.
Qed.

(** *** The decoder follows the definition *)

Definition at_mode (md : mode) (pb : list Z) : Prop :=
  match md with
  | Dispatch => pb = []
  | Cont bc lo hi cp pb' => pb' = pb ∧ partial bc lo hi cp pb
  end.

Lemma viable_prefix p q : viable (p ++ q) → viable p.
Proof.
  intros (w & Hw & Hp). exists w. split; [done|]. etrans; [|exact Hp]. by apply prefix_app_r.
Qed.

Lemma wellformed_viable p : wellformed p → viable p.
Proof. intros Hw. by exists p. Qed.

(** A byte that starts nothing is replaced alone. *)
Lemma ill_formed_byte b s : ¬ viable [b] → ill_formed [b] s.
Proof.
  intros Hb. split; [done|]. split; [intros Hw; by apply Hb, wellformed_viable|].
  split; [by right|]. destruct s as [|b' s]; [done|].
  intros Hv. by apply Hb, (viable_prefix [b] [b']).
Qed.

Lemma ill_formed_partial bc lo hi cp pb s :
  partial bc lo hi cp pb → match s with [] => True | b :: _ => b < lo ∨ hi < b end →
  ill_formed pb s.
Proof.
  intros Hp Hs. destruct (partial_incomplete _ _ _ _ _ Hp). split; [done|]. split; [done|].
  split; [left; by eapply partial_viable|]. destruct s as [|b s]; [done|].
  by eapply partial_stuck.
Qed.

Lemma enc_ascii b : 0 <= b < 0x80 → enc b = [b].
Proof. intros Hb. unfold enc. by rewrite (proj2 (Z.ltb_lt b 0x80)) by lia. Qed.

Lemma out_of_range b lo hi : (b <? lo) || (hi <? b) = true ↔ b < lo ∨ hi < b.
Proof. by rewrite orb_true_iff, !Z.ltb_lt. Qed.

Section utf8_proofs.
Context `{Utf8proc}.

(** A byte at [cont]: when it is refused, the machine is at the table with that byte. *)
Lemma whatwg_cont_cons fatal stream bc lo hi cp pb dec b s out :
  whatwg_loop fatal stream (Cont bc lo hi cp pb) dec (b :: s) out
  = if (b <? lo) || (hi <? b) then
      if fatal then (dec, None)
      else whatwg_loop fatal stream Dispatch (see dec) (b :: s) (out ++ FFFD)
    else
      let cp := (cp <<' 6) |' (b &' 0x3F) in
      if (bc =? 1)%nat
      then let '(dec, out) := emit_char dec cp out in whatwg_loop fatal stream Dispatch dec s out
      else whatwg_loop fatal stream (Cont (bc - 1) 0x80 0xBF cp (pb ++ [b])) dec s out.
Proof. done. Qed.

Lemma strip_seen dec cps : strip (see dec) cps = cps.
Proof. by destruct cps. Qed.

(** What [emit_char] appends, as [strip] sees it. *)
Lemma emit_char_spec dec cp out cps :
  scalar cp →
  let '(dec', out') := emit_char dec cp out in
  dec' = see dec ∧ out' ++ encode (strip dec' cps) = out ++ encode (strip dec (cp :: cps)).
Proof.
  intros Hcp. unfold emit_char. cbn [strip]. destruct (_ && _); (split; [done|]);
    rewrite strip_seen; [done|].
  rewrite utf8proc_encode_char_law by done. by rewrite <- app_assoc.
Qed.

(** The result of decoding [s] with [dec] from [out] on. *)
Definition reads (fatal : bool) (dec : utf8_dec_t) (s out : list Z)
    (r : utf8_dec_t * option (list Z)) (cps : list Z) (e : bool) : Prop :=
  decodes s cps e ∧ Forall scalar cps ∧
  r.2 = if fatal && e then None else Some (out ++ encode (strip dec cps)).

Lemma reads_char fatal dec dec' s out out' r cp cps e :
  scalar cp → reads fatal dec' s out' r cps e →
  out' ++ encode (strip dec' cps) = out ++ encode (strip dec (cp :: cps)) →
  reads fatal dec (enc cp ++ s) out r (cp :: cps) e.
Proof.
  intros Hcp (Hd & Hs & Hr) E. split; [by constructor|]. split; [by constructor|].
  by rewrite Hr, E.
Qed.

Lemma scalar_FFFD : scalar 0xFFFD.
Proof. unfold scalar. lia. Qed.

Lemma reads_bad dec dec' p s out r cps e :
  ill_formed p s → reads false dec' s (out ++ FFFD) r cps e → bom_seen dec' = true →
  reads false dec (p ++ s) out r (0xFFFD :: cps) true.
Proof.
  intros Hp (Hd & Hs & Hr) Hb. split; [by econstructor|].
  split; [constructor; [apply scalar_FFFD|done]|]. rewrite Hr. cbn [andb]. f_equal.
  assert (strip dec' cps = cps) as ->.
  { unfold strip. rewrite Hb. by destruct cps. }
  assert (strip dec (0xFFFD :: cps) = 0xFFFD :: cps) as ->.
  { cbn. by rewrite andb_false_r. }
  by rewrite <- app_assoc.
Qed.

Lemma reads_fatal dec dec' p s out out' r cps e :
  ill_formed p s → reads true dec' s out' r cps e →
  reads true dec (p ++ s) out (dec, None) (0xFFFD :: cps) true.
Proof.
  intros Hp (Hd & Hs & _). split; [by econstructor|].
  split; [constructor; [apply scalar_FFFD|done]|]. done.
Qed.

Lemma whatwg_reads fatal s md pb dec out :
  Forall byte_ok s → at_mode md pb →
  ∃ cps e, reads fatal dec (pb ++ s) out (whatwg_loop fatal false md dec s out) cps e.
Proof.
  intros Hs. revert md pb dec out. induction Hs as [|b s Hb Hs IH]; intros md pb dec out Hmd.
  { rewrite app_nil_r. destruct md as [|bc lo hi cp pb'].
    - simpl in Hmd. subst. exists [], false. split; [constructor|]. split; [constructor|].
      simpl. by rewrite andb_false_r, app_nil_r.
    - destruct Hmd as [-> Hp]. exists [0xFFFD], true.
      assert (ill_formed pb []) as Hi by (by eapply ill_formed_partial).
      split; [rewrite <- (app_nil_r pb); by econstructor; [|constructor]|].
      split; [by constructor; [apply scalar_FFFD|]|].
      simpl. rewrite andb_false_r. by destruct fatal. }
  assert (∀ dec out, ∃ cps e, reads fatal dec (b :: s) out
    (whatwg_loop fatal false Dispatch dec (b :: s) out) cps e) as Henter.
  { clear dec out pb md Hmd. intros dec out. pose proof (tbl_spec b Hb) as Ht. cbn [whatwg_loop].
    destruct (tbl b) as [| |bc lo hi cp].
    - destruct (IH Dispatch [] (see dec) (out ++ [b]) eq_refl) as (cps & e & Hr).
      exists (b :: cps), e. assert (b :: s = enc b ++ s) as -> by (by rewrite enc_ascii).
      eapply reads_char; [unfold scalar; lia|exact Hr|]. rewrite strip_seen. cbn [strip].
      rewrite (proj2 (Z.eqb_neq b 0xFEFF)), andb_false_r by lia. cbn [andb].
      change (encode (b :: cps)) with (enc b ++ encode cps).
      by rewrite (enc_ascii b Ht), <- app_assoc.
    - destruct (IH Dispatch [] (see dec) (out ++ FFFD) eq_refl) as (cps & e & Hr).
      exists (0xFFFD :: cps), true. change (b :: s) with ([b] ++ s).
      destruct fatal; [by eapply reads_fatal; [apply ill_formed_byte|]|].
      by eapply reads_bad; [apply ill_formed_byte| |].
    - by apply (IH (Cont bc lo hi cp [b]) [b]). }
  destruct md as [|bc lo hi cp pb']; [simpl in Hmd; subst; apply Henter|].
  destruct Hmd as [-> Hp].
  rewrite whatwg_cont_cons.
  destruct ((b <? lo) || (hi <? b)) eqn:Eb.
  - apply out_of_range in Eb.
    destruct (Henter (see dec) (out ++ FFFD)) as (cps & e & Hr). exists (0xFFFD :: cps), true.
    assert (ill_formed pb (b :: s)) by (by eapply ill_formed_partial).
    destruct fatal; [by eapply reads_fatal|by eapply reads_bad].
  - apply in_range_spec in Eb. cbv zeta. rewrite (cons_middle b pb s), app_assoc.
    destruct (Nat.eqb_spec bc 1) as [->|Hbc].
    + destruct (partial_last _ _ _ _ _ Hp Eb) as [Hcp <-].
      set (c := (cp <<' 6) |' (b &' 0x3F)) in *. clearbody c.
      destruct (emit_char dec c out) as [dec' out'] eqn:Ee.
      destruct (IH Dispatch [] dec' out' eq_refl) as (cps & e & Hr). exists (c :: cps), e.
      pose proof (emit_char_spec dec c out cps Hcp) as He. rewrite Ee in He.
      destruct He as [_ He]. by eapply reads_char.
    + apply IH. split; [done|]. by apply (partial_step _ lo hi).
Qed.

End utf8_proofs.

(** *** Nothing is replaced exactly in valid text *)

Lemma scalar_wellformed cp : scalar cp → wellformed (enc cp).
Proof. intros Hc. apply wellformed_enc. eauto. Qed.

Lemma decodes_valid s cps : decodes s cps false → Forall scalar cps ∧ s = encode cps.
Proof.
  remember false as e eqn:He. induction 1 as [|cp s cps e Hcp Hd IH|]; [by split|..|done].
  destruct (IH He) as [Hs ->]. split; [by constructor|done].
Qed.

(** A well-formed sequence is not a strict prefix of another. *)
Lemma wellformed_prefix w k : wellformed w → wellformed (w ++ k) → k = [].
Proof.
  intros Hw Hk. pose proof (wellformed_round w (k ++ []) Hw) as E1.
  pose proof (wellformed_round (w ++ k) [] Hk) as E2.
  rewrite <- app_assoc, E1 in E2. injection E2 as E2. by rewrite app_nil_r in E2.
Qed.

Lemma ill_formed_not_first p s w t : ill_formed p s → wellformed w → p ++ s ≠ w ++ t.
Proof.
  intros (Hne & Hnw & Hv & Hnext) Hw E.
  destruct (app_eq_inv _ _ _ _ E) as [(k & -> & _)|(k & -> & ->)].
  - destruct k as [|x k]; [by rewrite app_nil_r in Hnw|]. destruct Hv as [(w' & Hw' & [k' ->])|Hl].
    + rewrite <- app_assoc in Hw'. apply wellformed_prefix in Hw'; done.
    + rewrite length_app in Hl. destruct w; [inversion Hw|simpl in Hl; lia].
  - destruct k as [|x k]; [by rewrite app_nil_r in Hw|]. apply Hnext.
    eexists. split; [exact Hw|]. exists k. by rewrite <- app_assoc.
Qed.

Lemma decodes_invalid s cps cps' : decodes s cps true → Forall scalar cps' → s ≠ encode cps'.
Proof.
  remember true as e eqn:He. intros Hd. revert cps'.
  induction Hd as [|cp s cps e Hcp Hd IH|p s cps e Hp Hd IH]; [done|..]; intros cps' Hs E.
  - pose proof (wellformed_round (enc cp) s (scalar_wellformed cp Hcp)) as E1.
    destruct Hs as [|c cs Hc Hs]; [destruct (enc cp) eqn:Ec; [|done]; pose proof (enc_length cp);
      rewrite Ec in *; simpl in *; lia|].
    rewrite encode_cons in E. rewrite E, wellformed_round in E1 by (by apply scalar_wellformed).
    injection E1 as <-. by apply (IH He cs).
  - destruct Hs as [|c cs Hc Hs]; [destruct Hp as [Hne _]; by apply app_nil in E as [-> _]|].
    rewrite encode_cons in E. by eapply ill_formed_not_first, E; [|apply scalar_wellformed].
Qed.

Lemma decodes_validate s cps e :
  Forall byte_ok s → decodes s cps e → e = negb (utf8_validate_bytes s).
Proof.
  intros Hs Hd. pose proof (utf8_validate_bytes_iff s Hs) as Hv. destruct e.
  - destruct (utf8_validate_bytes s); [|done]. destruct Hv as [Hv _].
    destruct (Hv eq_refl) as (cps' & Hc & E). by destruct (decodes_invalid _ _ cps' Hd Hc).
  - apply decodes_valid in Hd as [Hc E]. by rewrite (proj2 Hv) by eauto.
Qed.

(** Three bytes of output for each byte of input are enough. *)
Lemma decodes_length s cps e : decodes s cps e → (length (encode cps) <= 3 * length s)%nat.
Proof.
  induction 1 as [|cp s cps e Hcp Hd IH|p s cps e Hp Hd IH]; [done|..];
    rewrite encode_cons, !length_app; [lia|].
  destruct Hp as [Hne _]. destruct p; [done|]. simpl. change (length (enc 0xFFFD)) with 3%nat. lia.
Qed.

Lemma strip_length dec cps : (length (encode (strip dec cps)) <= length (encode cps))%nat.
Proof.
  destruct cps as [|cp cps]; [done|]. cbn [strip].
  destruct (_ && _); rewrite ?encode_cons, ?length_app; lia.
Qed.

(** ** Decoding in pieces *)

Section streaming.
Context `{Utf8proc}.
Variable fatal : bool.

Definition append_to (o : list Z) (r : utf8_dec_t * option (list Z))
    : utf8_dec_t * option (list Z) := (r.1, app o <$> r.2).

(** Output only grows. *)
Lemma whatwg_out stream md dec s o out :
  whatwg_loop fatal stream md dec s (o ++ out)
  = append_to o (whatwg_loop fatal stream md dec s out).
Proof.
  revert md dec out. induction s as [|b s IH]; intros md dec out.
  { destruct md; [done|]. cbn. destruct stream; [done|]. destruct fatal; [done|].
    unfold append_to. cbn. by rewrite app_assoc. }
  assert (∀ dec out, whatwg_loop fatal stream Dispatch dec (b :: s) (o ++ out)
    = append_to o (whatwg_loop fatal stream Dispatch dec (b :: s) out)) as Henter.
  { clear dec out. intros dec out. cbn [whatwg_loop].
    destruct (tbl b); [rewrite <- app_assoc; apply IH| |apply IH].
    destruct fatal; [done|]. rewrite <- app_assoc. apply IH. }
  destruct md as [|bc lo hi cp pb]; [apply Henter|]. rewrite !whatwg_cont_cons.
  destruct (_ || _).
  - destruct fatal; [done|]. rewrite <- app_assoc. apply Henter.
  - destruct (bc =? 1)%nat; [|apply IH]. unfold emit_char.
    destruct (_ && _); [apply IH|]. rewrite <- app_assoc. apply IH.
Qed.

(** Bytes kept from an earlier call lead back to the state they were kept in. *)
Lemma whatwg_rewind stream bc lo hi cp pb dec s out :
  partial bc lo hi cp pb →
  whatwg_loop fatal stream Dispatch dec (pb ++ s) out
  = whatwg_loop fatal stream (Cont bc lo hi cp pb) dec s out.
Proof.
  assert (∀ bc lo hi cp pb b s, partial bc lo hi cp pb → lo <= b <= hi → bc ≠ 1%nat →
    whatwg_loop fatal stream (Cont bc lo hi cp pb) dec (b :: s) out
    = whatwg_loop fatal stream (Cont (bc - 1) 0x80 0xBF (cp * 64 + (b - 0x80)) (pb ++ [b])) dec s out)
    as Hmore.
  { clear. intros bc lo hi cp pb b s Hp Hb Hbc. rewrite whatwg_cont_cons.
    destruct (partial_range _ _ _ _ _ _ Hp Hb) as [Hr Hcp].
    by rewrite (proj2 (in_range_spec _ _ _) Hb), (proj2 (Nat.eqb_neq bc 1) Hbc), append_bits. }
  assert (∀ bc lo hi cp a s, partial bc lo hi cp [a] →
    whatwg_loop fatal stream Dispatch dec (a :: s) out
    = whatwg_loop fatal stream (Cont bc lo hi cp [a]) dec s out) as Hfirst.
  { clear. intros bc lo hi cp a s Hp. cbn [whatwg_loop]. by rewrite (tbl_lead _ _ _ _ _ Hp). }
  destruct 1 as [a Ha|a Ha|a b Ha Hb H1 H2|a Ha|a b Ha Hb H1 H2|a b c Ha Hb H1 H2 Hc]; cbn [app].
  - by apply Hfirst, partial_2.
  - by apply Hfirst, partial_3.
  - erewrite Hfirst by (by apply partial_3). rewrite Hmore; [done|by apply partial_3| |done].
    repeat case_ltb; lia.
  - by apply Hfirst, partial_4.
  - erewrite Hfirst by (by apply partial_4). rewrite Hmore; [done|by apply partial_4| |done].
    repeat case_ltb; lia.
  - erewrite Hfirst by (by apply partial_4). rewrite Hmore; [|by apply partial_4| |done].
    + rewrite Hmore; [done|by apply partial_4b|lia|done].
    + repeat case_ltb; lia.
Qed.

(** Cutting the input anywhere, keeping what is unfinished, and going on. *)
Lemma whatwg_split stream md pb dec s1 s2 out :
  Forall byte_ok s1 → at_mode md pb → pend_buf dec = [] →
  whatwg_loop fatal stream md dec (s1 ++ s2) out
  = match whatwg_loop fatal true md dec s1 out with
    | (dec', Some out') =>
        whatwg_loop fatal stream Dispatch (mk_dec (ignore_bom dec') (bom_seen dec') [])
          (pend_buf dec' ++ s2) out'
    | (dec', None) => (dec', None)
    end.
Proof.
  intros Hs. revert md pb dec out. induction Hs as [|b s1 Hb Hs IH]; intros md pb dec out Hmd Hd.
  { destruct dec as [ign seen pend]. simpl in Hd. subst pend.
    destruct md as [|bc lo hi cp pb']; [done|]. destruct Hmd as [-> Hp]. cbn.
    by rewrite (whatwg_rewind _ bc lo hi cp). }
  assert (∀ dec out, pend_buf dec = [] →
    whatwg_loop fatal stream Dispatch dec ((b :: s1) ++ s2) out
    = match whatwg_loop fatal true Dispatch dec (b :: s1) out with
      | (dec', Some out') =>
          whatwg_loop fatal stream Dispatch (mk_dec (ignore_bom dec') (bom_seen dec') [])
            (pend_buf dec' ++ s2) out'
      | (dec', None) => (dec', None)
      end) as Henter.
  { clear dec out Hd md Hmd pb. intros dec out Hd. pose proof (tbl_spec b Hb) as Ht.
    cbn [app whatwg_loop]. destruct (tbl b) as [| |bc lo hi cp].
    - by apply (IH Dispatch []).
    - destruct fatal; [done|]. by apply (IH Dispatch []).
    - by apply (IH (Cont bc lo hi cp [b]) [b]). }
  destruct md as [|bc lo hi cp pb']; [by apply Henter|]. destruct Hmd as [-> Hp].
  rewrite <- app_comm_cons, !whatwg_cont_cons. destruct (_ || _) eqn:Eb; [destruct fatal; [done|]; by apply Henter|].
  apply in_range_spec in Eb. cbv zeta. destruct (Nat.eqb_spec bc 1) as [->|Hbc].
  - destruct (emit_char dec ((cp <<' 6) |' (b &' 0x3F)) out) as [dec' out'] eqn:Ee.
    apply (IH Dispatch []); [done|]. unfold emit_char in Ee. by destruct (_ && _); simplify_eq.
  - apply (IH (Cont _ _ _ _ _) (pb ++ [b])); [|done]. split; [done|].
    by apply (partial_step _ lo hi).
Qed.

End streaming.

(** *** UTF-16 *)

Section utf16.
Context `{Utf8proc}.
Variable be : bool.

Lemma u16_read_app x y rest : u16_read (x :: y :: rest) be = u16_read [x; y] be.
Proof. done. Qed.

(** The loop on at least one unit, with recursive calls on what is left. *)
Lemma utf16_unit rounds st stream x y rest out :
  utf16_loop (S rounds) st be stream (x :: y :: rest) out
  = let cu := u16_read [x; y] be in
    let err := if td_fatal st then (st, None)
               else utf16_loop rounds st be stream rest (u8_fffd out) in
    if negb (U16_IS_HIGH cu) && negb (U16_IS_LOW cu)
    then utf16_loop rounds st be stream rest (u8_emit out cu)
    else if U16_IS_LOW cu then err
    else match rest with
         | z :: t :: rest' =>
             let lo := u16_read [z; t] be in
             if U16_IS_LOW lo
             then utf16_loop rounds st be stream rest' (u8_emit out (U16_PAIR cu lo))
             else err
         | _ => pend_hi st stream (x :: y :: rest) out
         end.
Proof.
  cbn [utf16_loop length Nat.eqb Nat.ltb Nat.leb drop]. rewrite u16_read_app.
  destruct (_ && _); [done|]. destruct (U16_IS_LOW _); [done|].
  destruct rest as [|z [|t rest']]; [done..|]. cbn [length Nat.ltb Nat.leb drop].
  by rewrite u16_read_app.
Qed.

Lemma utf16_fuel n r1 r2 st stream src out :
  (length src <= n)%nat → (length src <= r1)%nat → (length src <= r2)%nat →
  utf16_loop r1 st be stream src out = utf16_loop r2 st be stream src out.
Proof.
  revert r1 r2 src out. induction n as [|n IH]; intros r1 r2 src out Hn H1 H2.
  { destruct src; [|simpl in Hn; lia]. by destruct r1, r2. }
  destruct src as [|x [|y rest]]; [by destruct r1, r2|destruct r1, r2; simpl in *; try lia; done|].
  simpl in Hn, H1, H2. destruct r1 as [|r1], r2 as [|r2]; [lia..|]. rewrite !utf16_unit. cbv zeta.
  destruct (_ && _); [apply IH; lia|].
  assert (∀ o, utf16_loop r1 st be stream rest o = utf16_loop r2 st be stream rest o) as Hrest
    by (intros; apply IH; lia).
  destruct (U16_IS_LOW _); [by rewrite Hrest|].
  destruct rest as [|z [|t rest']]; [done..|]. simpl in *.
  destruct (U16_IS_LOW _); [apply IH; lia|by rewrite Hrest].
Qed.

Lemma utf16_nil rounds st stream out : utf16_loop rounds st be stream [] out = (st, Some out).
Proof. by destruct rounds. Qed.

Lemma utf16_split n r r1 r2 st stream s1 s2 out :
  pending st = [] → (length s1 <= n)%nat →
  (length (s1 ++ s2) <= r)%nat → (length s1 <= r1)%nat → (length (s1 ++ s2) <= r2)%nat →
  utf16_loop r st be stream (s1 ++ s2) out
  = match utf16_loop r1 st be true s1 out with
    | (st1, Some o1) => utf16_loop r2 st be stream (pending st1 ++ s2) o1
    | (st1, None) => (st1, None)
    end.
Proof.
  intros Hp. revert r r1 r2 s1 out. induction n as [|n IH]; intros r r1 r2 s1 out Hn Hr H1 H2.
  { destruct s1; [|simpl in Hn; lia]. rewrite utf16_nil, Hp. by apply (utf16_fuel r). }
  destruct s1 as [|x [|y rest]].
  - rewrite utf16_nil, Hp. by apply (utf16_fuel r).
  - destruct r1 as [|r1]; [simpl in H1; lia|]. cbn. by apply (utf16_fuel r).
  - rewrite !length_app in *. simpl in Hn, Hr, H1, H2.
    destruct r as [|r]; [lia|]. destruct r1 as [|r1]; [lia|].
    assert (∀ o, utf16_loop r st be stream (rest ++ s2) o
      = match utf16_loop r1 st be true rest o with
        | (st1, Some o1) => utf16_loop r2 st be stream (pending st1 ++ s2) o1
        | (st1, None) => (st1, None)
        end) as Hrest by (intros; apply IH; rewrite ?length_app; lia).
    rewrite (utf16_unit r1). cbv zeta.
    destruct (_ && _) eqn:Eu; [cbn [app]; rewrite utf16_unit; cbv zeta; by rewrite Eu|].
    destruct (U16_IS_LOW _) eqn:El.
    { cbn [app]. rewrite utf16_unit. cbv zeta. rewrite El, Eu. by destruct (td_fatal st). }
    destruct rest as [|z [|t rest']].
    1, 2: unfold pend_hi; cbn [pending td_set];
      apply (utf16_fuel (S r)); simpl in *; rewrite ?length_app; simpl; lia.
    cbn [app]. rewrite utf16_unit. cbv zeta. rewrite El, Eu. simpl in *.
    destruct (U16_IS_LOW (u16_read [z; t] be)); [apply IH; rewrite ?length_app; lia|].
    by destruct (td_fatal st).
Qed.

(** Output only grows. *)
Lemma utf16_out rounds st stream src o out :
  utf16_loop rounds st be stream src (o ++ out)
  = let r := utf16_loop rounds st be stream src out in (r.1, app o <$> r.2).
Proof.
  revert src out. induction rounds as [|rounds IH]; intros src out; [done|].
  destruct src as [|x [|y rest]]; [done|..].
  - cbn. unfold pend_tail. destruct stream; [done|]. destruct (td_fatal st); [done|].
    cbn. unfold u8_fffd. by rewrite app_assoc.
  - rewrite !utf16_unit. cbv zeta. unfold u8_emit, u8_fffd. rewrite <- !app_assoc.
    destruct (_ && _); [apply IH|]. destruct (U16_IS_LOW _); [by destruct (td_fatal st); [|apply IH]|].
    assert (∀ l, pend_hi st stream l (o ++ out)
      = ((pend_hi st stream l out).1, app o <$> (pend_hi st stream l out).2)) as Hhi.
    { intros l. unfold pend_hi. destruct stream; [done|]. destruct (td_fatal st); [done|].
      cbn. unfold u8_fffd. destruct (_ =? 1)%nat; by rewrite !app_assoc. }
    destruct rest as [|z [|t rest']]; [apply Hhi..|]. rewrite <- app_assoc.
    destruct (U16_IS_LOW _); [apply IH|]. by destruct (td_fatal st); [|apply IH].
Qed.

(** The state keeps everything but the bytes that are left. *)
Lemma utf16_state rounds st stream src out :
  pending st = [] →
  let st' := (utf16_loop rounds st be stream src out).1 in
  st' = td_set st (pending st') (td_bom_seen st) ∧ (stream = false → pending st' = []).
Proof.
  intros Hp. assert (∀ l, stream = true → td_set st l (td_bom_seen st)
    = td_set st (pending (td_set st l (td_bom_seen st))) (td_bom_seen st)
    ∧ (stream = false → pending (td_set st l (td_bom_seen st)) = [])) as Hset
    by (intros l ->; by split).
  assert (st = td_set st (pending st) (td_bom_seen st) ∧ (stream = false → pending st = []))
    as Hst by (by destruct st).
  revert src out. induction rounds as [|rounds IH]; intros src out; [done|].
  destruct src as [|x [|y rest]]; [done|..].
  - cbn. unfold pend_tail. destruct stream; [by apply Hset|]. by destruct (td_fatal st).
  - rewrite !utf16_unit. cbv zeta. destruct (_ && _); [apply IH|].
    destruct (U16_IS_LOW _); [by destruct (td_fatal st); [|apply IH]|].
    assert (∀ l, let st' := (pend_hi st stream l out).1 in
      st' = td_set st (pending st') (td_bom_seen st) ∧ (stream = false → pending st' = [])) as Hhi.
    { intros l. unfold pend_hi. destruct stream; [by apply Hset|]. by destruct (td_fatal st). }
    destruct rest as [|z [|t rest']]; [apply Hhi..|].
    destruct (U16_IS_LOW _); [apply IH|]. by destruct (td_fatal st); [|apply IH].
Qed.

End utf16.

(** ** Calls of [decode] *)

(** What a run of a decoder leaves: the settings, a part of the input, a bounded output. *)
Definition run_ok (st : td_state_t) (src : list Z) (r : td_state_t * option (list Z)) : Prop :=
  r.1 = td_set st (pending r.1) (td_bom_seen r.1) ∧ pending r.1 `suffix_of` src ∧
  match r.2 with Some out => (length out <= 3 * length src)%nat | None => True end.

Section calls.
Context `{Utf8proc}.

Lemma encode_char_length cp : scalar cp → cp < 0x10000 → (length (utf8proc_encode_char cp) <= 3)%nat.
Proof.
  intros Hs Hc. rewrite utf8proc_encode_char_law by done. unfold enc.
  repeat case_ltb; simpl; lia.
Qed.

Lemma whatwg_run_ok fatal stream s md pb dec out :
  Forall byte_ok s → at_mode md pb → pend_buf dec = [] →
  let r := whatwg_loop fatal stream md dec s out in
  ignore_bom r.1 = ignore_bom dec ∧ pend_buf r.1 `suffix_of` pb ++ s ∧
  match r.2 with Some o => (length o <= length out + 3 * length (pb ++ s))%nat | None => True end.
Proof.
  intros Hs. cbv zeta.
  revert md pb dec out. induction Hs as [|b s Hb Hs IH]; intros md pb dec out Hmd Hd.
  { rewrite app_nil_r. destruct md as [|bc lo hi cp pb']; cbn.
    - rewrite Hd. split_and!; [done|apply suffix_nil|lia].
    - destruct Hmd as [-> Hp]. apply partial_incomplete in Hp as [_ Hne].
      destruct stream; cbn; [by split_and!; [..|lia]|].
      destruct pb; [done|]. destruct fatal; cbn; rewrite Hd; (split; [done|]);
        (split; [apply suffix_nil|]); [done|rewrite length_app; simpl; lia]. }
  assert (∀ dec out, pend_buf dec = [] →
    let r := whatwg_loop fatal stream Dispatch dec (b :: s) out in
    ignore_bom r.1 = ignore_bom dec ∧ pend_buf r.1 `suffix_of` b :: s ∧
    match r.2 with Some o => (length o <= length out + 3 * length (b :: s))%nat | None => True end)
    as Henter.
  { clear dec out Hd md Hmd pb. intros dec out Hd. pose proof (tbl_spec b Hb) as Ht.
    cbn [whatwg_loop]. destruct (tbl b) as [| |bc lo hi cp].
    - destruct (IH Dispatch [] (see dec) (out ++ [b]) eq_refl Hd) as (I1 & I2 & I3).
      split; [done|]. split; [by apply suffix_cons_r|]. case_match; [|done].
      rewrite !length_app in *. simpl in *. lia.
    - destruct fatal; [cbn; rewrite Hd; by split_and!; [|apply suffix_nil|]|].
      destruct (IH Dispatch [] (see dec) (out ++ FFFD) eq_refl Hd) as (I1 & I2 & I3).
      split; [done|]. split; [by apply suffix_cons_r|]. case_match; [|done].
      rewrite !length_app in *. simpl in *. lia.
    - by apply (IH (Cont bc lo hi cp [b]) [b]). }
  destruct md as [|bc lo hi cp pb']; [simpl in Hmd; subst pb; by apply Henter|].
  destruct Hmd as [-> Hp]. rewrite whatwg_cont_cons. destruct (_ || _) eqn:Eb.
  - pose proof (partial_incomplete _ _ _ _ _ Hp) as [_ Hne].
    destruct fatal; [cbn; rewrite Hd; by split_and!; [|apply suffix_nil|]|].
    destruct (Henter (see dec) (out ++ FFFD) Hd) as (I1 & I2 & I3).
    split; [done|]. split; [by apply suffix_app_r|]. case_match; [|done].
    rewrite !length_app in *. destruct pb; [done|]. simpl in *. lia.
  - apply in_range_spec in Eb. cbv zeta. rewrite (cons_middle b pb s), app_assoc.
    destruct (Nat.eqb_spec bc 1) as [->|Hbc]; last first.
    { apply IH; [|done]. split; [done|]. by apply (partial_step _ lo hi). }
    destruct (partial_last _ _ _ _ _ Hp Eb) as [Hcp Ee].
    set (c := (cp <<' 6) |' (b &' 0x3F)) in *. unfold emit_char.
    rewrite utf8proc_encode_char_law, Ee by done.
    destruct (_ && _);
      (match goal with |- context [whatwg_loop _ _ _ ?d s ?o] =>
         destruct (IH Dispatch [] d o eq_refl Hd) as (I1 & I2 & I3) end);
      (split; [done|]); (split; [by apply suffix_app_r|]); (case_match; [|done]);
      rewrite !length_app in *; simpl in *; lia.
Qed.

Lemma unit_scalar cu :
  0 <= cu < 0x10000 → negb (U16_IS_HIGH cu) && negb (U16_IS_LOW cu) = true → scalar cu.
Proof.
  unfold U16_IS_HIGH, U16_IS_LOW, scalar. intros Hc E. revert E. repeat case_ltb; cbn; try done; lia.
Qed.

Lemma u16_read_range p be : 0 <= u16_read p be < 0x10000.
Proof. unfold u16_read. destruct be; apply u16_range. Qed.

(** A high and a low surrogate make a scalar value. *)
Lemma pair_scalar cu lo :
  U16_IS_HIGH cu = true → U16_IS_LOW lo = true →
  0x10000 <= U16_PAIR cu lo < 0x110000 ∧ 0xD800 <= cu <= 0xDBFF ∧ 0xDC00 <= lo <= 0xDFFF ∧
  U16_PAIR cu lo = 0x10000 + (cu - 0xD800) * 1024 + (lo - 0xDC00).
Proof.
  intros E1 E3. unfold U16_IS_HIGH, U16_IS_LOW in *. apply andb_true_iff in E1, E3. rewrite !Z.leb_le in *.
  unfold U16_PAIR. rewrite shiftl_mul by lia.
  rewrite (u32_small (cu - 0xD800)), u32_small by (rewrite ?u32_small; lia). lia.
Qed.

Lemma pair_length cu lo :
  U16_IS_HIGH cu = true → U16_IS_LOW lo = true →
  (length (utf8proc_encode_char (U16_PAIR cu lo)) <= 4)%nat.
Proof.
  intros E1 E3. destruct (pair_scalar cu lo E1 E3) as (Hr & _).
  rewrite utf8proc_encode_char_law by (unfold scalar; lia).
  pose proof (enc_length (U16_PAIR cu lo)). lia.
Qed.

(** Pending bytes from the input, output in proportion to it. *)
Definition within (src out : list Z) (r : td_state_t * option (list Z)) : Prop :=
  pending r.1 `suffix_of` src ∧
  match r.2 with Some o => (length o <= length out + 3 * length src)%nat | None => True end.

Lemma within_rest src rest out out' r :
  within rest out' r → rest `suffix_of` src →
  (length out' + 3 * length rest <= length out + 3 * length src)%nat → within src out r.
Proof.
  intros [H1 H2] Hs Hl. split; [by etrans|]. destruct r.2; [lia|done].
Qed.

Lemma within_now src out st : pending st = [] → within src out (st, Some out).
Proof. intros Hp. split; cbn; [rewrite Hp; apply suffix_nil|lia]. Qed.

Lemma within_none src out st : pending st = [] → within src out (st, None).
Proof. intros Hp. split; cbn; [rewrite Hp; apply suffix_nil|done]. Qed.

Lemma pend_tail_within st stream x out :
  pending st = [] → within [x] out (pend_tail st stream [x] out).
Proof.
  intros Hp. unfold pend_tail, u8_fffd. destruct stream; [split; [done|simpl; lia]|].
  destruct (td_fatal st); [by apply within_none|]. split; cbn; [rewrite Hp; apply suffix_nil|].
  rewrite length_app. simpl. lia.
Qed.

Lemma pend_hi_within st stream src out :
  pending st = [] → (2 <= length src <= 3)%nat → within src out (pend_hi st stream src out).
Proof.
  intros Hp Hl. unfold pend_hi, u8_fffd. destruct stream; [split; [done|simpl; lia]|].
  destruct (td_fatal st); [by apply within_none|]. split; cbn; [rewrite Hp; apply suffix_nil|].
  destruct (Nat.eqb_spec (length src - 2) 1); rewrite !length_app; simpl; lia.
Qed.

Lemma utf16_within be rounds st stream src out :
  pending st = [] → within src out (utf16_loop rounds st be stream src out).
Proof.
  intros Hp. revert src out. induction rounds as [|rounds IH]; intros src out.
  { by apply within_now. }
  destruct src as [|x [|y rest]]; [by apply within_now|by apply pend_tail_within|].
  rewrite utf16_unit. cbv zeta. pose proof (u16_read_range [x; y] be) as Hc.
  assert (rest `suffix_of` x :: y :: rest) as Hsuf by (by exists [x; y]).
  assert (within (x :: y :: rest) out (if td_fatal st then (st, None)
    else utf16_loop rounds st be stream rest (u8_fffd out))) as Herr.
  { destruct (td_fatal st); [by apply within_none|]. eapply within_rest; [apply IH|done|].
    unfold u8_fffd. rewrite length_app. simpl. lia. }
  destruct (negb (U16_IS_HIGH (u16_read [x; y] be)) && _) eqn:Eu.
  { eapply within_rest; [apply IH|done|]. unfold u8_emit. rewrite length_app.
    pose proof (encode_char_length _ (unit_scalar _ Hc Eu)). simpl. lia. }
  destruct (U16_IS_LOW (u16_read [x; y] be)) eqn:El; [done|].
  destruct rest as [|z [|t rest']]; [by apply pend_hi_within; [|simpl; lia]..|].
  destruct (U16_IS_LOW (u16_read [z; t] be)) eqn:El2; [|done].
  rewrite andb_true_r in Eu. apply negb_false_iff in Eu. pose proof (pair_length _ _ Eu El2).
  eapply within_rest; [apply IH|by exists [x; y; z; t]|].
  unfold u8_emit. rewrite length_app. simpl. lia.
Qed.

Lemma single_byte_scalar st b :
  byte_ok b →
  let cp := if bool_decide (encoding st = TD_ENC_WINDOWS_1252) then decode_windows_1252_byte b
            else decode_iso_8859_2_byte b in scalar cp ∧ cp < 0x10000.
Proof.
  intros Hb. assert (∀ cp, (0 <=? cp) && (cp <? 0xd800) = true → scalar cp ∧ cp < 0x10000) as K.
  { intros cp [H1 H2]%andb_true_iff. apply Z.leb_le in H1. apply Z.ltb_lt in H2.
    unfold scalar. lia. }
  cbv zeta. apply K. destruct (bool_decide _); revert b Hb; apply byte_cases; vm_compute; reflexivity.
Qed.

Lemma decode_single_byte_app st s1 s2 :
  decode_single_byte st (s1 ++ s2) = decode_single_byte st s1 ++ decode_single_byte st s2.
Proof.
  unfold decode_single_byte. rewrite foldl_app. set (f := λ out b, u8_emit out _).
  generalize (foldl f [] s1). intros o.
  assert (∀ s o1 o2, foldl f (o1 ++ o2) s = o1 ++ foldl f o2 s) as K.
  { induction s as [|b s IH]; intros o1 o2; [done|]. cbn. unfold f at 2, u8_emit.
    rewrite <- IH. f_equal. unfold f, u8_emit. by rewrite app_assoc. }
  rewrite <- (app_nil_r o) at 1. apply K.
Qed.

Lemma decode_single_byte_length st src :
  Forall byte_ok src → (length (decode_single_byte st src) <= 3 * length src)%nat.
Proof.
  induction 1 as [|b s Hb Hs IH]; [simpl; lia|].
  change (b :: s) with ([b] ++ s). rewrite decode_single_byte_app, !length_app.
  unfold decode_single_byte at 1. cbn [foldl]. unfold u8_emit. rewrite app_nil_l.
  destruct (single_byte_scalar st b Hb) as [H1 H2]. pose proof (encode_char_length _ H1 H2).
  simpl. lia.
Qed.

End calls.

Section decode_calls.
Context `{Utf8proc}.

(** [td_run] where there is something to decode. *)
Definition run (st : td_state_t) (src : list Z) (stream : bool) : td_state_t * option (list Z) :=
  match src with [] => (st, Some []) | _ => td_run st src stream end.

Lemma td_set_same st : td_set st (pending st) (td_bom_seen st) = st.
Proof. by destruct st. Qed.

(** Once the byte order mark is settled, the loop runs on what is behind it. *)
Definition bom_len (st : td_state_t) (be : bool) (src : list Z) : nat :=
  if negb (td_bom_seen st) && (u16_read src be =? 0xFEFF) && negb (td_ignore_bom st)
  then 2%nat else 0%nat.

Lemma utf16_decode_loop st src stream :
  (2 <= length src)%nat ∨ td_bom_seen st = true →
  let be := bool_decide (encoding st = TD_ENC_UTF16BE) in
  utf16_decode st src stream
  = utf16_loop (length src) (td_set st (pending st) true) be stream
      (drop (bom_len st be src) src) [].
Proof.
  intros Hl. unfold utf16_decode, bom_len. destruct (td_bom_seen st) eqn:Eb; cbn [negb andb].
  - rewrite drop_0. f_equal. by destruct st; cbn in *; subst.
  - destruct Hl as [Hl|]; [|done]. by rewrite (proj2 (Nat.ltb_ge _ _) Hl).
Qed.

Lemma utf16_run_ok st src stream :
  pending st = [] → src ≠ [] → run_ok st src (utf16_decode st src stream).
Proof.
  intros Hp Hne.
  destruct (decide ((2 <= length src)%nat ∨ td_bom_seen st = true)) as [Hl|Hl].
  - rewrite utf16_decode_loop by done. cbv zeta.
    set (be := bool_decide _). set (st' := td_set st (pending st) true).
    pose proof (utf16_state be (length src) st' stream (drop (bom_len st be src) src) [] Hp) as [H1 _].
    pose proof (utf16_within be (length src) st' stream (drop (bom_len st be src) src) [] Hp) as [H2 H3].
    split; [rewrite H1; by destruct st|]. split; [etrans; [exact H2|apply suffix_drop]|].
    destruct (utf16_loop _ _ _ _ _ _).2; [|done]. rewrite length_drop in H3. simpl in H3. lia.
  - unfold utf16_decode. destruct (td_bom_seen st) eqn:Eb; [by destruct Hl; right|]. cbn [negb].
    destruct src as [|x [|y src]]; [done| |destruct Hl; left; simpl; lia].
    cbn [length Nat.ltb Nat.leb]. pose proof (pend_tail_within st stream x [] Hp) as [H1 H2].
    split; [|by split]. unfold pend_tail. destruct stream; [done|].
    by destruct (td_fatal st); cbn; rewrite td_set_same.
Qed.

Lemma run_is_ok st src stream :
  pending st = [] → Forall byte_ok src → run_ok st src (run st src stream).
Proof.
  intros Hp Hs. destruct src as [|b src]; [split; cbn; [by rewrite td_set_same|]; rewrite Hp;
    split; [apply suffix_nil|lia]|].
  set (s := b :: src) in *. change (run st s stream) with (td_run st s stream).
  assert (run_ok st s (td_set st [] false, Some (decode_single_byte st s))) as Hsb.
  { split; [done|]. cbn [fst snd pending td_set]. split; [apply suffix_nil|].
    by apply decode_single_byte_length. }
  unfold td_run. destruct (encoding st) eqn:Ee; [|by apply utf16_run_ok..|done|done].
  pose proof (whatwg_run_ok (td_fatal st) stream s Dispatch []
    (mk_dec (td_ignore_bom st) (td_bom_seen st) []) [] Hs eq_refl eq_refl) as Hw. cbv zeta in Hw.
  unfold utf8_whatwg_decode. destruct (whatwg_loop _ _ _ _ _ _) as [dec out].
  destruct Hw as (_ & H1 & H2). split; [done|]. by split.
Qed.

End decode_calls.

Section splitting.
Context `{Utf8proc}.

(** The bytes kept by one call go in front of the next. *)
Definition resume (stream : bool) (s2 : list Z) (r : td_state_t * option (list Z))
    : option (list Z) :=
  o1 ← r.2; app o1 <$> (run (td_set r.1 [] (td_bom_seen r.1)) (pending r.1 ++ s2) stream).2.

Lemma run_seen st src stream :
  (encoding st = TD_ENC_UTF16LE ∨ encoding st = TD_ENC_UTF16BE) → td_bom_seen st = true →
  let be := bool_decide (encoding st = TD_ENC_UTF16BE) in
  run st src stream = utf16_loop (length src) st be stream src [].
Proof.
  intros He Hb. cbv zeta. destruct src as [|b src]; [done|]. unfold run, td_run, utf16_decode.
  rewrite Hb. by destruct He as [-> | ->].
Qed.

Lemma utf16_run_split st s1 s2 stream :
  (encoding st = TD_ENC_UTF16LE ∨ encoding st = TD_ENC_UTF16BE) → pending st = [] → s1 ≠ [] →
  (utf16_decode st (s1 ++ s2) stream).2 = resume stream s2 (utf16_decode st s1 true).
Proof.
  intros He Hp Hne. destruct (decide ((2 <= length s1)%nat ∨ td_bom_seen st = true)) as [Hl|Hl].
  - rewrite !utf16_decode_loop by (rewrite ?length_app; destruct Hl; auto with lia). cbv zeta.
    set (be := bool_decide _).
    assert (bom_len st be (s1 ++ s2) = bom_len st be s1 ∧ bom_len st be s1 <= length s1)%nat as [-> Hb].
    { unfold bom_len. destruct Hl as [Hl|Hl]; [|rewrite Hl; simpl; lia].
      destruct s1 as [|x [|y s1]]; [done|simpl in Hl; lia|]. split; [done|]. case_match; simpl; lia. }
    set (st' := td_set st (pending st) true) in *. rewrite drop_app_le by done.
    set (d := drop _ s1). assert (length d <= length s1)%nat by (unfold d; rewrite length_drop; lia).
    rewrite (utf16_split be (length d) _ (length s1) (length (s1 ++ s2))) by (rewrite ?length_app; done || lia).
    pose proof (utf16_state be (length s1) st' true d [] Hp) as [Hst _].
    pose proof (utf16_within be (length s1) st' true d [] Hp) as [Hsuf _].
    destruct (utf16_loop (length s1) st' be true d []) as [st1 [o1|]]; [|done]. cbn in Hst, Hsuf |- *.
    rewrite Hst. cbn. rewrite run_seen by done. cbn. fold be.
    apply suffix_length in Hsuf. rewrite <- (app_nil_r o1) at 1. rewrite utf16_out. cbn [snd]. 
    rewrite (utf16_fuel be (length (pending st1 ++ s2)) (length (s1 ++ s2)) (length (pending st1 ++ s2)))
      by (rewrite ?length_app; lia).
    unfold st'. by rewrite Hp.
  - destruct (td_bom_seen st) eqn:Eb; [by destruct Hl; right|].
    destruct s1 as [|x [|y s1]]; [done| |destruct Hl; left; simpl; lia].
    assert (utf16_decode st [x] true = (td_set st [x] false, Some [])) as ->.
    { unfold utf16_decode. rewrite Eb. cbn. unfold pend_tail. by rewrite Eb. }
    unfold resume. cbn. change (x :: s2) with ([x] ++ s2).
    assert (td_set (td_set st [x] false) [] false = st) as ->
      by (rewrite <- (td_set_same st) at 2; by rewrite Hp, Eb).
    rewrite option_fmap_id. unfold td_run. by destruct He as [-> | ->].
Qed.

Lemma run_split st s1 s2 stream :
  pending st = [] → Forall byte_ok s1 →
  (run st (s1 ++ s2) stream).2 = resume stream s2 (run st s1 true).
Proof.
  intros Hp Hs. destruct (decide (s1 = [])) as [->|Hne].
  { unfold resume. cbn. rewrite Hp. rewrite option_fmap_id. rewrite <- Hp at 1.
    by rewrite td_set_same. }
  assert (∀ s b, s ≠ [] → run st s b = td_run st s b) as Hrun by (by intros []).
  rewrite !Hrun by (done || by destruct s1). unfold td_run.
  destruct (encoding st) eqn:Ee; [|by apply utf16_run_split; auto..| |].
  - pose proof (whatwg_split (td_fatal st) stream Dispatch []
      (mk_dec (td_ignore_bom st) (td_bom_seen st) []) s1 s2 [] Hs eq_refl eq_refl) as E.
    pose proof (whatwg_run_ok (td_fatal st) true s1 Dispatch []
      (mk_dec (td_ignore_bom st) (td_bom_seen st) []) [] Hs eq_refl eq_refl) as (Hi & _).
    unfold utf8_whatwg_decode at 1. rewrite E. clear E. unfold utf8_whatwg_decode.
    destruct (whatwg_loop (td_fatal st) true _ _ s1 _) as [dec' [o1|]]; [|done].
    unfold resume. cbn in Hi |- *. rewrite <- (app_nil_r o1) at 1. rewrite whatwg_out.
    destruct (pend_buf dec' ++ s2) as [|b s]; [done|]. cbn -[whatwg_loop].
    unfold td_run. cbn -[whatwg_loop]. rewrite Ee, Hi. unfold utf8_whatwg_decode. by destruct (whatwg_loop _ _ _ _ _ _) as [d [o|]].
  - unfold resume. cbn -[decode_single_byte]. rewrite decode_single_byte_app.
    destruct s2; [cbn; by rewrite app_nil_r|]. cbn -[decode_single_byte]. unfold td_run. cbn -[decode_single_byte].
    by rewrite Ee.
  - unfold resume. cbn -[decode_single_byte]. rewrite decode_single_byte_app.
    destruct s2; [cbn; by rewrite app_nil_r|]. cbn -[decode_single_byte]. unfold td_run. cbn -[decode_single_byte].
    by rewrite Ee.
Qed.

End splitting.

(** ** Streams of calls *)

Section streams.
Context `{Utf8proc, Heap}.

(** Each chunk in a call with [stream: true], then a last call without. *)
Fixpoint decode_chunks (st : td_state_t) (chunks : list (list Z)) (last : list Z)
    : td_state_t * outcome (list Z) :=
  match chunks with
  | [] => td_decode st last false
  | c :: chunks =>
      match td_decode st c true with
      | (st, Ok o) => let r := decode_chunks st chunks last in (r.1, r.2 ≫= λ o', Ok (o ++ o'))
      | r => r
      end
  end.

Lemma whatwg_keeps_nothing fatal md dec s out :
  pend_buf (whatwg_loop fatal false md dec s out).1 = pend_buf dec.
Proof.
  revert md dec out. induction s as [|b s IH]; intros md dec out.
  { destruct md; [done|]. by destruct fatal. }
  assert (∀ dec out, pend_buf (whatwg_loop fatal false Dispatch dec (b :: s) out).1 = pend_buf dec)
    as Henter.
  { clear dec out. intros dec out. cbn [whatwg_loop].
    destruct (tbl b); [by rewrite IH| |by rewrite IH]. destruct fatal; [done|by rewrite IH]. }
  destruct md as [|bc lo hi cp pb]; [apply Henter|]. rewrite whatwg_cont_cons.
  destruct (_ || _); [destruct fatal; [done|by rewrite Henter]|].
  destruct (bc =? 1)%nat; [|by rewrite IH]. unfold emit_char. by destruct (_ && _); rewrite IH.
Qed.

Lemma run_keeps_nothing st src : pending st = [] → pending (run st src false).1 = [].
Proof.
  intros Hp. destruct src as [|b src]; [done|]. unfold run. set (s := b :: src).
  assert (pending (utf16_decode st s false).1 = []) as H16.
  { destruct (decide ((2 <= length s)%nat ∨ td_bom_seen st = true)) as [Hl|Hl].
    - rewrite utf16_decode_loop by done. by apply utf16_state.
    - unfold utf16_decode. destruct (td_bom_seen st); [by destruct Hl; right|]. cbn [negb].
      rewrite (proj2 (Nat.ltb_lt _ _)) by (destruct (Nat.lt_ge_cases (length s) 2); [done|];
        by destruct Hl; left).
      unfold pend_tail. by destruct (td_fatal st). }
  unfold td_run. destruct (encoding st); [|done..].
  unfold utf8_whatwg_decode. destruct (whatwg_loop _ _ _ _ _ _) as [dec out] eqn:E. cbn.
  pose proof (whatwg_keeps_nothing (td_fatal st) Dispatch (mk_dec (td_ignore_bom st) (td_bom_seen st) [])
    s []) as Hk. by rewrite E in Hk.
Qed.

Definition fits (st : td_state_t) (input : list Z) : Prop :=
  Forall byte_ok (pending st ++ input) ∧ zlen (pending st ++ input) < 2 ^ 60.

(** A call is a run of the decoder on the kept bytes and the new ones: three bytes of output
    for each are enough. *)
Lemma td_decode_run st input stream :
  (∀ n, malloc n = true) → fits st input →
  let r := run (td_set st [] (td_bom_seen st)) (pending st ++ input) stream in
  (td_decode st input stream).2
    = match r.2 with Some o => Ok o | None => invalid_data end ∧
  (is_ok (td_decode st input stream).2 = true → (td_decode st input stream).1
    = if stream then r.1 else td_set r.1 (pending r.1) false).
Proof.
  intros Hm [Hb Hl]. unfold td_decode. cbv zeta. set (src := pending st ++ input) in *.
  destruct (decide (src = [])) as [E|Hne].
  { assert (pending st = []) as Hp by (by destruct (app_nil (pending st) input) as [[] _]).
    rewrite E. change (zlen [] =? 0) with true. cbn. split; [done|intros _].
    destruct stream; [rewrite <- Hp; by rewrite td_set_same|by rewrite Hp]. }
  assert (0 < zlen src) by (unfold zlen; destruct src; [done|simpl; lia]).
  rewrite (proj2 (Z.eqb_neq (zlen src) 0)) by lia. rewrite !Hm, andb_false_r. cbn [negb].
  set (st0 := td_set st [] (td_bom_seen st)).
  assert (run st0 src stream = td_run st0 src stream) as <- by (by destruct src).
  destruct (run_is_ok st0 src stream eq_refl Hb) as (Hst & _ & Ho).
  assert (encoding (run st0 src stream).1 = encoding st) as He by (by rewrite Hst).
  assert (stream = false → encoding st = TD_ENC_UTF8 → td_bom_seen (run st0 src stream).1 = false) as Hs.
  { intros -> E. destruct src; [done|]. unfold run, td_run. cbn -[whatwg_loop]. rewrite E.
    by destruct (utf8_whatwg_decode _ _ _ _). }
  destruct (run st0 src stream) as [st1 [o|]]; [|done]. cbn in Hst, Ho, He, Hs |- *.
  rewrite u64_small, (proj2 (Z.ltb_ge _ _)) by (unfold zlen in *; lia).
  split; [done|]. intros _. destruct stream; [by rewrite andb_false_r|].
  rewrite He, andb_true_r. destruct (decide (encoding st = TD_ENC_UTF8)) as [E|E].
  - rewrite bool_decide_false by (intros K; by apply K). rewrite <- (Hs eq_refl E).
    symmetry. apply td_set_same.
  - by rewrite bool_decide_true.
Qed.

Lemma td_decode_state st input :
  (∀ n, malloc n = true) → fits st input →
  is_ok (td_decode st input false).2 = true →
  (td_decode st input false).1 = fresh (encoding st) (td_fatal st) (td_ignore_bom st).
Proof.
  intros Hm Hf Hok. destruct (td_decode_run st input false Hm Hf) as [_ ->]; [|done].
  rewrite run_keeps_nothing by done. destruct Hf as [Hb _].
  by destruct (run_is_ok (td_set st [] (td_bom_seen st)) _ false eq_refl Hb) as [-> _].
Qed.

(** Two calls and one. *)
Lemma td_decode_split st s1 s2 :
  (∀ n, malloc n = true) → fits st (s1 ++ s2) →
  (td_decode st (s1 ++ s2) false).2
  = match td_decode st s1 true with
    | (st1, Ok o) => (td_decode st1 s2 false).2 ≫= λ o', Ok (o ++ o')
    | r => r.2
    end ∧
  match td_decode st s1 true with
  | (st1, Ok o) => fits st1 s2 ∧ encoding st1 = encoding st ∧ td_fatal st1 = td_fatal st ∧
                   td_ignore_bom st1 = td_ignore_bom st
  | _ => True
  end.
Proof.
  intros Hm Hf. assert (fits st s1) as Hf1.
  { destruct Hf as [Hb Hl]. rewrite app_assoc in Hb, Hl. split; [by apply Forall_app in Hb as [? _]|].
    unfold zlen in *. rewrite !length_app in *. lia. }
  destruct (td_decode_run st (s1 ++ s2) false Hm Hf) as [E _].
  destruct (td_decode_run st s1 true Hm Hf1) as [E1 E2].
  destruct Hf as [Hb Hl]. rewrite app_assoc in Hb, Hl. apply Forall_app in Hb as [Hb1 Hb2].
  set (st0 := td_set st [] (td_bom_seen st)) in *.
  destruct (run_is_ok st0 (pending st ++ s1) true eq_refl Hb1) as (Hst & Hsuf & _).
  rewrite E, app_assoc, run_split by done. clear E. unfold resume.
  destruct (td_decode st s1 true) as [st1 o]. cbn [fst snd] in E1, E2. subst o.
  destruct (run st0 (pending st ++ s1) true) as [st1' [o|]]; [|done]. cbn [fst snd] in *.
  specialize (E2 eq_refl). subst st1'. cbn [mbind option_bind].
  assert (fits st1 s2) as Hf2.
  { destruct Hsuf as [k Hk]. rewrite Hk in Hb1, Hl. apply Forall_app in Hb1 as [_ Hb1].
    split; [by apply Forall_app|]. unfold zlen in *. rewrite !length_app in *. lia. }
  destruct (td_decode_run st1 s2 false Hm Hf2) as [-> _]. split; [|by rewrite Hst].
  by destruct (run _ (pending st1 ++ s2) false).2.
Qed.

Lemma decode_chunks_correct chunks st last :
  (∀ n, malloc n = true) → fits st (concat chunks ++ last) →
  (decode_chunks st chunks last).2 = (td_decode st (concat chunks ++ last) false).2 ∧
  (is_ok (decode_chunks st chunks last).2 = true → (decode_chunks st chunks last).1
    = fresh (encoding st) (td_fatal st) (td_ignore_bom st)).
Proof.
  intros Hm. revert st. induction chunks as [|c chunks IH]; intros st Hf.
  { split; [done|]. by apply td_decode_state. }
  cbn [concat] in *. rewrite <- app_assoc in *.
  destruct (td_decode_split st c (concat chunks ++ last) Hm Hf) as [E Hst]. rewrite E.
  cbn [decode_chunks]. destruct (td_decode st c true) as [st1 [o| |]]; [|done..].
  destruct Hst as (Hf1 & He & Hfa & Hi). destruct (IH st1 Hf1) as [E1 E2].
  cbn [fst snd]. rewrite E1 in *. split; [done|]. intros Hok. rewrite E2, He, Hfa, Hi; [done|].
  by destruct (td_decode st1 (concat chunks ++ last) false).2.
Qed.

End streams.

(** ** UTF-16 text

    Code units read as code points: the units of a character are that character, and a
    surrogate that is not half of a pair is replaced. *)

Definition pairs_with (u : Z) (us : list Z) : Prop :=
  0xD800 <= u < 0xDC00 ∧ match us with lo :: _ => 0xDC00 <= lo < 0xE000 | [] => False end.

Inductive reads16 : list Z → list Z → bool → Prop :=
  | reads16_nil : reads16 [] [] false
  | reads16_char cp us cps e :
      scalar cp → reads16 us cps e → reads16 (utf16 cp ++ us) (cp :: cps) e
  | reads16_lone u us cps e :
      0xD800 <= u < 0xE000 → ¬ pairs_with u us → reads16 us cps e →
      reads16 (u :: us) (0xFFFD :: cps) true.

(** The bytes of code units in either order. *)
Definition bytes16 (be : bool) (us : list Z) : list Z :=
  concat ((λ u, if be then [u / 256; u mod 256] else [u mod 256; u / 256]) <$> us).

Lemma bytes16_cons be u us :
  bytes16 be (u :: us)
  = (if be then [u / 256; u mod 256] else [u mod 256; u / 256]) ++ bytes16 be us.
Proof. done. Qed.

Lemma bytes16_app be us us' : bytes16 be (us ++ us') = bytes16 be us ++ bytes16 be us'.
Proof. unfold bytes16. by rewrite fmap_app, concat_app. Qed.

Lemma bytes16_ok be us : Forall (λ u, 0 <= u < 0x10000) us → Forall byte_ok (bytes16 be us).
Proof.
  induction 1 as [|u us Hu Hus IH]; [constructor|]. rewrite bytes16_cons. apply Forall_app.
  split; [|done]. destruct be; (constructor; [unfold byte_ok; word|]);
    (constructor; [unfold byte_ok; word|constructor]).
Qed.

Lemma u16_read_bytes16 be u us :
  0 <= u < 0x10000 → u16_read (bytes16 be (u :: us)) be = u.
Proof.
  intros Hu. rewrite bytes16_cons. unfold u16_read.
  assert (u16 (u16 ((u / 256) <<' 8) |' (u mod 256)) = u) as E.
  { rewrite shiftl_mul, (u16_small (u / 256 * 2 ^ 8)), (lor_add_low _ _ 8), u16_small by word. word. }
  by destruct be.
Qed.

Section utf16_text.
Context `{Utf8proc}.
Variable be : bool.

(** One round on the bytes of a unit. *)
Lemma utf16_unit_bytes rounds st stream u us out :
  0 <= u < 0x10000 → Forall (λ u, 0 <= u < 0x10000) us →
  utf16_loop (S rounds) st be stream (bytes16 be (u :: us)) out
  = let err := if td_fatal st then (st, None)
               else utf16_loop rounds st be stream (bytes16 be us) (u8_fffd out) in
    if negb (U16_IS_HIGH u) && negb (U16_IS_LOW u)
    then utf16_loop rounds st be stream (bytes16 be us) (u8_emit out u)
    else if U16_IS_LOW u then err
    else match us with
         | lo :: us' =>
             if U16_IS_LOW lo
             then utf16_loop rounds st be stream (bytes16 be us') (u8_emit out (U16_PAIR u lo))
             else err
         | [] => pend_hi st stream (bytes16 be [u]) out
         end.
Proof.
  intros Hu Hus. pose proof (u16_read_bytes16 be u [] Hu) as E.
  assert (∃ x y, bytes16 be [u] = [x; y]) as (x & y & Exy) by (destruct be; eauto).
  change (u :: us) with ([u] ++ us). rewrite bytes16_app, Exy in *. cbn [app].
  rewrite utf16_unit, E. cbv zeta. destruct (_ && _); [done|]. destruct (U16_IS_LOW u); [done|].
  destruct Hus as [|lo us Hlo Hus]; [done|]. pose proof (u16_read_bytes16 be lo [] Hlo) as E'.
  assert (∃ z t, bytes16 be [lo] = [z; t]) as (z & t & Ezt) by (destruct be; eauto).
  change (lo :: us) with ([lo] ++ us). rewrite bytes16_app, Ezt in *. cbn [app]. by rewrite E'.
Qed.

Lemma is_high_iff u : U16_IS_HIGH u = true ↔ 0xD800 <= u < 0xDC00.
Proof. unfold U16_IS_HIGH. rewrite andb_true_iff, !Z.leb_le. lia. Qed.

Lemma is_low_iff u : U16_IS_LOW u = true ↔ 0xDC00 <= u < 0xE000.
Proof. unfold U16_IS_LOW. rewrite andb_true_iff, !Z.leb_le. lia. Qed.

Lemma is_low_false u : U16_IS_LOW u = false ↔ ¬ 0xDC00 <= u < 0xE000.
Proof. rewrite <- is_low_iff. by destruct (U16_IS_LOW u). Qed.

Lemma is_high_false u : U16_IS_HIGH u = false ↔ ¬ 0xD800 <= u < 0xDC00.
Proof. rewrite <- is_high_iff. by destruct (U16_IS_HIGH u). Qed.

(** The halves of a supplementary character. *)
Lemma supplementary_units cp :
  0x10000 <= cp < 0x110000 →
  ∃ hi lo, utf16 cp = [hi; lo] ∧ 0xD800 <= hi < 0xDC00 ∧ 0xDC00 <= lo < 0xE000 ∧
           U16_PAIR hi lo = cp.
Proof.
  intros Hc. unfold utf16. rewrite (proj2 (Z.ltb_ge cp 0x10000)) by lia.
  eexists _, _. split; [done|]. split; [word|]. split; [word|].
  destruct (pair_scalar (0xD800 + (cp - 0x10000) / 1024) (0xDC00 + (cp - 0x10000) mod 1024))
    as (_ & _ & _ & ->); [apply is_high_iff; word|apply is_low_iff; word|word].
Qed.

Lemma length_bytes16_pos u us : (2 <= length (bytes16 be (u :: us)))%nat.
Proof. rewrite bytes16_cons, length_app. destruct be; simpl; lia. Qed.

Lemma length_bytes16_cons u us : length (bytes16 be (u :: us)) = S (S (length (bytes16 be us))).
Proof. rewrite bytes16_cons, length_app. by destruct be. Qed.

Lemma utf16_loop_reads us cps e rounds st out :
  reads16 us cps e → Forall (λ u, 0 <= u < 0x10000) us → (length (bytes16 be us) <= rounds)%nat →
  (utf16_loop rounds st be false (bytes16 be us) out).2
  = if td_fatal st && e then None else Some (out ++ encode cps).
Proof.
  intros Hr. revert rounds out.
  induction Hr as [|cp us cps e Hcp Hr IH|u us cps e Hu Hp Hr IH]; intros rounds out Hus Hl.
  { rewrite utf16_nil, andb_false_r. cbn. by rewrite app_nil_r. }
  - rewrite encode_cons, app_assoc, <- (utf8proc_encode_char_law cp Hcp).
    destruct (Z.lt_ge_cases cp 0x10000) as [Hc|Hc].
    + assert (utf16 cp = [cp]) as E by (unfold utf16; by rewrite (proj2 (Z.ltb_lt _ _) Hc)).
      rewrite E in *. cbn [app] in *. apply Forall_cons in Hus as [Hcu Hus].
      rewrite length_bytes16_cons in Hl. destruct rounds as [|rounds]; [lia|].
      rewrite utf16_unit_bytes by done. cbv zeta. unfold scalar in Hcp.
      rewrite (proj2 (is_high_false cp)), (proj2 (is_low_false cp)) by lia. apply IH; [done|lia].
    + unfold scalar in Hcp. destruct (supplementary_units cp) as (hi & lo & E & Hhi & Hlo & <-); [lia|].
      rewrite E in *. cbn [app] in *. apply Forall_cons in Hus as [Hhu [Hlu Hus]%Forall_cons].
      rewrite !length_bytes16_cons in Hl. destruct rounds as [|rounds]; [lia|].
      rewrite utf16_unit_bytes by (try done; by constructor). cbv zeta.
      rewrite (proj2 (is_high_iff hi)), (proj2 (is_low_false hi)), (proj2 (is_low_iff lo)) by lia.
      apply IH; [done|lia].
  - apply Forall_cons in Hus as [Hcu Hus]. rewrite length_bytes16_cons in Hl.
    destruct rounds as [|rounds]; [lia|].
    rewrite utf16_unit_bytes by done. cbv zeta. rewrite andb_true_r.
    assert ((if td_fatal st then (st, None) else
      utf16_loop rounds st be false (bytes16 be us) (u8_fffd out)).2
      = if td_fatal st then None else Some (out ++ encode (0xFFFD :: cps))) as Herr.
    { destruct (td_fatal st) eqn:Ef; [done|]. rewrite IH by (done || lia). rewrite ?Ef. cbn [andb].
      unfold u8_fffd. by rewrite encode_cons, app_assoc. }
    destruct (U16_IS_LOW u) eqn:El; [by rewrite andb_false_r|].
    apply is_low_false in El. rewrite (proj2 (is_high_iff u)) by lia. cbn [negb andb].
    destruct us as [|lo us].
    + rewrite <- Herr. change (bytes16 be []) with (@nil Z). rewrite utf16_nil. unfold pend_hi.
      by destruct (td_fatal st), be.
    + destruct (U16_IS_LOW lo) eqn:Elo; [|done]. apply is_low_iff in Elo. destruct Hp. split; lia.
Qed.

End utf16_text.

(** Every sequence of units reads as one text. *)
Lemma reads16_total us : Forall (λ u, 0 <= u < 0x10000) us → ∃ cps e, reads16 us cps e.
Proof.
  assert (∀ n us, (length us <= n)%nat → Forall (λ u, 0 <= u < 0x10000) us →
    ∃ cps e, reads16 us cps e) as K; [|by apply (K (length us))].
  clear us. induction n as [|n IH]; intros us Hl Hus.
  { destruct us; [|simpl in Hl; lia]. exists [], false. constructor. }
  destruct Hus as [|u us Hu Hus]; [exists [], false; constructor|]. simpl in Hl.
  destruct (IH us) as (cps & e & Hr); [lia|done|].
  destruct (decide (0xD800 <= u < 0xE000)) as [Hs|Hs]; last first.
  { exists (u :: cps), e. assert (utf16 u = [u]) as E
      by (unfold utf16; by rewrite (proj2 (Z.ltb_lt _ _)) by lia).
    pose proof (reads16_char u us cps e) as K. rewrite E in K. apply K; [unfold scalar; lia|done]. }
  assert (¬ pairs_with u us ∨ ∃ lo us', us = lo :: us' ∧ 0xD800 <= u < 0xDC00 ∧ 0xDC00 <= lo < 0xE000)
    as [Hp|(lo & us' & -> & Hhi & Hlo)].
  { unfold pairs_with. destruct us as [|lo us']; [left; tauto|].
    destruct (decide (0xD800 <= u < 0xDC00 ∧ 0xDC00 <= lo < 0xE000)) as [[]|]; [right; eauto 6|by left]. }
  { exists (0xFFFD :: cps), true. by econstructor. }
  simpl in Hl. apply Forall_cons in Hus as [Hl' Hus].
  destruct (IH us') as (cps' & e' & Hr'); [lia|done|].
  exists (0x10000 + (u - 0xD800) * 1024 + (lo - 0xDC00) :: cps'), e'.
  pose proof (reads16_char (0x10000 + (u - 0xD800) * 1024 + (lo - 0xDC00)) us' cps' e') as K.
  assert (utf16 (0x10000 + (u - 0xD800) * 1024 + (lo - 0xDC00)) = [u; lo]) as E.
  { unfold utf16. rewrite (proj2 (Z.ltb_ge _ _)) by lia. f_equal; [word|]. f_equal. word. }
  rewrite E in K. apply K; [unfold scalar; lia|done].
Qed.

(** ** The calls of a new decoder *)

(** What the first unit says of the first code point. *)
Lemma reads16_first u us cps bad :
  reads16 (u :: us) cps bad →
  if u =? 0xFEFF then ∃ cps', cps = 0xFEFF :: cps' ∧ reads16 us cps' bad
  else ∃ cp cps', cps = cp :: cps' ∧ cp ≠ 0xFEFF.
Proof.
  intros Hr. inversion Hr as [|cp us' cps' e' Hcp Hd' E|u' us' cps' e' Hu' Hp Hd' E]; subst.
  - unfold scalar in Hcp. unfold utf16 in E.
    destruct (cp <? 0x10000) eqn:Ec; injection E as E1 E2; subst.
    + destruct (Z.eqb_spec u 0xFEFF) as [->|]; eauto.
    + apply Z.ltb_ge in Ec. rewrite (proj2 (Z.eqb_neq _ _)) by word. exists cp, cps'. split; [done|lia].
  - rewrite (proj2 (Z.eqb_neq u _)) by lia. exists 0xFFFD, cps'. split; [done|lia].
Qed.

Section calls_of_new.
Context `{Utf8proc, Heap}.

(** The first call of a new decoder, without [stream]. *)
Lemma td_decode_new e fatal ign s :
  (∀ n, malloc n = true) → Forall byte_ok s → zlen s < 2 ^ 60 →
  (td_decode (fresh e fatal ign) s false).2
  = match (run (fresh e fatal ign) s false).2 with Some o => Ok o | None => invalid_data end.
Proof.
  intros Hm Hs Hl.
  by destruct (td_decode_run (fresh e fatal ign) s false Hm ltac:(by split)) as [-> _].
Qed.

(** Only what [malloc] answers matters of the heap. *)
Lemma td_decode_roomy st input stream :
  (∀ n, malloc n = true) → td_decode st input stream = @td_decode _ roomy_heap st input stream.
Proof. intros Hm. unfold td_decode. by rewrite !Hm. Qed.

Lemma decode_utf8 fatal ign s :
  (∀ n, malloc n = true) → Forall byte_ok s → zlen s < 2 ^ 60 →
  ∃ cps e, decodes s cps e ∧ Forall scalar cps ∧ e = negb (utf8_validate_bytes s) ∧
    (td_decode (fresh TD_ENC_UTF8 fatal ign) s false).2
    = if fatal && e then invalid_data else Ok (encode (strip (mk_dec ign false []) cps)).
Proof.
  intros Hm Hs Hl. rewrite td_decode_new by done.
  destruct (whatwg_reads fatal s Dispatch [] (mk_dec ign false []) [] Hs eq_refl)
    as (cps & e & Hd & Hc & Hr).
  exists cps, e. split; [done|]. split; [done|]. split; [by eapply decodes_validate|].
  destruct s as [|b s].
  { inversion Hd as [E| |p s' cps' e' Hp Hd' E]; subst; [by rewrite andb_false_r|..].
    - pose proof (enc_length cp). destruct (enc cp); simpl in *; [lia|done].
    - destruct Hp as [Hne _]. by apply app_nil in E as [-> _]. }
  cbn [run]. unfold td_run, utf8_whatwg_decode. cbn [encoding fresh td_fatal td_ignore_bom td_bom_seen].
  destruct (whatwg_loop _ _ _ _ _ _) as [dec out]. cbn in Hr |- *. rewrite Hr.
  by destruct (fatal && e).
Qed.

Lemma decode_utf16 e fatal ign us cps bad :
  (e = TD_ENC_UTF16LE ∨ e = TD_ENC_UTF16BE) →
  (∀ n, malloc n = true) → Forall (λ u, 0 <= u < 0x10000) us → zlen us < 2 ^ 59 →
  reads16 us cps bad →
  (td_decode (fresh e fatal ign) (bytes16 (bool_decide (e = TD_ENC_UTF16BE)) us) false).2
  = if fatal && bad then invalid_data else Ok (encode (strip (mk_dec ign false []) cps)).
Proof.
  intros He Hm Hus Hl Hr. set (be := bool_decide _).
  assert (length (bytes16 be us) = 2 * length us)%nat as El.
  { clear. induction us as [|u us IH]; [done|]. rewrite length_bytes16_cons, IH. simpl. lia. }
  rewrite td_decode_new by (done || (by apply bytes16_ok) || (unfold zlen in *; lia)).
  destruct Hus as [|u us Hu Hus].
  { inversion Hr as [E|cp us' cps' e' Hcp Hd' E|]; subst; [by rewrite andb_false_r|].
    destruct (app_nil (utf16 cp) us') as [K _]. destruct (K E) as [Hcp' _]. unfold utf16 in Hcp'.
    by destruct (cp <? 0x10000). }
  set (st := fresh e fatal ign). pose proof (length_bytes16_pos be u us) as Hpos.
  assert (run st (bytes16 be (u :: us)) false = utf16_decode st (bytes16 be (u :: us)) false) as ->.
  { destruct (bytes16 be (u :: us)); [simpl in Hpos; lia|]. unfold run, td_run. cbn [encoding st fresh].
    by destruct He as [-> | ->]. }
  rewrite utf16_decode_loop by (by left). change (bool_decide (encoding st = _)) with be. cbv zeta.
  unfold bom_len. rewrite u16_read_bytes16 by done. cbn [negb andb td_bom_seen td_ignore_bom fresh st].
  set (st' := td_set st _ true). change fatal with (td_fatal st').
  pose proof (reads16_first _ _ _ _ Hr) as Hfirst.
  destruct ((u =? 0xFEFF) && negb ign) eqn:Eb.
  - apply andb_true_iff in Eb as [Eu Ei]. rewrite Eu in Hfirst. apply Z.eqb_eq in Eu as ->.
    destruct Hfirst as (cps' & -> & Hr').
    assert (drop 2 (bytes16 be (0xFEFF :: us)) = bytes16 be us) as -> by (by destruct be).
    rewrite (utf16_loop_reads _ _ cps' bad) by (try done; rewrite length_bytes16_cons; lia).
    cbn [strip bom_seen ignore_bom negb andb]. rewrite Ei. by destruct (_ && _).
  - rewrite drop_0, (utf16_loop_reads _ _ cps bad) by (done || lia || by constructor).
    assert (strip (mk_dec ign false []) cps = cps) as Es;
      [|rewrite Es; by destruct (td_fatal st' && bad)].
    destruct (u =? 0xFEFF); [destruct Hfirst as (cps' & -> & _)|destruct Hfirst as (cp & cps' & -> & Hcp)];
      cbn [strip bom_seen ignore_bom negb andb].
    + by destruct ign.
    + by rewrite (proj2 (Z.eqb_neq _ _) Hcp).
Qed.

End calls_of_new.

(** *** Labels *)

Lemma lower_lower c : lower (lower c) = lower c.
Proof.
  unfold lower. destruct (Z.leb_spec 65 c), (Z.leb_spec c 90); cbn [andb];
    repeat case_ltb; cbn; try done; lia.
Qed.

Lemma strncase_lower n a b : strncase_eq n (lower <$> a) b = strncase_eq n a b.
Proof.
  revert a b. induction n as [|n IH]; intros a b; [done|]. cbn [strncase_eq].
  assert (hd 0 (lower <$> a) = lower (hd 0 a)) as -> by (by destruct a).
  assert (tl (lower <$> a) = lower <$> tl a) as -> by (by destruct a).
  rewrite lower_lower, IH. destruct (_ =? lower (hd 0 b)); [|done].
  replace (lower (hd 0 a) =? 0) with (hd 0 a =? 0); [done|].
  unfold lower. destruct (Z.leb_spec 65 (hd 0 a)), (Z.leb_spec (hd 0 a) 90); cbn [andb];
    repeat case_ltb; cbn; try done; lia.
Qed.

Lemma resolve_encoding_lower s : resolve_encoding (lower <$> s) = resolve_encoding s.
Proof.
  unfold resolve_encoding. f_equal. rewrite length_fmap. induction label_map as [|[[l n] e] map IH]; [done|].
  cbn [List.find]. by rewrite strncase_lower, IH.
Qed.

Lemma skip_low_app sp s : Forall (λ c, c <= 0x20) sp → skip_low (sp ++ s) = skip_low s.
Proof. induction 1 as [|c sp Hc Hs IH]; [done|]. cbn. by rewrite (proj2 (Z.leb_le c 0x20)). Qed.

Lemma skip_low_stop c s : 0x20 < c → skip_low (c :: s) = c :: s.
Proof. intros Hc. cbn. by rewrite (proj2 (Z.leb_gt c 0x20)). Qed.

(** White space and control bytes around a label go. *)
Lemma trim_label_spaces sp s sp' :
  Forall (λ c, c <= 0x20) sp → Forall (λ c, c <= 0x20) sp' → Forall (λ c, 0x20 < c) s →
  trim_label (sp ++ s ++ sp') = s.
Proof.
  intros H1 H2 Hs. unfold trim_label. rewrite skip_low_app by done.
  destruct s as [|c s].
  { cbn. rewrite <- (app_nil_r sp'), skip_low_app by done. done. }
  apply Forall_cons in Hs as Hs'. destruct Hs' as [Hc _]. rewrite <- app_comm_cons, skip_low_stop by done.
  rewrite app_comm_cons, rev_app_distr, skip_low_app by (by apply Forall_rev).
  destruct (rev (c :: s)) as [|x r] eqn:E.
  { apply (f_equal length) in E. rewrite length_rev in E. done. }
  assert (0x20 < x) as Hx.
  { apply Forall_rev in Hs. rewrite E in Hs. by apply Forall_cons in Hs as [? _]. }
  rewrite skip_low_stop, <- E by done. apply rev_involutive.
Qed.

(** ** Properties *)

(** C27: Decoding bytes as UTF-8 in one call of a new decoder reads them as the Unicode standard
    says, a character for a well-formed sequence and U+FFFD for a maximal subpart of one, less
    a leading byte order mark unless [ignoreBOM]; something is replaced exactly when the bytes
    do not pass [utf8_validate_bytes], and then a [fatal] decoder throws.  The result always
    fits the buffer. *)
Theorem utf8_decode_correct `{Utf8proc, Heap} fatal ign s :
  (∀ n, malloc n = true) → Forall byte_ok s → zlen s < 2 ^ 60 →
  ∃ cps e, decodes s cps e ∧ Forall scalar cps ∧ e = negb (utf8_validate_bytes s) ∧
    (td_decode (fresh TD_ENC_UTF8 fatal ign) s false).2
    = if fatal && e then invalid_data else Ok (encode (strip (mk_dec ign false []) cps)).
Proof. apply decode_utf8. Qed.

Lemma utf8_decode_correct_witness :
  ∃ cps e, decodes [0x41; 0xE2; 0x82; 0x42] cps e ∧ Forall scalar cps ∧ e = true ∧
    (@td_decode standard_utf8proc roomy_heap (fresh TD_ENC_UTF8 false false)
       [0x41; 0xE2; 0x82; 0x42] false).2 = Ok (encode (strip (mk_dec false false []) cps)).
Proof.
  destruct (@utf8_decode_correct standard_utf8proc roomy_heap false false [0x41; 0xE2; 0x82; 0x42]
    ltac:(done) ltac:(repeat constructor; vm_compute; congruence) ltac:(done))
    as (cps & e & H1 & H2 & H3 & H4).
  exists cps, e. split; [exact H1|]. split; [exact H2|]. split; [exact H3|exact H4].
Defined.

(** C26: Decoding a text in any number of pieces with [stream: true] and a last call without gives
    what one call on the whole gives, in every encoding and whatever the decoder kept before:
    no character is lost or replaced because it was cut, and an error in any piece is the
    error of the whole.  When the last call returns, the decoder is as new. *)
Theorem td_stream_correct `{Utf8proc, Heap} st chunks last :
  (∀ n, malloc n = true) → Forall byte_ok (pending st) → Forall (Forall byte_ok) chunks →
  Forall byte_ok last → zlen (pending st ++ concat chunks ++ last) < 2 ^ 60 →
  (decode_chunks st chunks last).2 = (td_decode st (concat chunks ++ last) false).2 ∧
  (is_ok (decode_chunks st chunks last).2 = true → (decode_chunks st chunks last).1
    = fresh (encoding st) (td_fatal st) (td_ignore_bom st)).
Proof.
  intros Hm Hp Hc Hl Hz. apply decode_chunks_correct; [done|]. split; [|done].
  rewrite !Forall_app. split; [done|]. split; [by apply Forall_concat|done].
Qed.

Lemma td_stream_correct_witness :
  (@decode_chunks standard_utf8proc roomy_heap (fresh TD_ENC_UTF16LE true false)
     [[0xFF]; [0xFE; 0x3D]; [0xD8; 0x00]] [0xDE]).2 = Ok [0xF0; 0x9F; 0x98; 0x80] ∧
  (@td_decode standard_utf8proc roomy_heap (fresh TD_ENC_UTF16LE true false)
     [0xFF; 0xFE; 0x3D; 0xD8; 0x00; 0xDE] false).2 = Ok [0xF0; 0x9F; 0x98; 0x80].
Proof.
  destruct (@td_stream_correct standard_utf8proc roomy_heap (fresh TD_ENC_UTF16LE true false)
    [[0xFF]; [0xFE; 0x3D]; [0xD8; 0x00]] [0xDE] ltac:(done) ltac:(constructor)
    ltac:(repeat constructor; vm_compute; congruence) ltac:(repeat constructor; vm_compute; congruence)
    ltac:(done)) as [E _].
  split; [rewrite E|]; vm_compute; reflexivity.
Defined.

(** A [fatal] UTF-16 decoder is not reset by its error. *)
Lemma td_error_bom `{Utf8proc, Heap} :
  (∀ n, malloc n = true) →
  let bad16 := [0x00; 0xDC; 0x00; 0xDC] in let text16 := [0xFF; 0xFE; 0x41; 0x00] in
  let st16 := fresh TD_ENC_UTF16LE true false in
  let bad8 := [0xFF] in let text8 := [0xEF; 0xBB; 0xBF; 0x41] in
  let st8 := fresh TD_ENC_UTF8 true false in
  (td_decode st16 bad16 false).2 = invalid_data ∧
  (td_decode st16 text16 false).2 = Ok [0x41] ∧
  (td_decode (td_decode st16 bad16 false).1 text16 false).2 = Ok [0xEF; 0xBB; 0xBF; 0x41] ∧
  (td_decode st8 bad8 false).2 = invalid_data ∧
  (td_decode (td_decode st8 bad8 false).1 text8 false).2 = Ok [0x41].
Proof.
  intros Hm.
  assert (utf8proc_encode_char 0xFEFF = [0xEF; 0xBB; 0xBF]) as E1
    by (by rewrite utf8proc_encode_char_law by (unfold scalar; lia)).
  assert (utf8proc_encode_char 0x41 = [0x41]) as E2
    by (by rewrite utf8proc_encode_char_law by (unfold scalar; lia)).
  cbv zeta. rewrite !(td_decode_roomy _ _ _ Hm). destruct H as [encode_char ?]. cbn in E1, E2.
  repeat split; vm_compute; rewrite ?E1, ?E2; done.
Qed.

(** C28: Decoding the bytes of 16-bit units, in the byte order of the decoder, gives the text they
    encode: a surrogate pair is its character, any other surrogate is U+FFFD or, for a [fatal]
    decoder, an error, and a leading byte order mark goes unless [ignoreBOM].  Every sequence
    of units reads as a text.  But after a [fatal] UTF-16 decoder has refused a text in a call
    without [stream], the next text is decoded as if it went on from there: its byte order mark
    is kept, where a new decoder drops it.  A UTF-8 decoder does drop it. *)
Theorem utf16_decode_correct `{Utf8proc, Heap} e fatal ign us :
  (e = TD_ENC_UTF16LE ∨ e = TD_ENC_UTF16BE) →
  (∀ n, malloc n = true) → Forall (λ u, 0 <= u < 0x10000) us → zlen us < 2 ^ 59 →
  (∃ cps bad, reads16 us cps bad) ∧
  (∀ cps bad, reads16 us cps bad →
    (td_decode (fresh e fatal ign) (bytes16 (bool_decide (e = TD_ENC_UTF16BE)) us) false).2
    = if fatal && bad then invalid_data else Ok (encode (strip (mk_dec ign false []) cps))) ∧
  let bad16 := [0x00; 0xDC; 0x00; 0xDC] in let text16 := [0xFF; 0xFE; 0x41; 0x00] in
  let st16 := fresh TD_ENC_UTF16LE true false in
  let bad8 := [0xFF] in let text8 := [0xEF; 0xBB; 0xBF; 0x41] in
  let st8 := fresh TD_ENC_UTF8 true false in
  (td_decode st16 bad16 false).2 = invalid_data ∧
  (td_decode st16 text16 false).2 = Ok [0x41] ∧
  (td_decode (td_decode st16 bad16 false).1 text16 false).2 = Ok [0xEF; 0xBB; 0xBF; 0x41] ∧
  (td_decode st8 bad8 false).2 = invalid_data ∧
  (td_decode (td_decode st8 bad8 false).1 text8 false).2 = Ok [0x41].
Proof.
  intros He Hm Hus Hl. split; [by apply reads16_total|]. split; [|by apply td_error_bom].
  intros cps bad Hr. by apply decode_utf16.
Qed.

Lemma utf16_decode_correct_witness :
  ∃ cps bad, reads16 [0xFEFF; 0xD83D; 0xDE00; 0xDC00] cps bad ∧
  (@td_decode standard_utf8proc roomy_heap (fresh TD_ENC_UTF16BE false false)
    [0xFE; 0xFF; 0xD8; 0x3D; 0xDE; 0x00; 0xDC; 0x00] false).2
  = Ok (encode (strip (mk_dec false false []) cps)).
Proof.
  destruct (@utf16_decode_correct standard_utf8proc roomy_heap TD_ENC_UTF16BE false false
    [0xFEFF; 0xD83D; 0xDE00; 0xDC00] ltac:(by right) ltac:(done)
    ltac:(repeat constructor; vm_compute; congruence) ltac:(done)) as [(cps & bad & Hr) [K _]].
  exists cps, bad. split; [exact Hr|exact (K cps bad Hr)].
Defined.


