(* ===== verification/TextEncoder.v ===== *)
(** * TextEncoder

    Models the export of a stored string, which is (W)UTF-8 and may hold surrogates, as strict
    UTF-8: [utf8_export_wtf8], [utf8_export_length], [utf8_export_length_slow] and
    [utf8_export_into] of src/utf8.c and include/gc/strings.h, and [te_encode] of
    src/modules/textcodec.c, which TextEncoder and Buffer use. *)

From S2P Require Import Prelude Utils Utf8 Utf16Index StringMeta TextDecoder.

(** ** The program *)

(** [str] is what stands from [pos] on; the surrogate, [None] for false. *)
Definition utf8_wtf8_surrogate_at (str : list Z) : option Z :=
  if (length str <=? 2)%nat || negb (at_ str 0 =? 0xed) || negb (at_ str 1 &' 0xe0 =? 0xa0)
     || negb (at_ str 2 &' 0xc0 =? 0x80)
  then None
  else
    let out := u16 (u16 ((at_ str 0 &' 0x0f) <<' 12) |' u16 ((at_ str 1 &' 0x3f) <<' 6)
                    |' (at_ str 2 &' 0x3f)) in
    if (0xd800 <=? out) && (out <=? 0xdfff) then Some out else None.

Section program.
Context `{Utf8proc}.

(** One round up to the test for room: the piece to write, the bytes consumed, the units. *)
Definition export_piece (str : list Z) : list Z * nat * nat :=
  match utf8_wtf8_surrogate_at str with
  | Some first =>
      match (if first <=? 0xdbff then utf8_wtf8_surrogate_at (drop 3 str) else None) with
      | Some second =>
          if 0xdc00 <=? second then
            let cp := u32 (0x10000 + u32 (u32 (first - 0xd800) <<' 10) + u32 (second - 0xdc00)) in
            (utf8proc_encode_char cp, 6%nat, 2%nat)
          else (FFFD, 3%nat, 1%nat)
      | None => (FFFD, 3%nat, 1%nat)
      end
  | None =>
      match utf8proc_iterate str with
      | Some (n, cp) => (take n str, n, if 0x10000 <=? cp then 2%nat else 1%nat)
      | None => (FFFD, 1%nat, 1%nat)
      end
  end.

(** What was written and the units read; each round consumes at least one byte. *)
Fixpoint export_loop (rounds : nat) (str : list Z) (dst_len : Z) (out : list Z) (read_units : Z)
    : list Z * Z :=
  match rounds, str with
  | S rounds, _ :: _ =>
      let '(piece, consumed, units) := export_piece str in
      if dst_len - zlen out <? zlen piece then (out, read_units)
      else export_loop rounds (drop consumed str) dst_len (out ++ piece) (read_units + Z.of_nat units)
  | _, _ => (out, read_units)
  end.

Definition utf8_export_wtf8 (str : list Z) (dst_len : Z) : list Z * Z :=
  export_loop (length str) str dst_len [] 0.

Definition SIZE_MAX : Z := 2 ^ 64 - 1.

Definition utf8_export_length_slow (flat : ant_flat_string_t) : Z * ant_flat_string_t :=
  let '(valid, flat) := str_is_valid_utf8 flat in
  let str_len := zlen (flat_bytes flat) in
  if valid then (str_len, flat)
  else
    let len := zlen (utf8_export_wtf8 (flat_bytes flat) SIZE_MAX).1 in
    (len, if len =? str_len then str_flat_set_utf_valid_state flat STR_UTF_INVALID_SAME_LENGTH
          else flat).

Definition utf8_export_length (flat : ant_flat_string_t) : Z * ant_flat_string_t :=
  let str_len := zlen (flat_bytes flat) in
  if str_len =? 0 then (0, flat)
  else
    let state := str_flat_utf_valid_state flat in
    if (state =? STR_UTF_VALID) || (state =? STR_UTF_INVALID_SAME_LENGTH) then (str_len, flat)
    else if state =? STR_UTF_UNKNOWN then
      let '(ascii, flat) := flat_is_ascii flat in
      if ascii then (str_len, flat) else utf8_export_length_slow flat
    else utf8_export_length_slow flat.

(** [while (len > 0 && str[len] is a continuation byte) len--]. *)
Fixpoint back_up (str : list Z) (len : nat) : nat :=
  match len with
  | O => O
  | S len' => if at_ str len &' 0xc0 =? 0x80 then back_up str len' else len
  end.

(** The bytes written, the units read, and the string. *)
Definition utf8_export_into (flat : ant_flat_string_t) (dst_len : Z)
    : list Z * Z * ant_flat_string_t :=
  if zlen (flat_bytes flat) =? 0 then ([], 0, flat)
  else
    let '(valid, flat) := str_is_valid_utf8 flat in
    let str := flat_bytes flat in
    if negb valid then (utf8_export_wtf8 str dst_len, flat)
    else
      let len := if zlen str <? dst_len then length str else Z.to_nat dst_len in
      let len := if (len <? length str)%nat then back_up str len else len in
      let out := take len str in
      (out, Z.of_nat (utf16_strlen (λ _, out) 0 initial_caches 0 len).1, flat).

(** The contents of the array; its buffer is a header of 40 bytes and the bytes. *)
Definition te_encode `{Heap} (flat : ant_flat_string_t) : outcome (list Z) :=
  let str_len := zlen (flat_bytes flat) in
  if (SIZE_MAX - 40 <? str_len) || negb (calloc (40 + str_len)) then js_mkerr "out of memory"
  else
    let '(out, _, _) := utf8_export_into flat str_len in
    if str_len <? zlen out then Ub else Ok out.

End program.

(** ** The text of a string

    A string is a sequence of code units; as text, pairs of surrogates are characters and
    other surrogates are U+FFFD ([reads16]).  [usv] computes it from the stored code points. *)

Definition is_high (cp : Z) : bool := (0xd800 <=? cp) && (cp <? 0xdc00).

Definition is_low (cp : Z) : bool := (0xdc00 <=? cp) && (cp <? 0xe000).

Definition joined (hi lo : Z) : Z := 0x10000 + (hi - 0xd800) * 1024 + (lo - 0xdc00).

(** The first code point of the text and how many stored ones it takes. *)
Definition usv_head (cps : list Z) : option (Z * nat) :=
  match cps with
  | [] => None
  | cp :: rest =>
      if is_high cp then
        match rest with
        | lo :: _ => if is_low lo then Some (joined cp lo, 2%nat) else Some (0xFFFD, 1%nat)
        | [] => Some (0xFFFD, 1%nat)
        end
      else if is_low cp then Some (0xFFFD, 1%nat)
      else Some (cp, 1%nat)
  end.

Fixpoint usv_from (rounds : nat) (cps : list Z) : list Z :=
  match rounds, usv_head cps with
  | S rounds, Some (c, k) => c :: usv_from rounds (drop k cps)
  | _, _ => []
  end.

Definition usv (cps : list Z) : list Z := usv_from (length cps) cps.

Lemma is_high_spec cp : is_high cp = true ↔ 0xd800 <= cp < 0xdc00.
Proof. unfold is_high. rewrite andb_true_iff, Z.leb_le, Z.ltb_lt. lia. Qed.

Lemma is_low_spec cp : is_low cp = true ↔ 0xdc00 <= cp < 0xe000.
Proof. unfold is_low. rewrite andb_true_iff, Z.leb_le, Z.ltb_lt. lia. Qed.

Lemma bool_false_iff (b : bool) (P : Prop) : (b = true ↔ P) → b = false ↔ ¬ P.
Proof. destruct b; intuition congruence. Qed.

(** What the head is, on every branch. *)
Lemma usv_head_cases cps c k :
  Forall codepoint cps → usv_head cps = Some (c, k) →
  (∃ hi lo rest, cps = hi :: lo :: rest ∧ k = 2%nat ∧ c = joined hi lo ∧
     0xd800 <= hi < 0xdc00 ∧ 0xdc00 <= lo < 0xe000) ∨
  (∃ cp rest, cps = cp :: rest ∧ k = 1%nat ∧
     ((scalar cp ∧ c = cp) ∨
      (0xd800 <= cp < 0xe000 ∧ c = 0xFFFD ∧
       (0xd800 <= cp < 0xdc00 → match rest with lo :: _ => ¬ 0xdc00 <= lo < 0xe000 | [] => True end)))).
Proof.
  intros Hcs. destruct Hcs as [|cp rest Hc Hcs]; [done|]. cbn. unfold codepoint in Hc.
  destruct (is_high cp) eqn:Eh.
  - apply is_high_spec in Eh. destruct rest as [|lo rest].
    + intros [= <- <-]. right. exists cp, []. split; [done|]. split; [done|]. right. split; [lia|done].
    + destruct (is_low lo) eqn:El; intros [= <- <-].
      * apply is_low_spec in El. left. by exists cp, lo, rest.
      * apply (bool_false_iff _ _ (is_low_spec lo)) in El. right. exists cp, (lo :: rest).
        split; [done|]. split; [done|]. right. split; [lia|done].
  - apply (bool_false_iff _ _ (is_high_spec cp)) in Eh.
    destruct (is_low cp) eqn:El; intros [= <- <-]; right; exists cp, rest; (split; [done|]); (split; [done|]).
    + apply is_low_spec in El. right. split; [lia|]. split; [done|lia].
    + apply (bool_false_iff _ _ (is_low_spec cp)) in El. left. unfold scalar. split; [lia|done].
Qed.

Lemma joined_range hi lo :
  0xd800 <= hi < 0xdc00 → 0xdc00 <= lo < 0xe000 →
  0x10000 <= joined hi lo < 0x110000 ∧ utf16 (joined hi lo) = [hi; lo].
Proof.
  intros Hh Hl. unfold joined. split; [lia|]. unfold utf16. rewrite (proj2 (Z.ltb_ge _ _)) by lia.
  f_equal; [word|]. f_equal. word.
Qed.

Lemma utf16_unit_1 cp : cp < 0x10000 → utf16 cp = [cp].
Proof. intros Hc. unfold utf16. by rewrite (proj2 (Z.ltb_lt _ _) Hc). Qed.

Lemma code_units_cons cp cps : code_units (cp :: cps) = utf16 cp ++ code_units cps.
Proof. done. Qed.

(** The facts a round needs: the head is a scalar value, it takes no fewer bytes stored than
    encoded, as many units, and reading goes on behind it. *)
Lemma usv_head_spec cps c k :
  Forall codepoint cps → usv_head cps = Some (c, k) →
  scalar c ∧ (0 < k <= length cps)%nat ∧
  (length (enc c) <= length (encode (take k cps)))%nat ∧
  length (utf16 c) = length (code_units (take k cps)) ∧
  ∀ scal bad, reads16 (code_units (drop k cps)) scal bad → ∃ bad', reads16 (code_units cps) (c :: scal) bad'.
Proof.
  intros Hcs E. destruct (usv_head_cases cps c k Hcs E)
    as [(hi & lo & rest & -> & -> & -> & Hh & Hl)|(cp & rest & -> & -> & Hcp)].
  - destruct (joined_range hi lo Hh Hl) as [Hr Hu].
    split; [unfold scalar; lia|]. split; [simpl; lia|].
    assert (take 2 (hi :: lo :: rest) = [hi; lo]) as -> by (by destruct rest).
    split; [|split].
    + pose proof (enc_length (joined hi lo)). rewrite !encode_cons, !length_app. cbn.
      assert (∀ x, 0xd800 <= x < 0xe000 → length (enc x) = 3%nat) as K.
      { intros x Hx. unfold enc. repeat case_ltb; simpl; lia. }
      rewrite (K hi), (K lo) by lia. lia.
    + rewrite Hu. rewrite !code_units_cons, !utf16_unit_1 by lia. done.
    + intros scal bad Hread. exists bad.
      assert (code_units (hi :: lo :: rest) = utf16 (joined hi lo) ++ code_units rest) as ->
        by (by rewrite Hu, !code_units_cons, !utf16_unit_1 by lia).
      constructor; [unfold scalar; lia|]. cbn [drop] in Hread. by rewrite drop_0 in Hread.
  - assert (take 1 (cp :: rest) = [cp]) as -> by (by destruct rest).
    assert (drop 1 (cp :: rest) = rest) as -> by (cbn; by rewrite drop_0).
    rewrite encode_cons, code_units_cons, !length_app. cbn [length encode code_units fmap list_fmap concat].
    rewrite !Nat.add_0_r. destruct Hcp as [[Hs ->]|(Hs & -> & Hnext)].
    + split; [done|]. split; [simpl; lia|]. split; [done|]. split; [done|].
      intros scal bad Hread. exists bad. by apply (reads16_char cp (code_units rest)).
    + split; [unfold scalar; lia|]. split; [simpl; lia|].
      assert (length (enc cp) = 3%nat) as -> by (unfold enc; repeat case_ltb; simpl; lia).
      rewrite (utf16_unit_1 cp) by lia. split; [done|]. split; [done|]. cbn [app].
      intros scal bad Hread. exists true. change (concat (utf16 <$> rest)) with (code_units rest).
      apply (reads16_lone _ _ _ bad); [lia| |done]. unfold pairs_with. intros [Hh Hl].
      specialize (Hnext Hh). destruct rest as [|x rest]; [done|].
      rewrite code_units_cons in Hl. unfold utf16 in Hl.
      apply Forall_cons in Hcs as [_ [Hx _]%Forall_cons]. unfold codepoint in Hx.
      destruct (Z.ltb_spec x 0x10000); cbn in Hl; [lia|word].
Qed.

Lemma usv_head_some cps : cps ≠ [] → is_Some (usv_head cps).
Proof. destruct cps as [|cp [|lo rest]]; [done|..]; intros _; cbn; repeat case_match; eauto. Qed.

Lemma usv_reads cps rounds :
  Forall codepoint cps → (length cps <= rounds)%nat →
  Forall scalar (usv_from rounds cps) ∧ (∃ bad, reads16 (code_units cps) (usv_from rounds cps) bad) ∧
  (length (encode (usv_from rounds cps)) <= length (encode cps))%nat.
Proof.
  revert cps. induction rounds as [|rounds IH]; intros cps Hcs Hr.
  { destruct cps; [|simpl in Hr; lia]. split; [constructor|]. split; [eexists; constructor|done]. }
  cbn [usv_from]. destruct (usv_head cps) as [[c k]|] eqn:E.
  - destruct (usv_head_spec cps c k Hcs E) as (Hs & Hk & Hb & _ & Hread).
    destruct (IH (drop k cps)) as (I1 & [bad I2] & I3); [by apply Forall_drop|rewrite length_drop; lia|].
    split; [by constructor|]. split; [by eapply Hread|].
    rewrite <- (take_drop k cps) at 2. rewrite encode_cons, encode_app, !length_app. lia.
  - destruct cps as [|cp cps]; [split; [constructor|]; split; [eexists; constructor|done]|].
    destruct (usv_head_some (cp :: cps)) as [? E']; [done|]. congruence.
Qed.

(** ** The loop *)

Lemma surrogate_at_enc cp rest :
  codepoint cp →
  utf8_wtf8_surrogate_at (enc cp ++ rest) = if is_high cp || is_low cp then Some cp else None.
Proof.
  unfold codepoint. intros Hc.
  assert (is_high cp || is_low cp = (0xd800 <=? cp) && (cp <? 0xe000)) as ->
    by (unfold is_high, is_low; repeat case_ltb; cbn; done || lia).
  assert (∀ b s, b ≠ 0xed → utf8_wtf8_surrogate_at (b :: s) = None) as Hother.
  { intros b s Hb. unfold utf8_wtf8_surrogate_at. change (at_ (b :: s) 0) with b.
    by rewrite (proj2 (Z.eqb_neq b 0xed)), orb_true_r by done. }
  unfold enc. destruct (Z.ltb_spec cp 0x80); [|destruct (Z.ltb_spec cp 0x800);
    [|destruct (Z.ltb_spec cp 0x10000)]]; cbn [app].
  1, 2, 4: rewrite Hother by word; repeat case_ltb; cbn; done || lia.
  destruct (decide (cp / 4096 = 13)) as [E|E]; [|rewrite Hother by lia; repeat case_ltb; cbn; done || word].
  rewrite E. unfold utf8_wtf8_surrogate_at, at_. cbn [length Nat.leb nth Z.add].
  set (b := 0x80 + cp / 64 mod 64). set (c := 0x80 + cp mod 64).
  assert (byte_ok b ∧ 0x80 <= b <= 0xbf ∧ byte_ok c ∧ 0x80 <= c <= 0xbf) as (Hb & Hb' & Hc' & Hc'')
    by (unfold b, c, byte_ok; word).
  assert ((c &' 0xc0 =? 0x80) = true ∧ c &' 0x3f = c - 0x80) as [-> ->].
  { split; [|rewrite land_3f; word].
    pose proof (byte_cases (λ c, implb ((0x80 <=? c) && (c <=? 0xbf)) (c &' 0xc0 =? 0x80))
      ltac:(vm_compute; reflexivity) c Hc') as K. cbv beta in K.
    by rewrite (proj2 (Z.leb_le 0x80 c)), (proj2 (Z.leb_le c 0xbf)) in K by lia. }
  assert ((b &' 0xe0 =? 0xa0) = (0xa0 <=? b) ∧ b &' 0x3f = b - 0x80) as [-> ->].
  { split; [|rewrite land_3f; word].
    pose proof (byte_cases (λ b, implb ((0x80 <=? b) && (b <=? 0xbf)) (Bool.eqb (b &' 0xe0 =? 0xa0) (0xa0 <=? b)))
      ltac:(vm_compute; reflexivity) b Hb) as K. cbv beta in K.
    rewrite (proj2 (Z.leb_le 0x80 b)), (proj2 (Z.leb_le b 0xbf)) in K by lia. by apply eqb_prop. }
  change (0xe0 + 13 =? 0xed) with true. change ((0xe0 + 13) &' 0x0f) with 13. cbn [negb orb].
  destruct (Z.leb_spec 0xa0 b); cbn [negb orb].
  - rewrite !shiftl_mul, !(u16_small (_ * _)) by lia.
    rewrite <- Z.lor_assoc, (lor_add_low (b - 0x80) (c - 0x80) 6), (lor_add_low 13 _ 12) by lia.
    assert (13 * 2 ^ 12 + ((b - 128) * 2 ^ 6 + (c - 128)) = cp) as -> by (unfold b, c; word).
    rewrite u16_small by lia. assert (0xd800 <= cp < 0xe000) by (unfold b, c in *; word).
    repeat case_ltb; cbn; done || lia.
  - assert (cp < 0xd800) by (unfold b in *; word). repeat case_ltb; cbn; done || lia.
Qed.

Section loop.
Context `{Utf8proc}.

Lemma length_enc_surrogate cp : 0xd800 <= cp < 0xe000 → length (enc cp) = 3%nat.
Proof. intros Hc. unfold enc. repeat case_ltb; simpl; lia. Qed.

Lemma drop_enc_surrogate cp rest : 0xd800 <= cp < 0xe000 → drop 3 (enc cp ++ rest) = rest.
Proof. intros Hc. by rewrite <- (length_enc_surrogate cp Hc), drop_app_length. Qed.

Lemma surrogate_bool cp : 0xd800 <= cp < 0xe000 → is_high cp || is_low cp = true.
Proof. intros Hc. unfold is_high, is_low. repeat case_ltb; cbn; done || lia. Qed.

Lemma scalar_bool cp : scalar cp → is_high cp || is_low cp = false.
Proof. unfold scalar. intros Hc. unfold is_high, is_low. repeat case_ltb; cbn; done || lia. Qed.

Lemma export_piece_spec cps c k :
  Forall codepoint cps → usv_head cps = Some (c, k) →
  export_piece (encode cps) = (enc c, length (encode (take k cps)), length (utf16 c)).
Proof.
  intros Hcs E. destruct (usv_head_cases cps c k Hcs E)
    as [(hi & lo & rest & -> & -> & -> & Hh & Hl)|(cp & rest & -> & -> & Hcp)].
  - apply Forall_cons in Hcs as [Hc1 [Hc2 _]%Forall_cons]. unfold export_piece.
    rewrite encode_cons, surrogate_at_enc, surrogate_bool by (done || lia).
    rewrite (proj2 (Z.leb_le hi 0xdbff)), drop_enc_surrogate by lia.
    rewrite encode_cons, surrogate_at_enc, surrogate_bool, (proj2 (Z.leb_le 0xdc00 lo)) by (done || lia).
    rewrite shiftl_mul, (u32_small (hi - 0xd800)), (u32_small (_ * _)), (u32_small (lo - 0xdc00)), u32_small by lia.
    destruct (joined_range hi lo Hh Hl) as [Hr Hu].
    change (0x10000 + (hi - 0xd800) * 2 ^ 10 + (lo - 0xdc00)) with (joined hi lo).
    rewrite utf8proc_encode_char_law by (unfold scalar; lia). rewrite Hu.
    assert (take 2 (hi :: lo :: rest) = [hi; lo]) as -> by (by destruct rest).
    rewrite !encode_cons, !length_app, !length_enc_surrogate by lia. done.
  - apply Forall_cons in Hcs as [Hc Hcs]. unfold export_piece.
    assert (take 1 (cp :: rest) = [cp]) as -> by (by destruct rest).
    assert (encode [cp] = enc cp) as -> by (unfold encode; cbn; apply app_nil_r).
    rewrite encode_cons, surrogate_at_enc by done. destruct Hcp as [[Hs ->]|(Hs & -> & Hnext)].
    + rewrite scalar_bool, utf8proc_iterate_law, take_app_length by done.
      do 2 f_equal. unfold utf16. destruct (Z.ltb_spec cp 0x10000), (Z.leb_spec 0x10000 cp); done || lia.
    + rewrite surrogate_bool, drop_enc_surrogate, length_enc_surrogate by done.
      destruct (Z.leb_spec cp 0xdbff); [|done]. specialize (Hnext ltac:(lia)).
      destruct rest as [|lo rest]; [done|]. apply Forall_cons in Hcs as [Hlo _].
      rewrite encode_cons, surrogate_at_enc by done.
      destruct (is_high lo || is_low lo) eqn:El; [|done].
      assert (lo < 0xdc00) as Hlt.
      { revert El. unfold is_high, is_low. repeat case_ltb; cbn; done || lia. }
      by rewrite (proj2 (Z.leb_gt 0xdc00 lo)) by lia.
Qed.

(** The longest prefix of the text that fits. *)
Definition fitting (scal out : list Z) (dst_len : Z) (k : nat) : Prop :=
  (k <= length scal)%nat ∧ zlen (out ++ encode (take k scal)) <= dst_len ∧
  ((k < length scal)%nat → dst_len < zlen (out ++ encode (take (S k) scal))).

Lemma export_loop_spec n rounds cps dst_len out units :
  Forall codepoint cps → (length cps <= n)%nat → (length (encode cps) <= rounds)%nat →
  zlen out <= dst_len →
  let scal := usv_from n cps in
  ∃ k, fitting scal out dst_len k ∧
    export_loop rounds (encode cps) dst_len out units
    = (out ++ encode (take k scal), units + zlen (code_units (take k scal))).
Proof.
  revert rounds cps out units. induction n as [|n IH]; intros rounds cps out units Hcs Hn Hr Hout; cbv zeta.
  { destruct cps; [|simpl in Hn; lia]. exists 0%nat. cbn. rewrite app_nil_r, Z.add_0_r.
    split; [|by destruct rounds]. split; [done|]. cbn. rewrite app_nil_r. split; [done|]. simpl. lia. }
  cbn [usv_from]. destruct (usv_head cps) as [[c j]|] eqn:E; last first.
  { destruct cps as [|cp cps]; [|destruct (usv_head_some (cp :: cps)) as [? E']; [done|congruence]].
    exists 0%nat. cbn. rewrite app_nil_r, Z.add_0_r. split; [|by destruct rounds].
    split; [done|]. cbn. rewrite app_nil_r. split; [done|]. simpl. lia. }
  destruct (usv_head_spec cps c j Hcs E) as (Hs & Hj & Hb & Hu & _).
  pose proof (enc_length c) as Hl. set (scal := usv_from n (drop j cps)).
  assert (encode cps = encode (take j cps) ++ encode (drop j cps)) as Esplit
    by (by rewrite <- encode_app, take_drop).
  assert (1 <= length (encode (take j cps)))%nat as Hpos by lia.
  assert (length (encode cps) = length (encode (take j cps)) + length (encode (drop j cps)))%nat as Elen
    by (by rewrite Esplit, length_app).
  destruct rounds as [|rounds]; [lia|].
  assert (export_loop (S rounds) (encode cps) dst_len out units
    = let '(piece, consumed, u) := export_piece (encode cps) in
      if dst_len - zlen out <? zlen piece then (out, units)
      else export_loop rounds (drop consumed (encode cps)) dst_len (out ++ piece) (units + Z.of_nat u)) as ->.
  { destruct (encode cps); [simpl in Elen; lia|done]. }
  rewrite (export_piece_spec cps c j Hcs E). destruct (Z.ltb_spec (dst_len - zlen out) (zlen (enc c))).
  - exists 0%nat. rewrite !take_0. change (encode []) with (@nil Z). change (zlen (code_units [])) with 0.
    rewrite app_nil_r, Z.add_0_r. split; [|done]. split; [lia|]. cbn. rewrite app_nil_r. split; [done|]. intros _.
    rewrite take_0. cbn. rewrite app_nil_r, zlen_app. lia.
  - rewrite Esplit, drop_app_length.
    destruct (IH rounds (drop j cps) (out ++ enc c) (units + Z.of_nat (length (utf16 c))))
      as (k & (Hk1 & Hk2 & Hk3) & ->);
      [by apply Forall_drop|rewrite length_drop; lia|lia|rewrite zlen_app; lia|].
    fold scal in Hk1, Hk2, Hk3 |- *. exists (S k). cbn [take].
    rewrite encode_cons, code_units_cons, zlen_app, app_assoc. split; [|f_equal; unfold zlen; lia].
    split; [simpl; lia|]. cbn [take]. rewrite !encode_cons, !app_assoc. split; [done|].
    intros Hlt. apply Hk3. simpl in Hlt. lia.
Qed.

Lemma utf8_export_wtf8_spec cps dst_len :
  Forall codepoint cps → 0 <= dst_len →
  ∃ k, fitting (usv cps) [] dst_len k ∧
    utf8_export_wtf8 (encode cps) dst_len
    = (encode (take k (usv cps)), zlen (code_units (take k (usv cps)))).
Proof.
  intros Hcs Hd. apply (export_loop_spec (length cps) (length (encode cps)) cps dst_len [] 0); done.
Qed.

End loop.

(** ** Valid strings *)

Lemma enc_app_inj c c' r r' :
  codepoint c → codepoint c' → enc c ++ r = enc c' ++ r' → c = c' ∧ r = r'.
Proof.
  intros Hc Hc' E. pose proof (decode_enc c r true Hc) as D. pose proof (decode_enc c' r' true Hc') as D'.
  rewrite E in D. destruct (utf16_scan_decode _ true) as [[n u] x].
  destruct D as (_ & _ & D), D' as (_ & _ & D'). assert (c = c') as <- by (by rewrite <- D, <- D').
  split; [done|]. by apply app_inv_head in E.
Qed.

Lemma encode_inj cps cps' :
  Forall codepoint cps → Forall codepoint cps' → encode cps = encode cps' → cps = cps'.
Proof.
  intros Hcs. revert cps'. induction Hcs as [|c cps Hc Hcs IH]; intros cps' Hcs' E.
  - destruct cps' as [|c' cps']; [done|]. apply (f_equal length) in E. pose proof (enc_length c').
    rewrite encode_cons, length_app in E. simpl in E. lia.
  - destruct Hcs' as [|c' cps' Hc' Hcs'].
    { apply (f_equal length) in E. pose proof (enc_length c). rewrite encode_cons, length_app in E.
      simpl in E. lia. }
    rewrite !encode_cons in E. apply enc_app_inj in E as [-> E]; [|done..]. f_equal. by apply IH.
Qed.

Lemma scalar_codepoints cps : Forall scalar cps → Forall codepoint cps.
Proof. intros Hs. eapply Forall_impl; [exact Hs|]. unfold scalar, codepoint. cbn. lia. Qed.

Lemma encode_byte_ok cps : Forall codepoint cps → Forall byte_ok (encode cps).
Proof.
  intros Hcs. unfold encode. apply Forall_concat, Forall_fmap. eapply Forall_impl; [exact Hcs|].
  intros c Hc. by apply enc_byte_ok.
Qed.

Lemma valid_scalars cps :
  Forall codepoint cps → utf8_validate_bytes (encode cps) = true → Forall scalar cps.
Proof.
  intros Hcs Hv. apply utf8_validate_bytes_iff in Hv as (cps' & Hs & E); [|by apply encode_byte_ok].
  apply encode_inj in E as ->; [done|done|by apply scalar_codepoints].
Qed.

Lemma usv_scalars cps n : Forall scalar cps → (length cps <= n)%nat → usv_from n cps = cps.
Proof.
  intros Hs. revert n. induction Hs as [|c cps Hc Hs IH]; intros n Hn; [by destruct n|].
  simpl in Hn. destruct n as [|n]; [lia|]. cbn [usv_from usv_head].
  apply scalar_bool in Hc. apply orb_false_iff in Hc as [-> ->]. cbn [drop]. rewrite drop_0, IH by lia. done.
Qed.

(** *** Cutting at a character *)

Lemma enc_tail cp j :
  codepoint cp → (0 < j < length (enc cp))%nat → (at_ (enc cp) j &' 0xc0 =? 0x80) = true.
Proof.
  intros Hc Hj. assert (0x80 <= at_ (enc cp) j <= 0xbf) as Hr.
  { unfold codepoint in Hc. revert Hj. unfold enc. repeat case_ltb; cbn [length]; intros Hj;
      (destruct j as [|[|[|[|j]]]]; try lia); unfold at_; cbn [nth]; word. }
  pose proof (byte_cases (λ c, implb ((0x80 <=? c) && (c <=? 0xbf)) (c &' 0xc0 =? 0x80))
    ltac:(vm_compute; reflexivity) (at_ (enc cp) j) ltac:(unfold byte_ok; lia)) as K.
  cbv beta in K. by rewrite (proj2 (Z.leb_le 0x80 _)), (proj2 (Z.leb_le _ 0xbf)) in K by lia.
Qed.

Lemma enc_first cp : codepoint cp → (at_ (enc cp) 0 &' 0xc0 =? 0x80) = false.
Proof.
  intros Hc. assert (byte_ok (at_ (enc cp) 0) ∧ (at_ (enc cp) 0 < 0x80 ∨ 0xbf < at_ (enc cp) 0)) as [Hb Hr].
  { unfold codepoint in Hc. unfold byte_ok, enc. repeat case_ltb; unfold at_; cbn [nth]; word. }
  pose proof (byte_cases (λ c, implb (c &' 0xc0 =? 0x80) ((0x80 <=? c) && (c <=? 0xbf)))
    ltac:(vm_compute; reflexivity) _ Hb) as K. cbv beta in K.
  destruct (_ =? 0x80); [|done]. cbn in K. apply andb_true_iff in K as [K1%Z.leb_le K2%Z.leb_le]. lia.
Qed.

(** Backing up from inside a character ends at its start. *)
Lemma back_up_to str k d :
  (k = 0%nat ∨ (at_ str k &' 0xc0 =? 0x80) = false) →
  (∀ j, (0 < j <= d)%nat → (at_ str (k + j) &' 0xc0 =? 0x80) = true) → back_up str (k + d) = k.
Proof.
  intros Hk Hd. induction d as [|d IH].
  - rewrite Nat.add_0_r. destruct k as [|k]; [done|]. cbn [back_up]. destruct Hk as [|Hk]; [done|].
    by rewrite Hk.
  - rewrite Nat.add_succ_r. cbn [back_up]. rewrite <- Nat.add_succ_r, Hd by lia.
    apply IH. intros j Hj. apply Hd. lia.
Qed.

Lemma back_up_encode cps L :
  Forall codepoint cps → (L < length (encode cps))%nat →
  ∃ k, (k < length cps)%nat ∧ back_up (encode cps) L = length (encode (take k cps)) ∧
    (length (encode (take k cps)) <= L < length (encode (take (S k) cps)))%nat.
Proof.
  intros Hcs HL.
  assert (∃ k, (k < length cps)%nat ∧ (length (encode (take k cps)) <= L < length (encode (take (S k) cps)))%nat)
    as (k & Hk & HkL).
  { clear Hcs. assert (∀ n, (n <= length cps)%nat → (L < length (encode (take n cps)))%nat →
      ∃ k, (k < n)%nat ∧ (length (encode (take k cps)) <= L < length (encode (take (S k) cps)))%nat) as K.
    { induction n as [|n IH]; intros Hn Hlt; [rewrite take_0 in Hlt; simpl in Hlt; lia|].
      destruct (Nat.lt_ge_cases L (length (encode (take n cps)))) as [Hl|Hl].
      - destruct (IH ltac:(lia) Hl) as (k & ? & ?). exists k. split; [lia|done].
      - exists n. split; [lia|done]. }
    apply (K (length cps)); [done|]. by rewrite firstn_all. }
  exists k. split; [done|]. split; [|done]. destruct (lookup_lt_ex cps k Hk) as [cp E].
  pose proof (Forall_lookup_1 _ _ _ _ Hcs E) as Hc.
  assert (encode cps = encode (take k cps) ++ enc cp ++ encode (drop (S k) cps)) as Es.
  { rewrite <- encode_cons, <- (drop_S _ _ _ E), <- encode_app, take_drop. done. }
  assert (length (encode (take (S k) cps)) = length (encode (take k cps)) + length (enc cp))%nat as El.
  { rewrite (take_S_r _ _ _ E), encode_app, length_app. f_equal. unfold encode. cbn. by rewrite app_nil_r. }
  set (b := length (encode (take k cps))) in *.
  assert (∀ j, (j < length (enc cp))%nat → at_ (encode cps) (b + j) = at_ (enc cp) j) as Hat.
  { intros j Hj. rewrite Es, at_app_r, at_app_l by (unfold b; lia). f_equal. unfold b. lia. }
  replace L with (b + (L - b))%nat by lia. apply back_up_to.
  - right. rewrite <- (Nat.add_0_r b), Hat by lia. by apply enc_first.
  - intros j Hj. rewrite Hat by lia. apply enc_tail; [done|lia].
Qed.

Lemma utf16_strlen_encode cps :
  Forall codepoint cps →
  (utf16_strlen (λ _, encode cps) 0 initial_caches 0 (length (encode cps))).1 = length (code_units cps).
Proof.
  intros Hcs. unfold utf16_strlen. cbn zeta. cbn [fst]. pose proof (rounds_enough cps).
  change (utf16_scan_cursor_init 0 (length (encode cps))) with (cursor_at 0 cps 0).
  rewrite (advance_all_at (λ _, encode cps) 0 cps eq_refl Hcs) by lia.
  cbn [c_utf16_pos cursor_at]. by rewrite bpos_end.
Qed.

(** ** The operations *)

Section operations.
Context `{Utf8proc} (units : list Z → Z).

(** What [STR_UTF_INVALID_SAME_LENGTH] records. *)
Definition same_length (s : list Z) : Prop := zlen (utf8_export_wtf8 s SIZE_MAX).1 = zlen s.

Definition ok (f : ant_flat_string_t) (cps : list Z) : Prop :=
  truthful same_length units f ∧ flat_bytes f = encode cps ∧ Forall codepoint cps ∧
  zlen (encode cps) < 2 ^ 56.

Lemma fitting_all scal dst_len k :
  fitting scal [] dst_len k → zlen (encode scal) <= dst_len → take k scal = scal.
Proof.
  intros (Hk & _ & Hlt) Hl. destruct (decide (k = length scal)) as [->|Hne]; [apply firstn_all|].
  specialize (Hlt ltac:(lia)). cbn [app] in Hlt. exfalso.
  rewrite <- (take_drop (S k) scal), encode_app, zlen_app in Hl. unfold zlen in *. lia.
Qed.

Lemma usv_length cps : Forall codepoint cps → zlen (encode (usv cps)) <= zlen (encode cps).
Proof. intros Hcs. destruct (usv_reads cps (length cps) Hcs) as (_ & _ & Hl); [done|]. unfold zlen, usv. lia. Qed.

(** With room for all of it, all is written. *)
Lemma export_wtf8_all cps dst_len :
  Forall codepoint cps → zlen (encode cps) <= dst_len →
  (utf8_export_wtf8 (encode cps) dst_len).1 = encode (usv cps).
Proof.
  intros Hcs Hd. pose proof (usv_length cps Hcs).
  destruct (utf8_export_wtf8_spec cps dst_len Hcs) as (k & Hf & ->); [unfold zlen in *; lia|].
  cbn. by rewrite (fitting_all _ _ _ Hf) by lia.
Qed.

Lemma ok_bytes f f' cps : ok f cps → truthful same_length units f' → flat_bytes f' = flat_bytes f → ok f' cps.
Proof. intros (_ & Eb & Hcs & Hl) Ht E. split; [done|]. by rewrite E. Qed.

Lemma export_into_spec f cps dst_len :
  ok f cps → 0 <= dst_len →
  let '(out, read, f') := utf8_export_into f dst_len in
  ok f' cps ∧ ∃ k, fitting (usv cps) [] dst_len k ∧ out = encode (take k (usv cps)) ∧
    read = zlen (code_units (take k (usv cps))).
Proof.
  intros Hok Hd. pose proof Hok as (Ht & Eb & Hcs & Hl). unfold utf8_export_into. rewrite Eb.
  destruct (Z.eqb_spec (zlen (encode cps)) 0) as [E0|E0].
  { split; [done|]. destruct cps as [|c cps].
    { exists 0%nat. split; [|done]. split; [done|]. split; [exact Hd|]. simpl. lia. }
    pose proof (enc_length c). rewrite encode_cons, zlen_app in E0. unfold zlen in *. lia. }
  destruct (str_is_valid_utf8_spec _ _ f Ht) as (f' & -> & Ht' & Eb'). rewrite Eb', Eb.
  assert (ok f' cps) as Hok' by (by eapply ok_bytes).
  destruct (utf8_validate_bytes (encode cps)) eqn:Ev; cbn [negb]; last first.
  { destruct (utf8_export_wtf8_spec cps dst_len Hcs Hd) as (k & Hf & ->). split; [done|]. by exists k. }
  apply valid_scalars in Ev as Hs; [|done]. assert (usv cps = cps) as Eu by (by apply usv_scalars).
  rewrite Eu. split; [done|].
  assert (∀ k, (k <= length cps)%nat → take (length (encode (take k cps))) (encode cps) = encode (take k cps))
    as Htake by (intros; apply encode_take).
  assert (∀ k, (k <= length cps)%nat → ∀ len, len = length (encode (take k cps)) →
    Z.of_nat (utf16_strlen (λ _, take len (encode cps)) 0 initial_caches 0 len).1
    = zlen (code_units (take k cps))) as Hstr.
  { intros k Hk len ->. rewrite Htake by done. unfold zlen. f_equal. apply utf16_strlen_encode.
    by apply Forall_take. }
  destruct (Z.ltb_spec (zlen (encode cps)) dst_len) as [Hlt|Hge].
  - rewrite Nat.ltb_irrefl. exists (length cps). rewrite (Hstr (length cps)), !firstn_all by (rewrite ?firstn_all; done).
    split_and!; [|done|done]. split; [done|]. rewrite firstn_all. cbn. split; lia.
  - destruct (Nat.ltb_spec (Z.to_nat dst_len) (length (encode cps))) as [HL|HL].
    + destruct (back_up_encode cps (Z.to_nat dst_len) Hcs HL) as (k & Hk & -> & HkL). exists k.
      rewrite (Hstr k), Htake by (done || lia). split_and!; [|done|done].
      split; [lia|]. cbn. unfold zlen. split; [lia|]. intros _. lia.
    + assert (Z.to_nat dst_len = length (encode cps)) as -> by (unfold zlen in *; lia). exists (length cps).
      rewrite (Hstr (length cps)), !firstn_all by (rewrite ?firstn_all; done).
      split_and!; [|done|done]. split; [done|]. rewrite firstn_all. cbn. unfold zlen in *. split; lia.
Qed.

Lemma export_length_slow_spec f cps :
  ok f cps →
  (utf8_export_length_slow f).1 = zlen (encode (usv cps)) ∧ ok (utf8_export_length_slow f).2 cps.
Proof.
  intros Hok. pose proof Hok as (Ht & Eb & Hcs & Hl). unfold utf8_export_length_slow.
  destruct (str_is_valid_utf8_spec _ _ f Ht) as (f' & -> & Ht' & Eb').
  assert (ok f' cps) as Hok' by (by eapply ok_bytes). rewrite Eb', Eb.
  destruct (utf8_validate_bytes (encode cps)) eqn:Ev.
  { apply valid_scalars in Ev; [|done]. unfold usv. by rewrite usv_scalars. }
  pose proof (export_wtf8_all cps SIZE_MAX Hcs ltac:(unfold SIZE_MAX; lia)) as E. rewrite E. cbn [fst snd].
  split; [done|]. destruct (Z.eqb_spec (zlen (encode (usv cps))) (zlen (encode cps))) as [Es|]; [|done].
  eapply ok_bytes; [exact Hok'| |done].
  destruct Ht' as (Hs & len & asc & valid & Hfl & Hlen & Hasc & _). rewrite Eb', Eb in *.
  split; [cbn; by rewrite Eb'|]. exists len, asc, STR_UTF_INVALID_SAME_LENGTH.
  split; [by eapply fields_set_valid|]. cbn. rewrite Eb'. split; [done|]. split; [done|].
  right. right. right. split; [done|]. split; [done|]. unfold same_length. by rewrite E.
Qed.

Lemma export_length_spec f cps :
  ok f cps → (utf8_export_length f).1 = zlen (encode (usv cps)) ∧ ok (utf8_export_length f).2 cps.
Proof.
  intros Hok. pose proof Hok as (Ht & Eb & Hcs & Hl). unfold utf8_export_length. rewrite Eb. cbv zeta.
  pose proof (usv_length cps Hcs) as Hu.
  destruct (Z.eqb_spec (zlen (encode cps)) 0); [split; [unfold zlen in *; cbn; lia|done]|].
  pose proof Ht as (Hs & len & asc & valid & Hfl & Hlen & Hasc & Hvalid). rewrite Eb in *.
  destruct (fields_get f _ _ _ Hfl) as (_ & -> & _).
  assert (utf8_validate_bytes (encode cps) = true → zlen (encode cps) = zlen (encode (usv cps))) as Hv.
  { intros Ev. apply valid_scalars in Ev; [|done]. unfold usv. by rewrite usv_scalars. }
  destruct Hvalid as [->|[[-> Ev]|[[-> Ev]|(-> & Ev & Hsame)]]]; cbn [Z.eqb orb].
  - change (STR_UTF_UNKNOWN =? STR_UTF_VALID) with false. cbn [orb].
    destruct (flat_is_ascii_spec _ _ f Ht) as (f' & -> & Ht' & Eb' & _). rewrite Eb.
    destruct (ascii (encode cps)) eqn:Ea; [|by apply export_length_slow_spec; eapply ok_bytes].
    split; [|by eapply ok_bytes]. apply Hv, ascii_valid; done.
  - split; [by apply Hv|done].
  - by apply export_length_slow_spec.
  - split; [|done]. unfold same_length in Hsame. rewrite export_wtf8_all in Hsame; [done|done|].
    unfold SIZE_MAX. lia.
Qed.

Lemma te_encode_spec `{Heap} f cps :
  ok f cps →
  te_encode f = if calloc (40 + zlen (encode cps)) then Ok (encode (usv cps)) else js_mkerr "out of memory".
Proof.
  intros Hok. pose proof Hok as (Ht & Eb & Hcs & Hl). unfold te_encode. rewrite Eb. unfold SIZE_MAX.
  assert (0 <= zlen (encode cps)) by (unfold zlen; lia).
  rewrite (proj2 (Z.ltb_ge _ _)) by lia. cbn [orb]. destruct (calloc _); cbn [negb]; [|done].
  pose proof (export_into_spec f cps (zlen (encode cps)) Hok ltac:(done)) as Hx.
  destruct (utf8_export_into f _) as [[out read] f']. destruct Hx as (_ & k & Hf & -> & _).
  pose proof (usv_length cps Hcs). rewrite (fitting_all _ _ _ Hf) by done.
  by rewrite (proj2 (Z.ltb_ge _ _)) by lia.
Qed.

End operations.

(** ** Properties *)

(** C33: Exporting a stored string gives the UTF-8 of its text, where pairs of surrogates are
    characters, however they were stored, and other surrogates are U+FFFD: TextEncoder.encode
    all of it; encodeInto the longest prefix of whole characters that fits, never a byte more
    than the room there is, with the number of code units it stands for; and the length alone
    without writing, whatever the metadata word has recorded.  None of them makes that word
    untrue. *)
Theorem utf8_export_correct `{Utf8proc, Heap} units f cps dst_len :
  ok units f cps → 0 <= dst_len →
  ∃ text bad, reads16 (code_units cps) text bad ∧ Forall scalar text ∧
    te_encode f = (if calloc (40 + zlen (encode cps)) then Ok (encode text)
                   else js_mkerr "out of memory") ∧
    (utf8_export_length f).1 = zlen (encode text) ∧ ok units (utf8_export_length f).2 cps ∧
    let '(out, read, f') := utf8_export_into f dst_len in
    ok units f' cps ∧
    ∃ k, fitting text [] dst_len k ∧ out = encode (take k text) ∧ read = zlen (code_units (take k text)).
Proof.
  intros Hok Hd. pose proof Hok as (_ & _ & Hcs & _).
  destruct (usv_reads cps (length cps) Hcs) as (Hs & [bad Hr] & _); [done|].
  destruct (export_length_spec units f cps Hok) as [H1 H2].
  exists (usv cps), bad. split; [done|]. split; [done|]. split; [by eapply te_encode_spec|].
  split; [done|]. split; [done|]. by apply export_into_spec.
Qed.

Definition sample_flat : ant_flat_string_t :=
  str_flat_init_meta (mk_flat (encode [0x61; 0xD83D; 0xDE00; 0xD800]) 0) STR_ASCII_UNKNOWN.

Lemma sample_flat_ok : @ok standard_utf8proc (λ _, 0) sample_flat [0x61; 0xD83D; 0xDE00; 0xD800].
Proof.
  split; [|split; [done|split; [repeat constructor; vm_compute; congruence|done]]].
  apply truthful_init. repeat constructor; vm_compute; congruence.
Qed.

Lemma utf8_export_correct_witness :
  ∃ text bad, reads16 [0x61; 0xD83D; 0xDE00; 0xD800] text bad ∧
    @te_encode standard_utf8proc roomy_heap sample_flat = Ok (encode text).
Proof.
  destruct (@utf8_export_correct standard_utf8proc roomy_heap (λ _, 0) sample_flat
    [0x61; 0xD83D; 0xDE00; 0xD800] 3 sample_flat_ok ltac:(lia)) as (text & bad & H1 & _ & H2 & _).
  exists text, bad. split; [exact H1|exact H2].
Defined.
