(* ===== verification/Uri.v ===== *)
(** * URI encoding

    Models src/modules/uri.c: [encodeURIComponent], [encodeURI], [decodeURIComponent],
    [decodeURI], [escape] and [unescape].  A string is its bytes, the (W)UTF-8 the runtime
    stores; the functions take them as a C string, up to the first NUL.  Every write goes
    through [push], which is [Ub] outside the buffer, so a theorem that concludes [Ok] or
    [Throw] shows that the buffer is large enough. *)

From S2P Require Import Prelude Utils Utf8 Utf16Index.

(** ** The program *)

Definition uri_unreserved : list Z :=
  [0; 0; 0; 0; 0; 0; 0; 0; 0; 0; 0; 0; 0; 0; 0; 0;
   0; 0; 0; 0; 0; 0; 0; 0; 0; 0; 0; 0; 0; 0; 0; 0;
   0; 1; 0; 0; 0; 0; 0; 1; 1; 1; 1; 0; 0; 1; 1; 0;
   1; 1; 1; 1; 1; 1; 1; 1; 1; 1; 0; 0; 0; 0; 0; 0;
   0; 1; 1; 1; 1; 1; 1; 1; 1; 1; 1; 1; 1; 1; 1; 1;
   1; 1; 1; 1; 1; 1; 1; 1; 1; 1; 1; 0; 0; 0; 0; 1;
   0; 1; 1; 1; 1; 1; 1; 1; 1; 1; 1; 1; 1; 1; 1; 1;
   1; 1; 1; 1; 1; 1; 1; 1; 1; 1; 1; 0; 0; 0; 1; 0;
   0; 0; 0; 0; 0; 0; 0; 0; 0; 0; 0; 0; 0; 0; 0; 0;
   0; 0; 0; 0; 0; 0; 0; 0; 0; 0; 0; 0; 0; 0; 0; 0;
   0; 0; 0; 0; 0; 0; 0; 0; 0; 0; 0; 0; 0; 0; 0; 0;
   0; 0; 0; 0; 0; 0; 0; 0; 0; 0; 0; 0; 0; 0; 0; 0;
   0; 0; 0; 0; 0; 0; 0; 0; 0; 0; 0; 0; 0; 0; 0; 0;
   0; 0; 0; 0; 0; 0; 0; 0; 0; 0; 0; 0; 0; 0; 0; 0;
   0; 0; 0; 0; 0; 0; 0; 0; 0; 0; 0; 0; 0; 0; 0; 0;
   0; 0; 0; 0; 0; 0; 0; 0; 0; 0; 0; 0; 0; 0; 0; 0].

Definition uri_reserved : list Z :=
  [0; 0; 0; 0; 0; 0; 0; 0; 0; 0; 0; 0; 0; 0; 0; 0;
   0; 0; 0; 0; 0; 0; 0; 0; 0; 0; 0; 0; 0; 0; 0; 0;
   0; 0; 0; 1; 1; 0; 1; 0; 0; 0; 0; 1; 1; 0; 0; 1;
   0; 0; 0; 0; 0; 0; 0; 0; 0; 0; 1; 1; 0; 1; 0; 1;
   1; 0; 0; 0; 0; 0; 0; 0; 0; 0; 0; 0; 0; 0; 0; 0;
   0; 0; 0; 0; 0; 0; 0; 0; 0; 0; 0; 0; 0; 0; 0; 0;
   0; 0; 0; 0; 0; 0; 0; 0; 0; 0; 0; 0; 0; 0; 0; 0;
   0; 0; 0; 0; 0; 0; 0; 0; 0; 0; 0; 0; 0; 0; 0; 0;
   0; 0; 0; 0; 0; 0; 0; 0; 0; 0; 0; 0; 0; 0; 0; 0;
   0; 0; 0; 0; 0; 0; 0; 0; 0; 0; 0; 0; 0; 0; 0; 0;
   0; 0; 0; 0; 0; 0; 0; 0; 0; 0; 0; 0; 0; 0; 0; 0;
   0; 0; 0; 0; 0; 0; 0; 0; 0; 0; 0; 0; 0; 0; 0; 0;
   0; 0; 0; 0; 0; 0; 0; 0; 0; 0; 0; 0; 0; 0; 0; 0;
   0; 0; 0; 0; 0; 0; 0; 0; 0; 0; 0; 0; 0; 0; 0; 0;
   0; 0; 0; 0; 0; 0; 0; 0; 0; 0; 0; 0; 0; 0; 0; 0;
   0; 0; 0; 0; 0; 0; 0; 0; 0; 0; 0; 0; 0; 0; 0; 0].

Definition is_uri_unreserved (c : Z) : bool := negb (at_ uri_unreserved (Z.to_nat c) =? 0).

Definition is_uri_reserved (c : Z) : bool := negb (at_ uri_reserved (Z.to_nat c) =? 0).

Definition is_valid_continuation (c : Z) : bool := c &' 0xC0 =? 0x80.

Definition is_lone_surrogate (str : list Z) (seq_len : Z) : bool :=
  if negb (seq_len =? 3) then false
  else if negb (at_ str 0 =? 0xED) then false
  else (0xA0 <=? at_ str 1) && (at_ str 1 <=? 0xBF).

(** [str] is what stands from [*pos] on; the byte and what is left, [None] for -1. *)
Definition decode_escape_sequence (str : list Z) : option (Z * list Z) :=
  if (length str <=? 2)%nat then None
  else if negb (at_ str 0 =? 37) then None
  else
    let high := hex_digit (at_ str 1) in
    let low := hex_digit (at_ str 2) in
    if (high <? 0) || (low <? 0) then None
    else Some (u8 ((high <<' 4) |' low), drop 3 str).

(** [snprintf] of ["%%%02X"] with a byte. *)
Definition percent (b : Z) : list Z :=
  [37; at_ (bytes "0123456789ABCDEF") (Z.to_nat (b >>' 4));
   at_ (bytes "0123456789ABCDEF") (Z.to_nat (b &' 15))].

(** [out[out_len++] = c] and [snprintf] into a buffer of [cap] bytes, of which one is left for
    the terminator. *)
Definition push (cap : Z) (out bs : list Z) : outcome (list Z) :=
  if zlen out + zlen bs <? cap then Ok (out ++ bs) else Ub.

Definition malformed : outcome (list Z) := js_mkerr_typed JS_ERR_URI "URI malformed".

(** The bytes that [strlen] counts. *)
Fixpoint c_str (s : list Z) : list Z :=
  match s with
  | c :: s => if c =? 0 then [] else c :: c_str s
  | [] => []
  end.

(** The argument: absent, not a string ([js_getstr] is NULL), or a string. *)
Inductive uri_arg := NoArg | NotString | Str (s : list Z).

(** Each round consumes at least one byte. *)
Fixpoint encode_loop (keep : Z → bool) (cap : Z) (rounds : nat) (s out : list Z)
    : outcome (list Z) :=
  match rounds, s with
  | S rounds, c :: _ =>
      if keep c then out ← push cap out [c]; encode_loop keep cap rounds (drop 1 s) out
      else
        let seq_len := utf8_sequence_length c in
        if seq_len <? 0 then malformed
        else if zlen s <? seq_len then malformed
        else
          let n := Z.to_nat seq_len in
          if negb (forallb is_valid_continuation (drop 1 (take n s))) then malformed
          else if is_lone_surrogate s seq_len then malformed
          else
            out ← push cap out (concat (percent <$> take n s));
            encode_loop keep cap rounds (drop n s) out
  | _, _ => Ok out
  end.

Section functions.
Context `{Heap}.

(** What the functions do around their loops. *)
Definition with_buffer (arg : uri_arg) (absent : list Z) (not_string : list Z)
    (cap : Z → Z) (body : Z → list Z → outcome (list Z)) : outcome (list Z) :=
  match arg with
  | NoArg => Ok absent
  | NotString => Ok not_string
  | Str str =>
      let s := c_str str in
      let out_cap := u64 (cap (zlen s)) in
      if negb (malloc out_cap) then js_mkerr "out of memory" else body out_cap s
  end.

Definition js_encodeURIComponent (arg : uri_arg) : outcome (list Z) :=
  with_buffer arg (bytes "undefined") [] (λ len, len * 12 + 1)
    (λ cap s, encode_loop is_uri_unreserved cap (length s) s []).

Definition js_encodeURI (arg : uri_arg) : outcome (list Z) :=
  with_buffer arg (bytes "undefined") [] (λ len, len * 12 + 1)
    (λ cap s, encode_loop (λ c, is_uri_unreserved c || is_uri_reserved c) cap (length s) s []).

End functions.

(** The [j] loop of the decoders: [k] continuation bytes; the text left and the output. *)
Fixpoint continuation_loop (cap : Z) (k : nat) (s out : list Z) : outcome (list Z * list Z) :=
  match k with
  | O => Ok (s, out)
  | S k =>
      match decode_escape_sequence s with
      | None => js_mkerr_typed JS_ERR_URI "URI malformed"
      | Some (cont_byte, s) =>
          if negb (is_valid_continuation cont_byte)
          then js_mkerr_typed JS_ERR_URI "URI malformed"
          else out ← push cap out [cont_byte]; continuation_loop cap k s out
      end
  end.

(** [stays]: the escapes that [decodeURI] leaves as they are. *)
Fixpoint decode_loop (stays : Z → bool) (cap : Z) (rounds : nat) (s out : list Z)
    : outcome (list Z) :=
  match rounds, s with
  | S rounds, c :: _ =>
      if negb (c =? 37) then out ← push cap out [c]; decode_loop stays cap rounds (drop 1 s) out
      else
        match decode_escape_sequence s with
        | None => malformed
        | Some (first_byte, rest) =>
            if stays first_byte
            then out ← push cap out (take 3 s); decode_loop stays cap rounds (drop 3 s) out
            else
              let seq_len := utf8_sequence_length first_byte in
              if seq_len <? 0 then malformed
              else
                out ← push cap out [first_byte];
                '(rest, out) ← continuation_loop cap (Z.to_nat seq_len - 1) rest out;
                decode_loop stays cap rounds rest out
        end
  | _, _ => Ok out
  end.

Definition is_escape_unreserved (c : Z) : bool :=
  (65 <=? c) && (c <=? 90) || (97 <=? c) && (c <=? 122) || (48 <=? c) && (c <=? 57) ||
  (c =? 64) || (c =? 42) || (c =? 95) || (c =? 43) || (c =? 45) || (c =? 46) || (c =? 47).

Fixpoint escape_loop (cap : Z) (s out : list Z) : outcome (list Z) :=
  match s with
  | [] => Ok out
  | c :: s =>
      out ← push cap out (if is_escape_unreserved c then [c] else percent c);
      escape_loop cap s out
  end.

Fixpoint unescape_loop (cap : Z) (rounds : nat) (s out : list Z) : outcome (list Z) :=
  match rounds, s with
  | S rounds, c :: _ =>
      let high := hex_digit (at_ s 1) in
      let low := hex_digit (at_ s 2) in
      if (c =? 37) && (2 <? length s)%nat && (0 <=? high) && (0 <=? low)
      then out ← push cap out [u8 ((high <<' 4) |' low)]; unescape_loop cap rounds (drop 3 s) out
      else out ← push cap out [c]; unescape_loop cap rounds (drop 1 s) out
  | _, _ => Ok out
  end.

Section more_functions.
Context `{Heap}.

Definition js_decodeURIComponent (arg : uri_arg) : outcome (list Z) :=
  with_buffer arg (bytes "undefined") [] (λ len, len + 1)
    (λ cap s, decode_loop (λ _, false) cap (length s) s []).

Definition js_decodeURI (arg : uri_arg) : outcome (list Z) :=
  with_buffer arg (bytes "undefined") [] (λ len, len + 1)
    (λ cap s, decode_loop (λ b, (b <? 128) && is_uri_reserved b) cap (length s) s []).

Definition js_escape (arg : uri_arg) : outcome (list Z) :=
  with_buffer arg (bytes "undefined") (bytes "undefined") (λ len, len * 6 + 1)
    (λ cap s, escape_loop cap s []).

Definition js_unescape (arg : uri_arg) : outcome (list Z) :=
  with_buffer arg (bytes "undefined") (bytes "undefined") (λ len, len + 1)
    (λ cap s, unescape_loop cap (length s) s []).

End more_functions.

(** ** What the functions compute *)

Definition scalarb (cp : Z) : bool := negb ((0xD800 <=? cp) && (cp <? 0xE000)).

(** The text for a sequence of code points: a character that is kept as it is, any other as the
    escapes of its UTF-8 bytes. *)
Definition uri_char (keep : Z → bool) (cp : Z) : list Z :=
  if keep cp then [cp] else concat (percent <$> enc cp).

Definition uri_text (keep : Z → bool) (cps : list Z) : list Z := concat (uri_char keep <$> cps).

Fixpoint until_nul (cps : list Z) : list Z :=
  match cps with
  | cp :: cps => if cp =? 0 then [] else cp :: until_nul cps
  | [] => []
  end.

(** ** Lemmas *)

Lemma scalar_split cp : codepoint cp → if scalarb cp then scalar cp else 0xD800 <= cp < 0xE000.
Proof. unfold codepoint, scalarb, scalar. repeat case_ltb; simpl; lia. Qed.

Lemma push_ok cap out bs : zlen out + zlen bs < cap → push cap out bs = Ok (out ++ bs).
Proof. intros Hc. unfold push. by rewrite (proj2 (Z.ltb_lt _ _) Hc). Qed.

Lemma zlen_concat_percent bs : zlen (concat (percent <$> bs)) = 3 * zlen bs.
Proof.
  unfold zlen. induction bs as [|b bs IH]; [done|]. cbn [fmap list_fmap concat]. rewrite length_app.
  simpl length in *. lia.
Qed.

(** An escape decodes to its byte. *)
Lemma decode_percent b rest : byte_ok b → decode_escape_sequence (percent b ++ rest) = Some (b, rest).
Proof.
  intros Hb. unfold decode_escape_sequence, percent. cbn [app length Nat.leb at_ nth Z.eqb drop].
  set (hi := hex_digit _). set (lo := hex_digit _).
  assert ((hi =? b / 16) && (lo =? b mod 16) = true) as [Eh El]%andb_true_iff.
  { unfold hi, lo. clear -Hb. revert b Hb. apply (byte_cases (λ b,
      (hex_digit (at_ (bytes "0123456789ABCDEF") (Z.to_nat (b >>' 4))) =? b / 16) &&
      (hex_digit (at_ (bytes "0123456789ABCDEF") (Z.to_nat (b &' 15))) =? b mod 16))).
    vm_compute. reflexivity. }
  apply Z.eqb_eq in Eh, El. rewrite Eh, El. unfold byte_ok in Hb.
  rewrite (proj2 (Z.ltb_ge _ 0)), (proj2 (Z.ltb_ge _ 0)) by word. cbn [orb negb].
  rewrite shiftl_mul, (lor_add_low _ _ 4), u8_small by word. do 2 f_equal. word.
Qed.

(** The bytes behind the lead byte of a character are continuation bytes, and the sequence is
    refused as a surrogate exactly when it is one. *)
Lemma enc_sequence cp rest :
  codepoint cp →
  let n := length (enc cp) in
  forallb is_valid_continuation (drop 1 (enc cp)) = true ∧
  is_lone_surrogate (enc cp ++ rest) (Z.of_nat n) = negb (scalarb cp).
Proof.
  assert (∀ x, 0x80 <= x <= 0xbf → is_valid_continuation x = true) as K.
  { intros x Hx. assert (byte_ok x) as Hb by (unfold byte_ok; lia).
    pose proof (byte_cases (λ x, implb ((0x80 <=? x) && (x <=? 0xbf)) (is_valid_continuation x))
      ltac:(vm_compute; reflexivity) x Hb) as E. cbn in E.
    by rewrite (proj2 (Z.leb_le 0x80 x)), (proj2 (Z.leb_le x 0xbf)) in E by lia. }
  intros Hc. unfold codepoint in Hc. cbv zeta. unfold enc, scalarb.
  destruct (Z.ltb_spec cp 0x80); [|destruct (Z.ltb_spec cp 0x800); [|destruct (Z.ltb_spec cp 0x10000)]];
    cbn [length drop forallb app];
    rewrite ?K by word; (split; [done|]); unfold is_lone_surrogate; cbn [at_ nth Z.of_nat Z.eqb negb];
    repeat case_ltb; cbn; try done; word.
Qed.

(** What both tables have in common: only ASCII is kept, and never the percent sign. *)
Definition keeps_ascii (keep : Z → bool) : Prop :=
  ∀ c, 0 <= c → keep c = true → 0 < c < 128 ∧ c ≠ 37.

Lemma table_keeps_ascii (t : list Z) (keep : Z → bool) :
  (∀ c, 256 <= c → keep c = false) →
  forallb (λ c, implb (keep c) ((0 <? c) && (c <? 128) && negb (c =? 37))) (seqZ 0 256) = true →
  keeps_ascii keep.
Proof.
  intros Hbig Ht c Hc Hk. destruct (Z.lt_ge_cases c 256) as [Hl|Hl]; [|by rewrite Hbig in Hk].
  pose proof (byte_cases _ Ht c ltac:(unfold byte_ok; lia)) as E. cbn in E. rewrite Hk in E. cbn in E.
  apply andb_true_iff in E as [[E1%Z.ltb_lt E2%Z.ltb_lt]%andb_true_iff E3].
  by apply negb_true_iff, Z.eqb_neq in E3.
Qed.

Lemma beyond_table (t : list Z) c : length t = 256%nat → 256 <= c → at_ t (Z.to_nat c) = 0.
Proof. intros Hl Hc. apply at_beyond. lia. Qed.

Lemma unreserved_keeps_ascii : keeps_ascii is_uri_unreserved.
Proof.
  apply (table_keeps_ascii uri_unreserved); [|vm_compute; reflexivity].
  intros c Hc. unfold is_uri_unreserved. by rewrite beyond_table.
Qed.

Lemma reserved_keeps_ascii : keeps_ascii (λ c, is_uri_unreserved c || is_uri_reserved c).
Proof.
  apply (table_keeps_ascii uri_reserved); [|vm_compute; reflexivity].
  intros c Hc. unfold is_uri_unreserved, is_uri_reserved. by rewrite !beyond_table.
Qed.

(** One round on a whole character. *)
Lemma encode_round keep cap rounds cp rest out :
  keeps_ascii keep → codepoint cp → zlen out + 3 * zlen (enc cp) < cap →
  encode_loop keep cap (S rounds) (enc cp ++ rest) out
  = if scalarb cp then encode_loop keep cap rounds rest (out ++ uri_char keep cp) else malformed.
Proof.
  intros Hk Hc Hcap. destruct (enc_lead cp Hc) as (b & w & E & Hb & Hl).
  pose proof (enc_sequence cp rest Hc) as [Hcont Hlone].
  assert (keep b = true → enc cp = [b] ∧ b = cp ∧ scalarb cp = true) as Hkb.
  { intros Hkb. apply Hk in Hkb; [|unfold byte_ok in Hb; lia]. unfold codepoint in Hc.
    unfold enc in E |- *. revert E. repeat case_ltb; intros [= <- <-]; try word.
    split; [done|]. split; [done|]. unfold scalarb. repeat case_ltb; cbn; try done; lia. }
  assert (keep b = keep cp) as Hsame.
  { destruct (keep b) eqn:Eb; [by destruct Hkb as (_ & <- & _)|].
    destruct (keep cp) eqn:Ec; [|done]. unfold codepoint in Hc. apply Hk in Ec as Ha; [|lia].
    unfold enc in E. rewrite (proj2 (Z.ltb_lt cp 0x80)) in E by lia. injection E as <- _. congruence. }
  rewrite E at 1. cbn [encode_loop app]. rewrite Hsame. unfold uri_char.
  destruct (keep cp) eqn:Ekc.
  - destruct Hkb as (E' & -> & Hs); [by rewrite Hsame|]. rewrite E in E'. injection E' as ->.
    rewrite push_ok by (unfold zlen in *; rewrite E in Hcap; simpl in *; lia). by rewrite Hs.
  - assert (b :: w ++ rest = enc cp ++ rest) as -> by by rewrite E.
    rewrite Hl. unfold zlen. rewrite length_app, (proj2 (Z.ltb_ge _ 0)), (proj2 (Z.ltb_ge _ _)) by lia.
    rewrite Nat2Z.id, take_app_length, Hcont, Hlone, drop_app_length. cbn [negb].
    destruct (scalarb cp); [|done]. cbn [negb].
    rewrite push_ok by (rewrite zlen_concat_percent; lia). done.
Qed.

Lemma uri_text_cons keep cp cps : uri_text keep (cp :: cps) = uri_char keep cp ++ uri_text keep cps.
Proof. done. Qed.

Lemma zlen_uri_char keep cp : zlen (uri_char keep cp) <= 3 * zlen (enc cp).
Proof.
  unfold uri_char. destruct (keep cp); [|rewrite zlen_concat_percent; lia].
  pose proof (enc_length cp). unfold zlen. simpl. lia.
Qed.

Lemma encode_loop_spec keep cap cps rounds out :
  keeps_ascii keep → Forall codepoint cps → (length (encode cps) <= rounds)%nat →
  zlen out + 3 * zlen (encode cps) < cap →
  encode_loop keep cap rounds (encode cps) out
  = if forallb scalarb cps then Ok (out ++ uri_text keep cps) else malformed.
Proof.
  intros Hk Hcs. revert rounds out. induction Hcs as [|cp cps Hc Hcs IH]; intros rounds out Hr Hcap.
  { cbn. destruct rounds; by rewrite app_nil_r. }
  pose proof (enc_length cp) as He. rewrite encode_cons, zlen_app in *.
  rewrite length_app in Hr. destruct rounds as [|rounds]; [lia|].
  rewrite encode_round by (try done; unfold zlen in *; lia). cbn [forallb].
  destruct (scalarb cp); [|done]. cbn [andb]. pose proof (zlen_uri_char keep cp).
  rewrite IH, uri_text_cons, app_assoc; [done|lia|]. rewrite zlen_app. lia.
Qed.

(** The C string of a text ends before its first NUL. *)
Lemma c_str_app w s : Forall (λ c, c ≠ 0) w → c_str (w ++ s) = w ++ c_str s.
Proof.
  induction 1 as [|c w Hc Hw IH]; [done|]. cbn. by rewrite (proj2 (Z.eqb_neq c 0) Hc), IH.
Qed.

Lemma c_str_id s : Forall (λ c, c ≠ 0) s → c_str s = s.
Proof. intros Hs. rewrite <- (app_nil_r s) at 1. by rewrite c_str_app, app_nil_r. Qed.

Lemma enc_not_nul cp : codepoint cp → cp ≠ 0 → Forall (λ c, c ≠ 0) (enc cp).
Proof. unfold codepoint. intros Hc H0. unfold enc. repeat case_ltb; repeat constructor; word. Qed.

Lemma c_str_encode cps : Forall codepoint cps → c_str (encode cps) = encode (until_nul cps).
Proof.
  induction 1 as [|cp cps Hc Hcs IH]; [done|]. rewrite encode_cons. cbn [until_nul].
  destruct (Z.eqb_spec cp 0) as [->|H0]; [done|].
  by rewrite c_str_app, IH, encode_cons by (by apply enc_not_nul).
Qed.

Lemma until_nul_codepoints cps : Forall codepoint cps → Forall codepoint (until_nul cps).
Proof. induction 1 as [|cp cps Hc Hcs IH]; [done|]. cbn. case_ltb; [done|]. by constructor. Qed.

Lemma until_nul_length cps : (length (encode (until_nul cps)) <= length (encode cps))%nat.
Proof.
  induction cps as [|cp cps IH]; [done|]. cbn [until_nul].
  destruct (cp =? 0); rewrite ?encode_cons, ?length_app; simpl; lia.
Qed.

(** *** Decoding *)

Lemma percent_not_nul b : byte_ok b → Forall (λ c, c ≠ 0) (percent b).
Proof.
  intros Hb. apply Forall_forall. intros c Hc.
  pose proof (byte_cases (λ b, forallb (λ c, negb (c =? 0)) (percent b)) ltac:(vm_compute; reflexivity) b Hb) as E.
  cbn beta in E. rewrite forallb_forall in E. apply list_elem_of_In, E, negb_true_iff, Z.eqb_neq in Hc. done.
Qed.

Lemma percents_not_nul w : Forall byte_ok w → Forall (λ c, c ≠ 0) (concat (percent <$> w)).
Proof.
  induction 1 as [|b w Hb Hw IH]; [constructor|]. cbn [fmap list_fmap concat]. apply Forall_app.
  split; [by apply percent_not_nul|done].
Qed.

Lemma uri_text_not_nul keep cps :
  keeps_ascii keep → Forall codepoint cps → Forall (λ c, c ≠ 0) (uri_text keep cps).
Proof.
  intros Hk. induction 1 as [|cp cps Hc Hcs IH]; [constructor|]. rewrite uri_text_cons.
  apply Forall_app. split; [|done]. unfold uri_char. unfold codepoint in Hc.
  destruct (keep cp) eqn:E; [|by apply percents_not_nul, enc_byte_ok].
  constructor; [|constructor]. apply Hk in E; lia.
Qed.

Lemma continuation_loop_spec cap w rest out :
  Forall byte_ok w → forallb is_valid_continuation w = true → zlen out + zlen w < cap →
  continuation_loop cap (length w) (concat (percent <$> w) ++ rest) out = Ok (rest, out ++ w).
Proof.
  intros Hw. revert out. induction Hw as [|b w Hb Hw IH]; intros out Hc Hcap.
  { cbn. by rewrite app_nil_r. }
  cbn [forallb] in Hc. apply andb_true_iff in Hc as [Hb' Hc].
  cbn [length continuation_loop fmap list_fmap concat]. rewrite <- app_assoc, decode_percent, Hb' by done.
  cbn [negb]. unfold zlen in *. simpl in Hcap.
  rewrite push_ok by (unfold zlen; simpl; lia). cbn [mbind outcome_bind].
  rewrite IH by (try done; rewrite length_app; simpl; lia). by rewrite <- app_assoc.
Qed.

Lemma decode_round keep stays cap rounds cp rest out :
  keeps_ascii keep → (∀ b, stays b = true → 0 <= b < 128 ∧ keep b = true) →
  scalar cp → zlen out + zlen (enc cp) < cap →
  decode_loop stays cap (S rounds) (uri_char keep cp ++ rest) out
  = decode_loop stays cap rounds rest (out ++ enc cp).
Proof.
  intros Hk Hst Hs Hcap. assert (codepoint cp) as Hc by (unfold scalar, codepoint in *; lia).
  unfold codepoint in Hc. unfold uri_char. destruct (keep cp) eqn:Ek.
  - apply Hk in Ek as [Ha Hp]; [|lia]. cbn [decode_loop app]. rewrite (proj2 (Z.eqb_neq cp 37) Hp). cbn [negb].
    assert (enc cp = [cp]) as E by (unfold enc; by rewrite (proj2 (Z.ltb_lt cp 0x80)) by lia).
    rewrite E in *. rewrite push_ok by done. done.
  - destruct (enc_lead cp Hc) as (b & w & E & Hb & Hl).
    pose proof (enc_sequence cp [] Hc) as [Hcont _]. pose proof (enc_byte_ok cp Hc) as Hbs.
    assert (stays b = false) as Hstay.
    { destruct (stays b) eqn:Eb; [|done]. apply Hst in Eb as [Hr Hkb]. unfold enc in E. revert E.
      repeat case_ltb; intros [= <- <-]; try word. congruence. }
    rewrite E in *. cbn [fmap list_fmap concat]. rewrite <- app_assoc.
    set (tail := concat (percent <$> w) ++ rest).
    assert (∀ r o, decode_loop stays cap (S r) (percent b ++ tail) o
      = match decode_escape_sequence (percent b ++ tail) with
        | None => malformed
        | Some (first_byte, rest) =>
            if stays first_byte
            then out ← push cap o (take 3 (percent b ++ tail)); decode_loop stays cap r tail out
            else if utf8_sequence_length first_byte <? 0 then malformed
            else
              out ← push cap o [first_byte];
              '(rest, out) ← continuation_loop cap (Z.to_nat (utf8_sequence_length first_byte) - 1) rest out;
              decode_loop stays cap r rest out
        end) as -> by done.
    rewrite decode_percent, Hstay, Hl by done. apply Forall_cons in Hbs as [_ Hw]. cbn [drop] in Hcont.
    unfold zlen in *. simpl length in *. rewrite (proj2 (Z.ltb_ge _ 0)), Nat2Z.id by lia.
    rewrite push_ok by (unfold zlen; simpl; lia). cbn [mbind outcome_bind].
    rewrite Nat.sub_1_r. cbn [Nat.pred]. rewrite drop_0 in Hcont.
    unfold tail. rewrite continuation_loop_spec by (try done; unfold zlen; rewrite length_app; simpl; lia).
    cbn [mbind outcome_bind]. by rewrite <- app_assoc.
Qed.

Lemma decode_loop_spec keep stays cap cps rounds out :
  keeps_ascii keep → (∀ b, stays b = true → 0 <= b < 128 ∧ keep b = true) →
  Forall scalar cps → (length cps <= rounds)%nat → zlen out + zlen (encode cps) < cap →
  decode_loop stays cap rounds (uri_text keep cps) out = Ok (out ++ encode cps).
Proof.
  intros Hk Hst Hcs. revert rounds out. induction Hcs as [|cp cps Hc Hcs IH]; intros rounds out Hr Hcap.
  { cbn. destruct rounds; by rewrite app_nil_r. }
  simpl in Hr. destruct rounds as [|rounds]; [lia|]. rewrite encode_cons, zlen_app in *.
  rewrite uri_text_cons, (decode_round keep) by (try done; unfold zlen in *; lia).
  rewrite IH, app_assoc; [done|lia|]. rewrite zlen_app. lia.
Qed.

(** *** [escape] and [unescape] *)

Definition escaped (c : Z) : list Z := if is_escape_unreserved c then [c] else percent c.

Lemma escape_loop_spec cap s out :
  zlen out + 3 * zlen s < cap → escape_loop cap s out = Ok (out ++ concat (escaped <$> s)).
Proof.
  revert out. induction s as [|c s IH]; intros out Hcap; [cbn; by rewrite app_nil_r|].
  cbn [escape_loop fmap list_fmap concat]. fold (escaped c).
  assert (zlen (escaped c) <= 3) by (unfold escaped; destruct (is_escape_unreserved c); unfold zlen; simpl; lia).
  unfold zlen in *. simpl length in Hcap. rewrite push_ok by (unfold zlen; lia). cbn [mbind outcome_bind].
  rewrite IH, app_assoc; [done|]. rewrite length_app. lia.
Qed.

Lemma escape_unreserved_plain c : is_escape_unreserved c = true → c ≠ 37 ∧ c ≠ 0.
Proof. intros E. split; intros ->; vm_compute in E; done. Qed.

Lemma unescape_round cap rounds c rest out :
  byte_ok c → zlen out + 1 < cap →
  unescape_loop cap (S rounds) (escaped c ++ rest) out = unescape_loop cap rounds rest (out ++ [c]).
Proof.
  intros Hc Hcap. unfold escaped. destruct (is_escape_unreserved c) eqn:E.
  - apply escape_unreserved_plain in E as [Hp _]. cbn [unescape_loop app].
    rewrite (proj2 (Z.eqb_neq c 37) Hp). cbn [andb]. by rewrite push_ok.
  - pose proof (decode_percent c rest Hc) as Ed. unfold decode_escape_sequence, percent in Ed |- *.
    cbn [unescape_loop app length Nat.ltb Nat.leb at_ nth Z.eqb andb negb drop] in Ed |- *.
    set (hi := hex_digit (at_ _ (Z.to_nat (c >>' 4)))) in *.
    set (lo := hex_digit (at_ _ (Z.to_nat (c &' 15)))) in *. change (37 =? 37)%positive with true in *.
    cbn [negb andb] in Ed |- *.
    destruct (Z.ltb_spec hi 0), (Z.ltb_spec lo 0); cbn [orb] in Ed; [done..|].
    rewrite (proj2 (Z.leb_le 0 hi)), (proj2 (Z.leb_le 0 lo)) by lia. cbn [andb].
    injection Ed as ->. by rewrite push_ok.
Qed.

Lemma unescape_loop_spec cap s rounds out :
  Forall byte_ok s → (length s <= rounds)%nat → zlen out + zlen s < cap →
  unescape_loop cap rounds (concat (escaped <$> s)) out = Ok (out ++ s).
Proof.
  intros Hs. revert rounds out. induction Hs as [|c s Hc Hs IH]; intros rounds out Hr Hcap.
  { cbn. destruct rounds; by rewrite app_nil_r. }
  simpl in Hr. destruct rounds as [|rounds]; [lia|]. cbn [fmap list_fmap concat].
  unfold zlen in *. simpl in Hcap. rewrite unescape_round by (try done; unfold zlen; lia).
  rewrite IH by (rewrite ?length_app; simpl; lia). by rewrite <- app_assoc.
Qed.

Lemma escaped_text s :
  Forall byte_ok s →
  Forall (λ c, c ≠ 0) (concat (escaped <$> s)) ∧ (length s <= length (concat (escaped <$> s)) <= 3 * length s)%nat.
Proof.
  induction 1 as [|c s Hc Hs IH]; [split; [constructor|simpl; lia]|]. destruct IH as [IH1 IH2].
  assert (Forall (λ c, c ≠ 0) (escaped c) ∧ (1 <= length (escaped c) <= 3)%nat) as [Hn Hl].
  { unfold escaped. destruct (is_escape_unreserved c) eqn:E; [|split; [by apply percent_not_nul|simpl; lia]].
    apply escape_unreserved_plain in E as [_ H0]. split; [by constructor|simpl; lia]. }
  cbn [fmap list_fmap concat]. rewrite length_app, Forall_app. simpl length. split; [done|lia].
Qed.

(** *** Whole calls *)

Lemma uri_char_length keep cp : (length (enc cp) <= length (uri_char keep cp) ∨ keep cp = true)%nat.
Proof.
  unfold uri_char. destruct (keep cp); [by right|]. left. pose proof (zlen_concat_percent (enc cp)).
  unfold zlen in *. lia.
Qed.

Lemma uri_text_length keep cps :
  keeps_ascii keep → Forall codepoint cps →
  (length cps <= length (uri_text keep cps))%nat ∧
  (length (encode cps) <= length (uri_text keep cps) <= 3 * length (encode cps))%nat.
Proof.
  intros Hk. induction 1 as [|cp cps Hc Hcs [IH1 IH2]]; [simpl; lia|].
  rewrite uri_text_cons, encode_cons, !length_app. pose proof (enc_length cp). simpl length.
  assert (length (enc cp) <= length (uri_char keep cp))%nat.
  { destruct (uri_char_length keep cp) as [|Ek]; [done|]. unfold uri_char. rewrite Ek. simpl.
    unfold codepoint in Hc. apply Hk in Ek as [Ha _]; [|lia].
    unfold enc. rewrite (proj2 (Z.ltb_lt cp 0x80)) by lia. done. }
  pose proof (zlen_uri_char keep cp). unfold zlen in *. lia.
Qed.

Section calls.
Context `{Heap} (Hm : ∀ n, malloc n = true).

Lemma with_buffer_ok s absent ns cap body :
  with_buffer (Str s) absent ns cap body = body (u64 (cap (zlen (c_str s)))) (c_str s).
Proof. unfold with_buffer. by rewrite Hm. Qed.

Lemma encode_call keep cps :
  keeps_ascii keep → Forall codepoint cps → zlen (encode cps) < 2 ^ 58 →
  with_buffer (Str (encode cps)) (bytes "undefined") [] (λ len, len * 12 + 1)
    (λ cap s, encode_loop keep cap (length s) s [])
  = if forallb scalarb (until_nul cps) then Ok (uri_text keep (until_nul cps)) else malformed.
Proof.
  intros Hk Hcs Hl. rewrite with_buffer_ok, c_str_encode by done. cbv beta.
  pose proof (until_nul_length cps). assert (0 <= zlen (encode (until_nul cps)) < 2 ^ 58)
    by (unfold zlen in *; lia).
  rewrite u64_small by lia.
  rewrite encode_loop_spec; [done|done|by apply until_nul_codepoints|done|unfold zlen in *; simpl; lia].
Qed.

Lemma decode_call keep stays cps :
  keeps_ascii keep → (∀ b, stays b = true → 0 <= b < 128 ∧ keep b = true) →
  Forall scalar cps → zlen (encode cps) < 2 ^ 58 →
  with_buffer (Str (uri_text keep cps)) (bytes "undefined") [] (λ len, len + 1)
    (λ cap s, decode_loop stays cap (length s) s [])
  = Ok (encode cps).
Proof.
  intros Hk Hst Hcs Hl.
  assert (Forall codepoint cps) as Hcs'
    by (eapply Forall_impl; [exact Hcs|]; unfold scalar, codepoint; cbn; lia).
  pose proof (uri_text_length keep cps Hk Hcs') as [L1 L2].
  rewrite with_buffer_ok, c_str_id by (by apply uri_text_not_nul). cbv beta. unfold zlen in *.
  rewrite u64_small by lia. rewrite (decode_loop_spec keep); [done..|lia|unfold zlen; simpl; lia].
Qed.

End calls.

Lemma component_stays (b : Z) : false = true → 0 <= b < 128 ∧ is_uri_unreserved b = true.
Proof. done. Qed.

Lemma reserved_stays b :
  (b <? 128) && is_uri_reserved b = true →
  0 <= b < 128 ∧ is_uri_unreserved b || is_uri_reserved b = true.
Proof.
  intros [H1%Z.ltb_lt H2]%andb_true_iff. rewrite H2, orb_true_r. split; [|done]. split; [|done].
  destruct (Z.lt_ge_cases b 0) as [Hb|]; [|done]. unfold is_uri_reserved in H2.
  replace (Z.to_nat b) with 0%nat in H2 by lia. vm_compute in H2. done.
Qed.

Lemma no_nul cps : Forall (λ cp, cp ≠ 0) cps → until_nul cps = cps.
Proof. induction 1 as [|cp cps Hc Hcs IH]; [done|]. cbn. by rewrite (proj2 (Z.eqb_neq cp 0) Hc), IH. Qed.

Lemma scalars_pass cps : Forall scalar cps → forallb scalarb cps = true.
Proof.
  intros Hcs. apply forallb_forall. intros cp Hin. rewrite Forall_forall in Hcs.
  assert (scalar cp) as Hs by (by apply Hcs, list_elem_of_In). unfold scalar in Hs. unfold scalarb.
  repeat case_ltb; cbn; try done; lia.
Qed.

(** ** Properties *)

(** Encoding a string, as the (W)UTF-8 of its code points, gives the text up to its first NUL
    with every character outside the unreserved set (for [encodeURI] the reserved set as well)
    as the escapes of its UTF-8 bytes, and a URIError exactly when a surrogate stands in it;
    the buffer of twelve bytes for each byte is never outgrown. *)
Lemma uri_encode_text `{Heap} cps :
  (∀ n, malloc n = true) → Forall codepoint cps → zlen (encode cps) < 2 ^ 58 →
  js_encodeURIComponent (Str (encode cps))
  = (if forallb scalarb (until_nul cps) then Ok (uri_text is_uri_unreserved (until_nul cps))
     else malformed) ∧
  js_encodeURI (Str (encode cps))
  = (if forallb scalarb (until_nul cps)
     then Ok (uri_text (λ c, is_uri_unreserved c || is_uri_reserved c) (until_nul cps))
     else malformed).
Proof.
  intros Hm Hcs Hl. split; apply encode_call; auto using unreserved_keeps_ascii, reserved_keeps_ascii.
Qed.

(** [decodeURIComponent] undoes [encodeURIComponent], [decodeURI] undoes [encodeURI] and
    [unescape] undoes [escape], on every well-formed text without NUL (the last pair on any
    bytes without NUL). *)
Lemma uri_decode_encode `{Heap} cps s :
  (∀ n, malloc n = true) → Forall (λ cp, scalar cp ∧ cp ≠ 0) cps → zlen (encode cps) < 2 ^ 58 →
  Forall (λ b, byte_ok b ∧ b ≠ 0) s → zlen s < 2 ^ 58 →
  (∃ t, js_encodeURIComponent (Str (encode cps)) = Ok t ∧
        js_decodeURIComponent (Str t) = Ok (encode cps)) ∧
  (∃ t, js_encodeURI (Str (encode cps)) = Ok t ∧ js_decodeURI (Str t) = Ok (encode cps)) ∧
  (∃ t, js_escape (Str s) = Ok t ∧ js_unescape (Str t) = Ok s).
Proof.
  intros Hm Hcs Hl Hs Hls. apply Forall_and in Hcs as [Hcs Hnul], Hs as [Hs Hsn].
  assert (Forall codepoint cps) as Hcp
    by (eapply Forall_impl; [exact Hcs|]; unfold scalar, codepoint; cbn; lia).
  split; [|split].
  - exists (uri_text is_uri_unreserved cps).
    split; [etrans; [apply (encode_call Hm); auto using unreserved_keeps_ascii|];
      by rewrite no_nul, scalars_pass|].
    apply (decode_call Hm); auto using unreserved_keeps_ascii, component_stays.
  - exists (uri_text (λ c, is_uri_unreserved c || is_uri_reserved c) cps).
    split; [etrans; [apply (encode_call Hm); auto using reserved_keeps_ascii|];
      by rewrite no_nul, scalars_pass|].
    apply (decode_call Hm); auto using reserved_keeps_ascii, reserved_stays.
  - destruct (escaped_text s Hs) as [Ht Hlt]. exists (concat (escaped <$> s)).
    unfold js_escape, js_unescape. rewrite !(with_buffer_ok Hm), !c_str_id by done. unfold zlen in *.
    rewrite !u64_small by lia.
    split; [apply escape_loop_spec; unfold zlen; simpl; lia|].
    apply unescape_loop_spec; [done|lia|unfold zlen; simpl; lia].
Qed.

(** Where the functions leave ECMAScript. *)
Lemma uri_departures `{Heap} :
  (∀ n, malloc n = true) →
  js_encodeURIComponent (Str (encode [0x61; 0; 0x62])) = Ok (bytes "a") ∧
  js_decodeURIComponent (Str (encode [0x61; 0; 0x62])) = Ok (bytes "a") ∧
  js_encodeURIComponent NotString = Ok [] ∧
  js_encodeURIComponent (Str (encode [0xD83D; 0xDE00])) = malformed ∧
  Forall (λ '(t, s), js_decodeURIComponent (Str (bytes t)) = Ok s ∧ js_decodeURI (Str (bytes t)) = Ok s ∧
                     utf8_validate_bytes s = false)
    [("%C0%80", [0xC0; 0x80]); ("%ED%A0%80", [0xED; 0xA0; 0x80]); ("%F7%BF%BF%BF", [0xF7; 0xBF; 0xBF; 0xBF])] ∧
  js_escape (Str (encode [0xE9])) = Ok (bytes "%C3%A9").
Proof.
  intros Hm.
  assert (∀ s a n c b, @with_buffer H (Str s) a n c b = @with_buffer roomy_heap (Str s) a n c b) as E
    by (intros; by rewrite (with_buffer_ok Hm)).
  unfold js_encodeURIComponent, js_decodeURIComponent, js_decodeURI, js_escape.
  rewrite !E. do 4 (split; [vm_compute; reflexivity|]). split; [|vm_compute; reflexivity].
  repeat (constructor; [rewrite !E; split_and!; vm_compute; reflexivity|]). constructor.
Qed.


