(* ===== verification/JsonQuote.v ===== *)
(** * Quoting strings for JSON

    Models [utf8_json_quote] of src/utf8.c, which JSON.stringify uses for every string and key,
    with its growing buffer and [wtf8_decode_at].  The theorem is that the result is
    the text of [QuoteJSONString] ([json_text]), which reads back as the code units of the string. *)

From S2P Require Import Prelude Utils Utf8 Utf16Index.

(** ** The program *)

(** [raw] with [raw_len] and [raw_cap]. *)
Record json_buf := mk_buf { raw : list Z; raw_cap : Z }.

(** [while (next < need) next *= 2]: a size doubles at most 64 times before it wraps. *)
Fixpoint reserve_loop (rounds : nat) (next need : Z) : Z :=
  match rounds with
  | O => next
  | S rounds => if next <? need then reserve_loop rounds (u64 (next * 2)) need else next
  end.

(** The bytes of the table that stand for themselves are 0. *)
Definition json_ascii_escape_action (c : Z) : Z :=
  if c =? 34 then 34
  else if c =? 92 then 92
  else if c =? 8 then 98
  else if c =? 12 then 102
  else if c =? 10 then 110
  else if c =? 13 then 114
  else if c =? 9 then 116
  else if c <=? 0x1f then 117
  else 0.

(** [k] continuation bytes at the head of [s]. *)
Fixpoint wtf8_tail (k : nat) (s : list Z) (cp : Z) : option Z :=
  match k with
  | O => Some cp
  | S k =>
      if negb (at_ s 0 &' 0xC0 =? 0x80) then None
      else wtf8_tail k (drop 1 s) (u32 (cp <<' 6) |' (at_ s 0 &' 0x3F))
  end.

(** [str] is what stands from [i] on; the length and the code point, [None] for 0. *)
Definition wtf8_decode_at (str : list Z) : option (nat * Z) :=
  let c := at_ str 0 in
  if c <? 0x80 then Some (1%nat, c)
  else
    let n := if c <? 0xC0 then 0%nat else if c <? 0xE0 then 2%nat else if c <? 0xF0 then 3%nat
             else 4%nat in
    if (n =? 0)%nat || (length str <? n)%nat then None
    else
      cp ← wtf8_tail (n - 1) (drop 1 str) (c &' (0x7F >>' Z.of_nat n));
      Some (n, cp).

Definition wtf8_is_high_surrogate (cp : Z) : bool := (0xD800 <=? cp) && (cp <=? 0xDBFF).

Definition wtf8_is_low_surrogate (cp : Z) : bool := (0xDC00 <=? cp) && (cp <=? 0xDFFF).

(** [if (!...) goto oom]: a step that gave no buffer ends the function with NULL. *)
Definition or_oom {A B} (r : outcome (option A)) (k : A → outcome (option B)) : outcome (option B) :=
  match r with
  | Ok (Some a) => k a
  | Ok None => Ok None
  | Throw e => Throw e
  | Ub => Ub
  end.

Section program.
Context `{Utf8proc, Heap}.

(** The buffer and whether it could grow. *)
Definition utf8_json_quote_reserve (b : json_buf) (need : Z) : option json_buf :=
  if need <=? raw_cap b then Some b
  else
    let next := reserve_loop 64 (if raw_cap b =? 0 then 64 else u64 (raw_cap b * 2)) need in
    if realloc next then Some (mk_buf (raw b) next) else None.

(** [Ok None] when there is no memory; a write outside the buffer is [Ub]. *)
Definition utf8_json_quote_append (b : json_buf) (src : list Z) : outcome (option json_buf) :=
  let need := zlen (raw b) + zlen src + 1 in
  match utf8_json_quote_reserve b need with
  | None => Ok None
  | Some b => if raw_cap b <? need then Ub else Ok (Some (mk_buf (raw b ++ src) (raw_cap b)))
  end.

Definition utf8_json_quote_append_u_escape (b : json_buf) (code_unit : Z)
    : outcome (option json_buf) :=
  utf8_json_quote_append b
    [92; 117; hex_char (code_unit >>' 12); hex_char (code_unit >>' 8); hex_char (code_unit >>' 4);
     hex_char code_unit].

(** [utf8_encode] of a surrogate pair; [None] when it returns 0 or less. *)
Definition pair_utf8 (cp cp2 : Z) : option (list Z) :=
  let full := u32 (0x10000 + u32 (u32 (cp - 0xD800) <<' 10) + u32 (cp2 - 0xDC00)) in
  match utf8proc_encode_char full with [] => None | bs => Some bs end.

Definition consumed (n : nat) (r : outcome (option json_buf)) : outcome (option (json_buf * nat)) :=
  or_oom r (λ b, Ok (Some (b, n))).

(** What one round of the loop appends and how far it moves; [None] for [goto oom]. *)
Definition quote_round (b : json_buf) (str : list Z) : outcome (option (json_buf * nat)) :=
  let c := at_ str 0 in
  if c <? 0x80 then
    let action := json_ascii_escape_action c in
    consumed 1%nat
      (if action =? 0 then utf8_json_quote_append b [c]
       else if action =? 117 then utf8_json_quote_append_u_escape b c
       else utf8_json_quote_append b [92; action])
  else
    match wtf8_decode_at str with
    | None => consumed 1%nat (utf8_json_quote_append b [c])
    | Some (n, cp) =>
        let single :=
          if wtf8_is_high_surrogate cp || wtf8_is_low_surrogate cp
          then consumed n (utf8_json_quote_append_u_escape b cp)
          else consumed n (utf8_json_quote_append b (take n str)) in
        if wtf8_is_high_surrogate cp && (n <? length str)%nat then
          match wtf8_decode_at (drop n str) with
          | Some (n2, cp2) =>
              if wtf8_is_low_surrogate cp2 then
                match pair_utf8 cp cp2 with
                | Some bs => consumed (n + n2)%nat (utf8_json_quote_append b bs)
                | None => Ok None
                end
              else single
          | None => single
          end
        else single
    end.

Fixpoint quote_loop (rounds : nat) (b : json_buf) (str : list Z) : outcome (option json_buf) :=
  match rounds, str with
  | S rounds, _ :: _ =>
      or_oom (quote_round b str) (λ '(b, n), quote_loop rounds b (drop n str))
  | _, _ => Ok (Some b)
  end.

(** The text, [None] for NULL. *)
Definition utf8_json_quote (str : list Z) : outcome (option (list Z)) :=
  let cap := u64 (zlen str + 12) in
  if negb (malloc cap) then Ok None
  else
    or_oom (utf8_json_quote_append (mk_buf [] cap) [34]) (λ b,
    or_oom (quote_loop (length str) b str) (λ b,
    or_oom (utf8_json_quote_append b [34]) (λ b, Ok (Some (raw b))))).

End program.

(** ** The grammar of JSON strings

    Between the quotes: a character other than the quote, the backslash and the controls, one
    of the short escapes, or a code unit in hexadecimal.  The second list is the code units. *)

Definition short_escapes : list (Z * Z) :=
  [(34, 34); (92, 92); (47, 47); (98, 8); (102, 12); (110, 10); (114, 13); (116, 9)].

Inductive json_chars : list Z → list Z → Prop :=
  | json_nil : json_chars [] []
  | json_char cp s us :
      scalar cp → 0x20 <= cp → cp ≠ 34 → cp ≠ 92 → json_chars s us →
      json_chars (enc cp ++ s) (utf16 cp ++ us)
  | json_short e u s us :
      (e, u) ∈ short_escapes → json_chars s us → json_chars (92 :: e :: s) (u :: us)
  | json_hex a b c d s us :
      0 <= hex_digit a → 0 <= hex_digit b → 0 <= hex_digit c → 0 <= hex_digit d →
      json_chars s us →
      json_chars (92 :: 117 :: a :: b :: c :: d :: s)
        (((hex_digit a * 16 + hex_digit b) * 16 + hex_digit c) * 16 + hex_digit d :: us).

(** ** The text ECMAScript asks for

    [QuoteJSONString] on the code units of a string: a surrogate pair is its character, any other
    surrogate and the controls without a short escape are written in hexadecimal, and all else
    stands for itself. *)

Definition digit16 (v : Z) : Z := at_ (bytes "0123456789abcdef") (Z.to_nat (v mod 16)).

Definition json_unit (u : Z) : list Z :=
  if u =? 8 then [92; 98] else if u =? 9 then [92; 116] else if u =? 10 then [92; 110]
  else if u =? 12 then [92; 102] else if u =? 13 then [92; 114]
  else if u =? 34 then [92; 34] else if u =? 92 then [92; 92]
  else if (u <? 0x20) || ((0xD800 <=? u) && (u <=? 0xDFFF))
  then [92; 117; digit16 (u / 4096); digit16 (u / 256); digit16 (u / 16); digit16 u]
  else enc u.

Fixpoint json_text (us : list Z) : list Z :=
  match us with
  | [] => []
  | u :: rest =>
      match rest with
      | v :: rest' =>
          if (0xD800 <=? u) && (u <=? 0xDBFF) && (0xDC00 <=? v) && (v <=? 0xDFFF)
          then enc (0x10000 + (u - 0xD800) * 1024 + (v - 0xDC00)) ++ json_text rest'
          else json_unit u ++ json_text rest
      | [] => json_unit u
      end
  end.

(** ** Lemmas *)

Section buffer.
Context `{Heap}.

(** An allocation was refused. *)
Definition no_memory : Prop := ∃ n, malloc n = false ∨ realloc n = false.

(** The result of appending [src]. *)
Definition appends (b : json_buf) (src : list Z) (r : outcome (option json_buf)) : Prop :=
  (r = Ok None ∧ no_memory) ∨
  ∃ b', r = Ok (Some b') ∧ raw b' = raw b ++ src ∧ 0 < raw_cap b'.

Lemma reserve_loop_enough rounds next need :
  0 < next → need <= 2 ^ 61 → need <= next * 2 ^ Z.of_nat rounds →
  need <= reserve_loop rounds next need.
Proof.
  revert next. induction rounds as [|rounds IH]; intros next Hn Hneed Hr; [simpl in *; lia|].
  cbn [reserve_loop]. destruct (Z.ltb_spec next need); [|lia].
  rewrite u64_small by lia. apply IH; [lia|done|].
  rewrite Nat2Z.inj_succ, Z.pow_succ_r in Hr by lia. lia.
Qed.

Lemma append_spec b src :
  0 < raw_cap b → zlen (raw b) + zlen src + 1 <= 2 ^ 61 →
  appends b src (utf8_json_quote_append b src).
Proof.
  intros Hc Hn. unfold utf8_json_quote_append, utf8_json_quote_reserve.
  set (need := zlen (raw b) + zlen src + 1) in *.
  destruct (Z.leb_spec need (raw_cap b)) as [Hle|Hgt].
  - rewrite (proj2 (Z.ltb_ge _ _)) by lia. right. eexists. by split_and!.
  - rewrite (proj2 (Z.eqb_neq (raw_cap b) 0)), u64_small by lia.
    pose proof (reserve_loop_enough 64 (raw_cap b * 2) need ltac:(lia) Hn ltac:(lia)) as He.
    set (next := reserve_loop _ _ _) in *. destruct (realloc next) eqn:Er.
    + cbn [raw_cap raw]. rewrite (proj2 (Z.ltb_ge _ _)) by lia. right. eexists. split; [done|].
      cbn [raw raw_cap]. split; [done|lia].
    + left. split; [done|]. exists next. by right.
Qed.

End buffer.

(** *** Escapes *)

Lemma hex_char_mod v : hex_char v = hex_char (v mod 16).
Proof.
  unfold hex_char. rewrite !(land_mask_eq _ 0x0f 4) by done. change (2 ^ 4) with 16.
  by rewrite Z.mod_mod.
Qed.

Lemma hex_digit_char v : hex_digit (hex_char v) = v mod 16.
Proof. rewrite hex_char_mod. apply hex_char_digit. apply Z.mod_pos_bound. lia. Qed.

Definition u_escape (u : Z) : list Z :=
  [92; 117; hex_char (u >>' 12); hex_char (u >>' 8); hex_char (u >>' 4); hex_char u].

Lemma u_escape_reads u s us :
  0 <= u < 0x10000 → json_chars s us → json_chars (u_escape u ++ s) (u :: us).
Proof.
  intros Hu Hs. pose proof (json_hex (hex_char (u >>' 12)) (hex_char (u >>' 8)) (hex_char (u >>' 4))
    (hex_char u) s us) as K. rewrite !hex_digit_char, !shiftr_div in K by lia.
  change (2 ^ 12) with 4096 in K. change (2 ^ 8) with 256 in K. change (2 ^ 4) with 16 in K.
  assert (((u / 4096 mod 16 * 16 + u / 256 mod 16) * 16 + u / 16 mod 16) * 16 + u mod 16 = u)
    as E by word.
  rewrite E in K. unfold u_escape. rewrite !shiftr_div by lia.
  apply K; try done; apply Z.mod_pos_bound; lia.
Qed.

(** The form a single code unit below 0x80 takes. *)
Definition ascii_piece (c : Z) : list Z :=
  let action := json_ascii_escape_action c in
  if action =? 0 then [c] else if action =? 117 then u_escape c else [92; action].

Lemma ascii_piece_reads c s us :
  0 <= c < 0x80 → json_chars s us → json_chars (ascii_piece c ++ s) (c :: us).
Proof.
  intros Hc Hs. unfold ascii_piece.
  pose proof (byte_cases (λ c, implb (c <? 0x80) (let a := json_ascii_escape_action c in
    if a =? 0 then (0x20 <=? c) && negb (c =? 34) && negb (c =? 92)
    else if a =? 117 then true else existsb (λ '(e, u), (e =? a) && (u =? c)) short_escapes))
    ltac:(vm_compute; reflexivity) c ltac:(unfold byte_ok; lia)) as E.
  cbv beta zeta in E |- *. rewrite (proj2 (Z.ltb_lt c 0x80)) in E by lia. cbn [implb] in E.
  destruct (json_ascii_escape_action c =? 0).
  - apply andb_true_iff in E as [[E1%Z.leb_le E2]%andb_true_iff E3].
    apply negb_true_iff, Z.eqb_neq in E2, E3.
    pose proof (json_char c s us ltac:(unfold scalar; lia) E1 E2 E3 Hs) as K.
    unfold enc, utf16 in K. by rewrite (proj2 (Z.ltb_lt c 0x80)), (proj2 (Z.ltb_lt c 0x10000)) in K by lia.
  - destruct (json_ascii_escape_action c =? 117); [apply u_escape_reads; [lia|done]|].
    apply existsb_exists in E as ([e u] & Hin & [->%Z.eqb_eq ->%Z.eqb_eq]%andb_true_iff).
    apply json_short; [by apply list_elem_of_In|done].
Qed.

(** *** The reference text *)

Lemma digit16_char v : digit16 v = hex_char v.
Proof. unfold digit16, hex_char. rewrite (land_mask_eq _ 0x0f 4) by done. done. Qed.

Lemma u_escape_digits u :
  0 <= u →
  [92; 117; digit16 (u / 4096); digit16 (u / 256); digit16 (u / 16); digit16 u] = u_escape u.
Proof. intros Hu. unfold u_escape. rewrite !digit16_char, !shiftr_div by lia. done. Qed.

Lemma json_unit_ascii c : 0 <= c < 0x80 → json_unit c = ascii_piece c.
Proof.
  intros Hc. pose (same := λ c, implb (c <? 0x80) (bool_decide (json_unit c = ascii_piece c))).
  assert (same c = true) as E.
  { apply byte_cases; [vm_compute; reflexivity|unfold byte_ok; lia]. }
  unfold same in E. rewrite (proj2 (Z.ltb_lt c 0x80)) in E by lia. cbn [implb] in E.
  by apply bool_decide_eq_true in E.
Qed.

Lemma json_unit_other u :
  0x80 <= u → json_unit u = if (0xD800 <=? u) && (u <=? 0xDFFF) then u_escape u else enc u.
Proof.
  intros Hu. unfold json_unit. do 7 rewrite (proj2 (Z.eqb_neq u _)) by lia. rewrite (proj2 (Z.ltb_ge u 0x20)) by lia. cbn [orb].
  destruct (_ && _); [by apply u_escape_digits; lia|done].
Qed.

(** The next code point, unless it is the first half of a pair. *)
Lemma json_text_single cp cps :
  codepoint cp → Forall codepoint cps →
  (∀ cp2 rest, cps = cp2 :: rest →
    (0xD800 <=? cp) && (cp <=? 0xDBFF) && (0xDC00 <=? cp2) && (cp2 <=? 0xDFFF) = false) →
  json_text (code_units (cp :: cps))
  = (if cp <? 0x10000 then json_unit cp else enc cp) ++ json_text (code_units cps).
Proof.
  unfold codepoint. intros Hc Hcs Hno. change (code_units (cp :: cps)) with (utf16 cp ++ code_units cps). unfold utf16 at 1.
  destruct (Z.ltb_spec cp 0x10000) as [Hlt|Hge].
  - cbn [app json_text]. destruct cps as [|cp2 rest]; [simpl; by rewrite app_nil_r|].
    change (code_units (cp2 :: rest)) with (utf16 cp2 ++ code_units rest). specialize (Hno cp2 rest eq_refl). unfold utf16.
    apply Forall_cons in Hcs as [Hc2 _]. unfold codepoint in Hc2.
    destruct (Z.ltb_spec cp2 0x10000); cbn [app]; [by rewrite Hno|].
    assert ((0xDC00 <=? 0xD800 + (cp2 - 0x10000) / 1024) = false) as ->; [|by rewrite andb_false_r].
    apply Z.leb_gt. assert ((cp2 - 0x10000) / 1024 < 0x400) by (apply Z.div_lt_upper_bound; lia). lia.
  - assert (0 <= (cp - 0x10000) / 1024 < 0x400) by (split; [apply Z.div_pos; lia|apply Z.div_lt_upper_bound; lia]).
    pose proof (Z.mod_pos_bound (cp - 0x10000) 1024 ltac:(lia)). pose proof (Z.div_mod (cp - 0x10000) 1024 ltac:(lia)). cbn [app json_text].
    rewrite (proj2 (Z.leb_le 0xD800 _)), (proj2 (Z.leb_le _ 0xDBFF)), (proj2 (Z.leb_le 0xDC00 _)), (proj2 (Z.leb_le _ 0xDFFF)) by lia. cbn [andb].
    do 2 f_equal. lia.
Qed.

(** A pair is its character. *)
Lemma json_text_pair u v us : 0xD800 <= u <= 0xDBFF → 0xDC00 <= v <= 0xDFFF →
  json_text (u :: v :: us) = enc (0x10000 + (u - 0xD800) * 1024 + (v - 0xDC00)) ++ json_text us.
Proof.
  intros Hu Hv. cbn [json_text].
  by rewrite (proj2 (Z.leb_le 0xD800 _)), (proj2 (Z.leb_le _ 0xDBFF)), (proj2 (Z.leb_le 0xDC00 _)), (proj2 (Z.leb_le _ 0xDFFF)) by lia.
Qed.

(** The reference text is JSON for the code units. *)
Lemma json_unit_reads u s us : 0 <= u < 0x10000 → json_chars s us → json_chars (json_unit u ++ s) (u :: us).
Proof.
  intros Hu Hj. destruct (Z.lt_ge_cases u 0x80); [rewrite json_unit_ascii by lia; apply ascii_piece_reads; [lia|done]|].
  rewrite json_unit_other by done. destruct (_ && _) eqn:E; [by apply u_escape_reads|].
  pose proof (json_char u s us) as K. unfold utf16 in K. rewrite (proj2 (Z.ltb_lt u 0x10000)) in K by lia.
  apply K; [|lia..|done]. unfold scalar. apply andb_false_iff in E as [E%Z.leb_gt|E%Z.leb_gt]; lia.
Qed.

Lemma json_text_reads us : Forall (λ u, 0 <= u < 0x10000) us → json_chars (json_text us) us.
Proof.
  remember (length us) as n eqn:En. assert (length us <= n)%nat as Hn by lia. clear En. revert us Hn.
  induction n as [|n IH]; intros us Hn Hus; [destruct us; [constructor|simpl in Hn; lia]|].
  destruct Hus as [|u us Hu Hus]; [constructor|]. cbn [json_text]. simpl in Hn.
  destruct Hus as [|v us Hv Hus]; [rewrite <- (app_nil_r (json_unit u)); apply json_unit_reads; [done|constructor]|].
  destruct (_ && _) eqn:E; [|apply json_unit_reads; [done|]; apply IH; [simpl in *; lia|by constructor]].
  apply andb_true_iff in E as [[[E1%Z.leb_le E2%Z.leb_le]%andb_true_iff E3%Z.leb_le]%andb_true_iff E4%Z.leb_le].
  set (full := 0x10000 + _ + _). assert (utf16 full = [u; v]) as Ef.
  { unfold utf16, full. rewrite (proj2 (Z.ltb_ge _ _)) by lia. f_equal; [word|]. f_equal. word. }
  change (u :: v :: us) with ([u; v] ++ us). rewrite <- Ef. apply json_char; [unfold scalar, full; lia|unfold full; lia..|].
  apply IH; [simpl in Hn; lia|done].
Qed.

Lemma code_units_range cps : Forall codepoint cps → Forall (λ u, 0 <= u < 0x10000) (code_units cps).
Proof.
  intros Hcs. apply Forall_concat, Forall_fmap. eapply Forall_impl; [exact Hcs|]. intros cp Hc. unfold codepoint in Hc. simpl. unfold utf16.
  destruct (Z.ltb_spec cp 0x10000); [constructor; [lia|constructor]|].
  assert (0 <= (cp - 0x10000) / 1024 < 0x400) by (split; [apply Z.div_pos; lia|apply Z.div_lt_upper_bound; lia]).
  pose proof (Z.mod_pos_bound (cp - 0x10000) 1024 ltac:(lia)). repeat (constructor; [lia|]). constructor.
Qed.

(** *** Decoding stored characters *)

Lemma wtf8_tail_step k b s cp :
  0x80 <= b <= 0xbf → 0 <= cp < 2 ^ 20 →
  wtf8_tail (S k) (b :: s) cp = wtf8_tail k s (cp * 64 + (b - 0x80)).
Proof.
  intros Hb Hcp. cbn [wtf8_tail]. change (at_ (b :: s) 0) with b.
  assert ((b &' 0xC0 =? 0x80) = true) as ->.
  { pose proof (byte_cases (λ b, implb ((0x80 <=? b) && (b <=? 0xbf)) (b &' 0xC0 =? 0x80))
      ltac:(vm_compute; reflexivity) b ltac:(unfold byte_ok; lia)) as E. cbv beta in E.
    by rewrite (proj2 (Z.leb_le 0x80 b)), (proj2 (Z.leb_le b 0xbf)) in E by lia. }
  cbn [negb drop]. rewrite land_3f, shiftl_mul, u32_small, lor_add_low by word.
  f_equal. word.
Qed.

Lemma wtf8_decode_enc cp rest :
  codepoint cp → wtf8_decode_at (enc cp ++ rest) = Some (length (enc cp), cp).
Proof.
  unfold codepoint. intros Hc. unfold wtf8_decode_at, enc.
  destruct (Z.ltb_spec cp 0x80); [|destruct (Z.ltb_spec cp 0x800); [|destruct (Z.ltb_spec cp 0x10000)]];
    cbn [app at_ nth length drop].
  1: by rewrite (proj2 (Z.ltb_lt cp 0x80)) by lia.
  all: match goal with |- context [?c <? 0xC0] => set (lead := c) end;
    assert (0xC0 <= lead < 0xF8) as Hlead by (unfold lead; word);
    rewrite (proj2 (Z.ltb_ge lead 0x80)), (proj2 (Z.ltb_ge lead 0xC0)) by lia.
  - rewrite (proj2 (Z.ltb_lt lead 0xE0)) by (unfold lead; word).
    cbn [Nat.eqb orb length Nat.ltb Nat.leb Nat.sub].
    change (0x7F >>' Z.of_nat 2) with 0x1F. rewrite land_1f.
    rewrite wtf8_tail_step by (unfold lead; word). cbn. do 2 f_equal. unfold lead. word.
  - rewrite (proj2 (Z.ltb_ge lead 0xE0)), (proj2 (Z.ltb_lt lead 0xF0)) by (unfold lead; word).
    cbn [Nat.eqb orb length Nat.ltb Nat.leb Nat.sub].
    change (0x7F >>' Z.of_nat 3) with 0x0F. rewrite land_0f.
    rewrite !wtf8_tail_step by (unfold lead; word). cbn. do 2 f_equal. unfold lead. word.
  - rewrite (proj2 (Z.ltb_ge lead 0xE0)), (proj2 (Z.ltb_ge lead 0xF0)) by (unfold lead; word).
    cbn [Nat.eqb orb length Nat.ltb Nat.leb Nat.sub].
    change (0x7F >>' Z.of_nat 4) with 0x07. rewrite land_07.
    rewrite !wtf8_tail_step by (unfold lead; word). cbn. do 2 f_equal. unfold lead. word.
Qed.

(** *** The loop *)

Section loop.
Context `{Utf8proc, Heap}.

(** What a round does at the head of [cps]: it appends the part of the reference text that stands
    for one or two code points and moves behind them. *)
Definition round_done (b : json_buf) (cps : list Z) (r : outcome (option (json_buf * nat))) : Prop :=
  (r = Ok None ∧ no_memory) ∨
  ∃ b' k piece, (0 < k <= length cps)%nat ∧
    r = Ok (Some (b', length (encode (take k cps)))) ∧
    raw b' = raw b ++ piece ∧ 0 < raw_cap b' ∧
    (length piece <= 6 * length (encode (take k cps)))%nat ∧
    piece ++ json_text (code_units (drop k cps)) = json_text (code_units cps).

Lemma consumed_done b cps k n piece r :
  appends b piece r → (0 < k <= length cps)%nat → n = length (encode (take k cps)) →
  (length piece <= 6 * n)%nat →
  piece ++ json_text (code_units (drop k cps)) = json_text (code_units cps) →
  round_done b cps (consumed n r).
Proof.
  intros [[-> Hm]|(b' & -> & Hr & Hc)] Hk -> Hl Hj; [by left|]. right.
  exists b', k, piece. destruct Hk. by split_and!.
Qed.

(** A step behind the first code point. *)
Lemma first_done b cp cps n piece r :
  appends b piece r → n = length (enc cp) → (length piece <= 6 * n)%nat →
  piece ++ json_text (code_units cps) = json_text (code_units (cp :: cps)) →
  round_done b (cp :: cps) (consumed n r).
Proof.
  intros Hr -> Hl Hj. assert (take 1 (cp :: cps) = [cp]) as E by (by destruct cps).
  assert (encode [cp] = enc cp) as E1 by (unfold encode; cbn; by rewrite app_nil_r).
  eapply (consumed_done _ _ 1); [done|simpl; lia|by rewrite E, E1|done|done].
Qed.

Lemma surrogate_tests cp :
  wtf8_is_high_surrogate cp || wtf8_is_low_surrogate cp = false → codepoint cp → scalar cp.
Proof.
  unfold wtf8_is_high_surrogate, wtf8_is_low_surrogate, codepoint, scalar.
  repeat case_ltb; cbn; try done; lia.
Qed.

Lemma pair_utf8_spec cp cp2 :
  wtf8_is_high_surrogate cp = true → wtf8_is_low_surrogate cp2 = true →
  let full := 0x10000 + (cp - 0xD800) * 1024 + (cp2 - 0xDC00) in
  0x10000 <= full < 0x110000 ∧ pair_utf8 cp cp2 = Some (enc full) ∧ utf16 full = [cp; cp2].
Proof.
  unfold wtf8_is_high_surrogate, wtf8_is_low_surrogate.
  intros [H1%Z.leb_le H2%Z.leb_le]%andb_true_iff [H3%Z.leb_le H4%Z.leb_le]%andb_true_iff. cbv zeta.
  split; [lia|]. split.
  - unfold pair_utf8. rewrite shiftl_mul by lia.
    rewrite (u32_small (cp - 0xD800)), (u32_small (_ * _)), (u32_small (cp2 - 0xDC00)), u32_small by lia.
    rewrite utf8proc_encode_char_law by (unfold scalar; lia).
    pose proof (enc_length (0x10000 + (cp - 0xD800) * 2 ^ 10 + (cp2 - 0xDC00))) as Hl.
    change (2 ^ 10) with 1024 in *. destruct (enc (_ + _)); [simpl in Hl; lia|done].
  - unfold utf16. rewrite (proj2 (Z.ltb_ge _ _)) by lia. f_equal; [word|]. f_equal. word.
Qed.

Lemma enc_lead_high cp : codepoint cp → 0x80 <= cp → 0x80 <= at_ (enc cp) 0.
Proof. unfold codepoint. intros Hc Hn. unfold enc. repeat case_ltb; unfold at_; cbn [nth]; word. Qed.

Lemma at_enc_app cp rest : at_ (enc cp ++ rest) 0 = at_ (enc cp) 0.
Proof. pose proof (enc_length cp). apply at_app_l. lia. Qed.

(** One code point stored as it is or as an escape. *)
Lemma single_done b cp cps :
  codepoint cp → Forall codepoint cps → 0x80 <= cp →
  (∀ cp2 rest, cps = cp2 :: rest → wtf8_is_high_surrogate cp && wtf8_is_low_surrogate cp2 = false) →
  0 < raw_cap b → zlen (raw b) + 8 <= 2 ^ 61 →
  round_done b (cp :: cps)
    (if wtf8_is_high_surrogate cp || wtf8_is_low_surrogate cp
     then consumed (length (enc cp)) (utf8_json_quote_append_u_escape b cp)
     else consumed (length (enc cp)) (utf8_json_quote_append b (take (length (enc cp)) (encode (cp :: cps))))).
Proof.
  intros Hc Hcs Hn Hno Hcap Hb. pose proof (enc_length cp) as Hl.
  assert (json_text (code_units (cp :: cps)) = (if cp <? 0x10000 then json_unit cp else enc cp) ++ json_text (code_units cps)) as Ej.
  { apply json_text_single; [done..|]. intros cp2 rest E. specialize (Hno cp2 rest E). unfold wtf8_is_high_surrogate, wtf8_is_low_surrogate in Hno.
    by rewrite <- andb_assoc. }
  destruct (_ || _) eqn:Es.
  - assert (0xD800 <= cp <= 0xDFFF) as Hs.
    { revert Es. unfold wtf8_is_high_surrogate, wtf8_is_low_surrogate. repeat case_ltb; cbn; done || lia. }
    eapply (first_done _ _ _ _ (u_escape cp));
      [by apply append_spec; [|unfold zlen in *; simpl; lia]|done|simpl; lia|].
    rewrite Ej, (proj2 (Z.ltb_lt cp 0x10000)), json_unit_other by lia.
    by rewrite (proj2 (Z.leb_le 0xD800 cp)), (proj2 (Z.leb_le cp 0xDFFF)) by lia.
  - rewrite encode_cons, take_app_length.
    eapply (first_done _ _ _ _ (enc cp)); [by apply append_spec; [|unfold zlen in *; lia]|done|lia|].
    rewrite Ej. destruct (Z.ltb_spec cp 0x10000); [|done]. rewrite json_unit_other by done.
    pose proof (surrogate_tests cp Es Hc) as Hs. unfold scalar in Hs.
    by destruct (Z.leb_spec 0xD800 cp), (Z.leb_spec cp 0xDFFF); cbn [andb]; try lia.
Qed.

Lemma quote_round_spec b cp cps :
  codepoint cp → Forall codepoint cps → 0 < raw_cap b → zlen (raw b) + 8 <= 2 ^ 61 →
  round_done b (cp :: cps) (quote_round b (encode (cp :: cps))).
Proof.
  intros Hc Hcs Hcap Hb. pose proof (enc_length cp) as Hl. unfold quote_round.
  rewrite encode_cons, at_enc_app at 1.
  destruct (Z.lt_ge_cases cp 0x80) as [Ha|Ha].
  - unfold codepoint in Hc.
    assert (enc cp = [cp]) as E by (unfold enc; by rewrite (proj2 (Z.ltb_lt _ _) Ha)).
    rewrite !encode_cons, !at_enc_app, E. change (at_ [cp] 0) with cp. rewrite (proj2 (Z.ltb_lt _ _) Ha).
    assert (length (ascii_piece cp) <= 6)%nat as Hp
      by (unfold ascii_piece; repeat case_match; simpl; lia).
    eapply (first_done _ _ _ _ (ascii_piece cp)); [|by rewrite E|simpl; lia|].
    + unfold ascii_piece. cbv zeta. repeat case_match; apply append_spec; unfold zlen in *; done || (simpl; lia).
    + rewrite <- json_unit_ascii, json_text_single, (proj2 (Z.ltb_lt cp 0x10000)) by (done || lia || (intros; by rewrite (proj2 (Z.leb_gt 0xD800 cp)) by lia)). done.
  - pose proof (enc_lead_high cp Hc Ha). rewrite (proj2 (Z.ltb_ge _ _)) by done.
    rewrite !encode_cons, wtf8_decode_enc, drop_app_length by done. cbv zeta.
    pose proof (single_done b cp cps Hc Hcs Ha) as Hsingle. rewrite encode_cons in Hsingle.
    destruct (wtf8_is_high_surrogate cp) eqn:Eh; [|by apply Hsingle]. cbn [andb].
    destruct Hcs as [|cp2 cps Hc2 Hcs].
    { rewrite app_nil_r, Nat.ltb_irrefl. rewrite app_nil_r in Hsingle. by apply Hsingle. }
    rewrite encode_cons in *. rewrite (proj2 (Nat.ltb_lt _ _)) by (pose proof (enc_length cp2); rewrite !length_app; lia).
    rewrite wtf8_decode_enc by done.
    destruct (wtf8_is_low_surrogate cp2) eqn:El2; [|by apply Hsingle; [intros ? ? [= <- <-]|..]].
    destruct (pair_utf8_spec cp cp2 Eh El2) as (Hf & -> & Hu).
    set (full := 0x10000 + (cp - 0xD800) * 1024 + (cp2 - 0xDC00)) in *. pose proof (enc_length full).
    eapply (consumed_done _ _ 2 _ (enc full));
      [by apply append_spec; [|unfold zlen in *; lia]|simpl; lia| |lia|].
    + cbn [take]. rewrite !encode_cons, !length_app, take_0. cbn. lia.
    + cbn [drop]. rewrite drop_0. unfold wtf8_is_high_surrogate, wtf8_is_low_surrogate in *.
      apply andb_true_iff in Eh as [?%Z.leb_le ?%Z.leb_le], El2 as [?%Z.leb_le ?%Z.leb_le].
      change (code_units (cp :: cp2 :: cps)) with (utf16 cp ++ utf16 cp2 ++ code_units cps).
      unfold utf16. rewrite !(proj2 (Z.ltb_lt _ 0x10000)) by lia. cbn [app]. by rewrite json_text_pair.
Qed.

Lemma quote_loop_spec rounds b cps :
  Forall codepoint cps → (length (encode cps) <= rounds)%nat → 0 < raw_cap b →
  zlen (raw b) + 6 * zlen (encode cps) + 8 <= 2 ^ 61 →
  (quote_loop rounds b (encode cps) = Ok None ∧ no_memory) ∨
  ∃ b' body, quote_loop rounds b (encode cps) = Ok (Some b') ∧ raw b' = raw b ++ body ∧
    0 < raw_cap b' ∧ (length body <= 6 * length (encode cps))%nat ∧
    body = json_text (code_units cps).
Proof.
  revert b cps. induction rounds as [|rounds IH]; intros b cps Hcs Hr Hcap Hb.
  { destruct cps as [|cp cps].
    - right. exists b, []. split_and!; [done|by rewrite app_nil_r|done|simpl; lia|done].
    - pose proof (enc_length cp). rewrite encode_cons, length_app in Hr. lia. }
  destruct Hcs as [|cp cps Hc Hcs].
  { right. exists b, []. split_and!; [done|by rewrite app_nil_r|done|simpl; lia|done]. }
  set (all := cp :: cps) in *. assert (Forall codepoint all) as Hall by (by constructor).
  pose proof (quote_round_spec b cp cps Hc Hcs Hcap ltac:(unfold zlen in *; lia)) as Hq. fold all in Hq.
  assert (quote_loop (S rounds) b (encode all)
    = or_oom (quote_round b (encode all)) (λ '(b, n), quote_loop rounds b (drop n (encode all)))) as ->.
  { pose proof (enc_length cp). unfold all. rewrite encode_cons. destruct (enc cp); [simpl in *; lia|done]. }
  destruct Hq as [[-> Hm]|(b' & k & piece & Hk & -> & Hraw & Hcap' & Hp & Hj)]; [by left|].
  cbn [or_oom]. clearbody all.
  assert (encode all = encode (take k all) ++ encode (drop k all)) as Esplit
    by (by rewrite <- encode_app, take_drop).
  assert (1 <= length (encode (take k all)))%nat as Hpos.
  { destruct all as [|x all]; [simpl in Hk; lia|]. destruct k; [lia|]. cbn [take].
    pose proof (enc_length x). rewrite encode_cons, length_app. lia. }
  assert (drop (length (encode (take k all))) (encode all) = encode (drop k all)) as Hdrop
    by (by rewrite Esplit, drop_app_length).
  apply (f_equal length) in Esplit. rewrite length_app in Esplit. rewrite Hdrop.
  destruct (IH b' (drop k all)) as [[-> Hm]|(b'' & body & -> & Hr2 & Hc2 & Hl2 & Hj2)];
    [by apply Forall_drop|lia|done|unfold zlen in *; rewrite Hraw, length_app; lia|by left|].
  right. exists b'', (piece ++ body). split; [done|]. split; [by rewrite Hr2, Hraw, app_assoc|].
  split; [done|]. split; [rewrite length_app; lia|].
  by rewrite Hj2.
Qed.

End loop.

(** JSON text is UTF-8. *)
Lemma json_chars_encode s us : json_chars s us → ∃ cps, Forall scalar cps ∧ s = encode cps.
Proof.
  assert (∀ w cps, Forall (λ c, 0 <= c < 0x80) w → Forall scalar cps →
    Forall scalar (w ++ cps) ∧ w ++ encode cps = encode (w ++ cps)) as K.
  { intros w cps Hw Hcs. induction Hw as [|c w Hc Hw [IH1 IH2]]; [done|].
    split; [constructor; [unfold scalar; lia|done]|]. cbn [app]. rewrite encode_cons, <- IH2.
    unfold enc. by rewrite (proj2 (Z.ltb_lt c 0x80)) by lia. }
  assert (∀ a, 0 <= hex_digit a → 0 <= a < 0x80) as Hhex.
  { intros a. unfold hex_digit. repeat case_ltb; cbn; lia. }
  induction 1 as [|cp s us Hs H1 H2 H3 Hj (cps & Hcs & ->)|e u s us He Hj (cps & Hcs & ->)
    |a b c d s us Ha Hb Hc Hd Hj (cps & Hcs & ->)].
  - by exists [].
  - exists (cp :: cps). by split; [constructor|].
  - exists ([92; e] ++ cps). apply (K [92; e]); [|done]. constructor; [lia|]. constructor; [|constructor].
    assert (Forall (λ x, 0 <= x.1 < 0x80) short_escapes) as Hall
      by (repeat (constructor; [cbn; lia|]); constructor).
    rewrite Forall_forall in Hall. by apply (Hall (e, u)).
  - exists ([92; 117; a; b; c; d] ++ cps). apply (K [92; 117; a; b; c; d]); [|done].
    constructor; [lia|]. constructor; [lia|]. do 4 (constructor; [by apply Hhex|]). constructor.
Qed.

(** ** Properties *)

(** C30: Quoting a string stored as the (W)UTF-8 of its code points never leaves its buffer and
    gives NULL only when memory was refused; otherwise the result is the text that [QuoteJSONString]
    of ECMAScript gives for the code units of the string ([json_text]): surrogates stored one by
    one are joined to their character, and a lone one is written as an escape.  That text is a JSON
    string, valid UTF-8, that reads back as the code units. *)
Theorem utf8_json_quote_correct `{Utf8proc, Heap} cps :
  Forall codepoint cps → zlen (encode cps) < 2 ^ 56 →
  (utf8_json_quote (encode cps) = Ok None ∧ no_memory) ∨
  ∃ body, utf8_json_quote (encode cps) = Ok (Some (34 :: body ++ [34])) ∧
    body = json_text (code_units cps) ∧ json_chars body (code_units cps) ∧
    utf8_validate_bytes (34 :: body ++ [34]) = true.
Proof.
  intros Hcs Hl. assert (0 <= zlen (encode cps)) by (unfold zlen; lia).
  unfold utf8_json_quote. rewrite u64_small by lia.
  destruct (malloc _) eqn:Em; [|left; split; [done|]; eexists; by left]. cbn [negb].
  set (b0 := mk_buf [] _).
  assert (∀ b s, 0 < raw_cap b → zlen (raw b) + 2 <= 2 ^ 61 → s = [34] →
    appends b s (utf8_json_quote_append b s)) as Hq
    by (intros b s Hc Hb ->; apply append_spec; unfold zlen in *; simpl; lia).
  destruct (Hq b0 [34]) as [[-> Hm]|(b1 & -> & Hr1 & Hc1)]; [unfold b0; cbn [raw_cap]; lia|done|done|by left|].
  cbn [or_oom].
  destruct (quote_loop_spec (length (encode cps)) b1 cps) as
    [[-> Hm]|(b2 & body & -> & Hr2 & Hc2 & Hlen & Hj)];
    [done|done|done|rewrite Hr1; unfold zlen in *; simpl; lia|by left|]. cbn [or_oom].
  assert (raw b2 = 34 :: body) as E by (by rewrite Hr2, Hr1).
  destruct (Hq b2 [34]) as [[-> Hm]|(b3 & -> & Hr3 & Hc3)];
    [done|rewrite E; unfold zlen in *; simpl; lia|done|by left|]. cbn [or_oom].
  right. exists body. split; [by rewrite Hr3, E|]. split; [done|].
  assert (json_chars body (code_units cps)) as Hj' by (rewrite Hj; by apply json_text_reads, code_units_range). clear Hj. rename Hj' into Hj.
  split; [done|]. destruct (json_chars_encode _ _ Hj) as (cs & Hscal & ->).
  assert (34 :: encode cs ++ [34] = encode (34 :: cs ++ [34])) as Eq
    by (by rewrite encode_cons, encode_app).
  assert (Forall scalar (34 :: cs ++ [34])) as Hs34.
  { assert (scalar 34) by (unfold scalar; lia). constructor; [done|]. apply Forall_app.
    split; [done|]. by constructor. }
  rewrite Eq. apply utf8_validate_bytes_iff; [|by eexists].
  unfold encode. apply Forall_concat, Forall_fmap. eapply Forall_impl; [exact Hs34|].
  intros c Hc. apply enc_byte_ok. unfold scalar in Hc. lia.
Qed.

Lemma utf8_json_quote_correct_witness :
  ∃ body, @utf8_json_quote standard_utf8proc roomy_heap (encode [0x61; 0x0A; 0xD83D; 0xDE00; 0xD800])
    = Ok (Some (34 :: body ++ [34])) ∧
    body = bytes "a\n" ++ [0xF0; 0x9F; 0x98; 0x80] ++ bytes "\ud800" ∧
    json_chars body [0x61; 0x0A; 0xD83D; 0xDE00; 0xD800] ∧
    utf8_validate_bytes (34 :: body ++ [34]) = true.
Proof.
  destruct (@utf8_json_quote_correct standard_utf8proc roomy_heap [0x61; 0x0A; 0xD83D; 0xDE00; 0xD800]
    ltac:(repeat constructor; vm_compute; congruence) ltac:(vm_compute; congruence))
    as [[_ [n [E|E]]]|K]; [discriminate E|discriminate E|exact K].
Defined.
