(* ===== verification/Connection.v ===== *)
(** * Connections: the read buffer and outgoing writes

    Models the parts of src/net/connection.c that keep the state of a connection:
    [ant_conn_alloc_cb] and [ant_conn_read_cb], which libuv calls around each read,
    [ant_conn_buffer], [ant_conn_buffer_len], [ant_conn_consume], [ant_conn_write],
    [ant_conn_close], [ant_conn_shutdown], [ant_conn_pause_read] and [ant_conn_resume_read].
    The class [Conn] is what the protocols on top of a connection rely on; [ant_conn_t] is an
    instance of it.  Timers, addresses and the listener's bookkeeping are left out, and so is
    the callback that [ant_conn_read_cb] ends with: the caller of [ant_conn_read_cb] runs it. *)

From S2P Require Import Prelude.

(** What the code asks of libuv: whether a write and a shutdown are taken, and the size of
    their request structures. *)
Class Uv := {
  uv_write_ok : list Z → bool;
  uv_shutdown_ok : bool;
  sizeof_write_req : Z;
  sizeof_shutdown_req : Z
}.

Definition willing_uv : Uv :=
  {| uv_write_ok := λ _, true; uv_shutdown_ok := true;
     sizeof_write_req := 256; sizeof_shutdown_req := 128 |}.

Definition ANT_CONN_READ_BUFFER_SIZE : Z := 16 * 1024.

(** [buffer] has [buffer_cap] bytes.  [sent] is what was handed to [uv_write] and [shut]
    whether [uv_shutdown] was requested: the state of libuv the code acts on. *)
Record ant_conn_t := mk_conn {
  buffer : list Z;
  buffer_len : Z;
  buffer_offset : Z;
  closing : bool;
  read_paused : bool;
  read_eof : bool;
  bytes_read : Z;
  sent : list (list Z);
  shut : bool
}.

Definition buffer_cap (c : ant_conn_t) : Z := zlen (buffer c).

Definition set_buffer (c : ant_conn_t) (b : list Z) (len offset : Z) : ant_conn_t :=
  mk_conn b len offset (closing c) (read_paused c) (read_eof c) (bytes_read c) (sent c) (shut c).

(** [while (next_cap < need) next_cap *= 2]: a [size_t] doubles at most 64 times. *)
Fixpoint grow_cap (rounds : nat) (next_cap need : Z) : Z :=
  match rounds with
  | O => next_cap
  | S rounds => if next_cap <? need then grow_cap rounds (u64 (next_cap * 2)) need else next_cap
  end.

(** The buffer handed to libuv: its offset in [buffer], [None] for NULL, and its length. *)
Definition ant_conn_alloc_cb `{Heap} (c : ant_conn_t) (suggested_size : Z)
    : ant_conn_t * option Z * Z :=
  let room c :=
    let base := buffer_offset c + buffer_len c in
    (c, Some base, u64 (buffer_cap c - buffer_offset c - buffer_len c)) in
  if u64 (buffer_cap c - buffer_offset c) <? u64 (buffer_len c + suggested_size) then
    let len := if (0 <? buffer_offset c) && negb (0 <? buffer_len c) then 0 else buffer_len c in
    let moved :=
      if (0 <? buffer_offset c) && (0 <? buffer_len c)
      then take (Z.to_nat len) (drop (Z.to_nat (buffer_offset c)) (buffer c))
           ++ drop (Z.to_nat len) (buffer c)
      else buffer c in
    let c := set_buffer c moved len 0 in
    let need := u64 (len + suggested_size) in
    if buffer_cap c <? need then
      let next_cap := if buffer_cap c =? 0 then ANT_CONN_READ_BUFFER_SIZE
                      else u64 (buffer_cap c * 2) in
      let next_cap := grow_cap 64 next_cap need in
      if negb (realloc next_cap) then (c, None, 0)
      else room (set_buffer c (buffer c ++ replicate (Z.to_nat (next_cap - buffer_cap c)) 0) len 0)
    else room c
  else room c.

(** What libuv does between the two callbacks: it stores what it read at [base].  A byte stored
    behind the end of the buffer is [Ub]. *)
Definition uv_fill (c : ant_conn_t) (base : Z) (chunk : list Z) : outcome ant_conn_t :=
  if buffer_cap c <? base + zlen chunk then Ub
  else
    let b := Z.to_nat base in
    Ok (set_buffer c (take b (buffer c) ++ chunk ++ drop (b + length chunk) (buffer c))
          (buffer_len c) (buffer_offset c)).

(** What [ant_conn_read_cb] was told: end of file, another error, or a number of bytes. *)
Inductive uv_nread := UV_EOF | UV_ERROR | Nread (n : Z).

(** What it calls of the listener. *)
Inductive conn_callback := on_end | on_error | on_read | no_callback.

Definition ant_conn_close (c : ant_conn_t) : ant_conn_t :=
  if closing c then c
  else mk_conn (buffer c) (buffer_len c) (buffer_offset c) true (read_paused c) (read_eof c)
         (bytes_read c) (sent c) (shut c).

Definition ant_conn_read_cb (c : ant_conn_t) (nread : uv_nread) : ant_conn_t * conn_callback :=
  match nread with
  | UV_EOF =>
      (mk_conn (buffer c) (buffer_len c) (buffer_offset c) (closing c) (read_paused c) true
         (bytes_read c) (sent c) (shut c), on_end)
  | UV_ERROR => (ant_conn_close c, on_error)
  | Nread n =>
      if n =? 0 then (c, no_callback)
      else (mk_conn (buffer c) (u64 (buffer_len c + n)) (buffer_offset c) (closing c)
              (read_paused c) (read_eof c) (u64 (bytes_read c + n)) (sent c) (shut c), on_read)
  end.

(** ** The interface used by protocols *)

(** The bytes [ant_conn_buffer] points to, [ant_conn_buffer_len] of them. *)
Definition ant_conn_buffer (c : ant_conn_t) : list Z :=
  take (Z.to_nat (buffer_len c)) (drop (Z.to_nat (buffer_offset c)) (buffer c)).

Definition ant_conn_buffer_len (c : ant_conn_t) : Z := buffer_len c.

(** Writing through that pointer. *)
Definition ant_conn_overwrite (c : ant_conn_t) (w : list Z) : ant_conn_t :=
  let off := Z.to_nat (buffer_offset c) in
  set_buffer c (take off (buffer c) ++ w ++ drop (off + length w) (buffer c))
    (buffer_len c) (buffer_offset c).

Definition ant_conn_consume (c : ant_conn_t) (len : Z) : ant_conn_t :=
  if (buffer_len c =? 0) || (len =? 0) then c
  else if buffer_len c <=? len then set_buffer c (buffer c) 0 0
  else set_buffer c (buffer c) (buffer_len c - len) (buffer_offset c + len).

Definition set_sent (c : ant_conn_t) (out : list (list Z)) (down : bool) : ant_conn_t :=
  mk_conn (buffer c) (buffer_len c) (buffer_offset c) (closing c) (read_paused c) (read_eof c)
    (bytes_read c) out down.

(** The connection and whether 0 was returned; [data] is freed here or by libuv in any case.
    [uv_buf_init] takes the length as an [unsigned int]. *)
Definition ant_conn_write `{Heap} `{Uv} (c : ant_conn_t) (data : list Z) : ant_conn_t * bool :=
  if closing c then (c, false)
  else if negb (calloc sizeof_write_req) then (c, false)
  else
    let piece := take (Z.to_nat (u32 (zlen data))) data in
    if uv_write_ok piece then (set_sent c (sent c ++ [piece]) (shut c), true) else (c, false).

Definition ant_conn_shutdown `{Heap} `{Uv} (c : ant_conn_t) : ant_conn_t :=
  if closing c then c
  else if negb (calloc sizeof_shutdown_req) then ant_conn_close c
  else if uv_shutdown_ok then set_sent c (sent c) true
  else ant_conn_close c.

Definition ant_conn_pause_read (c : ant_conn_t) : ant_conn_t :=
  if closing c then c
  else mk_conn (buffer c) (buffer_len c) (buffer_offset c) (closing c) true (read_eof c)
         (bytes_read c) (sent c) (shut c).

Definition ant_conn_resume_read (c : ant_conn_t) : ant_conn_t :=
  if closing c || read_eof c || negb (read_paused c) then c
  else mk_conn (buffer c) (buffer_len c) (buffer_offset c) (closing c) false (read_eof c)
         (bytes_read c) (sent c) (shut c).

(** A new connection, when its buffer could be allocated. *)
Definition ant_conn_create : ant_conn_t :=
  mk_conn (replicate (Z.to_nat ANT_CONN_READ_BUFFER_SIZE) 0) 0 0 false false false 0 [] false.

(** [buf->len]: libuv reads up to as many bytes, which may be more or less than it suggested. *)
Definition conn_offered `{Heap} (c : ant_conn_t) (suggested_size : Z) : Z :=
  (ant_conn_alloc_cb c suggested_size).2.

(** One read of libuv: [alloc_cb], the bytes, [read_cb].  Without a buffer or with an empty one
    libuv reads nothing and reports UV_ENOBUFS. *)
Definition conn_arrive `{Heap} (c : ant_conn_t) (suggested_size : Z) (chunk : list Z)
    : outcome ant_conn_t :=
  let '(c, base, len) := ant_conn_alloc_cb c suggested_size in
  match base with
  | Some base =>
      if len =? 0 then Ok (ant_conn_read_cb c UV_ERROR).1
      else c ← uv_fill c base chunk; Ok (ant_conn_read_cb c (Nread (zlen chunk))).1
  | None => Ok (ant_conn_read_cb c UV_ERROR).1
  end.

(** ** The invariant *)

Ltac conn_fields :=
  cbn [buffer buffer_len buffer_offset closing read_paused read_eof bytes_read sent shut
       set_buffer set_sent fst snd].

(** The window lies within the buffer, and no size comes near the width of [size_t]. *)
Definition conn_ok (c : ant_conn_t) : Prop :=
  0 <= buffer_len c ∧ 0 <= buffer_offset c ∧ buffer_offset c + buffer_len c <= buffer_cap c.

Lemma zlen_ant_conn_buffer c : conn_ok c → zlen (ant_conn_buffer c) = buffer_len c.
Proof.
  unfold conn_ok, buffer_cap, ant_conn_buffer, zlen. intros (? & ? & ?).
  rewrite length_take, length_drop. lia.
Qed.

Lemma grow_cap_enough rounds cap need :
  0 < cap → need <= cap * 2 ^ Z.of_nat rounds → need < 2 ^ 62 → cap < 2 ^ 63 →
  need <= grow_cap rounds cap need ∧ cap <= grow_cap rounds cap need < 2 ^ 63 ∧
  grow_cap rounds cap need <= cap `max` (2 * need).
Proof.
  revert cap. induction rounds as [|rounds IH]; intros cap Hc Hn Hb Hcap; simpl; [lia|].
  case_ltb; [|lia]. rewrite u64_small by lia.
  rewrite Nat2Z.inj_succ, Z.pow_succ_r in Hn by lia.
  destruct (IH (cap * 2)) as (H1 & H2 & H3); [lia..|]. lia.
Qed.

Section buffers.
Context `{Heap}.

(** What [alloc_cb] leaves: the window unchanged, and room behind it inside the buffer. *)
Lemma alloc_cb_spec c n c' base len :
  conn_ok c → 0 <= n <= 2 ^ 32 → buffer_cap c < 2 ^ 61 →
  ant_conn_alloc_cb c n = (c', base, len) →
  conn_ok c' ∧ ant_conn_buffer c' = ant_conn_buffer c ∧ sent c' = sent c ∧
  closing c' = closing c ∧ shut c' = shut c ∧
  buffer_cap c' <= (buffer_cap c `max` ANT_CONN_READ_BUFFER_SIZE) `max` (2 * (buffer_len c + n)) ∧
  match base with
  | Some b => b = buffer_offset c' + buffer_len c' ∧ n <= len ∧ b + len = buffer_cap c'
  | None => len = 0 ∧ ∃ m, realloc m = false
  end.
Proof.
  intros (Hl & Ho & Hfit) Hn Hcap. unfold ant_conn_alloc_cb.
  rewrite !(u64_small (buffer_cap c - buffer_offset c)), (u64_small (buffer_len c + n)) by lia.
  case_ltb; last first.
  { rewrite u64_small by lia. intros [= <- <- <-].
    split; [done|]. repeat (split; [done || lia|]). lia. }
  assert ((if (0 <? buffer_offset c) && negb (0 <? buffer_len c) then 0 else buffer_len c)
          = buffer_len c) as ->.
  { destruct (0 <? buffer_offset c); [|done]. case_ltb; simpl; lia. }
  set (moved := if _ && _ then _ else buffer c).
  assert (zlen moved = buffer_cap c ∧ take (Z.to_nat (buffer_len c)) moved = ant_conn_buffer c)
    as [Hmc Hmw].
  { unfold moved, buffer_cap, ant_conn_buffer, zlen in *.
    destruct (Z.ltb_spec 0 (buffer_offset c)), (Z.ltb_spec 0 (buffer_len c)); cbn [andb].
    - rewrite length_app, length_take, !length_drop, take_app_length'
        by (rewrite length_take, length_drop; lia). split; [lia|done].
    - replace (buffer_len c) with 0 by lia. done.
    - replace (buffer_offset c) with 0 by lia. done.
    - replace (buffer_len c) with 0 by lia. done. }
  rewrite !(u64_small (_ + n)) by lia.
  unfold buffer_cap in *. conn_fields. rewrite Hmc.
  case_ltb; last first.
  { intros [= <- <- <-]. unfold conn_ok, buffer_cap, ant_conn_buffer. conn_fields.
    rewrite Hmc, drop_0, Hmw, u64_small by lia. repeat (split; [done || lia|]). lia. }
  set (cap0 := if _ =? 0 then _ else _).
  assert (0 < cap0 < 2 ^ 63 ∧ cap0 <= 16384 `max` (2 * (buffer_len c + n))) as [Hcap0 Hcap1].
  { unfold cap0, ANT_CONN_READ_BUFFER_SIZE. case_ltb; [lia|]. rewrite u64_small; lia. }
  destruct (grow_cap_enough 64 cap0 (buffer_len c + n)) as (Hg1 & Hg2 & Hg3); [lia..|].
  revert Hg1 Hg2 Hg3. generalize (grow_cap 64 cap0 (buffer_len c + n)). intros g Hg1 Hg2 Hg3.
  unfold ANT_CONN_READ_BUFFER_SIZE.
  destruct (realloc g) eqn:Er; cbn [negb]; intros [= <- <- <-];
    unfold conn_ok, buffer_cap, ant_conn_buffer; conn_fields.
  - assert (zlen (moved ++ replicate (Z.to_nat (g - zlen (buffer c))) 0) = g) as Hz.
    { unfold zlen in *. rewrite length_app, length_replicate. lia. }
    rewrite Hz, u64_small by lia. rewrite drop_0, take_app_le, Hmw
      by (unfold zlen in *; lia). repeat (split; [done || lia|]). lia.
  - rewrite Hmc, drop_0, Hmw. repeat (split; [done || lia|]). eauto.
Qed.

(** No buffer: the connection is closed and keeps what waits in it. *)
Lemma read_error_spec c :
  let c' := (ant_conn_read_cb c UV_ERROR).1 in
  buffer c' = buffer c ∧ buffer_len c' = buffer_len c ∧ buffer_offset c' = buffer_offset c ∧
  sent c' = sent c ∧ shut c' = shut c.
Proof. cbn. unfold ant_conn_close. by destruct (closing c). Qed.

(** Bytes that fit behind the window become its end. *)
Lemma uv_fill_spec c chunk :
  conn_ok c → buffer_cap c < 2 ^ 63 →
  buffer_offset c + buffer_len c + zlen chunk <= buffer_cap c →
  ∃ c1, uv_fill c (buffer_offset c + buffer_len c) chunk = Ok c1 ∧
    let c' := (ant_conn_read_cb c1 (Nread (zlen chunk))).1 in
    conn_ok c' ∧ ant_conn_buffer c' = ant_conn_buffer c ++ chunk ∧ buffer_cap c' = buffer_cap c ∧
    sent c' = sent c ∧ closing c' = closing c ∧ shut c' = shut c.
Proof.
  intros (Hl & Ho & Hfit) Hcap Hin. unfold uv_fill. rewrite (proj2 (Z.ltb_ge _ _)) by lia.
  eexists. split; [done|]. cbv zeta.
  unfold ant_conn_read_cb, conn_ok, ant_conn_buffer, buffer_cap in *.
  assert (∀ A B, zlen (take (Z.to_nat (buffer_offset c + buffer_len c)) (buffer c) ++ chunk
    ++ drop (A + B)%nat (buffer c)) = zlen (take (Z.to_nat (buffer_offset c + buffer_len c))
         (buffer c)) + zlen chunk + zlen (drop (A + B)%nat (buffer c))) as Hz
    by (intros; unfold zlen; rewrite !length_app; lia).
  case_ltb; conn_fields; rewrite Hz; clear Hz; unfold zlen in *;
    rewrite length_take, length_drop.
  - destruct chunk; [|simpl in *; lia]. rewrite !app_nil_r, app_nil_l, Nat.add_0_r, take_drop.
    repeat (split; [done || lia|]). done.
  - rewrite u64_small by lia. split; [lia|]. split; [|repeat (split; [done || lia|]); done].
    rewrite (Z2Nat.inj_add (buffer_offset c)), (Z2Nat.inj_add (buffer_len c)), Nat2Z.id by lia.
    rewrite <- (take_take_drop (buffer c)), <- app_assoc.
    rewrite drop_app_length' by (rewrite length_take; lia).
    rewrite app_assoc, take_app_length'; [done|].
    rewrite length_app, length_take, length_drop. lia.
Qed.

(** A read of at most what was offered; only one without a buffer closes the connection. *)
Lemma conn_arrive_spec c n chunk :
  conn_ok c → 0 <= n <= 2 ^ 32 → buffer_cap c < 2 ^ 61 → buffer_len c < 2 ^ 60 →
  zlen chunk <= conn_offered c n →
  ∃ c', conn_arrive c n chunk = Ok c' ∧
    conn_ok c' ∧ ant_conn_buffer c' = ant_conn_buffer c ++ chunk ∧ sent c' = sent c ∧
    shut c' = shut c ∧ ((∀ m, realloc m = true) → 0 < n → closing c' = closing c) ∧
    buffer_cap c' <= (buffer_cap c `max` ANT_CONN_READ_BUFFER_SIZE) `max` (2 * (buffer_len c + n)).
Proof.
  intros Hok Hn Hcap Hlen60. unfold conn_arrive, conn_offered.
  destruct (ant_conn_alloc_cb c n) as [[c1 base] len] eqn:E. cbn [snd]. intros Hchunk.
  apply alloc_cb_spec in E as (Hok1 & Hw & Hs & Hcl & Hsh & Hb & Hroom); [|done|done|done].
  rewrite <- Hw, <- Hs, <- Hcl, <- Hsh. clear Hw Hs Hcl Hsh.
  assert (len = 0 → ((∀ m, realloc m = true) → 0 < n → False) →
    ∃ c', Ok (ant_conn_read_cb c1 UV_ERROR).1 = Ok c' ∧
    conn_ok c' ∧ ant_conn_buffer c' = ant_conn_buffer c1 ++ chunk ∧ sent c' = sent c1 ∧
    shut c' = shut c1 ∧ ((∀ m, realloc m = true) → 0 < n → closing c' = closing c1) ∧
    buffer_cap c' <= (buffer_cap c `max` ANT_CONN_READ_BUFFER_SIZE) `max` (2 * (buffer_len c + n)))
    as Hrefused.
  { intros E0 Hno. eexists. split; [done|].
    destruct chunk; [|unfold zlen in *; simpl in *; lia]. rewrite app_nil_r.
    destruct (read_error_spec c1) as (E1 & E2 & E3 & E4 & E5).
    unfold conn_ok, ant_conn_buffer, buffer_cap in *. rewrite E1, E2, E3, E4, E5.
    repeat (split; [done|]). split; [|done]. intros Hr H0. by destruct (Hno Hr H0). }
  destruct base as [base|].
  - destruct Hroom as (-> & Hlen & Hend). destruct (Z.eqb_spec len 0) as [E0|E0].
    { apply Hrefused; [done|]. intros _ H0. lia. }
    destruct Hok as (Hl0 & Ho0 & Hfit0). pose proof Hok1 as (Hl & Ho & Hfit).
    unfold ANT_CONN_READ_BUFFER_SIZE in *.
    destruct (uv_fill_spec c1 chunk Hok1) as (c2 & -> & Hok2 & Hw2 & Hcap2 & Hs2 & Hcl2 & Hsh2);
      [lia|lia|]. cbn [mbind outcome_bind]. eexists. split; [done|].
    repeat (split; [done|]). rewrite Hcap2. done.
  - destruct Hroom as [-> [m Hm]]. apply Hrefused; [done|]. intros Hr _. by rewrite Hr in Hm.
Qed.

(** With memory, libuv is offered at least what it suggests. *)
Lemma conn_offered_enough c n :
  conn_ok c → 0 <= n <= 2 ^ 32 → buffer_cap c < 2 ^ 61 → (∀ m, realloc m = true) →
  n <= conn_offered c n.
Proof.
  intros Hok Hn Hcap Hr. unfold conn_offered.
  destruct (ant_conn_alloc_cb c n) as [[c1 base] len] eqn:E. cbn [snd].
  apply alloc_cb_spec in E as (_ & _ & _ & _ & _ & _ & Hroom); [|done|done|done].
  destruct base as [base|]; [lia|]. destruct Hroom as [_ [m Hm]]. by rewrite Hr in Hm.
Qed.

Lemma conn_consume_spec c n :
  conn_ok c → 0 <= n →
  conn_ok (ant_conn_consume c n) ∧
  ant_conn_buffer (ant_conn_consume c n) = drop (Z.to_nat n) (ant_conn_buffer c) ∧
  buffer_cap (ant_conn_consume c n) = buffer_cap c.
Proof.
  intros (Hl & Ho & Hfit) Hn. unfold ant_conn_consume, conn_ok, ant_conn_buffer, buffer_cap in *.
  destruct (Z.eqb_spec (buffer_len c) 0) as [E|]; cbn [orb].
  { rewrite E, take_0, drop_nil. split; [lia|done]. }
  destruct (Z.eqb_spec n 0) as [->|]; [by rewrite drop_0|].
  case_ltb; conn_fields; (split; [lia|]); (split; [|done]).
  - rewrite (drop_ge (take _ _)); [done|]. rewrite length_take. lia.
  - rewrite skipn_firstn_comm, drop_drop. f_equal; [lia|]. f_equal. lia.
Qed.

Lemma conn_overwrite_spec c w :
  conn_ok c → length w = length (ant_conn_buffer c) →
  conn_ok (ant_conn_overwrite c w) ∧ ant_conn_buffer (ant_conn_overwrite c w) = w.
Proof.
  intros Hok Hw. pose proof (zlen_ant_conn_buffer c Hok) as Hz. destruct Hok as (Hl & Ho & Hfit).
  unfold ant_conn_overwrite, conn_ok, buffer_cap, zlen in *. unfold ant_conn_buffer at 1.
  conn_fields. rewrite !length_app, length_take, length_drop. split; [lia|].
  rewrite drop_app_length' by (rewrite length_take; lia).
  rewrite take_app_length'; [done|lia].
Qed.

End buffers.

(** ** What a protocol may rely on *)

(** A connection seen by a protocol: the bytes that wait to be read, which it may overwrite in
    place and consume, the frames it has sent, whether it is closing, and whether its end was
    asked for.  libuv suggests a size
    for every read and reads up to [c_offered] bytes.  [c_room c n] says that [n] more bytes can
    arrive. *)
Class Conn (C : Type) := {
  c_buffer : C → list Z;
  c_offered : C → Z → Z;
  c_arrive : C → Z → list Z → outcome C;
  c_overwrite : C → list Z → C;
  c_consume : C → Z → C;
  c_write : C → list Z → C * bool;
  c_close : C → C;
  c_shutdown : C → C;
  c_closing : C → bool;
  c_ending : C → bool;
  c_sent : C → list (list Z);
  c_ok : C → Prop;
  c_room : C → Z → Prop;
  c_arrive_law c n sz chunk :
    c_ok c → c_room c n → 0 < sz <= 2 ^ 32 → zlen chunk <= n → zlen chunk <= c_offered c sz →
    ∃ c', c_arrive c sz chunk = Ok c' ∧ c_ok c' ∧ c_room c' (n - zlen chunk) ∧
          c_buffer c' = c_buffer c ++ chunk ∧ c_sent c' = c_sent c ∧ c_closing c' = c_closing c;
  c_overwrite_law c w :
    c_ok c → length w = length (c_buffer c) →
    let c' := c_overwrite c w in
    c_ok c' ∧ c_buffer c' = w ∧ c_sent c' = c_sent c ∧ c_closing c' = c_closing c ∧
    ∀ n, c_room c n → c_room c' n;
  c_consume_law c k :
    c_ok c → 0 <= k →
    let c' := c_consume c k in
    c_ok c' ∧ c_buffer c' = drop (Z.to_nat k) (c_buffer c) ∧ c_sent c' = c_sent c ∧
    c_closing c' = c_closing c ∧ ∀ n, c_room c n → c_room c' n;
  c_write_law c data :
    c_ok c → zlen data < 2 ^ 32 →
    let '(c', taken) := c_write c data in
    c_ok c' ∧ c_buffer c' = c_buffer c ∧ c_closing c' = c_closing c ∧
    c_sent c' = (if taken then c_sent c ++ [data] else c_sent c) ∧
    (c_closing c = true → taken = false) ∧ ∀ n, c_room c n → c_room c' n;
  c_close_law c :
    c_ok c →
    let c' := c_close c in
    c_ok c' ∧ c_buffer c' = c_buffer c ∧ c_sent c' = c_sent c ∧ c_closing c' = true;
  c_shutdown_law c :
    c_ok c →
    let c' := c_shutdown c in
    c_ok c' ∧ c_buffer c' = c_buffer c ∧ c_sent c' = c_sent c ∧ c_ending c' = true
}.

(** Memory for the buffer is not refused, and its sizes stay far from the width of [size_t]. *)
Definition conn_room `{Heap} (c : ant_conn_t) (n : Z) : Prop :=
  (∀ m, realloc m = true) ∧ buffer_cap c < 2 ^ 61 ∧ buffer_len c + n < 2 ^ 59.

Lemma ant_conn_write_spec `{Heap} `{Uv} c data :
  conn_ok c → zlen data < 2 ^ 32 →
  let '(c', taken) := ant_conn_write c data in
  conn_ok c' ∧ ant_conn_buffer c' = ant_conn_buffer c ∧ closing c' = closing c ∧
  sent c' = (if taken then sent c ++ [data] else sent c) ∧ (closing c = true → taken = false).
Proof.
  intros Hok Hd. unfold ant_conn_write. destruct (closing c) eqn:Ec; [by rewrite ?Ec|].
  destruct (calloc _); [|by rewrite ?Ec]. cbn [negb].
  rewrite u32_small by (unfold zlen in *; lia).
  rewrite (take_ge data) by (unfold zlen in *; lia).
  destruct (uv_write_ok data); [done|by rewrite ?Ec].
Qed.

Lemma ant_conn_close_spec c :
  conn_ok c → conn_ok (ant_conn_close c) ∧ ant_conn_buffer (ant_conn_close c) = ant_conn_buffer c ∧
  sent (ant_conn_close c) = sent c ∧ closing (ant_conn_close c) = true.
Proof. intros Hok. unfold ant_conn_close. by destruct (closing c) eqn:E; rewrite ?E. Qed.

Lemma conn_arrive_room `{Heap} c n sz chunk :
  conn_ok c → conn_room c n → 0 < sz <= 2 ^ 32 → zlen chunk <= n → zlen chunk <= conn_offered c sz →
  ∃ c', conn_arrive c sz chunk = Ok c' ∧ conn_ok c' ∧
    conn_room c' (n - zlen chunk) ∧ ant_conn_buffer c' = ant_conn_buffer c ++ chunk ∧
    sent c' = sent c ∧ closing c' = closing c.
Proof.
  intros Hok (Hr & Hcap & Hlen) Hsz Hn Hoff.
  destruct (conn_arrive_spec c sz chunk Hok) as (c' & Ec & Hok' & Hw & Hs & _ & Hcl & Hcap');
    [lia|done|unfold zlen in *; lia|done|].
  exists c'. do 2 (split; [done|]). split; [|split; [done|split; [done|apply Hcl; [done|lia]]]].
  unfold ANT_CONN_READ_BUFFER_SIZE in *.
  assert (buffer_len c' = buffer_len c + zlen chunk) as E.
  { rewrite <- !zlen_ant_conn_buffer, Hw by done. unfold zlen. rewrite length_app. lia. }
  split; [done|]. unfold zlen in *. lia.
Qed.

Lemma conn_room_consume `{Heap} c k n :
  conn_ok c → 0 <= k → conn_room c n → conn_room (ant_conn_consume c k) n.
Proof.
  intros Hok Hk (Hr & Hcap & Hlen). destruct (conn_consume_spec c k Hok Hk) as (Hok' & Hw & Hc).
  split; [done|]. rewrite Hc. split; [done|].
  rewrite <- (zlen_ant_conn_buffer _ Hok'), Hw. rewrite <- (zlen_ant_conn_buffer c Hok) in Hlen.
  unfold zlen in *. rewrite length_drop. lia.
Qed.

Lemma conn_room_overwrite `{Heap} c w n :
  conn_ok c → length w = length (ant_conn_buffer c) → conn_room c n →
  conn_room (ant_conn_overwrite c w) n.
Proof.
  intros Hok Hw (Hr & Hcap & Hlen). pose proof (zlen_ant_conn_buffer c Hok) as Hz.
  destruct Hok as (Hl & Ho & Hfit). split; [done|].
  unfold buffer_cap, ant_conn_overwrite, zlen in *. conn_fields.
  rewrite !length_app, length_take, length_drop. lia.
Qed.

#[global] Program Instance ant_conn_Conn `{Heap} `{Uv} : Conn ant_conn_t := {
  c_buffer := ant_conn_buffer;
  c_offered := conn_offered;
  c_arrive := conn_arrive;
  c_overwrite := ant_conn_overwrite;
  c_consume := ant_conn_consume;
  c_write := ant_conn_write;
  c_close := ant_conn_close;
  c_shutdown := ant_conn_shutdown;
  c_closing := closing;
  c_ending := λ c, closing c || shut c;
  c_sent := sent;
  c_ok := conn_ok;
  c_room := conn_room
}.
Next Obligation. intros. by apply conn_arrive_room. Qed.
Next Obligation.
  intros ? ? c w Hok Hw. destruct (conn_overwrite_spec c w Hok Hw).
  repeat (split; [done|]). intros n. by apply conn_room_overwrite.
Qed.
Next Obligation.
  intros ? ? c k Hok Hk. destruct (conn_consume_spec c k Hok Hk) as (? & ? & _).
  split; [done|]. split; [done|]. split; [|split].
  - unfold ant_conn_consume. by repeat case_match.
  - unfold ant_conn_consume. by repeat case_match.
  - intros n. by apply conn_room_consume.
Qed.
Next Obligation.
  intros ? ? c data Hok Hd. pose proof (ant_conn_write_spec c data Hok Hd) as Hs.
  destruct (ant_conn_write c data) as [c' taken] eqn:E. destruct Hs as (? & ? & ? & ? & ?).
  repeat (split; [done|]). intros n (Hr & Hc). split; [done|].
  unfold ant_conn_write in E. repeat case_match; simplify_eq; done.
Qed.
Next Obligation. intros. by apply ant_conn_close_spec. Qed.
Next Obligation.
  intros ? ? c Hok. destruct (ant_conn_close_spec c Hok) as (? & ? & ? & E).
  unfold ant_conn_shutdown. destruct (closing c) eqn:Ec; [by rewrite Ec|].
  destruct (calloc _); cbn [negb]; [|by rewrite E].
  destruct uv_shutdown_ok; [by cbn; rewrite orb_true_r|by rewrite E].
Qed.

(** ** The theorem *)

(** What happens to the read side of a connection: a read of libuv, for which it suggested a
    size, or a protocol that has used the first [n] bytes. *)
Inductive conn_op :=
  | OpRead (suggested_size : Z) (chunk : list Z)
  | OpConsume (n : Z).

Fixpoint conn_run `{Heap} (c : ant_conn_t) (ops : list conn_op) : outcome ant_conn_t :=
  match ops with
  | [] => Ok c
  | OpRead sz chunk :: ops => c ← conn_arrive c sz chunk; conn_run c ops
  | OpConsume n :: ops => conn_run (ant_conn_consume c n) ops
  end.

(** The reads libuv can make on the way: whatever size it suggests, it stores at most [buf->len]
    bytes. *)
Fixpoint libuv_reads `{Heap} (c : ant_conn_t) (ops : list conn_op) : Prop :=
  match ops with
  | [] => True
  | OpRead sz chunk :: ops =>
      0 <= sz <= 2 ^ 32 ∧ zlen chunk <= conn_offered c sz ∧
      ∀ c', conn_arrive c sz chunk = Ok c' → libuv_reads c' ops
  | OpConsume n :: ops => 0 <= n ∧ libuv_reads (ant_conn_consume c n) ops
  end.

(** The same as a test. *)
Fixpoint libuv_readsb `{Heap} (c : ant_conn_t) (ops : list conn_op) : bool :=
  match ops with
  | [] => true
  | OpRead sz chunk :: ops =>
      (0 <=? sz) && (sz <=? 2 ^ 32) && (zlen chunk <=? conn_offered c sz) &&
      match conn_arrive c sz chunk with Ok c' => libuv_readsb c' ops | _ => true end
  | OpConsume n :: ops => (0 <=? n) && libuv_readsb (ant_conn_consume c n) ops
  end.

Lemma libuv_readsb_true `{Heap} c ops : libuv_readsb c ops = true → libuv_reads c ops.
Proof.
  revert c. induction ops as [|[sz chunk|n] ops IH]; intros c; cbn [libuv_readsb libuv_reads]; [done|..];
    rewrite !andb_true_iff, !Z.leb_le.
  - intros [[Hsz Hc] Hr]. split; [done|]. split; [done|]. intros c' E. rewrite E in Hr. by apply IH.
  - intros [Hn Hr]. split; [done|]. by apply IH.
Qed.

(** The queue of bytes a connection stands for. *)
Fixpoint waiting (queue : list Z) (ops : list conn_op) : list Z :=
  match ops with
  | [] => queue
  | OpRead _ chunk :: ops => waiting (queue ++ chunk) ops
  | OpConsume n :: ops => waiting (drop (Z.to_nat n) queue) ops
  end.

Definition op_bytes (op : conn_op) : Z :=
  match op with OpRead _ chunk => zlen chunk | OpConsume _ => 0 end.

Definition total_bytes (ops : list conn_op) : Z := foldr (λ op n, op_bytes op + n) 0 ops.

Definition suggests (op : conn_op) : Prop :=
  match op with OpRead sz _ => 0 < sz | OpConsume _ => True end.

Lemma total_bytes_nonneg ops : 0 <= total_bytes ops.
Proof. induction ops as [|[sz chunk|n] ops IH]; simpl; unfold zlen; lia. Qed.

Lemma consume_closing c n : closing (ant_conn_consume c n) = closing c.
Proof. unfold ant_conn_consume. by repeat case_match. Qed.

Lemma conn_run_spec `{Heap} c ops :
  libuv_reads c ops →
  conn_ok c → buffer_cap c < 2 ^ 61 → buffer_len c + total_bytes ops < 2 ^ 59 →
  ∃ c', conn_run c ops = Ok c' ∧ conn_ok c' ∧ buffer_cap c' < 2 ^ 61 ∧
        ant_conn_buffer c' = waiting (ant_conn_buffer c) ops ∧
        ((∀ m, realloc m = true) → Forall suggests ops → closing c' = closing c).
Proof.
  revert c. induction ops as [|[sz chunk|n] ops IH]; intros c Hops Hok Hcap Htot; [by exists c|..];
    pose proof (total_bytes_nonneg ops); pose proof (zlen_ant_conn_buffer c Hok) as Hl; simpl in *.
  - destruct Hops as (Hsz & Hoff & Hops).
    destruct (conn_arrive_spec c sz chunk Hok) as (c1 & E1 & Hok1 & Hw & _ & _ & Hcl & Hc1);
      [done|done|unfold zlen in *; lia|done|]. rewrite E1. cbn [mbind outcome_bind].
    destruct (IH c1 (Hops c1 E1) Hok1) as (c2 & E2 & Hok2 & Hcap2 & Hw2 & Hcl2).
    { unfold ANT_CONN_READ_BUFFER_SIZE, zlen in *. lia. }
    { rewrite <- (zlen_ant_conn_buffer c1 Hok1), Hw. unfold zlen in *. rewrite length_app. lia. }
    exists c2. rewrite Hw in Hw2. repeat (split; [done|]).
    intros Hr [Hs Hss]%Forall_cons. rewrite <- Hcl by done. by apply Hcl2.
  - destruct Hops as [Hn Hops]. destruct (conn_consume_spec c n Hok Hn) as (Hok1 & Hw & Hc1).
    destruct (IH _ Hops Hok1) as (c2 & E2 & Hok2 & Hcap2 & Hw2 & Hcl2); [lia| |].
    { rewrite <- (zlen_ant_conn_buffer _ Hok1), Hw. unfold zlen in *. rewrite length_drop. lia. }
    exists c2. rewrite Hw in Hw2. repeat (split; [done|]).
    intros Hr [_ Hss]%Forall_cons. rewrite <- (consume_closing c n). by apply Hcl2.
Qed.


