(* ===== verification/WebSocket.v ===== *)
(** * WebSocket frames

    Models src/http/websocket.c and include/http/websocket.h: the frame parser and encoder,
    masking, the close frame, and the header tests of the opening handshake.  A byte buffer is
    the list of its bytes; a C string is the list of the bytes before its terminator.  Every
    caller passes the address of a frame, so the test of [out] for NULL is left out, and a
    NULL [data] is the empty list. *)

From S2P Require Import Prelude Utils.

(** ** Data *)

Inductive ant_ws_frame_result_t :=
  | ANT_WS_FRAME_INCOMPLETE
  | ANT_WS_FRAME_OK
  | ANT_WS_FRAME_PROTOCOL_ERROR.

Definition ANT_WS_OPCODE_CONTINUATION : Z := 0x0.
Definition ANT_WS_OPCODE_TEXT : Z := 0x1.
Definition ANT_WS_OPCODE_BINARY : Z := 0x2.
Definition ANT_WS_OPCODE_CLOSE : Z := 0x8.
Definition ANT_WS_OPCODE_PING : Z := 0x9.
Definition ANT_WS_OPCODE_PONG : Z := 0xA.

(** [payload] is the [payload_len] bytes the pointer is at. *)
Record ant_ws_frame_t := mk_frame {
  payload : list Z;
  payload_len : Z;
  consumed_len : Z;
  opcode : Z;
  mask : list Z;
  fin : bool;
  rsv1 : bool;
  masked : bool;
  owned : bool
}.

Definition zero_frame : ant_ws_frame_t :=
  mk_frame [] 0 0 0 [0; 0; 0; 0] false false false false.

Definition ant_ws_frame_clear (frame : ant_ws_frame_t) : ant_ws_frame_t := zero_frame.

(** ** Masking *)

(** The bytes of a word, lowest first. *)
Fixpoint le_bytes (n : nat) (w : Z) : list Z :=
  match n with
  | O => []
  | S n => w mod 256 :: le_bytes n (w / 256)
  end.

(** The loop over whole words: the data and the index it stops at. *)
Fixpoint unmask_words (rounds i : nat) (data : list Z) (mask64 : Z) : list Z * nat :=
  match rounds with
  | O => (data, i)
  | S rounds =>
      if (i + 8 <=? length data)%nat then
        let word := le_word (take 8 (drop i data)) ^' mask64 in
        unmask_words rounds (i + 8)
          (take i data ++ le_bytes 8 word ++ drop (i + 8) data) mask64
      else (data, i)
  end.

(** The loop over the bytes that are left. *)
Fixpoint unmask_bytes (rounds i : nat) (data mask : list Z) : list Z :=
  match rounds with
  | O => data
  | S rounds =>
      if (i <? length data)%nat then
        unmask_bytes rounds (S i)
          (<[i := at_ data i ^' at_ mask (Z.to_nat (Z.of_nat i &' 3))]> data) mask
      else data
  end.

Definition ant_ws_unmask (data mask : list Z) : list Z :=
  let len := length data in
  let m k := at_ mask k in
  let '(data, i) :=
    if (8 <=? len)%nat
    then unmask_words len 0 data (le_word [m 0%nat; m 1%nat; m 2%nat; m 3%nat;
                                           m 0%nat; m 1%nat; m 2%nat; m 3%nat])
    else (data, 0%nat) in
  unmask_bytes len i data mask.

(** ** Parsing *)

Definition ant_ws_read_u64_be (data : list Z) : Z :=
  foldl (λ value i, u64 (value <<' 8) |' at_ data i) 0 (seq 0 8).

(** The branch on the seven-bit length: a result to return, or [payload_len] and [pos]. *)
Definition extended_length (data : list Z) (payload_len : Z)
    : ant_ws_frame_result_t + (Z * nat) :=
  let len := zlen data in
  if payload_len =? 126 then
    if len <? 2 + 2 then inl ANT_WS_FRAME_INCOMPLETE
    else inr (u64 (at_ data 2 <<' 8) |' at_ data 3, 4%nat)
  else if payload_len =? 127 then
    if len <? 2 + 8 then inl ANT_WS_FRAME_INCOMPLETE
    else
      let payload_len := ant_ws_read_u64_be (drop 2 data) in
      if negb (payload_len &' (1 <<' 63) =? 0) then inl ANT_WS_FRAME_PROTOCOL_ERROR
      else inr (payload_len, 10%nat)
  else inr (payload_len, 2%nat).

(** The tests of the first two bytes. *)
Definition header_refused (data : list Z) (require_mask allow_rsv1 : bool) : bool :=
  let d0 := at_ data 0 in
  let op := d0 &' 0x0f in
  let is_masked := negb (at_ data 1 &' 0x80 =? 0) in
  let short_len := at_ data 1 &' 0x7f in
  negb (d0 &' 0x30 =? 0)
  || negb (d0 &' 0x40 =? 0) && negb allow_rsv1
  || require_mask && negb is_masked
  || (0x8 <=? op) && ((d0 &' 0x80 =? 0) || (125 <? short_len))
  || (0x8 <=? op) && negb (d0 &' 0x40 =? 0).

Definition set_mask (f : ant_ws_frame_t) (m : list Z) : ant_ws_frame_t :=
  mk_frame (payload f) (payload_len f) (consumed_len f) (opcode f) m (fin f) (rsv1 f)
    (masked f) (owned f).

(** The result, [*out], and the buffer, which parsing in place unmasks. *)
Definition ant_ws_parse_frame `{Heap} (data : list Z) (require_mask allow_rsv1 inplace : bool)
    : ant_ws_frame_result_t * ant_ws_frame_t * list Z :=
  let len := zlen data in
  if len <? 2 then (ANT_WS_FRAME_INCOMPLETE, zero_frame, data)
  else
    let op := at_ data 0 &' 0x0f in
    let is_masked := negb (at_ data 1 &' 0x80 =? 0) in
    if header_refused data require_mask allow_rsv1
    then (ANT_WS_FRAME_PROTOCOL_ERROR, zero_frame, data)
    else
      match extended_length data (at_ data 1 &' 0x7f) with
      | inl r => (r, zero_frame, data)
      | inr (plen, pos) =>
          if is_masked && (len <? Z.of_nat pos + 4)
          then (ANT_WS_FRAME_INCOMPLETE, zero_frame, data)
          else
            let out := if is_masked then set_mask zero_frame (take 4 (drop pos data))
                       else zero_frame in
            let pos := if is_masked then (pos + 4)%nat else pos in
            if len <? u64 (Z.of_nat pos + plen) then (ANT_WS_FRAME_INCOMPLETE, out, data)
            else if negb inplace && negb (malloc (u64 (plen + 1)))
            then (ANT_WS_FRAME_PROTOCOL_ERROR, out, data)
            else
              let raw := take (Z.to_nat plen) (drop pos data) in
              let body := if is_masked && (0 <? plen) then ant_ws_unmask raw (mask out)
                          else raw in
              (ANT_WS_FRAME_OK,
               mk_frame body plen (u64 (Z.of_nat pos + plen)) op (mask out)
                 (negb (at_ data 0 &' 0x80 =? 0)) (negb (at_ data 0 &' 0x40 =? 0))
                 is_masked (negb inplace),
               if inplace then take pos data ++ body ++ drop (pos + Z.to_nat plen) data
               else data)
      end.

(** ** Encoding *)

Definition ant_ws_write_u64_be (value : Z) : list Z :=
  rev (le_bytes 8 value).

Definition UINT16_MAX : Z := 65535.

(** The one to nine bytes of the mask bit and the length. *)
Definition length_field (plen : Z) (mask : bool) : list Z :=
  let m := if mask then 0x80 else 0 in
  if plen <? 126 then [u8 (m |' u8 plen)]
  else if plen <=? UINT16_MAX
  then [u8 (m |' 126); u8 (plen >>' 8); u8 (plen &' 0xff)]
  else u8 (m |' 127) :: ant_ws_write_u64_be plen.

(** [random]: what [uv_random] fills the masking key with, [None] when it fails.  The frame,
    [None] for NULL; a write past the allocation is [Ub]. *)
Definition ant_ws_encode_frame `{Heap} (random : option (list Z)) (op : Z)
    (payload : option (list Z)) (plen : nat) (mask rsv1 : bool) : outcome (option (list Z)) :=
  let n := Z.of_nat plen in
  let header_len := if UINT16_MAX <? n then 2 + 8 else if 126 <=? n then 2 + 2 else 2 in
  let size := u64 (header_len + (if mask then 4 else 0) + n) in
  if negb (malloc size) then Ok None
  else
    let byte i := match payload with Some p => at_ p i | None => 0 end in
    let written key :=
      let out := u8 (0x80 |' (if rsv1 then 0x40 else 0) |' u8 op)
        :: length_field n mask ++ (if mask then key else [])
        ++ ((λ i, if mask then byte i ^' at_ key (i mod 4) else byte i) <$> seq 0 plen) in
      if size <? zlen out then Ub else Ok (Some out) in
    if mask then match random with None => Ok None | Some key => written key end
    else written [0; 0; 0; 0].

Definition ant_ws_encode_close_frame `{Heap} (random : option (list Z)) (code : Z)
    (reason : option (list Z)) (mask : bool) : outcome (option (list Z)) :=
  let text := take 123 (default [] reason) in
  ant_ws_encode_frame random ANT_WS_OPCODE_CLOSE
    (Some (u8 (code >>' 8) :: u8 (code &' 0xff) :: text)) (2 + length text) mask false.

(** ** Words and bytes *)

Lemma lxor_byte a b : byte_ok a → byte_ok b → byte_ok (a ^' b).
Proof.
  unfold byte_ok. intros Ha Hb. split; [apply Z.lxor_nonneg; lia|].
  replace (a ^' b) with ((a ^' b) mod 2 ^ 8); [apply (Z.mod_pos_bound _ 256); lia|].
  apply Z.bits_inj'. intros i Hi. destruct (Z.lt_ge_cases i 8).
  - rewrite Z.mod_pow2_bits_low by done. done.
  - rewrite Z.mod_pow2_bits_high, Z.lxor_spec, !(testbit_above _ 8) by (done || lia). done.
Qed.

Lemma testbit_digit a x i :
  byte_ok a → 0 <= i →
  Z.testbit (a + 256 * x) i = if i <? 8 then Z.testbit a i else Z.testbit x (i - 8).
Proof.
  intros Ha Hi. replace (a + 256 * x) with (x * 2 ^ 8 + a) by lia.
  rewrite <- lor_add_low, Z.lor_spec, <- Z.shiftl_mul_pow2 by (unfold byte_ok in Ha; lia).
  case_ltb.
  - by rewrite Z.shiftl_spec_low.
  - rewrite Z.shiftl_spec, (testbit_above a 8) by (unfold byte_ok in Ha; lia).
    apply orb_false_r.
Qed.

Lemma lxor_digits a b x y :
  byte_ok a → byte_ok b → (a + 256 * x) ^' (b + 256 * y) = (a ^' b) + 256 * (x ^' y).
Proof.
  intros Ha Hb. apply Z.bits_inj'. intros i Hi.
  rewrite Z.lxor_spec, !testbit_digit by (done || by apply lxor_byte).
  case_ltb; by rewrite Z.lxor_spec.
Qed.

Lemma le_word_lxor l m :
  Forall byte_ok l → Forall byte_ok m → length l = length m →
  le_word l ^' le_word m = le_word (zip_with Z.lxor l m).
Proof.
  intros Hl. revert m. induction Hl as [|a l Ha Hl IH]; intros [|b m] Hm Hlen; try done.
  apply Forall_cons in Hm as [Hb Hm]. simpl in Hlen |- *.
  rewrite lxor_digits, IH by (done || lia). done.
Qed.

Lemma le_bytes_word l : Forall byte_ok l → le_bytes (length l) (le_word l) = l.
Proof.
  induction 1 as [|a l Ha Hl IH]; [done|]. simpl.
  destruct (div_mod_digits a (le_word l) 256) as [-> ->]; [done|]. by rewrite IH.
Qed.

Lemma le_bytes_ok n w : Forall byte_ok (le_bytes n w).
Proof.
  revert w. induction n as [|n IH]; intros w; constructor; auto.
  apply Z.mod_pos_bound. lia.
Qed.

Lemma length_le_bytes n w : length (le_bytes n w) = n.
Proof. revert w. induction n as [|n IH]; intros w; simpl; auto. Qed.

Lemma le_word_bytes n w : 0 <= w < 256 ^ Z.of_nat n → le_word (le_bytes n w) = w.
Proof.
  revert w. induction n as [|n IH]; intros w Hw; simpl; [lia|].
  rewrite IH; [pose proof (Z.div_mod w 256); lia|].
  rewrite Nat2Z.inj_succ, Z.pow_succ_r in Hw by lia.
  split; [apply Z.div_pos; lia|]. apply Z.div_lt_upper_bound; lia.
Qed.

(** ** Masking, byte by byte *)

Definition mix (mask : list Z) (i : nat) (data : list Z) : list Z :=
  imap (λ k b, b ^' at_ mask ((i + k) mod 4)) data.

Definition mask_ok (mask : list Z) : Prop := Forall byte_ok mask ∧ length mask = 4%nat.

Lemma length_mix mask i data : length (mix mask i data) = length data.
Proof. apply length_imap. Qed.

Lemma mix_app mask i l1 l2 :
  mix mask i (l1 ++ l2) = mix mask i l1 ++ mix mask (i + length l1) l2.
Proof.
  unfold mix. rewrite imap_app. f_equal. apply imap_ext. intros k x _. unfold compose.
  by rewrite Nat.add_assoc.
Qed.

Lemma mix_cons mask i b l : mix mask i (b :: l) = (b ^' at_ mask (i mod 4)) :: mix mask (S i) l.
Proof.
  unfold mix. cbn [imap]. rewrite Nat.add_0_r. f_equal. apply imap_ext. intros k x _.
  unfold compose.
  by rewrite Nat.add_succ_r.
Qed.

Lemma at_mask_ok mask k : mask_ok mask → byte_ok (at_ mask k).
Proof. intros [Hm _]. apply Forall_at; [done|]. unfold byte_ok. lia. Qed.

Lemma mix_byte_ok mask i data :
  mask_ok mask → Forall byte_ok data → Forall byte_ok (mix mask i data).
Proof.
  intros Hm Hd. revert i. induction Hd as [|b l Hb Hl IH]; intros i; [constructor|].
  rewrite mix_cons. constructor; [|done]. apply lxor_byte; [done|]. by apply at_mask_ok.
Qed.

Lemma mix_shift mask i data : mix mask (i + 8) data = mix mask i data.
Proof.
  unfold mix. apply imap_ext. intros k x _. cbv beta.
  replace (i + 8 + k)%nat with (i + k + 2 * 4)%nat by lia.
  by rewrite Nat.Div0.mod_add.
Qed.

(** Masking twice restores the data. *)
Lemma mix_mix mask i data : mix mask i (mix mask i data) = data.
Proof.
  revert i. induction data as [|b l IH]; intros i; [done|].
  rewrite !mix_cons, IH, Z.lxor_assoc, Z.lxor_nilpotent, Z.lxor_0_r. done.
Qed.

(** Eight bytes xor-ed as one word. *)
Lemma mix_word mask i l :
  mask_ok mask → Forall byte_ok l → length l = 8%nat → (i mod 4 = 0)%nat →
  let m k := at_ mask k in
  le_bytes 8 (le_word l ^' le_word [m 0%nat; m 1%nat; m 2%nat; m 3%nat;
                                    m 0%nat; m 1%nat; m 2%nat; m 3%nat])
  = mix mask i l.
Proof.
  intros Hm Hl Hlen Hi m.
  assert (mix mask i l = mix mask 0 l) as ->.
  { unfold mix. apply imap_ext. intros k x _. cbv beta.
    by rewrite Nat.Div0.add_mod, Hi, !Nat.add_0_l, Nat.Div0.mod_mod. }
  assert (∀ k, byte_ok (m k)) as Hk by (intros; by apply at_mask_ok).
  rewrite le_word_lxor
    by (done || (repeat (apply Forall_cons_2; [apply Hk| ]); done)).
  do 8 (destruct l as [|? l]; [done|]). destruct l; [|done].
  transitivity (mix mask 0 [z; z0; z1; z2; z3; z4; z5; z6]); [|done].
  rewrite <- (le_bytes_word (mix mask 0 _)) by (by apply mix_byte_ok).
  rewrite length_mix. done.
Qed.

Lemma unmask_words_spec mask64 mask rounds i data :
  mask_ok mask → Forall byte_ok data → (i mod 4 = 0)%nat →
  (let m k := at_ mask k in mask64 = le_word [m 0%nat; m 1%nat; m 2%nat; m 3%nat;
                                              m 0%nat; m 1%nat; m 2%nat; m 3%nat]) →
  (i <= length data)%nat →
  ∃ j, (i <= j <= length data)%nat ∧ (j mod 4 = 0)%nat ∧
    unmask_words rounds i data mask64
    = (take i data ++ mix mask i (take (j - i) (drop i data)) ++ drop j data, j).
Proof.
  intros Hm Hd Hi E. revert i data Hd Hi. induction rounds as [|rounds IH];
    intros i data Hd Hi Hle; cbn [unmask_words].
  { exists i. rewrite Nat.sub_diag, take_0. simpl. by rewrite take_drop. }
  case_ltb; [|exists i; rewrite Nat.sub_diag, take_0; simpl; by rewrite take_drop].
  set (w := take 8 (drop i data)).
  assert (length w = 8%nat) as Hw by (unfold w; rewrite length_take, length_drop; lia).
  assert (Forall byte_ok w) as Hwb by (by apply Forall_take, Forall_drop).
  assert (le_bytes 8 (le_word w ^' mask64) = mix mask i w) as ->
    by (rewrite E; by apply mix_word).
  set (data' := take i data ++ mix mask i w ++ drop (i + 8) data).
  assert (length data' = length data) as Hl'.
  { unfold data'. rewrite !length_app, length_mix, length_take, length_drop. lia. }
  destruct (IH (i + 8)%nat data') as (j & Hj & Hj4 & ->).
  - unfold data'. repeat apply Forall_app_2; [by apply Forall_take|by apply mix_byte_ok|].
    by apply Forall_drop.
  - replace (i + 8)%nat with (i + 2 * 4)%nat by lia. by rewrite Nat.Div0.mod_add.
  - lia.
  - exists j. split; [lia|]. split; [done|]. f_equal.
    assert (length (take i data ++ mix mask i w) = (i + 8)%nat) as Hp.
    { rewrite length_app, length_mix, length_take. lia. }
    assert (data' = (take i data ++ mix mask i w) ++ drop (i + 8) data) as ->
      by (unfold data'; by rewrite app_assoc).
    rewrite take_app_length', (drop_app_length' _ _ (i + 8)) by lia.
    rewrite drop_app_ge by lia. rewrite Hp, drop_drop.
    replace (i + 8 + (j - (i + 8)))%nat with j by lia.
    replace (j - i)%nat with (8 + (j - (i + 8)))%nat by lia.
    rewrite <- (take_take_drop _ 8), mix_app, drop_drop. fold w. rewrite Hw.
    by rewrite !app_assoc.
Qed.

Lemma land_3 i : Z.to_nat (Z.of_nat i &' 3) = (i mod 4)%nat.
Proof.
  rewrite (land_mask_eq _ 3 2) by done. change (2 ^ 2) with (Z.of_nat 4).
  by rewrite <- Nat2Z.inj_mod, Nat2Z.id.
Qed.

Lemma unmask_bytes_spec mask rounds i data :
  (i <= length data)%nat → (length data - i <= rounds)%nat →
  unmask_bytes rounds i data mask = take i data ++ mix mask i (drop i data).
Proof.
  revert i data. induction rounds as [|rounds IH]; intros i data Hi Hr; simpl.
  { rewrite drop_ge by lia. unfold mix. simpl. rewrite app_nil_r, take_ge by lia. done. }
  case_ltb; [|rewrite drop_ge by lia; unfold mix; simpl; rewrite app_nil_r, take_ge by lia; done].
  rewrite IH by (rewrite length_insert; lia).
  rewrite land_3. rewrite (drop_S data _ i (lookup_at data i ltac:(lia))), mix_cons.
  rewrite drop_insert_lt by lia.
  rewrite (take_S_r _ _ (at_ data i ^' at_ mask (i mod 4))); last first.
  { rewrite list_lookup_insert_eq by lia. done. }
  rewrite take_insert_ge by lia. by rewrite <- app_assoc.
Qed.

Lemma ant_ws_unmask_spec data mask :
  mask_ok mask → Forall byte_ok data → ant_ws_unmask data mask = mix mask 0 data.
Proof.
  intros Hm Hd. unfold ant_ws_unmask. case_ltb.
  - destruct (unmask_words_spec _ mask (length data) 0 data Hm Hd eq_refl eq_refl)
      as (j & Hj & Hj4 & E); [lia|]. cbv zeta in E. rewrite E.
    rewrite take_0, app_nil_l, drop_0, Nat.sub_0_r.
    assert (length (mix mask 0 (take j data)) = j) as Hl by (rewrite length_mix, length_take; lia).
    rewrite unmask_bytes_spec by (rewrite length_app, Hl, length_drop; lia).
    rewrite take_app_length', drop_app_length' by done.
    rewrite <- (take_drop j data) at 3. rewrite mix_app. f_equal.
    by rewrite length_take, Nat.min_l by lia.
  - rewrite unmask_bytes_spec by lia. done.
Qed.

(** ** Lengths in big-endian order *)

Lemma read_be_spec data k :
  Forall byte_ok data → (k <= length data)%nat → (k <= 8)%nat →
  foldl (λ value i, u64 (value <<' 8) |' at_ data i) 0 (seq 0 k) = le_word (rev (take k data)).
Proof.
  intros Hd. induction k as [|k IH]; intros Hk H8; [done|].
  rewrite seq_S, foldl_app, IH by lia. cbn [foldl]. rewrite Nat.add_0_l.
  rewrite (take_S_r _ _ _ (lookup_at data k ltac:(lia))), rev_app_distr. cbn [rev app].
  assert (Forall byte_ok (rev (take k data))) as Hr by (by apply Forall_rev, Forall_take).
  pose proof (le_word_range _ Hr) as Hw.
  assert (zlen (rev (take k data)) = Z.of_nat k) as El.
  { unfold zlen. rewrite length_rev, length_take. lia. }
  rewrite El in Hw.
  assert (256 ^ Z.of_nat k <= 256 ^ 7) by (apply Z.pow_le_mono_r; lia).
  assert (byte_ok (at_ data k)) as Hb by (apply Forall_at_lt; [done|lia]).
  rewrite shiftl_mul, u64_small by lia.
  rewrite lor_add_low by (unfold byte_ok in Hb; lia). cbn [le_word foldr]. fold (le_word (rev (take k data))).
  lia.
Qed.

Lemma ant_ws_read_u64_be_spec data :
  Forall byte_ok data → (8 <= length data)%nat →
  ant_ws_read_u64_be data = le_word (rev (take 8 data)).
Proof. intros Hd Hl. by apply read_be_spec. Qed.

Lemma ant_ws_u64_be_roundtrip n rest :
  0 <= n < 2 ^ 64 → Forall byte_ok rest →
  ant_ws_read_u64_be (ant_ws_write_u64_be n ++ rest) = n.
Proof.
  intros Hn Hr. unfold ant_ws_write_u64_be.
  assert (length (rev (le_bytes 8 n)) = 8%nat) as Hl by (by rewrite length_rev, length_le_bytes).
  rewrite ant_ws_read_u64_be_spec.
  - rewrite take_app_length', rev_involutive by done. by apply le_word_bytes.
  - apply Forall_app_2; [|done]. apply Forall_rev, le_bytes_ok.
  - rewrite length_app, Hl. lia.
Qed.

(** ** More bytes do not change an answer *)

Lemma zlen_nonneg {A} (l : list A) : 0 <= zlen l.
Proof. unfold zlen. lia. Qed.

Lemma header_refused_app data more r a :
  2 <= zlen data → header_refused (data ++ more) r a = header_refused data r a.
Proof. unfold zlen. intros Hl. unfold header_refused. rewrite !at_app_l by lia. done. Qed.

Lemma extended_length_app data more n :
  2 <= zlen data →
  extended_length data n = inl ANT_WS_FRAME_INCOMPLETE
  ∨ extended_length (data ++ more) n = extended_length data n.
Proof.
  intros Hl. unfold extended_length. rewrite zlen_app. pose proof (zlen_nonneg more).
  destruct (n =? 126).
  - case_ltb; [by left|]. right. case_ltb; [lia|].
    unfold zlen in *. by rewrite !at_app_l by lia.
  - destruct (n =? 127); [|by right]. case_ltb; [by left|]. right. case_ltb; [lia|].
    unfold zlen in *. rewrite drop_app_le by lia.
    assert (ant_ws_read_u64_be (drop 2 data ++ more) = ant_ws_read_u64_be (drop 2 data)) as ->;
      [|done].
    unfold ant_ws_read_u64_be. cbn [seq foldl].
    rewrite !at_app_l by (rewrite length_drop; lia). done.
Qed.

(** The length and the position after it, within bounds that cannot wrap. *)
Lemma extended_length_bounds data plen pos :
  Forall byte_ok data → 2 <= zlen data →
  extended_length data (at_ data 1 &' 0x7f) = inr (plen, pos) →
  0 <= plen < 2 ^ 63 ∧ (2 <= pos <= 10)%nat ∧ Z.of_nat pos <= zlen data.
Proof.
  intros Hd Hl. unfold extended_length.
  assert (∀ i, byte_ok (at_ data i)) as Hb
    by (intros; apply Forall_at; [done|unfold byte_ok; lia]).
  destruct (_ =? 126); [case_ltb; [done|]|destruct (_ =? 127); [case_ltb; [done|]|]].
  - intros [= <- <-]. pose proof (Hb 2%nat). pose proof (Hb 3%nat). unfold byte_ok in *.
    rewrite shiftl_mul, u64_small, lor_add_low by lia. lia.
  - rewrite ant_ws_read_u64_be_spec
      by (first [by apply Forall_drop | rewrite length_drop; unfold zlen in *; lia]).
    set (w := rev (take 8 (drop 2 data))).
    assert (0 <= le_word w < 2 ^ 64) as Hw.
    { assert (zlen w = 8) as Ew
        by (unfold w, zlen in *; rewrite length_rev, length_take, length_drop; lia).
      change (2 ^ 64) with (256 ^ 8). rewrite <- Ew.
      by apply le_word_range, Forall_rev, Forall_take, Forall_drop. }
    destruct (Z.eqb_spec (le_word w &' (1 <<' 63)) 0) as [E|]; [|done].
    intros [= <- <-]. split; [|lia]. split; [lia|].
    apply Z.nle_gt. intros Hge.
    assert (Z.testbit (le_word w &' (1 <<' 63)) 63 = true) as Ht; [|by rewrite E in Ht].
    rewrite Z.land_spec, Z.shiftl_spec by lia.
    change (Z.testbit 1 (63 - 63)) with true. rewrite andb_true_r, Z.testbit_true by lia.
    rewrite <- (Z.div_unique_pos (le_word w) (2 ^ 63) 1 (le_word w - 2 ^ 63)) by lia. done.
  - intros [= <- <-]. rewrite (land_mask_eq _ _ 7) by done.
    pose proof (Z.mod_pos_bound (at_ data 1) (2 ^ 7)). lia.
Qed.

Section parsing.
Context `{Heap}.

Lemma parse_app data more r a i :
  Forall byte_ok data →
  (ant_ws_parse_frame data r a i).1.1 ≠ ANT_WS_FRAME_INCOMPLETE →
  ant_ws_parse_frame (data ++ more) r a i
  = let '(res, f, data') := ant_ws_parse_frame data r a i in (res, f, data' ++ more).
Proof.
  intros Hd. unfold ant_ws_parse_frame. rewrite zlen_app. pose proof (zlen_nonneg more).
  destruct (Z.ltb_spec (zlen data) 2) as [|H2]; [done|].
  rewrite (proj2 (Z.ltb_ge (zlen data + zlen more) 2)) by lia.
  rewrite header_refused_app by lia.
  assert (2 <= length data)%nat as H2n by (unfold zlen in H2; lia).
  rewrite !(at_app_l data more) by lia.
  destruct (header_refused data r a); [done|].
  destruct (extended_length_app data more (at_ data 1 &' 0x7f) H2) as [-> | ->]; [done|].
  destruct (extended_length data _) as [res|[plen pos]] eqn:Ee; [done|].
  apply extended_length_bounds in Ee as (Hp & Hpos & Hle); [|done..].
  set (mk := negb (at_ data 1 &' 0x80 =? 0)).
  destruct (mk && (zlen data <? Z.of_nat pos + 4)) eqn:Em; [done|].
  assert (mk && (zlen data + zlen more <? Z.of_nat pos + 4) = false) as ->.
  { destruct mk; [|done]. simpl in *. apply Z.ltb_ge in Em. apply Z.ltb_ge. lia. }
  set (pos' := if mk then (pos + 4)%nat else pos).
  assert (Z.of_nat pos' <= zlen data ∧ (pos <= pos' <= 14)%nat) as [Hle' Hpos'].
  { unfold pos'. destruct mk; simpl in Em; [apply Z.ltb_ge in Em|]; lia. }
  rewrite !u64_small by lia.
  assert ((if mk then set_mask zero_frame (take 4 (drop pos (data ++ more))) else zero_frame)
          = (if mk then set_mask zero_frame (take 4 (drop pos data)) else zero_frame)) as ->.
  { unfold pos', zlen in *. destruct mk; [|done].
    rewrite drop_app_le, take_app_le by (rewrite ?length_drop; lia). done. }
  destruct (Z.ltb_spec (zlen data) (Z.of_nat pos' + plen)) as [|Hfit]; [done|].
  rewrite (proj2 (Z.ltb_ge (zlen data + zlen more) _)) by lia.
  destruct (negb i && _); [done|]. intros _. unfold zlen in Hfit, Hle'.
  rewrite !(drop_app_le data) by lia. rewrite (take_app_le (drop pos' data))
    by (rewrite length_drop; lia).
  f_equal. destruct i; [|done]. rewrite (take_app_le data) by lia. by rewrite <- !app_assoc.
Qed.

Lemma parse_bounds data r a i f data' :
  Forall byte_ok data → ant_ws_parse_frame data r a i = (ANT_WS_FRAME_OK, f, data') →
  2 <= consumed_len f <= zlen data ∧ zlen (payload f) = payload_len f ∧
  Forall byte_ok (payload f) ∧ length data' = length data ∧
  drop (Z.to_nat (consumed_len f)) data' = drop (Z.to_nat (consumed_len f)) data.
Proof.
  intros Hd. unfold ant_ws_parse_frame.
  destruct (Z.ltb_spec (zlen data) 2) as [|H2]; [done|].
  destruct (header_refused data r a); [done|].
  destruct (extended_length data _) as [res|[plen pos]] eqn:Ee.
  { unfold extended_length in Ee. intros [= -> _ _]. repeat case_match; done. }
  apply extended_length_bounds in Ee as (Hp & Hpos & Hle); [|done..].
  set (mk := negb (at_ data 1 &' 0x80 =? 0)).
  destruct (mk && (zlen data <? Z.of_nat pos + 4)) eqn:Em; [done|].
  set (pos' := if mk then (pos + 4)%nat else pos).
  assert (Z.of_nat pos' <= zlen data ∧ (pos <= pos' <= 14)%nat) as [Hle' Hpos'].
  { unfold pos'. destruct mk; simpl in Em; [apply Z.ltb_ge in Em|]; lia. }
  rewrite !u64_small by lia.
  destruct (Z.ltb_spec (zlen data) (Z.of_nat pos' + plen)) as [|Hfit]; [done|].
  destruct (negb i && _); [done|].
  set (raw := take (Z.to_nat plen) (drop pos' data)).
  assert (length raw = Z.to_nat plen) as Hraw.
  { unfold raw, zlen in *. rewrite length_take, length_drop. lia. }
  assert (Forall byte_ok raw) as Hrb by (by apply Forall_take, Forall_drop).
  assert (∃ body, (if mk && (0 <? plen) then ant_ws_unmask raw
     (mask (if mk then set_mask zero_frame (take 4 (drop pos data)) else zero_frame)) else raw)
     = body ∧ length body = Z.to_nat plen ∧ Forall byte_ok body) as (body & -> & Hbody & Hbb).
  { eexists. split; [reflexivity|]. destruct mk; [|done]. simpl. case_ltb; [|done].
    assert (mask_ok (take 4 (drop pos data))) as Hmk.
    { split; [by apply Forall_take, Forall_drop|]. unfold pos', zlen in *.
      rewrite length_take, length_drop. lia. }
    rewrite ant_ws_unmask_spec, length_mix by done. split; [done|]. by apply mix_byte_ok. }
  intros [= <- <-]. cbn [consumed_len payload payload_len]. split; [lia|].
  split; [unfold zlen; lia|]. split; [done|]. destruct i; [|done].
  unfold zlen in *. split; [rewrite !length_app, length_take, length_drop; lia|].
  rewrite app_assoc, drop_app_ge; rewrite ?length_app, ?length_take, ?Hbody; [|lia].
  rewrite drop_drop. f_equal. lia.
Qed.

(** ** What the encoder writes, read back *)

Lemma small_cases (n : Z) (P : Z → bool) :
  forallb P (seqZ 0 n) = true → ∀ x, 0 <= x < n → P x = true.
Proof.
  intros E x Hx. rewrite forallb_forall in E. apply E.
  apply list_elem_of_In, elem_of_seqZ. lia.
Qed.

(** The first byte of a frame: FIN, RSV1 and the opcode. *)
Definition first_byte (fin rsv1 : bool) (op : Z) : Z :=
  u8 ((if fin then 0x80 else 0) |' (if rsv1 then 0x40 else 0) |' u8 op).

Lemma first_byte_bits fin rsv1 op :
  0 <= op < 16 →
  let d0 := first_byte fin rsv1 op in
  byte_ok d0 ∧ d0 &' 0x0f = op ∧ d0 &' 0x30 = 0 ∧ (d0 &' 0x40 =? 0) = negb rsv1 ∧
  (d0 &' 0x80 =? 0) = negb fin.
Proof.
  intros Hop d0. split; [apply u8_range|].
  pose proof (small_cases 16 (λ op, forallb (λ '(fin, rsv1),
    let d0 := first_byte fin rsv1 op in
    (d0 &' 0x0f =? op) && (d0 &' 0x30 =? 0) && Bool.eqb (d0 &' 0x40 =? 0) (negb rsv1)
    && Bool.eqb (d0 &' 0x80 =? 0) (negb fin))
    [(true, true); (true, false); (false, true); (false, false)]) eq_refl op Hop) as E.
  rewrite forallb_forall in E. specialize (E (fin, rsv1)).
  cbv beta iota zeta in E. fold d0 in E. rewrite !andb_true_iff in E.
  destruct E as (((E1 & E2) & E3) & E4); [by destruct fin, rsv1; simpl; auto|].
  apply Z.eqb_eq in E1, E2. apply eqb_prop in E3, E4. done.
Qed.

Lemma second_byte_bits (mask : bool) n :
  0 <= n < 128 →
  let d1 := u8 ((if mask then 0x80 else 0) |' n) in
  byte_ok d1 ∧ d1 &' 0x7f = n ∧ negb (d1 &' 0x80 =? 0) = mask.
Proof.
  intros Hn d1. split; [apply u8_range|].
  pose proof (small_cases 128 (λ n, forallb (λ mask : bool,
    let d1 := u8 ((if mask then 0x80 else 0) |' n) in
    (d1 &' 0x7f =? n) && Bool.eqb (negb (d1 &' 0x80 =? 0)) mask) [true; false])
    eq_refl n Hn) as E.
  rewrite forallb_forall in E. specialize (E mask).
  cbv zeta in E. fold d1 in E. rewrite !andb_true_iff in E.
  destruct E as (E1 & E2); [by destruct mask; simpl; auto|].
  apply Z.eqb_eq in E1. apply eqb_prop in E2. done.
Qed.

Lemma at_cons_0 x l : at_ (x :: l) 0 = x.
Proof. done. Qed.

Definition header_size (n : Z) : nat :=
  if n <? 126 then 2%nat else if n <=? UINT16_MAX then 4%nat else 10%nat.

Lemma length_length_field n mask : S (length (length_field n mask)) = header_size n.
Proof.
  unfold length_field, header_size, ant_ws_write_u64_be. case_ltb; [done|].
  case_ltb; [done|]. cbn [length]. by rewrite length_rev, length_le_bytes.
Qed.

Lemma length_field_byte_ok n mask : Forall byte_ok (length_field n mask).
Proof.
  unfold length_field, ant_ws_write_u64_be.
  repeat case_match; repeat (apply Forall_cons_2; [apply u8_range|]); done.
Qed.

(** The length field of an encoded header followed by anything. *)
Lemma length_field_spec d0 n mask rest :
  0 <= n < 2 ^ 63 → Forall byte_ok rest →
  let data := d0 :: length_field n mask ++ rest in
  negb (at_ data 1 &' 0x80 =? 0) = mask ∧
  (at_ data 1 &' 0x7f <= 125 ∨ 125 < n) ∧
  extended_length data (at_ data 1 &' 0x7f) = inr (n, header_size n).
Proof.
  intros Hn Hrest data.
  assert (zlen data = Z.of_nat (header_size n) + zlen rest) as Hlen.
  { unfold data, zlen. cbn [length]. rewrite length_app, <- (length_length_field n mask). lia. }
  pose proof (zlen_nonneg rest).
  unfold data, length_field, header_size in *. rewrite !at_cons_S.
  unfold extended_length.
  destruct (Z.ltb_spec n 126); [|destruct (Z.leb_spec n UINT16_MAX)].
  - cbn [app]. rewrite !at_cons_0, (u8_small n) by lia.
    destruct (second_byte_bits mask n) as (_ & -> & ->); [lia|].
    rewrite !(proj2 (Z.eqb_neq n _)) by lia. split; [done|]. split; [lia|done].
  - cbn [app]. rewrite !at_cons_S, !at_cons_0.
    destruct (second_byte_bits mask 126) as (_ & -> & ->); [lia|].
    rewrite Z.eqb_refl. cbn [app] in Hlen. rewrite Hlen, (proj2 (Z.ltb_ge _ _)) by lia.
    split; [done|]. split; [lia|]. unfold UINT16_MAX in *.
    rewrite (land_mask_eq n 0xff 8), shiftr_div by lia.
    rewrite (u8_small (n / _)), (u8_small (n mod _)) by word.
    rewrite shiftl_mul, u64_small, lor_add_low by word. do 2 f_equal. word.
  - cbn [app]. rewrite !at_cons_0.
    destruct (second_byte_bits mask 127) as (_ & -> & ->); [lia|].
    change (127 =? 126) with false. rewrite Z.eqb_refl. cbn [app] in Hlen.
    rewrite Hlen, (proj2 (Z.ltb_ge _ _)) by lia. split; [done|]. split; [lia|].
    rewrite !skipn_cons, drop_0, ant_ws_u64_be_roundtrip by (lia || done).
    assert (n &' (1 <<' 63) = 0) as ->; [|done].
    rewrite Z.land_comm, shiftl_mul by lia. by apply land_low_0.
Qed.

Lemma fmap_seq_imap (f : nat → Z) (g : nat → Z → Z) l :
  (∀ i x, l !! i = Some x → f i = g i x) → f <$> seq 0 (length l) = imap g l.
Proof.
  intros Hfg. apply list_eq. intros i. rewrite list_lookup_fmap, list_lookup_imap.
  destruct (l !! i) as [x|] eqn:E; simpl.
  - rewrite lookup_seq_lt by (by eapply lookup_lt_Some). simpl. by rewrite (Hfg i x).
  - rewrite lookup_seq_ge by (by apply lookup_ge_None). done.
Qed.

(** A frame as RFC 6455 lays it out. *)
Definition wire (fin : bool) (op : Z) (body : list Z) (mask rsv1 : bool) (key : list Z)
    : list Z :=
  first_byte fin rsv1 op :: length_field (zlen body) mask
  ++ (if mask then key ++ mix key 0 body else body).

Lemma length_wire fin op body mask rsv1 key :
  mask_ok key →
  length (wire fin op body mask rsv1 key)
  = (header_size (zlen body) + (if mask then 4 else 0) + length body)%nat.
Proof.
  intros [_ Hk]. unfold wire. cbn [length].
  rewrite length_app, <- (length_length_field (zlen body) mask).
  destruct mask; [|lia]. rewrite length_app, length_mix. lia.
Qed.

Lemma zlen_wire fin op body mask rsv1 key :
  mask_ok key →
  zlen (wire fin op body mask rsv1 key)
  = Z.of_nat (header_size (zlen body)) + (if mask then 4 else 0) + zlen body.
Proof.
  intros Hk. unfold zlen at 1. rewrite length_wire by done. unfold zlen. destruct mask; lia.
Qed.

Lemma wire_byte_ok fin op body mask rsv1 key :
  mask_ok key → Forall byte_ok body → Forall byte_ok (wire fin op body mask rsv1 key).
Proof.
  intros Hk Hb. apply Forall_cons_2; [apply u8_range|].
  apply Forall_app_2; [apply length_field_byte_ok|].
  destruct mask; [|done]. apply Forall_app_2; [apply Hk|]. by apply mix_byte_ok.
Qed.

Lemma ant_ws_encode_frame_spec random op body mask rsv1 :
  zlen body < 2 ^ 63 → (∀ key, random = Some key → mask_ok key) →
  (ant_ws_encode_frame random op (Some body) (length body) mask rsv1 = Ok None ∧
   ((∃ n, malloc n = false) ∨ random = None)) ∨
  (∃ key, (mask = true → random = Some key) ∧ mask_ok key ∧
    ant_ws_encode_frame random op (Some body) (length body) mask rsv1
    = Ok (Some (wire true op body mask rsv1 key))).
Proof.
  intros Hb Hr. unfold ant_ws_encode_frame. fold (zlen body).
  set (size := u64 _). destruct (malloc size) eqn:Em; [|left; eauto]. cbn [negb].
  assert (∀ key, mask_ok key →
    u8 (0x80 |' (if rsv1 then 0x40 else 0) |' u8 op)
    :: length_field (zlen body) mask ++ (if mask then key else [])
    ++ ((λ i, if mask then at_ body i ^' at_ key (i mod 4) else at_ body i) <$> seq 0 (length body))
    = wire true op body mask rsv1 key ∧ zlen (wire true op body mask rsv1 key) = size) as Hw.
  { intros key Hk. split.
    - unfold wire. f_equal. f_equal. destruct mask.
      + f_equal. apply fmap_seq_imap. intros i x E. rewrite Nat.add_0_l. f_equal.
        unfold at_. by rewrite nth_lookup, E.
      + simpl. rewrite (fmap_seq_imap _ (const id)); [by rewrite imap_const, list_fmap_id|].
        intros i x E. unfold at_. by rewrite nth_lookup, E.
    - unfold size. unfold zlen at 1. rewrite length_wire by done. rewrite u64_small;
        unfold header_size; pose proof (zlen_nonneg body); unfold zlen in *;
        destruct mask; repeat case_ltb; unfold UINT16_MAX in *; lia. }
  assert (mask_ok [0; 0; 0; 0]) as Hz
    by (split; [repeat (apply Forall_cons_2; [unfold byte_ok; lia|]); done|done]).
  destruct mask.
  - destruct random as [key|]; [|left; eauto]. right. exists key.
    split; [done|]. split; [by apply Hr|]. destruct (Hw key (Hr key eq_refl)) as [-> <-].
    by rewrite Z.ltb_irrefl.
  - right. exists [0; 0; 0; 0]. split; [done|]. split; [done|].
    destruct (Hw _ Hz) as [-> <-]. by rewrite Z.ltb_irrefl.
Qed.

(** An encoded header passes the tests of the first two bytes. *)
Lemma wire_header_accepted fin op n masking rsv1 tail r a :
  0 <= op < 16 → 0 <= n < 2 ^ 63 → Forall byte_ok tail → (8 <= op → fin = true ∧ rsv1 = false ∧ n <= 125) →
  (r = true → masking = true) → (rsv1 = true → a = true) →
  header_refused (first_byte fin rsv1 op :: length_field n masking ++ tail) r a = false.
Proof.
  intros Hop Hn Htail Hctl Hr Ha. unfold header_refused. cbv zeta.
  change (at_ (first_byte fin rsv1 op :: length_field n masking ++ tail) 0)
    with (first_byte fin rsv1 op).
  destruct (first_byte_bits fin rsv1 op Hop) as (_ & -> & -> & -> & ->).
  destruct (length_field_spec (first_byte fin rsv1 op) n masking tail Hn Htail) as (-> & Es & _).
  cbn [Z.eqb negb orb]. rewrite negb_involutive.
  destruct (Z.leb_spec 8 op) as [H8|]; cbn [andb orb].
  - destruct (Hctl H8) as (-> & -> & Hlen). rewrite (proj2 (Z.ltb_ge 125 _)) by lia.
    cbn [negb andb orb]. destruct r; [by rewrite Hr|done].
  - rewrite !orb_false_r. apply orb_false_iff. split.
    + destruct rsv1; [by rewrite Ha|done].
    + destruct r; [by rewrite Hr|done].
Qed.

Lemma unmask_mix key body :
  mask_ok key → Forall byte_ok body →
  (if 0 <? zlen body then ant_ws_unmask (mix key 0 body) key else mix key 0 body) = body.
Proof.
  intros Hk Hb. case_ltb.
  - rewrite ant_ws_unmask_spec by (done || by apply mix_byte_ok). apply mix_mix.
  - by destruct body.
Qed.

(** Parsing a frame with anything after it. *)
Lemma parse_wire fin op body masking rsv1 key rest r a i :
  Forall byte_ok body → Forall byte_ok rest → mask_ok key → zlen body < 2 ^ 63 → 0 <= op < 16 →
  (8 <= op → fin = true ∧ rsv1 = false ∧ zlen body <= 125) → (r = true → masking = true) →
  (rsv1 = true → a = true) → (i = false → malloc (zlen body + 1) = true) →
  let frame := wire fin op body masking rsv1 key in
  ∃ data', ant_ws_parse_frame (frame ++ rest) r a i
  = (ANT_WS_FRAME_OK,
     mk_frame body (zlen body) (zlen frame) op (if masking then key else [0; 0; 0; 0]) fin rsv1
       masking (negb i), data').
Proof.
  intros Hb Hrest Hk Hn Hop Hctl Hr Ha Hi frame.
  set (tail := (if masking then key ++ mix key 0 body else body) ++ rest).
  assert (Forall byte_ok tail) as Htail.
  { apply Forall_app_2; [|done]. destruct masking; [|done].
    apply Forall_app_2; [apply Hk|]. by apply mix_byte_ok. }
  assert (frame ++ rest = first_byte fin rsv1 op :: length_field (zlen body) masking ++ tail) as Ef.
  { unfold frame, wire, tail. by rewrite app_assoc. }
  pose proof (zlen_app frame rest) as El.
  pose proof (zlen_wire fin op body masking rsv1 key Hk) as Elf. fold frame in Elf.
  pose proof (zlen_nonneg body). pose proof (zlen_nonneg rest).
  destruct (length_field_spec (first_byte fin rsv1 op) (zlen body) masking tail) as (Em & _ & Ee); [lia|done|].
  assert (2 <= header_size (zlen body) <= 10)%nat as Hhs
    by (unfold header_size; repeat case_ltb; lia).
  unfold ant_ws_parse_frame. rewrite El, Ef.
  rewrite (proj2 (Z.ltb_ge _ 2)) by (destruct masking; lia).
  change (at_ (first_byte fin rsv1 op :: length_field (zlen body) masking ++ tail) 0)
    with (first_byte fin rsv1 op).
  destruct (first_byte_bits fin rsv1 op Hop) as (_ & B1 & _ & B3 & B4).
  rewrite wire_header_accepted, Ee, Em, B1, B3, B4, !negb_involutive by (done || lia).
  set (hs := header_size (zlen body)) in *.
  assert (drop hs (first_byte fin rsv1 op :: length_field (zlen body) masking ++ tail) = tail) as Ed.
  { unfold hs. rewrite <- (length_length_field _ masking), skipn_cons. apply drop_app_length. }
  rewrite (u64_small (_ + zlen body)) by (destruct masking; lia).
  rewrite (u64_small (zlen body + 1)) by lia.
  assert (negb i && negb (malloc (zlen body + 1)) = false) as ->
    by (destruct i; [done|]; by rewrite Hi).
  destruct masking; cbn [andb]; rewrite !(proj2 (Z.ltb_ge _ _)) by lia;
    eexists; (apply f_equal2; [|reflexivity]).
  - rewrite <- !drop_drop, Ed. unfold tail. rewrite <- !app_assoc.
    rewrite take_app_length', drop_app_length' by (by destruct Hk).
    rewrite take_app_length' by (rewrite length_mix; unfold zlen; lia).
    change (mask (set_mask zero_frame key)) with key.
    rewrite unmask_mix by done. do 2 f_equal. lia.
  - rewrite Ed. unfold tail. rewrite take_app_length' by (unfold zlen; lia).
    do 2 f_equal. lia.
Qed.

(** A strict prefix of a frame is not enough, and is not an error either. *)
Lemma parse_wire_prefix fin op body masking rsv1 key r a i k :
  Forall byte_ok body → mask_ok key → zlen body < 2 ^ 63 → 0 <= op < 16 →
  (8 <= op → fin = true ∧ rsv1 = false ∧ zlen body <= 125) → (r = true → masking = true) →
  (rsv1 = true → a = true) → (i = false → malloc (zlen body + 1) = true) →
  let frame := wire fin op body masking rsv1 key in
  (k < length frame)%nat → (ant_ws_parse_frame (take k frame) r a i).1.1 = ANT_WS_FRAME_INCOMPLETE.
Proof.
  intros Hb Hk Hn Hop Hctl Hr Ha Hi frame Hlt.
  assert (Forall byte_ok (take k frame)) as Hok by (by apply Forall_take, wire_byte_ok).
  destruct (parse_wire fin op body masking rsv1 key [] r a i) as [data' E]; [done..|].
  rewrite app_nil_r in E. fold frame in E.
  destruct (ant_ws_parse_frame (take k frame) r a i) as [[res f] d'] eqn:Ep. cbn [fst].
  destruct res; [done|exfalso..].
  all: pose proof (parse_app (take k frame) (drop k frame) r a i Hok) as Happ;
    rewrite Ep, take_drop, E in Happ; cbn [fst] in Happ; specialize (Happ ltac:(done)).
  2: done.
  apply parse_bounds in Ep as (Hc & _); [|done].
  injection Happ as <- _. cbn [consumed_len] in Hc. unfold zlen in Hc.
  rewrite length_take in Hc. lia.
Qed.

End parsing.

(** ** The theorems *)

(** Unmasking eight bytes at a time and then one by one is the exclusive or of each byte
    with the key byte of its position, for every length, and doing it twice restores the
    data. *)
Lemma ws_unmask_correct data mask :
  Forall byte_ok data → mask_ok mask →
  ant_ws_unmask data mask = imap (λ i b, b ^' at_ mask (i mod 4)) data ∧
  ant_ws_unmask (ant_ws_unmask data mask) mask = data.
Proof.
  intros Hd Hm. rewrite !ant_ws_unmask_spec by (done || by apply mix_byte_ok).
  split; [done|]. apply mix_mix.
Qed.

(** An answer other than incomplete does not change when more bytes arrive after the buffer,
    which are left as they are; an accepted frame lies within the buffer, its payload has the
    length it announces, and nothing behind it is touched. *)
Definition parses_incrementally `{Heap} (data more : list Z) (require_mask allow_rsv1 inplace : bool) : Prop :=
  let '(res, f, data') := ant_ws_parse_frame data require_mask allow_rsv1 inplace in
  (res ≠ ANT_WS_FRAME_INCOMPLETE →
   ant_ws_parse_frame (data ++ more) require_mask allow_rsv1 inplace = (res, f, data' ++ more)) ∧
  (res = ANT_WS_FRAME_OK →
   2 <= consumed_len f <= zlen data ∧ zlen (payload f) = payload_len f ∧
   drop (Z.to_nat (consumed_len f)) data' = drop (Z.to_nat (consumed_len f)) data).

Lemma ws_parse_incremental `{Heap} data more require_mask allow_rsv1 inplace :
  Forall byte_ok data → parses_incrementally data more require_mask allow_rsv1 inplace.
Proof.
  intros Hd. pose proof (parse_app data more require_mask allow_rsv1 inplace Hd) as Happ.
  pose proof (parse_bounds data require_mask allow_rsv1 inplace) as Hbnd. unfold parses_incrementally.
  destruct (ant_ws_parse_frame data require_mask allow_rsv1 inplace) as [[res f] data'].
  split; [apply Happ|]. intros ->. by destruct (Hbnd f data' Hd eq_refl) as (? & ? & _ & _ & ?).
Qed.

(** C34: a frame the encoder builds, with anything after it, parses to the payload, the
    opcode and the flags it was built from and consumes exactly its bytes, and a strict prefix
    of it is reported as incomplete; the encoder never writes outside its allocation and fails
    only when memory or random bytes are refused.  Whatever the bytes are, parsing them is
    incremental and stays in the buffer ([parses_incrementally]). *)
Theorem ws_frames_correct `{Heap} random op body masking rsv1 rest require_mask allow_rsv1 inplace :
  Forall byte_ok body → Forall byte_ok rest → zlen body < 2 ^ 63 →
  (∀ key, random = Some key → mask_ok key) →
  0 <= op < 16 → (8 <= op → rsv1 = false ∧ zlen body <= 125) →
  (require_mask = true → masking = true) → (rsv1 = true → allow_rsv1 = true) →
  (inplace = false → malloc (zlen body + 1) = true) →
  match ant_ws_encode_frame random op (Some body) (length body) masking rsv1 with
  | Ok None => (∃ n, malloc n = false) ∨ random = None
  | Ok (Some frame) =>
      (∃ key data',
         ant_ws_parse_frame (frame ++ rest) require_mask allow_rsv1 inplace
         = (ANT_WS_FRAME_OK,
            mk_frame body (zlen body) (zlen frame) op key true rsv1 masking (negb inplace), data'))
      ∧ (∀ k, (k < length frame)%nat →
           (ant_ws_parse_frame (take k frame) require_mask allow_rsv1 inplace).1.1
           = ANT_WS_FRAME_INCOMPLETE)
  | _ => False
  end ∧
  ∀ data more, Forall byte_ok data → parses_incrementally data more require_mask allow_rsv1 inplace.
Proof.
  intros Hb Hrest Hn Hrnd Hop Hctl Hr Ha Hi. split; [|intros data more; apply ws_parse_incremental].
  assert (8 <= op → true = true ∧ rsv1 = false ∧ zlen body <= 125) as Hctl' by auto.
  destruct (ant_ws_encode_frame_spec random op body masking rsv1 Hn Hrnd)
    as [[-> Hf]|(key & _ & Hk & ->)]; [done|]. split.
  - destruct (parse_wire true op body masking rsv1 key rest require_mask allow_rsv1 inplace)
      as [data' ->]; eauto.
  - intros k Hlt. by apply parse_wire_prefix.
Qed.

Lemma ws_frames_witness :
  ∃ frame, ant_ws_encode_frame (H := roomy_heap) (Some [1; 2; 3; 4]) ANT_WS_OPCODE_TEXT
             (Some (bytes "hello, world")) 12 true false = Ok (Some frame) ∧
    (ant_ws_parse_frame (H := roomy_heap) (take 10 frame) true false true).1.1
    = ANT_WS_FRAME_INCOMPLETE.
Proof.
  pose proof (ws_frames_correct (H := roomy_heap) (Some [1; 2; 3; 4]) ANT_WS_OPCODE_TEXT
    (bytes "hello, world") true false [] true false true) as T.
  eexists. split; [reflexivity|]. apply T.
  - apply Forall_forall. intros x Hx. apply list_elem_of_In in Hx. revert x Hx.
    apply List.Forall_forall. repeat constructor; vm_compute; congruence.
  - constructor.
  - reflexivity.
  - intros key [= <-]. split; [|reflexivity]. repeat constructor; vm_compute; congruence.
  - unfold ANT_WS_OPCODE_TEXT. lia.
  - unfold ANT_WS_OPCODE_TEXT. lia.
  - done.
  - done.
  - done.
  - vm_compute. lia.
Defined.
