(* ===== verification/WebSocketHandshake.v ===== *)
(** * The WebSocket opening handshake

    Models the header tests of src/http/websocket.c ([ant_ws_find_header],
    [ant_ws_header_contains_token], [ant_ws_header_contains_extension],
    [ant_ws_validate_client_handshake], [ant_ws_accept_key]) and the wrappers of src/base64.c.
    The base64 codec is libbase64 and the digest OpenSSL: both are parameters. *)

From S2P Require Import Prelude Utils.

(** ** C strings *)

Definition tolower (c : Z) : Z := if (65 <=? c) && (c <=? 90) then c + 32 else c.

(** [strcasecmp(a, b) == 0] in the C locale. *)
Definition strcase_eq (a b : list Z) : bool := bool_decide (tolower <$> a = tolower <$> b).

Fixpoint skip_while (f : Z → bool) (p : list Z) : list Z :=
  match p with
  | c :: p' => if f c then skip_while f p' else p
  | [] => []
  end.

Fixpoint take_while (f : Z → bool) (p : list Z) : list Z :=
  match p with
  | c :: p' => if f c then c :: take_while f p' else []
  | [] => []
  end.

Definition blank (c : Z) : bool := (c =? 32) || (c =? 9).

(** [while (end > start && blank(end[-1])) end--] *)
Definition rtrim (item : list Z) : list Z := rev (skip_while blank (rev item)).

(** ** Headers *)

Record ant_http_header_t := mk_header { name : option (list Z); value : option (list Z) }.

Fixpoint ant_ws_find_header (headers : list ant_http_header_t) (wanted : list Z)
    : option (list Z) :=
  match headers with
  | [] => None
  | entry :: next =>
      match name entry with
      | Some n => if strcase_eq n wanted then value entry else ant_ws_find_header next wanted
      | None => ant_ws_find_header next wanted
      end
  end.

(** The loop of both list searches: an item runs up to a byte [stop] accepts, and the next item
    starts after the next comma.  Each round passes the rest of an item, so as many rounds as
    bytes are enough. *)
Fixpoint list_loop (stop : Z → bool) (rounds : nat) (p token : list Z) : bool :=
  match rounds, p with
  | S rounds, _ :: _ =>
      let p := skip_while (λ c, blank c || (c =? 44)) p in
      let item := rtrim (take_while (λ c, negb (stop c)) p) in
      if (length item =? length token)%nat && strcase_eq item token then true
      else
        let p := skip_while (λ c, negb (c =? 44)) (skip_while (λ c, negb (stop c)) p) in
        list_loop stop rounds (tail p) token
  | _, _ => false
  end.

Definition ant_ws_header_contains_token (value : option (list Z)) (token : list Z) : bool :=
  match value with
  | None => false
  | Some v =>
      if (length token =? 0)%nat then false
      else list_loop (λ c, c =? 44) (length v) v token
  end.

Definition ant_ws_header_contains_extension (value : option (list Z)) (extension : list Z) : bool :=
  match value with
  | None => false
  | Some v =>
      if (length extension =? 0)%nat then false
      else list_loop (λ c, (c =? 59) || (c =? 44)) (length v) v extension
  end.

(** ** The handshake *)

Definition ANT_WS_GUID : list Z := bytes "258EAFA5-E914-47DA-95CA-C5AB0DC85B11".

Section handshake.
Context `{Heap}.
(** libbase64 on whole buffers, [None] for text that is not base64, and OpenSSL's SHA-1. *)
Variable base64_decode : list Z → option (list Z).
Variable base64_encode : list Z → list Z.
Variable EVP_Digest_sha1 : list Z → option (list Z).

Definition ant_base64_encode (data : list Z) : option (list Z) :=
  let encoded_len := 4 * ((zlen data + 2) / 3) in
  if negb (malloc (encoded_len + 1)) then None else Some (base64_encode data).

Definition ant_base64_decode (data : list Z) : option (list Z) :=
  let decoded_len := zlen data / 4 * 3 + 3 in
  if negb (malloc decoded_len) then None else base64_decode data.

(** [*key_out] when the function returns true. *)
Definition ant_ws_validate_client_handshake (headers : list ant_http_header_t)
    : option (list Z) :=
  let upgrade := ant_ws_find_header headers (bytes "upgrade") in
  let connection := ant_ws_find_header headers (bytes "connection") in
  let version := ant_ws_find_header headers (bytes "sec-websocket-version") in
  let key := ant_ws_find_header headers (bytes "sec-websocket-key") in
  match upgrade with
  | None => None
  | Some upgrade =>
      if negb (strcase_eq upgrade (bytes "websocket")) then None
      else if negb (ant_ws_header_contains_token connection (bytes "upgrade")) then None
      else
        match version, key with
        | Some version, Some key =>
            if negb (bool_decide (version = bytes "13")) then None
            else if (length key <? 16)%nat then None
            else
              match ant_base64_decode key with
              | Some decoded => if (length decoded =? 16)%nat then Some key else None
              | None => None
              end
        | _, _ => None
        end
  end.

Definition ant_ws_accept_key (client_key : option (list Z)) : option (list Z) :=
  match client_key with
  | None => None
  | Some key =>
      if negb (malloc (zlen key + zlen ANT_WS_GUID)) then None
      else
        match EVP_Digest_sha1 (key ++ ANT_WS_GUID) with
        | Some digest => ant_base64_encode digest
        | None => None
        end
  end.

End handshake.

(** ** What a header list says

    The items of a comma-separated list, without the blanks around them (RFC 9110, 5.6.1). *)

Fixpoint split_on (c : Z) (l : list Z) : list (list Z) :=
  match l with
  | [] => [[]]
  | x :: l =>
      if x =? c then [] :: split_on c l
      else match split_on c l with [] => [[x]] | h :: t => (x :: h) :: t end
  end.

Definition trim (l : list Z) : list Z := rtrim (skip_while blank l).

Definition same_text (a b : list Z) : Prop := tolower <$> a = tolower <$> b.

Lemma strcase_eq_spec a b : strcase_eq a b = true ↔ same_text a b.
Proof. apply bool_decide_eq_true. Qed.

Lemma skip_take_while f p : take_while f p ++ skip_while f p = p.
Proof. induction p as [|c p IH]; [done|]. simpl. destruct (f c); [|done]. simpl. by rewrite IH. Qed.

Lemma skip_while_length f p : (length (skip_while f p) <= length p)%nat.
Proof. induction p as [|c p IH]; simpl; [lia|]. destruct (f c); simpl; lia. Qed.

Lemma skip_while_idem f p : skip_while f (skip_while f p) = skip_while f p.
Proof. induction p as [|c p IH]; [done|]. simpl. destruct (f c) eqn:E; [done|]. simpl. by rewrite E. Qed.

Lemma split_on_cons c l : ∃ h t, split_on c l = h :: t.
Proof.
  induction l as [|x l (h & t & E)]; simpl; [by exists [], []|].
  rewrite E. destruct (x =? c); eauto.
Qed.

(** The first item and the list after its comma. *)
Lemma split_on_head c l :
  split_on c l
  = take_while (λ x, negb (x =? c)) l
    :: (if skip_while (λ x, negb (x =? c)) l is _ :: r then split_on c r else []).
Proof.
  induction l as [|x l IH]; [done|]. simpl. destruct (Z.eqb_spec x c) as [->|]; simpl; [done|].
  by rewrite IH.
Qed.

Section list_search.
(** An item is named by what stands before the first byte [stop] accepts. *)
Variable stop : Z → bool.
Variable token : list Z.
Hypothesis stop_comma : stop 44 = true.
Hypothesis stop_blank : ∀ c, blank c = true → stop c = false.
Hypothesis token_nonempty : token ≠ [].

Definition named (item : list Z) : bool :=
  strcase_eq (trim (take_while (λ c, negb (stop c)) item)) token.

Lemma named_nil : named [] = false.
Proof.
  unfold named. apply bool_decide_eq_false. change (trim (take_while _ [])) with (@nil Z).
  by destruct token.
Qed.

Lemma named_blank c item : blank c = true → named (c :: item) = named item.
Proof.
  intros Hc. unfold named. simpl. rewrite stop_blank by done. simpl. unfold trim.
  cbn [skip_while]. by rewrite Hc.
Qed.

Lemma split_skip p :
  existsb named (split_on 44 (skip_while (λ c, blank c || (c =? 44)) p))
  = existsb named (split_on 44 p).
Proof.
  induction p as [|c p IH]; [done|]. cbn [skip_while split_on].
  destruct (Z.eqb_spec c 44) as [->|].
  - rewrite orb_true_r. cbn [existsb]. by rewrite named_nil.
  - rewrite orb_false_r. destruct (blank c) eqn:Eb.
    + rewrite IH. destruct (split_on_cons 44 p) as (h & t & ->). cbn [existsb].
      by rewrite named_blank.
    + cbn [split_on]. by rewrite (proj2 (Z.eqb_neq c 44)).
Qed.

(** The search compares [rtrim] of what it cut, whose front is not blank. *)
Lemma named_cut p :
  let p' := skip_while (λ c, blank c || (c =? 44)) p in
  named (take_while (λ x, negb (x =? 44)) p')
  = strcase_eq (rtrim (take_while (λ c, negb (stop c)) p')) token.
Proof.
  intros p'. unfold named.
  assert (∀ q, take_while (λ c, negb (stop c)) (take_while (λ x, negb (x =? 44)) q)
               = take_while (λ c, negb (stop c)) q) as ->.
  { induction q as [|c q IHq]; [done|]. simpl. destruct (Z.eqb_spec c 44) as [->|]; simpl.
    - by rewrite stop_comma.
    - destruct (stop c); simpl; [done|]. by rewrite IHq. }
  f_equal. unfold trim. f_equal.
  assert (skip_while (λ c, blank c || (c =? 44)) p' = p') as Hp by apply skip_while_idem.
  destruct p' as [|c q]; [done|]. simpl in *.
  destruct (blank c || (c =? 44)) eqn:Ec.
  - pose proof (skip_while_length (λ c, blank c || (c =? 44)) q). rewrite Hp in *. simpl in *. lia.
  - apply orb_false_iff in Ec as [Eb _]. destruct (stop c); simpl; [done|]. by rewrite Eb.
Qed.

Lemma skip_to_comma q :
  skip_while (λ c, negb (c =? 44)) (skip_while (λ c, negb (stop c)) q)
  = skip_while (λ c, negb (c =? 44)) q.
Proof.
  induction q as [|c q IH]; [done|]. simpl. destruct (stop c) eqn:E; simpl; [done|].
  destruct (Z.eqb_spec c 44) as [->|]; [congruence|]. done.
Qed.

Lemma same_text_length a b : same_text a b → length a = length b.
Proof. intros E. apply (f_equal length) in E. by rewrite !length_fmap in E. Qed.

Lemma list_loop_spec rounds p :
  (length p <= rounds)%nat → list_loop stop rounds p token = existsb named (split_on 44 p).
Proof.
  revert p. induction rounds as [|rounds IH]; intros p Hl.
  { destruct p; [|simpl in Hl; lia]. simpl. by rewrite named_nil. }
  destruct p as [|c p0]; [simpl; by rewrite named_nil|].
  set (p := c :: p0) in *. change (list_loop stop (S rounds) p token) with
    (let p := skip_while (λ c, blank c || (c =? 44)) p in
     let item := rtrim (take_while (λ c, negb (stop c)) p) in
     if (length item =? length token)%nat && strcase_eq item token then true
     else let p := skip_while (λ c, negb (c =? 44)) (skip_while (λ c, negb (stop c)) p) in
       list_loop stop rounds (tail p) token).
  cbv zeta. rewrite <- split_skip. pose proof (named_cut p) as Hn. cbv zeta in Hn.
  set (p' := skip_while (λ c, blank c || (c =? 44)) p) in *.
  assert (length p' <= length p)%nat as Hlp by apply skip_while_length.
  rewrite (split_on_head 44 p'). cbn [existsb]. rewrite Hn, skip_to_comma.
  set (item := rtrim _) in *.
  destruct (strcase_eq item token) eqn:Es.
  { rewrite andb_true_r. apply strcase_eq_spec, same_text_length in Es. by rewrite Es, Nat.eqb_refl. }
  rewrite andb_false_r. cbn [orb].
  pose proof (skip_while_length (λ c, negb (c =? 44)) p') as Hr.
  destruct (skip_while (λ c, negb (c =? 44)) p') as [|x r] eqn:Er.
  - cbn [tail]. destruct rounds; done.
  - cbn [tail]. apply IH. simpl in Hr, Hl. subst p. simpl in Hlp. lia.
Qed.

End list_search.

Lemma split_on_no_comma l item : item ∈ split_on 44 l → Forall (λ c, c ≠ 44) item.
Proof.
  revert item. induction l as [|x l IH]; intros item; simpl.
  { intros ->%list_elem_of_singleton. constructor. }
  destruct (Z.eqb_spec x 44) as [->|Hx].
  - intros [->|Hin]%elem_of_cons; [constructor|]. by apply IH.
  - destruct (split_on_cons 44 l) as (h & t & E). rewrite E in *.
    intros [->|Hin]%elem_of_cons.
    + constructor; [done|]. apply IH. constructor.
    + apply IH. by constructor.
Qed.

(** Commas do not matter within an item. *)
Lemma take_while_item (f g : Z → bool) item :
  (∀ c, c ≠ 44 → f c = g c) → Forall (λ c, c ≠ 44) item → take_while f item = take_while g item.
Proof.
  intros Hfg. induction 1 as [|c item Hc _ IH]; [done|]. simpl. by rewrite (Hfg c Hc), IH.
Qed.

Lemma take_while_all item : take_while (λ _, true) item = item.
Proof. induction item as [|c item IH]; simpl; [done|]. by rewrite IH. Qed.

Lemma existsb_items (P : list Z → bool) (Q : list Z → Prop) l :
  (∀ item, item ∈ split_on 44 l → P item = true ↔ Q item) →
  existsb P (split_on 44 l) = true ↔ ∃ item, item ∈ split_on 44 l ∧ Q item.
Proof.
  intros HPQ. rewrite existsb_exists. split.
  - intros (item & Hin & HP). apply list_elem_of_In in Hin. exists item. split; [done|].
    by apply HPQ.
  - intros (item & Hin & HQ). exists item. split; [by apply list_elem_of_In|]. by apply HPQ.
Qed.

Lemma blank_cases c : blank c = true → c = 32 ∨ c = 9.
Proof. unfold blank. intros [E|E]%orb_true_iff; apply Z.eqb_eq in E; auto. Qed.

Lemma contains_token_spec v token :
  token ≠ [] →
  ant_ws_header_contains_token (Some v) token = true
  ↔ ∃ item, item ∈ split_on 44 v ∧ same_text (trim item) token.
Proof.
  intros Ht. unfold ant_ws_header_contains_token.
  destruct token as [|t0 token']; [done|]. set (token := t0 :: token') in *. cbn [length Nat.eqb].
  change (length token =? 0)%nat with false. cbv iota.
  rewrite list_loop_spec; [|done|by intros c [-> | ->]%blank_cases|done|lia].
  apply existsb_items. intros item Hin. unfold named. rewrite strcase_eq_spec.
  rewrite (take_while_item _ (λ _, true)), take_while_all; [done| |by eapply split_on_no_comma].
  intros c Hc. by rewrite (proj2 (Z.eqb_neq c 44)).
Qed.

Lemma contains_extension_spec v extension :
  extension ≠ [] →
  ant_ws_header_contains_extension (Some v) extension = true
  ↔ ∃ item, item ∈ split_on 44 v ∧
      same_text (trim (take_while (λ c, negb (c =? 59)) item)) extension.
Proof.
  intros Ht. unfold ant_ws_header_contains_extension.
  destruct extension as [|t0 token']; [done|]. set (token := t0 :: token') in *.
  change (length token =? 0)%nat with false. cbv iota.
  rewrite list_loop_spec; [|done|by intros c [-> | ->]%blank_cases|done|lia].
  apply existsb_items. intros item Hin. unfold named. rewrite strcase_eq_spec.
  rewrite (take_while_item _ (λ c, negb (c =? 59))); [done| |by eapply split_on_no_comma].
  intros c Hc. by rewrite (proj2 (Z.eqb_neq c 44)), orb_false_r.
Qed.


