(* ===== verification/WebSocketServer.v ===== *)
(** * The WebSocket server: from bytes to messages

    Models the server side of src/modules/websocket.c: the fragment buffer
    ([websocket_fragment_reset], [websocket_fragment_clear], [websocket_fragment_append]),
    [websocket_emit_close], [websocket_server_close_with_code],
    [ant_websocket_server_open], [ant_websocket_server_on_close] and the frame loop
    [ant_websocket_server_on_read], over any connection that implements [Conn].  Events are
    recorded in the order they are handed to the listeners; what listeners then do is not
    modelled.  [websocket_inflate_message] is zlib at work on a whole message and is a
    parameter. *)

From stdpp Require Import relations.
From S2P Require Import Prelude Utils WebSocket Connection.

(** ** State *)

Inductive ready_state_t := WS_CONNECTING | WS_OPEN | WS_CLOSING | WS_CLOSED.

(** [fragment] is the first [fragment_len] bytes of [fragment_buf]. *)
Record websocket_state_t := mk_ws {
  fragment : list Z;
  fragment_cap : Z;
  fragment_opcode : Z;
  fragmenting : bool;
  fragment_compressed : bool;
  max_payload_len : Z;
  per_message_deflate : bool;
  ready_state : ready_state_t;
  close_emitted : bool
}.

Definition WS_DEFAULT_MAX_PAYLOAD_LEN : Z := 16 * 1024 * 1024.

Inductive ws_event :=
  | EvOpen
  | EvMessage (data : list Z) (binary : bool)
  | EvError
  | EvClose (code : Z) (reason : list Z) (was_clean : bool).

Definition with_fragment (ws : websocket_state_t) (data : list Z) (cap op : Z) (on comp : bool)
    : websocket_state_t :=
  mk_ws data cap op on comp (max_payload_len ws) (per_message_deflate ws) (ready_state ws)
    (close_emitted ws).

Definition websocket_fragment_reset (ws : websocket_state_t) : websocket_state_t :=
  with_fragment ws [] (fragment_cap ws) 0 false false.

Definition websocket_fragment_clear (ws : websocket_state_t) : websocket_state_t :=
  with_fragment (websocket_fragment_reset ws) [] 0 0 false false.

(** [while (cap < need)] with its test for overflow: at most 64 doublings. *)
Fixpoint fragment_grow (rounds : nat) (cap need : Z) : Z :=
  match rounds with
  | O => cap
  | S rounds =>
      if cap <? need then
        if (2 ^ 64 - 1) / 2 <? cap then need else fragment_grow rounds (cap * 2) need
      else cap
  end.

(** The new state and whether the function returned true; a write outside the buffer is
    [Ub]. *)
Definition websocket_fragment_append `{Heap} (ws : websocket_state_t) (data : list Z)
    : outcome (websocket_state_t * bool) :=
  let len := zlen data in
  let fragment_len := zlen (fragment ws) in
  if 2 ^ 64 - 1 - fragment_len <? len then Ok (ws, false)
  else
    let need := fragment_len + len in
    let put cap :=
      if cap <? need then Ub
      else Ok (with_fragment ws (fragment ws ++ data) cap (fragment_opcode ws) (fragmenting ws)
                 (fragment_compressed ws), true) in
    if fragment_cap ws <? need then
      let cap := fragment_grow 64 (if fragment_cap ws =? 0 then 1024 else fragment_cap ws) need in
      if negb (realloc cap) then Ok (ws, false) else put cap
    else put (fragment_cap ws).

(** ** The frame loop *)

(** The socket, its connection and the events emitted so far. *)
Record server (C : Type) := mk_server {
  ws : websocket_state_t;
  conn : C;
  events : list ws_event
}.

Arguments mk_server {C} ws conn events.
Arguments ws {C} s.
Arguments conn {C} s.
Arguments events {C} s.

(** The string up to its first NUL. *)
Fixpoint c_string (l : list Z) : list Z :=
  match l with
  | [] => []
  | c :: l => if c =? 0 then [] else c :: c_string l
  end.

Section server.
Context `{Heap} {C : Type} `{!Conn C}.
Variable websocket_inflate_message : list Z → Z → option (list Z).

Definition emit (s : server C) (e : ws_event) : server C :=
  mk_server (ws s) (conn s) (events s ++ [e]).

Definition with_ws (s : server C) (w : websocket_state_t) : server C :=
  mk_server w (conn s) (events s).

Definition with_conn (s : server C) (c : C) : server C := mk_server (ws s) c (events s).

Definition websocket_emit_close (s : server C) (code : Z) (reason : list Z) (was_clean : bool)
    : server C :=
  let w := ws s in
  if close_emitted w then s
  else
    let w := mk_ws (fragment w) (fragment_cap w) (fragment_opcode w) (fragmenting w)
               (fragment_compressed w) (max_payload_len w) (per_message_deflate w) WS_CLOSED true in
    emit (with_ws s (websocket_fragment_clear w)) (EvClose code reason was_clean).

(** [if (out) ant_conn_write(conn, out, ...)] for a frame that may be NULL. *)
Definition write_frame (s : server C) (frame : outcome (option (list Z))) : outcome (server C) :=
  match frame with
  | Ok (Some out) => Ok (with_conn s (c_write (conn s) out).1)
  | Ok None => Ok s
  | Throw e => Throw e
  | Ub => Ub
  end.

(** The frame is only written to a connection that is not closing. *)
Definition websocket_server_close_with_code (s : server C) (code : Z) (reason : list Z)
    : outcome (server C) :=
  s ← (if c_closing (conn s) then Ok s
       else write_frame s (ant_ws_encode_close_frame None code (Some reason) false));
  Ok (with_conn s (c_shutdown (conn s))).

(** The labels a frame is dispatched to: whether the loop goes on. *)
Definition l_protocol_error (s : server C) : outcome (server C * bool) :=
  let s := emit s EvError in Ok (with_conn s (c_close (conn s)), false).

Definition l_too_big (s : server C) : outcome (server C * bool) :=
  s ← websocket_server_close_with_code (with_ws s (websocket_fragment_clear (ws s))) 1009
        (bytes "Message Too Big");
  Ok (s, false).

Definition l_done (s : server C) : outcome (server C * bool) := Ok (s, true).

(** A message that is complete, inflated when it was compressed. *)
Definition deliver_message (s : server C) (data : list Z) (compressed binary : bool)
    : outcome (option (server C)) :=
  if compressed then
    match websocket_inflate_message data (max_payload_len (ws s)) with
    | None => Ok None
    | Some inflated => Ok (Some (emit s (EvMessage inflated binary)))
    end
  else Ok (Some (emit s (EvMessage data binary))).

Definition l_message (s : server C) (frame : ant_ws_frame_t) : outcome (server C * bool) :=
  if fragmenting (ws s) then l_protocol_error s
  else if max_payload_len (ws s) <? payload_len frame then l_too_big s
  else if fin frame then
    s' ← deliver_message s (payload frame) (rsv1 frame) (opcode frame =? ANT_WS_OPCODE_BINARY);
    match s' with Some s' => l_done s' | None => l_protocol_error s end
  else
    let w := ws s in
    let w := with_fragment w (fragment w) (fragment_cap w) (opcode frame) true (rsv1 frame) in
    '(w, ok) ← websocket_fragment_append w (payload frame);
    if negb ok then l_protocol_error (with_ws s w) else l_done (with_ws s w).

Definition l_continuation (s : server C) (frame : ant_ws_frame_t) : outcome (server C * bool) :=
  if negb (fragmenting (ws s)) then l_protocol_error s
  else if rsv1 frame then l_protocol_error s
  else
    '(w, ok) ← websocket_fragment_append (ws s) (payload frame);
    let s := with_ws s w in
    if negb ok then l_protocol_error s
    else if max_payload_len w <? zlen (fragment w) then l_too_big s
    else if fin frame then
      s' ← deliver_message s (fragment w) (fragment_compressed w)
             (fragment_opcode w =? ANT_WS_OPCODE_BINARY);
      match s' with
      | Some s' => l_done (with_ws s' (websocket_fragment_reset w))
      | None => l_protocol_error s
      end
    else l_done s.

Definition l_ping (s : server C) (frame : ant_ws_frame_t) : outcome (server C * bool) :=
  s ← write_frame s (ant_ws_encode_frame None ANT_WS_OPCODE_PONG (Some (payload frame))
                       (length (payload frame)) false false);
  l_done s.

Definition l_close (s : server C) (frame : ant_ws_frame_t) : outcome (server C * bool) :=
  let p := payload frame in
  let '(code, reason) :=
    if 2 <=? payload_len frame
    then (u16 ((at_ p 0 <<' 8) |' at_ p 1), c_string (take 123 (drop 2 p)))
    else (1000, []) in
  s ← write_frame s (ant_ws_encode_frame None ANT_WS_OPCODE_CLOSE (Some p) (length p) false false);
  let s := websocket_emit_close s code reason true in
  l_done (with_conn s (c_shutdown (conn s))).

(** The dispatch table; the other opcodes are passed over. *)
Definition dispatch (s : server C) (frame : ant_ws_frame_t) : outcome (server C * bool) :=
  if opcode frame =? ANT_WS_OPCODE_CONTINUATION then l_continuation s frame
  else if (opcode frame =? ANT_WS_OPCODE_TEXT) || (opcode frame =? ANT_WS_OPCODE_BINARY)
  then l_message s frame
  else if opcode frame =? ANT_WS_OPCODE_CLOSE then l_close s frame
  else if opcode frame =? ANT_WS_OPCODE_PING then l_ping s frame
  else l_done s.

(** Every round that goes on consumes at least two bytes. *)
Fixpoint read_loop (rounds : nat) (s : server C) : outcome (server C) :=
  match rounds with
  | O => Ok s
  | S rounds =>
      if (length (c_buffer (conn s)) =? 0)%nat then Ok s
      else
        let '(result, frame, data) :=
          ant_ws_parse_frame (c_buffer (conn s)) true (per_message_deflate (ws s)) true in
        match result with
        | ANT_WS_FRAME_INCOMPLETE => Ok s
        | ANT_WS_FRAME_PROTOCOL_ERROR =>
            let s := emit s EvError in Ok (with_conn s (c_close (conn s)))
        | ANT_WS_FRAME_OK =>
            let c := c_consume (c_overwrite (conn s) data) (consumed_len frame) in
            '(s, go) ← dispatch (with_conn s c) frame;
            if go : bool then read_loop rounds s else Ok s
        end
  end.

Definition ant_websocket_server_on_read (s : server C) : outcome (server C) :=
  read_loop (S (length (c_buffer (conn s)))) s.

Definition ant_websocket_server_open (s : server C) : server C :=
  let w := ws s in
  emit (with_ws s (mk_ws (fragment w) (fragment_cap w) (fragment_opcode w) (fragmenting w)
    (fragment_compressed w) (max_payload_len w) (per_message_deflate w) WS_OPEN
    (close_emitted w))) EvOpen.

Definition ant_websocket_server_on_close (s : server C) : server C :=
  websocket_emit_close s 1000 [] true.

(** A read of [chunk], for which libuv suggested a size: bytes are stored in the connection and,
    when there are any, [on_read] of the listener is called. *)
Definition serve_read (s : server C) (read : Z * list Z) : outcome (server C) :=
  let '(suggested_size, chunk) := read in
  c ← c_arrive (conn s) suggested_size chunk;
  if zlen chunk =? 0 then Ok (with_conn s c) else ant_websocket_server_on_read (with_conn s c).

(** The reads of a connection, one after the other. *)
Fixpoint serve (s : server C) (reads : list (Z * list Z)) : outcome (server C) :=
  match reads with
  | [] => Ok s
  | read :: reads => s ← serve_read s read; serve s reads
  end.

(** The reads libuv can make on the way: it suggests any size and stores at least one byte and
    at most as many as it was offered. *)
Fixpoint serve_reads (s : server C) (reads : list (Z * list Z)) : Prop :=
  match reads with
  | [] => True
  | (sz, chunk) :: reads =>
      0 < sz <= 2 ^ 32 ∧ 0 < zlen chunk <= c_offered (conn s) sz ∧
      ∀ s', serve_read s (sz, chunk) = Ok s' → serve_reads s' reads
  end.

(** The same as a test. *)
Fixpoint serve_readsb (s : server C) (reads : list (Z * list Z)) : bool :=
  match reads with
  | [] => true
  | (sz, chunk) :: reads =>
      (0 <? sz) && (sz <=? 2 ^ 32) && (0 <? zlen chunk) && (zlen chunk <=? c_offered (conn s) sz) &&
      match serve_read s (sz, chunk) with Ok s' => serve_readsb s' reads | _ => true end
  end.

End server.

(** A socket as [ant_websocket_accept_server] leaves it. *)
Definition ant_websocket_accept_server (options : option (Z * bool)) : websocket_state_t :=
  let '(max_len, deflate) := default (WS_DEFAULT_MAX_PAYLOAD_LEN, false) options in
  mk_ws [] 0 0 false false max_len deflate WS_CONNECTING false.

(** ** What a client sends *)

(** A frame of a client, with its masking key. *)
Record cframe := mk_cframe { cf_fin : bool; cf_op : Z; cf_body : list Z; cf_key : list Z }.

Definition cf_wire (f : cframe) : list Z :=
  wire (cf_fin f) (cf_op f) (cf_body f) true false (cf_key f).

Definition cf_ok (f : cframe) : Prop :=
  Forall byte_ok (cf_body f) ∧ mask_ok (cf_key f) ∧ zlen (cf_body f) < 2 ^ 62 ∧
  0 <= cf_op f < 16 ∧ (8 <= cf_op f → cf_fin f = true ∧ zlen (cf_body f) <= 125).

(** The frame the parser makes of it. *)
Definition cf_frame (f : cframe) : ant_ws_frame_t :=
  mk_frame (cf_body f) (zlen (cf_body f)) (zlen (cf_wire f)) (cf_op f) (cf_key f) (cf_fin f)
    false true false.

Definition wires (fs : list cframe) : list Z := concat (cf_wire <$> fs).

Lemma cf_wire_ok f : cf_ok f → Forall byte_ok (cf_wire f).
Proof. intros (Hb & Hk & _). by apply wire_byte_ok. Qed.

Lemma cf_wire_nonempty f : (2 <= length (cf_wire f))%nat.
Proof.
  unfold cf_wire, wire, length_field. cbn [length]. rewrite length_app.
  repeat case_ltb; simpl; lia.
Qed.

Lemma parse_cframe `{Heap} f rest a :
  cf_ok f → Forall byte_ok rest →
  ∃ data, ant_ws_parse_frame (cf_wire f ++ rest) true a true = (ANT_WS_FRAME_OK, cf_frame f, data)
          ∧ length data = length (cf_wire f ++ rest) ∧ drop (length (cf_wire f)) data = rest.
Proof.
  intros Hf Hr. pose proof (cf_wire_ok f Hf) as Hw. destruct Hf as (Hb & Hk & Hn & Hop & Hctl).
  destruct (parse_wire (cf_fin f) (cf_op f) (cf_body f) true false (cf_key f) rest true a true)
    as [data E]; [done|done|done|lia|done| |done|done|done|].
  { intros H8. by destruct (Hctl H8). }
  exists data. split; [exact E|]. apply parse_bounds in E as (_ & _ & _ & Hl & Hd);
    [|by apply Forall_app]. split; [done|].
  unfold cf_frame, zlen in Hd. cbn [consumed_len] in Hd. rewrite Nat2Z.id in Hd.
  unfold cf_wire in *. rewrite Hd. by rewrite drop_app_length.
Qed.

(** ** The abstract server

    The message that is open, the events and the frames sent: what RFC 6455 makes of a
    sequence of frames. *)

Definition open_message : Type := option (bool * list Z).

Record progress := mk_progress {
  p_open : open_message;
  p_events : list ws_event;
  p_sent : list (list Z)
}.

Definition pong (body : list Z) : list Z :=
  wire true ANT_WS_OPCODE_PONG body false false [0; 0; 0; 0].

Definition data_op (binary : bool) : Z :=
  if binary then ANT_WS_OPCODE_BINARY else ANT_WS_OPCODE_TEXT.

Inductive spec_step (max : Z) : progress → cframe → progress → Prop :=
  | spec_whole binary body key evs out :
      zlen body <= max →
      spec_step max (mk_progress None evs out) (mk_cframe true (data_op binary) body key)
        (mk_progress None (evs ++ [EvMessage body binary]) out)
  | spec_first binary body key evs out :
      zlen body <= max →
      spec_step max (mk_progress None evs out) (mk_cframe false (data_op binary) body key)
        (mk_progress (Some (binary, body)) evs out)
  | spec_more binary acc body key evs out :
      zlen (acc ++ body) <= max →
      spec_step max (mk_progress (Some (binary, acc)) evs out)
        (mk_cframe false ANT_WS_OPCODE_CONTINUATION body key)
        (mk_progress (Some (binary, acc ++ body)) evs out)
  | spec_last binary acc body key evs out :
      zlen (acc ++ body) <= max →
      spec_step max (mk_progress (Some (binary, acc)) evs out)
        (mk_cframe true ANT_WS_OPCODE_CONTINUATION body key)
        (mk_progress None (evs ++ [EvMessage (acc ++ body) binary]) out)
  | spec_ping w body key evs out :
      spec_step max (mk_progress w evs out) (mk_cframe true ANT_WS_OPCODE_PING body key)
        (mk_progress w evs (out ++ [pong body]))
  | spec_pong w body key evs out :
      spec_step max (mk_progress w evs out) (mk_cframe true ANT_WS_OPCODE_PONG body key)
        (mk_progress w evs out).

(** A frame that makes a message longer than [max]: the server ends the connection with the code
    1009 of RFC 6455 and its text. *)
Definition too_big : list Z :=
  wire true ANT_WS_OPCODE_CLOSE ([3; 241] ++ bytes "Message Too Big") false false [0; 0; 0; 0].

Inductive spec_stop (max : Z) : progress → cframe → progress → Prop :=
  | stop_first fin binary body key evs out :
      max < zlen body →
      spec_stop max (mk_progress None evs out) (mk_cframe fin (data_op binary) body key)
        (mk_progress None evs (out ++ [too_big]))
  | stop_more fin binary acc body key evs out :
      zlen acc <= max → max < zlen (acc ++ body) →
      spec_stop max (mk_progress (Some (binary, acc)) evs out)
        (mk_cframe fin ANT_WS_OPCODE_CONTINUATION body key)
        (mk_progress None evs (out ++ [too_big])).

Inductive spec_steps (max : Z) : progress → list cframe → progress → Prop :=
  | spec_nil p : spec_steps max p [] p
  | spec_cons p f p' fs p'' :
      spec_step max p f p' → spec_steps max p' fs p'' → spec_steps max p (f :: fs) p''.

Lemma spec_steps_app max p fs1 p' fs2 p'' :
  spec_steps max p fs1 p' → spec_steps max p' fs2 p'' → spec_steps max p (fs1 ++ fs2) p''.
Proof. induction 1; [done|]. intros. simpl. econstructor; eauto. Qed.

Lemma fragment_grow_enough rounds cap need :
  0 < cap → need <= cap * 2 ^ Z.of_nat rounds → need <= fragment_grow rounds cap need.
Proof.
  revert cap. induction rounds as [|rounds IH]; intros cap Hc Hn; simpl; [lia|].
  case_ltb; [|lia]. case_ltb; [lia|].
  rewrite Nat2Z.inj_succ, Z.pow_succ_r in Hn by lia. apply IH; lia.
Qed.

(** Appending never writes outside the buffer. *)
Lemma fragment_append_spec `{Heap} w data :
  0 <= fragment_cap w → zlen (fragment w ++ data) < 2 ^ 63 →
  (∃ cap, 0 <= cap ∧ websocket_fragment_append w data
     = Ok (with_fragment w (fragment w ++ data) cap (fragment_opcode w) (fragmenting w)
             (fragment_compressed w), true))
  ∨ (websocket_fragment_append w data = Ok (w, false) ∧ ∃ m, realloc m = false).
Proof.
  intros Hc Hl. rewrite zlen_app in Hl. unfold websocket_fragment_append.
  pose proof (zlen_nonneg data). pose proof (zlen_nonneg (fragment w)).
  rewrite (proj2 (Z.ltb_ge _ (zlen data))) by lia.
  destruct (Z.ltb_spec (fragment_cap w) (zlen (fragment w) + zlen data)); last first.
  { left. by exists (fragment_cap w). }
  set (cap0 := if _ =? 0 then _ else _).
  assert (0 < cap0) by (unfold cap0; case_ltb; lia).
  pose proof (fragment_grow_enough 64 cap0 (zlen (fragment w) + zlen data)) as Hg.
  revert Hg. generalize (fragment_grow 64 cap0 (zlen (fragment w) + zlen data)). intros g Hg.
  destruct (realloc g) eqn:Er; cbn [negb]; [|right; eauto].
  left. exists g. split; [lia|]. by rewrite (proj2 (Z.ltb_ge g _)) by lia.
Qed.

Section refinement.
Context `{Heap} {C : Type} `{!Conn C}.
Variable inflate : list Z → Z → option (list Z).
Variable max : Z.
Hypothesis max_small : 0 <= max < 2 ^ 62.
Hypothesis memory : (∀ n, malloc n = true) ∧ (∀ n, realloc n = true).
Hypothesis writes_taken : ∀ c data, c_ok c → c_closing c = false → (c_write c data).2 = true.

(** The fragment buffer stands for the open message. *)
Definition holds (w : websocket_state_t) (o : open_message) : Prop :=
  max_payload_len w = max ∧ 0 <= fragment_cap w ∧
  match o with
  | None => fragmenting w = false ∧ fragment w = []
  | Some (binary, acc) =>
      fragmenting w = true ∧ fragment w = acc ∧ fragment_compressed w = false ∧
      fragment_opcode w = data_op binary
  end.

(** A server that has made this progress and has [rest] in its buffer. *)
Definition tracks (s : server C) (p : progress) (rest : list Z) : Prop :=
  c_ok (conn s) ∧ c_closing (conn s) = false ∧ c_buffer (conn s) = rest ∧
  events s = p_events p ∧ c_sent (conn s) = p_sent p ∧ holds (ws s) (p_open p).

Definition same_room (s s' : server C) : Prop :=
  ∀ n, c_room (conn s) n → c_room (conn s') n.

Lemma same_room_refl s : same_room s s.
Proof. by intros n. Qed.

#[local] Hint Resolve same_room_refl : core.

Lemma data_op_cases binary :
  (data_op binary =? ANT_WS_OPCODE_CONTINUATION) = false ∧
  (data_op binary =? ANT_WS_OPCODE_TEXT) || (data_op binary =? ANT_WS_OPCODE_BINARY) = true ∧
  (data_op binary =? ANT_WS_OPCODE_BINARY) = binary.
Proof. by destruct binary. Qed.

(** Appending to the open message, with memory at hand. *)
Lemma append_holds w o data :
  holds w o → zlen (fragment w ++ data) <= max →
  ∃ cap, 0 <= cap ∧ websocket_fragment_append w data
     = Ok (with_fragment w (fragment w ++ data) cap (fragment_opcode w) (fragmenting w)
             (fragment_compressed w), true).
Proof.
  intros (_ & Hc & _) Hl. destruct (fragment_append_spec w data) as [?|[_ [m Hm]]]; [done|lia|done|].
  destruct memory as [_ Hr]. by rewrite Hr in Hm.
Qed.

(** A control frame with a short body is encoded and written. *)
Lemma control_written s op body :
  c_ok (conn s) → c_closing (conn s) = false → zlen body <= 125 →
  ∃ c, write_frame s (ant_ws_encode_frame None op (Some body) (length body) false false)
       = Ok (with_conn s c) ∧ c_ok c ∧ c_buffer c = c_buffer (conn s) ∧ c_closing c = false ∧
       c_sent c = c_sent (conn s) ++ [wire true op body false false [0; 0; 0; 0]] ∧
       ∀ n, c_room (conn s) n → c_room c n.
Proof.
  intros Hok Hcl Hb. destruct memory as [Hm _]. set (frame := wire _ _ _ _ _ _).
  assert (ant_ws_encode_frame None op (Some body) (length body) false false
          = Ok (Some frame)) as ->.
  { destruct (ant_ws_encode_frame_spec None op body false false)
      as [[E _]|(key & _ & _ & ->)]; [lia|done| |done].
    unfold ant_ws_encode_frame in E. rewrite Hm in E. cbn [negb] in E. by case_match. }
  assert (zlen frame < 2 ^ 32) as Hlen.
  { unfold frame. rewrite zlen_wire; [|split; [|done]; repeat constructor; unfold byte_ok; lia].
    unfold header_size. repeat case_ltb; lia. }
  pose proof (c_write_law (conn s) frame Hok Hlen) as Hw.
  pose proof (writes_taken (conn s) frame Hok Hcl) as Ht.
  unfold write_frame. destruct (c_write (conn s) frame) as [c taken]. cbn [fst snd] in *.
  subst taken. destruct Hw as (? & ? & ? & ? & _ & ?). exists c.
  repeat (split; [done || congruence|]). done.
Qed.

(** Each frame the specification takes is handled as it says. *)
Lemma dispatch_tracks s p f p' rest :
  tracks s p rest → spec_step max p f p' → cf_ok f →
  ∃ s', dispatch inflate s (cf_frame f) = Ok (s', true) ∧ tracks s' p' rest ∧ same_room s s'.
Proof.
  intros (Hok & Hcl & Hbuf & Hev & Hout & Hh) Hstep Hf.
  destruct Hstep as [binary body key evs out Hb|binary body key evs out Hb
    |binary acc body key evs out Hb|binary acc body key evs out Hb|w body key evs out
    |w body key evs out]; unfold dispatch, cf_frame; cbn [opcode cf_op p_open p_events p_sent] in *.
  - destruct (data_op_cases binary) as (-> & -> & E3). unfold l_message.
    destruct Hh as (Hm & Hc & Hfr & Hfl). cbn [payload_len cf_body fin cf_fin payload rsv1 opcode cf_op].
    rewrite Hfr, Hm, (proj2 (Z.ltb_ge _ _)), E3 by lia. unfold deliver_message. simpl.
    eexists. split; [reflexivity|]. split; [|by intros n].
    repeat (split; [done|]). split; [cbn; by rewrite Hev|]. done.
  - destruct (data_op_cases binary) as (-> & -> & _). unfold l_message.
    destruct Hh as (Hm & Hc & Hfr & Hfl). cbn [payload_len cf_body fin cf_fin payload rsv1 opcode cf_op].
    rewrite Hfr, Hm, (proj2 (Z.ltb_ge _ _)) by lia.
    set (w1 := with_fragment (ws s) _ _ _ _ _).
    destruct (fragment_append_spec w1 body) as [(cap & Hcap & ->)|[_ [m Hbad]]];
      [done|unfold w1; cbn; rewrite Hfl; simpl; lia| |by rewrite (proj2 memory) in Hbad].
    eexists. split; [reflexivity|]. split; [|by intros n]. repeat (split; [done|]).
    cbn. rewrite Hfl. done.
  - destruct Hh as (Hm & Hc & Hfr & Hfl & Hcp & Hop). unfold l_continuation.
    cbn [payload cf_body fin cf_fin rsv1]. rewrite Hfr. cbn [negb].
    destruct (append_holds (ws s) (Some (binary, acc)) body) as (cap & Hcap & ->);
      [done|by rewrite Hfl|]. cbn. rewrite Hm, Hfl, (proj2 (Z.ltb_ge _ _)) by lia.
    eexists. split; [reflexivity|]. split; [|by intros n]. by repeat (split; [done|]).
  - destruct Hh as (Hm & Hc & Hfr & Hfl & Hcp & Hop). unfold l_continuation.
    cbn [payload cf_body fin cf_fin rsv1]. rewrite Hfr. cbn [negb].
    destruct (append_holds (ws s) (Some (binary, acc)) body) as (cap & Hcap & ->);
      [done|by rewrite Hfl|]. cbn. rewrite Hm, Hfl, (proj2 (Z.ltb_ge _ _)) by lia.
    rewrite Hcp, Hop. destruct (data_op_cases binary) as (_ & _ & ->). cbn.
    eexists. split; [reflexivity|]. split; [|by intros n]. repeat (split; [done|]).
    split; [cbn; by rewrite Hev|]. done.
  - destruct Hf as (_ & _ & _ & _ & Hctl). cbn in Hctl.
    destruct (control_written s ANT_WS_OPCODE_PONG body) as (c & E & Hc1 & Hc2 & Hc3 & Hc4 & Hc5);
      [done|done|apply Hctl; unfold ANT_WS_OPCODE_PING; lia|].
    fold (pong body) in Hc4. unfold l_ping. cbn [payload cf_body]. simpl. rewrite E.
    eexists. split; [reflexivity|]. split; [|exact Hc5].
    unfold tracks. split_and!; cbn; congruence || done.
  - eexists. split; [reflexivity|]. split; [|by intros n]. done.
Qed.

(** What is left of the server when it has asked for the end of the connection. *)
Definition stopped (s : server C) (p : progress) : Prop :=
  events s = p_events p ∧ c_sent (conn s) = p_sent p ∧ c_buffer (conn s) = [] ∧
  c_ending (conn s) = true.

Lemma too_big_sent s :
  c_ok (conn s) → c_closing (conn s) = false → c_buffer (conn s) = [] →
  ∃ s', l_too_big s = Ok (s', false) ∧ stopped s' (mk_progress None (events s) (c_sent (conn s) ++ [too_big])).
Proof.
  intros Hok Hcl Hb. unfold l_too_big, websocket_server_close_with_code. cbn [conn with_ws].
  rewrite Hcl.
  destruct (control_written (with_ws s (websocket_fragment_clear (ws s))) ANT_WS_OPCODE_CLOSE
    ([3; 241] ++ bytes "Message Too Big") Hok Hcl) as (c & E & Hc1 & Hc2 & _ & Hc3 & _); [done|].
  change (ant_ws_encode_close_frame None 1009 (Some (bytes "Message Too Big")) false) with
    (ant_ws_encode_frame None ANT_WS_OPCODE_CLOSE (Some ([3; 241] ++ bytes "Message Too Big"))
       (length ([3; 241] ++ bytes "Message Too Big")) false false).
  rewrite E. cbn [mbind outcome_bind]. eexists. split; [reflexivity|].
  destruct (c_shutdown_law c Hc1) as (_ & Hs1 & Hs2 & Hs3).
  unfold stopped. cbn [events conn with_conn with_ws p_events p_sent] in *.
  split; [done|]. split; [by rewrite Hs2, Hc3|]. split; [by rewrite Hs1, Hc2|]. done.
Qed.

(** A frame that makes a message too long ends the reading. *)
Lemma dispatch_stops s p f p' :
  tracks s p [] → spec_stop max p f p' → cf_ok f →
  ∃ s', dispatch inflate s (cf_frame f) = Ok (s', false) ∧ stopped s' p'.
Proof.
  intros (Hok & Hcl & Hbuf & Hev & Hout & Hh) Hstop Hf.
  destruct Hstop as [fin binary body key evs out Hb|fin binary acc body key evs out Ha Hb];
    unfold dispatch, cf_frame; cbn [opcode cf_op p_open p_events p_sent] in *.
  - destruct (data_op_cases binary) as (-> & -> & _). unfold l_message.
    destruct Hh as (Hm & Hc & Hfr & Hfl). cbn [payload_len cf_body].
    rewrite Hfr, Hm, (proj2 (Z.ltb_lt _ _)) by lia. rewrite <- Hev, <- Hout. by apply too_big_sent.
  - destruct Hf as (_ & _ & Hl & _). cbn [cf_body] in Hl.
    destruct Hh as (Hm & Hc & Hfr & Hfl & Hcp & Hop). unfold l_continuation.
    cbn [payload cf_body rsv1]. rewrite Hfr. cbn [negb].
    destruct (fragment_append_spec (ws s) body) as [(cap & Hcap & ->)|[_ [m Hbad]]];
      [done|rewrite Hfl, zlen_app; lia| |by rewrite (proj2 memory) in Hbad].
    cbn [mbind outcome_bind negb max_payload_len with_fragment fragment].
    rewrite Hm, Hfl, (proj2 (Z.ltb_lt _ _)) by lia. rewrite <- Hev, <- Hout.
    by apply (too_big_sent (with_ws s _)).
Qed.

(** One round of the loop on a whole frame. *)
Lemma read_loop_frame rounds s p f rest :
  cf_ok f → Forall byte_ok rest → tracks s p (cf_wire f ++ rest) →
  ∃ s', tracks s' p rest ∧ same_room s s' ∧
    read_loop inflate (S rounds) s
    = ('(s', go) ← dispatch inflate s' (cf_frame f);
       if go : bool then read_loop inflate rounds s' else Ok s').
Proof.
  intros Hf Hr (Hok & Hcl & Hbuf & Hev & Hout & Hh).
  destruct (parse_cframe f rest (per_message_deflate (ws s)) Hf Hr) as (data & Ep & Hl & Hd).
  assert (length data = length (c_buffer (conn s))) as Hl' by (by rewrite Hbuf).
  destruct (c_overwrite_law (conn s) data Hok Hl') as (Hok1 & Hb1 & Hs1 & Hc1 & Hr1).
  destruct (c_consume_law (c_overwrite (conn s) data) (zlen (cf_wire f)) Hok1)
    as (Hok2 & Hb2 & Hs2 & Hc2 & Hr2); [apply zlen_nonneg|].
  exists (with_conn s (c_consume (c_overwrite (conn s) data) (zlen (cf_wire f)))).
  split; [|split].
  - unfold tracks. cbn. split_and!; try congruence; try done.
    rewrite Hb2, Hb1. unfold zlen. by rewrite Nat2Z.id.
  - intros n Hn. cbn. auto.
  - cbn [read_loop]. rewrite Hbuf, Ep. pose proof (cf_wire_nonempty f).
    case_ltb; [rewrite length_app in *; lia|]. done.
Qed.

(** A buffer that holds a prefix of the frames: the whole frames in it are handled and what
    is left of it is shorter than the next one. *)
Definition caught_up (fs : list cframe) (rest : list Z) : Prop :=
  match fs with [] => rest = [] | f :: _ => (length rest < length (cf_wire f))%nat end.

Lemma wires_ok fs : Forall cf_ok fs → Forall byte_ok (wires fs).
Proof.
  induction 1 as [|f fs Hf Hfs IH]; [constructor|].
  apply Forall_app. split; [by apply cf_wire_ok|done].
Qed.

Lemma tracks_incomplete rounds s p f data more :
  cf_ok f → tracks s p data → data ++ more = cf_wire f → (length data < length (cf_wire f))%nat →
  read_loop inflate rounds s = Ok s.
Proof.
  intros Hf (_ & _ & Hbuf & _) E Hlt. destruct rounds as [|rounds]; [done|]. cbn [read_loop].
  case_ltb; [done|]. rewrite Hbuf.
  destruct Hf as (Hb & Hk & Hn & Hop & Hctl).
  pose proof (parse_wire_prefix (cf_fin f) (cf_op f) (cf_body f) true false (cf_key f) true
    (per_message_deflate (ws s)) true (length data)) as Hp. cbv zeta in Hp.
  fold (cf_wire f) in Hp. rewrite <- E, take_app_length in Hp.
  destruct (ant_ws_parse_frame data true _ true) as [[res fr] d'].
  cbn [fst] in Hp. rewrite Hp; [done|done|done|lia|done| |done|done|done|].
  - intros H8. by destruct (Hctl H8).
  - by rewrite E.
Qed.

(** The loop takes whole frames from the stream until it is in the middle of one or behind the
    last. *)
Lemma read_frames fs tail rounds s p p' data more :
  Forall cf_ok fs → Forall byte_ok tail → spec_steps max p fs p' → tracks s p data →
  data ++ more = wires fs ++ tail → (length data < rounds)%nat →
  ∃ fs' rest s' q rounds', read_loop inflate rounds s = read_loop inflate rounds' s' ∧
    tracks s' q rest ∧ spec_steps max q fs' p' ∧ Forall cf_ok fs' ∧ rest ++ more = wires fs' ++ tail ∧
    (length rest < rounds')%nat ∧ (fs' ≠ [] → caught_up fs' rest) ∧ same_room s s'.
Proof.
  intros Hfs Htail. revert rounds s p data. induction Hfs as [|f fs Hf Hfs IH];
    intros rounds s p data Hsteps Htr E Hr.
  { exists [], data, s, p, rounds. by split_and!. }
  change (wires (f :: fs)) with (cf_wire f ++ wires fs) in E. rewrite <- app_assoc in E.
  assert ((∃ k, cf_wire f = data ++ k ∧ k ≠ [])
    ∨ ∃ k, data = cf_wire f ++ k ∧ k ++ more = wires fs ++ tail) as [(k & Ek & Hk)|(k & -> & Ek)].
  { destruct (app_eq_inv _ _ _ _ E) as [(k & E1 & E2)|(k & E1 & E2)]; [right; eauto|].
    destruct k as [|x k]; [right; exists []; rewrite app_nil_r in E1 |- *; by rewrite E1 in *|].
    left. by exists (x :: k). }
  - exists (f :: fs), data, s, p, rounds.
    assert (length data < length (cf_wire f))%nat
      by (rewrite Ek, length_app; destruct k; [done|simpl; lia]).
    split_and!; try done; [by constructor|].
    change (wires (f :: fs)) with (cf_wire f ++ wires fs). by rewrite <- app_assoc.
  - inversion Hsteps as [|? ? p1 ? ? Hstep Hsteps']; subst.
    destruct rounds as [|rounds]; [lia|].
    assert (Forall byte_ok (k ++ more)) as [Hkok _]%Forall_app
      by (rewrite Ek; apply Forall_app; split; [by apply wires_ok|done]).
    destruct (read_loop_frame rounds s p f k Hf Hkok Htr) as (s1 & Htr1 & Hroom1 & ->).
    destruct (dispatch_tracks s1 p f p1 k Htr1 Hstep Hf) as (s2 & -> & Htr2 & Hroom2).
    pose proof (cf_wire_nonempty f). rewrite length_app in Hr.
    destruct (IH rounds s2 p1 k Hsteps' Htr2 Ek)
      as (fs' & rest & s' & q & rounds' & ? & ? & ? & ? & ? & ? & ? & Hroom3); [lia|].
    exists fs', rest, s', q, rounds'. split_and!; try done. intros n Hn. auto.
Qed.

(** Where a stream ends: behind its frames, or with one that is too long. *)
Definition ends (s : server C) (p : progress) (g : option cframe) : Prop :=
  match g with
  | None => tracks s p []
  | Some f => ∀ p', spec_stop max p f p' → stopped s p'
  end.

Definition end_ok (p : progress) (g : option cframe) : Prop :=
  match g with None => True | Some f => cf_ok f ∧ ∃ p', spec_stop max p f p' end.

Lemma spec_stop_unique p f p1 p2 : spec_stop max p f p1 → spec_stop max p f p2 → p1 = p2.
Proof. intros H1 H2. destruct H1; by inversion H2; subst. Qed.

(** One read. *)
Lemma read_chunk fs g s p p' rest sz chunk more n :
  Forall cf_ok fs → spec_steps max p fs p' → end_ok p' g → tracks s p rest →
  rest ++ chunk ++ more = wires (fs ++ option_list g) → c_room (conn s) n →
  0 < sz <= 2 ^ 32 → 0 < zlen chunk <= c_offered (conn s) sz → zlen chunk <= n →
  ∃ s', serve_read inflate s (sz, chunk) = Ok s' ∧
    ((more = [] ∧ ends s' p' g) ∨
     ∃ fs' rest' q, Forall cf_ok fs' ∧ spec_steps max q fs' p' ∧ tracks s' q rest' ∧
       rest' ++ more = wires (fs' ++ option_list g) ∧ caught_up (fs' ++ option_list g) rest' ∧
       c_room (conn s') (n - zlen chunk)).
Proof.
  intros Hfs Hsteps Hend Htr E Hroom Hsz Hc Hn. unfold serve_read.
  pose proof Htr as (Hok & Hcl & Hbuf & Hev & Hout & Hh).
  destruct (c_arrive_law (conn s) n sz chunk Hok Hroom) as (c & Ec & Hok1 & Hroom1 & Hb1 & Hs1 & Hc1);
    [done|done|lia|]. rewrite Ec. cbn [mbind outcome_bind]. rewrite (proj2 (Z.eqb_neq _ _)) by lia.
  unfold ant_websocket_server_on_read. cbn [conn with_conn]. rewrite Hb1, Hbuf.
  assert (Forall cf_ok (option_list g)) as Hg
    by (destruct g as [f|]; [by repeat constructor; apply Hend|constructor]).
  unfold wires in E. rewrite fmap_app, concat_app, app_assoc in E. fold (wires fs) in E.
  fold (wires (option_list g)) in E.
  destruct (read_frames fs (wires (option_list g)) (S (length (rest ++ chunk))) (with_conn s c) p p'
    (rest ++ chunk) more) as (fs' & rest' & s' & q & rounds & E1 & Htr' & Hsteps' & Hfs' & E' & Hr & Hup & Hroom');
    [done|by apply wires_ok|done| |done|lia|].
  { unfold tracks. cbn. split_and!; congruence || done. }
  assert (wires (fs' ++ option_list g) = wires fs' ++ wires (option_list g)) as Ew
    by (unfold wires; by rewrite fmap_app, concat_app).
  rewrite E1. destruct fs' as [|f fs'].
  1: assert (q = p') as -> by (by inversion Hsteps'). 1: destruct g as [f|].
  - change (wires [] ++ wires (option_list (Some f))) with (cf_wire f ++ []) in E'.
    rewrite app_nil_r in E'.
    destruct Hend as [Hf [p'' Hstop]]. destruct more as [|x more].
    + rewrite app_nil_r in E'. subst rest'. destruct rounds as [|rounds]; [lia|].
      rewrite <- (app_nil_r (cf_wire f)) in Htr'.
      destruct (read_loop_frame rounds s' p' f [] Hf ltac:(constructor) Htr') as (s1 & Htr1 & _ & ->).
      destruct (dispatch_stops s1 p' f p'' Htr1 Hstop Hf) as (s2 & -> & Hs2).
      exists s2. split; [done|]. left. split; [done|]. intros p3 H3.
      by rewrite (spec_stop_unique _ _ _ _ H3 Hstop).
    + assert (length rest' < length (cf_wire f))%nat
        by (rewrite <- E', length_app; simpl; lia).
      exists s'. split; [by apply (tracks_incomplete _ _ p' f rest' (x :: more))|].
      right. exists [], rest', p'. split_and!; try done; [|by apply Hroom'].
      cbn. by rewrite app_nil_r.
  - apply app_nil in E' as [-> ->]. exists s'.
    split; [|by left]. destruct rounds; [done|]. destruct Htr' as (_ & _ & Hb & _).
    cbn [read_loop]. by rewrite Hb.
  - specialize (Hup ltac:(done)). exists s'. apply Forall_cons in Hfs' as [Hf Hfs'].
    split.
    { apply (tracks_incomplete _ _ q f rest' (drop (length rest') (cf_wire f))); [done..| |done].
      change (wires (f :: fs')) with (cf_wire f ++ wires fs') in E'. rewrite <- app_assoc in E'.
      apply (f_equal (take (length rest'))) in E'. rewrite take_app_length, take_app_le in E' by (unfold caught_up in Hup; lia).
      rewrite E' at 1. apply take_drop. }
    right. exists (f :: fs'), rest', q. split_and!; try done; [by constructor| |by apply Hroom'].
    by rewrite Ew.
Qed.

(** Reads of any size. *)
Lemma serve_frames reads fs g s p p' rest n :
  Forall cf_ok fs → spec_steps max p fs p' → end_ok p' g → tracks s p rest →
  rest ++ concat reads.*2 = wires (fs ++ option_list g) → caught_up (fs ++ option_list g) rest →
  serve_reads inflate s reads → c_room (conn s) n → zlen (concat reads.*2) <= n →
  ∃ s', serve inflate s reads = Ok s' ∧ ends s' p' g.
Proof.
  revert fs s p rest n. induction reads as [|[sz chunk] reads IH];
    intros fs s p rest n Hfs Hsteps Hend Htr E Hup Hreads Hroom Hn; cbn [fmap list_fmap concat snd] in *.
  { rewrite app_nil_r in E. exists s. split; [done|].
    destruct (fs ++ option_list g) as [|f l] eqn:El.
    - apply app_nil in El as [-> Eg]. destruct g; [done|]. inversion Hsteps; subst.
      simpl in Hup. by subst.
    - exfalso. unfold caught_up in Hup. apply (f_equal length) in E.
      change (wires (f :: l)) with (cf_wire f ++ wires l) in E. rewrite length_app in E. lia. }
  destruct Hreads as (Hsz & Hc & Hreads). rewrite zlen_app in Hn.
  pose proof (zlen_nonneg (concat reads.*2)).
  destruct (read_chunk fs g s p p' rest sz chunk (concat reads.*2) n Hfs Hsteps Hend Htr E Hroom Hsz Hc)
    as (s1 & E1 & Hs1); [lia|]. specialize (Hreads s1 E1). cbn [serve]. rewrite E1. cbn [mbind outcome_bind].
  destruct Hs1 as [[Em He]|(fs' & rest' & q & Hfs' & Hsteps' & Htr' & E' & Hup' & Hroom')].
  - assert (reads = []) as ->; [|by exists s1]. destruct reads as [|[sz2 chunk2] reads]; [done|].
    destruct Hreads as (_ & [Hc2 _] & _). cbn in Em. apply app_nil in Em as [-> _]. done.
  - by apply (IH fs' s1 q rest' (n - zlen chunk)); [done..|lia].
Qed.

End refinement.

(** ** Messages *)

(** A piece of a message, its masking key, and the pings sent after it with theirs. *)
Record piece := mk_piece {
  p_body : list Z;
  p_key : list Z;
  p_pings : list (list Z * list Z)
}.

Record message := mk_message { m_binary : bool; m_first : piece; m_more : list piece }.

Definition ping_frames (p : piece) : list cframe :=
  (λ '(body, key), mk_cframe true ANT_WS_OPCODE_PING body key) <$> p_pings p.

Fixpoint more_frames (ps : list piece) : list cframe :=
  match ps with
  | [] => []
  | p :: ps =>
      mk_cframe (bool_decide (ps = [])) ANT_WS_OPCODE_CONTINUATION (p_body p) (p_key p)
      :: ping_frames p ++ more_frames ps
  end.

Definition message_frames (m : message) : list cframe :=
  mk_cframe (bool_decide (m_more m = [])) (data_op (m_binary m)) (p_body (m_first m))
    (p_key (m_first m))
  :: ping_frames (m_first m) ++ more_frames (m_more m).

Definition message_data (m : message) : list Z := concat (p_body <$> m_first m :: m_more m).

Definition message_event (m : message) : ws_event := EvMessage (message_data m) (m_binary m).

Definition piece_pongs (p : piece) : list (list Z) := (λ '(body, _), pong body) <$> p_pings p.

Definition message_pongs (m : message) : list (list Z) :=
  concat (piece_pongs <$> m_first m :: m_more m).

Definition piece_ok (p : piece) : Prop :=
  Forall byte_ok (p_body p) ∧ mask_ok (p_key p) ∧
  Forall (λ '(body, key), Forall byte_ok body ∧ mask_ok key ∧ zlen body <= 125) (p_pings p).

Definition message_ok (max : Z) (m : message) : Prop :=
  Forall piece_ok (m_first m :: m_more m) ∧ zlen (message_data m) <= max.

(** A message that gets too long: the pieces before the limit is passed, the frame that passes
    it, and whether that frame would have been the last. *)
Record oversize := mk_oversize {
  o_binary : bool;
  o_pieces : list piece;
  o_fin : bool;
  o_body : list Z;
  o_key : list Z
}.

Definition unfinished (op : Z) (p : piece) : list cframe :=
  mk_cframe false op (p_body p) (p_key p) :: ping_frames p.

Definition oversize_start (o : oversize) : list cframe :=
  match o_pieces o with
  | [] => []
  | p :: ps => unfinished (data_op (o_binary o)) p ++ concat (unfinished ANT_WS_OPCODE_CONTINUATION <$> ps)
  end.

Definition oversize_last (o : oversize) : cframe :=
  mk_cframe (o_fin o)
    (match o_pieces o with [] => data_op (o_binary o) | _ => ANT_WS_OPCODE_CONTINUATION end)
    (o_body o) (o_key o).

Definition oversize_ok (max : Z) (o : oversize) : Prop :=
  Forall piece_ok (o_pieces o) ∧ zlen (concat (p_body <$> o_pieces o)) <= max ∧
  max < zlen (concat (p_body <$> o_pieces o) ++ o_body o) ∧
  Forall byte_ok (o_body o) ∧ mask_ok (o_key o) ∧ zlen (o_body o) < 2 ^ 62.

(** What the server answers to it. *)
Definition oversize_sent (o : oversize) : list (list Z) :=
  concat (piece_pongs <$> o_pieces o) ++ [too_big].

Section messages.
Variable max : Z.
Hypothesis max_small : 0 <= max < 2 ^ 62.

Lemma pings_steps p w evs out :
  spec_steps max (mk_progress w evs out) (ping_frames p)
    (mk_progress w evs (out ++ piece_pongs p)).
Proof.
  unfold ping_frames, piece_pongs. revert out.
  induction (p_pings p) as [|[body key] l IH]; intros out; simpl.
  { rewrite app_nil_r. constructor. }
  econstructor; [constructor|]. specialize (IH (out ++ [pong body])).
  by rewrite <- app_assoc in IH.
Qed.

Lemma more_steps ps binary acc evs out :
  ps ≠ [] → zlen (acc ++ concat (p_body <$> ps)) <= max →
  spec_steps max (mk_progress (Some (binary, acc)) evs out) (more_frames ps)
    (mk_progress None (evs ++ [EvMessage (acc ++ concat (p_body <$> ps)) binary])
       (out ++ concat (piece_pongs <$> ps))).
Proof.
  revert acc out. induction ps as [|p ps IH]; intros acc out Hne Hl; [done|].
  cbn [more_frames fmap list_fmap concat] in *.
  rewrite !app_assoc in Hl. rewrite zlen_app in Hl.
  pose proof (zlen_nonneg (concat (p_body <$> ps))).
  destruct (bool_decide_reflect (ps = [])) as [->|Hps].
  - cbn [fmap list_fmap concat more_frames]. rewrite !app_nil_r.
    econstructor; [apply spec_last; lia|]. apply pings_steps.
  - econstructor; [apply spec_more; lia|]. eapply spec_steps_app; [apply pings_steps|].
    rewrite !app_assoc. apply IH; [done|]. rewrite zlen_app. lia.
Qed.

Lemma message_steps m evs out :
  message_ok max m →
  spec_steps max (mk_progress None evs out) (message_frames m)
    (mk_progress None (evs ++ [message_event m]) (out ++ message_pongs m)).
Proof.
  intros [_ Hl]. unfold message_frames, message_event, message_pongs, message_data in *.
  cbn [fmap list_fmap concat] in *. rewrite zlen_app in Hl.
  pose proof (zlen_nonneg (concat (p_body <$> m_more m))).
  destruct (bool_decide_reflect (m_more m = [])) as [->|Hm].
  - cbn [fmap list_fmap concat more_frames]. rewrite !app_nil_r.
    econstructor; [apply spec_whole; lia|]. apply pings_steps.
  - econstructor; [apply spec_first; lia|]. eapply spec_steps_app; [apply pings_steps|].
    rewrite !app_assoc. apply more_steps; [done|]. rewrite zlen_app. lia.
Qed.

Lemma messages_steps ms evs out :
  Forall (message_ok max) ms →
  spec_steps max (mk_progress None evs out) (concat (message_frames <$> ms))
    (mk_progress None (evs ++ (message_event <$> ms)) (out ++ concat (message_pongs <$> ms))).
Proof.
  intros Hms. revert evs out. induction Hms as [|m ms Hm Hms IH]; intros evs out;
    cbn [fmap list_fmap concat].
  { rewrite !app_nil_r. constructor. }
  eapply spec_steps_app; [by apply message_steps|].
  specialize (IH (evs ++ [message_event m]) (out ++ message_pongs m)).
  by rewrite <- !app_assoc in IH.
Qed.

Lemma pings_ok p : piece_ok p → Forall cf_ok (ping_frames p).
Proof.
  intros (_ & _ & Hp). unfold ping_frames. apply Forall_fmap. eapply Forall_impl; [exact Hp|].
  intros [body key] (Hb & Hk & Hl). unfold cf_ok. cbn. unfold ANT_WS_OPCODE_PING.
  split_and!; try done; lia.
Qed.

Lemma piece_frame_ok fin op p :
  piece_ok p → zlen (p_body p) <= max → 0 <= op < 8 → cf_ok (mk_cframe fin op (p_body p) (p_key p)).
Proof. intros (Hb & Hk & _) Hl Hop. unfold cf_ok. cbn. split_and!; try done; lia. Qed.

Lemma more_ok ps :
  Forall piece_ok ps → zlen (concat (p_body <$> ps)) <= max → Forall cf_ok (more_frames ps).
Proof.
  induction 1 as [|p ps Hp Hps IH]; intros Hl; [constructor|].
  cbn [more_frames fmap list_fmap concat] in *. rewrite zlen_app in Hl.
  pose proof (zlen_nonneg (p_body p)). pose proof (zlen_nonneg (concat (p_body <$> ps))).
  constructor; [apply piece_frame_ok; [done|lia|unfold ANT_WS_OPCODE_CONTINUATION; lia]|].
  apply Forall_app. split; [by apply pings_ok|]. apply IH. lia.
Qed.

Lemma messages_ok ms :
  Forall (message_ok max) ms → Forall cf_ok (concat (message_frames <$> ms)).
Proof.
  induction 1 as [|m ms [Hm Hl] Hms IH]; [constructor|].
  cbn [fmap list_fmap concat]. apply Forall_app. split; [|done].
  apply Forall_cons in Hm as [Hp Hps]. unfold message_data in Hl.
  cbn [fmap list_fmap concat] in Hl. rewrite zlen_app in Hl.
  pose proof (zlen_nonneg (p_body (m_first m))).
  pose proof (zlen_nonneg (concat (p_body <$> m_more m))).
  constructor; [apply piece_frame_ok; [done|lia|]|].
  { unfold data_op, ANT_WS_OPCODE_BINARY, ANT_WS_OPCODE_TEXT. destruct (m_binary m); lia. }
  apply Forall_app. split; [by apply pings_ok|]. apply more_ok; [done|lia].
Qed.

Lemma unfinished_steps ps binary acc evs out :
  zlen (acc ++ concat (p_body <$> ps)) <= max →
  spec_steps max (mk_progress (Some (binary, acc)) evs out)
    (concat (unfinished ANT_WS_OPCODE_CONTINUATION <$> ps))
    (mk_progress (Some (binary, acc ++ concat (p_body <$> ps))) evs
       (out ++ concat (piece_pongs <$> ps))).
Proof.
  revert acc out. induction ps as [|p ps IH]; intros acc out Hl; cbn [fmap list_fmap concat] in *.
  { rewrite !app_nil_r. constructor. }
  rewrite !app_assoc in *. rewrite zlen_app in Hl. pose proof (zlen_nonneg (concat (p_body <$> ps))).
  eapply spec_steps_app; [econstructor; [apply spec_more; lia|apply pings_steps]|].
  apply IH. rewrite zlen_app. lia.
Qed.

(** The state in front of the frame that is too long, and what that frame does. *)
Lemma oversize_steps o evs out :
  oversize_ok max o →
  ∃ q, spec_steps max (mk_progress None evs out) (oversize_start o) q ∧
    spec_stop max q (oversize_last o) (mk_progress None evs (out ++ oversize_sent o)).
Proof.
  intros (_ & Hl & Hbig & _). unfold oversize_start, oversize_last, oversize_sent.
  destruct (o_pieces o) as [|p ps]; cbn [fmap list_fmap concat app] in *.
  - eexists. split; [constructor|]. by apply stop_first.
  - rewrite zlen_app in Hl. pose proof (zlen_nonneg (concat (p_body <$> ps))).
    pose proof (zlen_nonneg (p_body p)).
    eexists. split.
    + eapply spec_steps_app; [econstructor; [apply spec_first; lia|apply pings_steps]|].
      apply unfinished_steps. rewrite zlen_app. lia.
    + rewrite !app_assoc. rewrite <- (app_assoc out). apply stop_more; [by rewrite zlen_app|done].
Qed.

Lemma unfinished_ok op p :
  piece_ok p → zlen (p_body p) <= max → 0 <= op < 8 → Forall cf_ok (unfinished op p).
Proof. intros Hp Hl Hop. constructor; [by apply piece_frame_ok|by apply pings_ok]. Qed.

Lemma oversize_frames_ok o :
  oversize_ok max o → Forall cf_ok (oversize_start o) ∧ cf_ok (oversize_last o).
Proof.
  intros (Hps & Hl & _ & Hb & Hk & Hlen). assert (0 <= data_op (o_binary o) < 8) as Hop
    by (unfold data_op, ANT_WS_OPCODE_BINARY, ANT_WS_OPCODE_TEXT; case_match; lia).
  split.
  - unfold oversize_start. destruct Hps as [|p ps Hp Hps]; [constructor|].
    cbn [fmap list_fmap concat] in Hl. rewrite zlen_app in Hl. pose proof (zlen_nonneg (p_body p)).
    pose proof (zlen_nonneg (concat (p_body <$> ps))).
    apply Forall_app. split; [apply unfinished_ok; [done|lia|done]|].
    assert (zlen (concat (p_body <$> ps)) <= max) as Hl' by lia. clear Hl Hp.
    induction Hps as [|p' ps Hp Hps IH]; [constructor|]. cbn [fmap list_fmap concat] in *.
    rewrite zlen_app in Hl'. pose proof (zlen_nonneg (p_body p')).
    pose proof (zlen_nonneg (concat (p_body <$> ps))). apply Forall_app. split; [|apply IH; lia].
    apply unfinished_ok; [done|lia|unfold ANT_WS_OPCODE_CONTINUATION; lia].
  - unfold oversize_last, cf_ok. cbn. unfold ANT_WS_OPCODE_CONTINUATION.
    split_and!; try done; destruct (o_pieces o); lia.
Qed.

End messages.

(** ** The theorems *)

(** The frames of a stream of messages, the last of them possibly one that gets too long. *)
Definition stream_frames (ms : list message) (last : option oversize) : list cframe :=
  concat (message_frames <$> ms) ++ from_option oversize_start [] last
  ++ option_list (oversize_last <$> last).

(** C4: a client sends uncompressed messages that are at most [max_payload_len] long, in however
    many fragments, with pings between them, and libuv hands on their bytes in reads of any size,
    at most as many at a time as the connection offers.  Then the server, whether or not
    compression was agreed, emits exactly those messages, in order, each with the concatenation of
    its fragments and its type, answers every ping with its pong, and has nothing left in its
    buffer.  When the stream ends with the frame that makes a further message longer than
    [max_payload_len], the server emits the messages before and nothing of it, answers with the
    close frame of code 1009 and asks for the end of the connection.
    This holds over any connection that keeps the promises of [Conn], as long as memory is not
    refused and writes are taken. *)
Theorem websocket_messages_correct `{Heap} {C} `{!Conn C} inflate options max c0 ms last reads n :
  max_payload_len (ant_websocket_accept_server options) = max → 0 <= max < 2 ^ 62 →
  (∀ k, malloc k = true) → (∀ k, realloc k = true) →
  (∀ c data, c_ok c → c_closing c = false → (c_write c data).2 = true) →
  c_ok c0 → c_closing c0 = false → c_buffer c0 = [] → c_sent c0 = [] → c_room c0 n →
  Forall (message_ok max) ms → from_option (oversize_ok max) True last →
  concat reads.*2 = wires (stream_frames ms last) → zlen (concat reads.*2) <= n →
  let s0 := mk_server (ant_websocket_accept_server options) c0 [] in
  serve_reads inflate s0 reads →
  ∃ s, serve inflate s0 reads = Ok s ∧
    events s = message_event <$> ms ∧
    c_sent (conn s) = concat (message_pongs <$> ms) ++ from_option oversize_sent [] last ∧
    c_buffer (conn s) = [] ∧ (is_Some last → c_ending (conn s) = true).
Proof.
  intros Hmo Hmax Hm Hr Hw Hok Hcl Hbuf Hsent Hroom Hms Hlast E Hn s0 Hreads.
  assert (tracks max s0 (mk_progress None [] []) []) as Htr.
  { unfold tracks, holds, s0. cbn [ws conn events]. unfold ant_websocket_accept_server in *.
    destruct (default _ _). cbn in *. by split_and!. }
  pose proof (messages_steps max ms [] [] Hms) as Hsteps. cbn [app] in Hsteps.
  assert (∃ q, spec_steps max (mk_progress None [] [])
    (concat (message_frames <$> ms) ++ from_option oversize_start [] last) q ∧
    end_ok max q (oversize_last <$> last) ∧
    Forall cf_ok (concat (message_frames <$> ms) ++ from_option oversize_start [] last) ∧
    ∀ s : server C, ends max s q (oversize_last <$> last) → events s = message_event <$> ms ∧
      c_sent (conn s) = concat (message_pongs <$> ms) ++ from_option oversize_sent [] last ∧
      c_buffer (conn s) = [] ∧ (is_Some last → c_ending (conn s) = true)) as (q & Hq & Hend & Hfs & Hres).
  { destruct last as [o|]; cbn [from_option fmap option_fmap option_map] in *.
    - destruct (oversize_steps max o (message_event <$> ms) (concat (message_pongs <$> ms)) Hlast) as (q & Hq & Hstop).
      destruct (oversize_frames_ok max Hmax o Hlast) as [Ho1 Ho2].
      exists q. split; [by eapply spec_steps_app|]. split; [by split; [|eexists]|].
      split; [by apply Forall_app; split; [apply (messages_ok max Hmax)|]|].
      intros s Hs. destruct (Hs _ Hstop) as (H1 & H2 & H3 & H4). by split_and!.
    - eexists. split; [by rewrite app_nil_r|]. split; [done|].
      split; [rewrite app_nil_r; by apply (messages_ok max Hmax)|].
      intros s (_ & _ & Hb & Hev & Hs & _). rewrite app_nil_r. by split_and!. }
  destruct (serve_frames inflate max Hmax (conj Hm Hr) Hw reads _ (oversize_last <$> last)
    s0 _ q [] n Hfs Hq Hend Htr) as (s & Es & Hs); [| |done|done|done|exists s; eauto].
  - rewrite <- app_assoc. exact E.
  - unfold caught_up. destruct (_ ++ option_list _) as [|f fs]; [done|].
    pose proof (cf_wire_nonempty f). simpl. lia.
Qed.

Definition sample_messages : list message :=
  [mk_message false (mk_piece (bytes "hel") [1; 2; 3; 4] [(bytes "ping", [9; 8; 7; 6])])
     [mk_piece (bytes "lo") [5; 6; 7; 8] []];
   mk_message true (mk_piece [0; 255] [0; 0; 0; 1] []) []].

(** Nine bytes in two fragments are more than the limit of eight. *)
Definition sample_oversize : oversize :=
  mk_oversize false [mk_piece (bytes "long ") [4; 3; 2; 1] []] true (bytes "text") [7; 7; 7; 7].

Lemma serve_readsb_true `{Heap} {C} `{!Conn C} inflate (s : server C) reads :
  serve_readsb inflate s reads = true → serve_reads inflate s reads.
Proof.
  revert s. induction reads as [|[sz chunk] reads IH]; intros s; cbn [serve_readsb serve_reads]; [done|].
  rewrite !andb_true_iff, !Z.leb_le, !Z.ltb_lt. intros ((((H1 & H2) & H3) & H4) & Hr).
  split; [done|]. split; [done|]. intros s' E. rewrite E in Hr. by apply IH.
Qed.

(** The second read is larger than what libuv suggests for it. *)
Lemma websocket_messages_witness :
  let stream := wires (stream_frames sample_messages (Some sample_oversize)) in
  ∃ s, serve (H := roomy_heap) (Conn0 := ant_conn_Conn (H := roomy_heap) (H0 := willing_uv))
         (λ _ _, None)
         (mk_server (ant_websocket_accept_server (Some (8, true))) ant_conn_create [])
         [(65536, take 3 stream); (1, drop 3 stream)] = Ok s ∧
    events s = [EvMessage (bytes "hello") false; EvMessage [0; 255] true] ∧
    sent (conn s) = [pong (bytes "ping"); too_big] ∧ ant_conn_buffer (conn s) = [] ∧
    (is_Some (Some sample_oversize) → closing (conn s) || shut (conn s) = true).
Proof.
  intros stream. apply (websocket_messages_correct (H := roomy_heap)
    (Conn0 := ant_conn_Conn (H := roomy_heap) (H0 := willing_uv)) (λ _ _, None) (Some (8, true)) 8
    ant_conn_create sample_messages (Some sample_oversize) _ 1000000).
  - reflexivity.
  - lia.
  - done.
  - done.
  - intros c data _ Hc. cbn in *. unfold ant_conn_write. rewrite Hc. done.
  - unfold c_ok. cbn. unfold conn_ok, buffer_cap, ant_conn_create, zlen. conn_fields.
    rewrite length_replicate. unfold ANT_CONN_READ_BUFFER_SIZE. lia.
  - reflexivity.
  - reflexivity.
  - reflexivity.
  - split; [done|]. unfold buffer_cap, ant_conn_create, zlen. conn_fields.
    rewrite length_replicate. unfold ANT_CONN_READ_BUFFER_SIZE. lia.
  - repeat (constructor; try (vm_compute; congruence)).
  - repeat (constructor; try (vm_compute; congruence)).
  - reflexivity.
  - vm_compute. congruence.
  - apply serve_readsb_true. vm_compute. reflexivity.
Defined.

(** ** The close event *)

Definition is_close (e : ws_event) : bool :=
  match e with EvClose _ _ _ => true | _ => false end.

Definition close_events {C} (s : server C) : nat := length (List.filter is_close (events s)).

(** The flag counts the close events. *)
Definition close_counted {C} (s : server C) : Prop :=
  close_events s = if close_emitted (ws s) then 1%nat else 0%nat.

Section closing.
Context `{Heap} {C : Type} `{!Conn C}.
Variable inflate : list Z → Z → option (list Z).

Lemma counted_emit (s : server C) e :
  is_close e = false → close_counted s → close_counted (emit s e).
Proof.
  unfold close_counted, close_events, emit. cbn [events ws].
  rewrite List.filter_app. simpl. intros ->. by rewrite app_nil_r.
Qed.

Lemma counted_ws (s : server C) w :
  close_emitted w = close_emitted (ws s) → close_counted s → close_counted (with_ws s w).
Proof. unfold close_counted, close_events. cbn [events ws with_ws]. by intros ->. Qed.

Lemma counted_conn (s : server C) c : close_counted s → close_counted (with_conn s c).
Proof. done. Qed.

Lemma counted_emit_close (s : server C) code reason clean :
  close_counted s → close_counted (websocket_emit_close s code reason clean).
Proof.
  unfold websocket_emit_close. destruct (close_emitted (ws s)) eqn:E; [done|].
  unfold close_counted, close_events. rewrite E. cbn [events ws emit with_ws].
  rewrite List.filter_app, length_app. intros ->. done.
Qed.

Lemma append_keeps_flag w data w' ok :
  websocket_fragment_append w data = Ok (w', ok) → close_emitted w' = close_emitted w.
Proof.
  unfold websocket_fragment_append.
  generalize (fragment_grow 64 (if fragment_cap w =? 0 then 1024 else fragment_cap w)
    (zlen (fragment w) + zlen data)).
  intros g E. repeat case_match; by simplify_eq.
Qed.

Definition all_counted (o : outcome (server C * bool)) : Prop :=
  match o with Ok (s, _) => close_counted s | _ => True end.

Lemma counted_write (s : server C) frame s' :
  write_frame s frame = Ok s' → close_counted s → close_counted s'.
Proof. unfold write_frame. intros E. repeat case_match; by simplify_eq. Qed.

Lemma counted_protocol_error (s : server C) : close_counted s → all_counted (l_protocol_error s).
Proof. intros Hs. by apply counted_conn, counted_emit. Qed.

Lemma counted_too_big (s : server C) : close_counted s → all_counted (l_too_big s).
Proof.
  intros Hs. unfold l_too_big, websocket_server_close_with_code.
  assert (close_counted (with_ws s (websocket_fragment_clear (ws s)))) as Hs'
    by (by apply counted_ws).
  destruct (c_closing _); simpl; [done|].
  destruct (write_frame _ _) as [s'| |] eqn:E; simpl; [|done..].
  apply counted_conn. by eapply counted_write.
Qed.

Lemma counted_deliver (s : server C) data comp bin (s' : server C) :
  deliver_message inflate s data comp bin = Ok (Some s') → close_counted s →
  close_counted s' ∧ close_emitted (ws s') = close_emitted (ws s).
Proof.
  unfold deliver_message. intros E Hs. repeat case_match; simplify_eq;
    (split; [by apply counted_emit|done]).
Qed.

Lemma counted_message (s : server C) f : close_counted s → all_counted (l_message inflate s f).
Proof.
  intros Hs. unfold l_message.
  destruct (fragmenting _); [by apply counted_protocol_error|].
  destruct (_ <? _); [by apply counted_too_big|]. destruct (fin f).
  - destruct (deliver_message _ _ _ _ _) as [[s'|]| |] eqn:E; simpl; try done.
    + by eapply counted_deliver.
    + by apply counted_protocol_error.
  - destruct (websocket_fragment_append _ _) as [[w ok]| |] eqn:E; simpl; [|done..].
    apply append_keeps_flag in E. cbn in E.
    destruct ok; [by apply counted_ws|]. by apply counted_protocol_error, counted_ws.
Qed.

Lemma counted_continuation (s : server C) f : close_counted s → all_counted (l_continuation inflate s f).
Proof.
  intros Hs. unfold l_continuation.
  destruct (fragmenting _); [|by apply counted_protocol_error].
  destruct (rsv1 f); [by apply counted_protocol_error|]. cbn [negb].
  destruct (websocket_fragment_append _ _) as [[w ok]| |] eqn:E; simpl; [|done..].
  apply append_keeps_flag in E.
  assert (close_counted (with_ws s w)) as Hw by (by apply counted_ws).
  destruct ok; [|by apply counted_protocol_error]. cbn [negb].
  destruct (_ <? _); [by apply counted_too_big|]. destruct (fin f); [|done].
  destruct (deliver_message _ _ _ _ _) as [[s'|]| |] eqn:Ed; simpl; try done.
  - destruct (counted_deliver _ _ _ _ _ Ed Hw) as [Hs' Hf]. apply counted_ws; [|done].
    by rewrite Hf.
  - by apply counted_protocol_error.
Qed.

Lemma counted_dispatch (s : server C) f : close_counted s → all_counted (dispatch inflate s f).
Proof.
  intros Hs. unfold dispatch.
  destruct (_ =? ANT_WS_OPCODE_CONTINUATION); [by apply counted_continuation|].
  destruct (_ || _); [by apply counted_message|].
  destruct (_ =? ANT_WS_OPCODE_CLOSE).
  - unfold l_close. destruct (if _ <=? _ then _ else _) as [code reason].
    destruct (write_frame _ _) as [s'| |] eqn:E; simpl; [|done..].
    apply counted_conn, counted_emit_close. by eapply counted_write.
  - destruct (_ =? ANT_WS_OPCODE_PING); [|done]. unfold l_ping.
    destruct (write_frame _ _) as [s'| |] eqn:E; simpl; [|done..]. by eapply counted_write.
Qed.

Lemma counted_read_loop rounds (s : server C) s' :
  close_counted s → read_loop inflate rounds s = Ok s' → close_counted s'.
Proof.
  revert s. induction rounds as [|rounds IH]; intros s Hs; cbn [read_loop]; [by intros [= <-]|].
  case_ltb; [by intros [= <-]|].
  destruct (ant_ws_parse_frame _ _ _ _) as [[res f] data]. destruct res; [by intros [= <-]| |].
  - set (s1 := with_conn _ _).
    pose proof (counted_dispatch s1 f (counted_conn _ _ Hs)) as Hd.
    destruct (dispatch inflate s1 f) as [[s2 go]| |]; simpl; [|done..].
    destruct go; [by apply IH|]. by intros [= <-].
  - intros [= <-]. by apply counted_conn, counted_emit.
Qed.

(** What can happen to a socket of the server. *)
Inductive socket_step : server C → server C → Prop :=
  | step_open s : socket_step s (ant_websocket_server_open s)
  | step_read s read s' : serve_read inflate s read = Ok s' → socket_step s s'
  | step_conn_closed s : socket_step s (ant_websocket_server_on_close s).

Definition accepted (options : option (Z * bool)) (c : C) : server C :=
  mk_server (ant_websocket_accept_server options) c [].

Lemma socket_step_counted s s' : socket_step s s' → close_counted s → close_counted s'.
Proof.
  intros [s1|s1 [sz chunk] s2 E|s1] Hs.
  - apply counted_emit; [done|]. by apply counted_ws.
  - cbn [serve_read] in E. destruct (c_arrive _ _ _) as [c| |]; [|done..]. cbn [mbind outcome_bind] in E.
    destruct (_ =? _); [injection E as <-; by apply counted_conn|]. by eapply counted_read_loop, E.
  - by apply counted_emit_close.
Qed.

End closing.

(** A close frame and a text frame behind it in the same read. *)
Definition close_then_text : list Z :=
  wires [mk_cframe true ANT_WS_OPCODE_CLOSE [] [1; 2; 3; 4];
         mk_cframe true ANT_WS_OPCODE_TEXT (bytes "late") [1; 2; 3; 4]].

(** The message event comes after the close event, with the socket in the closed state. *)
Definition message_after_close : Prop :=
  let c := mk_conn close_then_text (zlen close_then_text) 0 false false false 0 [] false in
  ∃ s, ant_websocket_server_on_read (H := roomy_heap)
         (Conn0 := ant_conn_Conn (H := roomy_heap) (H0 := willing_uv))
         (λ _ _, None) (accepted None c) = Ok s ∧
    events s = [EvClose 1000 [] true; EvMessage (bytes "late") false] ∧
    ready_state (ws s) = WS_CLOSED.

Lemma websocket_message_after_close : message_after_close.
Proof. eexists. split; [vm_compute; reflexivity|]. split; reflexivity. Qed.

(** C37: a socket emits its close event at most once, whatever arrives, in whatever order the
    connection is opened, read and closed, and the flag [close_emitted] says whether it did.  It
    may not be the last: frames that stand behind a close frame in the same read are still
    delivered ([message_after_close]). *)
Theorem websocket_close_once `{Heap} {C} `{!Conn C} inflate options c s :
  rtc (socket_step inflate) (accepted options c) s →
  close_events s = (if close_emitted (ws s) then 1%nat else 0%nat) ∧ (close_events s <= 1)%nat ∧ message_after_close.
Proof.
  intros Hr.
  assert (close_counted s) as Hc.
  { assert (close_counted (accepted options c)) as H0.
    { unfold accepted, ant_websocket_accept_server. by destruct (default _ _). }
    induction Hr as [s|s s1 s2 Hstep _ IH]; [done|]. apply IH. by eapply socket_step_counted. }
  split; [done|]. split; [|exact websocket_message_after_close]. rewrite Hc. destruct (close_emitted _); lia.
Qed.

Lemma websocket_close_once_witness :
  let on_close := ant_websocket_server_on_close in
  let s := on_close (on_close (accepted (C := ant_conn_t) None ant_conn_create)) in
  (close_events s <= 1)%nat ∧ events s = [EvClose 1000 [] true].
Proof.
  intros on_close s. split; [|reflexivity].
  apply (websocket_close_once (H := roomy_heap)
    (Conn0 := ant_conn_Conn (H := roomy_heap) (H0 := willing_uv)) (λ _ _, None) None ant_conn_create).
  eapply rtc_l; [apply step_conn_closed|]. eapply rtc_l; [apply step_conn_closed|]. apply rtc_refl.
Defined.
