(* ===== verification/Hash.v ===== *)
(** * Hashing: src/include/hash.h

    The hash of property keys and interned strings, a port of rapidhash.  Its two mixing
    primitives multiply 64-bit words and keep both halves of the product; the file has one body
    of each for compilers with a 128-bit product and one made of four 32-bit products.  The
    class [Multiplier] is that choice, with an instance for each body; [hash_key] is over it.

    A key is the list of its bytes and its length the length of the list, so that a read past
    its end is [Ub].  [p] and [i] of the code are an offset and the bytes from there on. *)

From stdpp Require Import base list.
From S2P Require Import Prelude Utils.

(** ** The mixing primitives *)

(** The 128-bit product, its halves xored. *)
Definition ant_hash_mix (a b : Z) : Z :=
  let r := a * b in u64 r ^' u64 (r >>' 64).

(** The same on compilers without a 128-bit type: four 32-bit products. *)
Definition ant_hash_mix_portable (a b : Z) : Z :=
  let ha := a >>' 32 in
  let hb := b >>' 32 in
  let la := u32 a in
  let lb := u32 b in
  let rh := u64 (ha * hb) in
  let rm0 := u64 (ha * lb) in
  let rm1 := u64 (hb * la) in
  let rl := u64 (la * lb) in
  let t := u64 (rl + u64 (rm0 <<' 32)) in
  let lo := u64 (t + u64 (rm1 <<' 32)) in
  let hi := u64 (rh + (rm0 >>' 32) + (rm1 >>' 32) + Z.b2z (t <? rl) + Z.b2z (lo <? t)) in
  lo ^' hi.

(** The two halves of the product, in place of the operands. *)
Definition ant_hash_mum (a b : Z) : Z * Z :=
  let r := a * b in (u64 r, u64 (r >>' 64)).

Definition ant_hash_mum_portable (a b : Z) : Z * Z :=
  let ha := a >>' 32 in
  let hb := b >>' 32 in
  let la := u32 a in
  let lb := u32 b in
  let rh := u64 (ha * hb) in
  let rm0 := u64 (ha * lb) in
  let rm1 := u64 (hb * la) in
  let rl := u64 (la * lb) in
  let t := u64 (rl + u64 (rm0 <<' 32)) in
  let a' := u64 (t + u64 (rm1 <<' 32)) in
  (a', u64 (rh + (rm0 >>' 32) + (rm1 >>' 32) + Z.b2z (t <? rl) + Z.b2z (a' <? t))).

Definition ant_hash_secret : list Z :=
  [0x2d358dccaa6c78a5; 0x8bb84b93962eacc9; 0x4b33a62ed433d4a3; 0x4d5a2da51de1aa47;
   0xa0761d6478bd642f; 0xe7037ed1a0b428db; 0x90ed1765281c388c; 0xaaaaaaaaaaaaaaaa].

(** What a compiler provides. *)
Class Multiplier := { mix : Z → Z → Z; mum : Z → Z → Z * Z }.

Definition wide : Multiplier := {| mix := ant_hash_mix; mum := ant_hash_mum |}.

Definition portable : Multiplier := {| mix := ant_hash_mix_portable; mum := ant_hash_mum_portable |}.

(** ** The hash *)

(** [memcpy] of [n] bytes into a little-endian word. *)
Definition ant_hash_read (n : nat) (key : list Z) (p : nat) : outcome Z :=
  if (p + n <=? length key)%nat then Ok (le_word (take n (drop p key))) else Ub.

Definition ant_hash_read64 : list Z → nat → outcome Z := ant_hash_read 8.

Definition ant_hash_read32 : list Z → nat → outcome Z := ant_hash_read 4.

Definition read_byte (key : list Z) (p : nat) : outcome Z :=
  match key !! p with Some b => Ok b | None => Ub end.

Abbreviation secret k := (at_ ant_hash_secret k) (only parsing).

Section Hash.

Context `{Multiplier}.

(** [ant_hash_mix(ant_hash_read64(p) ^ s, ant_hash_read64(p + 8) ^ seed)]. *)
Definition absorb (key : list Z) (p : nat) (s seed : Z) : outcome Z :=
  x ← ant_hash_read64 key p;
  y ← ant_hash_read64 key (p + 8);
  Ok (mix (x ^' s) (y ^' seed)).

(** The branch on keys of at most 16 bytes: [seed], [a] and [b]. *)
Definition hash_short (key : list Z) (seed : Z) : outcome (Z * Z * Z) :=
  let len := length key in
  if (4 <=? len)%nat then
    let seed := seed ^' zlen key in
    if (8 <=? len)%nat then
      a ← ant_hash_read64 key 0;
      b ← ant_hash_read64 key (len - 8);
      Ok (seed, a, b)
    else
      a ← ant_hash_read32 key 0;
      b ← ant_hash_read32 key (len - 4);
      Ok (seed, a, b)
  else if (0 <? len)%nat then
    p0 ← read_byte key 0;
    pl ← read_byte key (len - 1);
    pm ← read_byte key (len / 2);
    Ok (seed, u64 (p0 <<' 45) |' pl, pm)
  else Ok (seed, 0, 0).

(** The end of a key longer than 16 bytes, of which [i] bytes from [p] on are left: up to two
    rounds of sixteen bytes, then the last sixteen. *)
Definition hash_rest (key : list Z) (p i : nat) (seed : Z) : outcome (Z * Z * Z) :=
  seed ← (if (16 <? i)%nat then
            seed ← absorb key p (secret 2) seed;
            if (32 <? i)%nat then absorb key (p + 16) (secret 2) seed else Ok seed
          else Ok seed);
  a ← ant_hash_read64 key (p + i - 16);
  b ← ant_hash_read64 key (p + i - 8);
  Ok (seed, a ^' Z.of_nat i, b).

(** The loop over blocks of 48 bytes. *)
Fixpoint hash_blocks (rounds : nat) (key : list Z) (p i : nat) (seed see1 see2 : Z)
    : outcome (nat * nat * Z * Z * Z) :=
  match rounds with
  | O => Ub
  | S rounds =>
      seed ← absorb key p (secret 0) seed;
      see1 ← absorb key (p + 16) (secret 1) see1;
      see2 ← absorb key (p + 32) (secret 2) see2;
      let p := (p + 48)%nat in
      let i := (i - 48)%nat in
      if (48 <? i)%nat then hash_blocks rounds key p i seed see1 see2
      else Ok (p, i, seed, see1, see2)
  end.

Definition hash_key (key : list Z) : outcome Z :=
  let len := length key in
  let seed := mix (secret 2) (secret 1) in
  r ← (if (len <=? 16)%nat then hash_short key seed
       else if (len <=? 48)%nat then hash_rest key 0 len seed
       else
         '(p, i, seed, see1, see2) ← hash_blocks len key 0 len seed seed seed;
         hash_rest key p i (seed ^' (see1 ^' see2)));
  let '(seed, a, b) := r in
  let '(a, b) := mum (a ^' secret 1) (b ^' seed) in
  Ok (mix (a ^' secret 7) (b ^' secret 1 ^' zlen key)).

End Hash.

(** ** The two bodies agree *)

Definition word64 (x : Z) : Prop := 0 <= x < 2 ^ 64.

Create HintDb hash discriminated.

Lemma word64_log2 x : word64 x → Z.log2 x < 64.
Proof. intros Hx. destruct (decide (x = 0)) as [->|]; [done|]. apply Z.log2_lt_pow2; unfold word64 in *; lia. Qed.

Lemma word64_lxor x y : word64 x → word64 y → word64 (x ^' y).
Proof.
  intros Hx Hy. pose proof (word64_log2 x Hx). pose proof (word64_log2 y Hy). unfold word64 in *.
  assert (0 <= x ^' y) by (apply Z.lxor_nonneg; lia). split; [done|].
  destruct (decide (x ^' y = 0)) as [->|Hne]; [lia|]. apply Z.log2_lt_pow2; [lia|].
  pose proof (Z.log2_lxor x y). lia.
Qed.

Lemma word64_u64 x : word64 (u64 x).
Proof. apply u64_range. Qed.

Lemma word64_mix a b : word64 (ant_hash_mix a b).
Proof. apply word64_lxor; apply word64_u64. Qed.

Lemma mum_portable a b : word64 a → word64 b → ant_hash_mum_portable a b = ant_hash_mum a b.
Proof.
  unfold word64. intros Ha Hb. unfold ant_hash_mum_portable, ant_hash_mum, u32.
  rewrite !shiftr_div, !shiftl_mul by lia.
  pose proof (Z.div_mod a (2 ^ 32)). pose proof (Z.div_mod b (2 ^ 32)).
  pose proof (Z.mod_pos_bound a (2 ^ 32)). pose proof (Z.mod_pos_bound b (2 ^ 32)).
  assert (0 <= a / 2 ^ 32 < 2 ^ 32) by (split; [apply Z.div_pos|apply Z.div_lt_upper_bound]; lia).
  assert (0 <= b / 2 ^ 32 < 2 ^ 32) by (split; [apply Z.div_pos|apply Z.div_lt_upper_bound]; lia).
  set (ha := a / 2 ^ 32) in *. set (hb := b / 2 ^ 32) in *.
  set (la := a mod 2 ^ 32) in *. set (lb := b mod 2 ^ 32) in *.
  replace (a * b) with (ha * hb * 2 ^ 64 + (ha * lb) * 2 ^ 32 + (hb * la) * 2 ^ 32 + la * lb) by lia.
  rewrite (u64_small (ha * hb)), (u64_small (ha * lb)), (u64_small (hb * la)), (u64_small (la * lb))
    by nia.
  assert (0 <= ha * hb <= (2 ^ 32 - 1) * (2 ^ 32 - 1)) by nia.
  assert (0 <= ha * lb <= (2 ^ 32 - 1) * (2 ^ 32 - 1)) by nia.
  assert (0 <= hb * la <= (2 ^ 32 - 1) * (2 ^ 32 - 1)) by nia.
  assert (0 <= la * lb <= (2 ^ 32 - 1) * (2 ^ 32 - 1)) by nia.
  set (hh := ha * hb) in *. set (m0 := ha * lb) in *. set (m1 := hb * la) in *.
  set (ll := la * lb) in *. clearbody hh m0 m1 ll.
  f_equal; repeat case_ltb; simpl Z.b2z; word.
Qed.

(** Both bodies of [ant_hash_mix] xor the halves that [ant_hash_mum] gives. *)
Lemma mix_portable a b : word64 a → word64 b → ant_hash_mix_portable a b = ant_hash_mix a b.
Proof. intros Ha Hb. pose proof (mum_portable a b Ha Hb) as [= E1 E2]. unfold ant_hash_mix. by rewrite <- E1, <- E2. Qed.

Lemma secret_word k : word64 (secret k).
Proof. unfold word64. destruct k as [|[|[|[|[|[|[|[|[|k]]]]]]]]]; cbn; lia. Qed.

#[export] Hint Resolve word64_lxor word64_u64 word64_mix secret_word : hash.

(** ** The hash reads within its key *)

(** [o1] and [o2] return the same, which satisfies [P]. *)
Definition both {A} (o1 o2 : outcome A) (P : A → Prop) : Prop := ∃ x, o1 = Ok x ∧ o2 = Ok x ∧ P x.

Lemma both_Ok {A} (x : A) (P : A → Prop) : P x → both (Ok x) (Ok x) P.
Proof. by exists x. Qed.

Lemma both_bind {A B} (o1 o2 : outcome A) (f1 f2 : A → outcome B) (P : A → Prop) (Q : B → Prop) :
  both o1 o2 P → (∀ x, P x → both (f1 x) (f2 x) Q) → both (o1 ≫= f1) (o2 ≫= f2) Q.
Proof. intros (x & -> & -> & Hx) Hf. by apply Hf. Qed.

Section Bounds.

Variable key : list Z.
Hypothesis key_bytes : Forall byte_ok key.
Hypothesis key_len : word64 (zlen key).

Lemma read_ok n p : (n ≤ 8)%nat → (p + n ≤ length key)%nat →
  both (ant_hash_read n key p) (ant_hash_read n key p) word64.
Proof.
  intros Hn Hp. unfold ant_hash_read. rewrite (proj2 (Nat.leb_le _ _)) by done. apply both_Ok.
  assert (length (take n (drop p key)) = n) as Hl by (rewrite length_take, length_drop; lia).
  pose proof (le_word_range (take n (drop p key))) as Hr. unfold zlen in Hr. rewrite Hl in Hr.
  unfold word64. pose proof (Z.pow_le_mono_r 256 (Z.of_nat n) 8). change (256 ^ 8) with (2 ^ 64) in *.
  specialize (Hr (Forall_take _ _ _ (Forall_drop _ _ _ key_bytes))). lia.
Qed.

Lemma read_byte_ok p : (p < length key)%nat → both (read_byte key p) (read_byte key p) (λ b, 0 <= b < 256).
Proof.
  intros Hp. unfold read_byte. destruct (lookup_lt_is_Some_2 key p Hp) as [b E]. rewrite E. apply both_Ok.
  by apply (Forall_lookup_1 _ _ _ _ key_bytes E).
Qed.

Lemma absorb_ok p s seed : (p + 16 ≤ length key)%nat → word64 s → word64 seed →
  both (absorb (H := portable) key p s seed) (absorb (H := wide) key p s seed) word64.
Proof.
  intros Hp Hs Hseed. eapply both_bind; [by apply read_ok; lia|]. intros x Hx.
  eapply both_bind; [by apply read_ok; lia|]. intros y Hy. cbn. rewrite mix_portable by auto with hash.
  apply both_Ok. auto with hash.
Qed.

Definition words (r : Z * Z * Z) : Prop := word64 r.1.1 ∧ word64 r.1.2 ∧ word64 r.2.

Lemma hash_short_ok seed : word64 seed → both (hash_short key seed) (hash_short key seed) words.
Proof.
  intros Hs. unfold hash_short. destruct (Nat.leb_spec 4 (length key)); [destruct (Nat.leb_spec 8 (length key))|destruct (Nat.ltb_spec 0 (length key))].
  - eapply both_bind; [apply read_ok; lia|]. intros a Ha. eapply both_bind; [apply read_ok; lia|]. intros b Hb.
    apply both_Ok. split_and!; simpl; auto with hash.
  - eapply both_bind; [apply read_ok; lia|]. intros a Ha. eapply both_bind; [apply read_ok; lia|]. intros b Hb.
    apply both_Ok. split_and!; simpl; auto with hash.
  - eapply both_bind; [apply read_byte_ok; lia|]. intros a Ha.
    eapply both_bind; [apply read_byte_ok; lia|]. intros b Hb.
    eapply both_bind; [apply read_byte_ok; apply Nat.div_lt; lia|]. intros c Hc.
    apply both_Ok. split_and!; simpl; [done| |cbv beta in *; unfold word64; lia].
    cbv beta in *. rewrite shiftl_mul by lia. rewrite u64_small by lia. rewrite lor_add_low by lia. unfold word64. lia.
  - apply both_Ok. split_and!; simpl; unfold word64 in *; lia.
Qed.

Lemma hash_rest_ok p i seed :
  (p + i = length key)%nat → (16 < length key)%nat → (i ≤ 48)%nat → word64 seed →
  both (hash_rest (H := portable) key p i seed) (hash_rest (H := wide) key p i seed) words.
Proof.
  intros Hp Hl Hi Hs. eapply (both_bind _ _ _ _ word64).
  - destruct (Nat.ltb_spec 16 i); [|by apply both_Ok].
    eapply both_bind; [apply absorb_ok; [lia|apply secret_word|done]|].
    intros x Hx. destruct (Nat.ltb_spec 32 i); [|by apply both_Ok]. apply absorb_ok; [lia|apply secret_word|done].
  - intros x Hx. eapply both_bind; [apply read_ok; lia|]. intros a Ha. eapply both_bind; [apply read_ok; lia|]. intros b Hb.
    apply both_Ok. assert (word64 (Z.of_nat i)) by (unfold word64, zlen in *; lia). split_and!; simpl; auto with hash.
Qed.

(** One round leaves a key with at least one byte more. *)
Lemma hash_blocks_ok rounds : ∀ p i seed see1 see2,
  (p + i = length key)%nat → (48 < i ≤ rounds)%nat → word64 seed → word64 see1 → word64 see2 →
  both (hash_blocks (H := portable) rounds key p i seed see1 see2) (hash_blocks (H := wide) rounds key p i seed see1 see2)
    (λ r, let '(p, i, seed, see1, see2) := r in
       (p + i = length key)%nat ∧ (0 < i ≤ 48)%nat ∧ word64 seed ∧ word64 see1 ∧ word64 see2).
Proof.
  induction rounds as [|rounds IH]; intros p i seed see1 see2 Hp Hi H0 H1 H2; [lia|]. cbn [hash_blocks].
  do 3 (eapply both_bind; [apply absorb_ok; [lia|apply secret_word|done]|]; intros ? ?).
  destruct (Nat.ltb_spec 48 (i - 48)); [apply IH; (done || lia)|]. apply both_Ok. split_and!; (done || lia).
Qed.

Lemma hash_key_ok : both (hash_key (H := portable) key) (hash_key (H := wide) key) word64.
Proof.
  assert (mix (Multiplier := portable) (secret 2) (secret 1) = mix (Multiplier := wide) (secret 2) (secret 1)) as Hseed
    by (apply mix_portable; apply secret_word).
  unfold hash_key. rewrite Hseed. clear Hseed. set (seed := mix _ _). assert (word64 seed) as Hs by apply word64_mix.
  clearbody seed. eapply (both_bind _ _ _ _ words).
  - destruct (Nat.leb_spec (length key) 16); [by apply hash_short_ok|].
    destruct (Nat.leb_spec (length key) 48); [apply hash_rest_ok; (done || lia)|].
    eapply both_bind; [apply hash_blocks_ok; (done || lia)|]. intros [[[[p i] s0] s1] s2] (Hp & Hi & ? & ? & ?).
    apply hash_rest_ok; auto with hash; lia.
  - intros [[s a] b] (Hs' & Ha & Hb). cbn [fst snd] in *. cbn [mum mix portable wide].
    rewrite mum_portable by auto with hash. cbv beta iota zeta delta [ant_hash_mum].
    rewrite mix_portable by auto 6 with hash. apply both_Ok. auto with hash.
Qed.

End Bounds.

(** The hash of a key reads nothing outside the key, whatever its length, ends, and is a
    64-bit word; compilers without a 128-bit product compute the same hash: the four 32-bit
    products, their carries included, give the two halves of the product. *)
Theorem hash_key_correct key :
  Forall byte_ok key → zlen key < 2 ^ 64 →
  ∃ h, hash_key (H := wide) key = Ok h ∧ hash_key (H := portable) key = Ok h ∧ 0 <= h < 2 ^ 64.
Proof.
  intros Hb Hl. destruct (hash_key_ok key Hb) as (h & E1 & E2 & Hh); [unfold word64, zlen in *; lia|]. eauto.
Qed.

Lemma hash_key_correct_witness :
  ∃ h, hash_key (H := wide) (replicate 150 255) = Ok h ∧ hash_key (H := portable) (replicate 150 255) = Ok h ∧
    0 <= h < 2 ^ 64.
Proof. apply hash_key_correct; [apply Forall_replicate; unfold byte_ok; lia|reflexivity]. Defined.
