(* ===== verification/ShapeIndex.v ===== *)
(** * The hash index of property keys

    Models the open-addressing table of src/src/shapes.c: the key encodings, [shape_key_hash]
    over [ant_hash_mix] of src/include/hash.h, the probe loops of [shape_lookup] and
    [shape_index_put], and [shape_index_capacity].  A table is the list of its entries; an
    entry is empty (key 0), a tombstone (key UINT64_MAX) or holds a key and a slot.

    [table_ok] is the invariant that makes linear probing right: every key is found on its
    probe run before any empty entry.  Under it, and as long as an empty entry is left, a
    lookup ends and finds exactly the entries of the table; insertion, deletion and a change of
    slot keep it. *)

From stdpp Require Import gmap.
From S2P Require Import Prelude Utils Hash.

(** ** Hashing *)

Definition shape_key_hash (k : Z) : Z :=
  ant_hash_mix (k ^' at_ ant_hash_secret 0) (at_ ant_hash_secret 1).

(** ** Keys *)

Definition SHAPE_IDX_EMPTY : Z := 0.

Definition SHAPE_IDX_TOMB : Z := 2 ^ 64 - 1.

Definition SHAPE_IDX_MIN_CAP : Z := 8.

(** An interned string is identified by its address. *)
Definition shape_key_interned (interned : Z) : Z := u64 (interned <<' 1).

Definition shape_key_symbol (sym_off : Z) : Z := u64 (sym_off <<' 1) |' 1.

Definition shape_child_key (prop_key attrs : Z) : Z := prop_key ^' u64 (attrs <<' 56).

(** ** The table *)

Record shape_index_entry_t := mk_entry { e_key : Z; e_slot : Z }.

#[global] Instance shape_index_entry_eq_dec : EqDecision shape_index_entry_t.
Proof. solve_decision. Defined.

Definition empty_entry : shape_index_entry_t := mk_entry SHAPE_IDX_EMPTY 0.

(** Both probe loops: from [i] on, around the table, to the first entry that satisfies [stop].
    A probe that has seen all entries would never end; that is [Ub]. *)
Fixpoint probe (stop : shape_index_entry_t → bool) (rounds : nat)
    (tab : list shape_index_entry_t) (mask i : Z) : outcome nat :=
  match rounds with
  | O => Ub
  | S rounds =>
      match tab !! Z.to_nat i with
      | None => Ub
      | Some e => if stop e then Ok (Z.to_nat i) else probe stop rounds tab mask (u32 (i + 1) &' mask)
      end
  end.

(** Where [shape_lookup] stops: at the key, or at an empty entry. *)
Definition hit_or_empty (key : Z) (e : shape_index_entry_t) : bool :=
  (e_key e =? key) || (e_key e =? SHAPE_IDX_EMPTY).

(** Where [shape_index_put] stops. *)
Definition is_free (e : shape_index_entry_t) : bool :=
  (e_key e =? SHAPE_IDX_EMPTY) || (e_key e =? SHAPE_IDX_TOMB).

(** The loop of [shape_lookup]: the position of the entry, [None] for NULL. *)
Definition index_lookup (tab : list shape_index_entry_t) (mask count key : Z)
    : outcome (option nat) :=
  p ← probe (hit_or_empty key) (length tab) tab mask (u32 (shape_key_hash key) &' mask);
  match tab !! p with
  | None => Ub
  | Some e => Ok (if e_key e =? key then if e_slot e <? count then Some p else None else None)
  end.

Definition shape_index_put (tab : list shape_index_entry_t) (mask key slot : Z)
    : outcome (list shape_index_entry_t) :=
  p ← probe is_free (length tab) tab mask (u32 (shape_key_hash key) &' mask);
  Ok (<[p := mk_entry key slot]> tab).

(** [while (cap <= needed * 2) cap *= 2]. *)
Fixpoint capacity_loop (rounds : nat) (cap needed : Z) : Z :=
  match rounds with
  | O => cap
  | S rounds => if cap <=? u32 (needed * 2) then capacity_loop rounds (u32 (cap * 2)) needed else cap
  end.

Definition shape_index_capacity (needed : Z) : Z := capacity_loop 32 SHAPE_IDX_MIN_CAP needed.

(** ** Invariant *)

(** A key that can be stored. *)
Definition live_key (k : Z) : Prop := k ≠ SHAPE_IDX_EMPTY ∧ k ≠ SHAPE_IDX_TOMB.

Definition live_entry (e : shape_index_entry_t) : Prop := live_key (e_key e).

#[global] Instance live_key_dec k : Decision (live_key k).
Proof. unfold live_key. apply _. Defined.

#[global] Instance live_entry_dec e : Decision (live_entry e).
Proof. unfold live_entry. apply _. Defined.

(** A size of a table: a power of two that fits in 31 bits. *)
Definition table_size (cap : Z) : Prop := ∃ k, 0 <= k <= 31 ∧ cap = 2 ^ k.

(** The [n]th entry of the probe run of a key. *)
Definition run (tab : list shape_index_entry_t) (key : Z) (n : nat) : nat :=
  Z.to_nat ((shape_key_hash key + Z.of_nat n) mod zlen tab).

(** [p] is on the run of [key] before any empty entry and any other entry with [key]. *)
Definition reach (tab : list shape_index_entry_t) (key : Z) (p : nat) : Prop :=
  ∃ n, (n < length tab)%nat ∧ p = run tab key n ∧
    ∀ m e, (m < n)%nat → tab !! run tab key m = Some e → hit_or_empty key e = false.

Definition table_ok (tab : list shape_index_entry_t) : Prop :=
  table_size (zlen tab) ∧
  ∀ p e, tab !! p = Some e → live_entry e → reach tab (e_key e) p.

(** The table maps [key] to [slot]. *)
Definition has (tab : list shape_index_entry_t) (key slot : Z) : Prop :=
  mk_entry key slot ∈ tab.

(** Entries that are not empty: keys and tombstones. *)
Definition occupied (tab : list shape_index_entry_t) : nat :=
  length (filter (λ e, e_key e ≠ SHAPE_IDX_EMPTY) tab).

(** ** Probe runs *)

Lemma table_size_pos cap : table_size cap → 0 < cap <= 2 ^ 31.
Proof.
  intros (k & Hk & ->). split; [apply Z.pow_pos_nonneg; lia|].
  apply Z.pow_le_mono_r; lia.
Qed.

Lemma mask_mod cap x : table_size cap → u32 x &' (cap - 1) = x mod cap.
Proof.
  intros (k & Hk & ->). rewrite land_mask by lia. unfold u32.
  replace (2 ^ 32) with (2 ^ k * 2 ^ (32 - k)) by (rewrite <- Z.pow_add_r by lia; f_equal; lia).
  pose proof (Z.pow_pos_nonneg 2 k). pose proof (Z.pow_pos_nonneg 2 (32 - k)).
  rewrite Z.rem_mul_r by lia. rewrite Z.mul_comm, Z.mod_add by lia. apply Z.mod_mod. lia.
Qed.

#[local] Coercion Z.of_nat : nat >-> Z.

Section Runs.

Context (tab : list shape_index_entry_t) (key : Z).
Context (Hsize : table_size (zlen tab)).

Lemma run_lt n : (run tab key n < length tab)%nat.
Proof.
  pose proof (table_size_pos _ Hsize). unfold run.
  pose proof (Z.mod_pos_bound (shape_key_hash key + n) (zlen tab)). unfold zlen in *. lia.
Qed.

Lemma run_lookup n : ∃ e, tab !! run tab key n = Some e.
Proof. apply lookup_lt_is_Some_2, run_lt. Qed.

Lemma run_inj n m :
  (n < length tab)%nat → (m < length tab)%nat → run tab key n = run tab key m → n = m.
Proof.
  pose proof (table_size_pos _ Hsize). unfold run. intros Hn Hm E.
  apply Z2Nat.inj in E; try (apply Z.mod_pos_bound; lia).
  pose proof (Z.div_mod (shape_key_hash key + n) (zlen tab)).
  pose proof (Z.div_mod (shape_key_hash key + m) (zlen tab)).
  unfold zlen in *.
  assert (Z.of_nat n - Z.of_nat m = length tab *
    ((shape_key_hash key + n) / length tab - (shape_key_hash key + m) / length tab)) as D by lia.
  set (q := _ - _ : Z) in D at 2. assert (q = 0) by nia. lia.
Qed.

Lemma run_surj p : (p < length tab)%nat → ∃ n, (n < length tab)%nat ∧ run tab key n = p.
Proof.
  pose proof (table_size_pos _ Hsize). intros Hp. unfold run, zlen in *.
  set (d := (Z.of_nat p - shape_key_hash key) mod length tab).
  pose proof (Z.mod_pos_bound (Z.of_nat p - shape_key_hash key) (length tab)).
  exists (Z.to_nat d). split; [lia|]. rewrite Z2Nat.id by lia. unfold d.
  rewrite Zplus_mod_idemp_r.
  replace (shape_key_hash key + (Z.of_nat p - shape_key_hash key)) with (Z.of_nat p) by lia.
  rewrite Z.mod_small by lia. lia.
Qed.

Lemma run_next (n : nat) :
  u32 ((shape_key_hash key + n) mod zlen tab + 1) &' (zlen tab - 1)
  = (shape_key_hash key + S n) mod zlen tab.
Proof.
  pose proof (table_size_pos _ Hsize).
  rewrite mask_mod by done. rewrite Zplus_mod_idemp_l. f_equal. lia.
Qed.

(** A probe returns the first entry of the run at which it may stop. *)
Lemma probe_from stop (rounds m n : nat) e :
  (m <= n < m + rounds)%nat →
  tab !! run tab key n = Some e → stop e = true →
  (∀ j e', (m <= j < n)%nat → tab !! run tab key j = Some e' → stop e' = false) →
  probe stop rounds tab (zlen tab - 1) ((shape_key_hash key + m) mod zlen tab)
  = Ok (run tab key n).
Proof.
  revert m. induction rounds as [|rounds IH]; intros m Hr He Hs Hj; [lia|]. simpl.
  change (Z.to_nat ((shape_key_hash key + m) mod zlen tab)) with (run tab key m).
  destruct (run_lookup m) as [e' Em]. rewrite Em.
  destruct (decide (m = n)) as [->|Hne].
  - rewrite Em in He. injection He as ->. by rewrite Hs.
  - rewrite (Hj m e') by (done || lia). rewrite run_next.
    apply IH; [lia|done|done|]. intros j e'' Hj'. apply Hj. lia.
Qed.

Lemma probe_first stop n e :
  (n < length tab)%nat →
  tab !! run tab key n = Some e → stop e = true →
  (∀ j e', (j < n)%nat → tab !! run tab key j = Some e' → stop e' = false) →
  probe stop (length tab) tab (zlen tab - 1) (u32 (shape_key_hash key) &' (zlen tab - 1))
  = Ok (run tab key n).
Proof.
  intros Hn He Hs Hj. rewrite mask_mod by done.
  replace (shape_key_hash key) with (shape_key_hash key + 0%nat) by lia.
  apply probe_from with e; [lia|done|done|]. intros j e' Hj'. apply Hj. lia.
Qed.

(** Some entry stops the probe: so there is a first. *)
Lemma probe_stops stop p e :
  tab !! p = Some e → stop e = true →
  ∃ n e', (n < length tab)%nat ∧ tab !! run tab key n = Some e' ∧ stop e' = true ∧
    ∀ j e'', (j < n)%nat → tab !! run tab key j = Some e'' → stop e'' = false.
Proof.
  intros Ep Hs. destruct (run_surj p) as (k & Hk & <-); [by eapply lookup_lt_Some|].
  revert e Ep Hs. induction (lt_wf k) as [k _ IH]. intros e Ep Hs.
  set (at_stop := λ j, if tab !! run tab key j is Some e' then stop e' else false).
  destruct (existsb at_stop (seq 0 k)) eqn:Hex.
  - apply existsb_exists in Hex as (j & Hj & Hs'). apply in_seq in Hj. unfold at_stop in Hs'.
    destruct (tab !! run tab key j) as [e'|] eqn:Ej; [|done].
    apply (IH j) with e'; [lia|lia|done|done].
  - apply existsb_false in Hex. rewrite Forall_forall in Hex.
    exists k, e. split; [done|]. split; [done|]. split; [done|]. intros j e'' Hj Ej.
    specialize (Hex j). unfold at_stop in Hex. rewrite Ej in Hex.
    apply Hex, list_elem_of_In, in_seq. lia.
Qed.

End Runs.

(** ** The table as a map *)

Lemma hit_or_empty_true key e :
  hit_or_empty key e = true ↔ e_key e = key ∨ e_key e = SHAPE_IDX_EMPTY.
Proof. unfold hit_or_empty. rewrite orb_true_iff, !Z.eqb_eq. done. Qed.

Lemma hit_or_empty_false key e :
  hit_or_empty key e = false ↔ e_key e ≠ key ∧ e_key e ≠ SHAPE_IDX_EMPTY.
Proof. unfold hit_or_empty. rewrite orb_false_iff, !Z.eqb_neq. done. Qed.

Lemma is_free_true e : is_free e = true ↔ ¬ live_entry e.
Proof.
  unfold is_free, live_entry, live_key. rewrite orb_true_iff, !Z.eqb_eq.
  destruct (decide (e_key e = SHAPE_IDX_EMPTY)), (decide (e_key e = SHAPE_IDX_TOMB)); tauto.
Qed.

Lemma is_free_false e : is_free e = false ↔ live_entry e.
Proof.
  destruct (is_free e) eqn:E; [apply is_free_true in E; done|].
  destruct (decide (live_entry e)) as [H|H]; [done|]. apply is_free_true in H. congruence.
Qed.

(** An occupancy below the size leaves an empty entry. *)
Lemma occupied_empty tab :
  (occupied tab < length tab)%nat → ∃ p e, tab !! p = Some e ∧ e_key e = SHAPE_IDX_EMPTY.
Proof.
  unfold occupied. intros H.
  destruct (decide (Forall (λ e, e_key e ≠ SHAPE_IDX_EMPTY) tab)) as [Hall|Hnot].
  - rewrite filter_Forall_id in H by done. lia.
  - apply not_Forall_Exists in Hnot; [|apply _]. apply Exists_exists in Hnot as (e & He & Hk).
    apply list_elem_of_lookup in He as (p & Hp). exists p, e. split; [done|].
    by apply dec_stable.
Qed.

Lemma occupied_insert tab p e e0 :
  tab !! p = Some e0 →
  (occupied (<[p := e]> tab) <= S (occupied tab))%nat ∧
  (e_key e0 ≠ SHAPE_IDX_EMPTY → (occupied (<[p := e]> tab) <= occupied tab)%nat).
Proof.
  intros Hp. pose proof (lookup_lt_Some _ _ _ Hp) as Hlt.
  unfold occupied. rewrite <- (take_drop_middle tab p e0 Hp) at 2 4.
  rewrite insert_take_drop by done. rewrite !filter_app, !length_app.
  rewrite !filter_cons. split; [|intros Hk]; repeat case_decide; simpl; try lia; tauto.
Qed.

Lemma run_insert tab p e key n : run (<[p := e]> tab) key n = run tab key n.
Proof. unfold run, zlen. by rewrite length_insert. Qed.

Lemma table_ok_unique tab key p p' e e' :
  table_ok tab → live_key key →
  tab !! p = Some e → tab !! p' = Some e' → e_key e = key → e_key e' = key → p = p'.
Proof.
  intros [Hsize Hok] Hl Hp Hp' E E'.
  destruct (Hok p e) as (n & Hn & -> & Hrn); [done|by unfold live_entry; rewrite E|].
  destruct (Hok p' e') as (m & Hm & -> & Hrm); [done|by unfold live_entry; rewrite E'|].
  rewrite E in *. rewrite E' in *.
  destruct (lt_eq_lt_dec n m) as [[Hnm| ->]|Hnm]; [|done|]; exfalso.
  - specialize (Hrm n e Hnm Hp). apply hit_or_empty_false in Hrm. tauto.
  - specialize (Hrn m e' Hnm Hp'). apply hit_or_empty_false in Hrn. tauto.
Qed.

(** [shape_lookup] ends and finds the entry of the key if its slot is below [count]. *)
Lemma index_lookup_spec tab count key :
  table_ok tab → (occupied tab < length tab)%nat → live_key key →
  ∃ r, index_lookup tab (zlen tab - 1) count key = Ok r ∧
    match r with
    | Some p => ∃ s, tab !! p = Some (mk_entry key s) ∧ s < count
    | None => ∀ s, has tab key s → count <= s
    end.
Proof.
  intros Hok Hocc Hl. pose proof Hok as [Hsize Hreach].
  destruct (occupied_empty tab Hocc) as (p0 & e0 & Hp0 & Hempty).
  destruct (probe_stops tab key Hsize (hit_or_empty key) p0 e0) as (n & e & Hn & He & Hs & Hfirst);
    [done|by apply hit_or_empty_true; right|].
  unfold index_lookup. rewrite (probe_first tab key Hsize _ n e) by done. simpl. rewrite He.
  eexists. split; [done|]. destruct (Z.eqb_spec (e_key e) key) as [Ek|Ek].
  - destruct e as [k s]. simpl in *. subst k. destruct (Z.ltb_spec s count); [by exists s|].
    intros s' Hs'. apply list_elem_of_lookup in Hs' as (q & Hq).
    assert (run tab key n = q) as E by (eapply table_ok_unique; eauto). subst q.
    rewrite He in Hq. injection Hq as ->. done.
  - intros s Hs'. exfalso. apply list_elem_of_lookup in Hs' as (q & Hq).
    destruct (Hreach q _ Hq Hl) as (m & Hm & -> & Hrm). simpl in *.
    destruct (lt_eq_lt_dec n m) as [[Hnm| ->]|Hnm].
    + rewrite (Hrm n e) in Hs by done. done.
    + rewrite He in Hq. by injection Hq as ->.
    + specialize (Hfirst m _ Hnm Hq). apply hit_or_empty_false in Hfirst. simpl in *. tauto.
Qed.

(** Replacing an entry by one that is not empty keeps the other runs. *)
Lemma table_ok_insert tab p e e0 :
  table_ok tab → tab !! p = Some e0 → e_key e ≠ SHAPE_IDX_EMPTY →
  (∀ q e', q ≠ p → tab !! q = Some e' → live_entry e' → e_key e' ≠ e_key e) →
  (live_entry e → reach tab (e_key e) p) →
  table_ok (<[p := e]> tab).
Proof.
  intros [Hsize Hok] Hp He Hother Hreach. split; [unfold zlen; by rewrite length_insert|].
  assert (∀ q e', q = p ∨ e_key e' ≠ e_key e → reach tab (e_key e') q →
    reach (<[p := e]> tab) (e_key e') q) as Hkeep.
  { intros q e' Hq (n & Hn & -> & Hrn). exists n. rewrite length_insert, run_insert.
    split; [done|]. split; [done|]. intros m e'' Hm. rewrite run_insert.
    rewrite list_lookup_insert_Some. intros [(-> & <- & _)|[Hne Hlk]]; [|by eapply Hrn].
    destruct Hq as [Hq|Hq]; [|by apply hit_or_empty_false].
    apply (run_inj tab (e_key e') Hsize) in Hq; lia. }
  intros q e' Hq Hl. apply list_lookup_insert_Some in Hq as [(-> & <- & _)|[Hne Hlk]].
  - apply Hkeep; [by left|]. by apply Hreach.
  - apply Hkeep; [right; by eapply Hother|]. by apply Hok.
Qed.

Lemma has_insert tab p e key slot :
  (p < length tab)%nat →
  has (<[p := e]> tab) key slot ↔
  e = mk_entry key slot ∨ ∃ q, q ≠ p ∧ tab !! q = Some (mk_entry key slot).
Proof.
  intros Hp. unfold has. rewrite list_elem_of_lookup. split.
  - intros (q & Hq). apply list_lookup_insert_Some in Hq as [(-> & -> & _)|[Hne Hlk]]; eauto.
  - intros [-> |(q & Hne & Hq)]; [exists p; by apply list_lookup_insert_eq|].
    exists q. by rewrite list_lookup_insert_ne.
Qed.

(** [shape_index_put] of a new key adds it and nothing else. *)
Lemma shape_index_put_spec tab key slot :
  table_ok tab → (occupied tab < length tab)%nat → live_key key → (∀ s, ¬ has tab key s) →
  ∃ tab', shape_index_put tab (zlen tab - 1) key slot = Ok tab' ∧ table_ok tab' ∧
    length tab' = length tab ∧ (occupied tab' <= S (occupied tab))%nat ∧
    ∀ k s, live_key k → has tab' k s ↔ (k = key ∧ s = slot) ∨ has tab k s.
Proof.
  intros Hok Hocc Hl Hnew. pose proof Hok as [Hsize Hreach].
  destruct (occupied_empty tab Hocc) as (p0 & e0 & Hp0 & Hempty).
  destruct (probe_stops tab key Hsize is_free p0 e0) as (n & e & Hn & He & Hs & Hfirst);
    [done|by apply is_free_true; unfold live_entry, live_key; tauto|].
  unfold shape_index_put. rewrite (probe_first tab key Hsize _ n e) by done. simpl.
  apply is_free_true in Hs. pose proof (run_lt tab key Hsize n) as Hlt.
  assert (∀ q e', tab !! q = Some e' → e_key e' ≠ key) as Hne.
  { intros q [k s] Hq Ek. simpl in Ek. subst k. apply (Hnew s), list_elem_of_lookup. eauto. }
  eexists. split; [done|]. split; [|split; [apply length_insert|split]].
  - eapply table_ok_insert; [done|done|apply Hl|by intros; eapply Hne|].
    intros _. exists n. split; [done|]. split; [done|]. intros m e' Hm Hlk.
    apply hit_or_empty_false. split; [by eapply Hne|].
    specialize (Hfirst m e' Hm Hlk). apply is_free_false in Hfirst. apply Hfirst.
  - by eapply occupied_insert.
  - intros k s Hk. rewrite has_insert by done. unfold has at 1. rewrite list_elem_of_lookup. split.
    + intros [[= <- <-]|(q & _ & Hq)]; eauto.
    + intros [[-> ->]|(q & Hq)]; [by left|right]. exists q. split; [|done].
      intros ->. rewrite He in Hq. injection Hq as ->. by apply Hs.
Qed.

(** A tombstone in place of a key deletes the key and nothing else. *)
Lemma index_tomb_spec tab p key slot slot' :
  table_ok tab → live_key key → tab !! p = Some (mk_entry key slot) →
  let tab' := <[p := mk_entry SHAPE_IDX_TOMB slot']> tab in
  table_ok tab' ∧ (occupied tab' <= occupied tab)%nat ∧
  ∀ k s, live_key k → has tab' k s ↔ has tab k s ∧ k ≠ key.
Proof.
  intros Hok Hl Hp tab'. pose proof (lookup_lt_Some _ _ _ Hp) as Hlt. split; [|split].
  - eapply table_ok_insert; [done|done|done|by intros q e' _ _ [_ ?]|by intros [_ ?]].
  - eapply occupied_insert; [done|apply Hl].
  - intros k s Hk. unfold tab'. rewrite has_insert by done. unfold has at 1.
    rewrite list_elem_of_lookup. split.
    + intros [[= <- _]|(q & Hq & Hlk)]; [by destruct Hk|]. split; [eauto|]. intros ->.
      apply Hq. by eapply (table_ok_unique tab key).
    + intros [(q & Hq) Hne]. right. exists q. split; [|done]. intros ->. congruence.
Qed.

(** Giving a key another slot. *)
Lemma index_reslot_spec tab p key slot slot' :
  table_ok tab → live_key key → tab !! p = Some (mk_entry key slot) →
  let tab' := <[p := mk_entry key slot']> tab in
  table_ok tab' ∧ (occupied tab' <= occupied tab)%nat ∧
  ∀ k s, live_key k → has tab' k s ↔ (k = key ∧ s = slot') ∨ (has tab k s ∧ k ≠ key).
Proof.
  intros Hok Hl Hp tab'. pose proof (lookup_lt_Some _ _ _ Hp) as Hlt. split; [|split].
  - eapply table_ok_insert; [done|done|apply Hl| |].
    + intros q e' Hq Hlk _ E. apply Hq. by eapply (table_ok_unique tab key).
    + intros _. by apply (proj2 Hok p (mk_entry key slot)).
  - eapply occupied_insert; [done|apply Hl].
  - intros k s Hk. unfold tab'. rewrite has_insert by done. unfold has at 1.
    rewrite list_elem_of_lookup. split.
    + intros [[= <- <-]|(q & Hq & Hlk)]; [by left|]. right. split; [eauto|]. intros ->.
      apply Hq. by eapply (table_ok_unique tab key).
    + intros [[-> ->]|[(q & Hq) Hne]]; [by left|]. right. exists q. split; [|done].
      intros ->. congruence.
Qed.

(** An all-zero table. *)
Lemma empty_table_spec (n : nat) :
  table_size (Z.of_nat n) →
  let tab := replicate n empty_entry in
  table_ok tab ∧ occupied tab = 0%nat ∧ ∀ k s, live_key k → ¬ has tab k s.
Proof.
  intros Hsize tab. split; [|split].
  - split; [unfold zlen, tab; by rewrite length_replicate|].
    intros p e He [Hl _]. apply lookup_replicate in He as [-> _]. done.
  - unfold occupied, tab. clear. induction n as [|n IH]; [done|]. simpl.
    rewrite filter_cons_False; [done|]. intros H. by apply H.
  - intros k s [Hk _] Hin. apply elem_of_replicate in Hin as [[= -> _] _]. done.
Qed.

(** ** Capacities *)


Lemma capacity_loop_spec rounds needed k :
  0 <= needed < 2 ^ 29 → 3 <= k <= 30 → 31 <= k + Z.of_nat rounds →
  ∃ k', k <= k' <= 30 ∧ capacity_loop rounds (2 ^ k) needed = 2 ^ k' ∧ 2 * needed < 2 ^ k' ∧
    (k' = k ∨ 2 ^ k' <= 4 * needed).
Proof.
  intros Hn. revert k. induction rounds as [|rounds IH]; intros k Hk Hr; [lia|]. simpl.
  rewrite u32_small by lia.
  destruct (Z.leb_spec (2 ^ k) (needed * 2)) as [Hle|Hgt].
  - assert (k < 30) as Hk'. { apply (Z.pow_lt_mono_r_iff 2); lia. }
    assert (2 ^ (k + 1) = 2 ^ k * 2) as E by (rewrite Z.pow_add_r by lia; lia).
    rewrite u32_small by lia. rewrite <- E.
    destruct (IH (k + 1)) as (k' & Hk1 & -> & Hk2 & Hk3); [lia|lia|].
    exists k'. split; [lia|]. split; [done|]. split; [done|]. right. destruct Hk3 as [-> |]; lia.
  - exists k. split; [lia|]. split; [done|]. split; [lia|]. by left.
Qed.

(** A power of two above twice the number of keys, and no more than needed. *)
Lemma shape_index_capacity_spec needed :
  0 <= needed < 2 ^ 29 →
  table_size (shape_index_capacity needed) ∧ 8 <= shape_index_capacity needed ∧
  2 * needed < shape_index_capacity needed ∧ shape_index_capacity needed <= 8 + 4 * needed.
Proof.
  intros Hn. unfold shape_index_capacity, SHAPE_IDX_MIN_CAP. change 8 with (2 ^ 3) at 1 3 4 5.
  destruct (capacity_loop_spec 32 needed 3) as (k & Hk & -> & H2 & Hup); [done|lia|lia|].
  pose proof (Z.pow_le_mono_r 2 3 k). split; [exists k; split; [lia|done]|].
  split; [lia|]. split; [done|]. destruct Hup as [-> |]; lia.
Qed.

Arguments shape_index_capacity : simpl never.

(** ** The index as a map *)

(** Operations on an index, and on the map it stands for. *)
Inductive index_op :=
  | Put (key slot : Z)
  | Delete (key : Z).

(** One operation: [shape_index_put], or the lookup and the tombstone of
    [ant_shape_remove_slot]. *)
Definition index_step (tab : list shape_index_entry_t) (op : index_op) : outcome (list shape_index_entry_t) :=
  match op with
  | Put key slot => shape_index_put tab (zlen tab - 1) key slot
  | Delete key =>
      r ← index_lookup tab (zlen tab - 1) (2 ^ 32) key;
      Ok (match r with
          | Some p => <[p := mk_entry SHAPE_IDX_TOMB (default 0 (e_slot <$> tab !! p))]> tab
          | None => tab
          end)
  end.

Fixpoint index_run (tab : list shape_index_entry_t) (ops : list index_op) : outcome (list shape_index_entry_t) :=
  match ops with
  | [] => Ok tab
  | op :: ops => tab ← index_step tab op; index_run tab ops
  end.

Definition map_step (m : gmap Z Z) (op : index_op) : gmap Z Z :=
  match op with Put key slot => <[key := slot]> m | Delete key => delete key m end.

(** A key is put when it is not there; slots fit 32 bits. *)
Fixpoint ops_ok (m : gmap Z Z) (ops : list index_op) : Prop :=
  match ops with
  | [] => True
  | op :: ops =>
      match op with
      | Put key slot => live_key key ∧ m !! key = None ∧ slot < 2 ^ 32
      | Delete key => live_key key
      end ∧ ops_ok (map_step m op) ops
  end.

Fixpoint puts (ops : list index_op) : nat :=
  match ops with
  | [] => 0%nat
  | Put _ _ :: ops => S (puts ops)
  | Delete _ :: ops => puts ops
  end.

(** The table stands for the map. *)
Definition stands_for (tab : list shape_index_entry_t) (m : gmap Z Z) : Prop :=
  table_ok tab ∧ (∀ k s, live_key k → has tab k s ↔ m !! k = Some s) ∧ (∀ k s, m !! k = Some s → s < 2 ^ 32).

Lemma index_step_spec tab m op ops :
  stands_for tab m → ops_ok m (op :: ops) → (occupied tab < length tab)%nat →
  ∃ tab', index_step tab op = Ok tab' ∧ stands_for tab' (map_step m op) ∧ length tab' = length tab ∧
    (occupied tab' <= occupied tab + puts [op])%nat.
Proof.
  intros (Hok & Hm & Hs) [Hop _] Hroom. destruct op as [key slot|key]; simpl.
  - destruct Hop as (Hk & Hnew & Hsl).
    destruct (shape_index_put_spec tab key slot) as (tab' & -> & Hok' & Hlen & Hocc & Hhas); [done|done|done| |].
    { intros s Hx. apply Hm in Hx; [|done]. congruence. }
    exists tab'. split; [done|]. split; [|split; [done|lia]]. split; [done|]. split.
    + intros k s Hlk. rewrite Hhas, Hm, lookup_insert_Some by done. split; [intros [[-> ->]|?]|intros [[-> ->]|[? ?]]]; auto.
      right. split; [congruence|done].
    + intros k s. rewrite lookup_insert_Some. intros [[_ <-]|[_ E]]; [done|by eapply Hs].
  - destruct (index_lookup_spec tab (2 ^ 32) key) as (r & -> & Hr); [done|done|done|]. simpl. destruct r as [p|].
    + destruct Hr as (s & Hp & _). rewrite Hp. simpl.
      destruct (index_tomb_spec tab p key s s) as (Hok' & Hocc & Hhas); [done|done|done|]. eexists. split; [done|].
      split; [|split; [apply length_insert|lia]]. split; [done|]. split.
      * intros k s' Hlk. rewrite Hhas, Hm, lookup_delete_Some by done. intuition congruence.
      * intros k s' [_ E]%lookup_delete_Some. by eapply Hs.
    + exists tab. split; [done|]. rewrite delete_id; [split; [done|split; [done|lia]]|].
      destruct (m !! key) as [s|] eqn:E; [|done]. specialize (Hs key s E). apply Hm in E; [|done]. specialize (Hr s E). lia.
Qed.

Lemma index_run_spec ops : ∀ tab m,
  stands_for tab m → ops_ok m ops → (occupied tab + puts ops < length tab)%nat →
  ∃ tab', index_run tab ops = Ok tab' ∧ stands_for tab' (foldl map_step m ops) ∧ length tab' = length tab ∧
    (occupied tab' < length tab')%nat.
Proof.
  induction ops as [|op ops IH]; intros tab m Hst Hops Hroom; simpl.
  { exists tab. split; [done|]. split; [done|]. split; [done|]. simpl in Hroom. lia. }
  assert (puts (op :: ops) = puts [op] + puts ops)%nat as Hp.
  { by destruct op. }
  destruct (index_step_spec tab m op ops) as (tab1 & -> & Hst1 & Hlen & Hocc); [done|done|lia|]. simpl.
  destruct (IH tab1 (map_step m op)) as (tab2 & E & Hst2 & Hlen2 & Hocc2); [done|apply Hops|lia|].
  exists tab2. split_and!; try done. by rewrite Hlen2.
Qed.

(** C18: an index of [shape_index_capacity needed] entries behaves as a map through any
    sequence of insertions and deletions with at most [needed] insertions.  Every probe ends,
    and a lookup gives the slot of the key, if it is below the number of slots of the shape,
    and nothing for a key that is not there. *)
Theorem index_refines_map needed ops :
  0 <= needed < 2 ^ 29 → ops_ok ∅ ops → Z.of_nat (puts ops) <= needed →
  ∃ tab, index_run (replicate (Z.to_nat (shape_index_capacity needed)) empty_entry) ops = Ok tab ∧
    ∀ key count, live_key key → ∃ r, index_lookup tab (zlen tab - 1) count key = Ok r ∧
      match foldl map_step ∅ ops !! key with
      | Some slot => if slot <? count then ∃ p, r = Some p ∧ tab !! p = Some (mk_entry key slot) else r = None
      | None => r = None
      end.
Proof.
  intros Hn Hops Hp. destruct (shape_index_capacity_spec needed Hn) as (Hsz & Hmin & Hbig & _).
  destruct (empty_table_spec (Z.to_nat (shape_index_capacity needed))) as (Hok & Hocc & Hno).
  { by rewrite Z2Nat.id by lia. }
  destruct (index_run_spec ops (replicate (Z.to_nat (shape_index_capacity needed)) empty_entry) ∅)
    as (tab & E & (Hok' & Hm & Hs) & Hlen & Hroom); [|done|rewrite Hocc, length_replicate; lia|].
  { split; [done|]. split; [|by intros k s]. intros k s Hk. rewrite lookup_empty. split; [intros Hx; by apply Hno in Hx|done]. }
  exists tab. split; [done|]. intros key count Hk.
  destruct (index_lookup_spec tab count key) as (r & Er & Hr); [done|done|done|]. exists r. split; [done|].
  destruct (foldl map_step ∅ ops !! key) as [slot|] eqn:El.
  - apply Hm in El; [|done]. destruct r as [p|].
    + destruct Hr as (s & Hp' & Hlt). assert (s = slot) as ->.
      { apply list_elem_of_lookup in El as (q & Hq). assert (p = q) as <- by (by eapply (table_ok_unique tab key)). congruence. }
      replace (slot <? count) with true by lia. eauto.
    + specialize (Hr slot El). replace (slot <? count) with false by lia. done.
  - destruct r as [p|]; [|done]. destruct Hr as (s & Hp' & _). exfalso.
    assert (has tab key s) as Hx by (apply list_elem_of_lookup; eauto). apply Hm in Hx; [|done]. congruence.
Qed.

Lemma index_refines_map_witness :
  ∃ tab, index_run (replicate (Z.to_nat (shape_index_capacity 3)) empty_entry) [Put 20 0; Put 22 1; Delete 20; Put 24 2] = Ok tab ∧
    index_lookup tab (zlen tab - 1) 3 20 = Ok None.
Proof.
  destruct (index_refines_map 3 [Put 20 0; Put 22 1; Delete 20; Put 24 2]) as (tab & E & Hl).
  - lia.
  - vm_compute. repeat split; discriminate.
  - vm_compute. discriminate.
  - exists tab. split; [exact E|]. destruct (Hl 20 3) as (r & Er & Hr); [vm_compute; split; discriminate|].
    rewrite Er. f_equal. exact Hr.
Defined.
