(* ===== verification/ShapeModel.v ===== *)
(** * Object shapes: the data structures and operations of src/src/shapes.c

    A shape describes the layout of objects: property keys and attributes in slot order.
    Shapes form a tree of transitions ([first_child], [children], [parent]), carry reference
    counts, and share descriptor tables: a shape sees the first [count] entries of the table
    it points to, and all shapes on one table are its [owners].

    The state is an explicit store: a map from addresses to shapes, one from addresses to
    descriptor tables, and the file's globals.  A freed block is absent, so using it is [Ub].
    A shape caches the addresses of its table's arrays ([s_props], [s_index]); reading through
    a cached address that is not the table's current one is [Ub] as well.  [d_props_mem] holds
    the entries written so far, at most [d_cap] of them; the intrusive owner list is the list
    of its nodes and the uthash table of children the list of its entries in insertion order.
    An allocation is granted or refused by the class [Allocator], which sees the number of
    allocations so far and the size. *)

From stdpp Require Import gmap.
From S2P Require Import Prelude ShapeIndex.

(** Whether the [t]th allocation, of [n] bytes, succeeds. *)
Class Allocator := grants : nat → Z → bool.

(** ** Data *)

(** Addresses of shapes and of tables. *)
Abbreviation sid := nat (only parsing).

Abbreviation did := nat (only parsing).

Inductive ant_shape_key_type_t :=
  | ANT_SHAPE_KEY_STRING
  | ANT_SHAPE_KEY_SYMBOL
  | ANT_SHAPE_KEY_DELETED.

#[global] Instance key_type_eq_dec : EqDecision ant_shape_key_type_t.
Proof. solve_decision. Defined.

(** [p_key] is the union of the address of the interned string and the symbol's offset. *)
Record ant_shape_prop_t := mk_prop {
  p_type : ant_shape_key_type_t;
  p_key : Z;
  p_attrs : Z;
  p_has_getter : Z;
  p_has_setter : Z;
  p_getter : Z;
  p_setter : Z
}.

#[global] Instance prop_eq_dec : EqDecision ant_shape_prop_t.
Proof. solve_decision. Defined.

Record shape_descriptors_t := mk_desc {
  d_ref_count : Z;
  d_count : Z;
  tail_dirty : bool;
  may_have_gc_refs : bool;
  d_cap : Z;
  d_index_mask : Z;
  d_index_used : Z;
  d_props : Z;
  d_props_mem : list ant_shape_prop_t;
  d_index : Z;
  d_index_mem : list shape_index_entry_t;
  owners : list sid
}.

Record ant_shape_t := mk_shape {
  s_ref_count : Z;
  s_count : Z;
  s_deleted_count : Z;
  s_inobj_limit : Z;
  s_bulk_layout : bool;
  s_gc_mark : Z;
  s_descriptors : did;
  s_props : Z;
  s_index : Z;
  s_index_mask : Z;
  s_jit_invalid : Z;
  s_first_child_key : Z;
  s_first_child : option sid;
  s_children : list (Z * sid);
  s_parent : option sid;
  s_parent_key : Z
}.

(** [clock] counts allocations; the address of a new block is its number. *)
Record state := mk_state {
  shapes : gmap sid ant_shape_t;
  descs : gmap did shape_descriptors_t;
  g_root_shapes : list (option sid);
  g_shape_entry_pool_len : Z;
  g_shape_bytes : Z;
  ant_ic_epoch_counter : Z;
  gc_shape_epoch : Z;
  clock : nat
}.

Definition ANT_INOBJ_MAX_SLOTS : Z := 4.

Definition initial_state : state :=
  mk_state ∅ ∅ (replicate 5 None) 0 0 1 0 0.

(** *** Assigning a field *)

Definition set_d_ref_count (v : Z) (x : shape_descriptors_t) : shape_descriptors_t :=
  mk_desc v (d_count x) (tail_dirty x) (may_have_gc_refs x) (d_cap x) (d_index_mask x)
    (d_index_used x) (d_props x) (d_props_mem x) (d_index x) (d_index_mem x) (owners x).

Definition set_d_count (v : Z) (x : shape_descriptors_t) : shape_descriptors_t :=
  mk_desc (d_ref_count x) v (tail_dirty x) (may_have_gc_refs x) (d_cap x) (d_index_mask x)
    (d_index_used x) (d_props x) (d_props_mem x) (d_index x) (d_index_mem x) (owners x).

Definition set_tail_dirty (v : bool) (x : shape_descriptors_t) : shape_descriptors_t :=
  mk_desc (d_ref_count x) (d_count x) v (may_have_gc_refs x) (d_cap x) (d_index_mask x)
    (d_index_used x) (d_props x) (d_props_mem x) (d_index x) (d_index_mem x) (owners x).

Definition set_may_have_gc_refs (v : bool) (x : shape_descriptors_t) : shape_descriptors_t :=
  mk_desc (d_ref_count x) (d_count x) (tail_dirty x) v (d_cap x) (d_index_mask x) (d_index_used x)
    (d_props x) (d_props_mem x) (d_index x) (d_index_mem x) (owners x).

Definition set_d_index_used (v : Z) (x : shape_descriptors_t) : shape_descriptors_t :=
  mk_desc (d_ref_count x) (d_count x) (tail_dirty x) (may_have_gc_refs x) (d_cap x)
    (d_index_mask x) v (d_props x) (d_props_mem x) (d_index x) (d_index_mem x) (owners x).

Definition set_d_props_mem (v : list ant_shape_prop_t) (x : shape_descriptors_t) :
    shape_descriptors_t :=
  mk_desc (d_ref_count x) (d_count x) (tail_dirty x) (may_have_gc_refs x) (d_cap x)
    (d_index_mask x) (d_index_used x) (d_props x) v (d_index x) (d_index_mem x) (owners x).

Definition set_d_index_mem (v : list shape_index_entry_t) (x : shape_descriptors_t) :
    shape_descriptors_t :=
  mk_desc (d_ref_count x) (d_count x) (tail_dirty x) (may_have_gc_refs x) (d_cap x)
    (d_index_mask x) (d_index_used x) (d_props x) (d_props_mem x) (d_index x) v (owners x).

Definition set_owners (v : list sid) (x : shape_descriptors_t) : shape_descriptors_t :=
  mk_desc (d_ref_count x) (d_count x) (tail_dirty x) (may_have_gc_refs x) (d_cap x)
    (d_index_mask x) (d_index_used x) (d_props x) (d_props_mem x) (d_index x) (d_index_mem x) v.

Definition set_s_ref_count (v : Z) (x : ant_shape_t) : ant_shape_t :=
  mk_shape v (s_count x) (s_deleted_count x) (s_inobj_limit x) (s_bulk_layout x) (s_gc_mark x)
    (s_descriptors x) (s_props x) (s_index x) (s_index_mask x) (s_jit_invalid x)
    (s_first_child_key x) (s_first_child x) (s_children x) (s_parent x) (s_parent_key x).

Definition set_s_count (v : Z) (x : ant_shape_t) : ant_shape_t :=
  mk_shape (s_ref_count x) v (s_deleted_count x) (s_inobj_limit x) (s_bulk_layout x) (s_gc_mark x)
    (s_descriptors x) (s_props x) (s_index x) (s_index_mask x) (s_jit_invalid x)
    (s_first_child_key x) (s_first_child x) (s_children x) (s_parent x) (s_parent_key x).

Definition set_s_deleted_count (v : Z) (x : ant_shape_t) : ant_shape_t :=
  mk_shape (s_ref_count x) (s_count x) v (s_inobj_limit x) (s_bulk_layout x) (s_gc_mark x)
    (s_descriptors x) (s_props x) (s_index x) (s_index_mask x) (s_jit_invalid x)
    (s_first_child_key x) (s_first_child x) (s_children x) (s_parent x) (s_parent_key x).

Definition set_s_bulk_layout (v : bool) (x : ant_shape_t) : ant_shape_t :=
  mk_shape (s_ref_count x) (s_count x) (s_deleted_count x) (s_inobj_limit x) v (s_gc_mark x)
    (s_descriptors x) (s_props x) (s_index x) (s_index_mask x) (s_jit_invalid x)
    (s_first_child_key x) (s_first_child x) (s_children x) (s_parent x) (s_parent_key x).

Definition set_s_gc_mark (v : Z) (x : ant_shape_t) : ant_shape_t :=
  mk_shape (s_ref_count x) (s_count x) (s_deleted_count x) (s_inobj_limit x) (s_bulk_layout x) v
    (s_descriptors x) (s_props x) (s_index x) (s_index_mask x) (s_jit_invalid x)
    (s_first_child_key x) (s_first_child x) (s_children x) (s_parent x) (s_parent_key x).

Definition set_s_jit_invalid (v : Z) (x : ant_shape_t) : ant_shape_t :=
  mk_shape (s_ref_count x) (s_count x) (s_deleted_count x) (s_inobj_limit x) (s_bulk_layout x)
    (s_gc_mark x) (s_descriptors x) (s_props x) (s_index x) (s_index_mask x) v
    (s_first_child_key x) (s_first_child x) (s_children x) (s_parent x) (s_parent_key x).

Definition set_s_children (v : list (Z * sid)) (x : ant_shape_t) : ant_shape_t :=
  mk_shape (s_ref_count x) (s_count x) (s_deleted_count x) (s_inobj_limit x) (s_bulk_layout x)
    (s_gc_mark x) (s_descriptors x) (s_props x) (s_index x) (s_index_mask x) (s_jit_invalid x)
    (s_first_child_key x) (s_first_child x) v (s_parent x) (s_parent_key x).

Definition set_s_parent (v : option sid) (x : ant_shape_t) : ant_shape_t :=
  mk_shape (s_ref_count x) (s_count x) (s_deleted_count x) (s_inobj_limit x) (s_bulk_layout x)
    (s_gc_mark x) (s_descriptors x) (s_props x) (s_index x) (s_index_mask x) (s_jit_invalid x)
    (s_first_child_key x) (s_first_child x) (s_children x) v (s_parent_key x).

Definition set_shapes (v : gmap sid ant_shape_t) (x : state) : state :=
  mk_state v (descs x) (g_root_shapes x) (g_shape_entry_pool_len x) (g_shape_bytes x)
    (ant_ic_epoch_counter x) (gc_shape_epoch x) (clock x).

Definition set_descs (v : gmap did shape_descriptors_t) (x : state) : state :=
  mk_state (shapes x) v (g_root_shapes x) (g_shape_entry_pool_len x) (g_shape_bytes x)
    (ant_ic_epoch_counter x) (gc_shape_epoch x) (clock x).

Definition set_g_root_shapes (v : list (option sid)) (x : state) : state :=
  mk_state (shapes x) (descs x) v (g_shape_entry_pool_len x) (g_shape_bytes x)
    (ant_ic_epoch_counter x) (gc_shape_epoch x) (clock x).

Definition set_g_shape_entry_pool_len (v : Z) (x : state) : state :=
  mk_state (shapes x) (descs x) (g_root_shapes x) v (g_shape_bytes x) (ant_ic_epoch_counter x)
    (gc_shape_epoch x) (clock x).

Definition set_g_shape_bytes (v : Z) (x : state) : state :=
  mk_state (shapes x) (descs x) (g_root_shapes x) (g_shape_entry_pool_len x) v
    (ant_ic_epoch_counter x) (gc_shape_epoch x) (clock x).

Definition set_ant_ic_epoch_counter (v : Z) (x : state) : state :=
  mk_state (shapes x) (descs x) (g_root_shapes x) (g_shape_entry_pool_len x) (g_shape_bytes x) v
    (gc_shape_epoch x) (clock x).

Definition set_gc_shape_epoch (v : Z) (x : state) : state :=
  mk_state (shapes x) (descs x) (g_root_shapes x) (g_shape_entry_pool_len x) (g_shape_bytes x)
    (ant_ic_epoch_counter x) v (clock x).

Definition set_clock (v : nat) (x : state) : state :=
  mk_state (shapes x) (descs x) (g_root_shapes x) (g_shape_entry_pool_len x) (g_shape_bytes x)
    (ant_ic_epoch_counter x) (gc_shape_epoch x) v.


(** ** The state monad with undefined behaviour *)

Definition SM (A : Type) : Type := state → outcome (A * state).

#[global] Instance SM_ret : MRet SM := λ A a st, Ok (a, st).

#[global] Instance SM_bind : MBind SM := λ A B f m st,
  match m st with
  | Ok (a, st') => f a st'
  | Throw e => Throw e
  | Ub => Ub
  end.

(** A computation that does not touch the store. *)
Definition lift {A} (o : outcome A) : SM A := λ st,
  match o with Ok a => Ok (a, st) | Throw e => Throw e | Ub => Ub end.

Definition modify (f : state → state) : SM unit := λ st, Ok (tt, f st).

Definition gets {A} (f : state → A) : SM A := λ st, Ok (f st, st).

(** Dereferencing: a freed block is [Ub]. *)
Definition get_shape (s : sid) : SM ant_shape_t := λ st,
  match shapes st !! s with Some x => Ok (x, st) | None => Ub end.

Definition get_desc (d : did) : SM shape_descriptors_t := λ st,
  match descs st !! d with Some x => Ok (x, st) | None => Ub end.

Definition put_shape (s : sid) (x : ant_shape_t) : SM unit :=
  modify (λ st, set_shapes (<[s := x]> (shapes st)) st).

Definition put_desc (d : did) (x : shape_descriptors_t) : SM unit :=
  modify (λ st, set_descs (<[d := x]> (descs st)) st).

(** Assigning fields of an object behind a pointer. *)
Definition upd_shape (s : sid) (f : ant_shape_t → ant_shape_t) : SM unit :=
  x ← get_shape s; put_shape s (f x).

Definition upd_desc (d : did) (f : shape_descriptors_t → shape_descriptors_t) : SM unit :=
  x ← get_desc d; put_desc d (f x).

Definition free_shape (s : sid) : SM unit := modify (λ st, set_shapes (delete s (shapes st)) st).

Definition free_desc (d : did) : SM unit := modify (λ st, set_descs (delete d (descs st)) st).

(** The loop over a list. *)
Fixpoint for_each {A} (f : A → SM unit) (l : list A) : SM unit :=
  match l with
  | [] => mret tt
  | x :: l => f x ;; for_each f l
  end.

Definition add_bytes (n : Z) : SM unit :=
  modify (λ st, set_g_shape_bytes (u64 (g_shape_bytes st + n)) st).

Definition sub_bytes (n : Z) : SM unit :=
  modify (λ st, set_g_shape_bytes (u64 (g_shape_bytes st - n)) st).

Definition sizeof_shape : Z := 104.

Definition sizeof_descriptors : Z := 48.

Definition sizeof_prop : Z := 40.

Definition sizeof_index_entry : Z := 16.

Definition SHAPE_ENTRY_SIZE : Z := 72.

Definition SHAPE_ENTRY_POOL_MAX : Z := 1024.

Definition SHAPE_COMPACT_MIN_TOMBSTONES : Z := 32.

Definition SHAPE_TRANSITION_MAX_PROPS : Z := 1024.

Definition SHAPE_KEYED_TRANSITION_MAX_PROPS : Z := 32.

Definition ANT_PROP_ATTR_DEFAULT : Z := 7.

Section Operations.

Context `{Allocator}.

(** [malloc], [calloc], [realloc]: the address of the block, [None] for NULL. *)
Definition alloc (n : Z) : SM (option nat) := λ st,
  let t := S (clock st) in
  Ok (if grants t n then Some t else None, set_clock t st).

Definition ant_ic_epoch_bump : SM unit :=
  modify (λ st,
    let c := u32 (ant_ic_epoch_counter st + 1) in
    set_ant_ic_epoch_counter (if c =? 0 then 1 else c) st).

(** ** The pool of child entries: free blocks kept for the next transition *)

Definition shape_entry_alloc : SM bool :=
  len ← gets g_shape_entry_pool_len;
  if 0 <? len then modify (set_g_shape_entry_pool_len (len - 1)) ;; mret true
  else p ← alloc SHAPE_ENTRY_SIZE; mret (if p is Some _ then true else false).

Definition shape_entry_free : SM unit :=
  len ← gets g_shape_entry_pool_len;
  if len <? SHAPE_ENTRY_POOL_MAX then modify (set_g_shape_entry_pool_len (len + 1)) else mret tt.

Definition shape_entry_pool_trim : SM unit :=
  modify (λ st, set_g_shape_entry_pool_len (g_shape_entry_pool_len st / 2) st).

(** ** Descriptor tables *)

Definition shape_descriptors_new : SM (option did) :=
  p ← alloc sizeof_descriptors;
  match p with
  | None => mret None
  | Some d =>
      put_desc d (mk_desc 1 0 false false 0 0 0 0 [] 0 [] []) ;;
      add_bytes sizeof_descriptors ;;
      mret (Some d)
  end.

Definition shape_descriptors_release (d : did) : SM unit :=
  x ← get_desc d;
  let rc := u32 (d_ref_count x - 1) in
  put_desc d (set_d_ref_count rc x) ;;
  if negb (rc =? 0) then mret tt
  else
    sub_bytes (sizeof_descriptors + d_cap x * sizeof_prop) ;;
    (if d_index x =? 0 then mret tt
     else sub_bytes (u32 (d_index_mask x + 1) * sizeof_index_entry)) ;;
    free_desc d.

(** The cached copies of the table's pointers. *)
Definition set_caches (x : shape_descriptors_t) (s : ant_shape_t) : ant_shape_t :=
  mk_shape (s_ref_count s) (s_count s) (s_deleted_count s) (s_inobj_limit s) (s_bulk_layout s)
    (s_gc_mark s) (s_descriptors s) (d_props x) (d_index x) (d_index_mask x) (s_jit_invalid s)
    (s_first_child_key s) (s_first_child s) (s_children s) (s_parent s) (s_parent_key s).

Definition set_s_descriptors (d : did) (s : ant_shape_t) : ant_shape_t :=
  mk_shape (s_ref_count s) (s_count s) (s_deleted_count s) (s_inobj_limit s) (s_bulk_layout s)
    (s_gc_mark s) d (s_props s) (s_index s) (s_index_mask s) (s_jit_invalid s)
    (s_first_child_key s) (s_first_child s) (s_children s) (s_parent s) (s_parent_key s).

Definition shape_link_descriptors (s : sid) (d : did) : SM unit :=
  x ← get_desc d;
  upd_shape s (λ sh, set_caches x (set_s_descriptors d sh)) ;;
  put_desc d (set_owners (s :: owners x) x).

Definition shape_unlink_descriptors (s : sid) : SM unit :=
  sh ← get_shape s;
  let d := s_descriptors sh in
  x ← get_desc d;
  let x := if s_count sh =? d_count x then set_tail_dirty true x else x in
  put_desc d (set_owners (filter (λ o, o ≠ s) (owners x)) x) ;;
  shape_descriptors_release d.

Definition shape_refresh_descriptor_pointers (d : did) : SM unit :=
  x ← get_desc d;
  for_each (λ owner, upd_shape owner (set_caches x)) (owners x).

Definition shape_clamp_inobj_limit (limit : Z) : Z :=
  if ANT_INOBJ_MAX_SLOTS <? limit then ANT_INOBJ_MAX_SLOTS else limit.

(** [type == SYMBOL ? shape_key_symbol(sym_off) : shape_key_interned(interned)]. *)
Definition shape_key (type : ant_shape_key_type_t) (key : Z) : Z :=
  match type with
  | ANT_SHAPE_KEY_SYMBOL => shape_key_symbol key
  | _ => shape_key_interned key
  end.

Definition prop_key (p : ant_shape_prop_t) : Z := shape_key (p_type p) (p_key p).

(** [shape->props], [shape->index]: the arrays behind the cached addresses. *)
Definition shape_props (s : ant_shape_t) (x : shape_descriptors_t)
    : outcome (list ant_shape_prop_t) :=
  if s_props s =? d_props x then Ok (d_props_mem x) else Ub.

Definition shape_index (s : ant_shape_t) (x : shape_descriptors_t)
    : outcome (list shape_index_entry_t) :=
  if s_index s =? d_index x then Ok (d_index_mem x) else Ub.

(** The entry found: its position in the index and its slot. *)
Definition shape_lookup (shape : option sid) (key : Z) : SM (option (nat * Z)) :=
  match shape with
  | None => mret None
  | Some s =>
      sh ← get_shape s;
      if s_index sh =? 0 then mret None
      else
        x ← get_desc (s_descriptors sh);
        tab ← lift (shape_index sh x);
        r ← lift (index_lookup tab (s_index_mask sh) (s_count sh) key);
        match r with
        | None => mret None
        | Some p =>
            match tab !! p with
            | None => lift Ub
            | Some e => mret (Some (p, e_slot e))
            end
        end
  end.

Definition shape_index_free (s : sid) : SM unit :=
  sh ← get_shape s;
  let d := s_descriptors sh in
  x ← get_desc d;
  if d_index x =? 0 then mret tt
  else
    sub_bytes (u32 (d_index_mask x + 1) * sizeof_index_entry) ;;
    put_desc d (mk_desc (d_ref_count x) (d_count x) (tail_dirty x) (may_have_gc_refs x) (d_cap x)
                  0 0 (d_props x) (d_props_mem x) 0 [] (owners x)) ;;
    shape_refresh_descriptor_pointers d.

(** Putting the live properties [i], [i + 1], ..., [n] of them, into an index. *)
Fixpoint index_props (n : nat) (props : list ant_shape_prop_t) (i : nat)
    (tab : list shape_index_entry_t) (mask used : Z) : outcome (list shape_index_entry_t * Z) :=
  match n with
  | O => Ok (tab, used)
  | S n =>
      match props !! i with
      | None => Ub
      | Some p =>
          if decide (p_type p = ANT_SHAPE_KEY_DELETED) then index_props n props (S i) tab mask used
          else
            tab ← shape_index_put tab mask (prop_key p) (Z.of_nat i);
            index_props n props (S i) tab mask (u32 (used + 1))
      end
  end.

(** The largest [count] of the owners, [None] once it is that of the table. *)
Fixpoint owners_count (table_count : Z) (l : list sid) (count : Z) : SM (option Z) :=
  match l with
  | [] => mret (Some count)
  | o :: l =>
      sh ← get_shape o;
      let count := if count <? s_count sh then s_count sh else count in
      if count =? table_count then mret None else owners_count table_count l count
  end.

Definition shape_reclaim_descriptor_tail (d : did) : SM unit :=
  x ← get_desc d;
  if negb (tail_dirty x) then mret tt
  else
    let x := set_tail_dirty false x in
    put_desc d x ;;
    r ← owners_count (d_count x) (owners x) 0;
    match r with
    | None => mret tt
    | Some count =>
        let x := set_d_count count x in
        put_desc d x ;;
        if d_index x =? 0 then mret tt
        else
          let tab := replicate (length (d_index_mem x)) empty_entry in
          '(tab, used) ← lift (index_props (Z.to_nat count) (d_props_mem x) 0 tab (d_index_mask x) 0);
          put_desc d (set_d_index_used used (set_d_index_mem tab x))
    end.

(** The loop of [shape_index_resize] over the old table. *)
Fixpoint index_copy (old tab : list shape_index_entry_t) (mask live : Z)
    : outcome (list shape_index_entry_t * Z) :=
  match old with
  | [] => Ok (tab, live)
  | e :: old =>
      if is_free e then index_copy old tab mask live
      else
        tab ← shape_index_put tab mask (e_key e) (e_slot e);
        index_copy old tab mask (u32 (live + 1))
  end.

Definition set_index (addr mask used : Z) (tab : list shape_index_entry_t)
    (x : shape_descriptors_t) : shape_descriptors_t :=
  mk_desc (d_ref_count x) (d_count x) (tail_dirty x) (may_have_gc_refs x) (d_cap x) mask used
    (d_props x) (d_props_mem x) addr tab (owners x).

Definition shape_index_resize (s : sid) (needed : Z) : SM bool :=
  let cap := shape_index_capacity needed in
  p ← alloc (cap * sizeof_index_entry);
  match p with
  | None => mret false
  | Some addr =>
      let tab := replicate (Z.to_nat cap) empty_entry in
      sh ← get_shape s;
      let d := s_descriptors sh in
      x ← get_desc d;
      '(tab, live) ←
        (if d_index x =? 0 then mret (tab, 0)
         else
           r ← lift (index_copy (d_index_mem x) tab (cap - 1) 0);
           shape_index_free s ;;
           mret r);
      add_bytes (cap * sizeof_index_entry) ;;
      upd_desc d (set_index (Z.of_nat addr) (cap - 1) live tab) ;;
      shape_refresh_descriptor_pointers d ;;
      mret true
  end.

Definition shape_index_add (s : sid) (key slot : Z) : SM bool :=
  sh ← get_shape s;
  let d := s_descriptors sh in
  x ← get_desc d;
  let cap := if d_index x =? 0 then 0 else u32 (d_index_mask x + 1) in
  ok ← (if cap <=? u32 (u32 (d_index_used x + 1) * 2)
        then shape_index_resize s (u32 (d_index_used x + 1)) else mret true);
  if negb ok then mret false
  else
    x ← get_desc d;
    tab ← lift (shape_index_put (d_index_mem x) (d_index_mask x) key slot);
    put_desc d (set_d_index_used (u32 (d_index_used x + 1)) (set_d_index_mem tab x)) ;;
    mret true.

Definition set_props (addr cap : Z) (x : shape_descriptors_t) : shape_descriptors_t :=
  mk_desc (d_ref_count x) (d_count x) (tail_dirty x) (may_have_gc_refs x) cap (d_index_mask x)
    (d_index_used x) addr (d_props_mem x) (d_index x) (d_index_mem x) (owners x).

Definition shape_props_reserve (s : sid) (cap : Z) : SM bool :=
  sh ← get_shape s;
  let d := s_descriptors sh in
  x ← get_desc d;
  if cap <=? d_cap x then mret true
  else
    p ← alloc (sizeof_prop * cap);
    match p with
    | None => mret false
    | Some addr =>
        add_bytes ((cap - d_cap x) * sizeof_prop) ;;
        put_desc d (set_props (Z.of_nat addr) cap x) ;;
        shape_refresh_descriptor_pointers d ;;
        mret true
    end.

(** [while (new_cap < needed) new_cap *= 2]. *)
Fixpoint cap_loop (rounds : nat) (new_cap needed : Z) : Z :=
  match rounds with
  | O => new_cap
  | S rounds => if new_cap <? needed then cap_loop rounds (u32 (new_cap * 2)) needed else new_cap
  end.

Definition shape_ensure_capacity (shape : option sid) (needed : Z) : SM bool :=
  match shape with
  | None => mret false
  | Some s =>
      sh ← get_shape s;
      x ← get_desc (s_descriptors sh);
      let cap := d_cap x in
      if needed <=? cap then mret true
      else
        let new_cap := if cap =? 0 then 8 else u32 (cap * 2) in
        shape_props_reserve s (cap_loop 32 new_cap needed)
  end.

(** A property that may refer to the collected heap. *)
Definition gc_ref (p : ant_shape_prop_t) : bool :=
  match p_type p with
  | ANT_SHAPE_KEY_DELETED => false
  | ANT_SHAPE_KEY_SYMBOL => true
  | ANT_SHAPE_KEY_STRING => negb (p_has_getter p =? 0) || negb (p_has_setter p =? 0)
  end.

Definition shape_descriptors_copy_prefix (s : sid) (extra : Z) : SM (option did) :=
  r ← shape_descriptors_new;
  match r with
  | None => mret None
  | Some copy =>
      sh ← get_shape s;
      let count := s_count sh in
      let capacity := u32 (count + extra) in
      if capacity =? 0 then mret (Some copy)
      else
        p ← alloc (capacity * sizeof_prop);
        match p with
        | None => shape_descriptors_release copy ;; mret None
        | Some props =>
            upd_desc copy (set_props (Z.of_nat props) capacity) ;;
            add_bytes (capacity * sizeof_prop) ;;
            let index_capacity := shape_index_capacity capacity in
            q ← alloc (index_capacity * sizeof_index_entry);
            match q with
            | None => shape_descriptors_release copy ;; mret None
            | Some index =>
                add_bytes (index_capacity * sizeof_index_entry) ;;
                x ← get_desc (s_descriptors sh);
                mem ← lift (shape_props sh x);
                (if (length mem <? Z.to_nat count)%nat then lift Ub else mret tt) ;;
                let mem := take (Z.to_nat count) mem in
                let tab := replicate (Z.to_nat index_capacity) empty_entry in
                '(tab, used) ← lift (index_props (Z.to_nat count) mem 0 tab (index_capacity - 1) 0);
                upd_desc copy (λ c,
                  mk_desc (d_ref_count c) count (tail_dirty c) (existsb gc_ref mem) (d_cap c)
                    (index_capacity - 1) used (d_props c) mem (Z.of_nat index) tab (owners c)) ;;
                mret (Some copy)
            end
        end
  end.

Definition shape_detach_descriptors (s : sid) (extra : Z) : SM bool :=
  r ← shape_descriptors_copy_prefix s extra;
  match r with
  | None => mret false
  | Some copy =>
      shape_unlink_descriptors s ;;
      shape_link_descriptors s copy ;;
      mret true
  end.

Definition shape_prepare_append (s : sid) : SM bool :=
  sh ← get_shape s;
  shape_reclaim_descriptor_tail (s_descriptors sh) ;;
  x ← get_desc (s_descriptors sh);
  if d_count x =? s_count sh then mret true else shape_detach_descriptors s 1.

Definition shape_prepare_metadata_write (s : sid) : SM bool :=
  upd_shape s (set_s_jit_invalid 1) ;;
  sh ← get_shape s;
  shape_reclaim_descriptor_tail (s_descriptors sh) ;;
  x ← get_desc (s_descriptors sh);
  if (d_count x =? s_count sh) && (d_ref_count x =? 1) then mret true
  else shape_detach_descriptors s 0.

(** ** Properties *)

(** [shape->props[slot]], read and written through the cached pointer.  A new entry goes right
    after those written so far. *)
Definition read_prop (s : sid) (slot : Z) : SM ant_shape_prop_t :=
  sh ← get_shape s;
  x ← get_desc (s_descriptors sh);
  mem ← lift (shape_props sh x);
  match mem !! Z.to_nat slot with Some p => mret p | None => lift Ub end.

Definition write_prop (s : sid) (slot : Z) (p : ant_shape_prop_t) : SM unit :=
  sh ← get_shape s;
  x ← get_desc (s_descriptors sh);
  mem ← lift (shape_props sh x);
  if (Z.to_nat slot <? length mem)%nat then
    put_desc (s_descriptors sh) (set_d_props_mem (<[Z.to_nat slot := p]> mem) x)
  else if (Z.to_nat slot =? length mem)%nat && (slot <? d_cap x) then
    put_desc (s_descriptors sh) (set_d_props_mem (mem ++ [p]) x)
  else lift Ub.

Definition set_attrs (attrs : Z) (p : ant_shape_prop_t) : ant_shape_prop_t :=
  mk_prop (p_type p) (p_key p) attrs (p_has_getter p) (p_has_setter p) (p_getter p) (p_setter p).

(** The part of [shape_add_key] for a key that is there: the slot, [None] for false. *)
Definition reuse_key (s : sid) (slot attrs : Z) : SM (option Z) :=
  p ← read_prop s slot;
  if p_attrs p =? attrs then mret (Some slot)
  else
    ok ← shape_prepare_metadata_write s;
    if negb ok then mret None
    else
      p ← read_prop s slot;
      write_prop s slot (set_attrs attrs p) ;;
      ant_ic_epoch_bump ;;
      mret (Some slot).

(** The end of [shape_add_key] for a new key, whose entry is written. *)
Definition finish_append (s : sid) (k slot : Z) : SM (option Z) :=
  ok ← shape_index_add s k slot;
  if negb ok then
    upd_shape s (λ sh, set_s_count (u32 (s_count sh - 1)) sh) ;;
    mret None
  else
    sh ← get_shape s;
    upd_desc (s_descriptors sh) (set_d_count (s_count sh)) ;;
    mret (Some slot).

(** The part of [shape_add_key] for a new key, once there is room for it. *)
Definition append_prop (s : sid) (type : ant_shape_key_type_t) (key attrs : Z) : SM (option Z) :=
  sh ← get_shape s;
  let slot := s_count sh in
  put_shape s (set_s_count (u32 (slot + 1)) sh) ;;
  write_prop s slot (mk_prop type key attrs 0 0 0 0) ;;
  (if decide (type = ANT_SHAPE_KEY_SYMBOL)
   then upd_desc (s_descriptors sh) (set_may_have_gc_refs true) else mret tt) ;;
  finish_append s (shape_key type key) slot.

(** The slot that [out_slot] is set to, [None] when the function returns false. *)
Definition shape_add_key (shape : option sid) (type : ant_shape_key_type_t) (key attrs : Z)
    : SM (option Z) :=
  match shape with
  | None => mret None
  | Some s =>
      found ← shape_lookup shape (shape_key type key);
      match found with
      | Some (_, slot) => reuse_key s slot attrs
      | None =>
          ok ← shape_prepare_append s;
          if negb ok then mret None
          else
            sh ← get_shape s;
            ok ← shape_ensure_capacity shape (u32 (s_count sh + 1));
            if negb ok then mret None else append_prop s type key attrs
      end
  end.

(** ** Transitions *)

Definition shape_has_children (sh : ant_shape_t) : bool :=
  match s_first_child sh, s_children sh with
  | None, [] => false
  | _, _ => true
  end.

(** [HASH_FIND] in the table of children. *)
Definition find_entry (key : Z) (l : list (Z * sid)) : option (Z * sid) :=
  List.find (λ e, e.1 =? key) l.

(** [HASH_DEL] of the entry with that key. *)
Definition remove_entry (key : Z) (l : list (Z * sid)) : list (Z * sid) :=
  filter (λ e, e.1 ≠ key) l.

Definition find_child (sh : ant_shape_t) (ckey : Z) : option sid :=
  match s_first_child sh with
  | Some c => if s_first_child_key sh =? ckey then Some c else snd <$> find_entry ckey (s_children sh)
  | None => snd <$> find_entry ckey (s_children sh)
  end.

Definition shape_find_child (shape : option sid) (ckey : Z) : SM (option sid) :=
  match shape with
  | None => mret None
  | Some s => sh ← get_shape s; mret (find_child sh ckey)
  end.

Definition set_s_first_child (key : Z) (c : option sid) (s : ant_shape_t) : ant_shape_t :=
  mk_shape (s_ref_count s) (s_count s) (s_deleted_count s) (s_inobj_limit s) (s_bulk_layout s)
    (s_gc_mark s) (s_descriptors s) (s_props s) (s_index s) (s_index_mask s) (s_jit_invalid s)
    key c (s_children s) (s_parent s) (s_parent_key s).

Definition set_s_parent_link (p : option sid) (key : Z) (s : ant_shape_t) : ant_shape_t :=
  mk_shape (s_ref_count s) (s_count s) (s_deleted_count s) (s_inobj_limit s) (s_bulk_layout s)
    (s_gc_mark s) (s_descriptors s) (s_props s) (s_index s) (s_index_mask s) (s_jit_invalid s)
    (s_first_child_key s) (s_first_child s) (s_children s) p key.

Definition ant_shape_retain (shape : option sid) : SM unit :=
  match shape with
  | None => mret tt
  | Some s => upd_shape s (λ sh, set_s_ref_count (u32 (s_ref_count sh + 1)) sh)
  end.

Definition shape_record_child (par : sid) (ckey : Z) (child : sid) : SM unit :=
  f ← shape_find_child (Some par) ckey;
  match f with
  | Some _ => mret tt
  | None =>
      sh ← get_shape par;
      ok ← match s_first_child sh with
           | None => put_shape par (set_s_first_child ckey (Some child) sh) ;; mret true
           | Some _ =>
               ok ← shape_entry_alloc;
               if negb ok then mret false
               else upd_shape par (λ sh, set_s_children (s_children sh ++ [(ckey, child)]) sh) ;;
                    mret true
           end;
      if negb ok then mret tt
      else ant_shape_retain (Some child) ;; upd_shape child (set_s_parent_link (Some par) ckey)
  end.

Definition shape_detach_child (par child : sid) : SM unit :=
  upd_shape child (set_s_parent None) ;;
  sh ← get_shape par;
  if decide (s_first_child sh = Some child) then put_shape par (set_s_first_child 0 None sh)
  else
    c ← get_shape child;
    match find_entry (s_parent_key c) (s_children sh) with
    | None => mret tt
    | Some _ =>
        put_shape par (set_s_children (remove_entry (s_parent_key c) (s_children sh)) sh) ;;
        shape_entry_free
    end.

Definition shape_is_in_tree (sh : ant_shape_t) : bool :=
  (1 <? s_ref_count sh) || (if s_parent sh is Some _ then true else false).

(** The block [calloc] returns, with its reference, and the fields the callers set before the
    shape is linked to a table. *)
Definition new_shape (count deleted_count inobj_limit : Z) (bulk : bool) : ant_shape_t :=
  mk_shape 1 count deleted_count inobj_limit bulk 0 0%nat 0 0 0 0 0 None [] None 0.

Definition shape_clone_reserve (shape : option sid) (extra : Z) : SM (option sid) :=
  match shape with
  | None => mret None
  | Some s =>
      p ← alloc sizeof_shape;
      match p with
      | None => mret None
      | Some copy =>
          r ← shape_descriptors_copy_prefix s extra;
          match r with
          | None => mret None
          | Some d =>
              sh ← get_shape s;
              put_shape copy (new_shape (s_count sh) (s_deleted_count sh)
                (shape_clamp_inobj_limit (s_inobj_limit sh)) (s_bulk_layout sh)) ;;
              shape_link_descriptors copy d ;;
              add_bytes sizeof_shape ;;
              mret (Some copy)
          end
      end
  end.

Definition ant_shape_clone (shape : option sid) : SM (option sid) := shape_clone_reserve shape 0.

Definition ant_shape_clone_bulk (shape : option sid) (extra : Z) : SM (option sid) :=
  r ← shape_clone_reserve shape extra;
  match r with
  | None => mret None
  | Some copy => upd_shape copy (set_s_bulk_layout true) ;; mret (Some copy)
  end.

Definition shape_copy_for_transition (s : sid) : SM (option sid) :=
  sh ← get_shape s;
  let d := s_descriptors sh in
  shape_reclaim_descriptor_tail d ;;
  x ← get_desc d;
  if (s_count sh =? 0) || negb (s_deleted_count sh =? 0) || negb (s_count sh =? d_count x)
  then shape_clone_reserve (Some s) 1
  else
    p ← alloc sizeof_shape;
    match p with
    | None => mret None
    | Some copy =>
        add_bytes sizeof_shape ;;
        put_shape copy (new_shape (s_count sh) 0 (s_inobj_limit sh) false) ;;
        upd_desc d (λ x, set_d_ref_count (u32 (d_ref_count x + 1)) x) ;;
        shape_link_descriptors copy d ;;
        mret (Some copy)
    end.

(** ** Reference counts *)

(** [shape_destroy]; [release] is [ant_shape_release]. *)
Definition shape_destroy (release : sid → SM unit) (s : sid) : SM unit :=
  sh ← get_shape s;
  match s_parent sh with Some par => shape_detach_child par s | None => mret tt end ;;
  sh ← get_shape s;
  match s_first_child sh with
  | Some child =>
      upd_shape s (λ sh, set_s_first_child (s_first_child_key sh) None sh) ;;
      upd_shape child (set_s_parent None) ;;
      release child
  | None => mret tt
  end ;;
  sh ← get_shape s;
  for_each (λ e,
    upd_shape e.2 (set_s_parent None) ;;
    release e.2 ;;
    upd_shape s (λ sh, set_s_children (remove_entry e.1 (s_children sh)) sh) ;;
    shape_entry_free) (s_children sh) ;;
  shape_unlink_descriptors s ;;
  sub_bytes sizeof_shape ;;
  free_shape s.

Fixpoint release_rec (fuel : nat) (s : sid) : SM unit :=
  match fuel with
  | O => lift Ub
  | S fuel =>
      sh ← get_shape s;
      if s_ref_count sh =? 0 then mret tt
      else
        let rc := u32 (s_ref_count sh - 1) in
        put_shape s (set_s_ref_count rc sh) ;;
        if negb (rc =? 0) then mret tt else shape_destroy (release_rec fuel) s
  end.

(** The depth of the recursion is at most the number of shapes ever made: a child is younger
    than its parent. *)
Definition ant_shape_release (shape : option sid) : SM unit :=
  match shape with
  | None => mret tt
  | Some s => fuel ← gets (λ st, S (clock st)); release_rec fuel s
  end.

(** [*shape_pp] after the call, and the slot if it returns true. *)
Definition shape_add_tr (shape_pp : option sid) (type : ant_shape_key_type_t) (key attrs : Z)
    (max_tree_props : Z) : SM (option sid * option Z) :=
  match shape_pp with
  | None => mret (None, None)
  | Some s =>
      sh ← get_shape s;
      if negb (shape_is_in_tree sh) then
        r ← shape_add_key (Some s) type key attrs;
        mret (Some s, r)
      else
        let k := shape_key type key in
        let ckey := shape_child_key k attrs in
        child ← shape_find_child (Some s) ckey;
        entry ← match child with
                | Some _ => shape_lookup child k
                | None => mret None
                end;
        match entry with
        | Some (_, slot) =>
            ant_shape_retain child ;; ant_shape_release (Some s) ;; mret (child, Some slot)
        | None =>
            let private := s_bulk_layout sh || (max_tree_props <=? s_count sh) in
            copy ← (if private then shape_clone_reserve (Some s) 1 else shape_copy_for_transition s);
            match copy with
            | None => mret (Some s, None)
            | Some c =>
                r ← shape_add_key copy type key attrs;
                match r with
                | None => ant_shape_release copy ;; mret (Some s, None)
                | Some slot =>
                    (if private then mret tt else shape_record_child s ckey c) ;;
                    ant_shape_release (Some s) ;;
                    mret (copy, Some slot)
                end
            end
        end
  end.

Definition ant_shape_add_interned_tr (shape_pp : option sid) (interned attrs : Z) :=
  shape_add_tr shape_pp ANT_SHAPE_KEY_STRING interned attrs SHAPE_TRANSITION_MAX_PROPS.

Definition ant_shape_add_interned_keyed_tr (shape_pp : option sid) (interned attrs : Z) :=
  shape_add_tr shape_pp ANT_SHAPE_KEY_STRING interned attrs SHAPE_KEYED_TRANSITION_MAX_PROPS.

Definition ant_shape_add_symbol_tr (shape_pp : option sid) (sym_off attrs : Z) :=
  shape_add_tr shape_pp ANT_SHAPE_KEY_SYMBOL sym_off attrs SHAPE_TRANSITION_MAX_PROPS.

Definition ant_shape_add_symbol_keyed_tr (shape_pp : option sid) (sym_off attrs : Z) :=
  shape_add_tr shape_pp ANT_SHAPE_KEY_SYMBOL sym_off attrs SHAPE_KEYED_TRANSITION_MAX_PROPS.

Definition ant_shape_new_with_inobj_limit (inobj_limit : Z) : SM (option sid) :=
  let clamped := shape_clamp_inobj_limit inobj_limit in
  roots ← gets g_root_shapes;
  root ← match roots !! Z.to_nat clamped with
         | None => lift Ub
         | Some (Some s) => mret (Some s)
         | Some None =>
             p ← alloc sizeof_shape;
             match p with
             | None => mret None
             | Some s =>
                 r ← shape_descriptors_new;
                 match r with
                 | None => mret None
                 | Some d =>
                     put_shape s (new_shape 0 0 clamped false) ;;
                     shape_link_descriptors s d ;;
                     add_bytes sizeof_shape ;;
                     modify (λ st, set_g_root_shapes
                       (<[Z.to_nat clamped := Some s]> (g_root_shapes st)) st) ;;
                     mret (Some s)
                 end
             end
         end;
  ant_shape_retain root ;;
  mret root.

Definition ant_shape_new : SM (option sid) := ant_shape_new_with_inobj_limit ANT_INOBJ_MAX_SLOTS.

(** [*shape_pp] after the call. *)
Definition ant_shape_transition_existing (shape_pp to_shape : option sid) : SM (option sid) :=
  match shape_pp, to_shape with
  | Some from, Some to =>
      if decide (from = to) then mret shape_pp
      else ant_shape_retain to_shape ;; ant_shape_release shape_pp ;; mret to_shape
  | _, _ => mret shape_pp
  end.

Definition ant_shape_is_shared (shape : option sid) : SM bool :=
  match shape with
  | None => mret false
  | Some s =>
      sh ← get_shape s;
      x ← get_desc (s_descriptors sh);
      mret ((1 <? s_ref_count sh) || (1 <? d_ref_count x))
  end.

(** ** Pruning the transition tree *)

Definition ant_gc_shapes_begin : SM unit :=
  modify (λ st,
    let e := u16 (gc_shape_epoch st + 1) in set_gc_shape_epoch (if e =? 0 then 1 else e) st).

Fixpoint mark_rec (fuel : nat) (shape : option sid) : SM unit :=
  match shape with
  | None => mret tt
  | Some s =>
      match fuel with
      | O => lift Ub
      | S fuel =>
          sh ← get_shape s;
          epoch ← gets gc_shape_epoch;
          if s_gc_mark sh =? epoch then mret tt
          else put_shape s (set_s_gc_mark epoch sh) ;; mark_rec fuel (s_parent sh)
      end
  end.

Definition ant_gc_shapes_mark (shape : option sid) : SM unit :=
  fuel ← gets (λ st, S (clock st)); mark_rec fuel shape.

Definition shape_child_is_dead (epoch : Z) (child : ant_shape_t) : bool :=
  negb (s_gc_mark child =? epoch) && negb (shape_has_children child).

(** The loop over the child entries, and whether it freed any. *)
Fixpoint prune_entries (prune : sid → SM bool) (s : sid) (l : list (Z * sid)) (freed_any : bool)
    : SM bool :=
  match l with
  | [] => mret freed_any
  | (key, child) :: l =>
      b ← prune child;
      c ← get_shape child;
      epoch ← gets gc_shape_epoch;
      if shape_child_is_dead epoch c then
        upd_shape child (set_s_parent None) ;;
        upd_shape s (λ sh, set_s_children (remove_entry key (s_children sh)) sh) ;;
        shape_entry_free ;;
        ant_shape_release (Some child) ;;
        prune_entries prune s l true
      else prune_entries prune s l (freed_any || b)
  end.

Fixpoint shape_prune_dead_children (fuel : nat) (s : sid) : SM bool :=
  match fuel with
  | O => lift Ub
  | S fuel =>
      sh ← get_shape s;
      freed_any ←
        match s_first_child sh with
        | None => mret false
        | Some child =>
            b ← shape_prune_dead_children fuel child;
            c ← get_shape child;
            epoch ← gets gc_shape_epoch;
            if shape_child_is_dead epoch c then
              shape_detach_child s child ;;
              ant_shape_release (Some child) ;;
              mret true
            else mret b
        end;
      sh ← get_shape s;
      prune_entries (shape_prune_dead_children fuel) s (s_children sh) freed_any
  end.

Fixpoint sweep_roots (l : list (option sid)) (freed_any : bool) : SM bool :=
  match l with
  | [] => mret freed_any
  | None :: l => sweep_roots l freed_any
  | Some s :: l =>
      fuel ← gets (λ st, S (clock st));
      b ← shape_prune_dead_children fuel s;
      sweep_roots l (freed_any || b)
  end.

Definition ant_gc_shapes_sweep : SM bool :=
  roots ← gets g_root_shapes;
  freed_any ← sweep_roots roots false;
  shape_entry_pool_trim ;;
  mret freed_any.

(** ** Queries and changes of one shape *)

Definition ant_shape_get_inobj_limit (shape : option sid) : SM Z :=
  match shape with
  | None => mret ANT_INOBJ_MAX_SLOTS
  | Some s => sh ← get_shape s; mret (shape_clamp_inobj_limit (s_inobj_limit sh))
  end.

(** [(int32_t)entry->slot]; -1 for a key that is not there. *)
Definition lookup_slot (shape : option sid) (k : Z) : SM Z :=
  r ← shape_lookup shape k;
  mret (match r with
        | Some (_, slot) => if slot <? 2 ^ 31 then slot else slot - 2 ^ 32
        | None => -1
        end).

Definition ant_shape_lookup_interned (shape : option sid) (interned : Z) : SM Z :=
  lookup_slot shape (shape_key_interned interned).

Definition ant_shape_lookup_symbol (shape : option sid) (sym_off : Z) : SM Z :=
  lookup_slot shape (shape_key_symbol sym_off).

Definition ant_shape_add_interned (shape : option sid) (interned attrs : Z) : SM (option Z) :=
  shape_add_key shape ANT_SHAPE_KEY_STRING interned attrs.

Definition ant_shape_add_symbol (shape : option sid) (sym_off attrs : Z) : SM (option Z) :=
  shape_add_key shape ANT_SHAPE_KEY_SYMBOL sym_off attrs.

(** Writing an entry of the index through the cached pointer. *)
Definition write_entry (s : sid) (p : nat) (e : shape_index_entry_t) : SM unit :=
  sh ← get_shape s;
  x ← get_desc (s_descriptors sh);
  tab ← lift (shape_index sh x);
  if (p <? length tab)%nat
  then put_desc (s_descriptors sh) (set_d_index_mem (<[p := e]> tab) x) else lift Ub.

(** An entry after [memset] and [type = ANT_SHAPE_KEY_DELETED]. *)
Definition deleted_prop : ant_shape_prop_t := mk_prop ANT_SHAPE_KEY_DELETED 0 0 0 0 0 0.

(** An entry after [memset]. *)
Definition zero_prop : ant_shape_prop_t := mk_prop ANT_SHAPE_KEY_STRING 0 0 0 0 0 0.

(** Dropping the deleted slots at the end: [count] and [deleted_count]. *)
Fixpoint trim_deleted (n : nat) (mem : list ant_shape_prop_t) (deleted : Z) : outcome (nat * Z) :=
  match n with
  | O => Ok (0%nat, deleted)
  | S m =>
      match mem !! m with
      | None => Ub
      | Some p =>
          if decide (p_type p = ANT_SHAPE_KEY_DELETED) then trim_deleted m mem (u32 (deleted - 1))
          else Ok (n, deleted)
      end
  end.

(** The part of [ant_shape_remove_slot] for a slot that holds property [dp]. *)
Definition remove_found (s : sid) (slot : Z) (dp : ant_shape_prop_t) : SM bool :=
  del_entry ← shape_lookup (Some s) (prop_key dp);
  match del_entry with
  | Some (p, sl) => write_entry s p (mk_entry SHAPE_IDX_TOMB sl)
  | None => mret tt
  end ;;
  write_prop s slot deleted_prop ;;
  upd_shape s (λ sh, set_s_deleted_count (u32 (s_deleted_count sh + 1)) sh) ;;
  sh ← get_shape s;
  x ← get_desc (s_descriptors sh);
  mem ← lift (shape_props sh x);
  '(n, deleted) ← lift (trim_deleted (Z.to_nat (s_count sh)) mem (s_deleted_count sh));
  put_shape s (set_s_deleted_count deleted (set_s_count (Z.of_nat n) sh)) ;;
  put_desc (s_descriptors sh) (set_d_count (Z.of_nat n) x) ;;
  ant_ic_epoch_bump ;;
  mret true.

Definition ant_shape_remove_slot (shape : option sid) (slot : Z) : SM bool :=
  match shape with
  | None => mret false
  | Some s =>
      sh ← get_shape s;
      if s_count sh <=? slot then mret false
      else
        ok ← shape_prepare_metadata_write s;
        if negb ok then mret false
        else
          dp ← read_prop s slot;
          if decide (p_type dp = ANT_SHAPE_KEY_DELETED) then mret false
          else remove_found s slot dp
  end.

Definition ant_shape_count (shape : option sid) : SM Z :=
  match shape with
  | None => mret 0
  | Some s => sh ← get_shape s; mret (s_count sh)
  end.

Definition ant_shape_may_have_gc_refs (shape : option sid) : SM bool :=
  match shape with
  | None => mret false
  | Some s => sh ← get_shape s; x ← get_desc (s_descriptors sh); mret (may_have_gc_refs x)
  end.

Definition ant_shape_should_compact (shape : option sid) : SM bool :=
  match shape with
  | None => mret false
  | Some s =>
      sh ← get_shape s;
      if s_deleted_count sh <? SHAPE_COMPACT_MIN_TOMBSTONES then mret false
      else mret (u32 (s_count sh - s_deleted_count sh) <=? s_deleted_count sh)
  end.

(** The loop of [ant_shape_compact] over the slots from [src], with [n] of them to go. *)
Fixpoint compact_loop (n : nat) (s : sid) (src dst : Z) : SM Z :=
  match n with
  | O => mret dst
  | S n =>
      p ← read_prop s src;
      if decide (p_type p = ANT_SHAPE_KEY_DELETED) then compact_loop n s (src + 1) dst
      else
        entry ← shape_lookup (Some s) (prop_key p);
        match entry with
        | Some (i, _) => write_entry s i (mk_entry (prop_key p) dst)
        | None => mret tt
        end ;;
        (if dst =? src then mret tt else write_prop s dst p) ;;
        compact_loop n s (src + 1) (dst + 1)
  end.

(** [memset] of the entries from [i] on, [n] of them. *)
Fixpoint zero_props (n : nat) (s : sid) (i : Z) : SM unit :=
  match n with
  | O => mret tt
  | S n => write_prop s i zero_prop ;; zero_props n s (i + 1)
  end.

Definition ant_shape_compact (shape : option sid) : SM Z :=
  match shape with
  | None => mret 0
  | Some s =>
      sh ← get_shape s;
      if s_deleted_count sh =? 0 then mret (s_count sh)
      else
        ok ← shape_prepare_metadata_write s;
        if negb ok then sh ← get_shape s; mret (s_count sh)
        else
          dst ← compact_loop (Z.to_nat (s_count sh)) s 0 0;
          zero_props (Z.to_nat (s_count sh - dst)) s dst ;;
          upd_shape s (λ sh, set_s_deleted_count 0 (set_s_count dst sh)) ;;
          sh ← get_shape s;
          upd_desc (s_descriptors sh) (set_d_count dst) ;;
          mret dst
  end.

(** The property behind the returned pointer, [None] for NULL. *)
Definition ant_shape_prop_at (shape : option sid) (slot : Z) : SM (option ant_shape_prop_t) :=
  match shape with
  | None => mret None
  | Some s =>
      sh ← get_shape s;
      if s_count sh <=? slot then mret None
      else
        p ← read_prop s slot;
        mret (if decide (p_type p = ANT_SHAPE_KEY_DELETED) then None else Some p)
  end.

(** Whether a pointer is returned; the caller writes the slot through it. *)
Definition ant_shape_prop_mut_at (shape : option sid) (slot : Z) : SM bool :=
  match shape with
  | None => mret false
  | Some s =>
      sh ← get_shape s;
      if s_count sh <=? slot then mret false
      else
        p ← read_prop s slot;
        if decide (p_type p = ANT_SHAPE_KEY_DELETED) then mret false
        else
          ok ← shape_prepare_metadata_write s;
          if negb ok then mret false
          else
            sh ← get_shape s;
            upd_desc (s_descriptors sh) (set_may_have_gc_refs true) ;;
            mret true
  end.

(** [ant_shape_set_attrs_interned] and [ant_shape_set_attrs_symbol] after their lookup. *)
Definition set_attrs_at (shape : option sid) (slot attrs : Z) : SM bool :=
  match shape with
  | None => mret false
  | Some s =>
      if slot <? 0 then mret false
      else
        ok ← shape_prepare_metadata_write s;
        if negb ok then mret false
        else
          p ← read_prop s slot;
          write_prop s slot (set_attrs attrs p) ;;
          ant_ic_epoch_bump ;;
          mret true
  end.

Definition ant_shape_set_attrs_interned (shape : option sid) (interned attrs : Z) : SM bool :=
  slot ← ant_shape_lookup_interned shape interned; set_attrs_at shape slot attrs.

Definition ant_shape_set_attrs_symbol (shape : option sid) (sym_off attrs : Z) : SM bool :=
  slot ← ant_shape_lookup_symbol shape sym_off; set_attrs_at shape slot attrs.

Definition ant_shape_get_attrs (shape : option sid) (slot : Z) : SM Z :=
  p ← ant_shape_prop_at shape slot;
  mret (match p with Some p => p_attrs p | None => ANT_PROP_ATTR_DEFAULT end).

Definition clear_accessor (p : ant_shape_prop_t) : ant_shape_prop_t :=
  mk_prop (p_type p) (p_key p) (p_attrs p) 0 0 0 0.

Definition ant_shape_clear_accessor_slot (shape : option sid) (slot : Z) : SM bool :=
  ok ← ant_shape_prop_mut_at shape slot;
  match shape with
  | Some s =>
      if negb ok then mret false
      else
        p ← read_prop s slot;
        write_prop s slot (clear_accessor p) ;;
        ant_ic_epoch_bump ;;
        mret true
  | None => mret false
  end.

Definition ant_shape_storage_bytes (s : sid) : SM Z :=
  sh ← get_shape s;
  x ← get_desc (s_descriptors sh);
  mret (u64 (sizeof_shape + sizeof_descriptors + d_cap x * sizeof_prop
    + (if d_index x =? 0 then 0 else u32 (d_index_mask x + 1) * sizeof_index_entry))).

Definition ant_shape_total_bytes : SM Z := gets g_shape_bytes.

(** The word the guard points to, which generated code tests; [None] for the null pointer. *)
Definition ant_shape_jit_guard (shape : option sid) : SM (option Z) :=
  match shape with
  | None => mret None
  | Some s => sh ← get_shape s; mret (Some (s_jit_invalid sh))
  end.

End Operations.
