(* ===== verification/ShapeLinks.v ===== *)
(** * Descriptor tables and the shapes that share them

    The invariant [links] of the store: every shape's cached pointers are those of its table,
    its [count] is within the table, the table's index maps exactly the keys of its live
    entries to their slots, and the owner lists and the reference counts of tables agree with
    the shapes.  [slots] is what a shape means: its properties in slot order, deleted slots
    included.  The lemmas say of each internal operation of src/src/shapes.c on tables that it
    keeps [links], and whose [slots] it changes. *)

From stdpp Require Import gmap.
From S2P Require Import Prelude ShapeIndex ShapeModel.

(** ** Weakest preconditions *)

Definition wp {A} (m : SM A) (st : state) (Q : A → state → Prop) : Prop :=
  match m st with Ok (a, st') => Q a st' | _ => False end.

Lemma wp_ret {A} (a : A) st Q : Q a st → wp (mret a) st Q.
Proof. done. Qed.

Lemma wp_bind {A B} (m : SM A) (f : A → SM B) st Q :
  wp m st (λ a st', wp (f a) st' Q) → wp (m ≫= f) st Q.
Proof. unfold wp, mbind, SM_bind. by destruct (m st) as [[a st']| |]. Qed.

Lemma wp_mono {A} (m : SM A) st (P Q : A → state → Prop) :
  wp m st P → (∀ a st', P a st' → Q a st') → wp m st Q.
Proof. unfold wp. destruct (m st) as [[a st']| |]; auto. Qed.

Lemma wp_call {A B} (m : SM A) (f : A → SM B) st (P : A → state → Prop) Q :
  wp m st P → (∀ a st', P a st' → wp (f a) st' Q) → wp (m ≫= f) st Q.
Proof. intros Hm Hf. apply wp_bind. by eapply wp_mono. Qed.

Lemma wp_lift {A} (o : outcome A) a st Q : o = Ok a → Q a st → wp (lift o) st Q.
Proof. by intros ->. Qed.

Lemma wp_modify f st (Q : unit → state → Prop) : Q tt (f st) → wp (modify f) st Q.
Proof. done. Qed.

Lemma wp_gets {A} (f : state → A) st Q : Q (f st) st → wp (gets f) st Q.
Proof. done. Qed.

Lemma wp_get_shape s x st Q : shapes st !! s = Some x → Q x st → wp (get_shape s) st Q.
Proof. unfold wp, get_shape. by intros ->. Qed.

Lemma wp_get_desc d x st Q : descs st !! d = Some x → Q x st → wp (get_desc d) st Q.
Proof. unfold wp, get_desc. by intros ->. Qed.

Lemma wp_upd_shape s x f st (Q : unit → state → Prop) :
  shapes st !! s = Some x → Q tt (set_shapes (<[s := f x]> (shapes st)) st) →
  wp (upd_shape s f) st Q.
Proof. intros E HQ. apply wp_bind. by eapply wp_get_shape. Qed.

Lemma wp_upd_desc d x f st (Q : unit → state → Prop) :
  descs st !! d = Some x → Q tt (set_descs (<[d := f x]> (descs st)) st) →
  wp (upd_desc d f) st Q.
Proof. intros E HQ. apply wp_bind. by eapply wp_get_desc. Qed.

Lemma wp_alloc `{Allocator} n st (Q : option nat → state → Prop) :
  (grants (S (clock st)) n = false → Q None (set_clock (S (clock st)) st)) →
  (grants (S (clock st)) n = true → Q (Some (S (clock st))) (set_clock (S (clock st)) st)) →
  wp (alloc n) st Q.
Proof. intros HN HS. unfold wp, alloc. destruct (grants _ n) eqn:E; auto. Qed.

(** [step] runs the next statement of a program whose operands are known. *)
Ltac step :=
  lazymatch goal with
  | |- wp (mbind _ _) _ _ => apply wp_bind; try step
  | |- wp (mret _) _ _ => apply wp_ret
  | |- wp (modify _) _ _ => apply wp_modify
  | |- wp (put_shape _ _) _ _ => apply wp_modify
  | |- wp (put_desc _ _) _ _ => apply wp_modify
  | |- wp (add_bytes _) _ _ => apply wp_modify
  | |- wp (sub_bytes _) _ _ => apply wp_modify
  | |- wp (free_shape _) _ _ => apply wp_modify
  | |- wp (free_desc _) _ _ => apply wp_modify
  | |- wp ant_ic_epoch_bump _ _ => apply wp_modify
  | |- wp (gets _) _ _ => apply wp_gets
  | |- wp (get_shape _) _ _ => eapply wp_get_shape; [eassumption|]
  | |- wp (get_desc _) _ _ => eapply wp_get_desc; [eassumption|]
  | |- wp (upd_shape _ _) _ _ => eapply wp_upd_shape; [eassumption|]
  | |- wp (upd_desc _ _) _ _ => eapply wp_upd_desc; [eassumption|]
  | |- wp (lift _) _ _ => eapply wp_lift; [eassumption|cbv beta iota]
  end.

(** ** Well-formed tables *)

(** Names of properties: the address of an interned string, the offset of a symbol. *)
Definition name_ok (type : ant_shape_key_type_t) (key : Z) : Prop :=
  match type with
  | ANT_SHAPE_KEY_STRING => 0 < key < 2 ^ 63
  | ANT_SHAPE_KEY_SYMBOL => 0 <= key < 2 ^ 63 - 1
  | ANT_SHAPE_KEY_DELETED => False
  end.

Definition live_prop (p : ant_shape_prop_t) : Prop := p_type p ≠ ANT_SHAPE_KEY_DELETED.

#[global] Instance live_prop_dec p : Decision (live_prop p).
Proof. unfold live_prop. apply _. Defined.

Definition prop_ok (p : ant_shape_prop_t) : Prop := live_prop p → name_ok (p_type p) (p_key p).

(** Slot [s], below [n], holds a live property with key [k]. *)
Definition key_at (mem : list ant_shape_prop_t) (n : nat) (k s : Z) : Prop :=
  ∃ i p, s = Z.of_nat i ∧ (i < n)%nat ∧ mem !! i = Some p ∧ live_prop p ∧ prop_key p = k.

(** The live entries have different keys. *)
Definition keys_differ (mem : list ant_shape_prop_t) : Prop :=
  ∀ i j p q, mem !! i = Some p → mem !! j = Some q → live_prop p → live_prop q →
    prop_key p = prop_key q → i = j.

Definition deleted (mem : list ant_shape_prop_t) : nat :=
  length (filter (λ p, ¬ live_prop p) mem).

Definition index_ok (x : shape_descriptors_t) : Prop :=
  (d_index x = 0 ∧ d_index_mem x = [] ∧ d_index_mask x = 0 ∧ d_index_used x = 0 ∧ d_count x = 0) ∨
  (d_index x ≠ 0 ∧ table_ok (d_index_mem x) ∧ d_index_mask x = zlen (d_index_mem x) - 1 ∧
   Z.of_nat (occupied (d_index_mem x)) <= d_index_used x ∧
   2 * d_index_used x < zlen (d_index_mem x) < 2 ^ 28).

Definition desc_ok (x : shape_descriptors_t) : Prop :=
  0 <= d_count x <= zlen (d_props_mem x) ∧ zlen (d_props_mem x) <= d_cap x < 2 ^ 27 ∧
  index_ok x ∧
  (∀ k s, live_key k → has (d_index_mem x) k s ↔ key_at (d_props_mem x) (Z.to_nat (d_count x)) k s) ∧
  Forall prop_ok (take (Z.to_nat (d_count x)) (d_props_mem x)).

(** ** Keys *)

Lemma shape_key_live type key : name_ok type key → live_key (shape_key type key).
Proof.
  unfold live_key, SHAPE_IDX_EMPTY, SHAPE_IDX_TOMB. destruct type; simpl; [| |done]; intros H.
  - unfold shape_key_interned. rewrite shiftl_mul by lia. unfold u64. word.
  - unfold shape_key_symbol. rewrite shiftl_mul, u64_small by lia.
    change (key * 2 ^ 1) with (key * 2 ^ 1). rewrite lor_add_low by lia. lia.
Qed.

Lemma shape_key_inj type key type' key' :
  name_ok type key → name_ok type' key' → shape_key type key = shape_key type' key' →
  type = type' ∧ key = key'.
Proof.
  destruct type, type'; simpl; try done; intros H H';
    unfold shape_key_interned, shape_key_symbol; rewrite !shiftl_mul by lia;
    rewrite !u64_small by lia; rewrite ?lor_add_low by lia; intros E; split; try done; lia.
Qed.

Lemma prop_key_live p : prop_ok p → live_prop p → live_key (prop_key p).
Proof. intros H Hl. by apply shape_key_live, H. Qed.

(** ** Rebuilding an index *)

Lemma key_at_mono mem n m k s : key_at mem n k s → (n <= m)%nat → key_at mem m k s.
Proof. intros (i & p & ? & ? & ? & ? & ?) Hm. exists i, p. repeat split; auto. lia. Qed.

Lemma key_at_S mem n p k s :
  mem !! n = Some p →
  key_at mem (S n) k s ↔ (live_prop p ∧ prop_key p = k ∧ s = Z.of_nat n) ∨ key_at mem n k s.
Proof.
  intros Hp. split.
  - intros (i & q & -> & Hi & Hq & Hl & Hk). destruct (decide (i = n)) as [-> |Hne].
    + left. rewrite Hp in Hq. by injection Hq as ->.
    + right. exists i, q. repeat split; auto. lia.
  - intros [(Hl & Hk & ->)|H]; [|by eapply key_at_mono; eauto]. exists n, p. repeat split; auto.
Qed.

(** The number of live entries. *)
Definition lives (mem : list ant_shape_prop_t) : nat := length (filter live_prop mem).

Lemma lives_drop mem i n p :
  mem !! i = Some p →
  lives (take (S n) (drop i mem))
  = ((if decide (live_prop p) then 1 else 0) + lives (take n (drop (S i) mem)))%nat.
Proof.
  intros Hp. rewrite (drop_S mem p i) by done. simpl. unfold lives. rewrite filter_cons.
  by case_decide.
Qed.

Lemma index_props_spec n : ∀ mem i tab used,
  table_ok tab → Z.of_nat (occupied tab) <= used →
  2 * (used + Z.of_nat (lives (take n (drop i mem)))) < zlen tab < 2 ^ 28 →
  (i + n <= length mem)%nat → Forall prop_ok mem → keys_differ mem →
  (∀ k s, live_key k → has tab k s ↔ key_at mem i k s) →
  ∃ tab' used', index_props n mem i tab (zlen tab - 1) used = Ok (tab', used') ∧
    table_ok tab' ∧ length tab' = length tab ∧
    Z.of_nat (occupied tab') <= used' <= used + Z.of_nat (lives (take n (drop i mem))) ∧
    ∀ k s, live_key k → has tab' k s ↔ key_at mem (i + n) k s.
Proof.
  induction n as [|n IH]; intros mem i tab used Hok Hocc Hroom Hlen Hprops Hdiff Hhas.
  { exists tab, used. split; [done|]. split; [done|]. split; [done|]. split; [simpl; lia|].
    intros k s Hk. by rewrite Nat.add_0_r, Hhas. }
  destruct (lookup_lt_is_Some_2 mem i) as [p Hp]; [lia|].
  rewrite (lives_drop mem i n p Hp) in *. cbn [index_props]. rewrite Hp.
  rewrite <- Nat.add_succ_comm.
  assert (∀ tab', (∀ k s, live_key k →
     has tab' k s ↔ (live_prop p ∧ k = prop_key p ∧ s = Z.of_nat i) ∨ has tab k s) →
     ∀ k s, live_key k → has tab' k s ↔ key_at mem (S i) k s) as Hnext.
  { intros tab' Ht k s Hk. rewrite Ht, (key_at_S mem i p), Hhas by done. intuition congruence. }
  unfold live_prop in Hroom |- * at 1. destruct (decide (p_type p = ANT_SHAPE_KEY_DELETED)) as [Hd|Hl].
  - destruct (IH mem (S i) tab used) as (tab' & used' & E & ? & ? & ? & ?); try done; try lia.
    { apply Hnext. intros k s Hk. unfold live_prop. tauto. }
    exists tab', used'. split; [done|]. split; [done|]. split; [done|]. split; [lia|done].
  - rewrite decide_True in * by done. assert (live_key (prop_key p)) as Hk.
    { apply prop_key_live; [|done]. by eapply Forall_lookup_1. }
    destruct (shape_index_put_spec tab (prop_key p) (Z.of_nat i))
      as (tab1 & -> & Hok1 & Hlen1 & Hocc1 & Hhas1); [done|unfold zlen in *; lia|done| |].
    { intros s Hs. apply Hhas in Hs as (j & q & _ & Hj & Hq & Hql & Hqk); [|done].
      assert (j = i) by (by eapply Hdiff). lia. }
    simpl. rewrite u32_small by (unfold zlen in *; lia).
    assert (zlen tab1 = zlen tab) as Hz by (unfold zlen; by rewrite Hlen1). rewrite <- Hz.
    destruct (IH mem (S i) tab1 (used + 1)) as (tab' & used' & E & ? & ? & ? & ?);
      try done; try lia.
    { apply Hnext. intros k s Hks. rewrite Hhas1 by done. unfold live_prop. tauto. }
    exists tab', used'. split; [done|]. split; [done|]. split; [congruence|]. split; [lia|done].
Qed.

Lemma index_copy_spec old : ∀ tab live,
  table_ok tab → Z.of_nat (occupied tab) <= live →
  2 * (live + Z.of_nat (occupied old)) < zlen tab < 2 ^ 28 →
  (∀ p q e e', old !! p = Some e → old !! q = Some e' → live_entry e → e_key e = e_key e' → p = q) →
  (∀ k s s', has old k s → has tab k s' → ¬ live_key k) → 0 <= live →
  ∃ tab' live', index_copy old tab (zlen tab - 1) live = Ok (tab', live') ∧
    table_ok tab' ∧ length tab' = length tab ∧
    Z.of_nat (occupied tab') <= live' <= live + Z.of_nat (occupied old) ∧
    ∀ k s, live_key k → has tab' k s ↔ has tab k s ∨ has old k s.
Proof.
  induction old as [|e old IH]; intros tab live Hok Hocc Hroom Hdiff Hdis Hl0; simpl.
  { exists tab, live. split; [done|]. split; [done|]. split; [done|]. split; [simpl; lia|].
    intros k s _. split; [by left|]. intros [?|H]; [done|]. by apply not_elem_of_nil in H. }
  assert (∀ p q e e', old !! p = Some e → old !! q = Some e' → live_entry e →
    e_key e = e_key e' → p = q) as Hdiff'.
  { intros p q e1 e2 H1 H2 H3 H4. by injection (Hdiff (S p) (S q) e1 e2 H1 H2 H3 H4) as ->. }
  assert (∀ k s, has (e :: old) k s ↔ e = mk_entry k s ∨ has old k s) as Hcons.
  { intros k s. unfold has. rewrite elem_of_cons. intuition congruence. }
  assert (occupied (e :: old) = (if decide (e_key e ≠ SHAPE_IDX_EMPTY) then 1 else 0)
    + occupied old)%nat as Ho.
  { unfold occupied. rewrite filter_cons. by case_decide. }
  destruct (is_free e) eqn:Hfree.
  - apply is_free_true in Hfree.
    destruct (IH tab live) as (tab' & live' & E & ? & ? & ? & Hh); try done; try lia.
    { intros k s s' Ho' Ht'. eapply Hdis; [|done]. apply Hcons. by right. }
    exists tab', live'. split; [done|]. split; [done|]. split; [done|]. split; [lia|].
    intros k s Hk. rewrite Hh, Hcons by done. split; [tauto|]. intros [?|[-> |?]]; auto.
    by destruct Hfree.
  - apply is_free_false in Hfree. rewrite decide_True in Ho by apply Hfree.
    assert (∀ s, ¬ has tab (e_key e) s) as Hnew.
    { intros s Hs. apply (Hdis (e_key e) (e_slot e) s); [|done|done]. apply Hcons. left. by destruct e. }
    destruct (shape_index_put_spec tab (e_key e) (e_slot e))
      as (tab1 & -> & Hok1 & Hlen1 & Hocc1 & Hhas1); [done|unfold zlen in *; lia|done|done|].
    simpl. rewrite u32_small by (unfold zlen in *; lia).
    assert (zlen tab1 = zlen tab) as Hz by (unfold zlen; by rewrite Hlen1). rewrite <- Hz.
    destruct (IH tab1 (live + 1)) as (tab' & live' & E & ? & ? & ? & Hh); try done; try lia.
    { intros k s s' Ho' Ht' Hk. apply Hhas1 in Ht' as [[-> ->]|Ht']; [| |done].
      - apply list_elem_of_lookup in Ho' as (j & Hj).
        specialize (Hdiff 0%nat (S j) e _ eq_refl Hj Hfree eq_refl). done.
      - apply (Hdis k s s'); [|done|done]. apply Hcons. by right. }
    exists tab', live'. split; [done|]. split; [done|]. split; [congruence|]. split; [lia|].
    intros k s Hk. rewrite Hh, Hhas1, Hcons by done. destruct e as [ek es]. simpl.
    split; [intros [[[-> ->]|?]|?]; auto|]. intros [?|[[= -> ->]|?]]; auto.
Qed.

(** ** The invariant of the store *)

Definition caches (sh : ant_shape_t) (x : shape_descriptors_t) : Prop :=
  s_props sh = d_props x ∧ s_index sh = d_index x ∧ s_index_mask sh = d_index_mask x.

(** The slots of a shape with [count] slots on table [x]. *)
Definition view (count : Z) (x : shape_descriptors_t) : list ant_shape_prop_t :=
  take (Z.to_nat count) (d_props_mem x).

Definition slots (st : state) (s : sid) : option (list ant_shape_prop_t) :=
  sh ← shapes st !! s; x ← descs st !! s_descriptors sh; Some (view (s_count sh) x).

(** Shape [sh] at [s] agrees with its table [x]. *)
Definition link_ok (s : sid) (sh : ant_shape_t) (x : shape_descriptors_t) : Prop :=
  s ∈ owners x ∧ 0 <= s_count sh <= d_count x ∧ caches sh x ∧
  s_deleted_count sh = Z.of_nat (deleted (view (s_count sh) x)).

(** The table counts its owners; one that was just made has none yet. *)
Definition owners_ok (x : shape_descriptors_t) : Prop :=
  NoDup (owners x) ∧ zlen (owners x) < 2 ^ 32 ∧
  (d_ref_count x = zlen (owners x) ∨ owners x = [] ∧ d_ref_count x = 1).

Record links (st : state) : Prop := mk_links {
  links_shape s sh : shapes st !! s = Some sh →
    ∃ x, descs st !! s_descriptors sh = Some x ∧ link_ok s sh x;
  links_desc d x : descs st !! d = Some x → desc_ok x ∧ owners_ok x;
  links_owner d x o : descs st !! d = Some x → o ∈ owners x →
    ∃ sh, shapes st !! o = Some sh ∧ s_descriptors sh = d;
  links_young_shape s sh : shapes st !! s = Some sh → (s <= clock st)%nat;
  links_young_desc d x : descs st !! d = Some x → (d <= clock st)%nat
}.

(** The fields of a shape that have to do with the transition tree. *)
Definition tree_of (sh : ant_shape_t) :=
  (s_ref_count sh, s_inobj_limit sh, s_bulk_layout sh, s_gc_mark sh, s_first_child_key sh,
   s_first_child sh, s_children sh, s_parent sh, s_parent_key sh).

(** The globals that operations on tables leave alone; time passes. *)
Definition quiet (st st' : state) : Prop :=
  g_root_shapes st' = g_root_shapes st ∧ gc_shape_epoch st' = gc_shape_epoch st ∧
  (clock st <= clock st')%nat.

Definition tree_frame (st st' : state) : Prop :=
  quiet st st' ∧ ∀ s, tree_of <$> shapes st' !! s = tree_of <$> shapes st !! s.

(** Nothing that a client can see of any shape has changed. *)
Definition stable (st st' : state) : Prop :=
  tree_frame st st' ∧ ∀ s, slots st' s = slots st s.

#[global] Instance quiet_preorder : PreOrder quiet.
Proof.
  split; [by intros st|]. intros st1 st2 st3 (? & ? & ?) (? & ? & ?).
  split; [congruence|]. split; [congruence|lia].
Qed.

#[global] Instance tree_frame_preorder : PreOrder tree_frame.
Proof.
  split; [by intros st|]. intros st1 st2 st3 [Hq H] [Hq' H']. split; [by etrans|].
  intros s. by rewrite H'.
Qed.

#[global] Instance stable_preorder : PreOrder stable.
Proof.
  split; [by intros st|]. intros st1 st2 st3 [Hq H] [Hq' H']. split; [by etrans|].
  intros s. by rewrite H'.
Qed.

Lemma slots_eq st s sh x :
  shapes st !! s = Some sh → descs st !! s_descriptors sh = Some x →
  slots st s = Some (view (s_count sh) x).
Proof. unfold slots. intros ->. simpl. intros ->. done. Qed.

Lemma view_take_le n c x : n <= c → view n x = take (Z.to_nat n) (take (Z.to_nat c) (d_props_mem x)).
Proof. intros H. unfold view. rewrite take_take. f_equal. lia. Qed.

(** The slots of [s] only depend on its [count], the number of its table and that table. *)
Lemma slots_local st st' s :
  (λ sh, (s_count sh, s_descriptors sh)) <$> shapes st' !! s
    = (λ sh, (s_count sh, s_descriptors sh)) <$> shapes st !! s →
  (∀ sh, shapes st !! s = Some sh →
     view (s_count sh) <$> descs st' !! s_descriptors sh
     = view (s_count sh) <$> descs st !! s_descriptors sh) →
  slots st' s = slots st s.
Proof.
  unfold slots. destruct (shapes st !! s) as [sh|], (shapes st' !! s) as [sh'|]; simpl; try done.
  intros [= E1 E2] H. specialize (H sh eq_refl). rewrite E1, E2. revert H.
  destruct (descs st !! _), (descs st' !! _); simpl; congruence.
Qed.

Lemma set_caches_same sh x : caches sh x → set_caches x sh = sh.
Proof. intros (E1 & E2 & E3). unfold set_caches. rewrite <- E1, <- E2, <- E3. by destruct sh. Qed.

(** Two shapes on one table. *)
Lemma links_same_table st s sh d x :
  links st → shapes st !! s = Some sh → descs st !! d = Some x → s ∈ owners x →
  s_descriptors sh = d ∧ link_ok s sh x.
Proof.
  intros L Hs Hd Ho. destruct (links_owner st L d x s Hd Ho) as (sh' & E & <-).
  rewrite Hs in E. injection E as <-. split; [done|].
  destruct (links_shape st L s sh Hs) as (x' & E & Hl). rewrite Hd in E. by injection E as <-.
Qed.

(** Table [x] at [d] becomes [x'], and the cached pointers of its owners follow. *)
Definition table_change (st : state) (d : did) (x x' : shape_descriptors_t) (st' : state) : Prop :=
  descs st' = <[d := x']> (descs st) ∧
  (∀ o, shapes st' !! o = (if decide (o ∈ owners x) then set_caches x' else id) <$> shapes st !! o) ∧
  quiet st st' ∧ owners x' = owners x ∧ d_ref_count x' = d_ref_count x.

(** The owners of [x] are there, with its pointers. *)
Definition cached (st : state) (x : shape_descriptors_t) : Prop :=
  NoDup (owners x) ∧ ∀ o, o ∈ owners x → ∃ sh, shapes st !! o = Some sh ∧ caches sh x.

Lemma links_cached st d x : links st → descs st !! d = Some x → cached st x.
Proof.
  intros L Hd. split; [apply (links_desc st L d x Hd)|]. intros o Ho.
  destruct (links_owner st L d x o Hd Ho) as (sh & E & _). exists sh. split; [done|].
  apply (links_same_table st o sh d x L E Hd Ho).
Qed.

Lemma table_change_cached st d x x' st' : cached st x → table_change st d x x' st' → cached st' x'.
Proof.
  intros [Hnd Hc] (_ & Hsh & _ & Hown & _). split; [by rewrite Hown|]. intros o Ho.
  rewrite Hown in Ho. destruct (Hc o Ho) as (sh & E & _). rewrite Hsh, decide_True, E by done.
  by exists (set_caches x' sh).
Qed.

Lemma table_change_trans st d x x1 st1 x2 st2 :
  table_change st d x x1 st1 → table_change st1 d x1 x2 st2 → table_change st d x x2 st2.
Proof.
  intros (D1 & S1 & Q1 & O1 & R1) (D2 & S2 & Q2 & O2 & R2).
  split; [by rewrite D2, D1, insert_insert_eq|].
  split; [|split; [by etrans|split; congruence]].
  intros o. rewrite S2, S1, O1. destruct (shapes st !! o); [|done]. simpl. by case_decide.
Qed.

(** A change in place. *)
Lemma table_change_inplace st st' d x x' :
  cached st x → shapes st' = shapes st → descs st' = <[d := x']> (descs st) → quiet st st' →
  owners x' = owners x → d_ref_count x' = d_ref_count x →
  d_props x' = d_props x → d_index x' = d_index x → d_index_mask x' = d_index_mask x →
  table_change st d x x' st'.
Proof.
  intros [_ Hc] Hsh Hde Hq Hown Hrc E1 E2 E3. split; [done|]. split; [|done].
  intros o. rewrite Hsh. case_decide as Ho; [|by destruct (shapes st !! o)].
  destruct (Hc o Ho) as (sh & -> & (C1 & C2 & C3)). simpl. f_equal.
  symmetry. apply set_caches_same. unfold caches. by rewrite E1, E2, E3.
Qed.

Lemma table_change_refl st st' d x :
  cached st x → descs st !! d = Some x → shapes st' = shapes st → descs st' = descs st →
  quiet st st' → table_change st d x x st'.
Proof. intros Hc Hd Hs Hde Hq. apply table_change_inplace; try done. by rewrite insert_id. Qed.

(** Addresses that are yet to be given out. *)
Lemma links_fresh_desc st d : links st → (clock st < d)%nat → descs st !! d = None.
Proof.
  intros L Hd. destruct (descs st !! d) as [x|] eqn:E; [|done].
  pose proof (links_young_desc st L d x E). lia.
Qed.

Lemma links_fresh_shape st s : links st → (clock st < s)%nat → shapes st !! s = None.
Proof.
  intros L Hs. destruct (shapes st !! s) as [x|] eqn:E; [|done].
  pose proof (links_young_shape st L s x E). lia.
Qed.

(** A change of table [d] that its owners cannot see. *)
Lemma links_table st st' d x x' :
  links st → descs st !! d = Some x → desc_ok x' →
  (∀ o sh, o ∈ owners x → shapes st !! o = Some sh →
     s_count sh <= d_count x' ∧ view (s_count sh) x' = view (s_count sh) x) →
  table_change st d x x' st' →
  links st' ∧ stable st st'.
Proof.
  intros L Hd Hok Hview (Hde & Hsh & Hq & Hown & Hrc).
  assert (∀ o sh, shapes st' !! o = Some sh → ∃ sh0, shapes st !! o = Some sh0 ∧
    sh = (if decide (o ∈ owners x) then set_caches x' else id) sh0) as Hsh'.
  { intros o sh E. rewrite Hsh in E. by apply fmap_Some in E. }
  split; [split|split; [split; [done|]|]].
  - intros s sh E. apply Hsh' in E as (sh0 & E0 & ->).
    destruct (links_shape st L s sh0 E0) as (y & Ey & Hl). rewrite Hde. case_decide as Ho.
    + destruct (links_same_table st s sh0 d x L E0 Hd Ho) as [Hsd (_ & Hc & _ & Hdel)].
      simpl. rewrite Hsd, lookup_insert_eq. exists x'. split; [done|].
      destruct (Hview s sh0 Ho E0) as [Hle Hv].
      split; [by rewrite Hown|]. split; [simpl; lia|]. split; [done|]. simpl. by rewrite Hv.
    + simpl. exists y. split; [|done]. rewrite lookup_insert_ne; [done|].
      intros Hsd. rewrite <- Hsd, Hd in Ey. injection Ey as <-. by apply Ho, Hl.
  - intros d' y. rewrite Hde, lookup_insert_Some. intros [[<- <-]|[_ Hy]]; [|by eapply links_desc].
    destruct (links_desc st L d x Hd) as [_ Ho]. split; [done|]. unfold owners_ok in *.
    by rewrite Hown, Hrc.
  - intros d' y o Hy Ho. rewrite Hsh.
    assert (∃ sh, shapes st !! o = Some sh ∧ s_descriptors sh = d') as (sh & -> & <-).
    { rewrite Hde, lookup_insert_Some in Hy. destruct Hy as [[<- <-]|[_ Hy]];
        [rewrite Hown in Ho|]; by eapply links_owner. }
    simpl. eexists. split; [done|]. by case_decide.
  - intros s sh E. apply Hsh' in E as (sh0 & E0 & _). destruct Hq as (_ & _ & Hc).
    pose proof (links_young_shape st L s sh0 E0). lia.
  - intros d' y. rewrite Hde, lookup_insert_Some. destruct Hq as (_ & _ & Hc).
    intros [[<- _]|[_ Hy]]; [pose proof (links_young_desc st L d x Hd)
      |pose proof (links_young_desc st L d' y Hy)]; lia.
  - intros o. rewrite Hsh. destruct (shapes st !! o); simpl; [|done]. by case_decide.
  - intros o. apply slots_local.
    + rewrite Hsh. destruct (shapes st !! o); simpl; [|done]. by case_decide.
    + intros sh E. rewrite Hde. destruct (decide (s_descriptors sh = d)) as [E'|Hne].
      * rewrite E', lookup_insert_eq, Hd. simpl. f_equal. apply (Hview o sh); [|done].
        destruct (links_shape st L o sh E) as (y & Ey & Hl). rewrite E', Hd in Ey.
        injection Ey as <-. apply Hl.
      * by rewrite lookup_insert_ne.
Qed.

(** [shape_refresh_descriptor_pointers]: every owner's cached pointers are set. *)
Lemma wp_for_owners f l st (Q : unit → state → Prop) :
  NoDup l → (∀ o, o ∈ l → is_Some (shapes st !! o)) →
  (∀ m, (∀ o, m !! o = (if decide (o ∈ l) then f else id) <$> shapes st !! o) →
     Q tt (set_shapes m st)) →
  wp (for_each (λ o, upd_shape o f) l) st Q.
Proof.
  revert st. induction l as [|o l IH]; intros st Hnd Hex HQ; simpl.
  { apply wp_ret. replace st with (set_shapes (shapes st) st) by (by destruct st).
    apply HQ. intros o. simpl. by destruct (shapes st !! o). }
  apply NoDup_cons in Hnd as [Hno Hnd]. destruct (Hex o) as [sh Eo]; [left|].
  step. apply IH; [done| |].
  - intros o' Ho'. simpl. destruct (decide (o = o')) as [<-|]; [rewrite lookup_insert_eq; eauto|].
    rewrite lookup_insert_ne by done. apply Hex. by right.
  - intros m Hm. apply HQ. intros o'. rewrite Hm. simpl.
    destruct (decide (o = o')) as [<-|Hne].
    + rewrite lookup_insert_eq, Eo, (decide_False (P := o ∈ l)), decide_True by (by left || done).
      done.
    + rewrite lookup_insert_ne by done. f_equal. apply decide_ext. rewrite elem_of_cons. intuition congruence.
Qed.

Lemma wp_refresh st d x (Q : unit → state → Prop) :
  descs st !! d = Some x → NoDup (owners x) → (∀ o, o ∈ owners x → is_Some (shapes st !! o)) →
  (∀ m, (∀ o, m !! o = (if decide (o ∈ owners x) then set_caches x else id) <$> shapes st !! o) →
     Q tt (set_shapes m st)) →
  wp (shape_refresh_descriptor_pointers d) st Q.
Proof. intros Hd Hnd Hex HQ. unfold shape_refresh_descriptor_pointers. step. by apply wp_for_owners. Qed.

(** ** Facts about one table *)

Lemma desc_ok_differ x : desc_ok x → keys_differ (take (Z.to_nat (d_count x)) (d_props_mem x)).
Proof.
  intros (Hc & _ & Hidx & Hhas & Hprops) i j p q Hp Hq Hlp Hlq Hk.
  destruct Hidx as [(_ & _ & _ & _ & E)|(_ & Hok & _)].
  { rewrite E in Hp. done. }
  assert (live_key (prop_key p)) as Hlk.
  { apply prop_key_live; [|done]. by eapply Forall_lookup_1. }
  apply lookup_take_Some in Hp as [Hp Hi]. apply lookup_take_Some in Hq as [Hq Hj].
  assert (has (d_index_mem x) (prop_key p) (Z.of_nat i)) as H1.
  { apply Hhas; [done|]. exists i, p. repeat split; auto. }
  assert (has (d_index_mem x) (prop_key p) (Z.of_nat j)) as H2.
  { apply Hhas; [done|]. exists j, q. repeat split; auto. }
  apply list_elem_of_lookup in H1 as (a & Ha). apply list_elem_of_lookup in H2 as (b & Hb).
  assert (a = b) as <- by (by eapply (table_ok_unique (d_index_mem x) (prop_key p))).
  rewrite Ha in Hb. injection Hb as Hb. lia.
Qed.

(** The entries that the live properties have in the index. *)
Fixpoint live_entries (mem : list ant_shape_prop_t) (i : nat) : list shape_index_entry_t :=
  match mem with
  | [] => []
  | p :: mem =>
      (if decide (live_prop p) then [mk_entry (prop_key p) (Z.of_nat i)] else [])
      ++ live_entries mem (S i)
  end.

Lemma live_entries_length mem i : length (live_entries mem i) = lives mem.
Proof.
  revert i. induction mem as [|p mem IH]; intros i; [done|]. simpl. unfold lives.
  rewrite length_app, IH, filter_cons. by case_decide.
Qed.

Lemma elem_of_live_entries mem i e :
  e ∈ live_entries mem i →
  ∃ j p, mem !! j = Some p ∧ live_prop p ∧ e = mk_entry (prop_key p) (Z.of_nat (i + j)).
Proof.
  revert i. induction mem as [|p mem IH]; intros i; simpl; [by intros ?%not_elem_of_nil|].
  rewrite elem_of_app. intros [H|H].
  - exists 0%nat, p. case_decide; [|by apply not_elem_of_nil in H].
    apply list_elem_of_singleton in H as ->. split; [done|]. split; [done|]. do 2 f_equal. lia.
  - apply IH in H as (j & q & Hq & Hl & ->). exists (S j), q. split; [done|]. split; [done|].
    do 2 f_equal. lia.
Qed.

Lemma NoDup_live_entries mem i : NoDup (live_entries mem i).
Proof.
  revert i. induction mem as [|p mem IH]; intros i; simpl; [constructor|].
  case_decide; simpl; [|done]. constructor; [|done].
  intros H'. apply elem_of_live_entries in H' as (j & q & _ & _ & E). injection E as E. lia.
Qed.

(** No more live properties than occupied entries. *)
Lemma lives_occupied x :
  desc_ok x → (lives (take (Z.to_nat (d_count x)) (d_props_mem x)) <= occupied (d_index_mem x))%nat.
Proof.
  intros (Hc & _ & _ & Hhas & Hprops). rewrite <- (live_entries_length _ 0). unfold occupied.
  apply submseteq_length, NoDup_submseteq; [apply NoDup_live_entries|].
  intros e He. apply elem_of_live_entries in He as (j & p & Hp & Hl & ->).
  assert (live_key (prop_key p)) as Hlk.
  { apply prop_key_live; [|done]. by eapply Forall_lookup_1. }
  apply list_elem_of_filter. split; [apply Hlk|]. apply Hhas; [done|].
  apply lookup_take_Some in Hp as [Hp Hj]. exists j, p. repeat split; auto.
Qed.

Lemma lives_take_le mem n m : (n <= m)%nat → (lives (take n mem) <= lives (take m mem))%nat.
Proof.
  intros H. unfold lives. rewrite <- (take_drop n (take m mem)), filter_app, length_app.
  rewrite take_take, Nat.min_l by done. lia.
Qed.

Lemma key_at_take mem n m k s : (n <= m)%nat → key_at (take m mem) n k s ↔ key_at mem n k s.
Proof.
  intros H. unfold key_at. split; intros (i & p & -> & Hi & Hp & Hl & Hk); exists i, p;
    (split; [done|]); (split; [done|]).
  - apply lookup_take_Some in Hp as [Hp _]. done.
  - by rewrite lookup_take_lt by lia.
Qed.

Lemma index_props_take n mem m i tab mask used :
  (i + n <= m)%nat →
  index_props n (take m mem) i tab mask used = index_props n mem i tab mask used.
Proof.
  revert i tab used. induction n as [|n IH]; intros i tab used H; [done|]. simpl.
  rewrite lookup_take_lt by lia. destruct (mem !! i) as [p|]; [|done].
  case_decide; [apply IH; lia|]. destruct (shape_index_put _ _ _ _); simpl; [|done|done].
  apply IH. lia.
Qed.

(** Indexing the first [n] properties of [mem] from scratch. *)
Lemma reindex_spec mem n (cap : nat) :
  Forall prop_ok (take n mem) → keys_differ (take n mem) → (n <= length mem)%nat →
  table_size (Z.of_nat cap) → 2 * Z.of_nat (lives (take n mem)) < Z.of_nat cap < 2 ^ 28 →
  ∃ tab used, index_props n mem 0 (replicate cap empty_entry) (Z.of_nat cap - 1) 0 = Ok (tab, used) ∧
    table_ok tab ∧ length tab = cap ∧
    Z.of_nat (occupied tab) <= used <= Z.of_nat (lives (take n mem)) ∧
    ∀ k s, live_key k → has tab k s ↔ key_at mem n k s.
Proof.
  intros Hp Hd Hlen Hsize Hroom. destruct (empty_table_spec cap Hsize) as (Hok & Hocc & Hhas).
  assert (zlen (replicate cap empty_entry) = Z.of_nat cap) as Hz
    by (unfold zlen; by rewrite length_replicate).
  destruct (index_props_spec n (take n mem) 0 (replicate cap empty_entry) 0)
    as (tab & used & E & Hok' & Hlen' & Hused & Hhas'); try done.
  - by rewrite Hocc.
  - rewrite Hz, drop_0, take_take, Nat.min_id. lia.
  - rewrite length_take. lia.
  - intros k s Hk. split; [intros H; by destruct (Hhas k s Hk)|].
    intros (i & p & _ & Hi & _). lia.
  - rewrite drop_0, take_take, Nat.min_id in Hused. rewrite Hz in E.
    rewrite index_props_take in E by lia. exists tab, used. split; [done|]. split; [done|].
    split; [by rewrite Hlen', length_replicate|]. split; [lia|].
    intros k s Hk. rewrite Hhas', key_at_take by (done || lia). done.
Qed.

(** ** Reclaiming the tail of a table *)

Lemma owners_count_spec total l : ∀ st count (Q : option Z → state → Prop),
  (∀ o, o ∈ l → ∃ sh, shapes st !! o = Some sh ∧ s_count sh <= total) → 0 <= count <= total →
  Q None st →
  (∀ c, (∀ o sh, o ∈ l → shapes st !! o = Some sh → s_count sh <= c) → count <= c <= total →
     Q (Some c) st) →
  wp (owners_count total l count) st Q.
Proof.
  induction l as [|o l IH]; intros st count Q Hex Hc HN HS; simpl.
  { step. apply HS; [by intros o sh ?%not_elem_of_nil|lia]. }
  destruct (Hex o) as (sh & Eo & Hle); [left|]. step.
  set (c := if count <? s_count sh then s_count sh else count).
  assert (count <= c <= total ∧ s_count sh <= c) as [Hc' Hsc]
    by (unfold c; case_ltb; lia).
  case_ltb; [by step|]. apply IH; [intros o' Ho'; apply Hex; by right|lia|done|].
  intros c' Hl' Hc''. apply HS; [|lia]. intros o' sh'.
  rewrite elem_of_cons. intros [-> |Ho'] Eo'; [|by eapply Hl'].
  rewrite Eo in Eo'. injection Eo' as <-. lia.
Qed.

(** A table cut to its first [c] entries and indexed again. *)
Lemma reindex_prefix x c :
  desc_ok x → d_index x ≠ 0 → 0 <= c <= d_count x →
  ∃ tab used,
    index_props (Z.to_nat c) (d_props_mem x) 0 (replicate (length (d_index_mem x)) empty_entry)
      (d_index_mask x) 0 = Ok (tab, used) ∧
    desc_ok (set_d_index_used used (set_d_index_mem tab (set_d_count c (set_tail_dirty false x)))).
Proof.
  intros Hok Hi Hcle. pose proof (desc_ok_differ x Hok) as Hdiff.
  pose proof (lives_occupied x Hok) as Hlo.
  destruct Hok as (Hc & Hcap & [(? & _)|(_ & [Hsz _] & Hmask & Hocc & Hroom)] & _ & Hprops); [done|].
  assert (take (Z.to_nat c) (d_props_mem x)
    = take (Z.to_nat c) (take (Z.to_nat (d_count x)) (d_props_mem x))) as Ht.
  { rewrite take_take. f_equal. lia. }
  pose proof (lives_take_le (d_props_mem x) (Z.to_nat c) (Z.to_nat (d_count x)) ltac:(lia)).
  destruct (reindex_spec (d_props_mem x) (Z.to_nat c) (length (d_index_mem x)))
    as (tab & used & E & Htok & Htlen & Hused & Hhas); try (unfold zlen in *; lia || done).
  - rewrite Ht. by apply Forall_take.
  - rewrite Ht. intros i j p q Hp Hq. apply lookup_take_Some in Hp as [Hp _].
    apply lookup_take_Some in Hq as [Hq _]. by apply Hdiff.
  - assert (zlen tab = zlen (d_index_mem x)) as Hz by (unfold zlen; by rewrite Htlen).
    exists tab, used. split; [by rewrite Hmask|]. split; [simpl; lia|]. split; [simpl; lia|].
    split; [right; simpl; rewrite Hz; split_and!; done || lia|].
    split; [done|]. simpl. rewrite Ht. by apply Forall_take.
Qed.

(** A change in place that keeps the properties, as far as the owners see them. *)
Lemma links_inplace st st' d x x' :
  links st → descs st !! d = Some x → desc_ok x' → d_props_mem x' = d_props_mem x →
  (∀ o sh, o ∈ owners x → shapes st !! o = Some sh → s_count sh <= d_count x') →
  owners x' = owners x → d_ref_count x' = d_ref_count x →
  d_props x' = d_props x → d_index x' = d_index x → d_index_mask x' = d_index_mask x →
  shapes st' = shapes st → descs st' = <[d := x']> (descs st) → quiet st st' →
  links st' ∧ stable st st'.
Proof.
  intros L Hd Hok Hmem Hcnt ????????.
  eapply links_table; try done;
    [|apply table_change_inplace; try done; by eapply links_cached].
  intros o sh Ho Eo. split; [by eapply Hcnt|]. unfold view. by rewrite Hmem.
Qed.

(** What a caller learns of [shape_reclaim_descriptor_tail]. *)
Definition reclaimed (st : state) (d : did) (x : shape_descriptors_t) (st' : state) : Prop :=
  links st' ∧ stable st st' ∧ shapes st' = shapes st ∧
  ∃ x', descs st' = <[d := x']> (descs st) ∧ owners x' = owners x ∧
    d_ref_count x' = d_ref_count x ∧ d_count x' <= d_count x.

Lemma reclaim_spec st d x :
  links st → descs st !! d = Some x →
  wp (shape_reclaim_descriptor_tail d) st (λ _ st', reclaimed st d x st').
Proof.
  intros L Hd. destruct (links_desc st L d x Hd) as [Hok Hown].
  assert (∀ o sh, o ∈ owners x → shapes st !! o = Some sh → s_count sh <= d_count x) as Hcnt.
  { intros o sh Ho Eo. apply (links_same_table st o sh d x L Eo Hd Ho). }
  unfold shape_reclaim_descriptor_tail. step. destruct (negb (tail_dirty x)).
  { step. split; [done|]. split; [done|]. split; [done|]. exists x. by rewrite insert_id. }
  assert (∀ x' st', desc_ok x' → d_props_mem x' = d_props_mem x → d_count x' <= d_count x →
    (∀ o sh, o ∈ owners x → shapes st !! o = Some sh → s_count sh <= d_count x') →
    owners x' = owners x → d_ref_count x' = d_ref_count x →
    d_props x' = d_props x → d_index x' = d_index x → d_index_mask x' = d_index_mask x →
    shapes st' = shapes st → descs st' = <[d := x']> (descs st) → quiet st st' →
    reclaimed st d x st') as Hfin.
  { intros x' st' Hok' ???????????. destruct (links_inplace st st' d x x'); try done.
    split; [done|]. split; [done|]. split; [done|]. by exists x'. }
  do 2 step. apply owners_count_spec; [|simpl; split; [lia|apply Hok]| |].
  - intros o Ho. destruct (links_owner st L d x o Hd Ho) as (sh & Eo & _). exists sh.
    split; [done|]. by apply (Hcnt o sh).
  - step. by apply (Hfin (set_tail_dirty false x)).
  - simpl. intros c Hc Hcle. step. simpl. destruct (Z.eqb_spec (d_index x) 0) as [Hi|Hi].
    + assert (d_count x = 0) as E0.
      { destruct Hok as (_ & _ & [(_ & _ & _ & _ & ?)|(? & _)] & _); done. }
      assert (c = 0) as -> by lia. step.
      apply (Hfin (set_d_count 0 (set_tail_dirty false x))); try done;
        [|simpl; lia|simpl; by rewrite insert_insert_eq].
      replace (set_d_count 0 _) with (set_tail_dirty false x); [done|].
      unfold set_d_count, set_tail_dirty. simpl. by rewrite E0.
    + destruct (reindex_prefix x c) as (tab & used & E & Hok'); [done|done|lia|]. do 2 step.
      eapply Hfin; [exact Hok'|..]; try done; [simpl; lia|simpl; by rewrite !insert_insert_eq].
Qed.

(** ** Growing a table *)

(** No single block of 4 GB or more is granted. *)
Class Bounded `{Allocator} : Prop := grants_bound : ∀ t n, grants t n = true → n < 2 ^ 32.

(** Some allocation is refused: the only way for the operations below to fail. *)
Definition refused `{Allocator} : Prop := ∃ t n, grants t n = false.

(** The properties of a table are those of another. *)
Definition same_props (x x' : shape_descriptors_t) : Prop :=
  d_props_mem x' = d_props_mem x ∧ d_count x' = d_count x ∧ tail_dirty x' = tail_dirty x ∧
  may_have_gc_refs x' = may_have_gc_refs x.

Lemma desc_ok_used x : desc_ok x → 0 <= d_index_used x < 2 ^ 27.
Proof. intros (_ & _ & [(_ & _ & _ & -> & _)|(_ & _ & _ & Ho & Hr)] & _); lia. Qed.

(** Setting the index of a table. *)
Lemma desc_ok_set_index x addr tab used :
  desc_ok x → addr ≠ 0 → table_ok tab → Z.of_nat (occupied tab) <= used →
  2 * used < zlen tab < 2 ^ 28 →
  (∀ k s, live_key k → has tab k s ↔ has (d_index_mem x) k s) →
  desc_ok (set_index addr (zlen tab - 1) used tab x).
Proof.
  intros (Hc & Hcap & _ & Hhas & Hprops) Ha Hok Hocc Hroom Ht.
  split; [done|]. split; [done|]. split; [by right|]. split; [|done].
  intros k s Hk. simpl. by rewrite Ht, Hhas.
Qed.

Lemma index_copy_fresh x (cap : nat) :
  desc_ok x → table_size (Z.of_nat cap) → 2 * (d_index_used x + 1) < Z.of_nat cap < 2 ^ 28 →
  d_index x ≠ 0 →
  ∃ tab live, index_copy (d_index_mem x) (replicate cap empty_entry) (Z.of_nat cap - 1) 0 = Ok (tab, live) ∧
    table_ok tab ∧ length tab = cap ∧ Z.of_nat (occupied tab) <= live <= d_index_used x ∧
    ∀ k s, live_key k → has tab k s ↔ has (d_index_mem x) k s.
Proof.
  intros (_ & _ & [(? & _)|(_ & Hok & _ & Hocc & _)] & _ & _) Hsize Hroom Hi; [done|].
  destruct (empty_table_spec cap Hsize) as (Hok0 & Hocc0 & Hhas0).
  assert (zlen (replicate cap empty_entry) = Z.of_nat cap) as Hz
    by (unfold zlen; by rewrite length_replicate).
  destruct (index_copy_spec (d_index_mem x) (replicate cap empty_entry) 0)
    as (tab & live & E & Htok & Hlen & Hl & Hhas); try done; try lia.
  - intros p q e e' Hp Hq Hle Ek. by eapply (table_ok_unique (d_index_mem x) (e_key e)).
  - intros k s s' _ H' Hk. by apply (Hhas0 k s').
  - rewrite Hz in E. exists tab, live. split; [done|]. split; [done|].
    split; [by rewrite Hlen, length_replicate|]. split; [lia|].
    intros k s Hk. rewrite Hhas by done. split; [intros [H'|]; [by destruct (Hhas0 k s Hk)|done]|by right].
Qed.

(** A state that differs in the counters, and in time. *)
Ltac quiet := split; [reflexivity|split; [reflexivity|cbn; lia]].

Section Growing.

Context `{Bounded}.

(** [table_change] from the state after the new table is stored and refreshed. *)
Lemma table_change_refresh st st1 d x x' m :
  (∀ o, shapes st1 !! o = shapes st !! o ∨
     o ∈ owners x ∧ ∃ y, shapes st1 !! o = set_caches y <$> shapes st !! o) →
  quiet st st1 → descs st1 = <[d := x']> (descs st) →
  owners x' = owners x → d_ref_count x' = d_ref_count x →
  (∀ o, m !! o = (if decide (o ∈ owners x') then set_caches x' else id) <$> shapes st1 !! o) →
  table_change st d x x' (set_shapes m st1).
Proof.
  intros Hsh Hq Hde Hown Hrc Hm. split; [done|]. split; [|done].
  intros o. simpl. rewrite Hm, Hown. destruct (Hsh o) as [-> |(Ho & y & ->)]; [done|].
  rewrite !decide_True by done. by destruct (shapes st !! o).
Qed.

Lemma index_free_spec st s sh x (Q : unit → state → Prop) :
  let d := s_descriptors sh in
  let x0 := set_index 0 0 0 [] x in
  shapes st !! s = Some sh → descs st !! d = Some x → d_index x ≠ 0 → cached st x →
  (∀ m b, (∀ o, m !! o = (if decide (o ∈ owners x) then set_caches x0 else id) <$> shapes st !! o) →
     Q tt (set_shapes m (set_descs (<[d := x0]> (descs st)) (set_g_shape_bytes b st)))) →
  wp (shape_index_free s) st Q.
Proof.
  intros d x0 Hs Hd Hi [Hnd Hc] HQ. unfold shape_index_free. step. step.
  destruct (Z.eqb_spec (d_index x) 0); [done|]. step. step. change (mk_desc _ _ _ _ _ _ _ _ _ _ _ _) with x0.
  eapply (wp_refresh _ d x0); [simpl; apply lookup_insert_eq|done| |].
  - intros o Ho. destruct (Hc o Ho) as (sh' & E & _). by exists sh'.
  - intros m Hm. by apply HQ.
Qed.

(** What [shape_index_resize] leaves: the table with a larger index. *)
Definition resized (st : state) (d : did) (x : shape_descriptors_t) (ok : bool) (st' : state) : Prop :=
  ∃ x', table_change st d x x' st' ∧ desc_ok x' ∧ same_props x x' ∧ d_cap x' = d_cap x ∧
    d_index_used x' <= d_index_used x ∧
    (ok = false → refused) ∧
    (ok = true → d_index x' ≠ 0 ∧ 2 * (d_index_used x + 1) < zlen (d_index_mem x')).

(** Storing the new index. *)
Lemma index_install st st1 d x a tab live addr cap :
  desc_ok x → cached st x → table_ok tab → zlen tab = cap → addr ≠ 0 →
  2 * (d_index_used x + 1) < cap < 2 ^ 28 →
  Z.of_nat (occupied tab) <= live <= d_index_used x →
  (∀ k s, live_key k → has tab k s ↔ has (d_index_mem x) k s) →
  quiet st st1 → descs st1 !! d = Some a → descs st1 = <[d := a]> (descs st) →
  set_index addr (cap - 1) live tab a = set_index addr (cap - 1) live tab x →
  (∀ o, shapes st1 !! o = shapes st !! o ∨
     o ∈ owners x ∧ ∃ y, shapes st1 !! o = set_caches y <$> shapes st !! o) →
  wp (add_bytes (cap * sizeof_index_entry) ;; upd_desc d (set_index addr (cap - 1) live tab) ;;
      shape_refresh_descriptor_pointers d ;; mret true) st1 (resized st d x).
Proof.
  intros Hok [Hnd Hex] Htok Hz Haddr Hcap Hlive Hhas Hq Ha Hde Eset Hsh. step. step. rewrite Eset.
  set (x' := set_index _ _ _ _ x). apply wp_bind.
  eapply (wp_refresh _ d x'); [simpl; apply lookup_insert_eq|done| |].
  - intros o Ho. simpl. destruct (Hex o Ho) as (sh' & E & _).
    destruct (Hsh o) as [-> |(_ & y & ->)]; rewrite E; eauto.
  - intros m Hm. step. exists x'. split; [|split; [|split; [done|split; [done|split; [simpl; lia|split; [done|]]]]]].
    + eapply table_change_refresh; try done. simpl. by rewrite Hde, insert_insert_eq.
    + unfold x'. rewrite <- Hz. apply desc_ok_set_index; try done; lia.
    + intros _. simpl. split; [done|lia].
Qed.

Lemma index_resize_spec st s sh x :
  let d := s_descriptors sh in
  shapes st !! s = Some sh → descs st !! d = Some x → desc_ok x → cached st x →
  wp (shape_index_resize s (d_index_used x + 1)) st (resized st d x).
Proof.
  intros d Hs Hd Hok Hca. pose proof (desc_ok_used x Hok) as Hu. unfold shape_index_resize.
  destruct (shape_index_capacity_spec (d_index_used x + 1)) as (Hsz & H8 & H2 & _); [lia|].
  set (cap := shape_index_capacity _) in *. apply wp_bind, wp_alloc.
  { intros Hg. step. exists x. split; [apply table_change_refl; try done; quiet|]. do 4 (split; [done|]).
    split; [|done]. intros _. by do 2 eexists. }
  intros Hg. apply grants_bound in Hg. unfold sizeof_index_entry in Hg.
  step. step. change (s_descriptors sh) with d. apply wp_bind.
  assert (Z.of_nat (Z.to_nat cap) = cap) as Hcap by lia.
  destruct (Z.eqb_spec (d_index x) 0) as [Hi|Hi].
  - step. destruct (empty_table_spec (Z.to_nat cap)) as (Hok0 & Hocc0 & Hhas0); [by rewrite Hcap|].
    eapply index_install; try done; [unfold zlen; by rewrite length_replicate|lia|lia|..].
    + intros k s' Hk. destruct Hok as (_ & _ & [(_ & -> & _)|(? & _)] & _ & _); [|done].
      split; [intros Hx; by destruct (Hhas0 k s' Hk)|by intros Hx%not_elem_of_nil].
    + quiet.
    + simpl. by rewrite insert_id.
    + by left.
  - destruct (index_copy_fresh x (Z.to_nat cap)) as (tab & live & E & Htok & Hlen & Hlive & Hhas);
      [done|by rewrite Hcap|lia|done|]. rewrite Hcap in E. step.
    apply wp_bind, index_free_spec with sh x; [done|done|done|done|].
    intros m b Hm. step.
    eapply index_install; try done; [unfold zlen; lia|lia|quiet|apply lookup_insert_eq|].
    intros o. simpl. rewrite Hm. case_decide; [right; eauto|]. left. simpl. by destruct (shapes st !! o).
Qed.

(** A table whose index has the extra entry [key], [slot]. *)
Definition indexed (x : shape_descriptors_t) (key slot : Z) (x' : shape_descriptors_t) : Prop :=
  d_index x' ≠ 0 ∧ table_ok (d_index_mem x') ∧ d_index_mask x' = zlen (d_index_mem x') - 1 ∧
  Z.of_nat (occupied (d_index_mem x')) <= d_index_used x' ∧
  2 * d_index_used x' < zlen (d_index_mem x') < 2 ^ 28 ∧
  ∀ k s, live_key k → has (d_index_mem x') k s ↔ (k = key ∧ s = slot) ∨ has (d_index_mem x) k s.

Lemma has_of_desc x x' k s :
  desc_ok x → desc_ok x' → same_props x x' → live_key k →
  has (d_index_mem x') k s ↔ has (d_index_mem x) k s.
Proof.
  intros (_ & _ & _ & H1 & _) (_ & _ & _ & H2 & _) (Em & Ec & _) Hk.
  by rewrite H1, H2, Em, Ec by done.
Qed.

Lemma index_add_spec st s sh x key slot :
  let d := s_descriptors sh in
  shapes st !! s = Some sh → descs st !! d = Some x → desc_ok x → cached st x →
  live_key key → (∀ s', ¬ has (d_index_mem x) key s') →
  wp (shape_index_add s key slot) st (λ ok st',
    ∃ x', table_change st d x x' st' ∧ same_props x x' ∧ d_cap x' = d_cap x ∧
      if ok then indexed x key slot x' else desc_ok x' ∧ refused).
Proof.
  intros d Hs Hd Hok Hca Hk Hnew. pose proof (desc_ok_used x Hok) as Hu.
  unfold shape_index_add. do 2 step. change (s_descriptors sh) with d.
  rewrite (u32_small (d_index_used x + 1)), (u32_small (_ * 2)) by lia.
  set (cap := if d_index x =? 0 then 0 else _).
  apply wp_call with (P := λ ok st', resized st d x ok st').
  { destruct (Z.leb_spec cap ((d_index_used x + 1) * 2)) as [Hle|Hgt];
      [by apply index_resize_spec|]. step. exists x.
    split; [by apply table_change_refl|]. split; [done|]. split; [done|]. split; [done|].
    split; [done|]. split; [done|]. intros _. unfold cap in Hgt. destruct (Z.eqb_spec (d_index x) 0); [lia|].
    destruct Hok as (_ & _ & [(? & _)|(_ & _ & Hm & _ & Hr)] & _); [done|].
    rewrite Hm, u32_small in Hgt by lia. split; [done|lia]. }
  intros ok st1 (x1 & Htc & Hok1 & Hsp & Hcap1 & Hu1 & Href & Hroom).
  destruct ok; simpl; [|step; exists x1; split_and!; auto].
  destruct (Hroom eq_refl) as [Hi Hlen]. clear Hroom.
  assert (descs st1 !! d = Some x1) as Hd1.
  { destruct Htc as (-> & _). apply lookup_insert_eq. }
  step. pose proof Hok1 as (_ & _ & [(? & _)|(_ & Htok & Hmask & Hocc & Hz)] & _ & _); [done|].
  destruct (shape_index_put_spec (d_index_mem x1) key slot)
    as (tab & E & Htok' & Hlen' & Hocc' & Hhas'); [done|unfold zlen in *; lia|done| |].
  { intros s' Hs'. by apply (has_of_desc x x1) in Hs'; [apply (Hnew s')|..]. }
  rewrite Hmask. do 3 step. rewrite u32_small by lia.
  assert (zlen tab = zlen (d_index_mem x1)) as Hz' by (unfold zlen; by rewrite Hlen').
  exists (set_d_index_used (d_index_used x1 + 1) (set_d_index_mem tab x1)).
  split; [|split; [exact Hsp|split; [exact Hcap1|]]].
  - eapply table_change_trans; [exact Htc|].
    apply table_change_inplace; try done. by eapply table_change_cached.
  - split; [done|]. split; [done|]. split; [simpl; lia|]. split; [simpl; lia|].
    split; [simpl; lia|]. intros k s' Hk'. simpl. rewrite Hhas', (has_of_desc x x1); done.
Qed.

(** ** The array of properties *)

Lemma cap_loop_spec rounds c needed :
  0 < c < 2 ^ 29 → needed < 2 ^ 28 → needed <= c * 2 ^ Z.of_nat rounds →
  needed <= cap_loop rounds c needed ∧ c <= cap_loop rounds c needed.
Proof.
  revert c. induction rounds as [|rounds IH]; intros c Hc Hn Hle; simpl; [lia|].
  case_ltb; [|lia]. rewrite u32_small by lia.
  destruct (IH (c * 2)); [lia|lia| |lia].
  rewrite Nat2Z.inj_succ, Z.pow_succ_r in Hle by lia. lia.
Qed.

Lemma ensure_capacity_spec st s sh x needed :
  let d := s_descriptors sh in
  shapes st !! s = Some sh → descs st !! d = Some x → desc_ok x → cached st x →
  0 <= needed < 2 ^ 28 →
  wp (shape_ensure_capacity (Some s) needed) st (λ ok st',
    ∃ x', table_change st d x x' st' ∧ desc_ok x' ∧ same_props x x' ∧
      (ok = false → refused) ∧ (ok = true → needed <= d_cap x')).
Proof.
  intros d Hs Hd Hok Hca Hn. pose proof Hok as (Hc & Hcap & _).
  assert (∀ st' ok, shapes st' = shapes st → descs st' = descs st → quiet st st' →
    (ok = false → refused) → (ok = true → needed <= d_cap x) →
    ∃ x', table_change st d x x' st' ∧ desc_ok x' ∧ same_props x x' ∧
      (ok = false → refused) ∧ (ok = true → needed <= d_cap x')) as Hsame.
  { intros st' ok ?????. exists x. by split; [apply table_change_refl|]. }
  unfold shape_ensure_capacity. do 2 step. case_ltb; [by step; apply Hsame|].
  set (c := if d_cap x =? 0 then 8 else u32 (d_cap x * 2)).
  assert (0 < c < 2 ^ 29 ∧ d_cap x < c) as [Hc' Hlt].
  { unfold c. case_ltb; [lia|]. rewrite u32_small by (unfold zlen in *; lia). unfold zlen in *; lia. }
  destruct (cap_loop_spec 32 c needed) as [Hle Hle']; [done|lia|lia|].
  generalize dependent (cap_loop 32 c needed). intros nc Hle Hle'.
  unfold shape_props_reserve. do 2 step. change (s_descriptors sh) with d.
  case_ltb; [lia|]. apply wp_bind, wp_alloc.
  { intros Hg. step. apply Hsame; try done; [quiet|]. intros _. by do 2 eexists. }
  intros Hg. apply grants_bound in Hg. unfold sizeof_prop in Hg. do 2 step.
  set (x' := set_props _ _ x). apply wp_bind. destruct Hca as [Hnd Hex].
  eapply (wp_refresh _ d x'); [simpl; apply lookup_insert_eq|done| |].
  - intros o Ho. simpl. destruct (Hex o Ho) as (sh' & -> & _). eauto.
  - intros m Hm. step. exists x'. split; [|split; [|split; [done|split; [done|simpl; lia]]]].
    + eapply table_change_refresh; try done; [by left|quiet].
    + destruct Hok as (? & ? & ? & ? & ?). split; [done|]. split; [simpl; lia|]. done.
Qed.

End Growing.
