(* ===== verification/ShapeCopy.v ===== *)
(** * Copying, detaching and sharing descriptor tables

    [shape_descriptors_copy_prefix] gives a shape a table of its own, with the same properties;
    [shape_detach_descriptors] moves it there, [shape_prepare_append] and
    [shape_prepare_metadata_write] do so when writing to the shared table would be seen by
    another shape.  Cloning a shape and sharing its table with a transition add a shape to the
    store.  None of them changes what any shape means. *)

From stdpp Require Import gmap.
From S2P Require Import Prelude ShapeIndex ShapeModel ShapeLinks.

(** [y] is a private copy of the first [count] entries of [x], with room for [extra]. *)
Record fresh_copy (count extra : Z) (x y : shape_descriptors_t) : Prop := mk_fresh_copy {
  copy_ok : desc_ok y;
  copy_owners : owners y = [];
  copy_refs : d_ref_count y = 1;
  copy_count : d_count y = count;
  copy_mem : d_props_mem y = view count x;
  copy_cap : count + extra <= d_cap y
}.

Lemma length_view count x : 0 <= count <= zlen (d_props_mem x) → zlen (view count x) = count.
Proof. intros H. unfold view, zlen in *. rewrite length_take. lia. Qed.

(** The index of a copy. *)
Lemma copy_index x count (cap : nat) :
  desc_ok x → 0 <= count <= d_count x → table_size (Z.of_nat cap) →
  2 * count < Z.of_nat cap < 2 ^ 28 →
  ∃ tab used, index_props (Z.to_nat count) (view count x) 0 (replicate cap empty_entry)
      (Z.of_nat cap - 1) 0 = Ok (tab, used) ∧
    table_ok tab ∧ length tab = cap ∧ Z.of_nat (occupied tab) <= used <= count ∧
    ∀ k s, live_key k → has tab k s ↔ key_at (view count x) (Z.to_nat count) k s.
Proof.
  intros Hok Hc Hsize Hroom. pose proof (desc_ok_differ x Hok) as Hdiff.
  destruct Hok as (Hcnt & _ & _ & _ & Hprops).
  pose proof (length_view count x ltac:(lia)) as Hlen.
  pose proof (view_take_le count (d_count x) x ltac:(lia)) as Hv.
  assert (take (Z.to_nat count) (view count x) = view count x) as Hself.
  { apply take_ge. unfold zlen in Hlen. lia. }
  assert (lives (view count x) <= Z.to_nat count)%nat as Hlv.
  { unfold lives. rewrite length_filter. unfold zlen in Hlen. lia. }
  destruct (reindex_spec (view count x) (Z.to_nat count) cap)
    as (tab & used & E & Htok & Htlen & Hused & Hhas); rewrite ?Hself in *;
    try (unfold zlen in *; lia || done).
  - rewrite Hv. by apply Forall_take.
  - rewrite Hv. intros i j p q Hp Hq. apply lookup_take_Some in Hp as [Hp _].
    apply lookup_take_Some in Hq as [Hq _]. by apply Hdiff.
  - exists tab, used. split; [done|]. split; [done|]. split; [done|]. split; [lia|done].
Qed.

Lemma fresh_copy_intro x count extra capacity tab used props index gc :
  desc_ok x → 0 <= count <= d_count x → count + extra <= capacity < 2 ^ 27 → 0 <= extra →
  index ≠ 0 → table_ok tab → Z.of_nat (occupied tab) <= used → 2 * used < zlen tab < 2 ^ 28 →
  (∀ k s, live_key k → has tab k s ↔ key_at (view count x) (Z.to_nat count) k s) →
  fresh_copy count extra x
    (mk_desc 1 count false gc capacity (zlen tab - 1) used props (view count x) index tab []).
Proof.
  intros (Hcnt & _ & _ & _ & Hprops) Hc Hcap He Hi Htok Hocc Hused Hhas.
  pose proof (length_view count x ltac:(lia)) as Hlen.
  split; try done; [|simpl; lia]. split; [simpl; lia|]. split; [simpl; lia|].
  split; [right; simpl; split_and!; done || lia|]. split; [done|]. simpl.
  rewrite (view_take_le count (d_count x)) by lia. by do 2 apply Forall_take.
Qed.

(** Freeing a table that has just been made. *)
Lemma release_fresh st c y (Q : unit → state → Prop) :
  descs st !! c = Some y → d_ref_count y = 1 →
  (∀ b, Q tt (set_descs (delete c (descs st)) (set_g_shape_bytes b st))) →
  wp (shape_descriptors_release c) st Q.
Proof.
  intros Hc Hr HQ. unfold shape_descriptors_release. do 2 step. rewrite Hr. simpl.
  do 2 step. assert (∀ b, Q tt (set_descs (delete c (<[c := set_d_ref_count 0 y]> (descs st)))
    (set_g_shape_bytes b st))) as HQ'. { intros b. rewrite delete_insert_eq. apply HQ. }
  case_ltb; do 2 step; apply HQ'.
Qed.

Section Copying.

Context `{Bounded}.

Lemma descriptors_new_spec st (Q : option did → state → Prop) :
  (refused → Q None (set_clock (S (clock st)) st)) →
  (∀ b, Q (Some (S (clock st))) (set_g_shape_bytes b (set_descs
     (<[S (clock st) := mk_desc 1 0 false false 0 0 0 0 [] 0 [] []]> (descs st))
     (set_clock (S (clock st)) st)))) →
  wp shape_descriptors_new st Q.
Proof.
  intros HN HS. unfold shape_descriptors_new. apply wp_bind, wp_alloc.
  - intros Hg. step. apply HN. by do 2 eexists.
  - intros _. do 3 step. apply HS.
Qed.

(** What [shape_descriptors_copy_prefix] leaves: the store, with a copy if it succeeds. *)
Definition copied (st : state) (count extra : Z) (x : shape_descriptors_t)
    (r : option did) (st' : state) : Prop :=
  shapes st' = shapes st ∧ quiet st st' ∧
  match r with
  | None => descs st' = descs st ∧ refused
  | Some c => (clock st < c <= clock st')%nat ∧
      ∃ y, descs st' = <[c := y]> (descs st) ∧ fresh_copy count extra x y
  end.

Lemma copy_prefix_spec st s sh x extra :
  links st → shapes st !! s = Some sh → descs st !! s_descriptors sh = Some x →
  0 <= extra < 2 ^ 28 →
  wp (shape_descriptors_copy_prefix s extra) st (copied st (s_count sh) extra x).
Proof.
  intros L Hs Hd He. destruct (links_desc st L _ x Hd) as [Hok _].
  assert (link_ok s sh x) as (_ & Hcnt & (Hcp & _) & _).
  { destruct (links_shape st L s sh Hs) as (x' & E & Hl). congruence. }
  pose proof Hok as (Hc & Hcap & _ & _ & _).
  pose proof (links_fresh_desc st (S (clock st)) L ltac:(lia)) as HN.
  assert (s_descriptors sh ≠ S (clock st)) as Hne by (intros E; rewrite E, HN in Hd; done).
  unfold shape_descriptors_copy_prefix. apply wp_bind, descriptors_new_spec.
  { intros Href. step. split; [done|]. split; [quiet|done]. }
  intros b. step. rewrite u32_small by lia. destruct (Z.eqb_spec (s_count sh + extra) 0) as [E0|E0].
  { step. split; [done|]. split; [quiet|]. split; [simpl; lia|]. eexists. split; [done|].
    assert (s_count sh = 0) as -> by lia. split; try done; [|simpl; lia].
    split; [done|]. split; [done|]. split; [by left|]. split; [|constructor].
    intros k s' Hk. split; [by intros Hx%not_elem_of_nil|]. intros (i & p & _ & Hi & _). simpl in Hi. lia. }
  apply wp_bind, wp_alloc.
  { intros Hg. apply wp_bind. eapply release_fresh; [apply lookup_insert_eq|done|]. intros b'. step.
    split; [done|]. split; [quiet|]. simpl. rewrite delete_insert_id by done. split; [done|by do 2 eexists]. }
  intros Hg. apply grants_bound in Hg. unfold sizeof_prop in Hg.
  apply wp_bind. eapply wp_upd_desc; [apply lookup_insert_eq|]. step.
  destruct (shape_index_capacity_spec (s_count sh + extra)) as (Hsz & H8 & H2 & _); [lia|].
  set (ic := shape_index_capacity _) in *. apply wp_bind, wp_alloc.
  { intros Hg'. apply wp_bind. eapply release_fresh; [apply lookup_insert_eq|done|]. intros b'. step.
    split; [done|]. split; [quiet|]. simpl. rewrite insert_insert_eq, delete_insert_id by done.
    split; [done|by do 2 eexists]. }
  intros Hg'. apply grants_bound in Hg'. unfold sizeof_index_entry in Hg'. step.
  apply wp_bind. eapply wp_get_desc; [simpl; by rewrite !lookup_insert_ne by done|].
  assert (shape_props sh x = Ok (d_props_mem x)) as Ep by (unfold shape_props; by rewrite Hcp, Z.eqb_refl).
  step. case_ltb; [unfold zlen in *; lia|]. step.
  assert (Z.of_nat (Z.to_nat ic) = ic) as Hic by lia.
  destruct (copy_index x (s_count sh) (Z.to_nat ic)) as (tab & used & Ei & Htok & Htlen & Hused & Hhas);
    [done|done|by rewrite Hic|lia|]. rewrite Hic in Ei. change (take _ (d_props_mem x)) with (view (s_count sh) x).
  step. apply wp_bind. eapply wp_upd_desc; [apply lookup_insert_eq|]. step. simpl.
  assert (zlen tab = ic) as Hz by (unfold zlen; lia).
  split; [done|]. split; [quiet|]. split; [simpl; lia|]. eexists. split; [simpl; by rewrite !insert_insert_eq|].
  rewrite <- Hz. apply fresh_copy_intro; try done; lia.
Qed.


(** ** Leaving a table *)

Definition unlinked (s : sid) (count : Z) (x : shape_descriptors_t) : shape_descriptors_t :=
  set_d_ref_count (d_ref_count x - 1)
    (set_owners (filter (λ o, o ≠ s) (owners x))
       (if count =? d_count x then set_tail_dirty true x else x)).

(** The tables after shape [s] has left table [x] at [d]. *)
Definition without (s : sid) (count : Z) (d : did) (x : shape_descriptors_t)
    (m : gmap did shape_descriptors_t) : gmap did shape_descriptors_t :=
  if decide (owners x = [s]) then delete d m else <[d := unlinked s count x]> m.

Lemma unlink_spec st s sh x (Q : unit → state → Prop) :
  let d := s_descriptors sh in
  shapes st !! s = Some sh → descs st !! d = Some x → s ∈ owners x → owners_ok x →
  (∀ b, Q tt (set_descs (without s (s_count sh) d x (descs st)) (set_g_shape_bytes b st))) →
  wp (shape_unlink_descriptors s) st Q.
Proof.
  intros d Hs Hd Ho (Hnd & Hz & Hrc) HQ. unfold shape_unlink_descriptors. do 2 step.
  change (s_descriptors sh) with d.
  assert (d_ref_count x = zlen (owners x)) as Er.
  { destruct Hrc as [?|[E _]]; [done|]. rewrite E in Ho. by apply not_elem_of_nil in Ho. }
  set (x1 := if s_count sh =? d_count x then set_tail_dirty true x else x).
  assert (owners x1 = owners x ∧ d_ref_count x1 = d_ref_count x) as [Eo1 Er1]
    by (unfold x1; by case_ltb).
  step. unfold shape_descriptors_release. apply wp_bind.
  eapply wp_get_desc; [simpl; apply lookup_insert_eq|].
  assert (0 < zlen (owners x)) as Hpos. { unfold zlen. destruct (owners x); [by apply not_elem_of_nil in Ho|simpl; lia]. }
  change (d_ref_count (set_owners _ x1)) with (d_ref_count x1).
  rewrite Er1, Er, u32_small by lia. step. rewrite Eo1.
  destruct (Z.eqb_spec (zlen (owners x) - 1) 0) as [E1|E1]; simpl.
  - assert (owners x = [s]) as E.
    { destruct (owners x) as [|a [|b l]]; unfold zlen in E1; simpl in E1; [lia| |lia].
      apply list_elem_of_singleton in Ho as ->. done. }
    unfold without in HQ. rewrite decide_True in HQ by done.
    assert (∀ y z b, Q tt (set_descs (delete d (<[d := y]> (<[d := z]> (descs st))))
      (set_g_shape_bytes b st))) as HQ'. { intros y z b. rewrite !delete_insert_eq. apply HQ. }
    step. apply wp_bind. case_ltb; do 2 step; apply HQ'.
  - unfold without in HQ. rewrite decide_False in HQ by (intros E; rewrite E in E1; done).
    step. simpl. rewrite insert_insert_eq.
    replace (set_d_ref_count _ _) with (unlinked s (s_count sh) x); [apply (HQ (g_shape_bytes st))|].
    unfold unlinked. by rewrite Er.
Qed.

Lemma link_spec st s sh d x (Q : unit → state → Prop) :
  shapes st !! s = Some sh → descs st !! d = Some x →
  Q tt (set_descs (<[d := set_owners (s :: owners x) x]> (descs st))
    (set_shapes (<[s := set_caches x (set_s_descriptors d sh)]> (shapes st)) st)) →
  wp (shape_link_descriptors s d) st Q.
Proof. intros Hs Hd HQ. unfold shape_link_descriptors. by do 3 step. Qed.

Lemma unlinked_ok s count x : desc_ok x → desc_ok (unlinked s count x).
Proof. intros Hok. unfold unlinked. by case_ltb. Qed.

Lemma unlinked_view s count x c : view c (unlinked s count x) = view c x.
Proof. unfold unlinked. by case_ltb. Qed.

Lemma unlinked_owners_ok s count x :
  owners_ok x → s ∈ owners x → owners x ≠ [s] → owners_ok (unlinked s count x).
Proof.
  intros (Hnd & Hz & Hrc) Ho Hne.
  assert (d_ref_count x = zlen (owners x)) as Er.
  { destruct Hrc as [?|[E _]]; [done|]. rewrite E in Ho. by apply not_elem_of_nil in Ho. }
  assert (length (filter (λ o, o ≠ s) (owners x)) = length (owners x) - 1)%nat as El.
  { clear Hz Hrc Er Hne. induction Hnd as [|a l Ha Hnd IH]; [by apply not_elem_of_nil in Ho|].
    rewrite filter_cons. case_decide as Ha'.
    - apply elem_of_cons in Ho as [->|Ho]; [done|]. simpl. rewrite IH by done.
      destruct l; [by apply not_elem_of_nil in Ho|simpl; lia].
    - subst a. simpl.
      replace (filter (λ o, o ≠ s) l) with l; [lia|].
      symmetry. apply filter_Forall_id, Forall_forall. intros b Hb ->. done. }
  split; [simpl; by apply NoDup_filter|]. simpl. unfold zlen in *. rewrite El. split; [lia|].
  left. rewrite Er. destruct (owners x); [by apply not_elem_of_nil in Ho|simpl; lia].
Qed.

Lemma elem_of_unlinked s count x o : o ∈ owners (unlinked s count x) ↔ o ∈ owners x ∧ o ≠ s.
Proof. simpl. rewrite list_elem_of_filter. tauto. Qed.

Lemma unlinked_fields s count x :
  d_count (unlinked s count x) = d_count x ∧ d_props (unlinked s count x) = d_props x ∧
  d_index (unlinked s count x) = d_index x ∧ d_index_mask (unlinked s count x) = d_index_mask x.
Proof. unfold unlinked. by case_ltb. Qed.

(** ** Shapes that leave and enter the store *)

Lemma without_lookup s count d x m d' y :
  without s count d x m !! d' = Some y →
  (d' ≠ d ∧ m !! d' = Some y) ∨ (d' = d ∧ owners x ≠ [s] ∧ y = unlinked s count x).
Proof.
  unfold without. case_decide.
  - rewrite lookup_delete_Some. intros [??]. by left.
  - rewrite lookup_insert_Some. intros [[-> ->]|[??]]; [by right|by left].
Qed.

(** Another shape finds its table as it was. *)
Lemma without_other st s sh x o sho count :
  links st → shapes st !! s = Some sh → descs st !! s_descriptors sh = Some x →
  o ≠ s → shapes st !! o = Some sho →
  ∃ y, without s count (s_descriptors sh) x (descs st) !! s_descriptors sho = Some y ∧ link_ok o sho y ∧
    Some (view (s_count sho) y) = slots st o.
Proof.
  intros L Hs Hd Hne Ho. destruct (links_shape st L o sho Ho) as (y & Hy & Hl).
  rewrite (slots_eq st o sho y Ho Hy).
  destruct (decide (s_descriptors sho = s_descriptors sh)) as [E|Hned].
  - rewrite E in *. rewrite Hd in Hy. injection Hy as <-. exists (unlinked s count x).
    pose proof (unlinked_fields s count x) as (E1 & E2 & E3 & E4).
    destruct Hl as (Hown & Hc & (C1 & C2 & C3) & Hdel). unfold without. rewrite decide_False.
    + rewrite lookup_insert_eq, unlinked_view. split; [done|]. split; [|done]. unfold link_ok, caches.
      rewrite elem_of_unlinked, E1, E2, E3, E4, unlinked_view. done.
    + intros Eo. rewrite Eo in Hown. by apply list_elem_of_singleton in Hown.
  - exists y. split; [|done]. unfold without.
    case_decide; [by rewrite lookup_delete_ne|by rewrite lookup_insert_ne].
Qed.

Lemma links_removed st st' s sh x :
  links st → shapes st !! s = Some sh → descs st !! s_descriptors sh = Some x →
  shapes st' = delete s (shapes st) → descs st' = without s (s_count sh) (s_descriptors sh) x (descs st) →
  (clock st <= clock st')%nat →
  links st' ∧ ∀ o, o ≠ s → slots st' o = slots st o.
Proof.
  intros L Hs Hd Hsh Hde Hcl.
  destruct (links_shape st L s sh Hs) as (x' & E & Hso & _). rewrite Hd in E. injection E as <-.
  split; [split|].
  - intros o sho. rewrite Hsh, lookup_delete_Some, Hde. intros [Hne Ho].
    destruct (without_other st s sh x o sho (s_count sh)) as (y & ? & ? & _); eauto.
  - intros d' y. rewrite Hde. intros [[_ Hy]|(-> & Hne & ->)]%without_lookup; [by eapply links_desc|].
    destruct (links_desc st L _ x Hd). split; [by apply unlinked_ok|by apply unlinked_owners_ok].
  - intros d' y o. rewrite Hde, Hsh. intros [[Hned Hy]|(-> & Hne & ->)]%without_lookup Ho.
    + destruct (links_owner st L d' y o Hy Ho) as (sho & Eo & <-). exists sho.
      rewrite lookup_delete_ne; [done|]. intros <-. rewrite Hs in Eo. by injection Eo as <-.
    + apply elem_of_unlinked in Ho as [Ho Hos]. rewrite lookup_delete_ne by done.
      by apply (links_owner st L (s_descriptors sh) x).
  - intros o sho. rewrite Hsh, lookup_delete_Some. intros [_ Ho].
    pose proof (links_young_shape st L o sho Ho). lia.
  - intros d' y. rewrite Hde. intros [[_ Hy]|(-> & _)]%without_lookup;
      [pose proof (links_young_desc st L d' y Hy)|pose proof (links_young_desc st L _ x Hd)]; lia.
  - intros o Hne. unfold slots at 1. rewrite Hsh, lookup_delete_ne, Hde by done.
    destruct (shapes st !! o) as [sho|] eqn:Ho; simpl; [|unfold slots; by rewrite Ho].
    destruct (without_other st s sh x o sho (s_count sh)) as (y & -> & _ & <-); done.
Qed.

(** A shape with a table of its own. *)
Lemma links_added st st' n sh c y :
  links st → shapes st !! n = None → descs st !! c = None →
  (n <= clock st')%nat → (c <= clock st')%nat → (clock st <= clock st')%nat →
  s_descriptors sh = c → owners y = [n] → d_ref_count y = 1 → desc_ok y → link_ok n sh y →
  shapes st' = <[n := sh]> (shapes st) → descs st' = <[c := y]> (descs st) →
  links st' ∧ slots st' n = Some (view (s_count sh) y) ∧ ∀ o, o ≠ n → slots st' o = slots st o.
Proof.
  intros L Hn Hc Hnc Hcc Hcl Hsd Hown Hrc Hok Hl Hsh Hde.
  assert (∀ d x, descs st !! d = Some x → descs st' !! d = Some x) as Hkeep.
  { intros d x Hx. rewrite Hde, lookup_insert_ne; [done|]. intros <-. congruence. }
  assert (descs st' !! c = Some y) as Hcy by (rewrite Hde; apply lookup_insert_eq).
  assert (shapes st' !! n = Some sh) as Hns by (rewrite Hsh; apply lookup_insert_eq).
  split; [split|split].
  - intros o sho. rewrite Hsh, lookup_insert_Some. intros [[<- <-]|[_ Ho]].
    + exists y. by rewrite Hsd.
    + destruct (links_shape st L o sho Ho) as (x & Hx & ?). exists x. by split; [apply Hkeep|].
  - intros d x. rewrite Hde, lookup_insert_Some. intros [[<- <-]|[_ Hx]]; [|by eapply links_desc].
    split; [done|]. unfold owners_ok. rewrite Hown, Hrc. split; [apply NoDup_singleton|]. split; [done|]. by left.
  - intros d x o. rewrite Hde, lookup_insert_Some. intros [[<- <-]|[_ Hx]] Ho.
    + rewrite Hown in Ho. apply list_elem_of_singleton in Ho as ->. by exists sh.
    + destruct (links_owner st L d x o Hx Ho) as (sho & Eo & ?). exists sho. split; [|done].
      rewrite Hsh, lookup_insert_ne; [done|]. intros <-. congruence.
  - intros o sho. rewrite Hsh, lookup_insert_Some. intros [[<- _]|[_ Ho]]; [done|].
    pose proof (links_young_shape st L o sho Ho). lia.
  - intros d x. rewrite Hde, lookup_insert_Some. intros [[<- _]|[_ Hx]]; [done|].
    pose proof (links_young_desc st L d x Hx). lia.
  - eapply slots_eq; [done|]. by rewrite Hsd.
  - intros o Hne. apply slots_local; [rewrite Hsh, lookup_insert_ne by done; done|].
    intros sho Ho. destruct (links_shape st L o sho Ho) as (x & Hx & _).
    by rewrite (Hkeep _ _ Hx), Hx.
Qed.

(** A shape that joins the table of another. *)
Lemma links_shared st st' n sh d x :
  let x' := set_owners (n :: owners x) (set_d_ref_count (d_ref_count x + 1) x) in
  links st → shapes st !! n = None → descs st !! d = Some x →
  d_ref_count x = zlen (owners x) → zlen (owners x) < 2 ^ 32 - 1 →
  (n <= clock st')%nat → (clock st <= clock st')%nat →
  s_descriptors sh = d → 0 <= s_count sh <= d_count x → caches sh x →
  s_deleted_count sh = Z.of_nat (deleted (view (s_count sh) x)) →
  shapes st' = <[n := sh]> (shapes st) → descs st' = <[d := x']> (descs st) →
  links st' ∧ slots st' n = Some (view (s_count sh) x) ∧ ∀ o, o ≠ n → slots st' o = slots st o.
Proof.
  intros x' L Hn Hd Hrc Hroom Hnc Hcl Hsd Hcnt Hca Hdel Hsh Hde.
  assert (n ∉ owners x) as Hno.
  { intros Hin. destruct (links_owner st L d x n Hd Hin) as (? & ? & _). congruence. }
  assert (∀ e y, descs st !! e = Some y → ∃ y', descs st' !! e = Some y' ∧
    (∀ o sho, link_ok o sho y → link_ok o sho y') ∧ ∀ c, view c y' = view c y) as Hkeep.
  { intros e y Hy. rewrite Hde. destruct (decide (e = d)) as [->|Hne].
    - rewrite Hd in Hy. injection Hy as <-. exists x'. rewrite lookup_insert_eq. split; [done|].
      split; [|done]. intros o sho (? & ? & ? & ?). split; [by right|done].
    - exists y. by rewrite lookup_insert_ne. }
  assert (shapes st' !! n = Some sh) as Hns by (rewrite Hsh; apply lookup_insert_eq).
  assert (descs st' !! d = Some x') as Hdx by (rewrite Hde; apply lookup_insert_eq).
  split; [split|split].
  - intros o sho. rewrite Hsh, lookup_insert_Some. intros [[<- <-]|[_ Ho]].
    + exists x'. rewrite Hsd. split; [done|]. split; [left|done].
    + destruct (links_shape st L o sho Ho) as (y & Hy & Hl).
      destruct (Hkeep _ _ Hy) as (y' & ? & Hl' & _). exists y'. by split; [|apply Hl'].
  - intros e y. rewrite Hde, lookup_insert_Some. intros [[<- <-]|[_ Hy]]; [|by eapply links_desc].
    destruct (links_desc st L d x Hd) as [Hok (Hnd & _ & _)]. split; [done|].
    split; [by constructor|]. unfold zlen in *. simpl. split; [lia|]. left. lia.
  - intros e y o. rewrite Hde, Hsh, lookup_insert_Some.
    intros [[<- <-]|[Hned Hy]] Ho.
    + simpl in Ho. apply elem_of_cons in Ho as [->|Ho]; [exists sh; by rewrite lookup_insert_eq|].
      rewrite lookup_insert_ne by (by intros ->). by apply (links_owner st L d x).
    + destruct (links_owner st L e y o Hy Ho) as (sho & Eo & ?). exists sho. split; [|done].
      rewrite lookup_insert_ne; [done|]. intros <-. congruence.
  - intros o sho. rewrite Hsh, lookup_insert_Some. intros [[<- _]|[_ Ho]]; [done|].
    pose proof (links_young_shape st L o sho Ho). lia.
  - intros e y. rewrite Hde, lookup_insert_Some.
    intros [[<- _]|[_ Hy]]; [pose proof (links_young_desc st L d x Hd)
      |pose proof (links_young_desc st L e y Hy)]; lia.
  - replace (view (s_count sh) x) with (view (s_count sh) x') by done.
    eapply slots_eq; [done|]. by rewrite Hsd.
  - intros o Hne. apply slots_local; [rewrite Hsh, lookup_insert_ne by done; done|].
    intros sho Ho. destruct (links_shape st L o sho Ho) as (y & Hy & _).
    destruct (Hkeep _ _ Hy) as (y' & -> & _ & Hv). rewrite Hy. simpl. by rewrite Hv.
Qed.

(** ** Changes that tables do not see *)

(** The fields of a shape that have to do with its table. *)
Definition link_of (sh : ant_shape_t) :=
  (s_count sh, s_deleted_count sh, s_descriptors sh, s_props sh, s_index sh, s_index_mask sh).

Lemma links_frame st st' :
  links st → (∀ s, link_of <$> shapes st' !! s = link_of <$> shapes st !! s) →
  descs st' = descs st → (clock st <= clock st')%nat →
  links st' ∧ ∀ s, slots st' s = slots st s.
Proof.
  intros L Hsh Hde Hcl.
  assert (∀ s sh', shapes st' !! s = Some sh' →
    ∃ sh, shapes st !! s = Some sh ∧ link_of sh' = link_of sh) as Hback.
  { intros s sh' E. specialize (Hsh s). rewrite E in Hsh.
    destruct (shapes st !! s) as [sh|]; [|done]. exists sh. split; [done|]. by apply (inj Some) in Hsh. }
  split; [split|].
  - intros s sh' E. destruct (Hback s sh' E) as (sh & Es & El). injection El as E1 E2 E3 E4 E5 E6.
    destruct (links_shape st L s sh Es) as (x & Hx & Hl). exists x. rewrite Hde, E3.
    split; [done|]. unfold link_ok, caches in *. by rewrite E1, E2, E4, E5, E6.
  - intros d x. rewrite Hde. apply (links_desc st L).
  - intros d x o. rewrite Hde. intros Hx Ho. destruct (links_owner st L d x o Hx Ho) as (sh & Es & Ed).
    specialize (Hsh o). rewrite Es in Hsh. destruct (shapes st' !! o) as [sh'|]; [|done].
    exists sh'. split; [done|]. injection Hsh as _ _ E _ _ _. congruence.
  - intros s sh' E. destruct (Hback s sh' E) as (sh & Es & _).
    pose proof (links_young_shape st L s sh Es). lia.
  - intros d x. rewrite Hde. intros Hx. pose proof (links_young_desc st L d x Hx). lia.
  - intros s. apply slots_local; [|by rewrite Hde]. specialize (Hsh s).
    destruct (shapes st' !! s), (shapes st !! s); simpl in *; try done.
    injection Hsh as E1 _ E3 _ _ _. by rewrite E1, E3.
Qed.

(** The shape at [s] has its table for itself. *)
Definition sole (st : state) (s : sid) (sh : ant_shape_t) (x : shape_descriptors_t) : Prop :=
  shapes st !! s = Some sh ∧ descs st !! s_descriptors sh = Some x ∧
  owners x = [s] ∧ d_count x = s_count sh.

(** ** Detaching *)

Lemma fresh_link s sh c extra x y :
  link_ok s sh x → d_count x <= zlen (d_props_mem x) → fresh_copy (s_count sh) extra x y →
  link_ok s (set_caches y (set_s_descriptors c sh)) (set_owners [s] y) ∧
  view (s_count sh) y = view (s_count sh) x.
Proof.
  intros (_ & Hc & _ & Hdel) Hlen [Hok _ _ Hcnt Hmem _].
  assert (view (s_count sh) y = view (s_count sh) x) as Hv.
  { unfold view at 1. rewrite Hmem. apply take_ge.
    pose proof (length_view (s_count sh) x ltac:(lia)). unfold zlen in *. lia. }
  split; [|done]. split; [left|]. split; [simpl; lia|]. split; [done|]. simpl.
  change (view (s_count sh) (set_owners [s] y)) with (view (s_count sh) y). by rewrite Hv.
Qed.

Lemma without_insert s count d x c y m :
  c ≠ d → without s count d x (<[c := y]> m) = <[c := y]> (without s count d x m).
Proof.
  intros Hne. unfold without. case_decide; [by rewrite delete_insert_ne|].
  by rewrite insert_insert_ne.
Qed.

Lemma detach_spec st s sh extra :
  links st → shapes st !! s = Some sh → 0 <= extra < 2 ^ 28 →
  wp (shape_detach_descriptors s extra) st (λ ok st',
    links st' ∧ stable st st' ∧ (ok = false → refused) ∧
    (ok = true → ∃ sh' x', sole st' s sh' x' ∧ s_count sh' = s_count sh ∧
       s_jit_invalid sh' = s_jit_invalid sh)).
Proof.
  intros L Hs He. destruct (links_shape st L s sh Hs) as (x & Hx & Hl).
  pose proof (links_desc st L _ x Hx) as [Hok Hown]. unfold shape_detach_descriptors.
  eapply wp_call; [by eapply copy_prefix_spec|]. intros [c|] st1 (Hsh1 & Hq1 & Hde1); simpl.
  - destruct Hde1 as (Hc & y & Hde1 & Hcopy). pose proof (links_fresh_desc st c L ltac:(lia)) as HcN.
    assert (c ≠ s_descriptors sh) as Hne by (intros ->; congruence).
    assert (link_ok s (set_caches y (set_s_descriptors c sh)) (set_owners [s] y) ∧
      view (s_count sh) y = view (s_count sh) x) as [Hl' Hv].
    { eapply fresh_link; [exact Hl| |done]. destruct Hok as [? _]. lia. }
    apply wp_bind. eapply unlink_spec; [by rewrite Hsh1|rewrite Hde1, lookup_insert_ne; done|apply Hl|done|].
    intros b. apply wp_bind. eapply link_spec;
      [simpl; by rewrite Hsh1|simpl; rewrite Hde1, without_insert by done; apply lookup_insert_eq|].
    rewrite (copy_owners _ _ _ _ Hcopy).
    step. set (st' := set_descs _ _).
    assert (shapes st' = <[s := set_caches y (set_s_descriptors c sh)]> (delete s (shapes st))) as Es.
    { simpl. by rewrite Hsh1, insert_delete_eq. }
    assert (descs st' = <[c := set_owners [s] y]>
      (without s (s_count sh) (s_descriptors sh) x (descs st))) as Ed.
    { simpl. by rewrite Hde1, without_insert, insert_insert_eq by done. }
    set (st2 := set_descs (without s (s_count sh) (s_descriptors sh) x (descs st))
      (set_shapes (delete s (shapes st)) st)).
    destruct (links_removed st st2 s sh x) as [L2 Hsl2]; try done.
    pose proof (proj2 (proj2 Hq1)) as Hcl.
    destruct (links_added st2 st' s (set_caches y (set_s_descriptors c sh)) c (set_owners [s] y))
      as (L' & Hsl & Hsl'); try done; simpl; try lia.
    + apply lookup_delete_eq.
    + unfold without. case_decide; [by rewrite lookup_delete_ne|by rewrite lookup_insert_ne].
    + pose proof (links_young_shape st L s sh Hs). lia.
    + apply Hcopy.
    + apply (copy_ok _ _ _ _ Hcopy).
    + split; [done|]. split; [split; [split; [done|]|]|split; [done|]].
      * intros o. rewrite Es. destruct (decide (o = s)) as [->|Hos].
        { by rewrite lookup_insert_eq, Hs. }
        by rewrite lookup_insert_ne, lookup_delete_ne.
      * intros o. destruct (decide (o = s)) as [->|Hos]; [|by rewrite Hsl', Hsl2].
        rewrite Hsl, (slots_eq st s sh x) by done. by rewrite <- Hv.
      * intros _. exists (set_caches y (set_s_descriptors c sh)), (set_owners [s] y).
        split; [|done]. split; [rewrite Es; apply lookup_insert_eq|].
        split; [rewrite Ed; apply lookup_insert_eq|]. split; [done|]. apply Hcopy.
  - destruct Hde1 as [Hde1 Href]. step.
    destruct (links_frame st st1) as [L1 Hsl1]; [done|by rewrite Hsh1|done|apply Hq1|].
    split; [done|]. split; [|done]. split; [|done]. split; [done|]. by rewrite Hsh1.
Qed.

(** A table that counts one owner has the shape as the only one. *)
Lemma sole_owner s x : owners_ok x → s ∈ owners x → d_ref_count x = 1 → owners x = [s].
Proof.
  intros (_ & _ & [Hr|[E _]]) Ho Hone; [|rewrite E in Ho; by apply not_elem_of_nil in Ho].
  rewrite Hone in Hr. destruct (owners x) as [|a [|b l]]; unfold zlen in Hr; simpl in Hr; [lia| |lia].
  by apply list_elem_of_singleton in Ho as ->.
Qed.

Lemma prepare_append_spec st s sh :
  links st → shapes st !! s = Some sh →
  wp (shape_prepare_append s) st (λ ok st',
    links st' ∧ stable st st' ∧ (ok = false → refused) ∧
    (ok = true → ∃ sh' x', shapes st' !! s = Some sh' ∧ descs st' !! s_descriptors sh' = Some x' ∧
       s_count sh' = s_count sh ∧ d_count x' = s_count sh')).
Proof.
  intros L Hs. destruct (links_shape st L s sh Hs) as (x & Hx & Hl).
  unfold shape_prepare_append. step.
  eapply wp_call; [by eapply reclaim_spec|]. intros _ st1 (L1 & Hst & Hsh1 & x1 & Hde1 & _).
  assert (descs st1 !! s_descriptors sh = Some x1) as Hx1 by (rewrite Hde1; apply lookup_insert_eq).
  step. destruct (Z.eqb_spec (d_count x1) (s_count sh)) as [E|E].
  - step. split; [done|]. split; [done|]. split; [done|]. intros _. exists sh, x1. by rewrite Hsh1.
  - eapply wp_mono; [apply (detach_spec st1 s sh 1); [done|by rewrite Hsh1|lia]|].
    intros ok st2 (L2 & Hst2 & Href & Hok). split; [done|]. split; [by etrans|]. split; [done|]. intros ->.
    destruct Hok as (sh' & x' & (? & ? & ? & ?) & ? & ?); [done|]. by exists sh', x'.
Qed.

Lemma prepare_metadata_spec st s sh :
  links st → shapes st !! s = Some sh →
  wp (shape_prepare_metadata_write s) st (λ ok st',
    links st' ∧ stable st st' ∧ (ok = false → refused) ∧
    (ok = true → ∃ sh' x', sole st' s sh' x' ∧ s_count sh' = s_count sh ∧ s_jit_invalid sh' = 1)).
Proof.
  intros L Hs. unfold shape_prepare_metadata_write. step.
  set (st0 := set_shapes _ st). set (sh0 := set_s_jit_invalid 1 sh).
  assert (shapes st0 !! s = Some sh0) as Hs0 by apply lookup_insert_eq.
  assert (∀ o, link_of <$> shapes st0 !! o = link_of <$> shapes st !! o) as Hlk.
  { intros o. simpl. destruct (decide (s = o)) as [<-|?]; [by rewrite lookup_insert_eq, Hs|].
    by rewrite lookup_insert_ne. }
  destruct (links_frame st st0) as [L0 Hsl0]; [done|done|done|done|].
  assert (stable st st0) as Hst0.
  { split; [|done]. split; [done|]. intros o. simpl. destruct (decide (s = o)) as [<-|?];
      [by rewrite lookup_insert_eq, Hs|by rewrite lookup_insert_ne]. }
  destruct (links_shape st0 L0 s sh0 Hs0) as (x & Hx & Hl). step.
  eapply wp_call; [by eapply reclaim_spec|]. intros _ st1 (L1 & Hst & Hsh1 & x1 & Hde1 & Ho1 & Hr1 & _).
  assert (descs st1 !! s_descriptors sh0 = Some x1) as Hx1 by (rewrite Hde1; apply lookup_insert_eq).
  step. destruct (Z.eqb_spec (d_count x1) (s_count sh0)) as [E|E]; simpl;
    [destruct (Z.eqb_spec (d_ref_count x1) 1) as [E'|E']|].
  1: { step. split; [done|]. split; [by etrans|]. split; [done|]. intros _. exists sh0, x1. split; [|done].
    split; [by rewrite Hsh1|]. split; [done|]. split; [|done].
    apply sole_owner; [by eapply links_desc|rewrite Ho1; apply Hl|done]. }
  all: eapply wp_mono; [apply (detach_spec st1 s sh0 0); [done|by rewrite Hsh1|lia]|];
    intros ok st2 (L2 & Hst2 & Href & Hok); (split; [done|]); (split; [by do 2 etrans|]);
    (split; [done|]); intros ->;
    destruct Hok as (sh' & x' & ? & ? & Hj); [done|]; exists sh', x'; split_and!; done.
Qed.

(** ** New shapes *)

(** Shape [n] is new in [st'], without children or parent, and has the slots of [s] in [st]. *)
Record copy_of (st : state) (s n : sid) (st' : state) : Prop := mk_copy_of {
  copy_links : links st';
  copy_fresh : (clock st < n)%nat;
  copy_quiet : quiet st st';
  copy_shapes : ∃ shn, shapes st' = <[n := shn]> (shapes st) ∧ s_ref_count shn = 1 ∧
    s_first_child shn = None ∧ s_children shn = [] ∧ s_parent shn = None;
  copy_slots : slots st' n = slots st s;
  copy_others o : o ≠ n → slots st' o = slots st o
}.

Lemma clone_reserve_spec st s sh extra :
  links st → shapes st !! s = Some sh → 0 <= extra < 2 ^ 28 →
  wp (shape_clone_reserve (Some s) extra) st (λ r st',
    match r with
    | None => links st' ∧ stable st st' ∧ refused
    | Some n => copy_of st s n st'
    end).
Proof.
  intros L Hs He. destruct (links_shape st L s sh Hs) as (x & Hx & Hl).
  pose proof (links_desc st L _ x Hx) as [Hok Hown]. unfold shape_clone_reserve.
  assert (∀ st1, quiet st st1 → shapes st1 = shapes st → descs st1 = descs st →
    links st1 ∧ stable st st1) as Hsame.
  { intros st1 Hq Es Ed. destruct (links_frame st st1) as [L1 Hsl1]; [done|by rewrite Es|done|apply Hq|].
    split; [done|]. split; [|done]. split; [done|]. by rewrite Es. }
  apply wp_bind, wp_alloc.
  { intros Hg. step. rewrite assoc by apply _. split; [apply Hsame; try done; quiet|by do 2 eexists]. }
  intros _.
  set (st0 := set_clock _ st). destruct (Hsame st0) as [L0 Hst0]; [quiet|done|done|].
  eapply wp_call; [by apply (copy_prefix_spec st0 s sh x)|].
  intros [c|] st1 (Hsh1 & Hq1 & Hde1); simpl.
  2: { destruct Hde1 as [Hde1 Href]. step. rewrite assoc by apply _. split; [|done].
    apply Hsame; [|done|done]. etrans; [|done]. quiet. }
  destruct Hde1 as (Hc & y & Hde1 & Hcopy). pose proof (links_fresh_desc st0 c L0 ltac:(lia)) as HcN.
  pose proof (links_fresh_shape st (S (clock st)) L ltac:(lia)) as HnN.
  apply wp_bind. eapply wp_get_shape; [rewrite Hsh1; exact Hs|]. step. apply wp_bind.
  eapply link_spec; [simpl; apply lookup_insert_eq|simpl; rewrite Hde1; apply lookup_insert_eq|].
  rewrite (copy_owners _ _ _ _ Hcopy). do 2 step. set (st' := set_g_shape_bytes _ _).
  set (n := S (clock st)) in *. set (shn := new_shape _ _ _ _) in *.
  assert (link_ok n (set_caches y (set_s_descriptors c shn)) (set_owners [n] y)
    ∧ view (s_count sh) y = view (s_count sh) x) as [Hl' Hv].
  { destruct (fresh_link s sh c extra x y Hl) as [(_ & Hc' & Hca & Hdel) Hv]; [|done|].
    { destruct Hok as [? _]. lia. }
    split; [|done]. split; [left|]. split; [done|]. split; [done|]. done. }
  pose proof (proj2 (proj2 Hq1)) as Hcl. simpl in Hcl.
  destruct (links_added st0 st' n (set_caches y (set_s_descriptors c shn)) c (set_owners [n] y))
    as (L' & Hsl & Hsl'); try done; simpl; try lia.
  - apply Hcopy.
  - apply (copy_ok _ _ _ _ Hcopy).
  - by rewrite Hsh1, insert_insert_eq.
  - by rewrite Hde1, insert_insert_eq.
  - split; [done|lia| | | |].
    + etrans; [|etrans; [exact Hq1|quiet]]. quiet.
    + eexists. split; [simpl; by rewrite Hsh1, insert_insert_eq|done].
    + rewrite Hsl, (slots_eq st s sh x) by done. by rewrite <- Hv.
    + intros o Ho. by rewrite Hsl' by done.
Qed.

(** Fewer than 2^32 - 1 shapes are alive. *)
Definition uncrowded (st : state) : Prop := Z.of_nat (size (shapes st)) < 2 ^ 32 - 1.

Lemma owners_few st d x : links st → descs st !! d = Some x → (length (owners x) <= size (shapes st))%nat.
Proof.
  intros L Hd. destruct (links_desc st L d x Hd) as [_ (Hnd & _ & _)].
  rewrite <- size_dom, <- (size_list_to_set (C := gset nat)) by done.
  apply subseteq_size. intros o Ho. apply elem_of_list_to_set in Ho.
  destruct (links_owner st L d x o Hd Ho) as (sh & E & _). apply elem_of_dom. by exists sh.
Qed.

Lemma copy_for_transition_spec st s sh :
  links st → uncrowded st → shapes st !! s = Some sh →
  wp (shape_copy_for_transition s) st (λ r st',
    match r with
    | None => links st' ∧ stable st st' ∧ refused
    | Some n => copy_of st s n st'
    end).
Proof.
  intros L Hun Hs. destruct (links_shape st L s sh Hs) as (x & Hx & Hl).
  unfold shape_copy_for_transition. step. eapply wp_call; [by eapply reclaim_spec|].
  intros _ st1 (L1 & [[Hq1 Htr1] Hsl1] & Hsh1 & x1 & Hde1 & Ho1 & Hr1 & _).
  assert (descs st1 !! s_descriptors sh = Some x1) as Hx1 by (rewrite Hde1; apply lookup_insert_eq).
  assert (shapes st1 !! s = Some sh) as Hs1 by (by rewrite Hsh1).
  assert (link_ok s sh x1) as Hl1.
  { destruct (links_shape st1 L1 s sh Hs1) as (x' & E & ?). congruence. }
  step. destruct (_ || _ || _) eqn:Hcond.
  { eapply wp_mono; [by apply (clone_reserve_spec st1 s sh 1)|]. intros [n|] st2.
    - intros [L2 Hf2 Hq2 Hsh2 Hsl2 Hoth2]. pose proof (proj2 (proj2 Hq1)).
      split; [done|lia|by etrans|by rewrite <- Hsh1|by rewrite Hsl2|]. intros o Ho. by rewrite Hoth2.
    - intros (L2 & [Hq2 Hsl2] & Href). split; [done|]. split; [|done].
      split; [etrans; [|exact Hq2]; by split|]. intros o. by rewrite Hsl2. }
  apply orb_false_iff in Hcond as [[Hz Hdel]%orb_false_iff Hcnt].
  apply negb_false_iff, Z.eqb_eq in Hdel, Hcnt.
  apply wp_bind, wp_alloc.
  { intros Hg. step. destruct (links_frame st1 (set_clock (S (clock st1)) st1)) as [L2 Hsl2]; [done|done|done|simpl; lia|].
    split; [done|]. split; [|by do 2 eexists]. split; [|intros o; by rewrite Hsl2].
    split; [etrans; [exact Hq1|quiet]|]. intros o. apply Htr1. }
  intros _. do 2 step. apply wp_bind. eapply wp_upd_desc; [exact Hx1|].
  set (n := S (clock st1)).
  assert (d_ref_count x1 = zlen (owners x1)) as Er.
  { destruct (links_desc st1 L1 _ x1 Hx1) as [_ (_ & _ & [?|[E _]])]; [done|].
    destruct Hl1 as [Hin _]. rewrite E in Hin. by apply not_elem_of_nil in Hin. }
  pose proof (owners_few st1 _ x1 L1 Hx1) as Hfew. unfold uncrowded in Hun. rewrite Hsh1 in Hfew.
  rewrite u32_small by (unfold zlen in *; lia). apply wp_bind.
  eapply link_spec; [simpl; apply lookup_insert_eq|simpl; apply lookup_insert_eq|]. step.
  set (st' := set_descs _ _). set (shn := set_caches _ _) in st'.
  pose proof (links_fresh_shape st1 n L1 ltac:(unfold n; lia)) as HnN.
  destruct Hl1 as (_ & Hc1 & Hca1 & Hd1).
  destruct (links_shared st1 st' n shn (s_descriptors sh) x1) as (L' & Hsl & Hsl');
    try done; simpl; try (unfold zlen in *; lia).
  - by rewrite insert_insert_eq.
  - by rewrite insert_insert_eq.
  - pose proof (proj2 (proj2 Hq1)). split; [done|unfold n; lia| | | |].
    + etrans; [exact Hq1|quiet].
    + exists shn. rewrite <- Hsh1. split; [simpl; by rewrite insert_insert_eq|done].
    + rewrite Hsl, <- (Hsl1 s), (slots_eq st1 s sh x1) by done. done.
    + intros o Ho. by rewrite Hsl'.
Qed.

(** The first shape of an in-object limit. *)
Lemma links_root st st' n shn c y :
  links st → (clock st < n < c)%nat → (c <= clock st')%nat →
  y = mk_desc 1 0 false false 0 0 0 0 [] 0 [] [n] →
  shn = set_caches y (set_s_descriptors c (new_shape 0 0 (s_inobj_limit shn) false)) →
  shapes st' = <[n := shn]> (shapes st) → descs st' = <[c := y]> (descs st) →
  links st' ∧ slots st' n = Some [] ∧ ∀ o, o ≠ n → slots st' o = slots st o.
Proof.
  intros L Hn Hc -> Eshn Hsh Hde. set (y := mk_desc _ _ _ _ _ _ _ _ _ _ _ _) in *.
  destruct (links_added st st' n shn c y) as (L' & Hsl & Hsl'); try done; try lia.
  - apply links_fresh_shape; [done|lia].
  - apply links_fresh_desc; [done|lia].
  - by rewrite Eshn.
  - split; [done|]. split; [done|]. split; [by left|]. split; [|constructor].
    intros k s Hk. split; [by intros Hx%not_elem_of_nil|]. intros (i & p & _ & Hi & _). simpl in Hi. lia.
  - rewrite Eshn. split; [left|]. done.
  - split; [done|]. rewrite Hsl. split; [|done]. f_equal. apply take_nil.
Qed.

End Copying.
