(* ===== verification/ShapeProps.v ===== *)
(** * Properties of a shape: looking up, adding, changing, removing, compacting

    What each operation of src/src/shapes.c that works on one shape does to its [slots], and
    that no other shape sees it.  [live] is the list of properties in insertion order, the
    order in which JavaScript enumerates them. *)

From stdpp Require Import gmap.
From S2P Require Import Prelude ShapeIndex ShapeModel ShapeLinks ShapeCopy.

(** ** The abstract operations on slots *)

Definition named (type : ant_shape_key_type_t) (key : Z) (p : ant_shape_prop_t) : Prop :=
  p_type p = type ∧ p_key p = key.

#[global] Instance named_dec type key p : Decision (named type key p).
Proof. unfold named. apply _. Defined.

Definition find_name (type : ant_shape_key_type_t) (key : Z) (l : list ant_shape_prop_t)
    : option nat :=
  fst <$> list_find (named type key) l.

Definition add_prop (type : ant_shape_key_type_t) (key attrs : Z) (l : list ant_shape_prop_t)
    : list ant_shape_prop_t :=
  match find_name type key l with
  | Some i => alter (set_attrs attrs) i l
  | None => l ++ [mk_prop type key attrs 0 0 0 0]
  end.

(** The slots without the deleted ones at the end. *)
Fixpoint trim (l : list ant_shape_prop_t) : list ant_shape_prop_t :=
  match l with
  | [] => []
  | p :: l =>
      match trim l with
      | [] => if decide (live_prop p) then [p] else []
      | l' => p :: l'
      end
  end.

Definition remove_prop (i : nat) (l : list ant_shape_prop_t) : list ant_shape_prop_t :=
  trim (<[i := deleted_prop]> l).

(** The properties in the order of their insertion. *)
Definition live (l : list ant_shape_prop_t) : list ant_shape_prop_t := filter live_prop l.

(** Slots as [links] guarantees them: good names, no name twice. *)
Definition slots_ok (l : list ant_shape_prop_t) : Prop := Forall prop_ok l ∧ keys_differ l.

Lemma find_name_Some type key l i :
  slots_ok l → name_ok type key →
  find_name type key l = Some i ↔ ∃ p, l !! i = Some p ∧ named type key p.
Proof.
  intros [Hok Hdiff] Hn. unfold find_name. rewrite fmap_Some. split.
  - intros ([j p] & (Hj & Hp & _)%list_find_Some & ->). simpl. by exists p.
  - intros (p & Hp & Hnp). destruct (list_find (named type key) l) as [[j q]|] eqn:E.
    + exists (j, q). split; [done|]. apply list_find_Some in E as (Hj & Hq & _). simpl.
      apply (Hdiff i j p q); try done; unfold live_prop, prop_key.
      * destruct Hnp as [-> _]. by destruct type.
      * destruct Hq as [-> _]. by destruct type.
      * destruct Hnp as [-> ->], Hq as [-> ->]. done.
    + apply list_find_None in E. rewrite Forall_lookup in E. by destruct (E i p).
Qed.

Lemma find_name_None type key l i p :
  find_name type key l = None → l !! i = Some p → ¬ named type key p.
Proof.
  unfold find_name. rewrite fmap_None, list_find_None, Forall_lookup. intros H. apply H.
Qed.

Lemma slots_view_ok st s sh x :
  links st → shapes st !! s = Some sh → descs st !! s_descriptors sh = Some x →
  slots_ok (view (s_count sh) x).
Proof.
  intros L Hs Hx. destruct (links_desc st L _ x Hx) as [Hok _].
  destruct (links_shape st L s sh Hs) as (x' & E & _ & Hc & _). rewrite Hx in E. injection E as <-.
  pose proof (desc_ok_differ x Hok) as Hdiff. destruct Hok as (_ & _ & _ & _ & Hp).
  rewrite (view_take_le (s_count sh) (d_count x)) by lia.
  split; [by apply Forall_take|]. intros i j p q Hp' Hq'.
  apply lookup_take_Some in Hp' as [Hp' _]. apply lookup_take_Some in Hq' as [Hq' _]. by apply Hdiff.
Qed.

(** A live property with the key of a name has the name. *)
Lemma prop_key_named type key p :
  name_ok type key → prop_ok p → live_prop p → prop_key p = shape_key type key → named type key p.
Proof. intros Hn Hp Hl E. apply shape_key_inj in E; [done|by apply Hp|done]. Qed.

(** ** Looking up *)

Lemma lookup_spec st s sh x l type key :
  links st → shapes st !! s = Some sh → descs st !! s_descriptors sh = Some x →
  slots st s = Some l → name_ok type key →
  wp (shape_lookup (Some s) (shape_key type key)) st (λ r st', st' = st ∧
    match r with
    | Some (p, slot) => ∃ i, slot = Z.of_nat i ∧ find_name type key l = Some i ∧
        d_index_mem x !! p = Some (mk_entry (shape_key type key) slot)
    | None => find_name type key l = None
    end).
Proof.
  intros L Hs Hx Hl Hn. rewrite (slots_eq st s sh x Hs Hx) in Hl. injection Hl as <-.
  pose proof (slots_view_ok st s sh x L Hs Hx) as Hso.
  destruct (links_shape st L s sh Hs) as (x' & E & _ & Hc & (C1 & C2 & C3) & _).
  rewrite Hx in E. injection E as <-.
  destruct (links_desc st L _ x Hx) as [(Hcnt & Hcap & Hidx & Hhas & Hprops) _].
  pose proof (shape_key_live _ _ Hn) as Hk.
  assert (∀ i, find_name type key (view (s_count sh) x) = Some i →
    has (d_index_mem x) (shape_key type key) (Z.of_nat i) ∧ Z.of_nat i < s_count sh) as Hfind.
  { intros i Hf. apply find_name_Some in Hf as (p & Hp & Ht & Hkey); [|done|done].
    apply lookup_take_Some in Hp as [Hp Hi]. split; [|lia]. apply Hhas; [done|].
    exists i, p. split; [done|]. split; [lia|]. split; [done|]. unfold live_prop, prop_key.
    rewrite Ht, Hkey. by destruct type. }
  unfold shape_lookup. step. rewrite C2.
  destruct (Z.eqb_spec (d_index x) 0) as [Hi|Hi].
  { step. split; [done|]. destruct (find_name _ _ _) as [i|] eqn:Ef; [|done].
    destruct (Hfind i eq_refl) as [Hh _]. destruct Hidx as [(_ & E & _)|(? & _)]; [|done].
    rewrite E in Hh. by apply not_elem_of_nil in Hh. }
  destruct Hidx as [(? & _)|(_ & Htok & Hmask & Hocc & Hroom)]; [done|].
  assert (shape_index sh x = Ok (d_index_mem x)) as Ei by (unfold shape_index; by rewrite C2, Z.eqb_refl).
  step. step.
  destruct (index_lookup_spec (d_index_mem x) (s_count sh) (shape_key type key))
    as (r & Er & Hr); [done|unfold zlen in *; lia|done|].
  rewrite C3, Hmask. step. destruct r as [p|].
  - destruct Hr as (slot & Ep & Hlt). rewrite Ep. step. split; [done|]. simpl.
    assert (has (d_index_mem x) (shape_key type key) slot) as Hh by (apply list_elem_of_lookup; eauto).
    apply Hhas in Hh as (i & q & -> & Hi' & Hq & Hlq & Hkq); [|done].
    exists i. split; [done|]. split; [|done]. apply find_name_Some; [done|done|]. exists q.
    split; [apply lookup_take_Some; split; [done|lia]|].
    apply prop_key_named; try done. rewrite Forall_lookup in Hprops. apply (Hprops i).
    apply lookup_take_Some. split; [done|lia].
  - step. split; [done|]. destruct (find_name _ _ _) as [i|] eqn:Ef; [|done].
    destruct (Hfind i eq_refl) as [Hh Hlt]. specialize (Hr _ Hh). lia.
Qed.

(** ** Writing *)

(** Shape [s] and its table change, and no other shape on the table can see it. *)
Lemma links_update st st' s sh sh' x x' :
  links st → shapes st !! s = Some sh → descs st !! s_descriptors sh = Some x →
  desc_ok x' → owners x' = owners x → d_ref_count x' = d_ref_count x →
  link_ok s sh' x' → s_descriptors sh' = s_descriptors sh →
  (∀ o sho, o ≠ s → o ∈ owners x → shapes st !! o = Some sho →
     s_count sho <= d_count x' ∧ view (s_count sho) x' = view (s_count sho) x) →
  (∀ o, o ≠ s → shapes st' !! o =
     (if decide (o ∈ owners x) then set_caches x' else id) <$> shapes st !! o) →
  shapes st' !! s = Some sh' → descs st' = <[s_descriptors sh := x']> (descs st) →
  (clock st <= clock st')%nat →
  links st' ∧ slots st' s = Some (view (s_count sh') x') ∧
  ∀ o, o ≠ s → slots st' o = slots st o.
Proof.
  intros L Hs Hd Hok Hown Hrc Hl' Hsd Hview Hsh Hs' Hde Hcl.
  assert (descs st' !! s_descriptors sh' = Some x') as Hd' by (rewrite Hde, Hsd; apply lookup_insert_eq).
  assert (∀ o sho', o ≠ s → shapes st' !! o = Some sho' → ∃ sho, shapes st !! o = Some sho ∧
    sho' = (if decide (o ∈ owners x) then set_caches x' else id) sho) as Hback.
  { intros o sho' Hne E. rewrite Hsh in E by done. by apply fmap_Some in E. }
  split; [split|split].
  - intros o sho' E. destruct (decide (o = s)) as [->|Hne].
    { rewrite Hs' in E. injection E as <-. by exists x'. }
    apply Hback in E as (sho & E0 & ->); [|done].
    destruct (links_shape st L o sho E0) as (y & Ey & Hl). rewrite Hde. case_decide as Ho.
    + destruct (links_same_table st o sho _ x L E0 Hd Ho) as [Ed (_ & Hc & _ & Hdel)].
      simpl. rewrite Ed, lookup_insert_eq. exists x'. split; [done|].
      destruct (Hview o sho Hne Ho E0) as [Hle Hv].
      split; [by rewrite Hown|]. split; [simpl; lia|]. split; [done|]. simpl. by rewrite Hv.
    + simpl. exists y. split; [|done]. rewrite lookup_insert_ne; [done|].
      intros Ed. rewrite <- Ed, Hd in Ey. injection Ey as <-. by apply Ho, Hl.
  - intros d y. rewrite Hde, lookup_insert_Some. intros [[<- <-]|[_ Hy]]; [|by eapply links_desc].
    destruct (links_desc st L _ x Hd) as [_ Ho]. split; [done|]. unfold owners_ok in *.
    by rewrite Hown, Hrc.
  - intros d y o Hy Ho.
    assert (∃ sho, shapes st !! o = Some sho ∧ s_descriptors sho = d) as (sho & Eo & Ed).
    { rewrite Hde, lookup_insert_Some in Hy. destruct Hy as [[<- <-]|[_ Hy]];
        [rewrite Hown in Ho|]; by eapply links_owner. }
    destruct (decide (o = s)) as [->|Hne].
    + exists sh'. split; [done|]. rewrite Hsd. rewrite Hs in Eo. by injection Eo as <-.
    + rewrite Hsh, Eo by done. simpl. eexists. split; [done|]. by case_decide.
  - intros o sho' E. destruct (decide (o = s)) as [->|Hne].
    { pose proof (links_young_shape st L s sh Hs). lia. }
    apply Hback in E as (sho & E0 & _); [|done]. pose proof (links_young_shape st L o sho E0). lia.
  - intros d y. rewrite Hde, lookup_insert_Some.
    intros [[<- _]|[_ Hy]]; [pose proof (links_young_desc st L _ x Hd)
      |pose proof (links_young_desc st L d y Hy)]; lia.
  - by eapply slots_eq.
  - intros o Hne. apply slots_local.
    + rewrite Hsh by done. destruct (shapes st !! o); simpl; [|done]. by case_decide.
    + intros sho E. rewrite Hde. destruct (decide (s_descriptors sho = s_descriptors sh)) as [Ed|Hned].
      * rewrite Ed, lookup_insert_eq, Hd. simpl. f_equal. apply (Hview o sho); [done| |done].
        destruct (links_shape st L o sho E) as (y & Ey & Hl). rewrite Ed, Hd in Ey.
        injection Ey as <-. apply Hl.
      * by rewrite lookup_insert_ne.
Qed.

(** The same for a shape that has its table for itself. *)
Lemma links_update_sole st st' s sh sh' x x' :
  links st → sole st s sh x → desc_ok x' → owners x' = owners x → d_ref_count x' = d_ref_count x →
  link_ok s sh' x' → s_descriptors sh' = s_descriptors sh →
  shapes st' = <[s := sh']> (shapes st) → descs st' = <[s_descriptors sh := x']> (descs st) →
  (clock st <= clock st')%nat →
  links st' ∧ slots st' s = Some (view (s_count sh') x') ∧
  ∀ o, o ≠ s → slots st' o = slots st o.
Proof.
  intros L (Hs & Hx & Ho & _) Hok Hown Hrc Hl Hsd Hsh Hde Hcl.
  apply (links_update st st' s sh sh' x x'); try done.
  - intros o sho Hne Hin. rewrite Ho in Hin. by apply list_elem_of_singleton in Hin.
  - intros o Hne. rewrite Hsh, lookup_insert_ne by done. rewrite decide_False.
    + by destruct (shapes st !! o).
    + rewrite Ho. by intros ?%list_elem_of_singleton.
  - rewrite Hsh. apply lookup_insert_eq.
Qed.

Lemma read_prop_spec st s sh x slot p (Q : ant_shape_prop_t → state → Prop) :
  shapes st !! s = Some sh → descs st !! s_descriptors sh = Some x → s_props sh = d_props x →
  d_props_mem x !! Z.to_nat slot = Some p → Q p st → wp (read_prop s slot) st Q.
Proof.
  intros Hs Hx Hc Hp HQ. unfold read_prop. do 2 step.
  assert (shape_props sh x = Ok (d_props_mem x)) as E by (unfold shape_props; by rewrite Hc, Z.eqb_refl).
  step. rewrite Hp. by step.
Qed.

Lemma write_prop_spec st s sh x slot p (Q : unit → state → Prop) :
  shapes st !! s = Some sh → descs st !! s_descriptors sh = Some x → s_props sh = d_props x →
  (Z.to_nat slot < length (d_props_mem x))%nat →
  Q tt (set_descs (<[s_descriptors sh := set_d_props_mem (<[Z.to_nat slot := p]> (d_props_mem x)) x]>
    (descs st)) st) →
  wp (write_prop s slot p) st Q.
Proof.
  intros Hs Hx Hc Hlt HQ. unfold write_prop. do 2 step.
  assert (shape_props sh x = Ok (d_props_mem x)) as E by (unfold shape_props; by rewrite Hc, Z.eqb_refl).
  step. rewrite (proj2 (Nat.ltb_lt _ _) Hlt). by step.
Qed.

Lemma deleted_insert mem i p q :
  mem !! i = Some p →
  (deleted (<[i := q]> mem) + (if decide (live_prop p) then 0 else 1)
   = deleted mem + (if decide (live_prop q) then 0 else 1))%nat.
Proof.
  intros Hp. unfold deleted. pose proof (lookup_lt_Some _ _ _ Hp).
  rewrite insert_take_drop by done. rewrite <- (take_drop_middle mem i p Hp) at 3.
  rewrite !filter_app, !filter_cons, !length_app. repeat case_decide; simpl; lia || tauto.
Qed.

(** Changing a property without renaming it. *)
Lemma deleted_same mem i p q :
  mem !! i = Some p → p_type q = p_type p → deleted (<[i := q]> mem) = deleted mem.
Proof.
  intros Hp Ht. pose proof (deleted_insert mem i p q Hp) as E.
  assert (live_prop q ↔ live_prop p) by (unfold live_prop; by rewrite Ht).
  repeat case_decide; lia || tauto.
Qed.

Lemma desc_ok_rewrite x i p q :
  desc_ok x → d_props_mem x !! i = Some p → p_type q = p_type p → p_key q = p_key p →
  desc_ok (set_d_props_mem (<[i := q]> (d_props_mem x)) x).
Proof.
  intros (Hc & Hcap & Hidx & Hhas & Hprops) Hp Ht Hk.
  assert (live_prop q ↔ live_prop p) as Hlq by (unfold live_prop; by rewrite Ht).
  assert (prop_key q = prop_key p) as Hkq by (unfold prop_key; by rewrite Ht, Hk).
  split; [simpl; unfold zlen; rewrite length_insert; done|].
  split; [simpl; unfold zlen; rewrite length_insert; done|].
  split; [done|]. simpl. split.
  - intros k s Hlk. rewrite Hhas by done. unfold key_at.
    split; intros (j & r & -> & Hj & Hr & Hlr & Hkr); destruct (decide (j = i)) as [->|Hne].
    + rewrite Hp in Hr. injection Hr as <-. exists i, q. split_and!; try done; [|tauto|congruence].
      apply list_lookup_insert_eq. by eapply lookup_lt_Some.
    + exists j, r. split_and!; try done. by rewrite list_lookup_insert_ne.
    + rewrite list_lookup_insert_eq in Hr by (by eapply lookup_lt_Some). injection Hr as <-.
      exists i, p. split_and!; try done; [tauto|congruence].
    + rewrite list_lookup_insert_ne in Hr by done. exists j, r. by split_and!.
  - rewrite Forall_lookup in Hprops |- *. intros j r Hr. apply lookup_take_Some in Hr as [Hr Hj].
    apply list_lookup_insert_Some in Hr as [(-> & <- & _)|[_ Hr]].
    + assert (prop_ok p) as Hpo by (apply (Hprops j), lookup_take_Some; done).
      intros Hl. rewrite Ht, Hk. apply Hpo. tauto.
    + apply (Hprops j), lookup_take_Some. done.
Qed.

(** What an operation on [s] does: [s] gets the slots [l], no other shape changes. *)
Definition changed (st : state) (s : sid) (l : list ant_shape_prop_t) (st' : state) : Prop :=
  links st' ∧ tree_frame st st' ∧ slots st' s = Some l ∧ ∀ o, o ≠ s → slots st' o = slots st o.

Lemma changed_stable st st1 s l st' : stable st st1 → changed st1 s l st' → changed st s l st'.
Proof.
  intros [Ht Hsl] (L & Ht' & Hs & Ho). split; [done|]. split; [by etrans|]. split; [done|].
  intros o Hne. by rewrite Ho.
Qed.

Lemma tree_frame_insert st st' s sh sh' :
  shapes st !! s = Some sh → tree_of sh' = tree_of sh → quiet st st' →
  shapes st' = <[s := sh']> (shapes st) → tree_frame st st'.
Proof.
  intros Hs Ht Hq E. split; [done|]. intros o. rewrite E.
  destruct (decide (s = o)) as [<-|Hne]; [rewrite lookup_insert_eq, Hs; simpl; by f_equal|].
  by rewrite lookup_insert_ne.
Qed.

Lemma slots_sole st s sh x l :
  sole st s sh x → links st → slots st s = Some l →
  l = view (s_count sh) x ∧ zlen l = s_count sh ∧ s_props sh = d_props x ∧ link_ok s sh x ∧
  desc_ok x.
Proof.
  intros (Hs & Hx & _ & Hcnt) L Hl. rewrite (slots_eq st s sh x) in Hl by done. injection Hl as <-.
  destruct (links_shape st L s sh Hs) as (x' & E & Hlk). rewrite Hx in E. injection E as <-.
  pose proof (links_desc st L _ x Hx) as [Hok _]. pose proof Hlk as (_ & Hc & (Hp & _) & _).
  split; [done|]. split; [apply length_view; destruct Hok as [? _]; lia|]. done.
Qed.

Lemma view_insert x c i q :
  (i < Z.to_nat c)%nat → view c (set_d_props_mem (<[i := q]> (d_props_mem x)) x) = <[i := q]> (view c x).
Proof. intros Hi. unfold view. simpl. by rewrite take_insert_lt. Qed.

Lemma alter_as_insert {A} (f : A → A) i (l : list A) x : l !! i = Some x → alter f i l = <[i := f x]> l.
Proof.
  revert i. induction l as [|y l IH]; intros [|i] E; try done.
  - by injection E as ->.
  - change (y :: alter f i l = y :: <[i := f x]> l). f_equal. by apply IH.
Qed.

(** Rewriting one property of a shape that has its table for itself. *)
Lemma rewrite_prop_spec {A} st s sh x l i f (r : A) :
  links st → sole st s sh x → slots st s = Some l → (i < length l)%nat →
  (∀ p, p_type (f p) = p_type p ∧ p_key (f p) = p_key p) →
  wp (p ← read_prop s (Z.of_nat i); write_prop s (Z.of_nat i) (f p) ;; ant_ic_epoch_bump ;; mret r) st
    (λ r' st', r' = r ∧ changed st s (alter f i l) st').
Proof.
  intros L Hsole Hl Hi Hf.
  destruct (slots_sole st s sh x l Hsole L Hl) as (El & Hzl & Hp & Hlk & Hok).
  pose proof Hsole as (Hs & Hx & Ho & Hcnt).
  destruct (lookup_lt_is_Some_2 l i Hi) as [p Ep].
  assert (d_props_mem x !! i = Some p ∧ (i < Z.to_nat (s_count sh))%nat) as [Emem Hic].
  { rewrite El in Ep. by apply lookup_take_Some in Ep. }
  destruct (Hf p) as [Ht Hk]. apply wp_bind.
  eapply read_prop_spec; [done|done|done|by rewrite Nat2Z.id|]. apply wp_bind.
  eapply write_prop_spec; [done|done|done|rewrite Nat2Z.id; by eapply lookup_lt_Some|].
  rewrite Nat2Z.id. step. step. split; [done|].
  set (x' := set_d_props_mem _ x). set (st' := set_ant_ic_epoch_counter _ _).
  assert (view (s_count sh) x' = alter f i l) as Hv.
  { unfold x'. rewrite view_insert, <- El by done. by rewrite (alter_as_insert f i l p). }
  destruct (links_update_sole st st' s sh sh x x') as (L' & Hsl & Hoth); try done.
  - by eapply desc_ok_rewrite.
  - destruct Hlk as (H1 & H2 & H3 & H4). split; [done|]. split; [done|]. split; [done|].
    rewrite H4, Hv, <- El. by rewrite (alter_as_insert f i l p), (deleted_same l i p).
  - simpl. by rewrite insert_id.
  - split; [done|]. split; [split; [quiet|done]|]. split; [by rewrite Hsl, Hv|done].
Qed.

(** ** Appending *)

Lemma write_new_spec st s sh x count p (Q : unit → state → Prop) :
  shapes st !! s = Some sh → descs st !! s_descriptors sh = Some x → s_props sh = d_props x →
  0 <= count <= zlen (d_props_mem x) → zlen (d_props_mem x) <= d_cap x → count < d_cap x →
  (∀ mem, take (Z.to_nat count) mem = take (Z.to_nat count) (d_props_mem x) →
     mem !! Z.to_nat count = Some p → zlen mem <= d_cap x →
     Q tt (set_descs (<[s_descriptors sh := set_d_props_mem mem x]> (descs st)) st)) →
  wp (write_prop s count p) st Q.
Proof.
  intros Hs Hx Hp Hc Hlen Hcap HQ. unfold zlen in *. unfold write_prop. do 2 step.
  assert (shape_props sh x = Ok (d_props_mem x)) as E by (unfold shape_props; by rewrite Hp, Z.eqb_refl).
  step. destruct (Nat.ltb_spec (Z.to_nat count) (length (d_props_mem x))) as [Hlt|Hge].
  - step. apply HQ; [by rewrite take_insert_ge|by apply list_lookup_insert_eq|].
    unfold zlen. rewrite length_insert. lia.
  - rewrite (proj2 (Nat.eqb_eq _ _)), (proj2 (Z.ltb_lt _ _)) by lia. cbv beta iota delta [andb]. step.
    apply HQ; [|apply list_lookup_middle; lia|unfold zlen; rewrite length_app; simpl; lia].
    rewrite take_app_le by lia. done.
Qed.

Lemma desc_ok_tail x count mem gc :
  desc_ok x → d_count x = count → take (Z.to_nat count) mem = take (Z.to_nat count) (d_props_mem x) →
  zlen mem <= d_cap x → count <= zlen mem →
  desc_ok (set_may_have_gc_refs gc (set_d_props_mem mem x)).
Proof.
  intros (Hc & Hcap & Hidx & Hhas & Hprops) Hcnt Ht Hlen Hle.
  split; [simpl; lia|]. split; [simpl; lia|]. split; [done|]. simpl. rewrite Hcnt in *.
  split; [|by rewrite Ht]. intros k s Hk. rewrite Hhas by done.
  rewrite <- (key_at_take mem (Z.to_nat count) (Z.to_nat count)), Ht by lia. by rewrite key_at_take.
Qed.

(** The table after the new property is in its index. *)
Lemma desc_ok_append x x' count p :
  desc_ok x → d_count x = count → d_props_mem x !! Z.to_nat count = Some p → live_prop p →
  prop_ok p → same_props x x' → d_cap x' = d_cap x → indexed x (prop_key p) count x' →
  desc_ok (set_d_count (count + 1) x').
Proof.
  intros (Hc & Hcap & _ & Hhas & Hprops) Hcnt Hp Hl Hpo (Em & Ec & _) Ecap (Hi & Htok & Hm & Hocc & Hr & Hhas').
  pose proof (lookup_lt_Some _ _ _ Hp) as Hlt.
  split; [simpl; rewrite Em; unfold zlen in *; lia|]. split; [simpl; rewrite Em, Ecap; lia|].
  split; [right; simpl; split_and!; done || lia|]. simpl. rewrite Em.
  replace (Z.to_nat (count + 1)) with (S (Z.to_nat count)) by lia. split.
  - intros k s Hk. rewrite Hhas', (key_at_S _ _ p), Hhas, Hcnt by done.
    rewrite Z2Nat.id by lia. split; intros [(? & ?)|?]; auto; left; intuition congruence.
  - rewrite (take_S_r _ _ p) by done. apply Forall_app. rewrite <- Hcnt. split; [done|].
    by apply Forall_singleton.
Qed.

Section Changes.

Context `{Bounded}.

Lemma deleted_app l1 l2 : deleted (l1 ++ l2) = (deleted l1 + deleted l2)%nat.
Proof. unfold deleted. by rewrite filter_app, length_app. Qed.

(** The new property, seen through a longer view. *)
Lemma view_append x' count mem0 p :
  0 <= count → take (Z.to_nat count) (d_props_mem x') = mem0 →
  d_props_mem x' !! Z.to_nat count = Some p → view (count + 1) x' = mem0 ++ [p].
Proof.
  intros Hc <- Hp. unfold view. replace (Z.to_nat (count + 1)) with (S (Z.to_nat count)) by lia.
  by apply take_S_r.
Qed.

(** The table is as it was but for the entry after the last, and the index. *)
Record tail_written (x : shape_descriptors_t) (p : ant_shape_prop_t) (x' : shape_descriptors_t)
    : Prop := mk_tail_written {
  tail_take : take (Z.to_nat (d_count x)) (d_props_mem x') = take (Z.to_nat (d_count x)) (d_props_mem x);
  tail_prop : d_props_mem x' !! Z.to_nat (d_count x) = Some p;
  tail_count : d_count x' = d_count x;
  tail_owners : owners x' = owners x;
  tail_refs : d_ref_count x' = d_ref_count x
}.

Lemma tail_view x p x' c : tail_written x p x' → c <= d_count x → view c x' = view c x.
Proof.
  intros T Hc. rewrite (view_take_le c (d_count x) x), (view_take_le c (d_count x) x') by done.
  by rewrite (tail_take x p x' T).
Qed.

(** The index does not have the key of a name that the slots do not have. *)
Lemma not_indexed x type key :
  desc_ok x → name_ok type key → find_name type key (view (d_count x) x) = None →
  ∀ s, ¬ has (d_index_mem x) (shape_key type key) s.
Proof.
  intros (_ & _ & _ & Hhas & Hprops) Hn Hnone s Hs.
  apply Hhas in Hs as (i & q & -> & Hi & Hq & Hlq & Hkq); [|by apply shape_key_live].
  assert (view (d_count x) x !! i = Some q) as Hv by (by apply lookup_take_Some).
  apply (find_name_None _ _ _ _ _ Hnone Hv). apply prop_key_named; try done.
  by eapply Forall_lookup_1.
Qed.

Lemma finish_append_spec st st1 s sh x x1 p l :
  links st → shapes st !! s = Some sh → descs st !! s_descriptors sh = Some x →
  slots st s = Some l → d_count x = s_count sh →
  desc_ok x1 → tail_written x p x1 → d_props x1 = d_props x → d_index x1 = d_index x →
  d_index_mask x1 = d_index_mask x → d_cap x1 = d_cap x →
  shapes st1 = <[s := set_s_count (s_count sh + 1) sh]> (shapes st) →
  descs st1 = <[s_descriptors sh := x1]> (descs st) → quiet st st1 →
  live_prop p → prop_ok p → (∀ s', ¬ has (d_index_mem x1) (prop_key p) s') →
  wp (finish_append s (prop_key p) (s_count sh)) st1 (λ r st',
    match r with
    | Some slot => changed st s (l ++ [p]) st' ∧ slot = s_count sh
    | None => links st' ∧ stable st st' ∧ refused
    end).
Proof.
  intros L Hs Hx Hl Hcnt Hok1 T P1 P2 P3 Hcap Hsh1 Hde1 Hq1 Hlp Hpo Hnew.
  rewrite (slots_eq st s sh x Hs Hx) in Hl. injection Hl as <-.
  destruct (links_desc st L _ x Hx) as [Hok _]. pose proof Hok as (Hc & Hcp & _).
  destruct (links_shape st L s sh Hs) as (x0 & E & Hlk). rewrite Hx in E. injection E as <-.
  pose proof Hlk as (Hso & Hcs & Hca & Hdel).
  set (sh1 := set_s_count (s_count sh + 1) sh) in *.
  assert (shapes st1 !! s = Some sh1) as Hs1 by (rewrite Hsh1; apply lookup_insert_eq).
  assert (cached st1 x1) as Hca1.
  { destruct (links_cached st _ x L Hx) as [Hnd Hex]. split; [by rewrite (tail_owners x p x1 T)|].
    intros o. rewrite (tail_owners x p x1 T). intros Ho. unfold caches. rewrite P1, P2, P3, Hsh1.
    destruct (decide (s = o)) as [<-|Hne]; [exists sh1; by rewrite lookup_insert_eq|].
    rewrite lookup_insert_ne by done. by apply Hex. }
  unfold finish_append. eapply wp_call.
  { apply (index_add_spec st1 s sh1 x1); try done; [rewrite Hde1; apply lookup_insert_eq|].
    by apply prop_key_live. }
  intros ok st2 (x2 & (Hde2 & Hsh2 & Hq2 & Ho2 & Hr2) & Hsp & Hcap2 & Hok2).
  assert (tail_written x p x2) as T2.
  { destruct Hsp as (Em & Ec & _), T as [T1 T2 T3 T4 T5]. split; congruence. }
  assert (shapes st2 !! s = Some (set_caches x2 sh1)) as Hs2.
  { rewrite Hsh2, Hs1, decide_True by (by rewrite (tail_owners x p x1 T)). done. }
  assert (descs st2 !! s_descriptors sh = Some x2) as Hx2 by (rewrite Hde2; apply lookup_insert_eq).
  assert (descs st2 = <[s_descriptors sh := x2]> (descs st)) as Hde2'
    by (by rewrite Hde2, Hde1, insert_insert_eq).
  assert (∀ o, o ≠ s → shapes st2 !! o =
    (if decide (o ∈ owners x) then set_caches x2 else id) <$> shapes st !! o) as Hsh2'.
  { intros o Hne. by rewrite Hsh2, Hsh1, lookup_insert_ne, (tail_owners x p x1 T). }
  destruct ok; simpl.
  - step. step. set (x' := set_d_count _ x2). step. set (st' := set_descs _ st2).
    assert (desc_ok x') as Hok'.
    { apply (desc_ok_append x1 x2 (s_count sh) p); try done.
      - by rewrite (tail_count x p x1 T).
      - rewrite <- Hcnt. apply (tail_prop x p x1 T). }
    assert (view (s_count sh + 1) x' = view (s_count sh) x ++ [p]) as Hv.
    { apply view_append; [lia| |simpl; rewrite <- Hcnt; apply (tail_prop x p x2 T2)].
      simpl. rewrite <- Hcnt. apply (tail_take x p x2 T2). }
    destruct (links_update st st' s sh (set_caches x2 sh1) x x') as (L' & Hsl & Hoth);
      try done; [apply T2|apply T2|..].
    + split; [simpl; by rewrite (tail_owners x p x2 T2)|]. split; [simpl; lia|]. split; [done|].
      simpl. rewrite Hv, deleted_app, Hdel. simpl. unfold deleted at 3.
      rewrite filter_cons_False by tauto. simpl. lia.
    + intros o sho Hne Ho Eo. destruct (links_same_table st o sho _ x L Eo Hx Ho) as (_ & _ & Hco & _).
      simpl. split; [lia|]. apply (tail_view x p x2); [done|lia].
    + simpl. by rewrite Hde2', insert_insert_eq.
    + apply (transitivity Hq1 Hq2).
    + split; [|done]. split; [done|]. split; [|split; [by rewrite Hsl, <- Hv|done]].
      split; [by apply (transitivity Hq1)|]. intros o. simpl. destruct (decide (o = s)) as [->|Hne].
      * by rewrite Hs2, Hs.
      * rewrite Hsh2' by done. destruct (shapes st !! o); [|done]. simpl. by case_decide.
  - destruct Hok2 as [Hok2 Href]. step. step. rewrite u32_small by (simpl; lia). set (sh' := set_s_count _ _). set (st' := set_shapes _ st2).
    assert (s_count sh' = s_count sh) as Ec by (simpl; lia).
    destruct (links_update st st' s sh sh' x x2) as (L' & Hsl & Hoth); try done; [apply T2|apply T2|..].
    + split; [by rewrite (tail_owners x p x2 T2)|]. rewrite Ec.
      split; [rewrite (tail_count x p x2 T2); lia|]. split; [done|].
      rewrite (tail_view x p x2) by (done || lia). done.
    + intros o sho Hne Ho Eo. destruct (links_same_table st o sho _ x L Eo Hx Ho) as (_ & _ & Hco & _).
      rewrite (tail_count x p x2 T2). split; [lia|]. apply (tail_view x p x2); [done|lia].
    + intros o Hne. simpl. rewrite lookup_insert_ne by done. by apply Hsh2'.
    + simpl. apply lookup_insert_eq.
    + apply (transitivity Hq1 Hq2).
    + split; [done|]. split; [split; [split; [by apply (transitivity Hq1)|]|]|done].
      * intros o. simpl. destruct (decide (s = o)) as [<-|Hne]; [by rewrite lookup_insert_eq, Hs|].
        rewrite lookup_insert_ne, Hsh2' by done. destruct (shapes st !! o); [|done]. simpl. by case_decide.
      * intros o. destruct (decide (o = s)) as [->|Hne]; [|by apply Hoth].
        rewrite Hsl, (slots_eq st s sh x), Ec, (tail_view x p x2) by (done || lia). done.
Qed.

Lemma append_prop_spec st s sh x l type key attrs :
  links st → shapes st !! s = Some sh → descs st !! s_descriptors sh = Some x →
  slots st s = Some l → d_count x = s_count sh → s_count sh < d_cap x →
  name_ok type key → find_name type key l = None →
  wp (append_prop s type key attrs) st (λ r st',
    match r with
    | Some slot => changed st s (l ++ [mk_prop type key attrs 0 0 0 0]) st' ∧ slot = s_count sh
    | None => links st' ∧ stable st st' ∧ refused
    end).
Proof.
  intros L Hs Hx Hl Hcnt Hcap Hn Hnone. unfold append_prop. set (p := mk_prop type key attrs 0 0 0 0).
  pose proof (slots_eq st s sh x Hs Hx) as El. rewrite Hl in El. injection El as El.
  destruct (links_desc st L _ x Hx) as [Hok _]. pose proof Hok as (Hc & Hcp & _).
  destruct (links_shape st L s sh Hs) as (x0 & E & _ & Hcs & Hca & _). rewrite Hx in E. injection E as <-.
  step. rewrite u32_small by lia. step. apply wp_bind.
  eapply write_new_spec; [simpl; apply lookup_insert_eq|exact Hx|apply Hca|lia|lia|done|].
  intros mem Htake Hmemp Hmlen. pose proof (lookup_lt_Some _ _ _ Hmemp) as Hml.
  assert (∀ gc st1, shapes st1 = <[s := set_s_count (s_count sh + 1) sh]> (shapes st) →
    descs st1 = <[s_descriptors sh := set_may_have_gc_refs gc (set_d_props_mem mem x)]> (descs st) →
    quiet st st1 →
    wp (finish_append s (shape_key type key) (s_count sh)) st1 (λ r st',
      match r with
      | Some slot => changed st s (l ++ [p]) st' ∧ slot = s_count sh
      | None => links st' ∧ stable st st' ∧ refused
      end)) as Hrest.
  { intros gc st1 Hsh1 Hde1 Hq1. set (x1 := set_may_have_gc_refs _ _) in Hde1.
    assert (desc_ok x1) as Hok1.
    { eapply (desc_ok_tail x (s_count sh) mem gc); try done. unfold zlen. lia. }
    assert (tail_written x p x1) as T.
    { split; try done; simpl; rewrite Hcnt; done. }
    apply (finish_append_spec st st1 s sh x x1 p l); try done; [by destruct type|by intros _|].
    apply not_indexed; [done|done|].
    change (d_count x1) with (d_count x). by rewrite (tail_view x p x1), Hcnt, <- El by (done || lia). }
  destruct (decide (type = ANT_SHAPE_KEY_SYMBOL)).
  - apply wp_bind. eapply wp_upd_desc; [simpl; apply lookup_insert_eq|].
    apply (Hrest true); [done|simpl; by rewrite insert_insert_eq|quiet].
  - step. apply (Hrest (may_have_gc_refs x)); [done| |quiet].
    simpl. f_equal.
Qed.

(** Slots that are only read. *)
Lemma slot_read st s sh x l i p :
  links st → shapes st !! s = Some sh → descs st !! s_descriptors sh = Some x →
  slots st s = Some l → l !! i = Some p → s_props sh = d_props x ∧ d_props_mem x !! i = Some p.
Proof.
  intros L Hs Hx Hl Hp. rewrite (slots_eq st s sh x Hs Hx) in Hl. injection Hl as <-.
  destruct (links_shape st L s sh Hs) as (x0 & E & _ & _ & (Hca & _) & _). rewrite Hx in E. injection E as <-.
  split; [done|]. by apply lookup_take_Some in Hp as [? _].
Qed.

Lemma reuse_key_spec st s l type key attrs i :
  links st → is_Some (shapes st !! s) → slots st s = Some l → name_ok type key →
  find_name type key l = Some i →
  wp (reuse_key s (Z.of_nat i) attrs) st (λ r st',
    match r with
    | Some slot => changed st s (alter (set_attrs attrs) i l) st' ∧ slot = Z.of_nat i
    | None => links st' ∧ stable st st' ∧ refused
    end).
Proof.
  intros L [sh Hs] Hl Hn Hf. destruct (links_shape st L s sh Hs) as (x & Hx & _).
  assert (slots_ok l) as Hso.
  { pose proof (slots_view_ok st s sh x L Hs Hx). rewrite (slots_eq st s sh x) in Hl by done.
    by injection Hl as <-. }
  apply find_name_Some in Hf as (p & Hp & Hnp); [|done|done].
  destruct (slot_read st s sh x l i p) as [Hca Hmem]; try done. unfold reuse_key. apply wp_bind.
  eapply read_prop_spec; [done|done|done|by rewrite Nat2Z.id|].
  destruct (Z.eqb_spec (p_attrs p) attrs) as [Ea|Ea].
  - step. split; [|done]. split; [done|]. split; [done|]. split; [|done]. rewrite Hl. f_equal.
    rewrite (alter_as_insert _ _ _ p) by done. rewrite list_insert_id; [done|]. rewrite Hp.
    f_equal. unfold set_attrs. rewrite <- Ea. by destruct p.
  - eapply wp_call; [by apply (prepare_metadata_spec st s sh)|].
    intros ok st1 (L1 & Hst1 & Href & Hsole). destruct ok; cbn [negb]; [|step; auto].
    destruct Hsole as (sh1 & x1 & Hsole & _); [done|].
    eapply wp_mono; [apply (rewrite_prop_spec st1 s sh1 x1 l i (set_attrs attrs)); try done|].
    + by rewrite (proj2 Hst1).
    + by eapply lookup_lt_Some.
    + intros r st2 [-> Hch]. split; [|done]. by eapply changed_stable.
Qed.

(** [shape_add_key] gives the key the attributes, in its slot or in a new one at the end; if
    memory runs out nothing has changed. *)
Lemma add_key_spec st s l type key attrs :
  links st → is_Some (shapes st !! s) → slots st s = Some l → name_ok type key →
  wp (shape_add_key (Some s) type key attrs) st (λ r st',
    match r with
    | Some slot => changed st s (add_prop type key attrs l) st' ∧
        slot = Z.of_nat (default (length l) (find_name type key l))
    | None => links st' ∧ stable st st' ∧ refused
    end).
Proof.
  intros L [sh Hs] Hl Hn. destruct (links_shape st L s sh Hs) as (x & Hx & _).
  unfold shape_add_key. eapply wp_call; [by apply (lookup_spec st s sh x l)|].
  unfold add_prop. intros [[p slot]|] st0 [-> Hr].
  - destruct Hr as (i & -> & Hf & _). rewrite Hf. eapply reuse_key_spec; eauto.
  - rewrite Hr. eapply wp_call; [by apply (prepare_append_spec st s sh)|].
    intros ok st1 (L1 & Hst1 & Href & Hok). destruct ok; cbn [negb]; [|step; auto].
    destruct Hok as (sh1 & x1 & Hs1 & Hx1 & Hc1 & Hd1); [done|]. step.
    destruct (links_desc st1 L1 _ x1 Hx1) as [Hok1 _]. pose proof Hok1 as (Hcx & Hcp & _).
    rewrite u32_small by lia.
    eapply wp_call; [apply (ensure_capacity_spec st1 s sh1 x1 _ Hs1 Hx1 Hok1); [by eapply links_cached|lia]|].
    intros ok st2 (x2 & Htc & Hok2 & (Em & Ec & _) & Href2 & Hcap2).
    destruct (links_table st1 st2 _ x1 x2 L1 Hx1 Hok2) as [L2 Hst2]; [|done|].
    { intros o sho Ho Eo. destruct (links_same_table st1 o sho _ x1 L1 Eo Hx1 Ho) as (_ & _ & Hco & _).
      unfold view. rewrite Em, Ec. split; [lia|done]. }
    assert (stable st st2) as Hst by (by etrans). destruct ok; cbn [negb]; [|step; auto].
    specialize (Hcap2 eq_refl). destruct Htc as (Hde2 & Hsh2 & _).
    assert (slots st2 s = Some l) as Hl2 by (by rewrite (proj2 Hst)).
    assert (∃ sh2, shapes st2 !! s = Some sh2 ∧ s_count sh2 = s_count sh1 ∧
      s_descriptors sh2 = s_descriptors sh1) as (sh2 & Hs2 & Hc2 & Hd2).
    { rewrite Hsh2, Hs1. simpl. eexists. split; [done|]. by case_decide. }
    assert (descs st2 !! s_descriptors sh2 = Some x2) as Hx2
      by (rewrite Hde2, Hd2; apply lookup_insert_eq).
    eapply wp_mono; [apply (append_prop_spec st2 s sh2 x2 l); try done; congruence || lia|].
    intros [slot|] st3.
    + intros [Hch ->]. split; [by eapply changed_stable|].
      rewrite (slots_eq st2 s sh2 x2) in Hl2 by done. injection Hl2 as <-. simpl.
      symmetry. apply length_view. destruct Hok2 as [? _]. lia.
    + intros (L3 & Hst3 & Href3). split; [done|]. split; [by etrans|done].
Qed.

(** ** Removing *)

Lemma trim_snoc l p : trim (l ++ [p]) = if decide (live_prop p) then l ++ [p] else trim l.
Proof.
  induction l as [|q l IH]; [done|]. simpl. rewrite IH. case_decide; [|done].
  by destruct (l ++ [p]) eqn:E; [destruct l|].
Qed.

Lemma trim_prefix l : trim l = take (length (trim l)) l.
Proof.
  induction l as [|p l IH] using rev_ind; [done|]. rewrite trim_snoc. case_decide.
  - by rewrite take_ge.
  - rewrite take_app_le; [done|]. rewrite IH, length_take. lia.
Qed.

Lemma length_trim l : (length (trim l) <= length l)%nat.
Proof. rewrite trim_prefix, length_take. lia. Qed.

Lemma deleted_trim l : (deleted (trim l) + length l = deleted l + length (trim l))%nat.
Proof.
  induction l as [|p l IH] using rev_ind; [done|]. rewrite trim_snoc. case_decide as Hp; [lia|].
  rewrite deleted_app, length_app. unfold deleted at 3. rewrite filter_cons_True by done. simpl. lia.
Qed.

(** Trimming loses no property. *)
Lemma live_trim l : live (trim l) = live l.
Proof.
  induction l as [|p l IH] using rev_ind; [done|]. rewrite trim_snoc. case_decide; [done|].
  unfold live in *. rewrite filter_app, filter_cons_False, IH by done. by rewrite app_nil_r.
Qed.

(** What is cut off is deleted. *)
Lemma trim_rest l i p : l !! i = Some p → (length (trim l) <= i)%nat → ¬ live_prop p.
Proof.
  revert i. induction l as [|q l IH] using rev_ind; [done|]. intros i Hp. rewrite trim_snoc.
  pose proof (lookup_lt_Some _ _ _ Hp) as Hlt. rewrite length_app in Hlt. simpl in Hlt.
  case_decide as Hq; [rewrite length_app; simpl; lia|]. intros Hi.
  destruct (decide (i = length l)) as [->|Hne].
  - rewrite lookup_app_r, Nat.sub_diag in Hp by lia. by injection Hp as <-.
  - rewrite lookup_app_l in Hp by lia. by apply (IH i).
Qed.

Lemma trim_deleted_spec n mem d :
  (n <= length mem)%nat → Z.of_nat (deleted (take n mem)) <= d < 2 ^ 32 →
  trim_deleted n mem d
  = Ok (length (trim (take n mem)), d - Z.of_nat (n - length (trim (take n mem)))).
Proof.
  revert d. induction n as [|n IH]; intros d Hn Hd; [simpl; do 2 f_equal; lia|]. simpl trim_deleted.
  destruct (lookup_lt_is_Some_2 mem n) as [p Hp]; [lia|]. rewrite Hp.
  rewrite (take_S_r mem n p) in * by done. rewrite deleted_app in Hd. rewrite trim_snoc.
  destruct (decide (p_type p = ANT_SHAPE_KEY_DELETED)) as [Ht|Ht].
  - assert (¬ live_prop p) as Hl by (unfold live_prop; tauto). rewrite decide_False by done.
    unfold deleted at 2 in Hd. rewrite filter_cons_True in Hd by done. simpl in Hd.
    rewrite u32_small by lia. rewrite IH by lia. do 2 f_equal.
    pose proof (length_trim (take n mem)). rewrite length_take in *. lia.
  - rewrite decide_True by done. do 2 f_equal; rewrite length_app, length_take; simpl; lia.
Qed.

Lemma key_at_deleted mem n i p k s :
  keys_differ (take n mem) → (i < n)%nat → mem !! i = Some p → live_prop p →
  key_at (<[i := deleted_prop]> mem) n k s ↔ key_at mem n k s ∧ k ≠ prop_key p.
Proof.
  intros Hdiff Hi Hp Hl. pose proof (lookup_lt_Some _ _ _ Hp) as Hlt. split.
  - intros (j & q & -> & Hj & Hq & Hlq & Hkq). destruct (decide (i = j)) as [<-|Hne].
    { rewrite list_lookup_insert_eq in Hq by done. injection Hq as <-. by destruct Hlq. }
    rewrite list_lookup_insert_ne in Hq by done. split; [by exists j, q|]. intros E. apply Hne.
    apply (Hdiff i j p q); try done; [by apply lookup_take_Some..|congruence].
  - intros [(j & q & -> & Hj & Hq & Hlq & Hkq) Hk]. exists j, q. split_and!; try done.
    rewrite list_lookup_insert_ne; [done|]. intros ->. congruence.
Qed.

Lemma key_at_trim mem n k s :
  (n <= length mem)%nat →
  key_at mem (length (trim (take n mem))) k s ↔ key_at mem n k s.
Proof.
  intros Hn. split.
  - intros H'. eapply key_at_mono; [done|]. pose proof (length_trim (take n mem)) as Ht.
    rewrite length_take in Ht. lia.
  - intros (i & p & -> & Hi & Hp & Hl & Hk). exists i, p. split_and!; try done.
    destruct (decide (length (trim (take n mem)) <= i)%nat) as [Hle|]; [|lia].
    destruct (trim_rest (take n mem) i p); try done. by apply lookup_take_Some.
Qed.

(** The table after the property in slot [i] is gone. *)
Lemma desc_ok_remove x i p pos sl :
  let l := <[i := deleted_prop]> (view (d_count x) x) in
  desc_ok x → (i < Z.to_nat (d_count x))%nat → d_props_mem x !! i = Some p → live_prop p →
  d_index_mem x !! pos = Some (mk_entry (prop_key p) sl) →
  desc_ok (set_d_count (Z.of_nat (length (trim l)))
    (set_d_props_mem (<[i := deleted_prop]> (d_props_mem x))
       (set_d_index_mem (<[pos := mk_entry SHAPE_IDX_TOMB sl]> (d_index_mem x)) x))).
Proof.
  intros l Hok Hi Hp Hl Hpos. pose proof (desc_ok_differ x Hok) as Hdiff.
  destruct Hok as (Hc & Hcap & Hidx & Hhas & Hprops).
  assert (live_key (prop_key p)) as Hlk.
  { apply prop_key_live; [|done]. eapply Forall_lookup_1; [exact Hprops|]. by apply lookup_take_Some. }
  destruct Hidx as [(_ & E & _)|(Hi0 & Htok & Hm & Hocc & Hr)]; [by rewrite E in Hpos|].
  destruct (index_tomb_spec (d_index_mem x) pos (prop_key p) sl sl Htok Hlk Hpos) as (Htok' & Hocc' & Hhas').
  set (mem := <[i := deleted_prop]> (d_props_mem x)).
  assert (l = take (Z.to_nat (d_count x)) mem) as El by (unfold l, mem, view; by rewrite take_insert_lt).
  assert (length mem = length (d_props_mem x)) as Elen by apply length_insert.
  assert (length (trim l) <= Z.to_nat (d_count x))%nat as Htl.
  { pose proof (length_trim l) as Hlt. rewrite El in Hlt at 2. rewrite length_take in Hlt. lia. }
  unfold zlen in *. split; [simpl; unfold zlen; fold mem; lia|]. split; [simpl; unfold zlen; fold mem; lia|].
  split; [right; simpl; unfold zlen; rewrite length_insert; split_and!; done || lia|].
  simpl. rewrite Nat2Z.id. fold mem. split.
  - intros k s Hk. rewrite Hhas', Hhas by done. rewrite El, key_at_trim by lia. unfold mem.
    by rewrite (key_at_deleted _ _ i p).
  - apply Forall_lookup. intros j q Hq. apply lookup_take_Some in Hq as [Hq Hj].
    apply list_lookup_insert_Some in Hq as [(_ & <- & _)|[_ Hq]]; [by intros []|].
    rewrite Forall_lookup in Hprops. apply (Hprops j), lookup_take_Some. split; [done|lia].
Qed.

Lemma write_entry_spec st s sh x p e (Q : unit → state → Prop) :
  shapes st !! s = Some sh → descs st !! s_descriptors sh = Some x → s_index sh = d_index x →
  (p < length (d_index_mem x))%nat →
  Q tt (set_descs (<[s_descriptors sh := set_d_index_mem (<[p := e]> (d_index_mem x)) x]> (descs st)) st) →
  wp (write_entry s p e) st Q.
Proof.
  intros Hs Hx Hc Hlt HQ. unfold write_entry. do 2 step.
  assert (shape_index sh x = Ok (d_index_mem x)) as E by (unfold shape_index; by rewrite Hc, Z.eqb_refl).
  step. rewrite (proj2 (Nat.ltb_lt _ _) Hlt). by step.
Qed.

(** The slots seen by a shape in a consistent store. *)
Lemma slots_length st s sh l :
  links st → shapes st !! s = Some sh → slots st s = Some l →
  zlen l = s_count sh ∧ 0 <= s_count sh < 2 ^ 27 ∧ s_deleted_count sh = Z.of_nat (deleted l).
Proof.
  intros L Hs Hl. destruct (links_shape st L s sh Hs) as (x & Hx & _ & Hc & _ & Hd).
  rewrite (slots_eq st s sh x Hs Hx) in Hl. injection Hl as <-.
  destruct (links_desc st L _ x Hx) as [(Hcx & Hcap & _) _].
  split; [apply length_view; lia|]. split; [lia|done].
Qed.

Lemma deleted_le l : (deleted l <= length l)%nat.
Proof. unfold deleted. apply length_filter. Qed.

(** A live property is found under its own name. *)
Lemma find_name_self l i p :
  slots_ok l → l !! i = Some p → live_prop p → find_name (p_type p) (p_key p) l = Some i.
Proof.
  intros Hso Hp Hl. apply find_name_Some; [done| |by exists p].
  destruct Hso as [Hok _]. by eapply Forall_lookup_1 in Hok; [apply Hok|].
Qed.

(** The store after slot [i] of [s] was deleted, its key turned into a tombstone and the end
    trimmed. *)
Lemma links_slot_removed st st' s sh x l i p q :
  let r := remove_prop i l in
  let x' := set_d_count (Z.of_nat (length r))
    (set_d_props_mem (<[i := deleted_prop]> (d_props_mem x))
       (set_d_index_mem (<[q := mk_entry SHAPE_IDX_TOMB (Z.of_nat i)]> (d_index_mem x)) x)) in
  let sh' := set_s_deleted_count (Z.of_nat (deleted r)) (set_s_count (Z.of_nat (length r))
    (set_s_deleted_count (s_deleted_count sh + 1) sh)) in
  links st → sole st s sh x → slots st s = Some l → l !! i = Some p → live_prop p →
  d_index_mem x !! q = Some (mk_entry (prop_key p) (Z.of_nat i)) →
  shapes st' = <[s := sh']> (shapes st) → descs st' = <[s_descriptors sh := x']> (descs st) →
  quiet st st' → changed st s r st'.
Proof.
  intros r x' sh' L Hsole Hl Hp Hlp Hq Hsh Hde Hqu. pose proof Hsole as (Hs & Hx & Ho & Hcnt).
  destruct (slots_sole st s sh x l Hsole L Hl) as (El & Hzl & Hca & Hlk & Hok).
  assert (d_props_mem x !! i = Some p ∧ (i < Z.to_nat (s_count sh))%nat) as [Hmem Hi].
  { rewrite El in Hp. by apply lookup_take_Some in Hp. }
  assert (view (s_count sh') x' = r) as Hv.
  { assert (<[i := deleted_prop]> l
      = take (Z.to_nat (s_count sh)) (<[i := deleted_prop]> (d_props_mem x))) as Eil.
    { rewrite El. unfold view. by rewrite take_insert_lt. }
    pose proof (length_trim (<[i := deleted_prop]> l)) as Hlt. rewrite length_insert in Hlt.
    change (trim (<[i := deleted_prop]> l)) with r in Hlt.
    transitivity (take (length r) (<[i := deleted_prop]> l)); [|symmetry; apply trim_prefix].
    rewrite Eil, take_take. unfold view. simpl. f_equal. unfold zlen in *. lia. }
  destruct (links_update_sole st st' s sh sh' x x') as (L' & Hsl & Hoth); try done; [| |apply Hqu|].
  - unfold x', r. replace (remove_prop i l) with (trim (<[i := deleted_prop]> (view (d_count x) x)))
      by (unfold remove_prop; by rewrite El, Hcnt).
    eapply desc_ok_remove; try done. by rewrite Hcnt.
  - destruct Hlk as (_ & _ & Hcaches & _). split; [change (s ∈ owners x); rewrite Ho; left|]. split; [simpl; lia|].
    split; [done|]. by rewrite Hv.
  - split; [done|]. split; [|split; [by rewrite Hsl, Hv|done]].
    by eapply (tree_frame_insert _ _ s sh sh').
Qed.

(** The loop that trims, after slot [i] of the slots [l] was deleted. *)
Lemma trim_removed mem n l i p d :
  take n mem = <[i := deleted_prop]> l → (n <= length mem)%nat → l !! i = Some p → live_prop p →
  d = Z.of_nat (deleted l) → zlen l < 2 ^ 27 →
  trim_deleted n mem (d + 1) = Ok (length (remove_prop i l), Z.of_nat (deleted (remove_prop i l))).
Proof.
  intros Etake Hn Hp Hlp -> Hlen. unfold zlen in Hlen. pose proof (deleted_insert l i p deleted_prop Hp) as Hdi.
  rewrite decide_True, decide_False in Hdi by (done || by intros []).
  pose proof (deleted_le l) as Hdl. assert (n = length l) as En.
  { apply (f_equal length) in Etake. rewrite length_take, length_insert in Etake. lia. }
  rewrite trim_deleted_spec by (done || rewrite Etake; lia). rewrite Etake. fold (remove_prop i l).
  do 2 f_equal. pose proof (deleted_trim (<[i := deleted_prop]> l)) as Hdt.
  pose proof (length_trim (<[i := deleted_prop]> l)) as Hlt. rewrite length_insert in Hdt, Hlt.
  unfold remove_prop. lia.
Qed.

(** The part of [ant_shape_remove_slot] after the checks, on a shape with a table of its own. *)
Lemma remove_found_spec st s sh x l i p :
  links st → sole st s sh x → slots st s = Some l → l !! i = Some p → live_prop p →
  wp (remove_found s (Z.of_nat i) p) st (λ r st', r = true ∧ changed st s (remove_prop i l) st').
Proof.
  intros L Hsole Hl Hp Hlp. pose proof Hsole as (Hs & Hx & Ho & Hcnt).
  destruct (slots_sole st s sh x l Hsole L Hl) as (El & Hzl & Hca & Hlk & Hok).
  pose proof (slots_view_ok st s sh x L Hs Hx) as Hso. rewrite <- El in Hso.
  assert (d_props_mem x !! i = Some p ∧ (i < Z.to_nat (s_count sh))%nat) as [Hmem Hi].
  { rewrite El in Hp. by apply lookup_take_Some in Hp. }
  pose proof (find_name_self l i p Hso Hp Hlp) as Hfind.
  assert (name_ok (p_type p) (p_key p)) as Hn.
  { destruct Hso as [Hf _]. by eapply Forall_lookup_1 in Hf; [apply Hf|]. }
  destruct (slots_length st s sh l L Hs Hl) as (_ & Hcb & Hdc). pose proof (deleted_le l) as Hdl.
  unfold remove_found. eapply wp_call; [by apply (lookup_spec st s sh x l)|].
  intros r st0 [-> Hr]. destruct r as [[q sl]|]; [|congruence].
  destruct Hr as (j & -> & Hj & Hq). assert (j = i) as -> by congruence.
  destruct Hlk as (Hown & Hcs & (C1 & C2 & C3) & Hdel).
  apply wp_bind. eapply write_entry_spec; [done|done|done|by eapply lookup_lt_Some|].
  apply wp_bind. eapply write_prop_spec; [done|simpl; apply lookup_insert_eq|done| |].
  { rewrite Nat2Z.id. simpl. by eapply lookup_lt_Some. }
  rewrite Nat2Z.id. simpl. rewrite insert_insert_eq. step. rewrite u32_small by (unfold zlen in *; lia).
  set (x1 := set_d_props_mem _ _). set (sh1 := set_s_deleted_count _ sh).
  apply wp_bind. eapply wp_get_shape; [simpl; apply lookup_insert_eq|].
  apply wp_bind. eapply wp_get_desc; [simpl; apply lookup_insert_eq|].
  assert (shape_props sh1 x1 = Ok (d_props_mem x1)) as E by (unfold shape_props; simpl; by rewrite C1, Z.eqb_refl).
  assert (trim_deleted (Z.to_nat (s_count sh1)) (d_props_mem x1) (s_deleted_count sh1)
    = Ok (length (remove_prop i l), Z.of_nat (deleted (remove_prop i l)))) as Etrim.
  { eapply trim_removed; try done; simpl; [|rewrite length_insert|].
    - rewrite El. unfold view. by rewrite take_insert_lt.
    - destruct Hok as [? _]. unfold zlen in *. lia.
    - lia. }
  do 6 step. split; [done|].
  apply (links_slot_removed st _ s sh x l i p q); try done;
    simpl; by rewrite insert_insert_eq.
Qed.

(** [ant_shape_remove_slot] deletes the property in a slot; nothing moves. *)
Lemma remove_slot_spec st s l slot :
  links st → is_Some (shapes st !! s) → slots st s = Some l → 0 <= slot →
  wp (ant_shape_remove_slot (Some s) slot) st (λ r st',
    if r then (∃ p, l !! Z.to_nat slot = Some p ∧ live_prop p) ∧
      changed st s (remove_prop (Z.to_nat slot) l) st'
    else links st' ∧ stable st st' ∧
      ((∀ p, l !! Z.to_nat slot = Some p → ¬ live_prop p) ∨ refused)).
Proof.
  intros L [sh Hs] Hl Hslot. destruct (slots_length st s sh l L Hs Hl) as (Hzl & Hc & _).
  unfold ant_shape_remove_slot. step. destruct (Z.leb_spec (s_count sh) slot) as [Hle|Hlt].
  { step. split; [done|]. split; [done|]. left. intros p Hp. apply lookup_lt_Some in Hp.
    unfold zlen in *. lia. }
  eapply wp_call; [by apply (prepare_metadata_spec st s sh)|].
  intros ok st1 (L1 & Hst1 & Href & Hsole). destruct ok; cbn [negb]; [|step; auto].
  destruct Hsole as (sh1 & x1 & Hsole & _); [done|].
  assert (slots st1 s = Some l) as Hl1 by (by rewrite (proj2 Hst1)).
  destruct (lookup_lt_is_Some_2 l (Z.to_nat slot)) as [p Hp]; [unfold zlen in *; lia|].
  pose proof Hsole as (Hs1 & Hx1 & _). destruct (slot_read st1 s sh1 x1 l _ p L1 Hs1 Hx1 Hl1 Hp) as [Hca Hmem].
  apply wp_bind. eapply read_prop_spec; [done|done|done|done|].
  case_decide as Ht.
  { step. split; [done|]. split; [done|]. left. intros q Hq. rewrite Hp in Hq. injection Hq as <-. by intros []. }
  rewrite <- (Z2Nat.id slot) by done. eapply wp_mono; [by apply (remove_found_spec st1 s sh1 x1 l _ p)|].
  intros r st2 [-> Hch]. rewrite Nat2Z.id. split; [by exists p|]. by eapply changed_stable.
Qed.
End Changes.
