(* ===== verification/ShapeAttrs.v ===== *)
(** * Queries, attributes and accessors of a shape

    The functions of src/src/shapes.c that look a key up, read a slot, set the attributes of a
    property or clear its accessor. *)

From stdpp Require Import gmap.
From S2P Require Import Prelude ShapeIndex ShapeModel ShapeLinks ShapeCopy ShapeProps.

(** The slot that the C functions return for a name. *)
Definition slot_of (type : ant_shape_key_type_t) (key : Z) (l : list ant_shape_prop_t) : Z :=
  match find_name type key l with Some i => Z.of_nat i | None => -1 end.

(** The property of a slot, as [ant_shape_prop_at] gives it. *)
Definition prop_of (l : list ant_shape_prop_t) (slot : Z) : option ant_shape_prop_t :=
  p ← l !! Z.to_nat slot; if decide (live_prop p) then Some p else None.

Lemma find_name_lt type key l i : find_name type key l = Some i → (i < length l)%nat.
Proof.
  unfold find_name. intros Hi. destruct (list_find (named type key) l) as [[j q]|] eqn:E; [|done].
  apply list_find_Some in E as (E & _). injection Hi as <-. by eapply lookup_lt_Some.
Qed.

Lemma prop_of_lt l slot : is_Some (prop_of l slot) → (Z.to_nat slot < length l)%nat.
Proof.
  unfold prop_of. intros Hp. destruct (l !! Z.to_nat slot) eqn:E; [by eapply lookup_lt_Some|by destruct Hp].
Qed.

Lemma lookup_slot_spec st s l type key :
  links st → slots st s = Some l → is_Some (shapes st !! s) → name_ok type key →
  wp (lookup_slot (Some s) (shape_key type key)) st (λ r st', st' = st ∧ r = slot_of type key l).
Proof.
  intros L Hl [sh Hs] Hn. destruct (links_shape st L s sh Hs) as (x & Hx & _). unfold lookup_slot.
  eapply wp_call; [by apply (lookup_spec st s sh x l)|]. intros [[p slot]|] st' [-> Hr]; step; split; try done.
  - destruct Hr as (i & -> & Hi & _). unfold slot_of. rewrite Hi.
    pose proof (find_name_lt _ _ _ _ Hi) as Hlt.
    destruct (slots_length st s sh l L Hs Hl) as (Hz & Hc & _). unfold zlen in Hz. case_ltb; lia.
  - unfold slot_of. by rewrite Hr.
Qed.

Lemma prop_at_spec st s l slot :
  links st → slots st s = Some l → is_Some (shapes st !! s) → 0 <= slot →
  wp (ant_shape_prop_at (Some s) slot) st (λ r st', st' = st ∧ r = prop_of l slot).
Proof.
  intros L Hl [sh Hs] Hslot. destruct (slots_length st s sh l L Hs Hl) as (Hz & Hc & _). unfold zlen in Hz.
  destruct (links_shape st L s sh Hs) as (x & Hx & _). unfold ant_shape_prop_at, prop_of. step.
  destruct (Z.leb_spec (s_count sh) slot) as [Hle|Hlt].
  - step. split; [done|]. rewrite lookup_ge_None_2 by lia. done.
  - destruct (lookup_lt_is_Some_2 l (Z.to_nat slot)) as [p Hp]; [lia|]. rewrite Hp. simpl.
    destruct (slot_read st s sh x l _ p L Hs Hx Hl Hp) as [Hca Hmem].
    apply wp_bind. eapply read_prop_spec; [done..|]. step. split; [done|]. unfold live_prop.
    destruct (decide (p_type p = ANT_SHAPE_KEY_DELETED)) as [Hd|Hd].
    + rewrite decide_False by tauto. done.
    + rewrite decide_True by done. done.
Qed.

Section Attributes.

Context `{Bounded}.

(** Rewriting a slot once the shape has its table for itself. *)
Lemma set_attrs_at_spec st s l slot attrs :
  links st → slots st s = Some l → is_Some (shapes st !! s) → slot < zlen l →
  wp (set_attrs_at (Some s) slot attrs) st (λ r st',
    if r then 0 <= slot ∧ changed st s (alter (set_attrs attrs) (Z.to_nat slot) l) st'
    else links st' ∧ stable st st' ∧ (slot < 0 ∨ refused)).
Proof.
  intros L Hl [sh Hs] Hlt. unfold set_attrs_at. destruct (Z.ltb_spec slot 0) as [Hneg|Hpos].
  { step. split; [done|]. split; [done|]. by left. }
  eapply wp_call; [by apply (prepare_metadata_spec st s sh)|].
  intros ok st1 (L1 & Hst1 & Href & Hsole). destruct ok; cbn [negb]; [|step; auto].
  destruct Hsole as (sh1 & x1 & Hsole & _); [done|]. rewrite <- (Z2Nat.id slot) by done.
  eapply wp_mono; [apply (rewrite_prop_spec st1 s sh1 x1 l (Z.to_nat slot) (set_attrs attrs)); try done|].
  - by rewrite (proj2 Hst1).
  - unfold zlen in Hlt. lia.
  - intros r st2 [-> Hch]. rewrite Nat2Z.id. split; [lia|]. by eapply changed_stable.
Qed.

Lemma slot_of_lt type key l : slot_of type key l < zlen l ∨ l = [].
Proof.
  unfold slot_of, find_name. destruct (list_find (named type key) l) as [[i p]|] eqn:E; simpl.
  - apply list_find_Some in E as (E & _). apply lookup_lt_Some in E. left. unfold zlen. lia.
  - destruct l; [by right|left]. unfold zlen. simpl. lia.
Qed.

(** Setting the attributes of a name changes them in its slot, if the shape has it. *)
Lemma set_attrs_spec st s l type key attrs :
  links st → slots st s = Some l → is_Some (shapes st !! s) → name_ok type key →
  wp (slot ← lookup_slot (Some s) (shape_key type key); set_attrs_at (Some s) slot attrs) st (λ r st',
    if r then ∃ i, find_name type key l = Some i ∧ changed st s (alter (set_attrs attrs) i l) st'
    else links st' ∧ stable st st' ∧ (find_name type key l = None ∨ refused)).
Proof.
  intros L Hl Hs Hn. eapply wp_call; [by apply (lookup_slot_spec st s l)|]. intros slot st' [-> ->].
  assert (slot_of type key l < zlen l) as Hlt.
  { destruct (slot_of_lt type key l) as [Hx|Hx]; [done|]. by rewrite Hx. }
  eapply wp_mono; [by apply set_attrs_at_spec|]. unfold slot_of in *. intros [|] st'.
  - intros [Hpos Hch]. destruct (find_name type key l) as [i|]; [|lia]. exists i. by rewrite Nat2Z.id in Hch.
  - intros (L' & Hst & Hr). split; [done|]. split; [done|]. destruct Hr as [Hr|Hr]; [left|by right].
    destruct (find_name type key l); [lia|done].
Qed.

(** [ant_shape_prop_mut_at] gives a pointer to a live slot of a shape with its own table. *)
Lemma prop_mut_at_spec st s l slot :
  links st → slots st s = Some l → is_Some (shapes st !! s) → 0 <= slot →
  wp (ant_shape_prop_mut_at (Some s) slot) st (λ r st',
    links st' ∧ stable st st' ∧
    if r then (∃ sh x, sole st' s sh x) ∧ is_Some (prop_of l slot)
    else prop_of l slot = None ∨ refused).
Proof.
  intros L Hl [sh Hs] Hslot. destruct (slots_length st s sh l L Hs Hl) as (Hz & Hc & _). unfold zlen in Hz.
  destruct (links_shape st L s sh Hs) as (x & Hx & _). unfold ant_shape_prop_mut_at, prop_of. step.
  destruct (Z.leb_spec (s_count sh) slot) as [Hle|Hlt].
  { step. split; [done|]. split; [done|]. left. rewrite lookup_ge_None_2 by lia. done. }
  destruct (lookup_lt_is_Some_2 l (Z.to_nat slot)) as [p Hp]; [lia|]. rewrite Hp. simpl.
  destruct (slot_read st s sh x l _ p L Hs Hx Hl Hp) as [Hca Hmem].
  apply wp_bind. eapply read_prop_spec; [done..|]. unfold live_prop.
  destruct (decide (p_type p = ANT_SHAPE_KEY_DELETED)) as [Hd|Hd].
  { step. split; [done|]. split; [done|]. left. rewrite decide_False by tauto. done. }
  rewrite decide_True by done. eapply wp_call; [by apply (prepare_metadata_spec st s sh)|].
  intros ok st1 (L1 & Hst1 & Href & Hsole). destruct ok; cbn [negb]; [|step; auto].
  destruct Hsole as (sh1 & x1 & Hsole & _); [done|]. pose proof Hsole as (Hs1 & Hx1 & Ho1 & Hc1).
  step. step. step. set (st2 := set_descs _ st1). set (x2 := set_may_have_gc_refs true x1).
  destruct (links_inplace st1 st2 (s_descriptors sh1) x1 x2) as [L2 Hst2]; try done.
  - apply (links_desc st1 L1 _ x1 Hx1).
  - intros o sho Ho E. destruct (links_same_table st1 o sho (s_descriptors sh1) x1) as (_ & _ & Hle & _); try done. simpl. lia.
  - split; [done|]. split; [by etrans|]. split; [|done]. exists sh1, x2. split_and!; try done. apply lookup_insert_eq.
Qed.

(** Rewriting a property through the pointer that [ant_shape_prop_mut_at] returns. *)
Lemma mut_at_spec st s l slot f :
  links st → slots st s = Some l → is_Some (shapes st !! s) → 0 <= slot →
  (∀ p, p_type (f p) = p_type p ∧ p_key (f p) = p_key p) →
  wp (ok ← ant_shape_prop_mut_at (Some s) slot;
      if negb ok then mret false
      else p ← read_prop s slot; write_prop s slot (f p) ;; ant_ic_epoch_bump ;; mret true) st (λ r st',
    if r then is_Some (prop_of l slot) ∧ changed st s (alter f (Z.to_nat slot) l) st'
    else links st' ∧ stable st st' ∧ (prop_of l slot = None ∨ refused)).
Proof.
  intros L Hl Hs Hslot Hf.
  eapply wp_call; [by apply (prop_mut_at_spec st s l)|]. intros [|] st1 (L1 & Hst1 & Hr); cbn [negb]; [|step; auto].
  destruct Hr as [(sh1 & x1 & Hsole) Hp]. rewrite <- (Z2Nat.id slot) by done.
  eapply wp_mono; [apply (rewrite_prop_spec st1 s sh1 x1 l (Z.to_nat slot) f); try done|].
  - by rewrite (proj2 Hst1).
  - by apply prop_of_lt.
  - intros r st2 [-> Hch]. rewrite Z2Nat.id by done. split; [done|]. by eapply changed_stable.
Qed.

(** [ant_shape_clear_accessor_slot] turns an accessor into a plain property. *)
Lemma clear_accessor_spec st s l slot :
  links st → slots st s = Some l → is_Some (shapes st !! s) → 0 <= slot →
  wp (ant_shape_clear_accessor_slot (Some s) slot) st (λ r st',
    if r then is_Some (prop_of l slot) ∧ changed st s (alter clear_accessor (Z.to_nat slot) l) st'
    else links st' ∧ stable st st' ∧ (prop_of l slot = None ∨ refused)).
Proof. intros. by apply (mut_at_spec st s l slot clear_accessor). Qed.

End Attributes.
