(* ===== verification/Descriptors.v ===== *)
(** * Property descriptors

    The part of src/src/descriptors.c that changes the property of a shape: a property gets the
    attributes of a descriptor and, when it describes an accessor, its functions.  The functions
    [js_set_descriptor], [js_set_getter_desc], [js_set_setter_desc], [js_set_accessor_desc] and
    those for symbols first see that the shape of the object has the name (a transition,
    [AddTr] of [ShapeClient]) and is the object's own ([Unique]), and then make this change through the
    pointer that [ant_shape_prop_mut_at] returns.  The registry for exotic objects is not
    modelled. *)

From stdpp Require Import gmap.
From S2P Require Import Prelude ShapeIndex ShapeModel ShapeLinks ShapeCopy ShapeProps ShapeAttrs.

(** ** The program *)

Definition JS_DESC_W : Z := 1.
Definition JS_DESC_E : Z := 2.
Definition JS_DESC_C : Z := 4.

Definition ANT_PROP_ATTR_WRITABLE : Z := 1.
Definition ANT_PROP_ATTR_ENUMERABLE : Z := 2.
Definition ANT_PROP_ATTR_CONFIGURABLE : Z := 4.

(** [mkval(kTypeUndefined, 0)]. *)
Definition js_mkundef : Z := 0xFFF0000000000000 |' (7 <<' 47).

Definition attrs_from_flags (flags : Z) (include_writable : bool) : Z :=
  let attrs := 0 in
  let attrs := if include_writable && negb (flags &' JS_DESC_W =? 0)
               then attrs |' ANT_PROP_ATTR_WRITABLE else attrs in
  let attrs := if negb (flags &' JS_DESC_E =? 0) then attrs |' ANT_PROP_ATTR_ENUMERABLE else attrs in
  if negb (flags &' JS_DESC_C =? 0) then attrs |' ANT_PROP_ATTR_CONFIGURABLE else attrs.

(** What is written through the pointer to the property. *)
Definition apply_shape_desc_update (prop : ant_shape_prop_t) (flags : Z) (include_writable : bool)
    (set_getter_flag has_getter : bool) (getter : Z) (set_setter_flag has_setter : bool) (setter : Z)
    : ant_shape_prop_t :=
  let prop := set_attrs (attrs_from_flags flags include_writable) prop in
  let prop :=
    if set_getter_flag
    then mk_prop (p_type prop) (p_key prop) (p_attrs prop) (if has_getter then 1 else 0)
           (p_has_setter prop) (if has_getter then getter else js_mkundef) (p_setter prop)
    else prop in
  if set_setter_flag
  then mk_prop (p_type prop) (p_key prop) (p_attrs prop) (p_has_getter prop)
         (if has_setter then 1 else 0) (p_getter prop) (if has_setter then setter else js_mkundef)
  else prop.

(** The four kinds of update that are made. *)
Inductive descriptor :=
  | DataDesc (flags : Z)
  | GetterDesc (getter flags : Z)
  | SetterDesc (setter flags : Z)
  | AccessorDesc (getter setter flags : Z).

Definition desc_update (d : descriptor) (prop : ant_shape_prop_t) : ant_shape_prop_t :=
  match d with
  | DataDesc flags =>
      apply_shape_desc_update prop flags true false false js_mkundef false false js_mkundef
  | GetterDesc getter flags =>
      apply_shape_desc_update prop flags false true true getter false false js_mkundef
  | SetterDesc setter flags =>
      apply_shape_desc_update prop flags false false false js_mkundef true true setter
  | AccessorDesc getter setter flags =>
      apply_shape_desc_update prop flags false true true getter true true setter
  end.

(** The end of [ensure_string_shape_prop] and the update: whether there was a property. *)
Definition describe_slot `{Allocator} (s : sid) (slot : Z) (d : descriptor) : SM bool :=
  ok ← ant_shape_prop_mut_at (Some s) slot;
  if negb ok then mret false
  else
    p ← read_prop s slot;
    write_prop s slot (desc_update d p) ;;
    ant_ic_epoch_bump ;;
    mret true.

(** ** What a descriptor asks for *)

Definition desc_flags (d : descriptor) : Z :=
  match d with
  | DataDesc flags | GetterDesc _ flags | SetterDesc _ flags | AccessorDesc _ _ flags => flags
  end.

(** The property afterwards: the bits of the flags are its attributes, an accessor is never
    writable, and the functions that were not given stay. *)
Definition described (d : descriptor) (p p' : ant_shape_prop_t) : Prop :=
  p_type p' = p_type p ∧ p_key p' = p_key p ∧
  (Z.testbit (p_attrs p') 0 = match d with DataDesc flags => Z.testbit flags 0 | _ => false end) ∧
  (Z.testbit (p_attrs p') 1 = Z.testbit (desc_flags d) 1) ∧
  (Z.testbit (p_attrs p') 2 = Z.testbit (desc_flags d) 2) ∧ 0 <= p_attrs p' < 8 ∧
  (p_has_getter p', p_getter p') =
    match d with
    | GetterDesc getter _ | AccessorDesc getter _ _ => (1, getter)
    | _ => (p_has_getter p, p_getter p)
    end ∧
  (p_has_setter p', p_setter p') =
    match d with
    | SetterDesc setter _ | AccessorDesc _ setter _ => (1, setter)
    | _ => (p_has_setter p, p_setter p)
    end.

Lemma flag_bit flags (k : Z) : 0 <= k → negb (flags &' (2 ^ k) =? 0) = Z.testbit flags k.
Proof.
  intros Hk. destruct (Z.testbit flags k) eqn:E.
  - rewrite (proj2 (Z.eqb_neq _ _)); [done|]. intros E0. apply (f_equal (λ z, Z.testbit z k)) in E0.
    by rewrite Z.land_spec, E, Z.pow2_bits_true, Z.bits_0 in E0 by done.
  - rewrite (proj2 (Z.eqb_eq _ _)); [done|]. apply Z.bits_inj'. intros i Hi.
    rewrite Z.land_spec, Z.bits_0. destruct (decide (i = k)) as [->|Hne]; [by rewrite E|].
    by rewrite (Z.pow2_bits_false k i), andb_false_r by done.
Qed.

(** The bits of the attributes. *)
Lemma attrs_from_flags_bits flags w :
  let a := attrs_from_flags flags w in
  Z.testbit a 0 = w && Z.testbit flags 0 ∧ Z.testbit a 1 = Z.testbit flags 1 ∧
  Z.testbit a 2 = Z.testbit flags 2 ∧ 0 <= a < 8.
Proof.
  unfold attrs_from_flags, JS_DESC_W, JS_DESC_E, JS_DESC_C.
  pose proof (flag_bit flags 0 ltac:(lia)) as E0. pose proof (flag_bit flags 1 ltac:(lia)) as E1.
  pose proof (flag_bit flags 2 ltac:(lia)) as E2.
  change (2 ^ 0) with 1 in E0. change (2 ^ 1) with 2 in E1. change (2 ^ 2) with 4 in E2.
  rewrite E0, E1, E2. clear E0 E1 E2.
  destruct w, (Z.testbit flags 0), (Z.testbit flags 1), (Z.testbit flags 2); vm_compute;
    repeat split; congruence.
Qed.

Lemma desc_update_spec d p : described d p (desc_update d p).
Proof.
  unfold described. destruct d as [flags|g flags|t flags|g t flags];
    cbn [desc_update apply_shape_desc_update desc_flags set_attrs p_type p_key p_attrs p_has_getter
         p_has_setter p_getter p_setter];
    destruct (attrs_from_flags_bits flags true) as (? & ? & ? & ?);
    destruct (attrs_from_flags_bits flags false) as (? & ? & ? & [? ?]).
  all: split_and!; done || lia.
Qed.

Section Describe.

Context `{Bounded}.

Lemma desc_update_key d p : p_type (desc_update d p) = p_type p ∧ p_key (desc_update d p) = p_key p.
Proof. destruct (desc_update_spec d p) as (? & ? & _). done. Qed.

(** The update of a slot, if it holds a property. *)
Lemma describe_slot_spec st s l slot d :
  links st → slots st s = Some l → is_Some (shapes st !! s) → 0 <= slot →
  wp (describe_slot s slot d) st (λ r st',
    if r then is_Some (prop_of l slot) ∧ changed st s (alter (desc_update d) (Z.to_nat slot) l) st'
    else links st' ∧ stable st st' ∧ (prop_of l slot = None ∨ refused)).
Proof. intros. apply (mut_at_spec st s l slot (desc_update d)); [done..|]. apply desc_update_key. Qed.

End Describe.
