(* ===== verification/ShapeCompact.v ===== *)
(** * Compacting a shape

    [ant_shape_compact] of src/src/shapes.c moves the live properties of a shape to the front,
    in order, and gives their keys the new slots in the index.  [compacting] is the invariant
    of its loop. *)

From stdpp Require Import gmap.
From S2P Require Import Prelude ShapeIndex ShapeModel ShapeLinks ShapeCopy ShapeProps.

Section Compacting.

(** The properties before, and the number of slots. *)
Context (mem0 : list ant_shape_prop_t) (cnt : nat).
Context (Hcnt : (cnt <= length mem0)%nat).
Context (Hprops : Forall prop_ok (take cnt mem0)) (Hdiff : keys_differ (take cnt mem0)).

(** Where key [k] is when the first [src] slots have been moved. *)
Definition spot (src : nat) (k s : Z) : Prop :=
  (∃ j p, s = Z.of_nat j ∧ live (take src mem0) !! j = Some p ∧ prop_key p = k) ∨
  (∃ i p, s = Z.of_nat i ∧ (src <= i < cnt)%nat ∧ mem0 !! i = Some p ∧ live_prop p ∧ prop_key p = k).

Record compacting (src : nat) (x : shape_descriptors_t) : Prop := mk_compacting {
  cp_len : length (d_props_mem x) = length mem0;
  cp_take : take (length (live (take src mem0))) (d_props_mem x) = live (take src mem0);
  cp_drop : drop src (d_props_mem x) = drop src mem0;
  cp_index : d_index x ≠ 0 ∧ d_index_mask x = zlen (d_index_mem x) - 1;
  cp_table : table_ok (d_index_mem x);
  cp_room : Z.of_nat (occupied (d_index_mem x)) <= d_index_used x ∧
    2 * d_index_used x < zlen (d_index_mem x) < 2 ^ 28;
  cp_has k s : live_key k → has (d_index_mem x) k s ↔ spot src k s
}.

Lemma live_take_S src p :
  mem0 !! src = Some p →
  live (take (S src) mem0) = live (take src mem0) ++ (if decide (live_prop p) then [p] else []).
Proof.
  intros Hp. rewrite (take_S_r mem0 src p Hp). unfold live. rewrite filter_app, filter_cons. by case_decide.
Qed.

Lemma live_take_le src : (length (live (take src mem0)) <= src)%nat.
Proof. unfold live. rewrite length_filter, length_take. lia. Qed.

(** A moved property came from a slot of its own. *)
Lemma live_take_origin src j p :
  live (take src mem0) !! j = Some p → ∃ i, (i < src)%nat ∧ mem0 !! i = Some p ∧ live_prop p.
Proof.
  intros Hj. apply list_elem_of_lookup_2, list_elem_of_filter in Hj as [Hl Hin].
  apply list_elem_of_lookup in Hin as (i & Hi). apply lookup_take_Some in Hi as [Hi Hlt]. eauto.
Qed.

Lemma spot_key_unique src p k s :
  (src < cnt)%nat → mem0 !! src = Some p → live_prop p →
  spot (S src) k s ↔
  (k = prop_key p ∧ s = Z.of_nat (length (live (take src mem0)))) ∨ (spot src k s ∧ k ≠ prop_key p).
Proof.
  intros Hsrc Hp Hl.
  assert (∀ i q, (i < cnt)%nat → i ≠ src → mem0 !! i = Some q → live_prop q → prop_key q ≠ prop_key p) as Hother.
  { intros i q Hi Hne Hq Hlq E. apply Hne. apply (Hdiff i src q p); try done; by apply lookup_take_Some. }
  assert (∀ j q, live (take src mem0) !! j = Some q → prop_key q ≠ prop_key p) as Hmoved.
  { intros j q Hj. apply live_take_origin in Hj as (i & Hi & Hq & Hlq). apply (Hother i q); try done; lia. }
  unfold spot. rewrite (live_take_S src p), decide_True by done. split.
  - intros [(j & q & -> & Hj & <-)|(i & q & -> & Hi & Hq & Hlq & <-)].
    + apply lookup_snoc_Some in Hj as [[Hj Hq]|[-> ->]]; [|by left].
      right. split; [by left; exists j, q|by eapply Hmoved].
    + right. split; [right; exists i, q; split_and!; done || lia|]. apply (Hother i q); try done; lia.
  - intros [[-> ->]|[[(j & q & -> & Hj & <-)|(i & q & -> & Hi & Hq & Hlq & <-)] Hne]].
    + left. exists (length (live (take src mem0))), p. by rewrite lookup_app_r, Nat.sub_diag by lia.
    + left. exists j, q. rewrite lookup_app_l; [done|]. by eapply lookup_lt_Some.
    + right. exists i, q. split_and!; try done; [|lia].
      destruct (decide (i = src)) as [->|]; [|lia]. destruct Hne. congruence.
Qed.

Lemma spot_skip src p k s :
  mem0 !! src = Some p → ¬ live_prop p → spot (S src) k s ↔ spot src k s.
Proof.
  intros Hp Hl. unfold spot. rewrite (live_take_S src p), decide_False, app_nil_r by done.
  split; (intros [?|(i & q & -> & Hi & Hq & Hlq & Hk)]; [by left|right]; exists i, q; split_and!; try done; try lia).
  destruct (decide (i = src)) as [->|]; [|lia]. rewrite Hp in Hq. by injection Hq as ->.
Qed.

Lemma compacting_lookup src x i : compacting src x → (src <= i)%nat → d_props_mem x !! i = mem0 !! i.
Proof.
  intros C Hi. replace i with (src + (i - src))%nat by lia.
  rewrite <- !lookup_drop. by rewrite (cp_drop src x C).
Qed.

(** A deleted slot is skipped. *)
Lemma compacting_skip src x p :
  compacting src x → mem0 !! src = Some p → ¬ live_prop p → compacting (S src) x.
Proof.
  intros C Hp Hl. pose proof (live_take_S src p Hp) as E. rewrite decide_False, app_nil_r in E by done.
  destruct C as [C1 C2 C3 C4 C5 C6 C7]. split; rewrite ?E; try done.
  - replace (S src) with (src + 1)%nat by lia. by rewrite <- !drop_drop, C3.
  - intros k s Hk. by rewrite (spot_skip src p), C7.
Qed.

(** A live property moves to the end of those moved so far. *)
Lemma compacting_move src x p pos sl mem :
  compacting src x → (src < cnt)%nat → mem0 !! src = Some p → live_prop p →
  let dst := length (live (take src mem0)) in
  d_index_mem x !! pos = Some (mk_entry (prop_key p) sl) →
  mem = (if decide (dst = src) then d_props_mem x else <[dst := p]> (d_props_mem x)) →
  compacting (S src)
    (set_d_props_mem mem (set_d_index_mem (<[pos := mk_entry (prop_key p) (Z.of_nat dst)]> (d_index_mem x)) x)).
Proof.
  intros C Hsrc Hp Hl dst Hpos Emem.
  pose proof (compacting_lookup src x src C ltac:(lia)) as Hcur. rewrite Hp in Hcur.
  assert (live_key (prop_key p)) as Hlk.
  { apply prop_key_live; [|done]. eapply Forall_lookup_1; [exact Hprops|]. by apply lookup_take_Some. }
  pose proof (live_take_le src) as Hdst. fold dst in Hdst.
  assert (length mem = length (d_props_mem x) ∧ take dst mem = take dst (d_props_mem x) ∧
    mem !! dst = Some p ∧ drop (S src) mem = drop (S src) (d_props_mem x)) as (M1 & M2 & M3 & M4).
  { pose proof (lookup_lt_Some _ _ _ Hcur). subst mem. case_decide as Ed; [by rewrite Ed|].
    rewrite length_insert, take_insert_ge, list_lookup_insert_eq, drop_insert_lt by lia. done. }
  destruct (index_reslot_spec (d_index_mem x) pos (prop_key p) sl (Z.of_nat dst))
    as (T1 & T2 & T3); [apply C|done|done|].
  destruct C as [C1 C2 C3 [C4 C4'] C5 [C6 C6'] C7].
  pose proof (live_take_S src p Hp) as E. rewrite decide_True in E by done.
  split; simpl; try (unfold zlen; rewrite length_insert); try done.
  - by rewrite M1.
  - rewrite E, length_app. simpl. fold dst. replace (dst + 1)%nat with (S dst) by lia.
    rewrite (take_S_r mem dst p M3), M2. unfold dst. by rewrite C2.
  - rewrite M4. replace (S src) with (src + 1)%nat by lia. by rewrite <- !drop_drop, C3.
  - unfold zlen in *. lia.
  - intros k s Hk. rewrite T3, (spot_key_unique src p), C7 by done. done.
Qed.

(** The key of the next property is in the index. *)
Lemma compacting_found src x p count :
  compacting src x → (src < cnt)%nat → mem0 !! src = Some p → live_prop p → count = Z.of_nat cnt →
  ∃ pos sl, index_lookup (d_index_mem x) (d_index_mask x) count (prop_key p) = Ok (Some pos) ∧
    d_index_mem x !! pos = Some (mk_entry (prop_key p) sl).
Proof.
  intros C Hsrc Hp Hl ->.
  assert (live_key (prop_key p)) as Hlk.
  { apply prop_key_live; [|done]. eapply Forall_lookup_1; [exact Hprops|]. by apply lookup_take_Some. }
  assert (spot src (prop_key p) (Z.of_nat src)) as Hspot by (right; exists src, p; split_and!; done || lia).
  apply (cp_has src x C) in Hspot; [|done]. destruct C as [_ _ _ [_ Hm] Htok [Hocc Hr] _].
  destruct (index_lookup_spec (d_index_mem x) (Z.of_nat cnt) (prop_key p))
    as (r & E & Hres); [done|unfold zlen in *; lia|done|].
  rewrite Hm, E. destruct r as [pos|].
  - destruct Hres as (sl & ? & _). by exists pos, sl.
  - specialize (Hres _ Hspot). lia.
Qed.

End Compacting.

(** A table whose arrays were written in place. *)
Definition rewritten (x : shape_descriptors_t) (mem : list ant_shape_prop_t)
    (tab : list shape_index_entry_t) : shape_descriptors_t :=
  set_d_props_mem mem (set_d_index_mem tab x).

Lemma set_descs_same st d x : descs st !! d = Some x → set_descs (<[d := x]> (descs st)) st = st.
Proof. intros Hx. rewrite insert_id by done. by destruct st. Qed.

Lemma compact_loop_spec mem0 cnt s sh n :
  (cnt <= length mem0)%nat → Forall prop_ok (take cnt mem0) → keys_differ (take cnt mem0) →
  s_count sh = Z.of_nat cnt → ∀ st src x (Q : Z → state → Prop),
  shapes st !! s = Some sh → descs st !! s_descriptors sh = Some x → caches sh x →
  (src + n = cnt)%nat → compacting mem0 cnt src x →
  (∀ mem tab, compacting mem0 cnt cnt (rewritten x mem tab) →
     Q (Z.of_nat (length (live (take cnt mem0))))
       (set_descs (<[s_descriptors sh := rewritten x mem tab]> (descs st)) st)) →
  wp (compact_loop n s (Z.of_nat src) (Z.of_nat (length (live (take src mem0))))) st Q.
Proof.
  intros Hcnt Hprops Hdiff Hsc. induction n as [|n IH]; intros st src x Q Hs Hx Hca Hn C HQ.
  { assert (src = cnt) as -> by lia. cbn [compact_loop]. step. specialize (HQ (d_props_mem x) (d_index_mem x)).
    unfold rewritten in HQ. replace (set_d_props_mem _ _) with x in HQ by (by destruct x).
    rewrite set_descs_same in HQ by done. by apply HQ. }
  destruct (lookup_lt_is_Some_2 mem0 src) as [p Hp]; [lia|]. cbn [compact_loop]. apply wp_bind.
  pose proof Hca as (Hc1 & Hc2 & Hc3).
  eapply read_prop_spec; [done|done|done| |].
  { rewrite Nat2Z.id. rewrite (compacting_lookup mem0 cnt Hcnt src x) by (done || lia). done. }
  replace (Z.of_nat src + 1) with (Z.of_nat (S src)) by lia.
  pose proof (live_take_S mem0 src p Hp) as El. destruct (decide (p_type p = ANT_SHAPE_KEY_DELETED)) as [Ht|Ht].
  - assert (¬ live_prop p) as Hl by (unfold live_prop; tauto).
    rewrite decide_False, app_nil_r in El by done. rewrite <- El.
    apply (IH st (S src) x); try done; [lia|]. by eapply compacting_skip.
  - rewrite decide_True in El by done. set (dst := length (live (take src mem0))) in *.
    destruct (compacting_found mem0 cnt Hcnt Hprops src x p (s_count sh)) as (pos & sl & Ef & Epos); try done; [lia|].
    assert (wp (shape_lookup (Some s) (prop_key p)) st (λ r st', r = Some (pos, sl) ∧ st' = st)) as Hlook.
    { unfold shape_lookup. step. rewrite Hc2. destruct (Z.eqb_spec (d_index x) 0) as [E0|_];
        [by destruct (proj1 (cp_index _ _ _ _ C))|].
      assert (shape_index sh x = Ok (d_index_mem x)) as Ei by (unfold shape_index; by rewrite Hc2, Z.eqb_refl).
      step. step. rewrite Hc3. step. rewrite Epos. cbv beta iota. by step. }
    eapply wp_call; [exact Hlook|]. intros r st0 [-> ->]. apply wp_bind.
    eapply write_entry_spec; [done|done|done|by eapply lookup_lt_Some|].
    set (tab := <[pos := _]> (d_index_mem x)). set (x1 := set_d_index_mem tab x).
    set (mem := if decide (dst = src) then d_props_mem x else <[dst := p]> (d_props_mem x)).
    assert (compacting mem0 cnt (S src) (rewritten x mem tab)) as C'.
    { eapply compacting_move; try done. lia. }
    assert (Z.of_nat dst + 1 = Z.of_nat (length (live (take (S src) mem0)))) as Edst
      by (rewrite El, length_app; simpl; lia).
    rewrite Edst.
    assert (wp (compact_loop n s (Z.of_nat (S src)) (Z.of_nat (length (live (take (S src) mem0)))))
      (set_descs (<[s_descriptors sh := rewritten x mem tab]> (descs st)) st) Q) as Hnext.
    { apply (IH _ (S src) (rewritten x mem tab)); try done; [simpl; apply lookup_insert_eq|lia|].
      intros mem' tab' C''. simpl. rewrite insert_insert_eq. apply (HQ mem' tab' C''). }
    destruct (Z.eqb_spec (Z.of_nat dst) (Z.of_nat src)) as [Ed|Ed].
    + step. revert Hnext. unfold mem, rewritten. rewrite decide_True by lia.
      replace (set_d_props_mem (d_props_mem x) (set_d_index_mem tab x)) with x1 by (by destruct x). done.
    + apply wp_bind. eapply write_prop_spec; [done|simpl; apply lookup_insert_eq|done| |].
      { rewrite Nat2Z.id. simpl. rewrite (cp_len _ _ _ _ C). pose proof (live_take_le mem0 cnt Hcnt src). lia. }
      revert Hnext. unfold mem, rewritten. rewrite decide_False by lia. simpl.
      by rewrite Nat2Z.id, insert_insert_eq.
Qed.

Lemma zero_props_spec n s sh : ∀ st i x (Q : unit → state → Prop),
  shapes st !! s = Some sh → descs st !! s_descriptors sh = Some x → s_props sh = d_props x →
  (i + n <= length (d_props_mem x))%nat →
  (∀ mem, length mem = length (d_props_mem x) → take i mem = take i (d_props_mem x) →
     Q tt (set_descs (<[s_descriptors sh := set_d_props_mem mem x]> (descs st)) st)) →
  wp (zero_props n s (Z.of_nat i)) st Q.
Proof.
  induction n as [|n IH]; intros st i x Q Hs Hx Hc Hlen HQ; cbn [zero_props].
  { step. specialize (HQ (d_props_mem x) eq_refl eq_refl).
    replace (set_d_props_mem _ x) with x in HQ by (by destruct x). by rewrite set_descs_same in HQ. }
  apply wp_bind. eapply write_prop_spec; [done|done|done|lia|]. rewrite Nat2Z.id.
  replace (Z.of_nat i + 1) with (Z.of_nat (S i)) by lia.
  eapply (IH _ (S i)); [done|simpl; apply lookup_insert_eq|done|simpl; rewrite length_insert; lia|].
  intros mem Hl Ht. simpl in *. rewrite length_insert in Hl. rewrite insert_insert_eq. apply HQ; [done|].
  apply (f_equal (take i)) in Ht. rewrite !take_take, !Nat.min_l in Ht by lia.
  by rewrite take_insert_ge in Ht.
Qed.

Lemma deleted_live l : deleted (live l) = 0%nat.
Proof.
  unfold deleted, live. induction l as [|p l IH]; [done|]. rewrite (filter_cons live_prop).
  case_decide; [|done]. by rewrite filter_cons_False by tauto.
Qed.

(** Without deleted slots there is nothing to do. *)
Lemma live_all l : deleted l = 0%nat → live l = l.
Proof.
  intros Hd. apply filter_Forall_id, Forall_forall. intros p Hp. apply dec_stable. intros Hn.
  apply nil_length_inv in Hd. apply (not_elem_of_nil p). rewrite <- Hd.
  by apply list_elem_of_filter.
Qed.

Lemma spot_start mem0 cnt k s : spot mem0 cnt 0 k s ↔ key_at mem0 cnt k s.
Proof.
  unfold spot, key_at. split.
  - intros [(j & p & _ & Hj & _)|(i & p & -> & Hi & Hp & Hl & Hk)]; [done|].
    exists i, p. split_and!; done || lia.
  - intros (i & p & -> & Hi & Hp & Hl & Hk). right. exists i, p. split_and!; done || lia.
Qed.

Lemma compacting_start x :
  desc_ok x → d_count x ≠ 0 → compacting (d_props_mem x) (Z.to_nat (d_count x)) 0 x.
Proof.
  intros (Hc & Hcap & [(_ & _ & _ & _ & ?)|(Hi & Htok & Hm & Hocc & Hr)] & Hhas & Hprops) Hne; [done|].
  split; try done. intros k s Hk. by rewrite spot_start, Hhas.
Qed.

(** The table when the loop is done and the rest is zeroed. *)
Lemma compacted_ok x mem tab mem' :
  let l := take (Z.to_nat (d_count x)) (d_props_mem x) in
  let n := length (live l) in
  desc_ok x → compacting (d_props_mem x) (Z.to_nat (d_count x)) (Z.to_nat (d_count x)) (rewritten x mem tab) →
  length mem' = length mem → take n mem' = take n mem →
  desc_ok (set_d_count (Z.of_nat n) (set_d_props_mem mem' (rewritten x mem tab))) ∧
  take n mem' = live l.
Proof.
  intros l n (Hc & Hcap & Hidx & Hhas & Hprops) C Hlen Htake.
  destruct C as [C1 C2 C3 [C4 C4'] C5 C6 C7]. simpl in *. fold l n in C2. rewrite C2 in Htake.
  assert (n <= Z.to_nat (d_count x))%nat as Hn.
  { unfold n, live. rewrite length_filter. unfold l. rewrite length_take. lia. }
  split; [|done]. unfold zlen in *. split; [simpl; unfold zlen; lia|]. split; [simpl; unfold zlen; lia|].
  split; [right; simpl; unfold zlen; split_and!; done || lia|]. simpl. rewrite Nat2Z.id, Htake.
  split; [|apply Forall_forall; intros p Hp; apply list_elem_of_filter in Hp as [_ Hp];
    rewrite Forall_forall in Hprops; by apply Hprops].
  intros k s Hk. rewrite C7 by done. fold l. rewrite <- (key_at_take mem' n n), Htake by lia. split.
  - intros [(j & p & -> & Hj & Hkp)|(i & p & _ & Hi & _)]; [|lia]. fold l in Hj.
    pose proof (lookup_lt_Some _ _ _ Hj) as Hlt. fold n in Hlt.
    exists j, p. split_and!; try done. by apply list_elem_of_lookup_2, list_elem_of_filter in Hj as [? _].
  - intros (j & p & -> & Hj & Hp & Hl & Hkp). left. by exists j, p.
Qed.

Section Compact.

Context `{Bounded}.

(** [ant_shape_compact] keeps the properties, in order, and nothing else. *)
Lemma compact_spec st s l :
  links st → is_Some (shapes st !! s) → slots st s = Some l →
  wp (ant_shape_compact (Some s)) st (λ r st',
    (changed st s (live l) st' ∧ r = zlen (live l)) ∨
    (links st' ∧ stable st st' ∧ r = zlen l ∧ refused)).
Proof.
  intros L [sh Hs] Hl. destruct (slots_length st s sh l L Hs Hl) as (Hzl & Hc & Hdc).
  unfold ant_shape_compact. step. destruct (Z.eqb_spec (s_deleted_count sh) 0) as [E0|E0].
  { step. left. rewrite live_all by lia. by split. }
  eapply wp_call; [by apply (prepare_metadata_spec st s sh)|].
  intros ok st1 (L1 & Hst1 & Href & Hsole). destruct ok; cbn [negb].
  2: { destruct (shapes st1 !! s) as [sh1|] eqn:Es1.
    - step. step. right. split; [done|]. split; [done|]. split; [|by apply Href].
      destruct (slots_length st1 s sh1 l) as (-> & _); [done|done|by rewrite (proj2 Hst1)|done].
    - destruct Hst1 as [[_ Ht] _]. specialize (Ht s). by rewrite Es1, Hs in Ht. }
  destruct Hsole as (sh1 & x1 & Hsole & Hc1 & _); [done|]. pose proof Hsole as (Hs1 & Hx1 & Ho1 & Hd1).
  assert (slots st1 s = Some l) as Hl1 by (by rewrite (proj2 Hst1)).
  destruct (slots_sole st1 s sh1 x1 l Hsole L1 Hl1) as (El & _ & _ & Hlk & Hok).
  assert (l = take (Z.to_nat (d_count x1)) (d_props_mem x1)) as El' by (by rewrite Hd1).
  assert (d_count x1 ≠ 0) as Hne.
  { intros E. rewrite E in El'. rewrite El' in Hdc. by rewrite Hdc in E0. }
  pose proof Hlk as (_ & Hcs & Hca & _). pose proof Hok as (Hcx & Hcap & _ & _ & Hprops).
  apply wp_bind. rewrite <- Hc1, <- Hd1. change 0 with (Z.of_nat 0) at 1.
  change 0 with (Z.of_nat (length (live (take 0 (d_props_mem x1))))).
  apply (compact_loop_spec (d_props_mem x1) (Z.to_nat (d_count x1)) s sh1) with x1; try done.
  - unfold zlen in *. lia.
  - by apply desc_ok_differ.
  - lia.
  - by apply compacting_start.
  - intros mem tab C. rewrite <- El'. set (n := length (live l)).
    assert (n <= Z.to_nat (d_count x1))%nat as Hn.
    { unfold n, live. rewrite length_filter, El', length_take. lia. }
    apply wp_bind. eapply zero_props_spec; [exact Hs1|simpl; apply lookup_insert_eq|apply Hca| |].
    { simpl. pose proof (cp_len _ _ _ _ C) as Hlen. simpl in Hlen. rewrite Hlen. unfold zlen in *. lia. }
    intros mem' Hlen' Htake'. simpl in Hlen', Htake'.
    destruct (compacted_ok x1 mem tab mem') as [Hok' Hlive]; [done|done|done|by rewrite <- El'|].
    rewrite <- El' in Hok', Hlive. fold n in Hok', Hlive. apply wp_bind.
    eapply wp_upd_shape; [exact Hs1|]. apply wp_bind.
    eapply wp_get_shape; [simpl; apply lookup_insert_eq|]. apply wp_bind.
    eapply wp_upd_desc; [simpl; apply lookup_insert_eq|]. step. left.
    set (x' := set_d_count _ _) in *. set (sh' := set_s_deleted_count 0 (set_s_count (Z.of_nat n) sh1)). set (st' := set_descs _ _).
    assert (view (s_count sh') x' = live l) as Hv by (unfold view; simpl; by rewrite Nat2Z.id).
    destruct (links_update_sole st1 st' s sh1 sh' x1 x') as (L' & Hsl & Hoth); try done.
    + split; [change (s ∈ owners x1); rewrite Ho1; left|]. split; [simpl; lia|]. split; [done|].
      rewrite Hv, deleted_live. done.
    + simpl. by rewrite !insert_insert_eq.
    + split; [|done]. eapply changed_stable; [exact Hst1|]. split; [done|].
      split; [|split; [by rewrite Hsl, Hv|done]]. by eapply (tree_frame_insert _ _ s sh1 sh').
Qed.

End Compact.
