(* ===== verification/ShapeTree.v ===== *)
(** * The transition tree and reference counts

    Shapes hold references to the shapes their transitions lead to, the root table holds the
    roots, and clients hold the rest.  [tree_ok] says that the links of the tree agree in both
    directions and that the reference count of each shape is the number of references to it:
    [held] is the multiset of references in the hands of clients.  [dying] are the shapes that
    [shape_destroy] is in the middle of freeing.

    Retaining, releasing, recording and removing transitions of src/src/shapes.c keep it: no
    shape is freed while there is a reference to it, none is used after it is freed, and a
    shape whose last reference goes is freed. *)

From stdpp Require Import gmap gmultiset.
From S2P Require Import Prelude ShapeIndex ShapeModel ShapeLinks ShapeCopy.

(** ** The invariant *)

(** The transitions of a shape: [first_child] and the table of children. *)
Definition kids (sh : ant_shape_t) : list (Z * sid) :=
  match s_first_child sh with
  | Some c => (s_first_child_key sh, c) :: s_children sh
  | None => s_children sh
  end.

(** References from the parent and from the root table. *)
Definition tree_refs (roots : list (option sid)) (s : sid) (sh : ant_shape_t) : Z :=
  (if s_parent sh is Some _ then 1 else 0) + (if decide (Some s ∈ roots) then 1 else 0).

Record tree_ok (held : gmultiset sid) (dying : gset sid) (st : state) : Prop := mk_tree_ok {
  t_kid s sh k c : shapes st !! s = Some sh → s ∉ dying → (k, c) ∈ kids sh →
    (s < c)%nat ∧ ∃ shc, shapes st !! c = Some shc ∧ s_parent shc = Some s ∧ s_parent_key shc = k;
  t_keys s sh : shapes st !! s = Some sh → NoDup (kids sh).*1;
  t_parent s sh p : shapes st !! s = Some sh → s_parent sh = Some p →
    ∃ shp, shapes st !! p = Some shp ∧ (s_parent_key sh, s) ∈ kids shp;
  t_refs s sh : shapes st !! s = Some sh →
    s_ref_count sh = Z.of_nat (multiplicity s held) + tree_refs (g_root_shapes st) s sh ∧
    s_ref_count sh < 2 ^ 32 ∧ (s ∉ dying → 0 < s_ref_count sh);
  t_held s : s ∈ held → is_Some (shapes st !! s);
  t_roots i r : g_root_shapes st !! i = Some (Some r) →
    ∃ sh, shapes st !! r = Some sh ∧ s_parent sh = None ∧ s_inobj_limit sh = Z.of_nat i;
  t_nroots : length (g_root_shapes st) = 5%nat
}.

(** ** What of a shape the tree sees *)

Lemma kids_tree sh sh' : tree_of sh' = tree_of sh → kids sh' = kids sh.
Proof. intros [= _ _ _ _ E1 E2 E3 _ _]. unfold kids. by rewrite E1, E2, E3. Qed.

Lemma tree_lookup st st' s sh' :
  tree_of <$> shapes st' !! s = tree_of <$> shapes st !! s → shapes st' !! s = Some sh' →
  ∃ sh, shapes st !! s = Some sh ∧ tree_of sh' = tree_of sh.
Proof.
  intros E E'. rewrite E' in E. destruct (shapes st !! s) as [sh|]; [|done]. exists sh.
  split; [done|]. by apply (inj Some) in E.
Qed.

Lemma tree_refs_tree roots s sh sh' : tree_of sh' = tree_of sh → tree_refs roots s sh' = tree_refs roots s sh.
Proof. intros [= _ _ _ _ _ _ _ E _]. unfold tree_refs. by rewrite E. Qed.

Lemma tree_ok_frame held dying st st' : tree_ok held dying st → tree_frame st st' → tree_ok held dying st'.
Proof.
  intros T [(Hr & _) Hf].
  assert (∀ s sh', shapes st' !! s = Some sh' → ∃ sh, shapes st !! s = Some sh ∧ tree_of sh' = tree_of sh) as Hb.
  { intros s sh'. apply tree_lookup, Hf. }
  assert (∀ s sh, shapes st !! s = Some sh → ∃ sh', shapes st' !! s = Some sh' ∧ tree_of sh' = tree_of sh) as Hfw.
  { intros s sh E. destruct (tree_lookup st' st s sh) as (sh' & ? & ?); [done|done|]. by exists sh'. }
  split.
  - intros s sh' k c E Hs Hk. destruct (Hb s sh' E) as (sh & E0 & Et). rewrite (kids_tree _ _ Et) in Hk.
    destruct (t_kid _ _ _ T s sh k c E0 Hs Hk) as (Hlt & shc & Ec & Hp & Hpk).
    destruct (Hfw c shc Ec) as (shc' & Ec' & Etc). split; [done|]. exists shc'.
    injection Etc as _ _ _ _ _ _ _ E1 E2. split; [done|]. by rewrite E1, E2.
  - intros s sh' E. destruct (Hb s sh' E) as (sh & E0 & Et). rewrite (kids_tree _ _ Et).
    by apply (t_keys _ _ _ T s).
  - intros s sh' p E Hp. destruct (Hb s sh' E) as (sh & E0 & Et). pose proof Et as [= _ _ _ _ _ _ _ E1 E2].
    rewrite E1 in Hp. destruct (t_parent _ _ _ T s sh p E0 Hp) as (shp & Ep & Hin).
    destruct (Hfw p shp Ep) as (shp' & Ep' & Etp). exists shp'. split; [done|].
    by rewrite (kids_tree _ _ Etp), E2.
  - intros s sh' E. destruct (Hb s sh' E) as (sh & E0 & Et). pose proof Et as [= E1 _ _ _ _ _ _ _ _].
    rewrite Hr, (tree_refs_tree _ _ _ _ Et), E1. by apply (t_refs _ _ _ T s).
  - intros s Hs. destruct (t_held _ _ _ T s Hs) as [sh E]. destruct (Hfw s sh E) as (sh' & ? & _). by exists sh'.
  - intros i r. rewrite Hr. intros Hi. destruct (t_roots _ _ _ T i r Hi) as (sh & E & Hp & Hl).
    destruct (Hfw r sh E) as (sh' & E' & Et). injection Et as _ E1 _ _ _ _ _ E2 _. exists sh'.
    split; [done|]. by rewrite E1, E2.
  - rewrite Hr. apply T.
Qed.

(** A child has one parent, and one key. *)
Lemma kid_unique held dying st s sh s' sh' k k' c :
  tree_ok held dying st → shapes st !! s = Some sh → s ∉ dying → (k, c) ∈ kids sh →
  shapes st !! s' = Some sh' → s' ∉ dying → (k', c) ∈ kids sh' → s = s' ∧ k = k'.
Proof.
  intros T E Hs Hk E' Hs' Hk'. destruct (t_kid _ _ _ T s sh k c E Hs Hk) as (_ & shc & Ec & Hp & Hpk).
  destruct (t_kid _ _ _ T s' sh' k' c E' Hs' Hk') as (_ & shc' & Ec' & Hp' & Hpk'). split; congruence.
Qed.

(** The operations below change only the tree: tables and slots stay. *)
Definition same_tables (st st' : state) : Prop :=
  (∀ s, link_of <$> shapes st' !! s = link_of <$> shapes st !! s) ∧ descs st' = descs st ∧
  quiet st st'.

Lemma same_tables_links st st' :
  links st → same_tables st st' → links st' ∧ ∀ s, slots st' s = slots st s.
Proof. intros L (Hl & Hd & Hq). by apply links_frame; [| | |apply Hq]. Qed.

Lemma same_tables_insert st st' s sh sh' :
  shapes st !! s = Some sh → link_of sh' = link_of sh → shapes st' = <[s := sh']> (shapes st) →
  descs st' = descs st → quiet st st' → same_tables st st'.
Proof.
  intros Hs Hl E Hd Hq. split; [|done]. intros o. rewrite E.
  destruct (decide (s = o)) as [<-|Hne]; [rewrite lookup_insert_eq, Hs; simpl; by f_equal|].
  by rewrite lookup_insert_ne.
Qed.

#[global] Instance same_tables_preorder : PreOrder same_tables.
Proof.
  split; [by intros st|]. intros st1 st2 st3 (H1 & D1 & Q1) (H2 & D2 & Q2).
  split; [intros s; by rewrite H2|]. split; [congruence|by etrans].
Qed.

(** ** Changes of reference counts *)

(** The links of the tree, without the reference counts. *)
Definition shape_links_of (sh : ant_shape_t) :=
  (kids sh, s_parent sh, s_parent_key sh, s_inobj_limit sh).

Lemma tree_ok_refs held held' dying dying' st st' :
  tree_ok held dying st → dying ⊆ dying' → g_root_shapes st' = g_root_shapes st →
  (∀ o, shape_links_of <$> shapes st' !! o = shape_links_of <$> shapes st !! o) →
  (∀ o sh', shapes st' !! o = Some sh' →
     s_ref_count sh' = Z.of_nat (multiplicity o held') + tree_refs (g_root_shapes st) o sh' ∧
     s_ref_count sh' < 2 ^ 32 ∧ (o ∉ dying' → 0 < s_ref_count sh')) →
  (∀ o, o ∈ held' → is_Some (shapes st !! o)) →
  tree_ok held' dying' st'.
Proof.
  intros T Hdy Hr Hf Hrefs Hheld.
  assert (∀ st1 st2 s sh, shape_links_of <$> shapes st1 !! s = shape_links_of <$> shapes st2 !! s →
    shapes st1 !! s = Some sh → ∃ sh0, shapes st2 !! s = Some sh0 ∧ shape_links_of sh = shape_links_of sh0) as Hlk.
  { intros st1 st2 s sh E E'. rewrite E' in E. destruct (shapes st2 !! s) as [sh0|]; [|done].
    exists sh0. split; [done|]. by apply (inj Some) in E. }
  pose proof (λ s sh, Hlk st' st s sh (Hf s)) as Hb.
  pose proof (λ s sh, Hlk st st' s sh (eq_sym (Hf s))) as Hfw. clear Hlk.
  split.
  - intros s sh' k c E Hs Hk. destruct (Hb s sh' E) as (sh & E0 & [= Ek _ _ _]). rewrite Ek in Hk.
    destruct (t_kid _ _ _ T s sh k c E0 (λ H, Hs (Hdy s H)) Hk) as (Hlt & shc & Ec & Hp & Hpk).
    destruct (Hfw c shc Ec) as (shc' & Ec' & [= _ E1 E2 _]). split; [done|]. exists shc'.
    split; [done|]. by rewrite <- E1, <- E2.
  - intros s sh' E. destruct (Hb s sh' E) as (sh & E0 & [= -> _ _ _]). by apply (t_keys _ _ _ T s).
  - intros s sh' p E Hp. destruct (Hb s sh' E) as (sh & E0 & [= _ E1 E2 _]).
    rewrite E1 in Hp. destruct (t_parent _ _ _ T s sh p E0 Hp) as (shp & Ep & Hin).
    destruct (Hfw p shp Ep) as (shp' & Ep' & [= Ek _ _ _]). exists shp'. split; [done|].
    by rewrite <- Ek, E2.
  - intros s sh' E. rewrite Hr. by apply Hrefs.
  - intros s Hs. destruct (Hheld s Hs) as [sh E]. destruct (Hfw s sh E) as (sh' & ? & _). by exists sh'.
  - intros i r. rewrite Hr. intros Hi. destruct (t_roots _ _ _ T i r Hi) as (sh & E & Hp & Hl).
    destruct (Hfw r sh E) as (sh' & E' & [= _ E1 _ E2]). exists sh'. split; [done|]. by rewrite <- E1, <- E2.
  - rewrite Hr. apply T.
Qed.

(** The reference count of one shape becomes [n]. *)
Lemma tree_ok_set_refs held held' dying dying' st st' s sh n :
  tree_ok held dying st → dying ⊆ dying' → shapes st !! s = Some sh →
  shapes st' = <[s := set_s_ref_count n sh]> (shapes st) → g_root_shapes st' = g_root_shapes st →
  (∀ o, o ≠ s → multiplicity o held' = multiplicity o held) →
  n - s_ref_count sh = Z.of_nat (multiplicity s held') - Z.of_nat (multiplicity s held) →
  n < 2 ^ 32 → (s ∉ dying' → 0 < n) →
  tree_ok held' dying' st'.
Proof.
  intros T Hdy Hs Hsh Hr Hm Hn Hb Hpos. eapply tree_ok_refs; try done.
  - intros o. rewrite Hsh. destruct (decide (s = o)) as [<-|Hne].
    + rewrite lookup_insert_eq, Hs. done.
    + by rewrite lookup_insert_ne.
  - intros o sh'. rewrite Hsh, lookup_insert_Some. intros [[<- <-]|[Hne E]].
    + destruct (t_refs _ _ _ T s sh Hs) as (H1 & _ & _). simpl.
      change (tree_refs _ s (set_s_ref_count n sh)) with (tree_refs (g_root_shapes st) s sh).
      split_and!; [lia|done|done].
    + destruct (t_refs _ _ _ T o sh' E) as (H1 & H2 & H3). rewrite Hm by done.
      split_and!; [done|done|]. intros Ho. apply H3. set_solver.
  - intros o Ho. destruct (decide (o = s)) as [->|Hne]; [eauto|]. apply (t_held _ _ _ T).
    apply elem_of_multiplicity. rewrite <- Hm by done. by apply elem_of_multiplicity.
Qed.

(** [ant_shape_retain]. *)
Lemma retain_spec held st s sh :
  links st → tree_ok held ∅ st → shapes st !! s = Some sh → s_ref_count sh < 2 ^ 32 - 1 →
  wp (ant_shape_retain (Some s)) st (λ _ st',
    links st' ∧ tree_ok ({[+ s +]} ⊎ held) ∅ st' ∧ quiet st st' ∧ (∀ o, slots st' o = slots st o) ∧
    shapes st' = <[s := set_s_ref_count (s_ref_count sh + 1) sh]> (shapes st)).
Proof.
  intros L T Hs Hb. destruct (t_refs _ _ _ T s sh Hs) as (H1 & _ & Hpos).
  specialize (Hpos (not_elem_of_empty s)). unfold ant_shape_retain. step.
  rewrite u32_small by lia. set (st' := set_shapes _ st).
  destruct (same_tables_links st st' L) as [L' Hsl].
  { by apply (same_tables_insert st st' s sh (set_s_ref_count (s_ref_count sh + 1) sh)). }
  split; [done|]. split; [|done].
  eapply (tree_ok_set_refs held _ ∅ ∅ st st' s sh (s_ref_count sh + 1)); try done; try lia.
  - intros o Ho. rewrite multiplicity_disj_union, multiplicity_singleton_ne by done. done.
  - rewrite multiplicity_disj_union, multiplicity_singleton_eq. lia.
Qed.

(** ** Changes of the links *)

(** Shapes [s] and [c] become [shs'] and [shc']. *)
Lemma lookup_two (m : gmap sid ant_shape_t) s c shs' shc' o sho :
  <[c := shc']> (<[s := shs']> m) !! o = Some sho →
  (o = c ∧ sho = shc') ∨ (o ≠ c ∧ o = s ∧ sho = shs') ∨ (o ≠ c ∧ o ≠ s ∧ m !! o = Some sho).
Proof.
  rewrite !lookup_insert_Some. intros [[<- <-]|[Hc [[<- <-]|[Hs E]]]]; [by left|right; left|right; right]; auto.
Qed.

(** A child leaves its parent [s]; its reference now belongs to the caller.  A parent that is
    being freed may still have the entry. *)
Lemma tree_ok_cut held dying st st' s shs shs' c shc k :
  tree_ok held dying st → shapes st !! s = Some shs → shapes st !! c = Some shc → s ≠ c →
  s_parent shc = Some s → s_parent_key shc = k →
  (∀ e, e ∈ kids shs' → e ∈ kids shs ∧ (s ∉ dying → e ≠ (k, c))) →
  (∀ e, e ∈ kids shs → e ≠ (k, c) → e ∈ kids shs') → NoDup (kids shs').*1 →
  s_parent shs' = s_parent shs → s_parent_key shs' = s_parent_key shs →
  s_ref_count shs' = s_ref_count shs → s_inobj_limit shs' = s_inobj_limit shs →
  shapes st' = <[c := set_s_parent None shc]> (<[s := shs']> (shapes st)) →
  g_root_shapes st' = g_root_shapes st →
  tree_ok ({[+ c +]} ⊎ held) dying st'.
Proof.
  intros T Hs Hc Hne Hpc Hkc Hsub Hkeep Hnd P1 P2 P3 P4 Hsh Hr.
  assert (∀ o sho, o ≠ c → o ≠ s → shapes st !! o = Some sho → shapes st' !! o = Some sho) as Hother.
  { intros o sho Ho Ho' E. by rewrite Hsh, !lookup_insert_ne. }
  assert (shapes st' !! s = Some shs') as Hs' by (by rewrite Hsh, lookup_insert_ne, lookup_insert_eq).
  assert (shapes st' !! c = Some (set_s_parent None shc)) as Hc' by (by rewrite Hsh, lookup_insert_eq).
  assert (Some c ∉ g_root_shapes st) as Hnr.
  { intros (i & Hi)%list_elem_of_lookup. destruct (t_roots _ _ _ T i c Hi) as (sh & E & Hp & _). congruence. }
  split.
  - intros o sho k' d E Ho Hk.
    assert (∃ sho0, shapes st !! o = Some sho0 ∧ (k', d) ∈ kids sho0 ∧ (o = s → (k', d) ≠ (k, c)))
      as (sho0 & E0 & Hk0 & Hcut).
    { rewrite Hsh in E. apply lookup_two in E as [[-> ->]|[(_ & -> & ->)|(Hoc & Hos & E)]].
      - exists shc. by split_and!.
      - exists shs. destruct (Hsub _ Hk) as [? Hx]. split_and!; auto.
      - exists sho. by split_and!. }
    destruct (t_kid _ _ _ T o sho0 k' d E0 Ho Hk0) as (Hlt & shd & Ed & Hp & Hpk). split; [done|].
    destruct (decide (d = c)) as [->|Hdc].
    { assert (o = s) as -> by congruence. destruct Hcut; [done|]. congruence. }
    destruct (decide (d = s)) as [->|Hds].
    + exists shs'. split; [done|]. rewrite P1, P2. split; congruence.
    + exists shd. by split; [apply Hother|].
  - intros o sho E. rewrite Hsh in E. apply lookup_two in E as [[-> ->]|[(_ & -> & ->)|(_ & _ & E)]].
    + change (kids (set_s_parent None shc)) with (kids shc). by apply (t_keys _ _ _ T c).
    + done.
    + by apply (t_keys _ _ _ T o).
  - intros o sho p E Hp.
    assert (o ≠ c ∧ ∃ sho0, shapes st !! o = Some sho0 ∧ s_parent sho0 = Some p ∧
      s_parent_key sho = s_parent_key sho0) as (Hoc & sho0 & E0 & Hp0 & Hpk0).
    { rewrite Hsh in E. apply lookup_two in E as [[-> ->]|[(Hoc & -> & ->)|(Hoc & _ & E)]]; [done| |].
      - split; [done|]. exists shs. by rewrite <- P1.
      - split; [done|]. by exists sho. }
    destruct (t_parent _ _ _ T o sho0 p E0 Hp0) as (shp & Ep & Hin). rewrite Hpk0.
    destruct (decide (p = s)) as [->|Hps].
    { exists shs'. split; [done|]. apply Hkeep; congruence. }
    destruct (decide (p = c)) as [->|Hpc'].
    + eexists. split; [exact Hc'|]. rewrite Hc in Ep. by injection Ep as <-.
    + exists shp. by split; [apply Hother|].
  - intros o sho E. rewrite Hr, multiplicity_disj_union. unfold tree_refs.
    rewrite Hsh in E. apply lookup_two in E as [[-> ->]|[(Hoc & -> & ->)|(Hoc & _ & E)]].
    + destruct (t_refs _ _ _ T c shc Hc) as (H1 & H2 & H3). unfold tree_refs in H1. rewrite Hpc in H1.
      rewrite multiplicity_singleton_eq. simpl. split_and!; [lia|done|done].
    + destruct (t_refs _ _ _ T s shs Hs) as (H1 & H2 & H3). unfold tree_refs in H1.
      rewrite multiplicity_singleton_ne, P1, P3 by done. split_and!; [lia|done|done].
    + destruct (t_refs _ _ _ T o sho E) as (H1 & H2 & H3). unfold tree_refs in H1.
      rewrite multiplicity_singleton_ne by done. split_and!; [lia|done|done].
  - intros o Ho. assert (is_Some (shapes st !! o)) as [sho E].
    { apply gmultiset_elem_of_disj_union in Ho as [->%gmultiset_elem_of_singleton|Ho]; [eauto|].
      by apply (t_held _ _ _ T). }
    rewrite Hsh. destruct (decide (c = o)) as [<-|]; [rewrite lookup_insert_eq; eauto|].
    rewrite lookup_insert_ne by done. destruct (decide (s = o)) as [<-|]; [rewrite lookup_insert_eq; eauto|].
    rewrite lookup_insert_ne by done. eauto.
  - intros i r. rewrite Hr. intros Hi. destruct (t_roots _ _ _ T i r Hi) as (shr & E & Hp & Hl).
    destruct (decide (r = c)) as [->|Hrc]; [destruct Hnr; by eapply list_elem_of_lookup_2|].
    destruct (decide (r = s)) as [->|Hrs].
    + exists shs'. split; [done|]. rewrite P1, P4. split; congruence.
    + exists shr. by split; [apply Hother|].
  - rewrite Hr. apply T.
Qed.

(** A shape that is being freed forgets entries that no child refers to. *)
Lemma tree_ok_forget held dying st st' s shs shs' :
  tree_ok held dying st → s ∈ dying → shapes st !! s = Some shs →
  (∀ o sho, shapes st !! o = Some sho → s_parent sho = Some s → (s_parent_key sho, o) ∈ kids shs') →
  NoDup (kids shs').*1 →
  s_parent shs' = s_parent shs → s_parent_key shs' = s_parent_key shs →
  s_ref_count shs' = s_ref_count shs → s_inobj_limit shs' = s_inobj_limit shs →
  shapes st' = <[s := shs']> (shapes st) → g_root_shapes st' = g_root_shapes st →
  tree_ok held dying st'.
Proof.
  intros T Hdy Hs Hkeep Hnd P1 P2 P3 P4 Hsh Hr.
  assert (∀ o sho, shapes st' !! o = Some sho → ∃ sho0, shapes st !! o = Some sho0 ∧
    (o ≠ s → sho = sho0) ∧ s_parent sho = s_parent sho0 ∧ s_parent_key sho = s_parent_key sho0 ∧
    s_ref_count sho = s_ref_count sho0) as Hb.
  { intros o sho. rewrite Hsh, lookup_insert_Some. intros [[<- <-]|[Hne E]]; [exists shs|exists sho]; split_and!; done. }
  assert (∀ o sho, shapes st !! o = Some sho → ∃ sho', shapes st' !! o = Some sho' ∧
    (o ≠ s → sho' = sho) ∧ s_parent sho' = s_parent sho ∧ s_parent_key sho' = s_parent_key sho ∧
    s_inobj_limit sho' = s_inobj_limit sho) as Hfw.
  { intros o sho E. rewrite Hsh. destruct (decide (s = o)) as [<-|Hne].
    - rewrite lookup_insert_eq. rewrite Hs in E. injection E as <-. exists shs'. split_and!; done.
    - rewrite lookup_insert_ne by done. exists sho. split_and!; done. }
  split.
  - intros o sho k c E Ho Hk. destruct (Hb o sho E) as (sho0 & E0 & Eq & _).
    rewrite Eq in Hk by (intros ->; done).
    destruct (t_kid _ _ _ T o sho0 k c E0 Ho Hk) as (Hlt & shc & Ec & Hp & Hpk).
    destruct (Hfw c shc Ec) as (shc' & Ec' & _ & E1 & E2 & _). split; [done|]. exists shc'.
    rewrite E1, E2. done.
  - intros o sho E. rewrite Hsh, lookup_insert_Some in E. destruct E as [[<- <-]|[_ E]]; [done|].
    by apply (t_keys _ _ _ T o).
  - intros o sho p E Hp. destruct (Hb o sho E) as (sho0 & E0 & _ & Ep & Epk & _). rewrite Ep in Hp. rewrite Epk.
    destruct (decide (p = s)) as [->|Hps].
    { exists shs'. split; [rewrite Hsh; apply lookup_insert_eq|by apply Hkeep]. }
    destruct (t_parent _ _ _ T o sho0 p E0 Hp) as (shp & Ep' & Hin).
    destruct (Hfw p shp Ep') as (shp' & ? & Eq & _). exists shp'. split; [done|]. by rewrite Eq.
  - intros o sho E. destruct (Hb o sho E) as (sho0 & E0 & _ & Ep & _ & Er). rewrite Hr, Er. unfold tree_refs.
    rewrite Ep. by apply (t_refs _ _ _ T o sho0).
  - intros o Ho. destruct (t_held _ _ _ T o Ho) as [sho E]. destruct (Hfw o sho E) as (? & ? & _). eauto.
  - intros i r. rewrite Hr. intros Hi. destruct (t_roots _ _ _ T i r Hi) as (shr & E & Hp & Hl).
    destruct (Hfw r shr E) as (shr' & E' & _ & Ep & _ & El). exists shr'. by rewrite Ep, El.
  - rewrite Hr. apply T.
Qed.

(** A shape without references and children is freed. *)
Lemma tree_ok_free held dying st st' s sh :
  tree_ok held ({[s]} ∪ dying) st → shapes st !! s = Some sh → s ∉ dying → s_ref_count sh = 0 →
  (∀ o sho, shapes st !! o = Some sho → s_parent sho ≠ Some s) →
  shapes st' = delete s (shapes st) → g_root_shapes st' = g_root_shapes st →
  tree_ok held dying st'.
Proof.
  intros T Hs Hdy Hz Hnok Hsh Hr.
  destruct (t_refs _ _ _ T s sh Hs) as (H1 & _ & _). rewrite Hz in H1.
  assert (s_parent sh = None ∧ (Some s ∉ g_root_shapes st) ∧ s ∉ held) as (Hp & Hnr & Hnh).
  { unfold tree_refs in H1. destruct (s_parent sh); [case_decide; lia|]. case_decide; [lia|].
    split_and!; try done. rewrite elem_of_multiplicity. lia. }
  assert (∀ o, s ≠ o → o ∉ dying → o ∉ {[s]} ∪ dying) as Hnd.
  { intros o Hos Ho [->%elem_of_singleton|Hin]%elem_of_union; done. }
  split.
  - intros o sho k c. rewrite Hsh, lookup_delete_Some. intros [Hos E] Ho Hk.
    destruct (t_kid _ _ _ T o sho k c E (Hnd o Hos Ho) Hk) as (Hlt & shc & Ec & Hpc & Hpk).
    split; [done|]. exists shc. rewrite lookup_delete_ne; [done|]. intros <-. rewrite Hs in Ec. injection Ec as <-. congruence.
  - intros o sho. rewrite Hsh, lookup_delete_Some. intros [_ E]. by apply (t_keys _ _ _ T o).
  - intros o sho p. rewrite Hsh, lookup_delete_Some. intros [_ E] Hpo.
    destruct (t_parent _ _ _ T o sho p E Hpo) as (shp & Ep & Hin). exists shp.
    rewrite lookup_delete_ne; [done|]. intros <-. by apply (Hnok o sho).
  - intros o sho. rewrite Hsh, Hr, lookup_delete_Some. intros [Hos E].
    destruct (t_refs _ _ _ T o sho E) as (H2 & H3 & H4). split_and!; [done|done|]. intros Ho.
    apply H4. by apply Hnd.
  - intros o Ho. rewrite Hsh, lookup_delete_ne by (intros <-; done). by apply (t_held _ _ _ T).
  - intros i r. rewrite Hr, Hsh. intros Hi. destruct (t_roots _ _ _ T i r Hi) as (shr & E & ? & ?).
    exists shr. rewrite lookup_delete_ne; [done|]. intros <-. apply Hnr. by eapply list_elem_of_lookup_2.
  - rewrite Hr. apply T.
Qed.

(** ** Releasing *)

(** Globals that releasing leaves alone. *)
Definition still (st st' : state) : Prop :=
  g_root_shapes st' = g_root_shapes st ∧ gc_shape_epoch st' = gc_shape_epoch st ∧ clock st' = clock st.

(** What releasing [s] leaves of the others: they are gone or mean what they meant, and the
    shapes being freed and their children are untouched. *)
Record released (dying : gset sid) (s : sid) (st st' : state) : Prop := mk_released {
  r_still : still st st';
  r_slots o : is_Some (shapes st' !! o) → is_Some (shapes st !! o) ∧ slots st' o = slots st o;
  r_dying o : o ∈ dying → o ≠ s → tree_of <$> shapes st' !! o = tree_of <$> shapes st !! o;
  r_kin o sho p : o ≠ s → shapes st !! o = Some sho → s_parent sho = Some p → p ∈ dying →
    tree_of <$> shapes st' !! o = tree_of <$> shapes st !! o;
  r_parent o sho' p : shapes st' !! o = Some sho' → s_parent sho' = Some p →
    ∃ sho, shapes st !! o = Some sho ∧ s_parent sho = Some p ∧ s_parent_key sho = s_parent_key sho'
}.

Lemma same_tables_slots st st' o :
  links st → same_tables st st' → is_Some (shapes st' !! o) →
  is_Some (shapes st !! o) ∧ slots st' o = slots st o.
Proof.
  intros L Hst [sho E]. destruct (same_tables_links st st' L Hst) as [_ Hsl]. split; [|done].
  destruct Hst as (Hl & _). specialize (Hl o). rewrite E in Hl. destruct (shapes st !! o); [eauto|done].
Qed.

(** [release_rec] with enough fuel releases. *)
Definition release_ok (fuel : nat) : Prop :=
  ∀ c st held dying, links st → tree_ok held dying st → c ∈ held → (∀ d, d ∈ dying → (d < c)%nat) →
  (clock st < c + fuel)%nat →
  wp (release_rec fuel c) st (λ _ st',
    links st' ∧ tree_ok (held ∖ {[+ c +]}) dying st' ∧ released dying c st st').

Lemma still_quiet st st' : still st st' → quiet st st'.
Proof. intros (? & ? & E). split; [done|]. split; [done|]. lia. Qed.

Lemma held_cancel (held : gmultiset sid) c : ({[+ c +]} ⊎ held) ∖ {[+ c +]} = held.
Proof. multiset_solver. Qed.

(** A child of [s], which is being freed, leaves it and is released. *)
Lemma release_child_spec fuel held dying st s shs shs' c shc :
  release_ok fuel → links st → tree_ok held dying st → s ∈ dying → (∀ d, d ∈ dying → (d < c)%nat) →
  (clock st < c + fuel)%nat → shapes st !! s = Some shs → shapes st !! c = Some shc →
  s_parent shc = Some s →
  (∀ e, e ∈ kids shs' → e ∈ kids shs) →
  (∀ e, e ∈ kids shs → e ≠ (s_parent_key shc, c) → e ∈ kids shs') → NoDup (kids shs').*1 →
  s_parent shs' = s_parent shs → s_parent_key shs' = s_parent_key shs →
  s_ref_count shs' = s_ref_count shs → s_inobj_limit shs' = s_inobj_limit shs →
  link_of shs' = link_of shs →
  wp (release_rec fuel c)
    (set_shapes (<[c := set_s_parent None shc]> (<[s := shs']> (shapes st))) st)
    (λ _ st', links st' ∧ tree_ok held dying st' ∧ still st st' ∧
      (∀ o, is_Some (shapes st' !! o) → is_Some (shapes st !! o) ∧ slots st' o = slots st o) ∧
      tree_of <$> shapes st' !! s = Some (tree_of shs') ∧
      (∀ o, o ∈ dying → o ≠ s → tree_of <$> shapes st' !! o = tree_of <$> shapes st !! o) ∧
      (∀ o sho p, o ≠ c → o ≠ s → shapes st !! o = Some sho → s_parent sho = Some p → p ∈ dying →
         tree_of <$> shapes st' !! o = tree_of <$> shapes st !! o) ∧
      (∀ o sho' p, shapes st' !! o = Some sho' → s_parent sho' = Some p → o ≠ c ∧
         ∃ sho, shapes st !! o = Some sho ∧ s_parent sho = Some p ∧ s_parent_key sho = s_parent_key sho')).
Proof.
  intros IH L T Hdy Hlt Hfuel Hs Hc Hp Hsub Hkeep Hnd P1 P2 P3 P4 Pl.
  assert (s ≠ c) as Hne by (pose proof (Hlt s Hdy); lia).
  assert (c ∉ dying) as Hcd by (intros Hin; pose proof (Hlt c Hin); lia).
  set (st1 := set_shapes _ st).
  assert (same_tables st st1) as Htab.
  { transitivity (set_shapes (<[s := shs']> (shapes st)) st).
    - by apply (same_tables_insert st _ s shs shs').
    - apply (same_tables_insert _ st1 c shc (set_s_parent None shc)); try done.
      simpl. by rewrite lookup_insert_ne. }
  destruct (same_tables_links st st1 L Htab) as [L1 Hsl1].
  assert (tree_ok ({[+ c +]} ⊎ held) dying st1) as T1.
  { eapply (tree_ok_cut held dying st st1 s shs shs' c shc); try done. intros e He. split; [by apply Hsub|done]. }
  eapply wp_mono; [apply (IH c st1 ({[+ c +]} ⊎ held) dying); try done; multiset_solver|].
  intros _ st' (L' & T' & [R1 R2 R3 R4 R5]). rewrite held_cancel in T'.
  assert (∀ o, o ≠ c → o ≠ s → shapes st1 !! o = shapes st !! o) as Hsame.
  { intros o Hoc Hos. simpl. by rewrite !lookup_insert_ne. }
  split; [done|]. split; [done|]. split; [done|]. split_and!.
  - intros o Ho. destruct (R2 o Ho) as [H1 H2].
    destruct (same_tables_slots st st1 o L Htab H1) as [H3 H4]. split; [done|]. by rewrite H2.
  - rewrite R3 by done. simpl. by rewrite lookup_insert_ne, lookup_insert_eq.
  - intros o Ho Hos. assert (o ≠ c) by (intros ->; done). rewrite R3 by done. by rewrite Hsame.
  - intros o sho p Hoc Hos E Hpo Hpd. rewrite (R4 o sho p); try done; by rewrite Hsame.
  - intros o sho' p E Hpo. destruct (R5 o sho' p E Hpo) as (sho1 & E1 & Hp1 & Hk1).
    simpl in E1. apply lookup_two in E1 as [[-> ->]|[(Hoc & -> & ->)|(Hoc & Hos & E1)]]; [done| |].
    + split; [done|]. exists shs. by rewrite <- P1, <- P2.
    + split; [done|]. by exists sho1.
Qed.

Lemma remove_entry_elem k l e : e ∈ remove_entry k l ↔ e ∈ l ∧ e.1 ≠ k.
Proof. unfold remove_entry. rewrite list_elem_of_filter. tauto. Qed.

Lemma NoDup_remove_entry k l : NoDup l.*1 → NoDup (remove_entry k l).*1.
Proof.
  induction l as [|[k' c] l IH]; intros Hnd; [done|]. apply NoDup_cons in Hnd as [Hk Hnd].
  unfold remove_entry. rewrite filter_cons. case_decide; [|by apply IH]. apply NoDup_cons.
  split; [|by apply IH]. simpl in *. intros Hin. apply Hk. apply list_elem_of_fmap in Hin as (e & -> & He).
  apply list_elem_of_fmap. exists e. by apply remove_entry_elem in He as [? _].
Qed.

Lemma NoDup_fst_inj {A B} (l : list (A * B)) a b b' : NoDup l.*1 → (a, b) ∈ l → (a, b') ∈ l → b = b'.
Proof.
  intros Hnd H1 H2. apply list_elem_of_lookup in H1 as (i & Hi). apply list_elem_of_lookup in H2 as (j & Hj).
  assert (i = j) as ->; [|congruence].
  eapply NoDup_lookup; [exact Hnd| |]; rewrite list_lookup_fmap; [rewrite Hi|rewrite Hj]; done.
Qed.

(** The shape [s] while [shape_destroy] runs: without references, parent or first child. *)
Definition husk (s : sid) (sh : ant_shape_t) (l : list (Z * sid)) (st : state) : Prop :=
  shapes st !! s = Some sh ∧ s_ref_count sh = 0 ∧ s_parent sh = None ∧ s_first_child sh = None ∧
  (∀ k c, (k, c) ∈ l → (k, c) ∈ s_children sh ∧ (s < c)%nat ∧
     ∃ shc, shapes st !! c = Some shc ∧ s_parent shc = Some s ∧ s_parent_key shc = k) ∧
  (∀ o sho, shapes st !! o = Some sho → s_parent sho = Some s → (s_parent_key sho, o) ∈ l).

(** What the steps of [shape_destroy] on [s] leave of the other shapes. *)
Definition spared (dying : gset sid) (s : sid) (st st' : state) : Prop :=
  still st st' ∧
  (∀ o, is_Some (shapes st' !! o) → is_Some (shapes st !! o) ∧ slots st' o = slots st o) ∧
  (∀ o, o ∈ dying → o ≠ s → tree_of <$> shapes st' !! o = tree_of <$> shapes st !! o) ∧
  (∀ o sho p, o ≠ s → shapes st !! o = Some sho → s_parent sho = Some p → p ∈ dying → p ≠ s →
     tree_of <$> shapes st' !! o = tree_of <$> shapes st !! o) ∧
  (∀ o sho' p, shapes st' !! o = Some sho' → s_parent sho' = Some p →
     ∃ sho, shapes st !! o = Some sho ∧ s_parent sho = Some p ∧ s_parent_key sho = s_parent_key sho').

Lemma spared_refl dying s st : spared dying s st st.
Proof. split_and!; try done. intros o sho' p E Hp. by exists sho'. Qed.

Lemma spared_trans dying s st1 st2 st3 :
  spared dying s st1 st2 → spared dying s st2 st3 → spared dying s st1 st3.
Proof.
  intros ((A1 & A2 & A3) & S1 & D1 & K1 & P1) ((B1 & B2 & B3) & S2 & D2 & K2 & P2). split_and!.
  - split_and!; congruence.
  - intros o Ho. destruct (S2 o Ho) as [H1 E1]. destruct (S1 o H1) as [H2 E2]. split; [done|]. by rewrite E1.
  - intros o Ho Hos. by rewrite D2, D1.
  - intros o sho p Hos E Hp Hpd Hps. rewrite <- (K1 o sho p) by done.
    pose proof (K1 o sho p Hos E Hp Hpd Hps) as Et. rewrite E in Et.
    destruct (shapes st2 !! o) as [sho2|] eqn:E2; [|done]. injection Et as _ _ _ _ _ _ _ Ep _.
    rewrite <- E2. apply (K2 o sho2 p); try done. congruence.
  - intros o sho' p E Hp. destruct (P2 o sho' p E Hp) as (sho2 & E2 & Hp2 & Hk2).
    destruct (P1 o sho2 p E2 Hp2) as (sho1 & E1 & Hp1 & Hk1). exists sho1. split_and!; [done|done|congruence].
Qed.

(** One round of the loop over the children of a shape that is being freed. *)
Definition destroy_child (fuel : nat) (s : sid) (e : Z * sid) : SM unit :=
  upd_shape e.2 (set_s_parent None) ;; release_rec fuel e.2 ;;
  upd_shape s (λ sh, set_s_children (remove_entry e.1 (s_children sh)) sh) ;;
  shape_entry_free.

(** Entry [k] of [s] is dropped after its child is gone. *)
Lemma husk_forget held dying st s sh l k c st1 :
  links st1 → tree_ok held dying st1 → s ∈ dying → NoDup (s_children sh).*1 → NoDup ((k, c) :: l).*1 →
  husk s sh ((k, c) :: l) st → tree_of <$> shapes st1 !! s = Some (tree_of sh) →
  (∀ o sho p, o ≠ c → o ≠ s → shapes st !! o = Some sho → s_parent sho = Some p → p ∈ dying →
     tree_of <$> shapes st1 !! o = tree_of <$> shapes st !! o) →
  (∀ o sho' p, shapes st1 !! o = Some sho' → s_parent sho' = Some p → o ≠ c ∧
     ∃ sho, shapes st !! o = Some sho ∧ s_parent sho = Some p ∧ s_parent_key sho = s_parent_key sho') →
  wp (upd_shape s (λ sh, set_s_children (remove_entry k (s_children sh)) sh)) st1 (λ _ st2,
    tree_ok held dying st2 ∧ same_tables st1 st2 ∧ still st1 st2 ∧
    (∀ o, o ≠ s → shapes st2 !! o = shapes st1 !! o) ∧ ∃ sh2, husk s sh2 l st2).
Proof.
  intros L1 T1 Hsd Hndc Hnd (Hs & Hr & Hp & Hf & Hkids & Hall) Hs1 Hkin1 Hpar1.
  apply NoDup_cons in Hnd as [Hkl Hnd]. simpl in Hkl.
  destruct (shapes st1 !! s) as [sh1|] eqn:Es1; [|done].
  simpl in Hs1. injection Hs1 as E1 E2 E3 E4 E5 E6 E7 E8 E9.
  eapply wp_upd_shape; [exact Es1|]. set (sh2 := set_s_children _ sh1). set (st2 := set_shapes _ st1).
  assert (kids sh2 = remove_entry k (s_children sh)) as Ek2 by (unfold kids; simpl; by rewrite E6, Hf, E7).
  assert (∀ k' c', (k', c') ∈ l → (k', c') ∈ remove_entry k (s_children sh)) as Hrem.
  { intros k' c' Hin. apply remove_entry_elem. split; [apply (Hkids k' c'); by right|]. simpl. intros ->.
    apply Hkl, list_elem_of_fmap. by exists (k, c'). }
  assert (∀ o sho, shapes st1 !! o = Some sho → s_parent sho = Some s → (s_parent_key sho, o) ∈ l) as Hall'.
  { intros o sho E Hpo. destruct (Hpar1 o sho s E Hpo) as (Hoc & sho0 & E0 & Hp0 & Hk0).
    specialize (Hall o sho0 E0 Hp0). rewrite <- Hk0. apply elem_of_cons in Hall as [[= _ ?]|]; done. }
  assert (∀ o, o ≠ s → shapes st2 !! o = shapes st1 !! o) as Hoth by (intros o Ho; simpl; by rewrite lookup_insert_ne).
  split_and!; [| |done|done|].
  - eapply (tree_ok_forget held dying st1 st2 s sh1 sh2); try done.
    + intros o sho E Hpo. rewrite Ek2. by apply Hrem, Hall'.
    + rewrite Ek2. by apply NoDup_remove_entry.
  - by apply (same_tables_insert st1 st2 s sh1 sh2).
  - exists sh2. split_and!; simpl; try congruence; [apply lookup_insert_eq| |].
    + intros k' c' Hl'. destruct (Hkids k' c') as (Hin' & Hlt' & shc' & Ec' & Hpc' & Hkc'); [by right|].
      split; [rewrite E7; by apply Hrem|]. split; [done|].
      destruct (Hkids k c) as (_ & _ & shc & Ec & _ & Hkc); [left|].
      assert (c' ≠ c) as Hcc.
      { intros ->. apply Hkl, list_elem_of_fmap. exists (k', c). split; [simpl; congruence|done]. }
      pose proof (Hkin1 c' shc' s Hcc ltac:(lia) Ec' Hpc' Hsd) as Et. rewrite Ec' in Et.
      destruct (shapes st1 !! c') as [shc1|] eqn:Ec1; [|done]. injection Et as _ _ _ _ _ _ _ Ea Eb.
      exists shc1. rewrite lookup_insert_ne by lia. split_and!; congruence.
    + intros o sho. rewrite lookup_insert_Some. intros [[<- <-]|[_ E]] Hpo; [simpl in Hpo; congruence|].
      by apply Hall'.
Qed.

Lemma destroy_child_spec fuel held dying s k c l st sh :
  release_ok fuel → links st → tree_ok held dying st → s ∈ dying → (∀ d, d ∈ dying → (d <= s)%nat) →
  (clock st < S s + fuel)%nat → NoDup ((k, c) :: l).*1 → husk s sh ((k, c) :: l) st →
  wp (destroy_child fuel s (k, c)) st (λ _ st',
    links st' ∧ tree_ok held dying st' ∧ spared dying s st st' ∧ ∃ sh', husk s sh' l st').
Proof.
  intros IH L T Hsd Hle Hfuel Hnd Hh. pose proof Hh as (Hs & Hr & Hp & Hf & Hkids & Hall).
  destruct (Hkids k c) as (Hin & Hlt & shc & Hc & Hpc & Hkc); [left|].
  assert (kids sh = s_children sh) as Ekids by (unfold kids; by rewrite Hf).
  pose proof (t_keys _ _ _ T s sh Hs) as Hndk. unfold destroy_child.
  apply wp_bind. eapply wp_upd_shape; [exact Hc|]. simpl. apply wp_bind.
  replace (<[c := set_s_parent None shc]> (shapes st))
    with (<[c := set_s_parent None shc]> (<[s := sh]> (shapes st))) by (by rewrite (insert_id (shapes st) s sh)).
  eapply wp_mono; [eapply (release_child_spec fuel held dying st s sh sh c shc); try done; [|lia]|].
  { intros d Hd. pose proof (Hle d Hd). lia. }
  intros _ st1 (L1 & T1 & Hst1 & Hsl1 & Hs1 & Hdy1 & Hkin1 & Hpar1). apply wp_bind.
  eapply wp_mono; [eapply (husk_forget held dying st s sh l k c st1); try done; by rewrite <- Ekids|].
  intros _ st2 (T2 & Htab2 & Hst2 & Hoth2 & Hh2). destruct (same_tables_links st1 st2 L1 Htab2) as [L2 Hsl2].
  assert (spared dying s st st2) as Hsp.
  { destruct Hst1 as (A1 & A2 & A3), Hst2 as (B1 & B2 & B3). split_and!.
    - split_and!; congruence.
    - intros o Ho. destruct (same_tables_slots st1 st2 o L1 Htab2 Ho) as [H1 H2].
      destruct (Hsl1 o H1) as [H3 H4]. split; [done|]. by rewrite H2.
    - intros o Ho Hos. rewrite Hoth2 by done. by apply Hdy1.
    - intros o sho p Hos E Hpo Hpd Hps. rewrite Hoth2 by done. apply (Hkin1 o sho p); try done.
      intros ->. congruence.
    - intros o sho' p E Hpo. destruct (decide (o = s)) as [->|Hos]; [|rewrite Hoth2 in E by done; by apply (Hpar1 o)].
      destruct Hh2 as (sh2 & Hs2 & _ & Hp2 & _). congruence. }
  unfold shape_entry_free. step. case_ltb; step; [|done].
  split; [by eapply same_tables_links|]. split; [by eapply tree_ok_frame|]. done.
Qed.

(** The loop over the children of a shape that is being freed. *)
Lemma destroy_children_spec fuel held dying s l : ∀ st sh,
  release_ok fuel → links st → tree_ok held dying st → s ∈ dying → (∀ d, d ∈ dying → (d <= s)%nat) →
  (clock st < S s + fuel)%nat → NoDup l.*1 → husk s sh l st →
  wp (for_each (destroy_child fuel s) l) st
    (λ _ st', links st' ∧ tree_ok held dying st' ∧ spared dying s st st' ∧ ∃ sh', husk s sh' [] st').
Proof.
  induction l as [|[k c] l IHl]; intros st sh IH L T Hsd Hle Hfuel Hnd Hh; cbn [for_each].
  { step. split; [done|]. split; [done|]. split; [apply spared_refl|]. by exists sh. }
  eapply wp_call; [by eapply destroy_child_spec|].
  intros _ st1 (L1 & T1 & Hsp1 & sh1 & Hh1). apply NoDup_cons in Hnd as [_ Hnd].
  eapply wp_mono; [apply (IHl st1 sh1); try done|].
  - destruct Hsp1 as ((_ & _ & ->) & _). done.
  - intros _ st2 (? & ? & Hsp2 & ?). split_and!; try done. by eapply spared_trans.
Qed.

(** The first step of [shape_destroy]: the first child leaves and is released. *)
Definition destroy_first_child (fuel : nat) (s : sid) (sh : ant_shape_t) : SM unit :=
  match s_first_child sh with
  | Some child =>
      upd_shape s (λ sh, set_s_first_child (s_first_child_key sh) None sh) ;;
      upd_shape child (set_s_parent None) ;;
      release_rec fuel child
  | None => mret tt
  end.

(** The children of a shape that is about to be freed. *)
Definition doomed (s : sid) (sh : ant_shape_t) (st : state) : Prop :=
  shapes st !! s = Some sh ∧ s_ref_count sh = 0 ∧ s_parent sh = None ∧
  (∀ k c, (k, c) ∈ kids sh → (s < c)%nat ∧
     ∃ shc, shapes st !! c = Some shc ∧ s_parent shc = Some s ∧ s_parent_key shc = k).

Lemma doomed_husk held dying s sh st :
  tree_ok held dying st → doomed s sh st → s_first_child sh = None → husk s sh (s_children sh) st.
Proof.
  intros T (Hs & Hr & Hp & Hk) Hf. unfold kids in Hk. rewrite Hf in Hk. split_and!; try done.
  - intros k c Hin. destruct (Hk k c Hin) as [? ?]. by split_and!.
  - intros o sho E Hpo. destruct (t_parent _ _ _ T o sho s E Hpo) as (shp & Ep & Hin).
    rewrite Hs in Ep. injection Ep as <-. unfold kids in Hin. by rewrite Hf in Hin.
Qed.

Lemma destroy_first_child_spec fuel held dying s st sh :
  release_ok fuel → links st → tree_ok held dying st → s ∈ dying → (∀ d, d ∈ dying → (d <= s)%nat) →
  (clock st < S s + fuel)%nat → doomed s sh st →
  wp (destroy_first_child fuel s sh) st (λ _ st',
    links st' ∧ tree_ok held dying st' ∧ spared dying s st st' ∧ ∃ sh', husk s sh' (s_children sh') st').
Proof.
  intros IH L T Hsd Hle Hfuel Hd. pose proof Hd as (Hs & Hr & Hp & Hk). unfold destroy_first_child.
  destruct (s_first_child sh) as [c|] eqn:Hf; step.
  2:{ split_and!; try done; [apply spared_refl|]. exists sh. by eapply doomed_husk. }
  destruct (Hk (s_first_child_key sh) c) as (Hlt & shc & Hc & Hpc & Hkc); [unfold kids; rewrite Hf; left|].
  step. eapply wp_upd_shape; [simpl; by rewrite lookup_insert_ne by lia|].
  set (shs' := set_s_first_child _ None sh).
  pose proof (t_keys _ _ _ T s sh Hs) as Hnd.
  assert (kids sh = (s_first_child_key sh, c) :: kids shs') as Ek by (unfold kids; by rewrite Hf).
  rewrite Ek in Hnd. apply NoDup_cons in Hnd as [Hnk Hnd].
  eapply wp_mono; [apply (release_child_spec fuel held dying st s sh shs' c shc); try done|].
  - intros d Hin. pose proof (Hle d Hin). lia.
  - lia.
  - rewrite Ek. intros e He. by right.
  - rewrite Ek. intros e [->|He]%elem_of_cons Hne; [|done]. by rewrite Hkc in Hne.
  - intros _ st1 (L1 & T1 & Hst1 & Hsl1 & Hs1 & Hdy1 & Hkin1 & Hpar1).
    destruct (shapes st1 !! s) as [sh1|] eqn:Es1; [|done]. injection Hs1 as E1 E2 E3 E4 E5 E6 E7 E8 E9.
    split; [done|]. split; [done|]. split; [split_and!; try done|].
    + intros o sho p Hos E Hpo Hpd Hps. apply (Hkin1 o sho p); try done. intros ->. congruence.
    + intros o sho' p E Hpo. by apply (Hpar1 o sho' p).
    + exists sh1. apply (doomed_husk held dying); [done| |congruence]. split_and!; try congruence.
      intros k d Hin. assert ((k, d) ∈ kids shs') as Hin' by (unfold kids in *; by rewrite E6, E7 in Hin).
      destruct (Hk k d) as (Hlt' & shd & Ed & Hpd & Hkd); [rewrite Ek; by right|]. split; [done|].
      assert (d ≠ c) as Hdc.
      { intros ->. apply Hnk, list_elem_of_fmap. exists (k, c). split; [simpl; congruence|done]. }
      pose proof (Hkin1 d shd s Hdc ltac:(lia) Ed Hpd Hsd) as Et. rewrite Ed in Et.
      destruct (shapes st1 !! d) as [shd1|] eqn:Ed1; [|done]. injection Et as _ _ _ _ _ _ _ Ea Eb.
      exists shd1. split_and!; congruence.
Qed.

(** The husk leaves its table and is freed. *)
Lemma free_husk_spec held dying s sh st :
  links st → tree_ok held ({[s]} ∪ dying) st → s ∉ dying → husk s sh [] st →
  wp (shape_unlink_descriptors s ;; sub_bytes sizeof_shape ;; free_shape s) st (λ _ st',
    links st' ∧ tree_ok held dying st' ∧ spared ({[s]} ∪ dying) s st st' ∧ shapes st' !! s = None ∧
    ∀ o, o ≠ s → shapes st' !! o = shapes st !! o).
Proof.
  intros L T Hsd (Hs & Hr & Hp & Hf & _ & Hall).
  destruct (links_shape st L s sh Hs) as (x & Hx & Hin & _). destruct (links_desc st L _ x Hx) as [_ Hox].
  apply wp_bind. eapply unlink_spec; [exact Hs|exact Hx|done|done|]. intros b. step. step.
  set (st' := set_shapes _ _).
  destruct (links_removed st st' s sh x L Hs Hx) as [L' Hsl]; [done|done|done|].
  assert (∀ o, o ≠ s → shapes st' !! o = shapes st !! o) as Hoth.
  { intros o Ho. simpl. by rewrite lookup_delete_ne. }
  assert (shapes st' !! s = None) as Hgone by apply lookup_delete_eq.
  assert (∀ o, is_Some (shapes st' !! o) → o ≠ s) as Hne by (intros o [? E] ->; congruence).
  split; [done|]. split; [|split; [split_and!|by split]].
  - eapply tree_ok_free; try done. intros o sho E Hpo. by apply (Hall o sho E), not_elem_of_nil in Hpo.
  - done.
  - intros o Ho. pose proof (Hne o Ho). rewrite <- Hoth by done. split; [done|]. by apply Hsl.
  - intros o _ Hos. by rewrite Hoth.
  - intros o sho p Hos _ _ _ _. by rewrite Hoth.
  - intros o sho' p E Hpo. exists sho'. split; [|done]. rewrite <- Hoth; [done|]. apply Hne. by exists sho'.
Qed.

Lemma destroy_spec fuel held dying s st sh :
  release_ok fuel → links st → tree_ok held ({[s]} ∪ dying) st → s ∉ dying →
  (∀ d, d ∈ dying → (d < s)%nat) → (clock st < S s + fuel)%nat → doomed s sh st →
  wp (shape_destroy (release_rec fuel) s) st (λ _ st',
    links st' ∧ tree_ok held dying st' ∧ spared ({[s]} ∪ dying) s st st' ∧ shapes st' !! s = None).
Proof.
  intros IH L T Hsd Hlt Hfuel Hd. pose proof Hd as (Hs & Hr & Hp & _).
  assert (s ∈ {[s]} ∪ dying) as Hin by set_solver.
  assert (∀ d, d ∈ {[s]} ∪ dying → (d <= s)%nat) as Hle.
  { intros d [->%elem_of_singleton|Hdd]%elem_of_union; [done|]. pose proof (Hlt d Hdd). lia. }
  unfold shape_destroy. step. rewrite Hp. step. step.
  change (wp (destroy_first_child fuel s sh ;; sh ← get_shape s; for_each (destroy_child fuel s) (s_children sh) ;;
    (shape_unlink_descriptors s ;; sub_bytes sizeof_shape ;; free_shape s)) st (λ _ st',
    links st' ∧ tree_ok held dying st' ∧ spared ({[s]} ∪ dying) s st st' ∧ shapes st' !! s = None)).
  eapply wp_call; [by apply (destroy_first_child_spec fuel held ({[s]} ∪ dying) s st sh)|].
  intros _ st1 (L1 & T1 & Hsp1 & sh1 & Hh1). pose proof Hh1 as (Hs1 & _ & _ & Hf1 & _).
  pose proof (t_keys _ _ _ T1 s sh1 Hs1) as Hnd. unfold kids in Hnd. rewrite Hf1 in Hnd. step.
  eapply wp_call; [apply (destroy_children_spec fuel held ({[s]} ∪ dying) s (s_children sh1) st1 sh1); try done|].
  { destruct Hsp1 as ((_ & _ & ->) & _). done. }
  intros _ st2 (L2 & T2 & Hsp2 & sh2 & Hh2).
  eapply wp_mono; [by apply (free_husk_spec held dying s sh2)|].
  intros _ st3 (L3 & T3 & Hsp3 & Hgone & _). split_and!; try done.
  eapply spared_trans; [done|]. by eapply spared_trans.
Qed.

Lemma held_minus (held : gmultiset sid) c :
  c ∈ held → (∀ o, o ≠ c → multiplicity o (held ∖ {[+ c +]}) = multiplicity o held) ∧
  Z.of_nat (multiplicity c (held ∖ {[+ c +]})) = Z.of_nat (multiplicity c held) - 1.
Proof.
  intros Hc. pose proof (proj1 (elem_of_multiplicity c held) Hc) as Hm. split; [intros o Ho|]; rewrite multiplicity_difference.
  - rewrite multiplicity_singleton_ne by done. lia.
  - rewrite multiplicity_singleton_eq. lia.
Qed.

(** A reference that is not the last goes. *)
Lemma release_shared held dying st st' c sh n :
  links st → tree_ok held dying st → c ∈ held → shapes st !! c = Some sh → n = s_ref_count sh - 1 →
  (c ∉ dying → 0 < n) → st' = set_shapes (<[c := set_s_ref_count n sh]> (shapes st)) st →
  links st' ∧ tree_ok (held ∖ {[+ c +]}) dying st' ∧ released dying c st st'.
Proof.
  intros L T Hc Hs -> Hn ->. set (st' := set_shapes _ st). destruct (held_minus held c Hc) as [Hm1 Hm2].
  assert (same_tables st st') as Htab by (by apply (same_tables_insert st st' c sh (set_s_ref_count (s_ref_count sh - 1) sh))).
  split; [by eapply same_tables_links|]. split.
  - destruct (t_refs _ _ _ T c sh Hs) as (_ & ? & _).
    eapply (tree_ok_set_refs held _ dying dying st st' c sh (s_ref_count sh - 1)); try done; lia.
  - assert (∀ o, o ≠ c → shapes st' !! o = shapes st !! o) as Hoth.
    { intros o Ho. simpl. by rewrite lookup_insert_ne. }
    split; [done| | | |].
    + intros o Ho. by apply same_tables_slots.
    + intros o _ Ho. by rewrite Hoth.
    + intros o sho p Ho _ _ _. by rewrite Hoth.
    + intros o sho' p E Hp. destruct (decide (o = c)) as [->|Ho].
      * simpl in E. rewrite lookup_insert_eq in E. injection E as <-. by exists sh.
      * rewrite Hoth in E by done. by exists sho'.
Qed.

(** The last reference goes. *)
Lemma release_last fuel held dying st c sh :
  release_ok fuel → links st → tree_ok held dying st → c ∈ held → (∀ d, d ∈ dying → (d < c)%nat) →
  (clock st < S c + fuel)%nat → shapes st !! c = Some sh → s_ref_count sh = 1 →
  wp (shape_destroy (release_rec fuel) c) (set_shapes (<[c := set_s_ref_count 0 sh]> (shapes st)) st)
    (λ _ st', links st' ∧ tree_ok (held ∖ {[+ c +]}) dying st' ∧ released dying c st st').
Proof.
  intros IH L T Hc Hlt Hfuel Hs Hone. destruct (held_minus held c Hc) as [Hm1 Hm2].
  assert (c ∉ dying) as Hcd by (intros Hin; pose proof (Hlt c Hin); lia).
  destruct (t_refs _ _ _ T c sh Hs) as (Hrefs & Hb & _). unfold tree_refs in Hrefs.
  pose proof (proj1 (elem_of_multiplicity c held) Hc) as Hm.
  assert (s_parent sh = None) as Hp by (destruct (s_parent sh); [case_decide; lia|done]).
  set (sh0 := set_s_ref_count 0 sh). set (st0 := set_shapes _ st).
  destruct (same_tables_links st st0 L) as [L0 Hsl0]; [by apply (same_tables_insert st st0 c sh sh0)|].
  assert (tree_ok (held ∖ {[+ c +]}) ({[c]} ∪ dying) st0) as T0.
  { eapply (tree_ok_set_refs held _ dying _ st st0 c sh 0); try done; [set_solver|lia|set_solver]. }
  assert (∀ o, o ≠ c → shapes st0 !! o = shapes st !! o) as Hoth.
  { intros o Ho. simpl. by rewrite lookup_insert_ne. }
  eapply wp_mono; [apply (destroy_spec fuel (held ∖ {[+ c +]}) dying c st0 sh0); try done|].
  - split_and!; [apply lookup_insert_eq|done|done|]. intros k d Hin.
    destruct (t_kid _ _ _ T c sh k d Hs Hcd Hin) as (Hcd' & shd & Ed & ? & ?). split; [done|]. exists shd.
    rewrite Hoth by lia. done.
  - intros _ st' (L' & T' & (Hst & Hsl & Hdy & Hkin & Hpar) & Hgone). split; [done|]. split; [done|].
    split; [done| | | |].
    + intros o Ho. destruct (Hsl o Ho) as [H1 H2]. rewrite <- Hsl0. split; [|done].
      destruct (decide (o = c)) as [->|Hoc]; [eauto|]. by rewrite <- Hoth.
    + intros o Ho Hoc. rewrite Hdy; [by rewrite Hoth|by apply elem_of_union; right|done].
    + intros o sho p Hoc E Hpo Hpd. rewrite (Hkin o sho p); [by rewrite Hoth|done|by rewrite Hoth|done|by apply elem_of_union; right|].
      intros ->. done.
    + intros o sho' p E Hpo. destruct (Hpar o sho' p E Hpo) as (sho & Eo & ? & ?). exists sho.
      rewrite <- Hoth; [done|]. intros ->. congruence.
Qed.

(** With fuel for the shapes younger than [c], releasing it returns. *)
Lemma release_rec_ok fuel : release_ok fuel.
Proof.
  induction fuel as [|fuel IH]; intros c st held dying L T Hc Hlt Hfuel.
  all: destruct (t_held _ _ _ T c Hc) as [sh Hs]; pose proof (links_young_shape st L c sh Hs) as Hy.
  { lia. }
  assert (c ∉ dying) as Hcd by (intros Hin; pose proof (Hlt c Hin); lia).
  destruct (t_refs _ _ _ T c sh Hs) as (_ & Hb & Hpos). specialize (Hpos Hcd). cbn [release_rec]. step.
  replace (s_ref_count sh =? 0) with false by lia. rewrite u32_small by lia. step.
  destruct (s_ref_count sh - 1 =? 0) eqn:E; cbn [negb].
  - replace (s_ref_count sh - 1) with 0 by lia. apply release_last; try done; lia.
  - step. apply (release_shared held dying st _ c sh (s_ref_count sh - 1)); try done. lia.
Qed.

(** [ant_shape_release] returns, and takes one reference of its caller. *)
Lemma release_spec held st s :
  links st → tree_ok held ∅ st → s ∈ held →
  wp (ant_shape_release (Some s)) st (λ _ st',
    links st' ∧ tree_ok (held ∖ {[+ s +]}) ∅ st' ∧ released ∅ s st st').
Proof.
  intros L T Hs. unfold ant_shape_release. step.
  eapply wp_mono; [apply (release_rec_ok (S (clock st)) s st held ∅); try done; lia|].
  done.
Qed.
