(* ===== verification/ShapeApi.v ===== *)
(** * The interface of shapes: new shapes, transitions, marking and pruning

    What the functions of src/src/shapes.c that make shapes and move objects between them do
    to the tree and to the properties of shapes.  [coherent] says that a transition leads to
    the shape that its key promises; a client that follows a transition gets the properties it
    would have got without one. *)

From stdpp Require Import gmap gmultiset.
From S2P Require Import Prelude ShapeIndex ShapeModel ShapeLinks ShapeCopy ShapeProps ShapeCompact ShapeTree.

Lemma held_new (held : gmultiset sid) n : n ∈ {[+ n +]} ⊎ held.
Proof. multiset_solver. Qed.

Lemma held_old (held : gmultiset sid) s n : s ∈ held → s ∈ {[+ n +]} ⊎ held.
Proof. multiset_solver. Qed.

#[local] Hint Resolve held_new held_old : core.

(** ** Shapes that enter the tree *)

(** A shape that nothing refers to enters with one reference, in the hands of the caller or in
    the root table. *)
Lemma tree_ok_new held held' st st' n shn :
  tree_ok held ∅ st → shapes st !! n = None → shapes st' = <[n := shn]> (shapes st) →
  kids shn = [] → s_parent shn = None → s_ref_count shn = 1 →
  (∀ o, o ≠ n → multiplicity o held' = multiplicity o held ∧
     (Some o ∈ g_root_shapes st' ↔ Some o ∈ g_root_shapes st)) →
  1 = Z.of_nat (multiplicity n held') + (if decide (Some n ∈ g_root_shapes st') then 1 else 0) →
  (∀ i r, g_root_shapes st' !! i = Some (Some r) →
     g_root_shapes st !! i = Some (Some r) ∨ r = n ∧ s_inobj_limit shn = Z.of_nat i) →
  length (g_root_shapes st') = length (g_root_shapes st) →
  tree_ok held' ∅ st'.
Proof.
  intros T Hn Hsh Hk Hp Hr Hsame Hrefs Hroots Hlen.
  assert (∀ o sho, shapes st !! o = Some sho → o ≠ n ∧ shapes st' !! o = Some sho) as Hfw.
  { intros o sho E. assert (o ≠ n) by congruence. split; [done|]. by rewrite Hsh, lookup_insert_ne. }
  split.
  - intros o sho k c. rewrite Hsh, lookup_insert_Some. intros [[<- <-]|[Hne E]] Ho Hin.
    { rewrite Hk in Hin. by apply not_elem_of_nil in Hin. }
    destruct (t_kid _ _ _ T o sho k c E Ho Hin) as (Hlt & shc & Ec & ? & ?). split; [done|].
    exists shc. rewrite <- Hsh. split; [|done]. by apply Hfw.
  - intros o sho. rewrite Hsh, lookup_insert_Some. intros [[<- <-]|[_ E]]; [rewrite Hk; by apply NoDup_nil|].
    by apply (t_keys _ _ _ T o).
  - intros o sho p. rewrite Hsh, lookup_insert_Some. intros [[<- <-]|[_ E]] Hpo; [congruence|].
    destruct (t_parent _ _ _ T o sho p E Hpo) as (shp & Ep & Hin). exists shp. rewrite <- Hsh.
    split; [|done]. by apply Hfw.
  - intros o sho. rewrite Hsh, lookup_insert_Some. unfold tree_refs. intros [[<- <-]|[Hne E]].
    { rewrite Hp, Hr. split_and!; [lia|lia|lia]. }
    destruct (t_refs _ _ _ T o sho E) as (H1 & H2 & H3). destruct (Hsame o) as [-> Hiff]; [done|].
    unfold tree_refs in H1. rewrite (decide_ext _ (Some o ∈ g_root_shapes st)) by done. done.
  - intros o Ho. rewrite Hsh. destruct (decide (n = o)) as [<-|Hne]; [rewrite lookup_insert_eq; eauto|].
    rewrite lookup_insert_ne by done. apply (t_held _ _ _ T). apply elem_of_multiplicity.
    rewrite <- (proj1 (Hsame o ltac:(done))). by apply elem_of_multiplicity.
  - intros i r Hi. destruct (Hroots i r Hi) as [Hold|[-> Hl]].
    + destruct (t_roots _ _ _ T i r Hold) as (shr & E & ? & ?). exists shr. split; [|done]. by apply Hfw.
    + exists shn. rewrite Hsh, lookup_insert_eq. done.
  - rewrite Hlen. apply T.
Qed.

(** A shape that is not in the store has no references. *)
Lemma tree_ok_absent held dying st n :
  tree_ok held dying st → shapes st !! n = None → multiplicity n held = 0%nat ∧ (Some n ∉ g_root_shapes st).
Proof.
  intros T Hn. split.
  - destruct (decide (n ∈ held)) as [Hin|Hin].
    + destruct (t_held _ _ _ T n Hin). congruence.
    + rewrite elem_of_multiplicity in Hin. lia.
  - intros (i & Hi)%list_elem_of_lookup. destruct (t_roots _ _ _ T i n Hi) as (sh & E & _). congruence.
Qed.

(** The caller gets the only reference to the new shape. *)
Lemma tree_ok_copy held st s n st' :
  links st → tree_ok held ∅ st → copy_of st s n st' → tree_ok ({[+ n +]} ⊎ held) ∅ st'.
Proof.
  intros L T [_ Hf (Hroots & _ & _) (shn & Hsh & Hr & Hfc & Hch & Hp) _ _].
  pose proof (links_fresh_shape st n L Hf) as Hn.
  destruct (tree_ok_absent held ∅ st n T Hn) as [Hm Hnr].
  eapply (tree_ok_new held _ st st' n shn); try done; rewrite ?Hroots; auto.
  - unfold kids. by rewrite Hfc.
  - intros o Ho. by rewrite multiplicity_disj_union, multiplicity_singleton_ne.
  - rewrite multiplicity_disj_union, multiplicity_singleton_eq, Hm, decide_False by done. lia.
Qed.

(** A shape without a parent becomes a child of [s]. *)
Lemma tree_ok_link held st st' s shs shs' c shc k :
  tree_ok held ∅ st → shapes st !! s = Some shs → shapes st !! c = Some shc → (s < c)%nat →
  s_parent shc = None → (Some c ∉ g_root_shapes st) → s_ref_count shc < 2 ^ 32 - 1 →
  (∀ e, e ∈ kids shs' ↔ e = (k, c) ∨ e ∈ kids shs) → NoDup (kids shs').*1 →
  s_parent shs' = s_parent shs → s_parent_key shs' = s_parent_key shs →
  s_ref_count shs' = s_ref_count shs → s_inobj_limit shs' = s_inobj_limit shs →
  shapes st' = <[c := set_s_parent_link (Some s) k (set_s_ref_count (s_ref_count shc + 1) shc)]>
    (<[s := shs']> (shapes st)) →
  g_root_shapes st' = g_root_shapes st → tree_ok held ∅ st'.
Proof.
  intros T Hs Hc Hlt Hpc Hnr Hb Hkids Hnd P1 P2 P3 P4 Hsh Hr.
  set (shc' := set_s_parent_link _ _ _) in Hsh. assert (s ≠ c) as Hne by lia.
  assert (∀ o sho, o ≠ c → o ≠ s → shapes st !! o = Some sho → shapes st' !! o = Some sho) as Hother.
  { intros o sho Ho Ho' E. by rewrite Hsh, !lookup_insert_ne. }
  assert (shapes st' !! s = Some shs') as Hs' by (by rewrite Hsh, lookup_insert_ne, lookup_insert_eq).
  assert (shapes st' !! c = Some shc') as Hc' by (by rewrite Hsh, lookup_insert_eq).
  assert (∀ o sho, shapes st !! o = Some sho → ∃ sho', shapes st' !! o = Some sho' ∧
    (o ≠ c → s_parent sho' = s_parent sho ∧ s_parent_key sho' = s_parent_key sho) ∧
    (∀ e, e ∈ kids sho → e ∈ kids sho') ∧ s_inobj_limit sho' = s_inobj_limit sho) as Hfw.
  { intros o sho E. destruct (decide (o = c)) as [->|Hoc].
    { exists shc'. rewrite Hc in E. injection E as <-. by split_and!. }
    destruct (decide (o = s)) as [->|Hos]; [|exists sho; split_and!; auto].
    rewrite Hs in E. injection E as <-. exists shs'. split_and!; auto. intros e He. apply Hkids. by right. }
  assert (∀ o sho p, shapes st !! o = Some sho → s_parent sho = Some p → o ≠ c) as Hnc by (intros; congruence).
  split.
  - intros o sho k' d E Ho Hk.
    assert ((o = s ∧ k' = k ∧ d = c) ∨ ∃ sho0, shapes st !! o = Some sho0 ∧ (k', d) ∈ kids sho0)
      as [(-> & -> & ->)|(sho0 & E0 & Hk0)].
    { rewrite Hsh in E. apply lookup_two in E as [[-> ->]|[(_ & -> & ->)|(_ & _ & E)]]; [by right; exists shc| |by right; exists sho].
      apply Hkids in Hk as [[= -> ->]|Hk]; [by left|right; by exists shs]. }
    { split; [done|]. by exists shc'. }
    destruct (t_kid _ _ _ T o sho0 k' d E0 Ho Hk0) as (Hlt' & shd & Ed & Hp & Hpk). split; [done|].
    destruct (Hfw d shd Ed) as (shd' & Ed' & Hpar & _). exists shd'.
    destruct (Hpar (Hnc d shd o Ed Hp)) as [-> ->]. done.
  - intros o sho E. rewrite Hsh in E. apply lookup_two in E as [[-> ->]|[(_ & -> & ->)|(_ & _ & E)]].
    + change (kids shc') with (kids shc). by apply (t_keys _ _ _ T c).
    + done.
    + by apply (t_keys _ _ _ T o).
  - intros o sho p E Hp.
    assert ((o = c ∧ sho = shc') ∨ ∃ sho0, shapes st !! o = Some sho0 ∧ s_parent sho0 = Some p ∧
      s_parent_key sho = s_parent_key sho0) as [[-> ->]|(sho0 & E0 & Hp0 & ->)].
    { rewrite Hsh in E. apply lookup_two in E as [[-> ->]|[(Hoc & -> & ->)|(Hoc & _ & E)]]; [by left| |].
      - right. exists shs. by rewrite <- P1.
      - right. by exists sho. }
    { injection Hp as <-. exists shs'. split; [done|]. apply Hkids. by left. }
    destruct (t_parent _ _ _ T o sho0 p E0 Hp0) as (shp & Ep & Hin).
    destruct (Hfw p shp Ep) as (shp' & Ep' & _ & Hkk & _). exists shp'. auto.
  - intros o sho E. rewrite Hr. unfold tree_refs.
    rewrite Hsh in E. apply lookup_two in E as [[-> ->]|[(Hoc & -> & ->)|(Hoc & _ & E)]].
    + destruct (t_refs _ _ _ T c shc Hc) as (H1 & H2 & H3). unfold tree_refs in H1. rewrite Hpc in H1.
      simpl. specialize (H3 (not_elem_of_empty c)). split_and!; lia.
    + destruct (t_refs _ _ _ T s shs Hs) as (H1 & H2 & H3). unfold tree_refs in H1. rewrite P1, P3. done.
    + by apply (t_refs _ _ _ T o).
  - intros o Ho. destruct (t_held _ _ _ T o Ho) as [sho E]. destruct (Hfw o sho E) as (? & ? & _). eauto.
  - intros i r. rewrite Hr. intros Hi. destruct (t_roots _ _ _ T i r Hi) as (shr & E & Hp & Hl).
    assert (r ≠ c) as Hrc by (intros ->; apply Hnr; by eapply list_elem_of_lookup_2).
    destruct (Hfw r shr E) as (shr' & E' & Hpar & _ & El). exists shr'. destruct (Hpar Hrc) as [-> _].
    rewrite El. done.
  - rewrite Hr. apply T.
Qed.

(** ** Transitions *)

Lemma find_entry_Some k l e : find_entry k l = Some e → e ∈ l ∧ e.1 = k.
Proof. intros E%List.find_some. destruct E as [Hin Hk]. apply list_elem_of_In in Hin. split; [done|lia]. Qed.

Lemma find_entry_None k l : find_entry k l = None → k ∉ l.*1.
Proof.
  intros E (e & -> & He)%list_elem_of_fmap. apply list_elem_of_In in He.
  pose proof (List.find_none _ _ E e He) as Hk. simpl in Hk. lia.
Qed.

Lemma find_child_Some sh k c : find_child sh k = Some c → (k, c) ∈ kids sh.
Proof.
  assert (snd <$> find_entry k (s_children sh) = Some c → (k, c) ∈ s_children sh) as Htab.
  { intros E. destruct (find_entry k (s_children sh)) as [[k' c']|] eqn:Ef; [|done].
    apply find_entry_Some in Ef as [Hin Hk]. simpl in *. congruence. }
  unfold find_child, kids. destruct (s_first_child sh); [|done]. case_match eqn:Ek; intros E.
  - injection E as ->. replace k with (s_first_child_key sh) by lia. left.
  - right. by apply Htab.
Qed.

Lemma find_child_None sh k : find_child sh k = None → k ∉ (kids sh).*1.
Proof.
  assert (snd <$> find_entry k (s_children sh) = None → k ∉ (s_children sh).*1) as Htab.
  { intros E. apply find_entry_None. by destruct (find_entry k (s_children sh)). }
  unfold find_child, kids. destruct (s_first_child sh); [|done]. case_match eqn:Ek; [done|]. intros E.
  rewrite fmap_cons, not_elem_of_cons. split; [simpl; lia|by apply Htab].
Qed.

(** The parent links of [st'] are those of [st]. *)
Definition parents_kept (st st' : state) : Prop :=
  ∀ o sho' p, shapes st' !! o = Some sho' → s_parent sho' = Some p →
    ∃ sho, shapes st !! o = Some sho ∧ s_parent sho = Some p ∧ s_parent_key sho = s_parent_key sho'.

#[global] Instance parents_kept_preorder : PreOrder parents_kept.
Proof.
  split; [intros st o sho' p E Hp; by exists sho'|]. intros st1 st2 st3 H1 H2 o sho' p E Hp.
  destruct (H2 o sho' p E Hp) as (sho2 & E2 & Hp2 & Hk2).
  destruct (H1 o sho2 p E2 Hp2) as (sho1 & E1 & Hp1 & Hk1). exists sho1. split_and!; congruence.
Qed.

Lemma tree_frame_parents st st' : tree_frame st st' → parents_kept st st'.
Proof.
  intros [_ Hf] o sho' p E Hp. destruct (tree_lookup st st' o sho' (Hf o) E) as (sho & E0 & Et).
  injection Et as _ _ _ _ _ _ _ Ep Ek. exists sho. split_and!; congruence.
Qed.

(** What recording the transition [k] from [s] to [c] leaves: perhaps nothing, if there is one
    for the key or no memory. *)
Definition recorded (held : gmultiset sid) (st : state) (s : sid) (k : Z) (c : sid) (st' : state) : Prop :=
  links st' ∧ tree_ok held ∅ st' ∧ quiet st st' ∧
  (∀ o, slots st' o = slots st o ∧ (is_Some (shapes st' !! o) ↔ is_Some (shapes st !! o))) ∧
  ∀ o sho' p, shapes st' !! o = Some sho' → s_parent sho' = Some p →
    (o = c ∧ p = s ∧ s_parent_key sho' = k) ∨
    ∃ sho, shapes st !! o = Some sho ∧ s_parent sho = Some p ∧ s_parent_key sho = s_parent_key sho'.

Lemma recorded_same held st s k c st' :
  links st → tree_ok held ∅ st → shapes st' = shapes st → descs st' = descs st → quiet st st' →
  recorded held st s k c st'.
Proof.
  intros L T Hsh Hd Hq. destruct (links_frame st st' L) as [L' Hsl]; [by intros o; rewrite Hsh|done|apply Hq|].
  split; [done|]. split.
  { apply (tree_ok_frame held ∅ st st' T). split; [done|]. intros o. by rewrite Hsh. }
  split; [done|]. split; [intros o; by rewrite Hsh, Hsl|]. intros o sho' p. rewrite Hsh. intros E Hp.
  right. by exists sho'.
Qed.

(** The end of [shape_record_child], once [s] has the new entry. *)
Lemma link_child_spec held st st1 s shs shs' c shc k :
  links st → tree_ok held ∅ st → shapes st !! s = Some shs → shapes st !! c = Some shc → (s < c)%nat →
  s_parent shc = None → (Some c ∉ g_root_shapes st) → s_ref_count shc < 2 ^ 32 - 1 →
  k ∉ (kids shs).*1 → kids shs' ≡ₚ (k, c) :: kids shs → link_of shs' = link_of shs →
  s_parent shs' = s_parent shs → s_parent_key shs' = s_parent_key shs →
  s_ref_count shs' = s_ref_count shs → s_inobj_limit shs' = s_inobj_limit shs →
  shapes st1 = <[s := shs']> (shapes st) → descs st1 = descs st → quiet st st1 →
  wp (ant_shape_retain (Some c) ;; upd_shape c (set_s_parent_link (Some s) k)) st1
    (λ _ st', recorded held st s k c st').
Proof.
  intros L T Hs Hc Hlt Hpc Hnr Hb Hk Hkids Pl P1 P2 P3 P4 Hsh Hd Hq. assert (s ≠ c) as Hne by lia.
  assert (shapes st1 !! c = Some shc) as Hc1 by (by rewrite Hsh, lookup_insert_ne).
  destruct (t_refs _ _ _ T c shc Hc) as (_ & _ & Hpos). specialize (Hpos (not_elem_of_empty c)).
  unfold ant_shape_retain. apply wp_bind. eapply wp_upd_shape; [exact Hc1|].
  eapply wp_upd_shape; [apply lookup_insert_eq|]. rewrite u32_small by lia. cbn [shapes set_shapes].
  rewrite insert_insert_eq, Hsh. set (shc' := set_s_parent_link _ _ _). set (st' := set_shapes _ _).
  assert (same_tables st st') as Htab.
  { transitivity (set_shapes (<[s := shs']> (shapes st)) st).
    - by apply (same_tables_insert st _ s shs shs').
    - apply (same_tables_insert _ st' c shc shc'); try done. simpl. by rewrite lookup_insert_ne. }
  destruct (same_tables_links st st' L Htab) as [L' Hsl]. split; [done|]. split; [|split; [apply Hq|split]].
  - eapply (tree_ok_link held st st' s shs shs' c shc k); try done; [| |apply Hq].
    + intros e. rewrite Hkids, elem_of_cons. done.
    + rewrite Hkids. apply NoDup_cons. split; [done|]. by apply (t_keys _ _ _ T s).
  - intros o. split; [done|]. destruct Htab as (Hl & _). specialize (Hl o).
    destruct (shapes st' !! o), (shapes st !! o); done.
  - intros o sho' p E Hp. simpl in E. apply lookup_two in E as [[-> ->]|[(_ & -> & ->)|(_ & _ & E)]].
    + left. injection Hp as <-. done.
    + right. exists shs. by rewrite <- P1, <- P2.
    + right. by exists sho'.
Qed.

Section Interface.

Context `{Bounded}.

Lemma entry_alloc_spec st (Q : bool → state → Prop) :
  (∀ ok st', shapes st' = shapes st → descs st' = descs st → quiet st st' → Q ok st') →
  wp shape_entry_alloc st Q.
Proof.
  intros HQ. unfold shape_entry_alloc. step. case_ltb.
  - step. step. by apply HQ.
  - apply wp_bind, wp_alloc; intros _; step; apply HQ; done || quiet.
Qed.

Lemma record_child_spec held st s shs c shc k :
  links st → tree_ok held ∅ st → shapes st !! s = Some shs → shapes st !! c = Some shc → (s < c)%nat →
  s_parent shc = None → (Some c ∉ g_root_shapes st) → s_ref_count shc < 2 ^ 32 - 1 →
  wp (shape_record_child s k c) st (λ _ st', recorded held st s k c st').
Proof.
  intros L T Hs Hc Hlt Hpc Hnr Hb. unfold shape_record_child, shape_find_child. step. step.
  destruct (find_child shs k) as [d|] eqn:Hf; [step; by apply recorded_same|].
  pose proof (find_child_None shs k Hf) as Hk. step. apply wp_bind.
  destruct (s_first_child shs) as [d|] eqn:Hfc.
  - apply wp_bind, entry_alloc_spec. intros ok st1 E1 E2 E3.
    destruct ok; cbn [negb]; [step|step; cbn [negb]; step; by apply recorded_same].
    eapply wp_upd_shape; [by rewrite E1|]. step.
    eapply (link_child_spec held st _ s shs (set_s_children (s_children shs ++ [(k, c)]) shs));
      try done; [|simpl; by rewrite E1].
    unfold kids. simpl. rewrite Hfc. by rewrite Permutation_app_comm, Permutation_swap.
  - step. step. eapply (link_child_spec held st _ s shs (set_s_first_child k (Some c) shs)); try done.
    unfold kids. simpl. by rewrite Hfc.
Qed.

(** ** Coherent transitions *)

(** Names as they are on a 64-bit machine: addresses and offsets that fit 54 bits. *)
Definition short_name (type : ant_shape_key_type_t) (key : Z) : Prop := name_ok type key ∧ key < 2 ^ 54.

Lemma shape_child_key_add type key attrs :
  short_name type key → 0 <= attrs < 256 →
  shape_child_key (shape_key type key) attrs = shape_key type key + attrs * 2 ^ 56 ∧
  0 <= shape_key type key < 2 ^ 56.
Proof.
  intros [Hn Hk] Ha. assert (0 <= shape_key type key < 2 ^ 56) as Hs.
  { destruct type; simpl in *; [| |done]; unfold shape_key_interned, shape_key_symbol;
      rewrite shiftl_mul by lia; rewrite u64_small by lia; rewrite ?lor_add_low by lia; lia. }
  split; [|done]. unfold shape_child_key. rewrite shiftl_mul, u64_small by lia.
  symmetry. apply Z.add_nocarry_lxor. rewrite Z.land_comm. by apply land_low_0.
Qed.

Lemma shape_child_key_inj type key attrs type' key' attrs' :
  short_name type key → short_name type' key' → 0 <= attrs < 256 → 0 <= attrs' < 256 →
  shape_child_key (shape_key type key) attrs = shape_child_key (shape_key type' key') attrs' →
  type = type' ∧ key = key' ∧ attrs = attrs'.
Proof.
  intros Hn Hn' Ha Ha'. destruct (shape_child_key_add type key attrs Hn Ha) as [-> Hb].
  destruct (shape_child_key_add type' key' attrs' Hn' Ha') as [-> Hb']. intros E.
  assert (attrs = attrs') as -> by lia.
  destruct (shape_key_inj type key type' key') as [-> ->]; [apply Hn|apply Hn'|lia|done].
Qed.

(** A child has the properties of its parent and the one its key stands for. *)
Definition leads_to (st : state) (p : sid) (k : Z) (c : sid) : Prop :=
  ∃ type key attrs l, short_name type key ∧ 0 <= attrs < 256 ∧
    k = shape_child_key (shape_key type key) attrs ∧ slots st p = Some l ∧
    slots st c = Some (add_prop type key attrs l).

Definition coherent (st : state) : Prop :=
  ∀ c shc p, shapes st !! c = Some shc → s_parent shc = Some p → leads_to st p (s_parent_key shc) c.

Lemma slots_alive st s l : slots st s = Some l → is_Some (shapes st !! s).
Proof. unfold slots. by destruct (shapes st !! s). Qed.

Lemma alive_slots st s : links st → is_Some (shapes st !! s) → is_Some (slots st s).
Proof. intros L [sh E]. destruct (links_shape st L s sh E) as (x & Hx & _). rewrite (slots_eq st s sh x); eauto. Qed.

Lemma coherent_kept held st st' :
  coherent st → tree_ok held ∅ st' → parents_kept st st' →
  (∀ o, is_Some (shapes st' !! o) → slots st' o = slots st o) → coherent st'.
Proof.
  intros C T' Hpk Hsl c shc p E Hp. destruct (Hpk c shc p E Hp) as (shc0 & E0 & Hp0 & <-).
  destruct (t_parent _ _ _ T' c shc p E Hp) as (shp & Ep & _).
  destruct (C c shc0 p E0 Hp0) as (type & key & attrs & l & H1 & H2 & H3 & H4 & H5).
  exists type, key, attrs, l. rewrite !Hsl by eauto. done.
Qed.

(** Changing a shape outside the tree. *)
Lemma coherent_changed held st s sh l st' :
  coherent st → tree_ok held ∅ st → shapes st !! s = Some sh → s_parent sh = None → kids sh = [] →
  changed st s l st' → coherent st'.
Proof.
  intros C T Hs Hp Hk (L' & Hf & _ & Hsl) c shc p E Hpc.
  destruct (tree_frame_parents st st' Hf c shc p E Hpc) as (shc0 & E0 & Hp0 & <-).
  assert (c ≠ s) as Hcs by congruence. assert (p ≠ s) as Hps.
  { intros ->. destruct (t_parent _ _ _ T c shc0 s E0 Hp0) as (shs & Es & Hin).
    rewrite Hs in Es. injection Es as <-. rewrite Hk in Hin. by apply not_elem_of_nil in Hin. }
  destruct (C c shc0 p E0 Hp0) as (type & key & attrs & l0 & H1 & H2 & H3 & H4 & H5).
  exists type, key, attrs, l0. rewrite !Hsl by done. done.
Qed.

(** Following a transition of a coherent tree. *)
Lemma coherent_child held st s sh l c type key attrs :
  coherent st → tree_ok held ∅ st → shapes st !! s = Some sh → slots st s = Some l →
  short_name type key → 0 <= attrs < 256 →
  find_child sh (shape_child_key (shape_key type key) attrs) = Some c →
  slots st c = Some (add_prop type key attrs l).
Proof.
  intros C T Hs Hl Hn Ha Hf. apply find_child_Some in Hf.
  destruct (t_kid _ _ _ T s sh _ c Hs (not_elem_of_empty s) Hf) as (_ & shc & Ec & Hp & Hk).
  destruct (C c shc s Ec Hp) as (type' & key' & attrs' & l' & Hn' & Ha' & Hk' & Hl' & Hc).
  rewrite Hk in Hk'. destruct (shape_child_key_inj type key attrs type' key' attrs') as (<- & <- & <-); try done.
  congruence.
Qed.

Lemma find_name_add type key attrs l :
  slots_ok l → name_ok type key →
  find_name type key (add_prop type key attrs l) = Some (default (length l) (find_name type key l)).
Proof.
  intros Hok Hn. unfold add_prop. destruct (find_name type key l) as [i|] eqn:Hf; simpl.
  - pose proof Hf as (p & Hp & Hnm)%find_name_Some; [|done..].
    unfold find_name in *. rewrite (alter_as_insert _ _ _ p) by done.
    destruct (list_find (named type key) l) as [[i' p']|] eqn:E; [|done]. injection Hf as ->.
    apply list_find_Some in E as (_ & _ & Hfirst).
    erewrite (proj2 (list_find_Some _ _ i (set_attrs attrs p))); [done|]. split_and!; [|done|].
    + apply list_lookup_insert_eq. by eapply lookup_lt_Some.
    + intros j y Hj Hlt. rewrite list_lookup_insert_ne in Hj by lia. by eapply Hfirst.
  - unfold find_name in *. destruct (list_find (named type key) l) as [e|] eqn:E; [done|].
    rewrite list_find_app_r by done. simpl. rewrite decide_True by done. simpl. f_equal; lia.
Qed.

(** ** Moving from one shape to another *)

(** No shape has close to 2^32 references. *)
Definition few (held : gmultiset sid) : Prop := ∀ o, Z.of_nat (multiplicity o held) < 2 ^ 32 - 3.

Lemma few_refs held st s sh :
  tree_ok held ∅ st → few held → shapes st !! s = Some sh → s_ref_count sh < 2 ^ 32 - 1.
Proof.
  intros T Hf Hs. destruct (t_refs _ _ _ T s sh Hs) as (-> & _ & _). specialize (Hf s). unfold tree_refs.
  destruct (s_parent sh); case_decide; lia.
Qed.

(** The shapes that are left have the properties and parents they had. *)
Definition kept (st st' : state) : Prop :=
  quiet st st' ∧ parents_kept st st' ∧
  ∀ o, is_Some (shapes st' !! o) → is_Some (shapes st !! o) ∧ slots st' o = slots st o.

#[global] Instance kept_preorder : PreOrder kept.
Proof.
  split; [by intros st|]. intros st1 st2 st3 (Q1 & P1 & S1) (Q2 & P2 & S2). split_and!; [by etrans..|].
  intros o Ho. destruct (S2 o Ho) as [Ho2 ->]. by apply S1.
Qed.

Lemma kept_stable st st' : stable st st' → kept st st'.
Proof.
  intros [Hf Hsl]. split; [apply Hf|]. split; [by apply tree_frame_parents|]. intros o [sho E]. split; [|done].
  destruct Hf as [_ Hf]. destruct (tree_lookup st st' o sho (Hf o) E) as (sho0 & ? & _). eauto.
Qed.

Lemma kept_released st s st' : released ∅ s st st' → kept st st'.
Proof. intros [Hst Hsl _ _ Hp]. split; [by apply still_quiet|done]. Qed.

Lemma kept_coherent held st st' : coherent st → tree_ok held ∅ st' → kept st st' → coherent st'.
Proof. intros C T (_ & Hp & Hsl). eapply coherent_kept; try done. intros o Ho. by apply Hsl. Qed.

Lemma held_move (held : gmultiset sid) s c :
  s ∈ held → ({[+ c +]} ⊎ held) ∖ {[+ s +]} = {[+ c +]} ⊎ held ∖ {[+ s +]}.
Proof. multiset_solver. Qed.

(** An object moves from [s] to [c]. *)
Lemma move_spec {A} held st s c shc (r : A) :
  links st → tree_ok held ∅ st → few held → s ∈ held → shapes st !! c = Some shc →
  wp (ant_shape_retain (Some c) ;; ant_shape_release (Some s) ;; mret r) st (λ r' st', r' = r ∧
    links st' ∧ tree_ok ({[+ c +]} ⊎ held ∖ {[+ s +]}) ∅ st' ∧ kept st st').
Proof.
  intros L T Hf Hs Hc. pose proof (few_refs held st c shc T Hf Hc) as Hb.
  eapply wp_call; [by apply (retain_spec held st c shc)|]. intros _ st1 (L1 & T1 & Hq & Hsl & Hsh).
  eapply wp_call; [apply (release_spec ({[+ c +]} ⊎ held) st1 s); auto|].
  intros _ st2 (L2 & T2 & Hr). rewrite held_move in T2 by done. step. split_and!; try done.
  etrans; [|by eapply kept_released]. split; [done|]. split.
  - intros o sho p E Hp. rewrite Hsh, lookup_insert_Some in E. destruct E as [[<- <-]|[_ E]]; [by exists shc|by exists sho].
  - intros o Ho. split; [|done]. rewrite Hsh in Ho. destruct (decide (c = o)) as [<-|Hne]; [eauto|].
    by rewrite lookup_insert_ne in Ho.
Qed.

Lemma copy_of_kept st s n st' :
  copy_of st s n st' → parents_kept st st' ∧ ∀ o, o ≠ n → shapes st' !! o = shapes st !! o.
Proof.
  intros [_ _ _ (shn & Hsh & _ & _ & _ & Hp) _ _]. split.
  - intros o sho p E Hpo. rewrite Hsh, lookup_insert_Some in E. destruct E as [[<- <-]|[_ E]]; [congruence|by exists sho].
  - intros o Ho. by rewrite Hsh, lookup_insert_ne.
Qed.

(** ** [shape_add_tr] *)

(** What an object that moves from [s] by adding a property finds. *)
Definition transitioned (held : gmultiset sid) (st : state) (s : sid) (l : list ant_shape_prop_t)
    (type : ant_shape_key_type_t) (key attrs : Z) (st' : state) (s' : sid) (slot : Z) : Prop :=
  links st' ∧ tree_ok ({[+ s' +]} ⊎ held ∖ {[+ s +]}) ∅ st' ∧ quiet st st' ∧
  (∀ o, o ≠ s' → is_Some (shapes st' !! o) → is_Some (shapes st !! o) ∧ slots st' o = slots st o) ∧
  (coherent st → slots st' s' = Some (add_prop type key attrs l) ∧
     slot = Z.of_nat (default (length l) (find_name type key l))) ∧
  (coherent st → (∀ sh, shapes st !! s = Some sh → shape_is_in_tree sh = false → kids sh = []) → coherent st').

(** If memory runs out the object stays where it is. *)
Definition untransitioned (held : gmultiset sid) (st : state) (st' : state) : Prop :=
  links st' ∧ tree_ok held ∅ st' ∧ kept st st' ∧ (coherent st → coherent st') ∧ refused.

Lemma untransitioned_stable held st st' :
  tree_ok held ∅ st → links st' → stable st st' → refused → untransitioned held st st'.
Proof.
  intros T L' Hst Hr. pose proof (kept_stable st st' Hst) as Hk.
  assert (tree_ok held ∅ st') as T' by (eapply tree_ok_frame; [done|apply Hst]).
  split_and!; try done. intros C. by eapply kept_coherent.
Qed.

(** What [shape_add_tr] returns: [*shape_pp] and the slot. *)
Definition moved (held : gmultiset sid) (st : state) (s : sid) (l : list ant_shape_prop_t)
    (type : ant_shape_key_type_t) (key attrs : Z) (r : option sid * option Z) (st' : state) : Prop :=
  match r with
  | (Some s', Some slot) => transitioned held st s l type key attrs st' s' slot
  | (r', None) => r' = Some s ∧ untransitioned held st st'
  | _ => False
  end.

(** A shape outside the tree is changed in place. *)
Lemma add_tr_inplace held st s sh l type key attrs :
  links st → tree_ok held ∅ st → s ∈ held → shapes st !! s = Some sh → slots st s = Some l → name_ok type key →
  shape_is_in_tree sh = false →
  wp (r ← shape_add_key (Some s) type key attrs; mret (Some s, r)) st (moved held st s l type key attrs).
Proof.
  intros L T Hh Hs Hl Hn Hin. eapply wp_call; [by apply (add_key_spec st s l); [|eauto| |]|].
  intros [slot|] st'; [|intros (L' & Hst & Hr); step; split; [done|]; by apply untransitioned_stable].
  intros [Hch Hslot]. pose proof Hch as (L' & Hf & Hs' & Hsl). step.
  assert ({[+ s +]} ⊎ held ∖ {[+ s +]} = held) as Eh by multiset_solver.
  split; [done|]. rewrite Eh. split; [by eapply tree_ok_frame|]. split; [apply Hf|]. split_and!.
  - intros o Ho [sho E]. split; [|by apply Hsl]. destruct Hf as [_ Hf].
    destruct (tree_lookup st st' o sho (Hf o) E) as (? & ? & _). eauto.
  - done.
  - intros C Hkids. assert (s_parent sh = None) as Hp.
    { unfold shape_is_in_tree in Hin. destruct (s_parent sh); [|done]. by rewrite orb_true_r in Hin. }
    eapply coherent_changed; try done. by apply Hkids.
Qed.

(** A transition that was made before is followed. *)
Lemma add_tr_follow held st s sh l c lc i type key attrs :
  links st → tree_ok held ∅ st → few held → s ∈ held → shapes st !! s = Some sh → slots st s = Some l →
  short_name type key → 0 <= attrs < 256 → slots_ok l →
  find_child sh (shape_child_key (shape_key type key) attrs) = Some c →
  slots st c = Some lc → find_name type key lc = Some i →
  wp (ant_shape_retain (Some c) ;; ant_shape_release (Some s) ;; mret (Some c, Some (Z.of_nat i))) st
    (moved held st s l type key attrs).
Proof.
  intros L T Hf Hh Hs Hl Hn Ha Hok Hfc Hlc Hi. destruct (slots_alive st c lc Hlc) as [shc Hc].
  eapply wp_mono; [by apply (move_spec held st s c shc)|]. intros _ st' (-> & L' & T' & Hk). pose proof Hk as (Hq & _ & Hsl).
  assert (is_Some (shapes st' !! c)) as Hc' by (apply (t_held _ _ _ T'); auto).
  destruct (Hsl c Hc') as [_ Hslc]. split_and!; try done.
  - intros o _ Ho. by apply Hsl.
  - intros C. pose proof (coherent_child held st s sh l c type key attrs C T Hs Hl Hn Ha Hfc) as Hadd.
    rewrite Hslc. split; [done|]. rewrite Hlc in Hadd. injection Hadd as ->.
    rewrite find_name_add in Hi by (done || apply Hn). congruence.
  - intros C _. by eapply kept_coherent.
Qed.

(** The store after [s] was copied to [n] and the property was added there. *)
Record extended (held : gmultiset sid) (st : state) (s n : sid) (l : list ant_shape_prop_t) (st' : state)
    : Prop := mk_extended {
  e_links : links st';
  e_tree : tree_ok ({[+ n +]} ⊎ held) ∅ st';
  e_quiet : quiet st st';
  e_fresh : shapes st !! n = None;
  e_new : ∃ shn, shapes st' !! n = Some shn ∧ s_parent shn = None ∧ s_ref_count shn = 1;
  e_slots : slots st' n = Some l;
  e_others o : o ≠ n → slots st' o = slots st o ∧ tree_of <$> shapes st' !! o = tree_of <$> shapes st !! o
}.

Lemma extended_copy held st s n l st1 :
  links st → tree_ok held ∅ st → slots st s = Some l → copy_of st s n st1 → extended held st s n l st1.
Proof.
  intros L T Hl Hc. destruct (copy_of_kept st s n st1 Hc) as [_ Hoth].
  pose proof (tree_ok_copy held st s n st1 L T Hc) as T1.
  destruct Hc as [L1 Hf Hq (shn & Hsh & Hr & _ & _ & Hp) Hsl Hother]. split; try done.
  - by apply links_fresh_shape.
  - exists shn. by rewrite Hsh, lookup_insert_eq.
  - by rewrite Hsl.
  - intros o Ho. rewrite Hoth, Hother by done. done.
Qed.

Lemma extended_changed held st s n l st1 l' st2 :
  extended held st s n l st1 → changed st1 n l' st2 → extended held st s n l' st2.
Proof.
  intros [L1 T1 Hq Hf (shn & Hn & Hp & Hr) Hs Ho] (L2 & Hfr & Hs2 & Hsl2). split; try done.
  - by eapply tree_ok_frame.
  - etrans; [done|]. apply Hfr.
  - destruct Hfr as [_ Hfr]. specialize (Hfr n). rewrite Hn in Hfr.
    destruct (shapes st2 !! n) as [shn2|]; [|done]. exists shn2.
    injection Hfr as Er _ _ _ _ _ _ Ep _. split_and!; congruence.
  - intros o Hne. destruct (Ho o Hne) as [H1 H2]. rewrite Hsl2 by done. split; [done|].
    destruct Hfr as [_ Hfr]. by rewrite Hfr.
Qed.

Lemma extended_parents held st s n l st' : extended held st s n l st' → parents_kept st st'.
Proof.
  intros [_ _ _ _ (shn & Hn & Hp & _) _ Ho] o sho p E Hpo. destruct (decide (o = n)) as [->|Hne]; [congruence|].
  destruct (Ho o Hne) as [_ Et]. destruct (tree_lookup st st' o sho Et E) as (sho0 & E0 & [= _ _ _ _ _ _ _ E1 E2]).
  exists sho0. split_and!; congruence.
Qed.

Lemma extended_alive held st s n l st' o :
  extended held st s n l st' → o ≠ n → is_Some (shapes st' !! o) → is_Some (shapes st !! o).
Proof.
  intros X Ho [sho E]. destruct (e_others _ _ _ _ _ _ X o Ho) as [_ Et].
  destruct (tree_lookup st st' o sho Et E) as (sho0 & ? & _). eauto.
Qed.

(** The copy is given up: it leaves no trace. *)
Lemma extended_release held st s n l st1 :
  tree_ok held ∅ st → extended held st s n l st1 →
  wp (ant_shape_release (Some n)) st1 (λ _ st', links st' ∧ tree_ok held ∅ st' ∧ kept st st').
Proof.
  intros T X. pose proof X as [L1 T1 Hq1 Hf (shn & Hn & Hp & _) _ Ho].
  eapply wp_mono; [apply (release_spec ({[+ n +]} ⊎ held) st1 n); auto|].
  intros _ st' (L' & T' & Hr). rewrite held_cancel in T'. split; [done|]. split; [done|].
  pose proof (kept_released st1 n st' Hr) as (Hq & Hpk & Hsl).
  destruct (tree_ok_absent held ∅ st n T Hf) as [Hm Hnr].
  assert (shapes st' !! n = None) as Hgone.
  { destruct (shapes st' !! n) as [shn'|] eqn:E; [|done].
    destruct (t_refs _ _ _ T' n shn' E) as (H1 & _ & H3). specialize (H3 (not_elem_of_empty n)).
    rewrite Hm in H1. unfold tree_refs in H1. destruct (s_parent shn') as [p|] eqn:Ep.
    - destruct (Hpk n shn' p E Ep) as (shn0 & E0 & Hp0 & _). congruence.
    - destruct Hq as (Eq & _), Hq1 as (Eq1 & _). rewrite Eq, Eq1, decide_False in H1 by done. lia. }
  split; [by etrans|]. split; [etrans; [by eapply extended_parents|done]|].
  intros o Ho'. assert (o ≠ n) as Hne by (intros ->; destruct Ho'; congruence).
  destruct (Hsl o Ho') as [H1 ->]. split; [by eapply extended_alive|]. by apply Ho.
Qed.

(** The transition to the copy is recorded. *)
Lemma recorded_coherent held st s n l type key attrs st2 st3 :
  tree_ok held ∅ st → coherent st → slots st s = Some l → short_name type key → 0 <= attrs < 256 → s ≠ n →
  extended held st s n (add_prop type key attrs l) st2 →
  recorded ({[+ n +]} ⊎ held) st2 s (shape_child_key (shape_key type key) attrs) n st3 → coherent st3.
Proof.
  intros T C Hl Hn Ha Hne X (_ & _ & _ & Hsl & Hpar) o sho p E Hp.
  destruct (Hpar o sho p E Hp) as [(-> & -> & ->)|(sho2 & E2 & Hp2 & <-)].
  - exists type, key, attrs, l. split; [done|]. split; [done|]. split; [done|]. split.
    + rewrite (proj1 (Hsl s)), (proj1 (e_others _ _ _ _ _ _ X s Hne)). done.
    + rewrite (proj1 (Hsl n)). by apply X.
  - destruct (extended_parents _ _ _ _ _ _ X o sho2 p E2 Hp2) as (sho0 & E0 & Hp0 & <-).
    destruct (t_parent _ _ _ T o sho0 p E0 Hp0) as (shp & Ep & _). pose proof (e_fresh _ _ _ _ _ _ X) as Hf.
    destruct (C o sho0 p E0 Hp0) as (type' & key' & attrs' & l' & H1 & H2 & H3 & H4 & H5).
    exists type', key', attrs', l'. rewrite (proj1 (Hsl o)), (proj1 (Hsl p)).
    rewrite (proj1 (e_others _ _ _ _ _ _ X o ltac:(congruence))).
    rewrite (proj1 (e_others _ _ _ _ _ _ X p ltac:(congruence))). done.
Qed.

(** The new shape takes the place of the old. *)
Lemma recorded_release held st s n l type key attrs st2 st3 slot :
  tree_ok held ∅ st → s ∈ held → slots st s = Some l → short_name type key → 0 <= attrs < 256 →
  extended held st s n (add_prop type key attrs l) st2 →
  recorded ({[+ n +]} ⊎ held) st2 s (shape_child_key (shape_key type key) attrs) n st3 →
  slot = Z.of_nat (default (length l) (find_name type key l)) →
  wp (ant_shape_release (Some s)) st3 (λ _ st', transitioned held st s l type key attrs st' n slot).
Proof.
  intros T Hh Hl Hn Ha X Hrec Hslot. pose proof Hrec as (L3 & T3 & Hq3 & Hsl3 & _).
  assert (s ≠ n) as Hne.
  { intros ->. pose proof (e_fresh _ _ _ _ _ _ X). destruct (t_held _ _ _ T n Hh). congruence. }
  eapply wp_mono; [apply (release_spec ({[+ n +]} ⊎ held) st3 s); auto|].
  intros _ st' (L' & T' & Hr). rewrite held_move in T' by done.
  pose proof (kept_released st3 s st' Hr) as Hk. pose proof Hk as (Hq & _ & Hsl).
  split; [done|]. split; [done|]. split_and!.
  - etrans; [apply X|]. by etrans.
  - intros o Ho Ho'. destruct (Hsl o Ho') as [H1 ->]. destruct (Hsl3 o) as [-> Hiff]. apply Hiff in H1.
    split; [by eapply extended_alive|]. by apply X.
  - intros _. split; [|done]. assert (is_Some (shapes st' !! n)) as Hn' by (apply (t_held _ _ _ T'); auto).
    destruct (Hsl n Hn') as [_ ->]. rewrite (proj1 (Hsl3 n)). apply X.
  - intros C _. eapply kept_coherent; [|done..]. by apply (recorded_coherent held st s n l type key attrs st2).
Qed.

Lemma slots_good st s l : links st → slots st s = Some l → slots_ok l.
Proof.
  intros L Hl. destruct (slots_alive st s l Hl) as [sh Hs]. destruct (links_shape st L s sh Hs) as (x & Hx & _).
  rewrite (slots_eq st s sh x) in Hl by done. injection Hl as <-. by apply (slots_view_ok st s).
Qed.

(** A new shape is made for the transition, and recorded unless the object keeps it for itself. *)
Lemma add_tr_copy held st s sh l n st1 type key attrs (private : bool) :
  links st → tree_ok held ∅ st → s ∈ held → shapes st !! s = Some sh → slots st s = Some l →
  short_name type key → 0 <= attrs < 256 → copy_of st s n st1 →
  wp (r ← shape_add_key (Some n) type key attrs;
      match r with
      | None => ant_shape_release (Some n) ;; mret (Some s, None)
      | Some slot =>
          (if private then mret tt else shape_record_child s (shape_child_key (shape_key type key) attrs) n) ;;
          ant_shape_release (Some s) ;;
          mret (Some n, Some slot)
      end) st1 (moved held st s l type key attrs).
Proof.
  intros L T Hh Hs Hl Hn Ha Hc. pose proof (extended_copy held st s n l st1 L T Hl Hc) as X1.
  pose proof (e_slots _ _ _ _ _ _ X1) as Hln. pose proof (links_young_shape st L s sh Hs) as Hy.
  eapply wp_call.
  { apply (add_key_spec st1 n l); [apply X1|by eapply slots_alive|done|apply Hn]. }
  intros [slot|] st2.
  - intros [Hch Hslot]. pose proof (extended_changed _ _ _ _ _ _ _ _ X1 Hch) as X2.
    pose proof X2 as [L2 T2 Hq2 Hf2 (shn & Hn2 & Hp2 & Hr2) _ Ho2].
    assert (s < n)%nat as Hlt by (destruct Hc; lia).
    destruct (shapes st2 !! s) as [sh2|] eqn:Es2.
    2:{ destruct (Ho2 s) as [_ E]; [lia|]. by rewrite Es2, Hs in E. }
    apply (wp_call _ _ _ (λ _ st3, recorded ({[+ n +]} ⊎ held) st2 s (shape_child_key (shape_key type key) attrs) n st3)).
    + destruct private; [step; by apply recorded_same|]. eapply record_child_spec; try done; [|lia].
      destruct Hq2 as (-> & _). by apply (tree_ok_absent held ∅ st n T Hf2).
    + intros _ st3 Hrec. eapply wp_call; [by apply (recorded_release held st s n l type key attrs st2 st3 slot)|].
      intros ? st4 Htr. by step.
  - intros (L2 & Hst & Hr). assert (extended held st s n l st2) as X2.
    { apply (extended_changed held st s n l st1 l st2 X1). split; [done|]. split; [apply Hst|].
      destruct Hst as [_ Hsl]. split; [by rewrite Hsl|auto]. }
    eapply wp_call; [by apply (extended_release held st s n l st2)|]. intros _ st3 (L3 & T3 & Hk). step.
    split; [done|]. split; [done|]. split; [done|]. split; [done|]. split; [|done].
    intros C. by eapply kept_coherent.
Qed.

(** The shape made for a transition. *)
Lemma transition_copy_spec st s sh (private : bool) :
  links st → uncrowded st → shapes st !! s = Some sh →
  wp (if private then shape_clone_reserve (Some s) 1 else shape_copy_for_transition s) st (λ r st',
    match r with
    | None => links st' ∧ stable st st' ∧ refused
    | Some n => copy_of st s n st'
    end).
Proof.
  intros L U Hs. destruct private; [by eapply clone_reserve_spec|by eapply copy_for_transition_spec].
Qed.

(** Adding a property to an object of shape [s]. *)
Lemma add_tr_spec held st s l type key attrs max :
  links st → tree_ok held ∅ st → few held → uncrowded st → s ∈ held → slots st s = Some l →
  short_name type key → 0 <= attrs < 256 →
  wp (shape_add_tr (Some s) type key attrs max) st (moved held st s l type key attrs).
Proof.
  intros L T Hf U Hh Hl Hn Ha. destruct (slots_alive st s l Hl) as [sh Hs].
  assert (wp (copy ← (if s_bulk_layout sh || (max <=? s_count sh) then shape_clone_reserve (Some s) 1
                      else shape_copy_for_transition s);
      match copy with
      | None => mret (Some s, None)
      | Some c =>
          r ← shape_add_key copy type key attrs;
          match r with
          | None => ant_shape_release copy ;; mret (Some s, None)
          | Some slot =>
              (if s_bulk_layout sh || (max <=? s_count sh) then mret tt
               else shape_record_child s (shape_child_key (shape_key type key) attrs) c) ;;
              ant_shape_release (Some s) ;; mret (copy, Some slot)
          end
      end) st (moved held st s l type key attrs)) as Hnew.
  { eapply wp_call; [by apply (transition_copy_spec st s sh)|]. intros [n|] st1.
    - intros Hc. by eapply add_tr_copy.
    - intros (L1 & Hst & Hr). step. split; [done|]. by apply untransitioned_stable. }
  unfold shape_add_tr. step. destruct (shape_is_in_tree sh) eqn:Hin; cbn [negb];
    [|eapply add_tr_inplace; try done; apply Hn].
  unfold shape_find_child. step. step. step.
  destruct (find_child sh _) as [c|] eqn:Hfc; [|by step].
  pose proof (find_child_Some sh _ c Hfc) as Hkid.
  destruct (t_kid _ _ _ T s sh _ c Hs (not_elem_of_empty s) Hkid) as (_ & shc & Hc & _ & _).
  destruct (links_shape st L c shc Hc) as (x & Hx & _).
  destruct (alive_slots st c L ltac:(eauto)) as [lc Hlc].
  eapply wp_mono; [apply (lookup_spec st c shc x lc type key); try done; apply Hn|].
  intros [[p slot]|] st' [-> Hr]; [|done]. destruct Hr as (i & -> & Hi & _).
  eapply add_tr_follow; try done. by eapply slots_good.
Qed.

(** ** New shapes and moves *)

(** What a caller of [ant_shape_clone] finds: the new shape has the properties of the old. *)
Definition cloned (held : gmultiset sid) (st : state) (s : sid) (r : option sid) (st' : state) : Prop :=
  links st' ∧ quiet st st' ∧ (coherent st → coherent st') ∧
  match r with
  | None => tree_ok held ∅ st' ∧ stable st st' ∧ refused
  | Some n => tree_ok ({[+ n +]} ⊎ held) ∅ st' ∧ (clock st < n)%nat ∧ slots st' n = slots st s ∧
      ∀ o, o ≠ n → slots st' o = slots st o ∧ (is_Some (shapes st' !! o) ↔ is_Some (shapes st !! o))
  end.

Lemma clone_spec held st s extra :
  links st → tree_ok held ∅ st → is_Some (shapes st !! s) → 0 <= extra < 2 ^ 28 →
  wp (shape_clone_reserve (Some s) extra) st (cloned held st s).
Proof.
  intros L T [sh Hs] He. eapply wp_mono; [by eapply clone_reserve_spec|]. intros [n|] st'.
  - intros Hc. destruct (copy_of_kept st s n st' Hc) as [Hp Hoth].
    destruct (alive_slots st s L ltac:(eauto)) as [l Hl].
    pose proof (extended_copy held st s n l st' L T Hl Hc) as X.
    destruct Hc as [L' Hf Hq _ Hsl Ho]. split_and!; try done.
    + intros C o sho p E Hpo. destruct (Hp o sho p E Hpo) as (sho0 & E0 & Hp0 & <-).
      destruct (t_parent _ _ _ T o sho0 p E0 Hp0) as (shp & Ep & _). pose proof (links_fresh_shape st n L Hf) as Hfr.
      destruct (C o sho0 p E0 Hp0) as (type & key & attrs & lo & H1 & H2 & H3 & H4 & H5).
      exists type, key, attrs, lo. rewrite !Ho by congruence. done.
    + apply X.
    + intros o Hne. by rewrite Ho, Hoth.
  - intros (L' & Hst & Hr). pose proof (kept_stable st st' Hst) as Hk.
    assert (tree_ok held ∅ st') as T' by (eapply tree_ok_frame; [done|apply Hst]). split_and!; try done.
    + apply Hst.
    + intros C. by eapply kept_coherent.
Qed.

(** [ant_shape_clone_bulk] only marks the copy. *)
Lemma clone_bulk_spec held st s extra :
  links st → tree_ok held ∅ st → is_Some (shapes st !! s) → 0 <= extra < 2 ^ 28 →
  wp (ant_shape_clone_bulk (Some s) extra) st (cloned held st s).
Proof.
  intros L T Hs He. eapply wp_call; [by apply (clone_spec held st s extra)|]. intros [n|] st1; [|intros; by step].
  intros (L1 & Hq1 & C1 & T1 & Hn & Hsl1 & Ho1). destruct (t_held _ _ _ T1 n (held_new held n)) as [shn Hsn].
  step. step. set (st2 := set_shapes _ st1). set (shn' := set_s_bulk_layout true shn) in *.
  assert (same_tables st1 st2) as Htab by (by apply (same_tables_insert st1 st2 n shn shn')).
  destruct (same_tables_links st1 st2 L1 Htab) as [L2 Hsl2].
  assert (∀ o, shape_links_of <$> shapes st2 !! o = shape_links_of <$> shapes st1 !! o) as Hlk.
  { intros o. simpl. destruct (decide (n = o)) as [<-|Hne]; [by rewrite lookup_insert_eq, Hsn|by rewrite lookup_insert_ne]. }
  assert (tree_ok ({[+ n +]} ⊎ held) ∅ st2) as T2.
  { eapply (tree_ok_refs _ _ ∅ ∅ st1 st2 T1); try done; [|by apply (t_held _ _ _ T1)].
    intros o sho. simpl. rewrite lookup_insert_Some. intros [[<- <-]|[_ E]].
    - exact (t_refs _ _ _ T1 n shn Hsn).
    - by apply (t_refs _ _ _ T1). }
  assert (∀ o, is_Some (shapes st2 !! o) ↔ is_Some (shapes st1 !! o)) as Hdom.
  { intros o. specialize (Hlk o). by destruct (shapes st2 !! o), (shapes st1 !! o). }
  split; [done|]. split; [done|]. split; [|split_and!; try done].
  - intros C. apply (coherent_kept ({[+ n +]} ⊎ held) st1); auto.
    intros o sho p. simpl. rewrite lookup_insert_Some. intros [[<- <-]|[_ E]] Hp; [by exists shn|by exists sho].
  - rewrite Hsl2. done.
  - intros o Hne. rewrite Hsl2, Hdom. by apply Ho1.
Qed.

(** [ant_shape_transition_existing]. *)
Lemma transition_existing_spec held st s c :
  links st → tree_ok held ∅ st → few held → s ∈ held → is_Some (shapes st !! c) →
  wp (ant_shape_transition_existing (Some s) (Some c)) st (λ r st',
    r = Some c ∧ links st' ∧ tree_ok ({[+ c +]} ⊎ held ∖ {[+ s +]}) ∅ st' ∧ kept st st').
Proof.
  intros L T Hf Hs [shc Hc]. unfold ant_shape_transition_existing. case_decide as Hsc.
  - subst c. step. assert ({[+ s +]} ⊎ held ∖ {[+ s +]} = held) as -> by multiset_solver. done.
  - eapply wp_mono; [by apply (move_spec held st s c shc)|]. intros r st' (-> & ?). done.
Qed.

(** ** Roots *)

(** The root table has an entry for every limit an object can have. *)
Lemma root_slot held st limit :
  tree_ok held ∅ st → 0 <= limit →
  ∃ r, g_root_shapes st !! Z.to_nat (shape_clamp_inobj_limit limit) = Some r.
Proof.
  intros T Hl. destruct (lookup_lt_is_Some_2 (g_root_shapes st) (Z.to_nat (shape_clamp_inobj_limit limit))) as [r ?]; [|eauto].
  rewrite (t_nroots _ _ _ T). unfold shape_clamp_inobj_limit, ANT_INOBJ_MAX_SLOTS. case_ltb; lia.
Qed.

(** A root that was just made is the only new shape. *)
Lemma tree_ok_root held st st' n shn i :
  tree_ok held ∅ st → shapes st !! n = None → shapes st' = <[n := shn]> (shapes st) →
  kids shn = [] → s_parent shn = None → s_ref_count shn = 1 → s_inobj_limit shn = Z.of_nat i →
  g_root_shapes st !! i = Some None → g_root_shapes st' = <[i := Some n]> (g_root_shapes st) →
  tree_ok held ∅ st'.
Proof.
  intros T Hn Hsh Hk Hp Hr Hl Hi Hroots. destruct (tree_ok_absent held ∅ st n T Hn) as [Hm Hnr].
  pose proof (lookup_lt_Some _ _ _ Hi) as Hlen.
  eapply (tree_ok_new held held st st' n shn); try done; rewrite ?Hroots.
  - intros o Ho. split; [done|]. rewrite !list_elem_of_lookup. split; intros [j Hj].
    + exists j. destruct (decide (i = j)) as [<-|Hne]; [|by rewrite list_lookup_insert_ne in Hj].
      rewrite list_lookup_insert_eq in Hj by done. congruence.
    + exists j. rewrite list_lookup_insert_ne; [done|]. congruence.
  - rewrite Hm, decide_True; [lia|]. apply list_elem_of_lookup. exists i. by apply list_lookup_insert_eq.
  - intros j r Hj. destruct (decide (i = j)) as [<-|Hne]; [|left; by rewrite list_lookup_insert_ne in Hj].
    rewrite list_lookup_insert_eq in Hj by done. right. split; [congruence|done].
  - by rewrite length_insert.
Qed.

(** [ant_shape_new_with_inobj_limit] gives a reference to the empty shape of the limit. *)
Definition made (held : gmultiset sid) (st : state) (r : option sid) (st' : state) : Prop :=
  links st' ∧ (coherent st → coherent st') ∧ gc_shape_epoch st' = gc_shape_epoch st ∧ (clock st <= clock st')%nat ∧
  (∀ o, is_Some (shapes st !! o) → slots st' o = slots st o ∧ is_Some (shapes st' !! o)) ∧
  match r with
  | None => tree_ok held ∅ st' ∧ refused
  | Some n => tree_ok ({[+ n +]} ⊎ held) ∅ st' ∧ Some n ∈ g_root_shapes st' ∧
      (shapes st !! n = None → slots st' n = Some [])
  end.

(** Only the counters have changed. *)
Lemma idle st st' :
  links st → shapes st' = shapes st → descs st' = descs st → quiet st st' → links st' ∧ stable st st'.
Proof.
  intros L Hsh Hd Hq. destruct (links_frame st st' L) as [L' Hsl]; [by intros o; rewrite Hsh|done|apply Hq|].
  split; [done|]. split; [|done]. split; [done|]. intros o. by rewrite Hsh.
Qed.

(** The state after a root was made. *)
Lemma root_made held st st' n c i limit :
  let y := mk_desc 1 0 false false 0 0 0 0 [] 0 [] [] in
  let shn := set_caches y (set_s_descriptors c (new_shape 0 0 limit false)) in
  links st → tree_ok held ∅ st → (clock st < n < c)%nat → (c <= clock st')%nat → limit = Z.of_nat i →
  g_root_shapes st !! i = Some None → shapes st' = <[n := shn]> (shapes st) →
  descs st' = <[c := set_owners [n] y]> (descs st) →
  g_root_shapes st' = <[i := Some n]> (g_root_shapes st) →
  links st' ∧ tree_ok held ∅ st' ∧ (coherent st → coherent st') ∧ shapes st' !! n = Some shn ∧
  slots st' n = Some [] ∧ shapes st !! n = None ∧
  ∀ o, is_Some (shapes st !! o) → slots st' o = slots st o ∧ shapes st' !! o = shapes st !! o.
Proof.
  intros y shn L T Hn Hc Hlim Hi Hsh Hd Hr.
  assert (shapes st !! n = None) as Hf by (apply links_fresh_shape; [done|lia]).
  destruct (links_root st st' n shn c (set_owners [n] y) L Hn) as (L' & Hsn & Hso); try done.
  assert (tree_ok held ∅ st') as T' by (by apply (tree_ok_root held st st' n shn i)).
  assert (∀ o, is_Some (shapes st !! o) → slots st' o = slots st o ∧ shapes st' !! o = shapes st !! o) as Hold.
  { intros o [sho E]. assert (o ≠ n) by congruence. split; [by apply Hso|]. by rewrite Hsh, lookup_insert_ne. }
  split_and!; try done.
  - intros C o sho p E Hp. rewrite Hsh, lookup_insert_Some in E. destruct E as [[<- <-]|[_ E]]; [done|].
    destruct (t_parent _ _ _ T o sho p E Hp) as (shp & Ep & _).
    destruct (C o sho p E Hp) as (type & key & attrs & l & H1 & H2 & H3 & H4 & H5).
    exists type, key, attrs, l.
    rewrite (proj1 (Hold o ltac:(eauto))), (proj1 (Hold p ltac:(eauto))). done.
  - by rewrite Hsh, lookup_insert_eq.
Qed.

(** The retained root. *)
Lemma new_retain_spec held st0 st n shn :
  links st → tree_ok held ∅ st → few held → shapes st !! n = Some shn → Some n ∈ g_root_shapes st →
  (coherent st0 → coherent st) → gc_shape_epoch st = gc_shape_epoch st0 → (clock st0 <= clock st)%nat →
  (∀ o, is_Some (shapes st0 !! o) → slots st o = slots st0 o ∧ is_Some (shapes st !! o)) →
  (shapes st0 !! n = None → slots st n = Some []) →
  wp (ant_shape_retain (Some n) ;; mret (Some n)) st (made held st0).
Proof.
  intros L T Hf Hn Hin C He Ht Hold Hnew. eapply wp_call.
  { apply (retain_spec held st n shn); try done. by eapply few_refs. }
  intros _ st' (L' & T' & (Hq1 & Hq2 & Hq3) & Hsl & Hsh). step.
  assert (∀ o, is_Some (shapes st' !! o) ↔ is_Some (shapes st !! o)) as Hdom.
  { intros o. rewrite Hsh. destruct (decide (n = o)) as [<-|Hne]; [rewrite lookup_insert_eq, Hn; by split; eauto|].
    by rewrite lookup_insert_ne. }
  split; [done|]. split; [|split; [congruence|split; [lia|split; [|split_and!; try done]]]].
  - intros C0. eapply (coherent_kept ({[+ n +]} ⊎ held) st st'); [by apply C|done| |auto].
    intros o sho p E Hp. rewrite Hsh, lookup_insert_Some in E. destruct E as [[<- <-]|[_ E]]; [by exists shn|by exists sho].
  - intros o Ho. rewrite Hsl, Hdom. by apply Hold.
  - by rewrite Hq1.
  - intros Hnone. rewrite Hsl. by apply Hnew.
Qed.

Lemma new_spec held st limit :
  links st → tree_ok held ∅ st → few held → 0 <= limit →
  wp (ant_shape_new_with_inobj_limit limit) st (made held st).
Proof.
  intros L T Hf Hl. destruct (root_slot held st limit T Hl) as [r Hr].
  assert (∀ st', links st' → stable st st' → refused → made held st None st') as Hfail.
  { intros st' L' Hst Hrf. pose proof (kept_stable st st' Hst) as Hk. destruct Hst as [Hfr Hsl].
    assert (tree_ok held ∅ st') as T' by (by eapply tree_ok_frame). pose proof Hfr as [(_ & He & Hc) Hto].
    split; [done|]. split; [intros C; by eapply kept_coherent|]. split; [done|]. split; [done|]. split; [|done].
    intros o [sho E]. split; [done|]. specialize (Hto o). rewrite E in Hto. by destruct (shapes st' !! o). }
  assert (0 <= shape_clamp_inobj_limit limit) as Hcl.
  { unfold shape_clamp_inobj_limit, ANT_INOBJ_MAX_SLOTS. case_ltb; lia. }
  unfold ant_shape_new_with_inobj_limit. step. rewrite Hr. apply wp_bind. destruct r as [n|].
  { step. destruct (t_roots _ _ _ T _ n Hr) as (shn & Hn & _ & _).
    eapply (new_retain_spec held st st n shn); try done; [by eapply list_elem_of_lookup_2|by intros; congruence]. }
  apply wp_bind, wp_alloc; intros Hg.
  { step. step. apply Hfail; [by apply (idle st); [| | |quiet]..|by eexists _, _]. }
  apply wp_bind, descriptors_new_spec.
  - intros Hrf. step. step. apply Hfail; [by apply (idle st); [| | |quiet]..|done].
  - intros b. step. apply wp_bind. eapply link_spec; [apply lookup_insert_eq|apply lookup_insert_eq|].
    step. step. step. cbn [shapes descs set_shapes set_descs set_g_shape_bytes set_g_root_shapes set_clock g_root_shapes].
    rewrite !insert_insert_eq. set (st1 := set_g_root_shapes _ _).
    destruct (root_made held st st1 (S (clock st)) (S (S (clock st))) (Z.to_nat (shape_clamp_inobj_limit limit))
      (shape_clamp_inobj_limit limit)) as (L1 & T1 & C1 & Hn1 & Hsn & Hnone & Hold); try done; simpl; try lia.
    eapply (new_retain_spec held st st1); try done.
    + simpl. apply list_elem_of_lookup. eexists. apply list_lookup_insert_eq. by eapply lookup_lt_Some.
    + simpl. lia.
    + intros o Ho. destruct (Hold o Ho) as [-> ->]. done.
Qed.

End Interface.
