(* ===== verification/ShapeGc.v ===== *)
(** * Marking and pruning the transition tree

    A collection of the shapes of src/src/shapes.c marks the shapes that objects use, with
    their ancestors ([ant_gc_shapes_mark]), and then removes from the trees of the roots the
    shapes that were not marked and have no children ([ant_gc_shapes_sweep]), bottom up.  What
    is left below the roots are the marked shapes: those in use and the way to them. *)

From stdpp Require Import gmap gmultiset.
From S2P Require Import Prelude ShapeIndex ShapeModel ShapeLinks ShapeCopy ShapeTree ShapeApi.

(** ** Descendants *)

Inductive below (st : state) (a : sid) : sid → Prop :=
  | below_child o sho : shapes st !! o = Some sho → s_parent sho = Some a → below st a o
  | below_step o sho p : below st a p → shapes st !! o = Some sho → s_parent sho = Some p → below st a o.

Lemma below_kept st st' a o : parents_kept st st' → below st' a o → below st a o.
Proof.
  intros Hp Hb. induction Hb as [o sho E Hpo|o sho p Hb IH E Hpo].
  - destruct (Hp o sho a E Hpo) as (sho0 & E0 & Hp0 & _). by eapply below_child.
  - destruct (Hp o sho p E Hpo) as (sho0 & E0 & Hp0 & _). by eapply below_step.
Qed.

Lemma below_trans st a b o : below st a b → below st b o → below st a o.
Proof. intros Hab Hbo. induction Hbo; by eapply below_step. Qed.

(** The first step on the way down. *)
Lemma below_first st a o :
  below st a o → ∃ c shc, shapes st !! c = Some shc ∧ s_parent shc = Some a ∧ (o = c ∨ below st c o).
Proof.
  induction 1 as [o sho E Hpo|o sho p Hb IH E Hpo]; [exists o, sho; auto|].
  destruct IH as (c & shc & Ec & Hpc & Hpb). exists c, shc. split; [done|]. split; [done|]. right.
  destruct Hpb as [->|Hpb]; [by eapply below_child|by eapply below_step].
Qed.

(** The last step. *)
Lemma below_last st a o :
  below st a o → ∃ sho p, shapes st !! o = Some sho ∧ s_parent sho = Some p ∧ (p = a ∨ below st a p).
Proof. destruct 1 as [o sho E Hpo|o sho p Hb E Hpo]; eauto 10. Qed.

(** Ancestors of one shape are in one line. *)
Lemma below_linear st a b o : below st a o → below st b o → a = b ∨ below st a b ∨ below st b a.
Proof.
  induction 1 as [o sho E Hpo|o sho p Ha IH E Hpo]; intros Hb;
    destruct (below_last st b o Hb) as (sho' & q & E' & Hq & Hbq);
    rewrite E in E'; injection E' as <-; rewrite Hpo in Hq; injection Hq as <-.
  - destruct Hbq as [->|Hbq]; auto.
  - destruct Hbq as [->|Hbq]; auto.
Qed.

Section Tree.

Context (held : gmultiset sid) (st : state).
Context (T : tree_ok held ∅ st).

Lemma parent_lt c shc p : shapes st !! c = Some shc → s_parent shc = Some p → (p < c)%nat.
Proof.
  intros E Hp. destruct (t_parent _ _ _ T c shc p E Hp) as (shp & Ep & Hin).
  by apply (t_kid _ _ _ T p shp _ c Ep (not_elem_of_empty p) Hin).
Qed.

Lemma below_lt a o : below st a o → (a < o)%nat.
Proof.
  induction 1 as [o sho E Hpo|o sho p Hb IH E Hpo]; [by eapply parent_lt|].
  pose proof (parent_lt o sho p E Hpo). lia.
Qed.

(** Two children of one shape have nothing in common. *)
Lemma siblings_apart s c shc c' shc' :
  shapes st !! c = Some shc → s_parent shc = Some s → shapes st !! c' = Some shc' → s_parent shc' = Some s →
  c ≠ c' → ¬ below st c c' ∧ ∀ o, below st c' o → o ≠ c ∧ ¬ below st c o.
Proof.
  intros Ec Hp Ec' Hp' Hne.
  assert (∀ a sha b shb, shapes st !! a = Some sha → s_parent sha = Some s → shapes st !! b = Some shb →
    s_parent shb = Some s → ¬ below st a b) as Hsib.
  { intros a sha b shb Ea Hpa Eb Hpb Hb. destruct (below_last st a b Hb) as (shb' & q & Eb' & Hq & Hbq).
    rewrite Eb in Eb'. injection Eb' as <-. rewrite Hpb in Hq. injection Hq as <-.
    pose proof (parent_lt a sha s Ea Hpa). destruct Hbq as [->|Hbq%below_lt]; lia. }
  split; [by eapply (Hsib c shc c' shc')|]. intros o Ho. split.
  - intros ->. by eapply (Hsib c' shc' c shc).
  - intros Hco. destruct (below_linear st c c' o Hco Ho) as [?|[?|?]]; [done| |].
    + by eapply (Hsib c shc c' shc').
    + by eapply (Hsib c' shc' c shc).
Qed.

End Tree.

(** ** Marking *)

Definition is_marked (st : state) (o : sid) : Prop :=
  ∃ sho, shapes st !! o = Some sho ∧ s_gc_mark sho = gc_shape_epoch st.

(** The parent of a marked shape is marked, unless it is [next]. *)
Definition marks_closed (next : option sid) (st : state) : Prop :=
  ∀ o sho p, shapes st !! o = Some sho → s_parent sho = Some p → s_gc_mark sho = gc_shape_epoch st →
    is_marked st p ∨ Some p = next.

(** Only marks have changed. *)
Definition remarked (st st' : state) : Prop :=
  still st st' ∧ descs st' = descs st ∧
  ∀ o, set_s_gc_mark 0 <$> shapes st' !! o = set_s_gc_mark 0 <$> shapes st !! o.

#[global] Instance remarked_preorder : PreOrder remarked.
Proof.
  split; [by intros st|]. intros st1 st2 st3 ((A1 & A2 & A3) & D1 & S1) ((B1 & B2 & B3) & D2 & S2).
  split; [split_and!; congruence|]. split; [congruence|]. intros o. by rewrite S2.
Qed.

Lemma remarked_lookup st st' o sho' :
  remarked st st' → shapes st' !! o = Some sho' →
  ∃ sho m, shapes st !! o = Some sho ∧ sho' = set_s_gc_mark m sho.
Proof.
  intros (_ & _ & Hs) E. specialize (Hs o). rewrite E in Hs. destruct (shapes st !! o) as [sho|]; [|done].
  exists sho, (s_gc_mark sho'). split; [done|]. clear E. destruct sho', sho. simpl in Hs. by injection Hs as -> -> -> -> -> -> -> -> -> -> -> -> -> -> ->.
Qed.

Lemma remarked_sym st st' : remarked st st' → remarked st' st.
Proof. intros ((H1 & H2 & H3) & Hd & Hs). split; [split_and!; congruence|]. by split. Qed.

Lemma remarked_fmap {A} (f : ant_shape_t → A) st st' o :
  (∀ m sh, f (set_s_gc_mark m sh) = f sh) → remarked st st' → f <$> shapes st' !! o = f <$> shapes st !! o.
Proof.
  intros Hf Hr. destruct (shapes st' !! o) as [sho'|] eqn:E.
  - destruct (remarked_lookup st st' o sho' Hr E) as (sho & m & -> & ->). simpl. by rewrite Hf.
  - destruct (shapes st !! o) as [sho|] eqn:E0; [|done].
    destruct (remarked_lookup st' st o sho (remarked_sym st st' Hr) E0) as (? & ? & ? & _). congruence.
Qed.

Lemma remarked_tree held st st' : tree_ok held ∅ st → remarked st st' → tree_ok held ∅ st'.
Proof.
  intros T Hr. eapply (tree_ok_refs held held ∅ ∅ st st' T); try done; [apply Hr|intros o; by apply remarked_fmap| |apply T].
  intros o sho' E. destruct (remarked_lookup st st' o sho' Hr E) as (sho & m & E0 & ->).
  exact (t_refs _ _ _ T o sho E0).
Qed.

(** Marking keeps the invariants and what every shape means. *)
Lemma remarked_ok held st st' :
  links st → tree_ok held ∅ st → remarked st st' →
  links st' ∧ tree_ok held ∅ st' ∧ kept st st' ∧ ∀ o, slots st' o = slots st o.
Proof.
  intros L T Hr. pose proof Hr as (Hst & Hd & _).
  assert (same_tables st st') as Htab.
  { split; [intros o; by apply remarked_fmap|]. split; [done|]. by apply still_quiet. }
  destruct (same_tables_links st st' L Htab) as [L' Hsl]. split; [done|].
  split; [by eapply remarked_tree|]. split; [|done]. split; [by apply still_quiet|]. split.
  - intros o sho' p E Hp. destruct (remarked_lookup st st' o sho' Hr E) as (sho & m & E0 & ->). by exists sho.
  - intros o [sho' E]. split; [|done]. destruct (remarked_lookup st st' o sho' Hr E) as (sho & m & E0 & _). eauto.
Qed.

(** Marking [s] and going on to its parent. *)
Lemma mark_rec_spec held fuel : ∀ st s,
  tree_ok held ∅ st → is_Some (shapes st !! s) → (s < fuel)%nat → marks_closed (Some s) st →
  wp (mark_rec fuel (Some s)) st (λ _ st',
    remarked st st' ∧ marks_closed None st' ∧ is_marked st' s ∧
    (∀ o, is_marked st o → is_marked st' o) ∧
    ∀ o, is_marked st' o → is_marked st o ∨ o = s ∨ below st o s).
Proof.
  induction fuel as [|fuel IH]; intros st s T [sh Hs] Hfuel Hcl; [lia|]. cbn [mark_rec]. step. step.
  destruct (Z.eqb_spec (s_gc_mark sh) (gc_shape_epoch st)) as [Hm|Hm].
  { assert (is_marked st s) as Hms by (by exists sh). step. split_and!; auto; [done|].
    intros o sho p E Hp Hmo. left. destruct (Hcl o sho p E Hp Hmo) as [|[= ->]]; done. }
  step. set (sh1 := set_s_gc_mark (gc_shape_epoch st) sh). set (st1 := set_shapes _ st).
  assert (shapes st1 !! s = Some sh1) as Hs1 by apply lookup_insert_eq.
  assert (∀ o, o ≠ s → shapes st1 !! o = shapes st !! o) as Ho1 by (intros o Ho; by apply lookup_insert_ne).
  assert (remarked st st1) as Hr1.
  { split; [done|]. split; [done|]. intros o. destruct (decide (o = s)) as [->|Hne]; [by rewrite Hs1, Hs|by rewrite Ho1]. }
  assert (is_marked st1 s) as Hms by (by exists sh1).
  assert (∀ o, is_marked st o → is_marked st1 o) as Hmono.
  { intros o (sho & E & Hmo). destruct (decide (o = s)) as [->|Hne]; [done|]. exists sho. by rewrite Ho1. }
  assert (∀ o, is_marked st1 o → is_marked st o ∨ o = s) as Hback.
  { intros o (sho & E & Hmo). destruct (decide (o = s)) as [->|Hne]; [by right|left]. exists sho. by rewrite <- Ho1. }
  assert (marks_closed (s_parent sh) st1) as Hcl1.
  { intros o sho p E Hp Hmo. destruct (decide (o = s)) as [->|Hne]; [right; rewrite Hs1 in E; by injection E as <-|].
    rewrite Ho1 in E by done. left. destruct (Hcl o sho p E Hp Hmo) as [Hmp|[= ->]]; [by apply Hmono|done]. }
  destruct (s_parent sh) as [p|] eqn:Ep.
  - destruct (t_parent _ _ _ T s sh p Hs Ep) as (shp & Hp & _). pose proof (parent_lt held st T s sh p Hs Ep) as Hlt.
    pose proof (remarked_tree held st st1 T Hr1) as T1.
    eapply wp_mono; [apply (IH st1 p T1); [|lia|done]; rewrite Ho1 by lia; eauto|].
    intros _ st2 (Hr2 & Hcl2 & Hmp & Hmono2 & Hback2). split; [by etrans|]. split_and!; auto.
    intros o Hmo. destruct (Hback2 o Hmo) as [Hmo1|[->|Hb]].
    + destruct (Hback o Hmo1); auto.
    + right. right. by eapply below_child.
    + right. right. eapply below_step; [|done|done]. eapply below_kept; [|done].
      intros o' sho' q E Hq. destruct (remarked_lookup st st1 o' sho' Hr1 E) as (sho0 & m & ? & ->). by exists sho0.
  - destruct fuel; cbn [mark_rec]; step; (split; [done|]; split_and!; auto); intros o Hmo; destruct (Hback o Hmo); auto.
Qed.

(** Whatever the marks are, marking returns and changes only marks. *)
Lemma mark_rec_frame held fuel : ∀ st s,
  tree_ok held ∅ st → is_Some (shapes st !! s) → (s < fuel)%nat →
  wp (mark_rec fuel (Some s)) st (λ _ st', remarked st st').
Proof.
  induction fuel as [|fuel IH]; intros st s T [sh Hs] Hfuel; [lia|]. cbn [mark_rec]. step. step.
  case_match; [by step|]. step. set (st1 := set_shapes _ st).
  assert (remarked st st1) as Hr1.
  { split; [done|]. split; [done|]. intros o. simpl. destruct (decide (s = o)) as [<-|Hne];
      [by rewrite lookup_insert_eq, Hs|by rewrite lookup_insert_ne]. }
  destruct (s_parent sh) as [p|] eqn:Ep; [|destruct fuel; cbn [mark_rec]; by step].
  destruct (t_parent _ _ _ T s sh p Hs Ep) as (shp & Hp & _). pose proof (parent_lt held st T s sh p Hs Ep) as Hlt.
  eapply wp_mono; [apply (IH st1 p); [|simpl; rewrite lookup_insert_ne by lia; eauto|lia]|].
  - by apply (remarked_tree held st).
  - intros ? st2 Hr2. by etrans.
Qed.

(** [ant_gc_shapes_mark] marks a shape and its ancestors, and nothing else. *)
Lemma mark_spec held st s :
  links st → tree_ok held ∅ st → is_Some (shapes st !! s) → marks_closed None st →
  wp (ant_gc_shapes_mark (Some s)) st (λ _ st',
    remarked st st' ∧ marks_closed None st' ∧
    ∀ o, is_marked st' o ↔ is_marked st o ∨ o = s ∨ below st o s).
Proof.
  intros L T [sh Hs] Hcl. pose proof (links_young_shape st L s sh Hs) as Hy. unfold ant_gc_shapes_mark. step.
  eapply wp_mono; [apply (mark_rec_spec held (S (clock st)) st s T); [eauto|lia|]|].
  { intros o sho p E Hp Hmo. left. by destruct (Hcl o sho p E Hp Hmo). }
  intros _ st' (Hr & Hcl' & Hm & Hmono & Hback). split; [done|]. split; [done|]. intros o. split; [apply Hback|].
  intros [Hmo|[->|Hb]]; [by apply Hmono|done|]. revert Hm. clear -Hr Hcl' Hb.
  induction Hb as [s sh Hs Hp|s sh p Hb IH Hs Hp]; intros (sh' & E' & Hm');
    destruct (remarked_lookup st st' s sh' Hr E') as (sh0 & m & E0 & Eq); rewrite Hs in E0; injection E0 as <-;
    (assert (s_parent sh' = s_parent sh) as Ep by (by rewrite Eq)); rewrite Hp in Ep;
    destruct (Hcl' s sh' _ E' Ep Hm'); try done. by apply IH.
Qed.

(** ** Removing one leaf *)

(** What [st'] has of a shape that was there: the mark stays. *)
Definition marks_kept (st st' : state) : Prop :=
  ∀ o sho', shapes st' !! o = Some sho' → ∃ sho, shapes st !! o = Some sho ∧ s_gc_mark sho' = s_gc_mark sho.

(** What releasing the leaf [c] leaves. *)
Definition leaf_released (held : gmultiset sid) (c : sid) (st st' : state) : Prop :=
  links st' ∧ tree_ok (held ∖ {[+ c +]}) ∅ st' ∧ still st st' ∧ kept st st' ∧
  (∀ o, o ≠ c → shapes st' !! o = shapes st !! o) ∧ marks_kept st st'.

(** A leaf with one reference is freed. *)
Lemma destroy_leaf held st c shc fuel :
  let st0 := set_shapes (<[c := set_s_ref_count 0 shc]> (shapes st)) st in
  links st → tree_ok held ∅ st → c ∈ held → shapes st !! c = Some shc → kids shc = [] → s_ref_count shc = 1 →
  wp (shape_destroy (release_rec fuel) c) st0 (λ _ st', leaf_released held c st st').
Proof.
  intros st0 L T Hc Hs Hk Hone. destruct (held_minus held c Hc) as [Hm1 Hm2]. set (sh0 := set_s_ref_count 0 shc) in *.
  destruct (t_refs _ _ _ T c shc Hs) as (Hrefs & _ & _). unfold tree_refs in Hrefs.
  assert (s_parent shc = None) as Hp.
  { pose proof (proj1 (elem_of_multiplicity c held) Hc). destruct (s_parent shc); [case_decide; lia|done]. }
  assert (s_first_child shc = None ∧ s_children shc = []) as [Hf Hch].
  { unfold kids in Hk. by destruct (s_first_child shc). }
  destruct (same_tables_links st st0 L) as [L0 Hsl0]; [by apply (same_tables_insert st st0 c shc sh0)|].
  assert (c ∈ {[c]} ∪ (∅ : gset sid)) as Hin by (apply elem_of_union; left; by apply elem_of_singleton).
  assert (tree_ok (held ∖ {[+ c +]}) ({[c]} ∪ ∅) st0) as T0.
  { eapply (tree_ok_set_refs held _ ∅ _ st st0 c shc 0); try done; lia. }
  assert (shapes st0 !! c = Some sh0) as Hs0 by apply lookup_insert_eq.
  assert (husk c sh0 [] st0) as Hh.
  { pose proof (doomed_husk (held ∖ {[+ c +]}) ({[c]} ∪ ∅) c sh0 st0 T0) as Hd. simpl in Hd. rewrite Hch in Hd.
    apply Hd; [|done]. split_and!; try done. unfold kids. simpl. rewrite Hf, Hch. by intros k d Hn%not_elem_of_nil. }
  unfold shape_destroy. step. simpl. rewrite Hp. step. step. simpl. rewrite Hf. step. step. simpl. rewrite Hch. step. cbn [for_each]. step.
  eapply wp_mono; [by apply (free_husk_spec (held ∖ {[+ c +]}) ∅ c sh0 st0)|].
  intros _ st' (L' & T' & (Hst & Hsl & _) & Hgone & Hoth).
  assert (∀ o, o ≠ c → shapes st' !! o = shapes st !! o) as Ho'.
  { intros o Ho. rewrite Hoth by done. by apply lookup_insert_ne. }
  assert (∀ o sho, shapes st' !! o = Some sho → shapes st !! o = Some sho) as Hb'.
  { intros o sho E'. rewrite <- Ho'; [done|]. congruence. }
  split; [done|]. split; [done|]. split; [done|]. split; [|split; [done|]].
  - split; [by apply still_quiet|]. split; [intros o sho p E' Hpo; exists sho; auto|].
    intros o Ho. destruct (Hsl o Ho) as [_ ->]. rewrite Hsl0. split; [|done]. destruct Ho as [sho E']. eauto.
  - intros o sho E'. exists sho. auto.
Qed.

(** Releasing a shape without children touches no other shape. *)
Lemma release_leaf held st c shc :
  links st → tree_ok held ∅ st → c ∈ held → shapes st !! c = Some shc → kids shc = [] →
  wp (ant_shape_release (Some c)) st (λ _ st', leaf_released held c st st').
Proof.
  intros L T Hc Hs Hk. destruct (t_refs _ _ _ T c shc Hs) as (_ & Hb & Hpos). specialize (Hpos (not_elem_of_empty c)).
  unfold ant_shape_release. step. cbn [release_rec]. step. replace (s_ref_count shc =? 0) with false by lia.
  rewrite u32_small by lia. step. destruct (s_ref_count shc - 1 =? 0) eqn:E; cbn [negb].
  - replace (s_ref_count shc - 1) with 0 by lia. apply destroy_leaf; try done. lia.
  - step. set (st0 := set_shapes _ st).
    destruct (release_shared held ∅ st st0 c shc (s_ref_count shc - 1)) as (L' & T' & Hr); try done; [lia|].
    pose proof (kept_released st c st0 Hr). split; [done|]. split; [done|]. split; [done|]. split; [done|]. split.
    + intros o Ho. by apply lookup_insert_ne.
    + intros o sho. simpl. rewrite lookup_insert_Some. intros [[<- <-]|[_ E']]; [by exists shc|by exists sho].
Qed.

(** ** Pruning *)

(** What pruning below [s] leaves. *)
Record pruned (s : sid) (st st' : state) : Prop := mk_pruned {
  pr_still : still st st';
  pr_kept : kept st st';
  pr_marks : marks_kept st st';
  pr_marked o sho : shapes st !! o = Some sho → s_gc_mark sho = gc_shape_epoch st →
    ∃ sho', shapes st' !! o = Some sho' ∧ s_parent sho' = s_parent sho;
  pr_self sh : shapes st !! s = Some sh →
    ∃ sh', shapes st' !! s = Some sh' ∧ s_parent sh' = s_parent sh ∧ s_parent_key sh' = s_parent_key sh;
  pr_frame o : o ≠ s → ¬ below st s o → shapes st' !! o = shapes st !! o
}.

Lemma pruned_refl s st : pruned s st st.
Proof. split; try done; intros; eauto. intros o sho' E. by exists sho'. Qed.

Lemma pruned_trans s st1 st2 st3 : pruned s st1 st2 → pruned s st2 st3 → pruned s st1 st3.
Proof.
  intros [(A1 & A2 & A3) K1 M1 P1 S1 F1] [(B1 & B2 & B3) K2 M2 P2 S2 F2]. split.
  - split_and!; congruence.
  - by etrans.
  - intros o sho3 E3. destruct (M2 o sho3 E3) as (sho2 & E2 & Hm2). destruct (M1 o sho2 E2) as (sho1 & E1 & Hm1).
    exists sho1. split; [done|congruence].
  - intros o sho1 E1 Hm1. destruct (P1 o sho1 E1 Hm1) as (sho2 & E2 & Hp2).
    destruct (M1 o sho2 E2) as (sho1' & E1' & Hm2). rewrite E1 in E1'. injection E1' as <-.
    destruct (P2 o sho2 E2) as (sho3 & E3 & Hp3); [congruence|]. exists sho3. split; [done|congruence].
  - intros sh1 E1. destruct (S1 sh1 E1) as (sh2 & E2 & Hp2 & Hk2). destruct (S2 sh2 E2) as (sh3 & E3 & Hp3 & Hk3).
    exists sh3. split_and!; congruence.
  - intros o Ho Hb. rewrite F2, F1; [done|done|done|done|]. intros Hb2. apply Hb. eapply below_kept; [|done]. apply K1.
Qed.

(** Pruning below a child is pruning below its parent. *)
Lemma pruned_up held st st' s c shc :
  tree_ok held ∅ st → shapes st !! c = Some shc → s_parent shc = Some s → pruned c st st' → pruned s st st'.
Proof.
  intros T Hc Hp [H1 H2 H3 H4 H5 H6]. pose proof (parent_lt held st T c shc s Hc Hp) as Hlt.
  assert (¬ below st c s) as Hns by (intros Hb%(below_lt held st T); lia).
  split; try done.
  - intros sh Hs. exists sh. rewrite H6 by (lia || done). done.
  - intros o Ho Hb. apply H6.
    + intros ->. apply Hb. by eapply below_child.
    + intros Hb'. apply Hb. eapply below_trans; [|done]. by eapply below_child.
Qed.

(** No transition below [c] leads to a dead shape. *)
Definition tidy (st : state) (c : sid) : Prop :=
  ∀ d shd p, shapes st !! d = Some shd → s_parent shd = Some p → p = c ∨ below st c p →
    shape_child_is_dead (gc_shape_epoch st) shd = false.

Lemma tidy_kept st st' c :
  tidy st c → parents_kept st st' → gc_shape_epoch st' = gc_shape_epoch st →
  (∀ d, below st c d → shapes st' !! d = shapes st !! d) → tidy st' c.
Proof.
  intros Ht Hpk He Hs d shd p E Hp Hb. rewrite He. destruct (Hpk d shd p E Hp) as (shd0 & E0 & Hp0 & _).
  assert (p = c ∨ below st c p) as Hb0 by (destruct Hb; [by left|right; by eapply below_kept]).
  rewrite Hs, E0 in E.
  - injection E as ->. by apply (Ht d shd p).
  - destruct Hb0 as [->|Hb0]; [by eapply below_child|by eapply below_step].
Qed.

(** A shape whose children are all tidy, and none of them dead. *)
Lemma tidy_children st s :
  (∀ c shc, shapes st !! c = Some shc → s_parent shc = Some s →
     shape_child_is_dead (gc_shape_epoch st) shc = false ∧ tidy st c) → tidy st s.
Proof.
  intros Hc d shd p E Hp [->|Hb]; [by apply (Hc d)|].
  destruct (below_first st s p Hb) as (c & shc & Ec & Hpc & Hpb). destruct (Hc c shc Ec Hpc) as [_ Ht].
  by apply (Ht d shd p).
Qed.

Lemma dead_leaf epoch shc : shape_child_is_dead epoch shc = true → kids shc = [] ∧ s_gc_mark shc ≠ epoch.
Proof.
  unfold shape_child_is_dead, shape_has_children, kids. intros H. apply andb_true_iff in H as [Hm Hk].
  destruct (s_first_child shc), (s_children shc); try done. split; [done|lia].
Qed.

(** A dead child leaves its parent and is released. *)
Lemma cut_leaf held st st1 s shs shs' c shc :
  links st → tree_ok held ∅ st → shapes st !! s = Some shs → shapes st !! c = Some shc → s_parent shc = Some s →
  kids shc = [] → s_gc_mark shc ≠ gc_shape_epoch st →
  (∀ e, e ∈ kids shs' ↔ e ∈ kids shs ∧ e ≠ (s_parent_key shc, c)) → NoDup (kids shs').*1 →
  s_parent shs' = s_parent shs → s_parent_key shs' = s_parent_key shs → s_ref_count shs' = s_ref_count shs →
  s_inobj_limit shs' = s_inobj_limit shs → s_gc_mark shs' = s_gc_mark shs → link_of shs' = link_of shs →
  shapes st1 = <[c := set_s_parent None shc]> (<[s := shs']> (shapes st)) → descs st1 = descs st → still st st1 →
  wp (ant_shape_release (Some c)) st1 (λ _ st',
    links st' ∧ tree_ok held ∅ st' ∧ pruned s st st' ∧ shapes st' !! s = Some shs' ∧
    (∀ o, o ≠ c → o ≠ s → shapes st' !! o = shapes st !! o) ∧
    ∀ shc', shapes st' !! c = Some shc' → s_parent shc' = None).
Proof.
  intros L T Hs Hc Hp Hk Hm Hkids Hnd P1 P2 P3 P4 P5 Pl Hsh Hd Hst.
  pose proof (parent_lt held st T c shc s Hc Hp) as Hlt. assert (s ≠ c) as Hne by lia.
  assert (same_tables st st1) as Htab.
  { transitivity (set_shapes (<[s := shs']> (shapes st)) st).
    - by apply (same_tables_insert st _ s shs shs').
    - apply (same_tables_insert _ st1 c shc (set_s_parent None shc)); try done; [|by apply still_quiet].
      simpl. by rewrite lookup_insert_ne. }
  destruct (same_tables_links st st1 L Htab) as [L1 Hsl1].
  assert (tree_ok ({[+ c +]} ⊎ held) ∅ st1) as T1.
  { eapply (tree_ok_cut held ∅ st st1 s shs shs' c shc); try done; [| |apply Hst].
    - intros e He. apply Hkids in He as [? ?]. done.
    - intros e He Hne'. by apply Hkids. }
  assert (shapes st1 !! c = Some (set_s_parent None shc)) as Hc1 by (by rewrite Hsh, lookup_insert_eq).
  assert (shapes st1 !! s = Some shs') as Hs1 by (by rewrite Hsh, lookup_insert_ne, lookup_insert_eq).
  eapply wp_mono; [apply (release_leaf ({[+ c +]} ⊎ held) st1 c (set_s_parent None shc)); try done; apply held_new|].
  intros _ st' (L' & T' & (R1 & R2 & R3) & (_ & Hpk & Hsl) & Hoth & Hmk). rewrite held_cancel in T'.
  assert (∀ o, o ≠ c → o ≠ s → shapes st' !! o = shapes st !! o) as Ho'.
  { intros o Hoc Hos. rewrite Hoth by done. by rewrite Hsh, !lookup_insert_ne. }
  assert (shapes st' !! s = Some shs') as Hs' by (by rewrite Hoth).
  assert (∀ shc', shapes st' !! c = Some shc' → s_parent shc' = None) as Hpc'.
  { intros shc' E'. destruct (s_parent shc') as [p|] eqn:Ep; [|done].
    destruct (Hpk c shc' p E' Ep) as (? & E1 & Hp1 & _). rewrite Hc1 in E1. injection E1 as <-. done. }
  split; [done|]. split; [done|]. split; [|done]. destruct Hst as (A1 & A2 & A3). split.
  - split_and!; congruence.
  - split; [split; [congruence|split; [congruence|lia]]|]. split.
    + intros o sho p E Hpo. destruct (decide (o = c)) as [->|Hoc]; [by rewrite Hpc' in Hpo|].
      destruct (decide (o = s)) as [->|Hos]; [|rewrite Ho' in E by done; by exists sho].
      rewrite Hs' in E. injection E as <-. exists shs. by rewrite <- P1, <- P2.
    + intros o Ho. destruct (Hsl o Ho) as [Ho1 ->]. by apply (same_tables_slots st st1).
  - intros o sho E. destruct (Hmk o sho E) as (sho1 & E1 & ->). rewrite Hsh in E1.
    apply lookup_two in E1 as [[-> ->]|[(_ & -> & ->)|(_ & _ & E1)]]; eauto.
  - intros o sho E Hmo. assert (o ≠ c) as Hoc by congruence. destruct (decide (o = s)) as [->|Hos].
    + exists shs'. split; [done|]. congruence.
    + exists sho. by rewrite Ho'.
  - intros sh E. exists shs'. split_and!; congruence.
  - intros o Hos Hb. apply Ho'; [|done]. intros ->. apply Hb. by eapply below_child.
Qed.

(** Children of [s] are pruned one after the other: those in [l] are still to come. *)
Definition pending (l : list (Z * sid)) (s : sid) (st : state) : Prop :=
  ∀ c shc, shapes st !! c = Some shc → s_parent shc = Some s →
    (s_parent_key shc, c) ∈ l ∨ (shape_child_is_dead (gc_shape_epoch st) shc = false ∧ tidy st c).

(** Pruning below [c] does not touch its siblings. *)
Lemma pruned_sibling held st st' s c shc c' shc' :
  tree_ok held ∅ st → shapes st !! c = Some shc → s_parent shc = Some s → pruned c st st' → c' ≠ c →
  shapes st' !! c' = Some shc' → s_parent shc' = Some s →
  shapes st !! c' = Some shc' ∧ (tidy st c' → tidy st' c').
Proof.
  intros T Hc Hp Hpr Hne Hc' Hp'. pose proof (pr_kept _ _ _ Hpr) as (_ & Hpk & _).
  destruct (Hpk c' shc' s Hc' Hp') as (shc0 & Hc0 & Hp0 & _).
  destruct (siblings_apart held st T s c shc c' shc0) as [Hnb Hapart]; [done..|].
  assert (shapes st' !! c' = shapes st !! c') as E by (by apply (pr_frame _ _ _ Hpr)).
  split; [congruence|]. intros Ht. eapply tidy_kept; [done|done|apply Hpr|].
  intros d Hd. destruct (Hapart d Hd). by apply (pr_frame _ _ _ Hpr).
Qed.

(** The children left to prune, once [c] is done. *)
Lemma pending_next held st st1 s c shc k l :
  tree_ok held ∅ st → shapes st !! c = Some shc → s_parent shc = Some s → s_parent_key shc = k → pruned c st st1 →
  pending ((k, c) :: l) s st → (∀ shc1, shapes st1 !! c = Some shc1 →
    shape_child_is_dead (gc_shape_epoch st) shc1 = false) → tidy st1 c → pending l s st1.
Proof.
  intros T Hc Hp Hk Hpr Hpend Hd Ht c' shc' Hc' Hp'. destruct (pr_still _ _ _ Hpr) as (_ & He & _).
  destruct (decide (c' = c)) as [->|Hne]; [right; split; [rewrite He; by apply Hd|done]|].
  destruct (pruned_sibling held st st1 s c shc c' shc') as [Hc0 Htk]; [done..|].
  destruct (Hpend c' shc' Hc0 Hp') as [[[= _ ->]|Hin]%elem_of_cons|[Hd' Ht']]; [done|by left|].
  right. rewrite He. auto.
Qed.

(** The same when [c] was dead and is gone from [s]. *)
Lemma pending_cut held st st1 st2 s c shc k l :
  tree_ok held ∅ st → shapes st !! c = Some shc → s_parent shc = Some s → s_parent_key shc = k → pruned c st st1 →
  tree_ok held ∅ st1 → pending ((k, c) :: l) s st → pruned s st1 st2 →
  (∀ o, o ≠ c → o ≠ s → shapes st2 !! o = shapes st1 !! o) →
  (∀ shc', shapes st2 !! c = Some shc' → s_parent shc' = None) → pending l s st2.
Proof.
  intros T Hc Hp Hk Hpr T1 Hpend Hpr2 Hoth Hgone c' shc' Hc' Hp'.
  pose proof (pr_still _ _ _ Hpr) as (_ & He & _). pose proof (pr_still _ _ _ Hpr2) as (_ & He2 & _).
  assert (c' ≠ c) as Hne by (intros ->; rewrite (Hgone shc' Hc') in Hp'; done).
  pose proof (pr_kept _ _ _ Hpr2) as (_ & Hpk2 & _).
  destruct (Hpk2 c' shc' s Hc' Hp') as (shc1 & Hc1 & Hp1 & _).
  pose proof (parent_lt held st1 T1 c' shc1 s Hc1 Hp1) as Hlt. rewrite Hoth in Hc' by lia.
  destruct (pruned_sibling held st st1 s c shc c' shc') as [Hc0 Htk]; [done..|].
  destruct (Hpend c' shc' Hc0 Hp') as [[[= _ ->]|Hin]%elem_of_cons|[Hd' Ht']]; [done|by left|].
  right. rewrite He2, He. split; [done|]. eapply tidy_kept; [by apply Htk|done|done|].
  destruct (pr_kept _ _ _ Hpr) as (_ & Hpk & _). destruct (siblings_apart held st T s c shc c' shc') as [_ Hapart]; [done..|].
  intros d Hd. pose proof (below_lt held st1 T1 c' d Hd). apply Hoth; [|lia]. apply (Hapart d). by eapply below_kept.
Qed.

Lemma kids_remove sh k c :
  (k, c) ∈ s_children sh → NoDup (kids sh).*1 →
  let sh' := set_s_children (remove_entry k (s_children sh)) sh in
  (∀ e, e ∈ kids sh' ↔ e ∈ kids sh ∧ e ≠ (k, c)) ∧ NoDup (kids sh').*1.
Proof.
  intros Hin Hnd sh'.
  assert (NoDup (s_children sh).*1 ∧ ∀ f, s_first_child sh = Some f → s_first_child_key sh ∉ (s_children sh).*1) as [Hndc Hf].
  { unfold kids in Hnd. destruct (s_first_child sh) as [f|]; [|done]. apply NoDup_cons in Hnd as [Hn Hnd].
    split; [done|]. by intros f' _. }
  assert (∀ e, e ∈ remove_entry k (s_children sh) ↔ e ∈ s_children sh ∧ e ≠ (k, c)) as Hrem.
  { intros [k' c']. rewrite remove_entry_elem. simpl. split; intros [He Hne]; (split; [done|]).
    - intros [= ->]. done.
    - intros ->. apply Hne. f_equal. by eapply NoDup_fst_inj. }
  unfold kids. simpl. destruct (s_first_child sh) as [f|] eqn:Ef; [|by split; [apply Hrem|apply NoDup_remove_entry]].
  specialize (Hf f eq_refl). split.
  - intros e. rewrite !elem_of_cons, Hrem. split; [|tauto]. intros [->|?]; [|tauto]. split; [by left|].
    intros [= Ek _]. apply Hf, list_elem_of_fmap. exists (k, c). split; [simpl; congruence|done].
  - rewrite fmap_cons. apply NoDup_cons. split; [|by apply NoDup_remove_entry]. simpl.
    intros (e & Ee & He)%list_elem_of_fmap. apply Hf, list_elem_of_fmap. exists e. by apply Hrem in He as [? _].
Qed.

(** [shape_prune_dead_children] with enough fuel prunes below a shape. *)
Definition prune_ok (fuel : nat) : Prop :=
  ∀ s st held, links st → tree_ok held ∅ st → is_Some (shapes st !! s) → (clock st < s + fuel)%nat →
  wp (shape_prune_dead_children fuel s) st (λ _ st',
    links st' ∧ tree_ok held ∅ st' ∧ pruned s st st' ∧ tidy st' s).

(** The loop over the table of children. *)
Lemma prune_entries_spec fuel held s l : prune_ok fuel → ∀ st sh b,
  links st → tree_ok held ∅ st → shapes st !! s = Some sh → (clock st < S s + fuel)%nat →
  NoDup l.*1 → (∀ e, e ∈ l → e ∈ s_children sh) → pending l s st →
  wp (prune_entries (shape_prune_dead_children fuel) s l b) st (λ _ st',
    links st' ∧ tree_ok held ∅ st' ∧ pruned s st st' ∧ tidy st' s).
Proof.
  intros IH. induction l as [|[k c] l IHl]; intros st sh b L T Hs Hfuel Hnd Hl Hpend; cbn [prune_entries].
  { step. split; [done|]. split; [done|]. split; [apply pruned_refl|]. apply tidy_children.
    intros c shc Hc Hp. destruct (Hpend c shc Hc Hp) as [Hin|?]; [by apply not_elem_of_nil in Hin|done]. }
  assert ((k, c) ∈ s_children sh) as Hin by (apply Hl; left).
  assert ((k, c) ∈ kids sh) as Hkid by (unfold kids; destruct (s_first_child sh); [by right|done]).
  destruct (t_kid _ _ _ T s sh k c Hs (not_elem_of_empty s) Hkid) as (Hlt & shc & Hc & Hp & Hk).
  pose proof (t_keys _ _ _ T s sh Hs) as Hndk. apply NoDup_cons in Hnd as [Hkl Hnd]. simpl in Hkl.
  eapply wp_call; [apply (IH c st held); [done|done|eauto|lia]|]. intros b' st1 (L1 & T1 & Hpr & Ht1).
  destruct (pr_self _ _ _ Hpr shc Hc) as (shc1 & Hc1 & Hp1 & Hk1). rewrite Hp in Hp1. rewrite Hk in Hk1.
  assert (shapes st1 !! s = Some sh) as Hs1.
  { rewrite (pr_frame _ _ _ Hpr); [done|lia|]. intros Hb%(below_lt held st T). lia. }
  pose proof (pruned_up held st st1 s c shc T Hc Hp Hpr) as Hup. pose proof (pr_still _ _ _ Hpr) as (_ & He & Hclk).
  step. step. destruct (shape_child_is_dead _ shc1) eqn:Hd.
  - pose proof (dead_leaf _ shc1 Hd) as [Hleaf Hm]. destruct (kids_remove sh k c Hin Hndk) as [Hkr Hndr].
    set (sh2 := set_s_children _ sh) in *. step. apply wp_bind.
    eapply wp_upd_shape; [simpl; rewrite lookup_insert_ne by lia; done|]. unfold shape_entry_free. cbv beta.
    assert (∀ st', shapes st' = <[c := set_s_parent None shc1]> (<[s := sh2]> (shapes st1)) → descs st' = descs st1 →
      still st1 st' → wp (ant_shape_release (Some c) ;; prune_entries (shape_prune_dead_children fuel) s l true) st'
        (λ _ st', links st' ∧ tree_ok held ∅ st' ∧ pruned s st st' ∧ tidy st' s)) as Hrest.
    { intros st' E1 E2 E3. eapply wp_call.
      { eapply (cut_leaf held st1 st' s sh sh2 c shc1); try done. by rewrite Hk1. }
      intros _ st2 (L2 & T2 & Hpr2 & Hs2 & Hoth & Hgone).
      eapply wp_mono; [apply (IHl st2 sh2 true L2 T2 Hs2); try done|].
      - destruct (pr_still _ _ _ Hpr2) as (_ & _ & ->). lia.
      - intros [k' c'] He'. apply remove_entry_elem. split; [apply Hl; by right|]. simpl. intros ->.
        apply Hkl, list_elem_of_fmap. by exists (k, c').
      - by apply (pending_cut held st st1 st2 s c shc k l).
      - intros _ st3 (L3 & T3 & Hpr3 & Ht3). split_and!; try done.
        eapply pruned_trans; [done|]. by eapply pruned_trans. }
    step. case_ltb; step; apply Hrest; try done; simpl; by rewrite insert_insert_ne by lia.
  - eapply wp_mono; [apply (IHl st1 sh (b || b') L1 T1 Hs1); try done; [lia|intros e He'; apply Hl; by right|]|].
    + eapply (pending_next held st st1 s c shc k l); try done. intros shc1' E. rewrite <- He. congruence.
    + intros _ st2 (L2 & T2 & Hpr2 & Ht2). split_and!; try done. by eapply pruned_trans.
Qed.

(** The first child of a shape. *)
Lemma kids_first sh c :
  s_first_child sh = Some c → NoDup (kids sh).*1 →
  let sh' := set_s_first_child 0 None sh in
  (∀ e, e ∈ kids sh' ↔ e ∈ kids sh ∧ e ≠ (s_first_child_key sh, c)) ∧ NoDup (kids sh').*1.
Proof.
  unfold kids. simpl. intros -> [Hn Hnd]%NoDup_cons. split; [|done]. intros e. rewrite elem_of_cons.
  split; [|tauto]. intros He. split; [by right|]. intros ->. apply Hn, list_elem_of_fmap. by exists (s_first_child_key sh, c).
Qed.

(** The step for the first child. *)
Lemma prune_first_spec fuel held s st sh :
  prune_ok fuel → links st → tree_ok held ∅ st → shapes st !! s = Some sh → (clock st < S s + fuel)%nat →
  wp (match s_first_child sh with
      | None => mret false
      | Some child =>
          b ← shape_prune_dead_children fuel child;
          c ← get_shape child;
          epoch ← gets gc_shape_epoch;
          if shape_child_is_dead epoch c then
            shape_detach_child s child ;; ant_shape_release (Some child) ;; mret true
          else mret b
      end) st (λ _ st', links st' ∧ tree_ok held ∅ st' ∧ pruned s st st' ∧
    ∃ sh', shapes st' !! s = Some sh' ∧ pending (s_children sh') s st').
Proof.
  intros IH L T Hs Hfuel.
  assert (pending (kids sh) s st) as Hall.
  { intros c shc Hc Hp. destruct (t_parent _ _ _ T c shc s Hc Hp) as (shp & E & Hin). left. congruence. }
  destruct (s_first_child sh) as [c|] eqn:Hf.
  2:{ step. split; [done|]. split; [done|]. split; [apply pruned_refl|]. exists sh. split; [done|].
      unfold kids in Hall. by rewrite Hf in Hall. }
  assert (kids sh = (s_first_child_key sh, c) :: s_children sh) as Ek by (unfold kids; by rewrite Hf).
  destruct (t_kid _ _ _ T s sh (s_first_child_key sh) c Hs (not_elem_of_empty s)) as (Hlt & shc & Hc & Hp & Hk);
    [rewrite Ek; left|].
  pose proof (t_keys _ _ _ T s sh Hs) as Hndk. rewrite Ek in Hall.
  eapply wp_call; [apply (IH c st held); [done|done|eauto|lia]|]. intros b' st1 (L1 & T1 & Hpr & Ht1).
  destruct (pr_self _ _ _ Hpr shc Hc) as (shc1 & Hc1 & Hp1 & Hk1). rewrite Hp in Hp1. rewrite Hk in Hk1.
  assert (shapes st1 !! s = Some sh) as Hs1.
  { rewrite (pr_frame _ _ _ Hpr); [done|lia|]. intros Hb%(below_lt held st T). lia. }
  pose proof (pruned_up held st st1 s c shc T Hc Hp Hpr) as Hup. pose proof (pr_still _ _ _ Hpr) as (_ & He & Hclk).
  step. step. destruct (shape_child_is_dead _ shc1) eqn:Hd.
  - pose proof (dead_leaf _ shc1 Hd) as [Hleaf Hm]. destruct (kids_first sh c Hf Hndk) as [Hkr Hndr].
    set (sh2 := set_s_first_child 0 None sh) in *. unfold shape_detach_child. apply wp_bind. step.
    apply wp_bind. eapply wp_get_shape; [simpl; rewrite lookup_insert_ne by lia; done|].
    rewrite decide_True by done. step.
    eapply wp_call.
    { eapply (cut_leaf held st1 _ s sh sh2 c shc1); try done; [by rewrite Hk1|simpl; by rewrite insert_insert_ne by lia]. }
    intros _ st2 (L2 & T2 & Hpr2 & Hs2 & Hoth & Hgone). step. split; [done|]. split; [done|].
    split; [by eapply pruned_trans|]. exists sh2. split; [done|]. by apply (pending_cut held st st1 st2 s c shc (s_first_child_key sh)).
  - step. split; [done|]. split; [done|]. split; [done|]. exists sh. split; [done|].
    eapply (pending_next held st st1 s c shc); try done. intros shc1' E. rewrite <- He. congruence.
Qed.

Lemma prune_spec fuel : prune_ok fuel.
Proof.
  induction fuel as [|fuel IH]; intros s st held L T [sh Hs] Hfuel.
  all: pose proof (links_young_shape st L s sh Hs) as Hy.
  { lia. }
  cbn [shape_prune_dead_children]. step. eapply wp_call; [apply (prune_first_spec fuel held s st sh); try done; lia|].
  intros b st1 (L1 & T1 & Hpr1 & sh1 & Hs1 & Hpend). step.
  pose proof (t_keys _ _ _ T1 s sh1 Hs1) as Hnd.
  eapply wp_mono; [apply (prune_entries_spec fuel held s (s_children sh1) IH st1 sh1); try done|].
  - destruct (pr_still _ _ _ Hpr1) as (_ & _ & ->). lia.
  - unfold kids in Hnd. destruct (s_first_child sh1); [by apply NoDup_cons in Hnd as [_ ?]|done].
  - intros _ st2 (L2 & T2 & Hpr2 & Ht2). split_and!; try done. by eapply pruned_trans.
Qed.

(** ** Sweeping *)

(** What pruning leaves, whatever the shape it started from. *)
Definition swept (st st' : state) : Prop :=
  still st st' ∧ kept st st' ∧ marks_kept st st' ∧
  ∀ o sho, shapes st !! o = Some sho → s_gc_mark sho = gc_shape_epoch st →
    ∃ sho', shapes st' !! o = Some sho' ∧ s_parent sho' = s_parent sho.

Lemma pruned_swept s st st' : pruned s st st' → swept st st'.
Proof. by intros [H1 H2 H3 H4 _ _]. Qed.

#[global] Instance swept_preorder : PreOrder swept.
Proof.
  split; [intros st; split_and!; eauto; [done|done|intros o sho' E; by exists sho']|].
  intros st1 st2 st3 ((A1 & A2 & A3) & K1 & M1 & P1) ((B1 & B2 & B3) & K2 & M2 & P2).
  split; [split_and!; congruence|]. split; [by etrans|]. split.
  - intros o sho3 E3. destruct (M2 o sho3 E3) as (sho2 & E2 & Hm2). destruct (M1 o sho2 E2) as (sho1 & E1 & Hm1).
    exists sho1. split; [done|congruence].
  - intros o sho1 E1 Hm1. destruct (P1 o sho1 E1 Hm1) as (sho2 & E2 & Hp2).
    destruct (M1 o sho2 E2) as (sho1' & E1' & Hm2). rewrite E1 in E1'. injection E1' as <-.
    destruct (P2 o sho2 E2) as (sho3 & E3 & Hp3); [congruence|]. exists sho3. split; [done|congruence].
Qed.

(** Nothing is above a root. *)
Lemma root_not_below held st r a : tree_ok held ∅ st → Some r ∈ g_root_shapes st → ¬ below st a r.
Proof.
  intros T (i & Hi)%list_elem_of_lookup Hb. destruct (t_roots _ _ _ T i r Hi) as (shr & E & Hp & _).
  destruct (below_last st a r Hb) as (sh & p & E' & Hp' & _). congruence.
Qed.

(** The trees of two roots have nothing in common. *)
Lemma roots_apart held st r r' o :
  tree_ok held ∅ st → Some r ∈ g_root_shapes st → Some r' ∈ g_root_shapes st → r ≠ r' →
  below st r o → o ≠ r' ∧ ¬ below st r' o.
Proof.
  intros T Hr Hr' Hne Hb. split; [intros ->; by apply (root_not_below held st r' r T)|].
  intros Hb'. destruct (below_linear st r r' o Hb Hb') as [?|[Hx|Hx]]; [done| |].
  - by apply (root_not_below held st r' r T) in Hx.
  - by apply (root_not_below held st r r' T) in Hx.
Qed.

Lemma sweep_roots_spec held l : ∀ st (seen : list sid) b,
  links st → tree_ok held ∅ st → (∀ r, Some r ∈ l → Some r ∈ g_root_shapes st) →
  (∀ r, r ∈ seen → Some r ∈ g_root_shapes st ∧ tidy st r) →
  wp (sweep_roots l b) st (λ _ st',
    links st' ∧ tree_ok held ∅ st' ∧ swept st st' ∧ ∀ r, r ∈ seen ∨ Some r ∈ l → tidy st' r).
Proof.
  induction l as [|[r|] l IHl]; intros st seen b L T Hl Hseen; cbn [sweep_roots].
  - step. split_and!; try done. intros r [Hr|Hr%not_elem_of_nil]; [by apply Hseen|done].
  - assert (Some r ∈ g_root_shapes st) as Hr by (apply Hl; left). pose proof Hr as (i & Hi)%list_elem_of_lookup.
    destruct (t_roots _ _ _ T i r Hi) as (shr & Es & _ & _). step.
    eapply wp_call; [apply (prune_spec (S (clock st)) r st held); [done|done|eauto|lia]|].
    intros b' st1 (L1 & T1 & Hpr & Ht). pose proof (pr_still _ _ _ Hpr) as (Hro & He & _).
    eapply wp_mono; [apply (IHl st1 (r :: seen) (b || b') L1 T1)|].
    + intros r' Hr'. rewrite Hro. apply Hl. by right.
    + rewrite Hro. intros r' Hr'. destruct (decide (r' = r)) as [->|Hne]; [done|].
      apply elem_of_cons in Hr' as [->|Hr']; [done|]. destruct (Hseen r' Hr') as [Hin' Ht']. split; [done|].
      eapply tidy_kept; [done|apply Hpr|done|]. intros d Hd.
      destruct (roots_apart held st r' r d T Hin' Hr Hne Hd). by apply (pr_frame _ _ _ Hpr).
    + intros _ st2 (L2 & T2 & Hsw & Htidy). split; [done|]. split; [done|].
      split; [etrans; [by eapply pruned_swept|done]|]. intros r' Hr'. apply Htidy.
      rewrite !elem_of_cons in *. destruct Hr' as [?|[[= ->]|?]]; auto.
  - eapply wp_mono; [apply (IHl st seen b L T)|].
    + intros r Hr. apply Hl. by right.
    + done.
    + intros _ st2 (L2 & T2 & Hsw & Htidy). split_and!; try done. intros r Hr. apply Htidy.
      rewrite elem_of_cons in Hr. destruct Hr as [?|[?|?]]; auto. done.
Qed.

(** Marks of ancestors survive a sweep. *)
Lemma swept_closed held st st' : tree_ok held ∅ st' → swept st st' → marks_closed None st → marks_closed None st'.
Proof.
  intros T' ((_ & He & _) & (_ & Hpk & _) & Hmk & _) Hcl o sho p E Hp Hm. left.
  destruct (Hpk o sho p E Hp) as (sho0 & E0 & Hp0 & _). destruct (Hmk o sho E) as (sho0' & E0' & Hm0).
  rewrite E0 in E0'. injection E0' as <-. destruct (Hcl o sho0 p E0 Hp0) as [(shp & Ep & Hmp)|]; [congruence| |done].
  destruct (t_parent _ _ _ T' o sho p E Hp) as (shp' & Ep' & _). destruct (Hmk p shp' Ep') as (shp0 & Ep0 & Hmp0).
  exists shp'. split; [done|]. congruence.
Qed.

(** What is left below a tidy root is marked. *)
Lemma tidy_marked held st r o :
  links st → tree_ok held ∅ st → marks_closed None st → tidy st r → below st r o → is_marked st o.
Proof.
  intros L T Hcl Ht. assert (∀ n o, (clock st - o < n)%nat → below st r o → is_marked st o) as Hind.
  2:{ intros Hb. by apply (Hind (S (clock st - o))%nat); [lia|]. }
  induction n as [|n IH]; [lia|]. clear o. intros o Hn Hb.
  destruct (below_last st r o Hb) as (sho & p & Eo & Hp & Hbp).
  pose proof (Ht o sho p Eo Hp Hbp) as Hd. unfold shape_child_is_dead in Hd.
  destruct (Z.eqb_spec (s_gc_mark sho) (gc_shape_epoch st)) as [Hm|Hm]; [by exists sho|]. simpl in Hd.
  assert (∃ k c, (k, c) ∈ kids sho) as (k & c & Hin).
  { unfold shape_has_children in Hd. unfold kids. destruct (s_first_child sho) as [c|].
    - eexists _, c. left.
    - destruct (s_children sho) as [|[k c] ?]; [done|]. exists k, c. left. }
  destruct (t_kid _ _ _ T o sho k c Eo (not_elem_of_empty o) Hin) as (Hlt & shc & Ec & Hpc & _).
  pose proof (links_young_shape st L c shc Ec) as Hy.
  destruct (IH c) as (shc' & Ec' & Hmc); [lia|by eapply below_step|].
  rewrite Ec in Ec'. injection Ec' as <-. by destruct (Hcl c shc o Ec Hpc Hmc).
Qed.

(** After a sweep, the shapes below a root are those that were marked. *)
Lemma sweep_spec held st :
  links st → tree_ok held ∅ st →
  wp ant_gc_shapes_sweep st (λ _ st',
    links st' ∧ tree_ok held ∅ st' ∧ swept st st' ∧
    (marks_closed None st → ∀ r o, Some r ∈ g_root_shapes st → below st' r o ↔ below st r o ∧ is_marked st o)).
Proof.
  intros L T. unfold ant_gc_shapes_sweep. step.
  eapply wp_call; [apply (sweep_roots_spec held (g_root_shapes st) st [] false L T); [done|]|].
  { by intros r Hr%not_elem_of_nil. }
  intros b st1 (L1 & T1 & Hsw & Ht). unfold shape_entry_pool_trim. step. step. set (st2 := set_g_shape_entry_pool_len _ st1).
  destruct (idle st1 st2) as [L2 Hst2]; try done.
  assert (tree_ok held ∅ st2) as T2 by (eapply tree_ok_frame; [exact T1|apply Hst2]).
  split; [done|]. split; [done|]. split; [done|]. intros Hcl r o Hr. split.
  - intros Hb. apply (below_kept st1 st2) in Hb; [|by apply tree_frame_parents, Hst2].
    pose proof Hsw as ((_ & He & _) & (_ & Hpk & _) & Hmk & Hma).
    split; [by apply (below_kept st st1)|].
    assert (marks_closed None st1) as Hcl1 by (by apply (swept_closed held st st1)).
    destruct (tidy_marked held st1 r o L1 T1 Hcl1) as (sho & Eo & Hm); [by apply Ht; right|done|].
    destruct (Hmk o sho Eo) as (sho0 & E0 & Hm0). exists sho0. split; [done|congruence].
  - intros [Hb Hm]. destruct Hsw as (_ & _ & _ & Hma).
    induction Hb as [o sho Eo Hp|o sho p Hb IH Eo Hp]; destruct Hm as (sho' & Eo' & Hm);
      rewrite Eo in Eo'; injection Eo' as <-; destruct (Hma o sho Eo Hm) as (sho2 & E2 & Hp2); rewrite Hp in Hp2.
    + by eapply below_child.
    + eapply below_step; [apply IH|exact E2|done]. by destruct (Hcl o sho p Eo Hp Hm).
Qed.
