(* ===== verification/ShapeClient.v ===== *)
(** * Clients of shapes

    A client of src/src/shapes.c holds references to shapes and makes calls on shapes it holds.
    [call] lists the calls that change the store, [perform] makes one and says which references
    the client holds afterwards.  Every sequence of calls keeps the store consistent, and every
    call returns: no block is used after it was freed and no array is accessed out of bounds. *)

From stdpp Require Import gmap gmultiset relations.
From S2P Require Import Prelude ShapeIndex ShapeModel ShapeLinks ShapeCopy ShapeProps ShapeAttrs.
From S2P Require Import Descriptors ShapeCompact ShapeTree ShapeApi ShapeGc.

(** ** An object with a shape of its own *)

Section Unique.

Context `{Allocator}.

(** [js_obj_ensure_unique_shape] of src/src/ant.c, on the shape of the object: the shape after
    the call, and the result. *)
Definition js_obj_ensure_unique_shape (shape : option sid) : SM (option sid * bool) :=
  match shape with
  | None => mret (None, false)
  | Some _ =>
      shared ← ant_shape_is_shared shape;
      if negb shared then mret (shape, true)
      else
        copy ← ant_shape_clone shape;
        match copy with
        | None => mret (shape, false)
        | Some _ => ant_shape_release shape ;; mret (copy, true)
        end
  end.

End Unique.

(** ** Calls *)

Inductive call :=
  | New (limit : Z)
  | Retain (s : sid)
  | Release (s : sid)
  | Clone (s : sid)
  | CloneBulk (s : sid) (extra : Z)
  | AddTr (s : sid) (type : ant_shape_key_type_t) (key attrs max : Z)
  | Transition (s c : sid)
  | Unique (s : sid)
  | AddKey (s : sid) (type : ant_shape_key_type_t) (key attrs : Z)
  | RemoveSlot (s : sid) (slot : Z)
  | SetAttrs (s : sid) (type : ant_shape_key_type_t) (key attrs : Z)
  | ClearAccessor (s : sid) (slot : Z)
  | Describe (s : sid) (slot : Z) (d : descriptor)
  | Compact (s : sid)
  | GcBegin
  | GcMark (s : sid)
  | GcSweep.

(** The references after a call that returns a shape. *)
Definition gained (held : gmultiset sid) (r : option sid) : gmultiset sid :=
  match r with Some n => {[+ n +]} ⊎ held | None => held end.

(** The references after an object moved from [s]. *)
Definition replaced (held : gmultiset sid) (s : sid) (r : option sid) : gmultiset sid :=
  gained (held ∖ {[+ s +]}) r.

Definition set_attrs_call `{Allocator} (s : sid) (type : ant_shape_key_type_t) (key attrs : Z) : SM bool :=
  match type with
  | ANT_SHAPE_KEY_SYMBOL => ant_shape_set_attrs_symbol (Some s) key attrs
  | _ => ant_shape_set_attrs_interned (Some s) key attrs
  end.

Definition perform `{Allocator} (held : gmultiset sid) (c : call) : SM (gmultiset sid) :=
  match c with
  | New limit => r ← ant_shape_new_with_inobj_limit limit; mret (gained held r)
  | Retain s => ant_shape_retain (Some s) ;; mret ({[+ s +]} ⊎ held)
  | Release s => ant_shape_release (Some s) ;; mret (held ∖ {[+ s +]})
  | Clone s => r ← ant_shape_clone (Some s); mret (gained held r)
  | CloneBulk s extra => r ← ant_shape_clone_bulk (Some s) extra; mret (gained held r)
  | AddTr s type key attrs max =>
      '(s', _) ← shape_add_tr (Some s) type key attrs max; mret (replaced held s s')
  | Transition s c => s' ← ant_shape_transition_existing (Some s) (Some c); mret (replaced held s s')
  | Unique s => '(s', _) ← js_obj_ensure_unique_shape (Some s); mret (replaced held s s')
  | AddKey s type key attrs => _ ← shape_add_key (Some s) type key attrs; mret held
  | RemoveSlot s slot => _ ← ant_shape_remove_slot (Some s) slot; mret held
  | SetAttrs s type key attrs => _ ← set_attrs_call s type key attrs; mret held
  | ClearAccessor s slot => _ ← ant_shape_clear_accessor_slot (Some s) slot; mret held
  | Describe s slot d => _ ← describe_slot s slot d; mret held
  | Compact s => _ ← ant_shape_compact (Some s); mret held
  | GcBegin => ant_gc_shapes_begin ;; mret held
  | GcMark s => ant_gc_shapes_mark (Some s) ;; mret held
  | GcSweep => _ ← ant_gc_shapes_sweep; mret held
  end.

(** A client names shapes it holds, and names and slots that exist. *)
Definition usable (held : gmultiset sid) (st : state) (c : call) : Prop :=
  match c with
  | New limit => 0 <= limit
  | Retain s | Release s | Clone s | Unique s | Compact s | GcMark s => s ∈ held
  | CloneBulk s extra => s ∈ held ∧ 0 <= extra < 2 ^ 28
  | AddTr s type key attrs _ => s ∈ held ∧ short_name type key ∧ 0 <= attrs < 256
  | Transition s c => s ∈ held ∧ is_Some (shapes st !! c)
  | AddKey s type key _ | SetAttrs s type key _ => s ∈ held ∧ name_ok type key
  | RemoveSlot s slot | ClearAccessor s slot | Describe s slot _ => s ∈ held ∧ 0 <= slot
  | GcBegin | GcSweep => True
  end.

(** Changes in place are made on shapes without parent and children. *)
Definition careful (st : state) (c : call) : Prop :=
  match c with
  | AddTr s _ _ _ _ => ∀ sh, shapes st !! s = Some sh → shape_is_in_tree sh = false → kids sh = []
  | AddKey s _ _ _ | SetAttrs s _ _ _ | RemoveSlot s _ | ClearAccessor s _
  | Describe s _ _ | Compact s =>
      ∀ sh, shapes st !! s = Some sh → s_parent sh = None ∧ kids sh = []
  | _ => True
  end.

(** The store is consistent and counts the references of the client. *)
Definition consistent (held : gmultiset sid) (st : state) : Prop := links st ∧ tree_ok held ∅ st.

(** What a call on a consistent store leaves. *)
Definition performed (st : state) (c : call) (held' : gmultiset sid) (st' : state) : Prop :=
  consistent held' st' ∧ (coherent st → careful st c → coherent st').

Lemma performed_kept held' st c st' :
  links st' → tree_ok held' ∅ st' → kept st st' → performed st c held' st'.
Proof. intros L' T' Hk. split; [done|]. intros C _. by eapply kept_coherent. Qed.

Lemma performed_changed held st c s sh l st' :
  tree_ok held ∅ st → shapes st !! s = Some sh → changed st s l st' →
  (careful st c → s_parent sh = None ∧ kids sh = []) → performed st c held st'.
Proof.
  intros T Hs Hch Hc. pose proof Hch as (L' & Hf & _). split; [split; [done|by eapply tree_ok_frame]|].
  intros C [Hp Hk]%Hc. by eapply coherent_changed.
Qed.

Lemma performed_stable held st c st' : tree_ok held ∅ st → links st' → stable st st' → performed st c held st'.
Proof. intros T L' Hst. apply performed_kept; [done|eapply tree_ok_frame; [done|apply Hst]|by apply kept_stable]. Qed.

Lemma replaced_same (held : gmultiset sid) s : s ∈ held → replaced held s (Some s) = held.
Proof. intros Hs. unfold replaced, gained. multiset_solver. Qed.

Lemma initial_consistent : consistent ∅ initial_state.
Proof.
  split; split; try done; try (intros; by rewrite lookup_empty in *).
  - intros s Hs. by apply gmultiset_not_elem_of_empty in Hs.
  - intros i r Hi. apply lookup_replicate in Hi as [? _]. done.
Qed.

Section Clients.

Context `{Bounded}.

(** After [js_obj_ensure_unique_shape] no other object has the shape, and it has the same
    properties. *)
Definition made_unique (held : gmultiset sid) (st : state) (s : sid) (r : option sid * bool) (st' : state) : Prop :=
  ∃ n, r.1 = Some n ∧ consistent (replaced held s (Some n)) st' ∧ (coherent st → coherent st') ∧
    slots st' n = slots st s ∧
    (∀ o, o ≠ n → is_Some (shapes st' !! o) → is_Some (shapes st !! o) ∧ slots st' o = slots st o) ∧
    if r.2 then multiplicity n (replaced held s (Some n)) = 1%nat else n = s ∧ refused.

Lemma unique_spec held st s :
  links st → tree_ok held ∅ st → s ∈ held →
  wp (js_obj_ensure_unique_shape (Some s)) st (made_unique held st s).
Proof.
  intros L T Hh. destruct (t_held _ _ _ T s Hh) as [sh Hs]. destruct (links_shape st L s sh Hs) as (x & Hx & _).
  unfold js_obj_ensure_unique_shape, ant_shape_is_shared. step. step. step.
  destruct (_ || _) eqn:Hsh; cbn [negb].
  - eapply wp_call; [apply (clone_spec held st s 0); [done|done|eauto|lia]|]. intros [n|] st1 (L1 & Hq & C1 & Hr).
    + destruct Hr as (T1 & Hn & Hsl & Ho). pose proof (links_young_shape st L s sh Hs) as Hy.
      eapply wp_call; [apply (release_spec _ st1 s L1 T1); by apply held_old|].
      intros _ st2 (L2 & T2 & Hrel). rewrite held_move in T2 by done. step.
      pose proof (kept_released st1 s st2 Hrel) as Hk. pose proof Hk as (_ & _ & Hsl2).
      exists n. split; [done|]. split; [done|]. split; [intros C; eapply kept_coherent; [by apply C1|done|done]|].
      destruct (tree_ok_absent held ∅ st n T) as [Hm _]; [apply links_fresh_shape; [done|lia]|].
      split_and!.
      * destruct (Hsl2 n) as [_ ->]; [|done]. apply (t_held _ _ _ T2), held_new.
      * intros o Hne Hal. destruct (Hsl2 o Hal) as [Hal1 ->]. destruct (Ho o Hne) as [-> Hiff]. by rewrite <- Hiff.
      * simpl. unfold replaced, gained. rewrite multiplicity_disj_union, multiplicity_singleton_eq, multiplicity_difference. lia.
    + destruct Hr as (T1 & Hst & Hrf). step. exists s. rewrite replaced_same by done. split; [done|]. split; [done|].
      split; [done|]. split; [apply Hst|]. split; [|done]. intros o _ Hal. by apply (kept_stable st st1 Hst).
  - step. apply orb_false_iff in Hsh as [Href _]. exists s. rewrite replaced_same by done. split_and!; try done.
    simpl. destruct (t_refs _ _ _ T s sh Hs) as (Hrc & _ & _). unfold tree_refs in Hrc.
    pose proof (proj1 (elem_of_multiplicity s held) Hh). destruct (s_parent sh); case_decide; lia.
Qed.

(** Calls that give, take or exchange references. *)
Lemma perform_new held st limit :
  consistent held st → few held → usable held st (New limit) →
  wp (perform held (New limit)) st (performed st (New limit)).
Proof.
  intros [L T] Hf Hu. eapply wp_call; [by apply (new_spec held)|]. intros r st' (L' & C' & _ & _ & _ & Hr). step.
  split; [|auto]. split; [done|]. by destruct r; [destruct Hr as (? & _)|destruct Hr as (? & _)].
Qed.

Lemma perform_clone held st c s m :
  consistent held st → s ∈ held →
  (∀ st0, links st0 → tree_ok held ∅ st0 → is_Some (shapes st0 !! s) → wp m st0 (cloned held st0 s)) →
  wp (r ← m; mret (gained held r)) st (performed st c).
Proof.
  intros [L T] Hs Hm. eapply wp_call; [by apply (Hm st L T), (t_held _ _ _ T)|].
  intros r st' (L' & _ & C' & Hr). step. split; [|auto]. split; [done|]. by destruct r; destruct Hr as (? & _).
Qed.

Lemma perform_add_tr held st s type key attrs max :
  let c := AddTr s type key attrs max in
  consistent held st → few held → uncrowded st → usable held st c → wp (perform held c) st (performed st c).
Proof.
  intros c [L T] Hf Hc (Hs & Hn & Ha). destruct (alive_slots st s L (t_held _ _ _ T s Hs)) as [l Hl].
  eapply wp_call; [by apply (add_tr_spec held st s l)|]. intros [[s'|] [slot|]] st' Hm; simpl in Hm; step.
  - destruct Hm as (L' & T' & _ & _ & _ & C'). by split.
  - destruct Hm as ([= ->] & L' & T' & _ & C' & _). rewrite replaced_same by done. split; [done|auto].
  - done.
  - by destruct Hm.
Qed.

(** Calls that change the properties of one shape. *)
Lemma perform_in_place {A} held st c s sh l (m : SM A) (Q : A → state → Prop) :
  consistent held st → shapes st !! s = Some sh → slots st s = Some l →
  (careful st c → s_parent sh = None ∧ kids sh = []) → wp m st Q →
  (∀ r st', Q r st' → (∃ l', changed st s l' st') ∨ (links st' ∧ stable st st')) →
  wp (_ ← m; mret held) st (performed st c).
Proof.
  intros [L T] Hs Hl Hc Hm HQ. eapply wp_call; [done|]. intros r st' Hr. step.
  destruct (HQ r st' Hr) as [[l' Hch]|[L' Hst]]; [by eapply performed_changed|by apply performed_stable].
Qed.

Lemma perform_mutator held st c :
  match c with AddKey _ _ _ _ | RemoveSlot _ _ | SetAttrs _ _ _ _ | ClearAccessor _ _
  | Describe _ _ _ | Compact _ => True | _ => False end →
  consistent held st → usable held st c → wp (perform held c) st (performed st c).
Proof.
  intros Hc [L T] Hu.
  assert (∀ s, s ∈ held → is_Some (shapes st !! s) ∧ is_Some (slots st s)) as Hal.
  { intros s Hs. pose proof (t_held _ _ _ T s Hs). split; [done|]. by apply alive_slots. }
  destruct c; try done; simpl in Hu.
  - destruct Hu as [Hs Hn]. destruct (Hal s Hs) as [[sh E] [l Hl]].
    eapply (perform_in_place held st _ s sh l); try done; [intros Hcf; by apply Hcf|by apply (add_key_spec st s l); [|eauto| |]|].
    intros [slot|] st'; [intros [? _]; left; eauto|intros (? & ? & _); by right].
  - destruct Hu as [Hs Hn]. destruct (Hal s Hs) as [[sh E] [l Hl]].
    eapply (perform_in_place held st _ s sh l); try done; [intros Hcf; by apply Hcf|by apply (remove_slot_spec st s l); [|eauto| |]|].
    intros [|] st'; [intros [_ ?]; left; eauto|intros (? & ? & _); by right].
  - destruct Hu as [Hs Hn]. destruct (Hal s Hs) as [[sh E] [l Hl]].
    eapply (perform_in_place held st _ s sh l); try done; [intros Hcf; by apply Hcf| |].
    { pose proof (set_attrs_spec st s l type key attrs L Hl ltac:(eauto) Hn) as Hsp.
      unfold set_attrs_call. destruct type; [exact Hsp|exact Hsp|done]. }
    intros [|] st'; [intros (i & _ & ?); left; eauto|intros (? & ? & _); by right].
  - destruct Hu as [Hs Hn]. destruct (Hal s Hs) as [[sh E] [l Hl]].
    eapply (perform_in_place held st _ s sh l); try done; [intros Hcf; by apply Hcf|by apply (clear_accessor_spec st s l); [| |eauto|]|].
    intros [|] st'; [intros [_ ?]; left; eauto|intros (? & ? & _); by right].
  - destruct Hu as [Hs Hn]. destruct (Hal s Hs) as [[sh E] [l Hl]].
    eapply (perform_in_place held st _ s sh l); try done; [intros Hcf; by apply Hcf|by apply (describe_slot_spec st s l); [| |eauto|]|].
    intros [|] st'; [intros [_ ?]; left; eauto|intros (? & ? & _); by right].
  - destruct (Hal s Hu) as [[sh E] [l Hl]].
    eapply (perform_in_place held st _ s sh l); try done; [intros Hcf; by apply Hcf|by apply (compact_spec st s l); [|eauto|]|].
    intros r st' [[? _]|(? & ? & _)]; [left; eauto|by right].
Qed.

(** Calls of the collector. *)
Lemma perform_gc held st c :
  match c with GcBegin | GcMark _ | GcSweep => True | _ => False end →
  consistent held st → usable held st c → wp (perform held c) st (performed st c).
Proof.
  intros Hc [L T] Hu. destruct c; try done; simpl in Hu.
  - cbn [perform]. unfold ant_gc_shapes_begin. step. step. set (st' := set_gc_shape_epoch _ st).
    destruct (links_frame st st' L) as [L' Hsl]; [done..|]. split.
    + split; [done|]. eapply (tree_ok_refs held held ∅ ∅ st st' T); try done; apply T.
    + intros C _ o sho p E Hp. destruct (C o sho p E Hp) as (type & key & attrs & l & ?).
      exists type, key, attrs, l. by rewrite !Hsl.
  - cbn [perform]. unfold ant_gc_shapes_mark. apply wp_bind. step.
    destruct (t_held _ _ _ T s Hu) as [sh Hs]. pose proof (links_young_shape st L s sh Hs) as Hy.
    eapply wp_mono; [by apply (mark_rec_frame held (S (clock st)) st s T); [eauto|lia]|]. intros ? st' Hr. step.
    destruct (remarked_ok held st st' L T Hr) as (L' & T' & Hk & _). by apply performed_kept.
  - eapply wp_call; [by apply (sweep_spec held)|]. intros b st' (L' & T' & (_ & Hk & _) & _). step.
    by apply performed_kept.
Qed.

(** A call on a consistent store returns and leaves a consistent store. *)
Lemma perform_spec held st c :
  consistent held st → few held → uncrowded st → usable held st c → wp (perform held c) st (performed st c).
Proof.
  intros Hc Hf Hun Hu. pose proof Hc as [L T]. destruct c.
  all: try by apply perform_mutator.
  all: try by apply perform_gc.
  - by apply perform_new.
  - destruct (t_held _ _ _ T s Hu) as [sh Hs]. cbn [perform].
    eapply wp_call; [apply (retain_spec held st s sh); try done; by eapply few_refs|].
    intros _ st' (L' & T' & Hq & Hsl & Hsh). step. apply performed_kept; [done|done|]. split; [done|]. split.
    + intros o sho p E Hp. rewrite Hsh, lookup_insert_Some in E. destruct E as [[<- <-]|[_ E]]; [by exists sh|by exists sho].
    + intros o Ho. split; [|done]. rewrite Hsh in Ho. destruct (decide (s = o)) as [<-|Hne]; [eauto|].
      by rewrite lookup_insert_ne in Ho.
  - cbn [perform]. eapply wp_call; [by apply (release_spec held st s)|]. intros _ st' (L' & T' & Hr). step.
    apply performed_kept; [done|done|by eapply kept_released].
  - apply (perform_clone held st _ s); [done|done|]. intros st0 L0 T0 Hs0. by apply clone_spec.
  - destruct Hu as [Hs He]. apply (perform_clone held st _ s); [done|done|]. intros st0 L0 T0 Hs0. by apply clone_bulk_spec.
  - by apply perform_add_tr.
  - destruct Hu as [Hs Hc']. cbn [perform]. eapply wp_call; [by apply (transition_existing_spec held st s c)|].
    intros r st' (-> & L' & T' & Hk). step. by apply performed_kept.
  - cbn [perform]. eapply wp_call; [by apply (unique_spec held st s)|].
    intros [r ok] st' (n & E & Hcon & C' & _). simpl in E. subst r. step. by split; [|auto].
Qed.

(** ** Runs *)

(** One call of a client. *)
Inductive client_step : gmultiset sid * state → gmultiset sid * state → Prop :=
  | client_call held st c held' st' :
      usable held st c → few held → uncrowded st → perform held c st = Ok (held', st') →
      client_step (held, st) (held', st').

(** The same, where shapes in the tree are not changed in place. *)
Inductive careful_step : gmultiset sid * state → gmultiset sid * state → Prop :=
  | careful_call held st c held' st' :
      usable held st c → careful st c → few held → uncrowded st → perform held c st = Ok (held', st') →
      careful_step (held, st) (held', st').

Definition shape_reachable (held : gmultiset sid) (st : state) : Prop :=
  rtc client_step (∅, initial_state) (held, st).

Definition carefully_reachable (held : gmultiset sid) (st : state) : Prop :=
  rtc careful_step (∅, initial_state) (held, st).

Lemma wp_returns {A} (m : SM A) st a st' Q : wp m st Q → m st = Ok (a, st') → Q a st'.
Proof. unfold wp. intros Hm E. by rewrite E in Hm. Qed.

Lemma wp_ok {A} (m : SM A) st Q : wp m st Q → ∃ a st', m st = Ok (a, st') ∧ Q a st'.
Proof. unfold wp. destruct (m st) as [[a st']| |]; eauto; done. Qed.

Lemma reachable_consistent held st : shape_reachable held st → consistent held st.
Proof.
  assert (∀ x y, rtc client_step x y → consistent x.1 x.2 → consistent y.1 y.2) as Hrun.
  { induction 1 as [|x y z Hs _ IH]; [done|]. intros Hx. apply IH.
    destruct Hs as [held0 st0 c held' st' Hu Hf Hun E].
    by apply (wp_returns _ _ _ _ _ (perform_spec held0 st0 c Hx Hf Hun Hu)) in E as [? _]. }
  intros Hr. apply (Hrun _ _ Hr). apply initial_consistent.
Qed.

Lemma initial_coherent : coherent initial_state.
Proof. intros c shc p E. simpl in E. by rewrite lookup_empty in E. Qed.

Lemma careful_reachable held st : carefully_reachable held st → consistent held st ∧ coherent st.
Proof.
  assert (∀ x y, rtc careful_step x y → consistent x.1 x.2 ∧ coherent x.2 → consistent y.1 y.2 ∧ coherent y.2) as Hrun.
  { induction 1 as [|x y z Hs _ IH]; [done|]. intros [Hx Cx]. apply IH.
    destruct Hs as [held0 st0 c held' st' Hu Hcf Hf Hun E]. simpl in *.
    apply (wp_returns _ _ _ _ _ (perform_spec held0 st0 c Hx Hf Hun Hu)) in E as [? HC]. auto. }
  intros Hr. apply (Hrun _ _ Hr). split; [apply initial_consistent|apply initial_coherent].
Qed.

End Clients.
