(* ===== verification/ShapeTheorems.v ===== *)
(** * Shapes: what clients can rely on

    The theorems about src/src/shapes.c as a client sees it, for every store that a sequence of
    calls can reach, and two runs that show where the code does not do what it means to. *)

From stdpp Require Import gmap gmultiset relations.
From S2P Require Import Prelude ShapeIndex ShapeModel ShapeLinks ShapeCopy ShapeProps ShapeAttrs.
From S2P Require Import Descriptors ShapeCompact ShapeTree ShapeApi ShapeGc ShapeClient.

(** ** A concrete run *)

(** An allocator that grants every block below 4 GB. *)
Definition ample : Allocator := λ _ n, n <? 2 ^ 32.

Lemma ample_bounded : @Bounded ample.
Proof. intros t n. unfold grants, ample. lia. Qed.

Definition store_of {A} (o : outcome (A * state)) : state :=
  match o with Ok (_, st) => st | _ => initial_state end.

Definition held_of (o : outcome (gmultiset sid * state)) : gmultiset sid :=
  match o with Ok (held, _) => held | _ => ∅ end.

(** The interned names a, j and k. *)
Definition name_a : Z := 0x1000.

Definition name_j : Z := 0x2000.

Definition name_k : Z := 0x3000.

(** A client that makes the calls in order. *)
Fixpoint perform_all `{Allocator} (held : gmultiset sid) (cs : list call) : SM (gmultiset sid) :=
  match cs with
  | [] => mret held
  | c :: cs => held' ← perform held c; perform_all held' cs
  end.

Definition demo (cs : list call) : outcome (gmultiset sid * state) := @perform_all ample ∅ cs initial_state.

(** An object with property a. *)
Definition calls_a : list call := [New 4; AddTr 1 ANT_SHAPE_KEY_STRING name_a 7 SHAPE_TRANSITION_MAX_PROPS].

(** ** Checking a run *)

#[global] Instance name_ok_dec type key : Decision (name_ok type key).
Proof. destruct type; simpl; apply _. Defined.

#[global] Instance usable_dec held st c : Decision (usable held st c).
Proof. destruct c; simpl; unfold short_name; apply _. Defined.

#[global] Instance careful_lookup_dec (m : gmap sid ant_shape_t) s (P : ant_shape_t → Prop) :
  (∀ sh, Decision (P sh)) → Decision (∀ sh, m !! s = Some sh → P sh).
Proof.
  intros HP. destruct (m !! s) as [sh|] eqn:E.
  - destruct (decide (P sh)) as [H|H]; [left|right; auto]. by intros sh' [= <-].
  - by left.
Defined.

#[global] Instance careful_dec st c : Decision (careful st c).
Proof. destruct c; simpl; apply _. Defined.

(** Whether every call of a run may be made; [n] is above the references held so far. *)
Fixpoint run_ok `{Allocator} (ok : state → call → bool) (n : nat) (held : gmultiset sid) (cs : list call) (st : state) : bool :=
  match cs with
  | [] => true
  | c :: cs =>
      bool_decide (usable held st c) && ok st c && (Z.of_nat n <? 2 ^ 32 - 4) &&
      (Z.of_nat (size (shapes st)) <? 2 ^ 32 - 1) &&
      match perform held c st with
      | Ok (held', st') => run_ok ok (S n) held' cs st'
      | _ => false
      end
  end.

Definition at_most (n : nat) (held : gmultiset sid) : Prop := ∀ o, (multiplicity o held <= n)%nat.

Lemma at_most_gained n held r : at_most n held → at_most (S n) (gained held r).
Proof.
  intros Hn o. specialize (Hn o). destruct r as [m|]; simpl; [|lia]. rewrite multiplicity_disj_union.
  destruct (decide (o = m)) as [->|Hne]; [rewrite multiplicity_singleton_eq; lia|].
  rewrite multiplicity_singleton_ne by done. lia.
Qed.

Lemma at_most_minus n held (x : gmultiset sid) : at_most n held → at_most n (held ∖ x).
Proof. intros Hn o. specialize (Hn o). rewrite multiplicity_difference. lia. Qed.

Lemma bind_ok {A B} (m : SM A) (f : A → SM B) st b st' :
  (m ≫= f) st = Ok (b, st') → ∃ a st1, m st = Ok (a, st1) ∧ f a st1 = Ok (b, st').
Proof. unfold mbind, SM_bind. destruct (m st) as [[a st1]| |]; [eauto|done|done]. Qed.

Lemma at_most_perform `{Allocator} n held c st held' st' :
  at_most n held → perform held c st = Ok (held', st') → at_most (S n) held'.
Proof.
  intros Hn E. assert (at_most (S n) held) as Hn' by (intros o; specialize (Hn o); lia).
  destruct c; apply bind_ok in E as (a & st1 & _ & E);
    try match type of a with (_ * _)%type => destruct a end; injection E as <- _; try done; unfold replaced;
    (by apply at_most_gained) || (by apply at_most_gained, at_most_minus) || (by apply at_most_minus) ||
    (by apply (at_most_gained n held (Some s))).
Qed.

(** A run that passes the check is one of a client, or of a careful one. *)
Lemma run_ok_steps `{Allocator} (R : gmultiset sid * state → gmultiset sid * state → Prop) ok cs : ∀ n held st r,
  (∀ held st c held' st', usable held st c → ok st c = true → few held → uncrowded st →
     perform held c st = Ok (held', st') → R (held, st) (held', st')) →
  at_most n held → run_ok ok n held cs st = true → perform_all held cs st = Ok r → rtc R (held, st) r.
Proof.
  induction cs as [|c cs IH]; intros n held st r HR Hn Hok E; simpl in *; [by injection E as <-|].
  apply andb_true_iff in Hok as [Hok Hrun]. apply andb_true_iff in Hok as [Hok Hun].
  apply andb_true_iff in Hok as [Hok Hf]. apply andb_true_iff in Hok as [Hu Hc]. apply bool_decide_eq_true in Hu.
  destruct r as [held2 st2]. apply bind_ok in E as (held1 & st1 & E1 & E2). rewrite E1 in Hrun.
  eapply rtc_l; [eapply HR; try done|].
  - intros o. specialize (Hn o). lia.
  - unfold uncrowded. lia.
  - eapply (IH (S n)); try done. by eapply at_most_perform.
Qed.

Lemma run_reachable cs held st :
  @run_ok ample (λ _ _, true) 0 ∅ cs initial_state = true → demo cs = Ok (held, st) → @shape_reachable ample held st.
Proof.
  intros Hok E. eapply (@run_ok_steps ample); try done; [|by intros o; rewrite multiplicity_empty].
  intros held0 st0 c held' st' Hu _ Hf Hun E'. by eapply (@client_call ample).
Qed.

Lemma run_careful cs held st :
  @run_ok ample (λ st c, bool_decide (careful st c)) 0 ∅ cs initial_state = true → demo cs = Ok (held, st) →
  @carefully_reachable ample held st.
Proof.
  intros Hok E. eapply (@run_ok_steps ample); try done; [|by intros o; rewrite multiplicity_empty].
  intros held0 st0 c held' st' Hu Hc Hf Hun E'. apply bool_decide_eq_true in Hc. by eapply (@careful_call ample).
Qed.

(** The store after a run. *)
Definition demo_held (cs : list call) : gmultiset sid := held_of (demo cs).

Definition demo_store (cs : list call) : state := store_of (demo cs).

Lemma at_most_run `{Allocator} cs : ∀ n held st held' st',
  at_most n held → perform_all held cs st = Ok (held', st') → at_most (n + length cs) held'.
Proof.
  induction cs as [|c cs IH]; intros n held st held' st' Hn E; simpl in *.
  { injection E as <- _. by rewrite Nat.add_0_r. }
  apply bind_ok in E as (held1 & st1 & E1 & E2). rewrite Nat.add_succ_r.
  apply (IH (S n) held1 st1 held' st'); [|done]. by eapply at_most_perform.
Qed.

Lemma demo_few cs : Z.of_nat (length cs) < 2 ^ 32 - 3 → few (demo_held cs).
Proof.
  intros Hl o. unfold demo_held, held_of. destruct (demo cs) as [[held st]| |] eqn:E; [|rewrite multiplicity_empty; lia..].
  assert (at_most (0 + length cs) held) as Hn.
  { eapply (@at_most_run ample); [|exact E]. intros o'. by rewrite multiplicity_empty. }
  specialize (Hn o). lia.
Qed.

(** ** Safety *)

(** ** What the theorems say of a store *)

(** Every shape counts the references to it, from the client, from its parent and from the root
    table, and has one. *)
Definition counted (held : gmultiset sid) (st : state) : Prop :=
  ∀ s sh, shapes st !! s = Some sh →
    s_ref_count sh = Z.of_nat (multiplicity s held) + tree_refs (g_root_shapes st) s sh ∧ 0 < s_ref_count sh.

(** The shapes of [P] have the properties they had. *)
Definition undisturbed (P : sid → Prop) (st st' : state) : Prop := ∀ o, P o → slots st' o = slots st o.

(** Every shape of [st'] is one of [st] with the properties it had. *)
Definition survivors (st st' : state) : Prop :=
  ∀ o, is_Some (shapes st' !! o) → is_Some (shapes st !! o) ∧ slots st' o = slots st o.

Section Theorems.

Context `{Bounded}.

(** C1: however a client has got there, its next call returns: nothing is used after it was
    freed, nothing is read or written out of bounds, no loop runs forever.  The reference count
    of every shape is the number of references to it, from the client, from its parent and from
    the root table; every shape has one, and every shape the client holds is there. *)
Theorem shapes_safe held st c :
  shape_reachable held st → usable held st c → few held → uncrowded st →
  (∃ held' st', perform held c st = Ok (held', st')) ∧
  counted held st ∧ (∀ s, s ∈ held → is_Some (shapes st !! s)).
Proof.
  intros Hr Hu Hf Hun. pose proof (reachable_consistent held st Hr) as Hc. pose proof Hc as [L T]. split; [|split].
  - destruct (wp_ok _ _ _ (perform_spec held st c Hc Hf Hun Hu)) as (held' & st' & E & _). eauto.
  - intros s sh E. destruct (t_refs _ _ _ T s sh E) as (H1 & _ & H3). split; [done|]. by apply H3, not_elem_of_empty.
  - apply T.
Qed.

(** ** Properties of a shape *)

(** [m] returns, the slots of [s] and the result are as [P] says, and no other shape changes. *)
Definition effect {A} (m : SM A) (st : state) (s : sid) (P : A → option (list ant_shape_prop_t) → Prop) : Prop :=
  ∃ r st', m st = Ok (r, st') ∧ P r (slots st' s) ∧ ∀ o, o ≠ s → slots st' o = slots st o.

Lemma effect_wp {A} (m : SM A) st s (Q : A → state → Prop) P :
  wp m st Q → (∀ r st', Q r st' → P r (slots st' s) ∧ ∀ o, o ≠ s → slots st' o = slots st o) → effect m st s P.
Proof. intros Hm HQ. destruct (wp_ok m st Q Hm) as (r & st' & E & Hr). exists r, st'. split; [done|]. by apply HQ. Qed.

Lemma live_remove_prop i l p :
  l !! i = Some p → live (remove_prop i l) = live (take i l) ++ live (drop (S i) l).
Proof.
  intros Hp. unfold remove_prop. rewrite live_trim, insert_take_drop by (by eapply lookup_lt_Some).
  unfold live. rewrite filter_app, filter_cons. rewrite decide_False; [done|]. by intros [].
Qed.

(** One slot of [l] is changed as [P] says and the others stay. *)
Definition only_slot (i : nat) (P : ant_shape_prop_t → ant_shape_prop_t → Prop)
    (l : list ant_shape_prop_t) (l' : option (list ant_shape_prop_t)) : Prop :=
  ∃ p p' k, l !! i = Some p ∧ P p p' ∧ l' = Some k ∧ k !! i = Some p' ∧ length k = length l ∧
    ∀ j, j ≠ i → k !! j = l !! j.

Lemma only_slot_alter i f P l :
  (i < length l)%nat → (∀ p, P p (f p)) → only_slot i P l (Some (alter f i l)).
Proof.
  intros Hi HP. destruct (lookup_lt_is_Some_2 l i Hi) as [p Hp].
  exists p, (f p), (alter f i l). split_and!; [done|done|done| |by rewrite length_alter|].
  - by rewrite list_lookup_alter_eq, Hp.
  - intros j Hj. by rewrite list_lookup_alter_ne by done.
Qed.

(** The attributes are changed and nothing else. *)
Definition attrs_changed (attrs : Z) (p p' : ant_shape_prop_t) : Prop :=
  p_attrs p' = attrs ∧ p_type p' = p_type p ∧ p_key p' = p_key p ∧
  p_has_getter p' = p_has_getter p ∧ p_has_setter p' = p_has_setter p ∧
  p_getter p' = p_getter p ∧ p_setter p' = p_setter p.

(** The property keeps its name and its attributes and is no accessor. *)
Definition accessor_cleared (p p' : ant_shape_prop_t) : Prop :=
  p_type p' = p_type p ∧ p_key p' = p_key p ∧ p_attrs p' = p_attrs p ∧
  p_has_getter p' = 0 ∧ p_has_setter p' = 0 ∧ p_getter p' = 0 ∧ p_setter p' = 0.

(** C2: looking up, adding, removing, changing and compacting are the operations on the
    list of slots, for every shape a client holds.  Lookup finds the slot of the name; adding
    keeps it or appends; removing deletes one property and keeps the order of the others;
    compacting drops the deleted slots.  Setting attributes changes those of one property and
    nothing else; a descriptor gives a property its attributes and the functions of an accessor, and
    keeps the function it does not name; clearing an accessor resets both of its functions and keeps
    the name and the attributes ([attrs_changed], [described], [accessor_cleared] spell these out
    field by field).  No other shape changes, although tables are shared, and
    an operation that fails because memory runs out changes nothing. *)
Theorem shape_props_correct held st s l :
  shape_reachable held st → s ∈ held → slots st s = Some l →
  (∀ type key, name_ok type key → lookup_slot (Some s) (shape_key type key) st = Ok (slot_of type key l, st)) ∧
  (∀ type key attrs, name_ok type key → effect (shape_add_key (Some s) type key attrs) st s (λ r l',
     match r with
     | Some slot => l' = Some (add_prop type key attrs l) ∧ slot = Z.of_nat (default (length l) (find_name type key l))
     | None => l' = Some l ∧ refused
     end)) ∧
  (∀ slot, 0 <= slot → effect (ant_shape_remove_slot (Some s) slot) st s (λ r l',
     if r then is_Some (prop_of l slot) ∧ l' = Some (remove_prop (Z.to_nat slot) l) ∧
       live (remove_prop (Z.to_nat slot) l) = live (take (Z.to_nat slot) l) ++ live (drop (S (Z.to_nat slot)) l)
     else l' = Some l ∧ (prop_of l slot = None ∨ refused))) ∧
  (∀ type key attrs, name_ok type key → effect (set_attrs_call s type key attrs) st s (λ r l',
     if r then ∃ i, find_name type key l = Some i ∧ only_slot i (attrs_changed attrs) l l'
     else l' = Some l ∧ (find_name type key l = None ∨ refused))) ∧
  (∀ slot, 0 <= slot → effect (ant_shape_clear_accessor_slot (Some s) slot) st s (λ r l',
     if r then is_Some (prop_of l slot) ∧ only_slot (Z.to_nat slot) accessor_cleared l l'
     else l' = Some l ∧ (prop_of l slot = None ∨ refused))) ∧
  (∀ slot d, 0 <= slot → effect (describe_slot s slot d) st s (λ r l',
     if r then is_Some (prop_of l slot) ∧ only_slot (Z.to_nat slot) (described d) l l'
     else l' = Some l ∧ (prop_of l slot = None ∨ refused))) ∧
  effect (ant_shape_compact (Some s)) st s (λ r l',
    (l' = Some (live l) ∧ r = zlen (live l)) ∨ (l' = Some l ∧ r = zlen l ∧ refused)).
Proof.
  intros Hr Hs Hl. destruct (reachable_consistent held st Hr) as [L T]. pose proof (t_held _ _ _ T s Hs) as Hal.
  assert (∀ st', stable st st' → slots st' s = Some l ∧ ∀ o, o ≠ s → slots st' o = slots st o) as Hst.
  { intros st' [_ Hsl]. by rewrite Hsl. }
  assert (∀ st' l', changed st s l' st' → slots st' s = Some l' ∧ ∀ o, o ≠ s → slots st' o = slots st o) as Hch.
  { by intros st' l' (_ & _ & ? & ?). }
  split_and!.
  - intros type key Hn. destruct (wp_ok _ _ _ (lookup_slot_spec st s l type key L Hl Hal Hn)) as (r & st' & E & -> & ->). done.
  - intros type key attrs Hn. eapply effect_wp; [by apply (add_key_spec st s l)|]. intros [slot|] st'.
    + intros [[? ?]%Hch ?]. by split.
    + intros (_ & [? ?]%Hst & ?). by split.
  - intros slot Hslot. eapply effect_wp; [by apply (remove_slot_spec st s l)|]. unfold prop_of. intros [|] st'.
    + intros [(p & Hp & Hlive) [? ?]%Hch]. split; [|done]. rewrite Hp. simpl. rewrite decide_True by done.
      split; [done|]. split; [done|]. by eapply live_remove_prop.
    + intros (_ & [? ?]%Hst & Hcase). split; [|done]. split; [done|]. destruct Hcase as [Hd|?]; [left|by right].
      destruct (l !! Z.to_nat slot) as [p|]; [|done]. simpl. rewrite decide_False by auto. done.
  - intros type key attrs Hn. eapply effect_wp.
    { pose proof (set_attrs_spec st s l type key attrs L Hl Hal Hn) as Hsp.
      unfold set_attrs_call. destruct type; [exact Hsp|exact Hsp|done]. }
    intros [|] st'.
    + intros (i & Hi & [-> ?]%Hch). split; [|done]. exists i. split; [done|].
      apply only_slot_alter; [by eapply find_name_lt|done].
    + intros (_ & [? ?]%Hst & ?). by split.
  - intros slot Hslot. eapply effect_wp; [by apply (clear_accessor_spec st s l)|]. intros [|] st'.
    + intros [? [-> ?]%Hch]. split; [|done]. split; [done|]. apply only_slot_alter; [by apply prop_of_lt|done].
    + intros (_ & [? ?]%Hst & ?). by split.
  - intros slot d Hslot. eapply effect_wp; [by apply (describe_slot_spec st s l)|]. intros [|] st'.
    + intros [? [-> ?]%Hch]. split; [|done]. split; [done|].
      apply only_slot_alter; [by apply prop_of_lt|apply desc_update_spec].
    + intros (_ & [? ?]%Hst & ?). by split.
  - eapply effect_wp; [by apply (compact_spec st s l)|]. intros r st' [[[? ?]%Hch ?]|(_ & [? ?]%Hst & ? & ?)].
    + split; [by left|done].
    + split; [by right|done].
Qed.

(** ** Transitions *)

Lemma held_rest (held : gmultiset sid) s o : o ∈ held ∖ {[+ s +]} → o ∈ held.
Proof.
  intros Ho. apply elem_of_multiplicity. apply (proj1 (elem_of_multiplicity _ _)) in Ho.
  rewrite multiplicity_difference in Ho. lia.
Qed.

(** C7: an object that adds a property moves to a shape with the properties it had and the new
    one, whether a transition was followed, a shape was made or its own shape was changed; the
    slot it is told is that of the property; no shape that others hold changes.  This is for
    clients that do not change shapes in the tree in place. *)
Theorem shape_transition_correct held st s l type key attrs max :
  carefully_reachable held st → few held → uncrowded st → s ∈ held → slots st s = Some l →
  short_name type key → 0 <= attrs < 256 →
  ∃ s' r st', shape_add_tr (Some s) type key attrs max st = Ok ((Some s', r), st') ∧
    undisturbed (λ o, o ∈ held ∖ {[+ s +]} ∧ o ≠ s') st st' ∧
    match r with
    | Some slot => slots st' s' = Some (add_prop type key attrs l) ∧
        slot = Z.of_nat (default (length l) (find_name type key l)) ∧
        consistent ({[+ s' +]} ⊎ held ∖ {[+ s +]}) st'
    | None => s' = s ∧ slots st' s = Some l ∧ consistent held st' ∧ refused
    end.
Proof.
  intros Hr Hf Hun Hs Hl Hn Ha. destruct (careful_reachable held st Hr) as [[L T] C].
  destruct (wp_ok _ _ _ (add_tr_spec held st s l type key attrs max L T Hf Hun Hs Hl Hn Ha)) as ([s0 r] & st' & E & Hm).
  destruct s0 as [s'|], r as [slot|]; simpl in Hm; try done.
  - destruct Hm as (L' & T' & _ & Hsl & Hadd & _). destruct (Hadd C) as [H1 H2]. exists s', (Some slot), st'.
    split; [done|]. split; [|done]. intros o [Ho Hne]. apply Hsl; [done|]. apply (t_held _ _ _ T'). by apply held_old.
  - destruct Hm as ([= ->] & L' & T' & (_ & _ & Hsl) & _ & Hrf). exists s, None, st'. split; [done|].
    assert (∀ o, o ∈ held → slots st' o = slots st o) as Hsame by (intros o Ho; by apply Hsl, (t_held _ _ _ T')).
    split; [|rewrite Hsame by done; done]. intros o [Ho _]. by apply Hsame, (held_rest held s).
  - by destruct Hm.
Qed.

(** ** Releasing *)

(** A shape with more than one reference survives. *)
Lemma release_shared_alive held st s sh :
  tree_ok held ∅ st → s ∈ held → shapes st !! s = Some sh → s_ref_count sh ≠ 1 →
  wp (ant_shape_release (Some s)) st (λ _ st', is_Some (shapes st' !! s)).
Proof.
  intros T Hs E Hne. destruct (t_refs _ _ _ T s sh E) as (_ & Hb & Hpos). specialize (Hpos (not_elem_of_empty s)).
  unfold ant_shape_release. step. cbn [release_rec]. step. replace (s_ref_count sh =? 0) with false by lia.
  rewrite u32_small by lia. step. replace (s_ref_count sh - 1 =? 0) with false by lia. cbn [negb]. step.
  simpl. rewrite lookup_insert_eq. eauto.
Qed.

(** C8: [ant_shape_release] returns, however deep the tree below the shape is.  It frees the
    shape when the reference was the last, and keeps everything that is still referred to, with
    its properties. *)
Theorem shape_release_correct held st s sh :
  shape_reachable held st → s ∈ held → shapes st !! s = Some sh →
  ∃ st', ant_shape_release (Some s) st = Ok (tt, st') ∧ consistent (held ∖ {[+ s +]}) st' ∧
    (shapes st' !! s = None ↔ s_ref_count sh = 1) ∧
    (∀ o, o ∈ held ∖ {[+ s +]} → is_Some (shapes st' !! o)) ∧ survivors st st'.
Proof.
  intros Hr Hs E. destruct (reachable_consistent held st Hr) as [L T].
  destruct (wp_ok _ _ _ (release_spec held st s L T Hs)) as ([] & st' & Eq & L' & T' & Hrel).
  pose proof (kept_released st s st' Hrel) as (_ & Hpk & Hsl). pose proof (r_still _ _ _ _ Hrel) as (Hro & _).
  exists st'. split; [done|]. split; [done|]. split; [|split; [apply T'|done]].
  destruct (held_minus held s Hs) as [_ Hm]. destruct (t_refs _ _ _ T s sh E) as (Hrc & _ & _).
  pose proof (proj1 (elem_of_multiplicity s held) Hs) as Hpos. unfold tree_refs in Hrc. split.
  - intros Hgone. destruct (decide (s_ref_count sh = 1)) as [|Hne]; [done|].
    destruct (wp_returns _ _ _ _ _ (release_shared_alive held st s sh T Hs E Hne) Eq). congruence.
  - intros Hone. destruct (shapes st' !! s) as [sh'|] eqn:E'; [|done].
    destruct (t_refs _ _ _ T' s sh' E') as (Hrc' & _ & Hpos'). specialize (Hpos' (not_elem_of_empty s)).
    unfold tree_refs in Hrc'. rewrite Hro in Hrc'. destruct (s_parent sh) eqn:Ep; [case_decide; lia|].
    destruct (s_parent sh') as [p|] eqn:Ep'; [|case_decide; lia].
    destruct (Hpk s sh' p E' Ep') as (sh0 & E0 & Hp0 & _). congruence.
Qed.

(** ** Collecting *)

(** A collection: the shapes in use are marked and the trees are swept. *)
Definition gc_cycle (used : list sid) : SM bool :=
  ant_gc_shapes_begin ;; for_each (λ s, ant_gc_shapes_mark (Some s)) used ;; ant_gc_shapes_sweep.

(** No shape has the mark of the next collection yet. *)
Definition unmarked (st : state) : Prop :=
  ∀ o sho, shapes st !! o = Some sho →
    s_gc_mark sho ≠ (let e := u16 (gc_shape_epoch st + 1) in if e =? 0 then 1 else e).

Lemma below_remarked st st' a o : remarked st st' → below st' a o ↔ below st a o.
Proof.
  intros Hr. split; apply below_kept; intros o' sho p E Hp.
  - destruct (remarked_lookup st st' o' sho Hr E) as (sho0 & m & E0 & ->). by exists sho0.
  - destruct (remarked_lookup st' st o' sho (remarked_sym _ _ Hr) E) as (sho0 & m & E0 & ->). by exists sho0.
Qed.

Lemma mark_all_spec held used : ∀ st,
  links st → tree_ok held ∅ st → marks_closed None st → (∀ s, s ∈ used → s ∈ held) →
  wp (for_each (λ s, ant_gc_shapes_mark (Some s)) used) st (λ _ st',
    links st' ∧ tree_ok held ∅ st' ∧ remarked st st' ∧ marks_closed None st' ∧
    ∀ o, is_marked st' o ↔ is_marked st o ∨ ∃ s, s ∈ used ∧ (o = s ∨ below st o s)).
Proof.
  induction used as [|s used IH]; intros st L T Hcl Hu; cbn [for_each].
  { step. split_and!; try done. intros o. split; [by left|]. by intros [?|(s & Hs%not_elem_of_nil & _)]. }
  eapply wp_call; [apply (mark_spec held st s L T); [|done]|].
  { apply (t_held _ _ _ T), Hu. left. }
  intros _ st1 (Hr1 & Hcl1 & Hm1). destruct (remarked_ok held st st1 L T Hr1) as (L1 & T1 & _ & _).
  eapply wp_mono; [apply (IH st1 L1 T1 Hcl1); intros s' Hs'; apply Hu; by right|].
  intros _ st2 (L2 & T2 & Hr2 & Hcl2 & Hm2). split; [done|]. split; [done|]. split; [by etrans|]. split; [done|].
  intros o. rewrite Hm2, Hm1. setoid_rewrite (below_remarked st st1 o _ Hr1). setoid_rewrite elem_of_cons. split.
  - intros [[?|?]|(s' & ? & ?)]; [by left|right; by exists s; auto|right; by exists s'; auto].
  - intros [?|(s' & [->|?] & ?)]; [by left; left|by left; right|right; by exists s'].
Qed.

(** C9: a collection leaves below the roots exactly the shapes in use and the shapes on the way
    to them, and keeps the properties of every shape that is left. *)
Theorem shape_gc_exact held st used :
  shape_reachable held st → (∀ s, s ∈ used → s ∈ held) → unmarked st →
  ∃ b st', gc_cycle used st = Ok (b, st') ∧ consistent held st' ∧
    (∀ r o, Some r ∈ g_root_shapes st →
       below st' r o ↔ below st r o ∧ ∃ s, s ∈ used ∧ (o = s ∨ below st o s)) ∧
    survivors st st'.
Proof.
  intros Hr Hu Hun. destruct (reachable_consistent held st Hr) as [L T].
  enough (wp (gc_cycle used) st (λ _ st', consistent held st' ∧
    (∀ r o, Some r ∈ g_root_shapes st →
       below st' r o ↔ below st r o ∧ ∃ s, s ∈ used ∧ (o = s ∨ below st o s)) ∧
    survivors st st')) as Hwp.
  { destruct (wp_ok _ _ _ Hwp) as (b & st' & E & ?). by exists b, st'. }
  unfold gc_cycle, ant_gc_shapes_begin. step. set (st0 := set_gc_shape_epoch _ st).
  destruct (links_frame st st0 L) as [L0 Hsl0]; [done..|].
  assert (tree_ok held ∅ st0) as T0 by (eapply (tree_ok_refs held held ∅ ∅ st st0 T); try done; apply T).
  assert (∀ o, ¬ is_marked st0 o) as Hno by (intros o (sho & E & Hm); by apply (Hun o sho E)).
  assert (∀ a o, below st0 a o ↔ below st a o) as Hb0.
  { intros a o. split; apply below_kept; intros o' sho p E Hp; by exists sho. }
  eapply wp_call; [apply (mark_all_spec held used st0 L0 T0); [|done]|].
  { intros o sho p E _ Hm. exfalso. apply (Hno o). by exists sho. }
  intros _ st1 (L1 & T1 & Hr1 & Hcl1 & Hm1). pose proof Hr1 as ((Hro & _) & _).
  destruct (remarked_ok held st0 st1 L0 T0 Hr1) as (_ & _ & (_ & _ & Hk1) & _).
  eapply wp_mono; [apply (sweep_spec held st1 L1 T1)|]. intros _ st2 (L2 & T2 & (_ & (_ & _ & Hk2) & _) & Hex).
  split; [done|]. split.
  - intros r o Hrt. rewrite (Hex Hcl1 r o) by (by rewrite Hro). rewrite (below_remarked st0 st1 r o Hr1), Hb0, Hm1.
    setoid_rewrite Hb0. specialize (Hno o). tauto.
  - intros o Ho. destruct (Hk2 o Ho) as [Ho1 ->]. destruct (Hk1 o Ho1) as [Ho0 ->]. by rewrite Hsl0.
Qed.

(** C17: [js_obj_ensure_unique_shape] gives the object a shape that no other object has,
    with the same properties, and changes nothing for the others; if memory runs out the object
    keeps its shape. *)
Theorem shape_unique_correct held st s :
  shape_reachable held st → s ∈ held →
  ∃ n ok st', js_obj_ensure_unique_shape (Some s) st = Ok ((Some n, ok), st') ∧
    consistent ({[+ n +]} ⊎ held ∖ {[+ s +]}) st' ∧ slots st' n = slots st s ∧
    undisturbed (λ o, o ∈ held ∖ {[+ s +]}) st st' ∧
    if ok then n ∉ held ∖ {[+ s +]} else n = s ∧ refused.
Proof.
  intros Hr Hs. destruct (reachable_consistent held st Hr) as [L T].
  destruct (wp_ok _ _ _ (unique_spec held st s L T Hs)) as ([r ok] & st' & E & n & Er & Hcon & _ & Hsl & Hoth & Hok).
  simpl in Er, Hok. subst r. exists n, ok, st'. split; [done|]. split; [done|]. split; [done|]. split.
  - intros o Ho. destruct (decide (o = n)) as [->|Hne]; [|apply Hoth; [done|]; destruct Hcon as [_ T']; by apply (t_held _ _ _ T'), held_old].
    destruct ok; [|by destruct Hok as [-> _]]. exfalso. apply (proj1 (elem_of_multiplicity _ _)) in Ho.
    unfold replaced, gained in Hok. rewrite multiplicity_disj_union, multiplicity_singleton_eq in Hok. lia.
  - destruct ok; [|done]. rewrite elem_of_multiplicity. unfold replaced, gained in Hok.
    rewrite multiplicity_disj_union, multiplicity_singleton_eq in Hok. lia.
Qed.

End Theorems.

(** ** The theorems on a concrete store *)

Lemma calls_a_reachable : @shape_reachable ample (demo_held calls_a) (demo_store calls_a).
Proof. apply (run_reachable calls_a); vm_compute; reflexivity. Qed.

Lemma calls_a_careful : @carefully_reachable ample (demo_held calls_a) (demo_store calls_a).
Proof. apply (run_careful calls_a); vm_compute; reflexivity. Qed.

(** The property of shape 3, and the next one. *)
Definition prop_a : ant_shape_prop_t := mk_prop ANT_SHAPE_KEY_STRING name_a 7 0 0 0 0.

Definition prop_k : ant_shape_prop_t := mk_prop ANT_SHAPE_KEY_STRING name_k 5 0 0 0 0.

Lemma shapes_safe_witness :
  ∃ held' st', @perform ample (demo_held calls_a) (CloneBulk 3 10) (demo_store calls_a) = Ok (held', st').
Proof.
  refine (proj1 (@shapes_safe ample ample_bounded (demo_held calls_a) (demo_store calls_a) (CloneBulk 3 10)
    calls_a_reachable _ (demo_few calls_a _) _)).
  - apply (bool_decide_unpack _). vm_compute. reflexivity.
  - simpl. lia.
  - vm_compute. reflexivity.
Defined.

(** The object gets a shape of its own, number 7, and its property a getter and a setter. *)
Definition calls_accessor : list call :=
  calls_a ++ [Retain 3; Unique 3; Describe 7 0 (AccessorDesc 111 222 6)].

Definition accessor_a : ant_shape_prop_t := mk_prop ANT_SHAPE_KEY_STRING name_a 6 1 1 111 222.

Lemma calls_accessor_reachable : @shape_reachable ample (demo_held calls_accessor) (demo_store calls_accessor).
Proof. apply (run_reachable calls_accessor); vm_compute; reflexivity. Qed.

(** A reachable store with an accessor, which is cleared, and described again as a getter. *)
Lemma shape_props_correct_witness :
  slots (demo_store calls_accessor) 7%nat = Some [accessor_a] ∧
  lookup_slot (Some 7%nat) (shape_key ANT_SHAPE_KEY_STRING name_a) (demo_store calls_accessor)
    = Ok (0, demo_store calls_accessor) ∧
  @effect bool (@ant_shape_clear_accessor_slot ample (Some 7%nat) 0) (demo_store calls_accessor) 7%nat
    (λ r l', if r then is_Some (prop_of [accessor_a] 0) ∧ only_slot 0 accessor_cleared [accessor_a] l'
     else l' = Some [accessor_a] ∧ (prop_of [accessor_a] 0 = None ∨ @refused ample)) ∧
  @effect bool (@describe_slot ample 7%nat 0 (GetterDesc 333 2)) (demo_store calls_accessor) 7%nat
    (λ r l', if r then is_Some (prop_of [accessor_a] 0) ∧
       only_slot 0 (described (GetterDesc 333 2)) [accessor_a] l'
     else l' = Some [accessor_a] ∧ (prop_of [accessor_a] 0 = None ∨ @refused ample)).
Proof.
  assert (slots (demo_store calls_accessor) 7%nat = Some [accessor_a]) as E by (vm_compute; reflexivity).
  split; [exact E|].
  destruct (@shape_props_correct ample ample_bounded (demo_held calls_accessor) (demo_store calls_accessor) 7
    [accessor_a] calls_accessor_reachable) as (Hl & _ & _ & _ & Hc & Hd & _).
  - apply (bool_decide_unpack _). vm_compute. reflexivity.
  - exact E.
  - split; [apply (Hl ANT_SHAPE_KEY_STRING name_a); vm_compute; split; reflexivity|].
    split; [apply (Hc 0); lia|apply (Hd 0); lia].
Defined.

Lemma shape_transition_correct_witness :
  ∃ s' slot st', @shape_add_tr ample (Some 3%nat) ANT_SHAPE_KEY_STRING name_k 5 1024 (demo_store calls_a)
    = Ok ((Some s', Some slot), st') ∧ slots st' s' = Some [prop_a; prop_k] ∧ slot = 1.
Proof.
  destruct (@shape_transition_correct ample ample_bounded (demo_held calls_a) (demo_store calls_a) 3 [prop_a]
    ANT_SHAPE_KEY_STRING name_k 5 1024 calls_a_careful) as (s' & r & st' & E & _ & Hr).
  - apply demo_few. simpl. lia.
  - vm_compute. reflexivity.
  - apply (bool_decide_unpack _). vm_compute. reflexivity.
  - vm_compute. reflexivity.
  - vm_compute. repeat split; discriminate || reflexivity.
  - lia.
  - destruct r as [slot|].
    + destruct Hr as (H1 & H2 & _). exists s', slot, st'. split; [exact E|]. split; [exact H1|exact H2].
    + exfalso. revert E. vm_compute. discriminate.
Defined.

(** Shape 3 itself. *)
Definition shape_3 : ant_shape_t := default (new_shape 0 0 0 false) (shapes (demo_store calls_a) !! 3%nat).

Lemma shape_release_correct_witness :
  ∃ st', ant_shape_release (Some 3%nat) (demo_store calls_a) = Ok (tt, st') ∧ is_Some (shapes st' !! 3%nat).
Proof.
  destruct (@shape_release_correct ample ample_bounded (demo_held calls_a) (demo_store calls_a) 3
    shape_3 calls_a_reachable) as (st' & E & _ & Hgone & _ & _).
  - apply (bool_decide_unpack _). vm_compute. reflexivity.
  - vm_compute. reflexivity.
  - exists st'. split; [exact E|]. destruct (shapes st' !! 3%nat) as [x|]; [by exists x|].
    exfalso. pose proof (proj1 Hgone eq_refl) as Hx. revert Hx. vm_compute. discriminate.
Defined.

Lemma shape_gc_exact_witness :
  ∃ b st', gc_cycle [3%nat] (demo_store calls_a) = Ok (b, st') ∧ below st' 1 3.
Proof.
  destruct (@shape_gc_exact ample ample_bounded (demo_held calls_a) (demo_store calls_a) [3%nat]
    calls_a_reachable) as (b & st' & E & _ & Hex & _).
  - intros s Hs%list_elem_of_singleton. subst s. apply (bool_decide_unpack _). vm_compute. reflexivity.
  - apply map_Forall_lookup. apply (bool_decide_unpack _). vm_compute. reflexivity.
  - exists b, st'. split; [exact E|]. apply Hex.
    + apply (bool_decide_unpack _). vm_compute. reflexivity.
    + split; [|exists 3%nat; split; [left|by left]]. eapply below_child; vm_compute; reflexivity.
Defined.

Lemma shape_unique_correct_witness :
  ∃ n ok st', @js_obj_ensure_unique_shape ample (Some 3%nat) (demo_store calls_a) = Ok ((Some n, ok), st') ∧
    slots st' n = Some [prop_a].
Proof.
  destruct (@shape_unique_correct ample ample_bounded (demo_held calls_a) (demo_store calls_a) 3 calls_a_reachable)
    as (n & ok & st' & E & _ & Hsl & _).
  - apply (bool_decide_unpack _). vm_compute. reflexivity.
  - exists n, ok, st'. split; [exact E|]. rewrite Hsl. vm_compute. reflexivity.
Defined.

(** ** Where the code goes wrong *)

(** Shape 7, a copy of shape 3, gets a transition for k and then, in place, property j. *)
Definition calls_stale : list call :=
  calls_a ++ [Clone 3; Retain 7; AddTr 7 ANT_SHAPE_KEY_STRING name_k 7 SHAPE_TRANSITION_MAX_PROPS;
              AddTr 7 ANT_SHAPE_KEY_STRING name_j 7 SHAPE_TRANSITION_MAX_PROPS; Retain 7].

(** One property is added to shape 7 and removed again, [n] times. *)
Definition calls_churn (n : nat) : list call :=
  calls_a ++ Clone 3 :: concat (replicate n [AddKey 7 ANT_SHAPE_KEY_STRING name_k 7; RemoveSlot 7 1]).

Definition index_size (st : state) (s : sid) : option nat :=
  sh ← shapes st !! s; x ← descs st !! s_descriptors sh; Some (length (d_index_mem x)).

(** C39: two stores that the calls reach.  A shape that has left the tree keeps its transitions
    when it is changed in place: an object with properties a and j that adds k follows the
    transition that was recorded before j was there, moves to a shape with a and k, and has lost
    j.  The index counts a tombstone again when it is reused, and a new index is sized by that
    count: adding and removing one property 400 times leaves a shape with one property and an
    index of 512 entries; with none of it a copy has 8. *)
Theorem shape_wrong_turns :
  (∃ s s' slot st', @shape_reachable ample (demo_held calls_stale) (demo_store calls_stale) ∧
     s ∈ demo_held calls_stale ∧
     ant_shape_lookup_interned (Some s) name_j (demo_store calls_stale) = Ok (1, demo_store calls_stale) ∧
     @ant_shape_add_interned_tr ample (Some s) name_k 7 (demo_store calls_stale) = Ok ((Some s', Some slot), st') ∧
     ant_shape_lookup_interned (Some s') name_j st' = Ok (-1, st')) ∧
  @shape_reachable ample (demo_held (calls_churn 400)) (demo_store (calls_churn 400)) ∧
  slots (demo_store (calls_churn 400)) 7 = Some [prop_a] ∧
  index_size (demo_store (calls_churn 400)) 7 = Some 512%nat ∧ index_size (demo_store (calls_churn 0)) 7 = Some 8%nat.
Proof.
  split; [exists 7%nat, 11%nat, 1, (store_of (@ant_shape_add_interned_tr ample (Some 7%nat) name_k 7 (demo_store calls_stale)))|].
  - split; [apply (run_reachable calls_stale); vm_compute; reflexivity|].
    split; [apply (bool_decide_unpack _); vm_compute; reflexivity|]. split_and!; vm_compute; reflexivity.
  - split; [apply (run_reachable (calls_churn 400)); vm_compute; reflexivity|]. split_and!; vm_compute; reflexivity.
Qed.
