(* ===== verification/LexChars.v ===== *)
(** * The lexer: characters, tokens and keywords

    The tables of src/src/silver/lexer.c and src/include/tokens.h, [escape.h]'s character tests,
    and what the lexer asks of utf8proc.  A source text is the list of its bytes. *)

From stdpp Require Import base list strings.
From Stdlib Require Import Ascii.
From S2P Require Import Prelude Utils Utf8.

(** A character literal, as the number the C compiler makes of it. *)
Notation "'CH' c" :=
  (ltac:(let v := eval vm_compute in (Z.of_N (Ascii.N_of_ascii c%char)) in exact v))
  (at level 9, c at level 0, only parsing).

(** ** Tokens *)

Inductive token :=
  | TOK_ERR | TOK_EOF | TOK_NUMBER | TOK_STRING | TOK_SEMICOLON | TOK_BIGINT | TOK_LPAREN
  | TOK_RPAREN | TOK_LBRACE | TOK_RBRACE | TOK_LBRACKET | TOK_RBRACKET | TOK_IDENTIFIER
  | TOK_ASYNC | TOK_AWAIT | TOK_BREAK | TOK_CASE | TOK_CATCH | TOK_CLASS | TOK_CONST
  | TOK_CONTINUE | TOK_DEFAULT | TOK_DELETE | TOK_DO | TOK_DEBUGGER | TOK_ELSE | TOK_EXPORT
  | TOK_FINALLY | TOK_FOR | TOK_FROM | TOK_FUNC | TOK_IF | TOK_IMPORT | TOK_IN | TOK_INSTANCEOF
  | TOK_LET | TOK_NEW | TOK_OF | TOK_RETURN | TOK_SUPER | TOK_SWITCH | TOK_THIS | TOK_THROW
  | TOK_TRY | TOK_VAR | TOK_VOID | TOK_WHILE | TOK_WITH | TOK_YIELD | TOK_UNDEF | TOK_NULL
  | TOK_TRUE | TOK_FALSE | TOK_AS | TOK_STATIC | TOK_TYPEOF | TOK_USING | TOK_WINDOW
  | TOK_GLOBAL_THIS | TOK_DOT | TOK_CALL | TOK_BRACKET | TOK_POSTINC | TOK_POSTDEC | TOK_NOT
  | TOK_TILDA | TOK_UPLUS | TOK_UMINUS | TOK_EXP | TOK_MUL | TOK_DIV | TOK_REM
  | TOK_OPTIONAL_CHAIN | TOK_REST | TOK_PLUS | TOK_MINUS | TOK_SHL | TOK_SHR | TOK_ZSHR | TOK_LT
  | TOK_LE | TOK_GT | TOK_GE | TOK_EQ | TOK_NE | TOK_SEQ | TOK_SNE | TOK_AND | TOK_XOR | TOK_OR
  | TOK_LAND | TOK_LOR | TOK_NULLISH | TOK_COLON | TOK_Q | TOK_ASSIGN | TOK_PLUS_ASSIGN
  | TOK_MINUS_ASSIGN | TOK_MUL_ASSIGN | TOK_DIV_ASSIGN | TOK_REM_ASSIGN | TOK_SHL_ASSIGN
  | TOK_SHR_ASSIGN | TOK_ZSHR_ASSIGN | TOK_AND_ASSIGN | TOK_XOR_ASSIGN | TOK_OR_ASSIGN
  | TOK_EXP_ASSIGN | TOK_LOR_ASSIGN | TOK_LAND_ASSIGN | TOK_NULLISH_ASSIGN | TOK_COMMA
  | TOK_TEMPLATE | TOK_ARROW | TOK_HASH.

(** [TOK_ERR] is 0, which the code tests for. *)
Definition is_err (t : token) : bool := match t with TOK_ERR => true | _ => false end.

Definition is_identifier (t : token) : bool := match t with TOK_IDENTIFIER => true | _ => false end.

(** ** Character classes *)

Definition between (lo hi c : Z) : bool := (lo <=? c) && (c <=? hi).

Definition CHAR_DIGIT : Z := 0x01.

Definition CHAR_XDIGIT : Z := 0x02.

Definition CHAR_ALPHA : Z := 0x04.

Definition CHAR_IDENT : Z := 0x08.

Definition CHAR_IDENT1 : Z := 0x10.

Definition CHAR_WS : Z := 0x20.

Definition CHAR_OCTAL : Z := 0x40.

(** The table by its runs of equal entries; entries that are not set are 0. *)
Definition char_type (c : Z) : Z :=
  if (c =? 9) || (c =? 10) || (c =? 13) || (c =? CH " ") then CHAR_WS
  else if between (CH "0") (CH "7") c then CHAR_DIGIT |' CHAR_XDIGIT |' CHAR_IDENT |' CHAR_OCTAL
  else if between (CH "8") (CH "9") c then CHAR_DIGIT |' CHAR_XDIGIT |' CHAR_IDENT
  else if between (CH "A") (CH "F") c || between (CH "a") (CH "f") c
  then CHAR_XDIGIT |' CHAR_ALPHA |' CHAR_IDENT |' CHAR_IDENT1
  else if between (CH "G") (CH "Z") c || between (CH "g") (CH "z") c
  then CHAR_ALPHA |' CHAR_IDENT |' CHAR_IDENT1
  else if (c =? CH "_") || (c =? CH "$") then CHAR_IDENT |' CHAR_IDENT1
  else 0.

Definition has_class (class c : Z) : bool := negb (char_type c &' class =? 0).

Definition IS_DIGIT : Z → bool := has_class CHAR_DIGIT.

Definition IS_XDIGIT : Z → bool := has_class CHAR_XDIGIT.

Definition IS_IDENT1 : Z → bool := has_class CHAR_IDENT1.

Definition IS_OCTAL : Z → bool := has_class CHAR_OCTAL.

(** On bytes, where the guards of the functions hold. *)
Definition is_digit (c : Z) : bool := has_class CHAR_DIGIT c.

Definition is_ident_begin (c : Z) : bool :=
  if c <? 128 then has_class CHAR_IDENT1 c else negb (c &' 0x80 =? 0).

Definition is_ident_continue (c : Z) : bool :=
  if c <? 128 then has_class (CHAR_IDENT |' CHAR_IDENT1) c else negb (c &' 0x80 =? 0).

(** From src/include/escape.h. *)
Definition unhex (c : Z) : Z := u8 ((c &' 0xF) + (c >>' 6) * 9).

Definition is_xdigit (c : Z) : bool :=
  between (CH "0") (CH "9") c || between (CH "a") (CH "f") c || between (CH "A") (CH "F") c.

Definition single_char_tok (c : Z) : option token :=
  if c =? CH "(" then Some TOK_LPAREN
  else if c =? CH ")" then Some TOK_RPAREN
  else if c =? CH "{" then Some TOK_LBRACE
  else if c =? CH "}" then Some TOK_RBRACE
  else if c =? CH "[" then Some TOK_LBRACKET
  else if c =? CH "]" then Some TOK_RBRACKET
  else if c =? CH ";" then Some TOK_SEMICOLON
  else if c =? CH "," then Some TOK_COMMA
  else if c =? CH ":" then Some TOK_COLON
  else if c =? CH "~" then Some TOK_TILDA
  else if c =? CH "#" then Some TOK_HASH
  else None.

(** ** What utf8proc provides *)

(** The general categories the lexer asks for. *)
Inductive category := LU | LL | LT | LM | LO | NL | MN | MC | ND | PC | ZS | ZL | ZP | OtherCategory.

(** [utf8proc_iterate] reads a character from the bytes it is given, and
    [utf8proc_encode_char] does not ask whether a code point is a surrogate; it writes nothing
    for a number that is no code point. *)
Class Unicode := {
  unicode_utf8proc :: Utf8proc;
  utf8proc_category : Z → category;
  utf8proc_iterate_bounds s n cp : utf8proc_iterate s = Some (n, cp) → (1 ≤ n ≤ length s)%nat ∧ 0 <= cp;
  utf8proc_encode_codepoint cp : 0 <= cp < 0x110000 → utf8proc_encode_char cp = enc cp;
  utf8proc_encode_none cp : 0x110000 <= cp < 2 ^ 32 → utf8proc_encode_char cp = []
}.

Section Unicode.

Context `{Unicode}.

(** The length of the character at [p] and the character, [-1] when there is none. *)
Definition utf8_next (p : list Z) : nat * Z :=
  match utf8proc_iterate p with Some (n, cp) => (n, cp) | None => (1%nat, -1) end.

Definition utf8_encode (cp : Z) : list Z := utf8proc_encode_char cp.

(** The length of the space at [p], 0 when there is none, and whether it ends a line. *)
Definition is_unicode_space (p : list Z) : nat * bool :=
  if at_ p 0 <? 0x80 then (0%nat, false)
  else
    let '(n, cp) := utf8_next p in
    if cp <? 0 then (0%nat, false)
    else if cp =? 0xFEFF then (n, false)
    else match utf8proc_category cp with
         | ZS => (n, false)
         | ZL | ZP => (n, true)
         | _ => (0%nat, false)
         end.

Definition is_unicode_id_start (cp : Z) : bool :=
  if cp =? 0x2E2F then false
  else match utf8proc_category cp with LU | LL | LT | LM | LO | NL => true | _ => false end.

Definition is_unicode_id_continue (cp : Z) : bool :=
  if is_unicode_id_start cp then true
  else match utf8proc_category cp with
       | MN | MC | ND | PC => true
       | _ => (cp =? 0x200C) || (cp =? 0x200D)
       end.

Definition is_unicode_ident_begin (cp : Z) : bool :=
  if cp <? 128 then has_class CHAR_IDENT1 cp else is_unicode_id_start cp.

Definition is_unicode_ident_continue (cp : Z) : bool :=
  if cp <? 128 then has_class (CHAR_IDENT |' CHAR_IDENT1) cp else is_unicode_id_continue cp.

End Unicode.

(** ** Keywords *)

Definition is_eval_or_arguments_name (buf : list Z) : bool :=
  if at_ buf 0 =? CH "a" then bool_decide (buf = bytes "arguments")
  else if at_ buf 0 =? CH "e" then bool_decide (buf = bytes "eval")
  else false.

Definition is_strict_reserved_name (buf : list Z) : bool :=
  let M s := bool_decide (buf = bytes s) in
  let c := at_ buf 0 in
  if c =? CH "i" then M "interface" || M "implements"
  else if c =? CH "l" then M "let"
  else if c =? CH "p" then M "private" || M "package" || M "public" || M "protected"
  else if c =? CH "s" then M "static"
  else if c =? CH "y" then M "yield"
  else false.

(** The keywords of one case of the switch on the first character, in order. *)
Definition keyword_case (c : Z) : list (string * token) :=
  if c =? CH "a" then [("as", TOK_AS); ("async", TOK_ASYNC); ("await", TOK_AWAIT)]
  else if c =? CH "b" then [("break", TOK_BREAK)]
  else if c =? CH "c" then
    [("case", TOK_CASE); ("catch", TOK_CATCH); ("class", TOK_CLASS); ("const", TOK_CONST);
     ("continue", TOK_CONTINUE)]
  else if c =? CH "d" then
    [("do", TOK_DO); ("default", TOK_DEFAULT); ("delete", TOK_DELETE); ("debugger", TOK_DEBUGGER)]
  else if c =? CH "e" then [("else", TOK_ELSE); ("export", TOK_EXPORT)]
  else if c =? CH "f" then
    [("for", TOK_FOR); ("from", TOK_FROM); ("false", TOK_FALSE); ("finally", TOK_FINALLY);
     ("function", TOK_FUNC)]
  else if c =? CH "g" then [("globalThis", TOK_GLOBAL_THIS)]
  else if c =? CH "i" then
    [("if", TOK_IF); ("in", TOK_IN); ("import", TOK_IMPORT); ("instanceof", TOK_INSTANCEOF)]
  else if c =? CH "l" then [("let", TOK_LET)]
  else if c =? CH "n" then [("new", TOK_NEW); ("null", TOK_NULL)]
  else if c =? CH "o" then [("of", TOK_OF)]
  else if c =? CH "r" then [("return", TOK_RETURN)]
  else if c =? CH "s" then [("super", TOK_SUPER); ("static", TOK_STATIC); ("switch", TOK_SWITCH)]
  else if c =? CH "t" then
    [("try", TOK_TRY); ("this", TOK_THIS); ("true", TOK_TRUE); ("throw", TOK_THROW);
     ("typeof", TOK_TYPEOF)]
  else if c =? CH "u" then [("undefined", TOK_UNDEF); ("using", TOK_USING)]
  else if c =? CH "v" then [("var", TOK_VAR); ("void", TOK_VOID)]
  else if c =? CH "w" then [("while", TOK_WHILE); ("with", TOK_WITH); ("window", TOK_WINDOW)]
  else if c =? CH "y" then [("yield", TOK_YIELD)]
  else [].

(** The token of the first word of the list that is [buf]. *)
Fixpoint word_in (l : list (string * token)) (buf : list Z) : token :=
  match l with
  | [] => TOK_IDENTIFIER
  | (s, t) :: l => if bool_decide (buf = bytes s) then t else word_in l buf
  end.

Definition sv_parsekeyword (buf : list Z) : token := word_in (keyword_case (at_ buf 0)) buf.

(** ** A library that has this *)

Definition bounded_iterate (s : list Z) : option (nat * Z) :=
  r ← standard_iterate s;
  if (1 <=? r.1)%nat && (r.1 <=? length s)%nat && (0 <=? r.2) then Some r else None.

Lemma bounded_iterate_law cp rest : scalar cp → bounded_iterate (enc cp ++ rest) = Some (length (enc cp), cp).
Proof.
  intros Hs. unfold bounded_iterate. rewrite standard_iterate_enc by done. cbn [mbind option_bind fst snd]. pose proof (enc_length cp). rewrite length_app.
  rewrite (proj2 (Nat.leb_le 1 _)), (proj2 (Nat.leb_le _ (_ + _))), (proj2 (Z.leb_le 0 cp)); [done|unfold scalar in Hs; lia..].
Qed.

Lemma bounded_iterate_bounds s n cp : bounded_iterate s = Some (n, cp) → (1 ≤ n ≤ length s)%nat ∧ 0 <= cp.
Proof.
  unfold bounded_iterate. destruct (standard_iterate s) as [[m c]|]; [|done]. cbn [mbind option_bind fst snd].
  destruct (Nat.leb_spec 1 m), (Nat.leb_spec m (length s)), (Z.leb_spec 0 c); simpl; try done. intros [= -> ->]. lia.
Qed.

Lemma scalar_codepoint cp : scalar cp → 0 <= cp < 0x110000.
Proof. unfold scalar. lia. Qed.

Definition any_encode (cp : Z) : list Z := if cp <? 0x110000 then enc cp else [].

Lemma any_encode_codepoint cp : 0 <= cp < 0x110000 → any_encode cp = enc cp.
Proof. intros Hc. unfold any_encode. by rewrite (proj2 (Z.ltb_lt _ _)) by lia. Qed.

Lemma any_encode_none cp : 0x110000 <= cp < 2 ^ 32 → any_encode cp = [].
Proof. intros Hc. unfold any_encode. by rewrite (proj2 (Z.ltb_ge _ _)) by lia. Qed.

(** The spaces, the line and paragraph separators, and of the letters those of Latin-1. *)
Definition small_category (cp : Z) : category :=
  if (cp =? 0x20) || (cp =? 0xA0) || (cp =? 0x3000) then ZS
  else if cp =? 0x2028 then ZL
  else if cp =? 0x2029 then ZP
  else if between 0xC0 0xDE cp && negb (cp =? 0xD7) then LU
  else if between 0xDF 0xFF cp && negb (cp =? 0xF7) then LL
  else OtherCategory.

Definition standard_unicode : Unicode :=
  {| unicode_utf8proc :=
       {| utf8proc_encode_char := any_encode;
          utf8proc_encode_char_law cp Hs := any_encode_codepoint cp (scalar_codepoint cp Hs);
          utf8proc_iterate := bounded_iterate; utf8proc_iterate_law := bounded_iterate_law |};
     utf8proc_category := small_category;
     utf8proc_iterate_bounds := bounded_iterate_bounds;
     utf8proc_encode_codepoint := any_encode_codepoint;
     utf8proc_encode_none := any_encode_none |}.
