(* ===== verification/LexSkip.v ===== *)
(** * The lexer: white space and comments

    [sv_skiptonext] of src/src/silver/lexer.c, which takes the lexer from the end of a token to
    the start of the next.  A pointer into the text is the list of the bytes from there on, so
    [p < end] is that the list is not empty; the text before it is needed only by the test for
    [-->] at the start of a line.

    [skip1] says what one element of white space is, a space, an end of line, a comment of each
    kind; the theorem is that the code skips elements until none is left. *)

From stdpp Require Import base list strings relations.
From Stdlib Require Import Ascii.
From S2P Require Import Prelude Utils Utf8 LexChars.

(** ** The code *)

Inductive char_class := C_0 | C_SPC | C_NL | C_SL | C_HI.

(** [c & 0x80 ? C_HI : cc[c]]. *)
Definition class_of (c : Z) : char_class :=
  if negb (c &' 0x80 =? 0) then C_HI
  else if (c =? 9) || (c =? 11) || (c =? 12) || (c =? 13) || (c =? 32) then C_SPC
  else if c =? 10 then C_NL
  else if c =? CH "/" then C_SL
  else C_0.

(** [before] is the text before [p], the last byte first. *)
Fixpoint html_close_comment_at_line_start (before : list Z) : bool :=
  match before with
  | [] => true
  | c :: before =>
      if (c =? 10) || (c =? 13) then true
      else if negb ((c =? 32) || (c =? 9) || (c =? 12) || (c =? 11)) then false
      else html_close_comment_at_line_start before
  end.

(** To the end of the line, past the line feed; also whether there was one. *)
Fixpoint skip_html_line_comment (p : list Z) : list Z * bool :=
  match p with
  | [] => ([], false)
  | c :: p => if c =? 10 then (p, true) else skip_html_line_comment p
  end.

(** The loop over a block comment, [p] behind its opening. *)
Fixpoint skip_comment (p : list Z) (saw_nl : bool) : list Z * bool :=
  match p with
  | c :: (d :: r) as t =>
      if (c =? CH "*") && (d =? CH "/") then (r, saw_nl)
      else skip_comment t (saw_nl || (c =? 10))
  | _ => (p, saw_nl)
  end.

(** [s] starts with [w]. *)
Fixpoint starts_with (w s : list Z) : bool :=
  match w, s with
  | [], _ => true
  | x :: w, y :: s => (x =? y) && starts_with w s
  | _, [] => false
  end.

Section Skip.

Context `{Unicode}.

(** The label [L0]: [None] to stop, else where to go on and whether a line ended. *)
Definition skip_html (code p : list Z) : option (list Z * bool) :=
  if starts_with (bytes "<!--") p then Some (skip_html_line_comment (drop 4 p))
  else if starts_with (bytes "-->") p
       && html_close_comment_at_line_start (rev (take (length code - length p) code))
  then Some (skip_html_line_comment (drop 3 p))
  else None.

(** One jump through the table. *)
Definition skip_step (code p : list Z) : option (list Z * bool) :=
  match p with
  | [] => None
  | c :: r =>
      match class_of c with
      | C_SPC => Some (r, false)
      | C_NL => Some (r, true)
      | C_SL =>
          match r with
          | d :: r' =>
              if d =? CH "/" then Some (skip_html_line_comment r')
              else if d =? CH "*" then Some (skip_comment r' false)
              else skip_html code p
          | [] => skip_html code p
          end
      | C_HI =>
          let '(u, lt) := is_unicode_space p in
          if (0 <? u)%nat then Some (drop u p, lt) else skip_html code p
      | C_0 => skip_html code p
      end
  end.

Fixpoint skip_loop (rounds : nat) (code p : list Z) (saw_nl : bool) : list Z * bool :=
  match rounds with
  | O => (p, saw_nl)
  | S rounds =>
      match skip_step code p with
      | Some (p', nl) => skip_loop rounds code p' (saw_nl || nl)
      | None => (p, saw_nl)
      end
  end.

(** The offset of the next token from [n] on, and whether a line ended before it. *)
Definition sv_skiptonext (code : list Z) (n : nat) : nat * bool :=
  let p := drop n code in
  let '(p, nl) :=
    if (n =? 0)%nat && starts_with (bytes "#!") p then skip_html_line_comment (drop 2 p) else (p, false) in
  let '(p, nl) := skip_loop (S (length code)) code p nl in
  ((length code - length p)%nat, nl).

End Skip.

(** ** What is skipped *)

(** The rest of a line, what stands behind it, and whether a line feed ended it. *)
Inductive line_rest : list Z → bool → list Z → Prop :=
  | line_feed body s : 10 ∉ body → line_rest (body ++ 10 :: s) true s
  | line_last body : 10 ∉ body → line_rest body false [].

(** No end of a block comment in [body]. *)
Definition unclosed (body : list Z) : Prop := ∀ l r, body ≠ l ++ CH "*" :: CH "/" :: r.

Section Elements.

Context `{Unicode}.

(** [skip1 code s nl s']: an element of white space at the start of [s], with [s'] behind it; [nl] is
    whether it ends a line. *)
Inductive skip1 (code : list Z) : list Z → bool → list Z → Prop :=
  | skip_space c s : c ∈ [9; 11; 12; 13; 32] → skip1 code (c :: s) false s
  | skip_newline s : skip1 code (10 :: s) true s
  | skip_unicode c s n lt :
      128 <= c → is_unicode_space (c :: s) = (n, lt) → (0 < n)%nat →
      skip1 code (c :: s) lt (drop n (c :: s))
  | skip_line r nl s : line_rest r nl s → skip1 code (CH "/" :: CH "/" :: r) nl s
  | skip_html_open r nl s : line_rest r nl s → skip1 code (bytes "<!--" ++ r) nl s
  | skip_html_close r nl s :
      html_close_comment_at_line_start (rev (take (length code - length (bytes "-->" ++ r)) code)) = true →
      line_rest r nl s → skip1 code (bytes "-->" ++ r) nl s
  | skip_block body s :
      unclosed body →
      skip1 code (CH "/" :: CH "*" :: body ++ CH "*" :: CH "/" :: s) (bool_decide (10 ∈ body)) s
  | skip_unclosed body c :
      unclosed (body ++ [c]) → skip1 code (CH "/" :: CH "*" :: body ++ [c]) (bool_decide (10 ∈ body)) [c]
  | skip_unclosed_end : skip1 code [CH "/"; CH "*"] false [].

Inductive skips (code : list Z) : list Z → bool → list Z → Prop :=
  | skips_nil s : skips code s false s
  | skips_cons s nl s1 nl1 s2 : skip1 code s nl s1 → skips code s1 nl1 s2 → skips code s (nl || nl1) s2.

(** *** Each loop reads what its element says *)

Lemma skip_html_line_comment_spec p s nl : skip_html_line_comment p = (s, nl) ↔ line_rest p nl s.
Proof.
  split.
  - revert s nl. induction p as [|c p IH]; simpl; intros s nl.
    { intros [= <- <-]. apply (line_last []), not_elem_of_nil. }
    destruct (Z.eqb_spec c 10) as [->|Hc].
    + intros [= <- <-]. apply (line_feed []), not_elem_of_nil.
    + intros Hr. destruct (IH _ _ Hr) as [body s' Hb|body Hb].
      * apply (line_feed (c :: body)). rewrite not_elem_of_cons. auto.
      * apply (line_last (c :: body)). rewrite not_elem_of_cons. auto.
  - intros [body s' Hb|body Hb].
    + induction body as [|c body IH]; simpl; [done|]. apply not_elem_of_cons in Hb as [Hc Hb].
      destruct (Z.eqb_spec c 10); [by subst|auto].
    + induction body as [|c body IH]; simpl; [done|]. apply not_elem_of_cons in Hb as [Hc Hb].
      destruct (Z.eqb_spec c 10); [by subst|auto].
Qed.

Lemma starts_with_iff w s : starts_with w s = true ↔ ∃ r, s = w ++ r.
Proof.
  revert s. induction w as [|x w IH]; intros s; simpl; [split; eauto|].
  destruct s as [|y s]; [by split; [|intros [r [=]]]|].
  rewrite andb_true_iff, Z.eqb_eq, IH. split; [intros [-> [r ->]]; eauto|]. by intros [r [= -> ->]]; eauto.
Qed.

Lemma unclosed_cons c body : unclosed (c :: body) → unclosed body.
Proof. intros Hu l r ->. by apply (Hu (c :: l) r). Qed.

(** What the loop over a comment leaves. *)
Inductive comment_rest : list Z → bool → list Z → Prop :=
  | comment_closed body s :
      unclosed body → comment_rest (body ++ CH "*" :: CH "/" :: s) (bool_decide (10 ∈ body)) s
  | comment_open body c : unclosed (body ++ [c]) → comment_rest (body ++ [c]) (bool_decide (10 ∈ body)) [c]
  | comment_empty : comment_rest [] false [].

Lemma newline_cons c body : (c =? 10) || bool_decide (10 ∈ body) = bool_decide (10 ∈ c :: body).
Proof.
  apply eq_bool_prop_intro. rewrite orb_True, !bool_decide_spec, elem_of_cons. rewrite Is_true_true, Z.eqb_eq.
  split; (intros [?|?]; [by left|by right]).
Qed.

Lemma comment_rest_cons c p nl s :
  comment_rest p nl s → (∀ r, c :: p ≠ CH "*" :: CH "/" :: r) → p ≠ [] →
  comment_rest (c :: p) ((c =? 10) || nl) s.
Proof.
  assert (∀ body, (∀ r, c :: body ≠ CH "*" :: CH "/" :: r) → unclosed body → unclosed (c :: body)) as Hun.
  { intros body Hn Hu [|x l] r; simpl; [apply Hn|]. intros [= -> Hb]. by apply (Hu l r). }
  intros [body s' Hu|body d Hu|] Hn Hne; [| |done]; rewrite newline_cons.
  - apply (comment_closed (c :: body)), Hun; [|done]. intros r [= -> ->]. by apply (Hn (r ++ CH "*" :: CH "/" :: s')).
  - apply (comment_open (c :: body)). simpl. apply Hun; [|done]. intros r Hr. by apply (Hn r).
Qed.

Lemma skip_comment_spec p : ∀ acc s nl,
  skip_comment p acc = (s, nl) → ∃ nl', nl = acc || nl' ∧ comment_rest p nl' s.
Proof.
  induction p as [|c p IH]; intros acc s nl.
  { intros [= <- <-]. exists false. rewrite orb_false_r. split; [done|constructor]. }
  destruct p as [|d r].
  { intros [= <- <-]. exists false. rewrite orb_false_r. split; [done|]. apply (comment_open []).
    intros [|x [|y l]] r; discriminate. }
  change (skip_comment (c :: d :: r) acc) with (if (c =? CH "*") && (d =? CH "/") then (r, acc) else skip_comment (d :: r) (acc || (c =? 10))).
  destruct ((c =? CH "*") && (d =? CH "/")) eqn:E.
  - apply andb_true_iff in E as [->%Z.eqb_eq ->%Z.eqb_eq]. intros [= <- <-]. exists false. rewrite orb_false_r.
    split; [done|]. apply (comment_closed []). intros [|x l] r'; discriminate.
  - intros Hr. destruct (IH _ _ _ Hr) as (nl' & -> & Hc). exists ((c =? 10) || nl'). rewrite orb_assoc. split; [done|].
    apply comment_rest_cons; [done| |done]. intros r' [= -> -> _]. done.
Qed.

(** *** One step is one element *)

Lemma skip_html_sound code p s nl : skip_html code p = Some (s, nl) → skip1 code p nl s.
Proof.
  unfold skip_html. destruct (starts_with (bytes "<!--") p) eqn:E1.
  { apply starts_with_iff in E1 as [r ->]. intros [= Hr]. apply skip_html_open. by apply skip_html_line_comment_spec. }
  destruct (starts_with (bytes "-->") p) eqn:E2; [|done]. apply starts_with_iff in E2 as [r ->].
  destruct (html_close_comment_at_line_start _) eqn:E3; [|done]. intros [= Hr]. apply skip_html_close; [done|].
  by apply skip_html_line_comment_spec.
Qed.

(** The classes of a byte, as numbers. *)
Lemma class_of_cases c : byte_ok c →
  match class_of c with
  | C_SPC => c ∈ [9; 11; 12; 13; 32]
  | C_NL => c = 10
  | C_SL => c = CH "/"
  | C_HI => 128 <= c
  | C_0 => c < 128 ∧ (c ∉ [9; 11; 12; 13; 32]) ∧ c ≠ 10 ∧ c ≠ CH "/"
  end.
Proof.
  revert c. enough (∀ b, byte_ok b → (match class_of b with
    | C_SPC => bool_decide (b ∈ [9; 11; 12; 13; 32]) | C_NL => b =? 10 | C_SL => b =? CH "/" | C_HI => 128 <=? b
    | C_0 => (b <? 128) && bool_decide (b ∉ [9; 11; 12; 13; 32]) && negb (b =? 10) && negb (b =? CH "/") end) = true) as Hb.
  { intros c Hc. specialize (Hb c Hc). destruct (class_of c); [|by apply bool_decide_eq_true in Hb|lia..].
    rewrite !andb_true_iff, bool_decide_eq_true in Hb. destruct Hb as [[[? ?] ?] ?]. split_and!; [lia|done|lia|lia]. }
  apply byte_cases. vm_compute. reflexivity.
Qed.

Lemma skip_step_sound code p s nl :
  Forall byte_ok p → skip_step code p = Some (s, nl) → skip1 code p nl s.
Proof.
  intros Hp. destruct p as [|c r]; [done|]. apply Forall_cons in Hp as [Hc Hr]. cbn [skip_step].
  pose proof (class_of_cases c Hc) as Hcl. destruct (class_of c); try apply skip_html_sound.
  - intros [= <- <-]. by constructor.
  - intros [= <- <-]. subst c. constructor.
  - subst c. destruct r as [|d r]; [apply skip_html_sound|]. destruct (Z.eqb_spec d (CH "/")) as [->|].
    { intros [= E]. apply skip_line; by apply skip_html_line_comment_spec. }
    destruct (Z.eqb_spec d (CH "*")) as [->|]; [|apply skip_html_sound].
    intros [= E]. destruct (skip_comment_spec _ _ _ _ E) as (nl' & -> & [body s' Hu|body e Hu|]); simpl; by constructor.
  - destruct (is_unicode_space (c :: r)) as [u lt] eqn:E. destruct (Nat.ltb_spec 0 u); [|apply skip_html_sound].
    intros [= <- <-]. by apply skip_unicode.
Qed.

(** Where an element stands the code goes on. *)
Lemma skip_step_complete code p s nl : Forall byte_ok p → skip1 code p nl s → skip_step code p ≠ None.
Proof.
  intros Hp H1. revert Hp.
  destruct H1 as [c r Hin|r|c r n lt Hhi E Hn|r nl' s' _|r nl' s' _|r nl' s' Hl _|body s' _|body c _|]; intros Hp; try done.
  - apply Forall_cons in Hp as [Hc _]. cbn [skip_step]. pose proof (class_of_cases c Hc) as Hcl.
    assert (c < 128) by (set_unfold; lia).
    destruct (class_of c); [by destruct Hcl as (_ & ? & _)|done|done| |lia]. subst c. set_unfold. lia.
  - apply Forall_cons in Hp as [Hc _]. cbn [skip_step]. pose proof (class_of_cases c Hc) as Hcl.
    destruct (class_of c); try done; [lia|subst c; lia|]. rewrite E. by rewrite (proj2 (Nat.ltb_lt _ _) Hn).
  - change (skip_html code (bytes "-->" ++ r) ≠ None). unfold skip_html.
    replace (starts_with (bytes "<!--") (bytes "-->" ++ r)) with false by done.
    rewrite (proj2 (starts_with_iff _ _)) by eauto. by rewrite Hl.
Qed.

(** *** An element is not empty *)

Lemma line_rest_suffix r nl s : line_rest r nl s → ∃ k, (k ≤ length r)%nat ∧ s = drop k r.
Proof.
  intros [body s' _|body _].
  - exists (S (length body)). rewrite length_app. simpl. split; [lia|].
    replace (body ++ 10 :: s') with ((body ++ [10]) ++ s') by by rewrite <- app_assoc.
    by rewrite drop_app_length' by (rewrite length_app; simpl; lia).
  - exists (length body). split; [done|]. by rewrite drop_all.
Qed.

Lemma unicode_space_bound p n lt : is_unicode_space p = (n, lt) → (n ≤ length p)%nat.
Proof.
  unfold is_unicode_space. case_match; [intros [= <- _]; lia|]. unfold utf8_next.
  destruct (utf8proc_iterate p) as [[m cp]|] eqn:E; simpl; [|by intros [= <- _]; lia].
  apply utf8proc_iterate_bounds in E. repeat case_match; intros [= <- _]; lia.
Qed.

Lemma skip1_suffix code p nl s : skip1 code p nl s → ∃ k, (1 ≤ k ≤ length p)%nat ∧ s = drop k p.
Proof.
  assert (∀ w r nl' s', w ≠ [] → line_rest r nl' s' → ∃ k, (1 ≤ k ≤ length (w ++ r))%nat ∧ s' = drop k (w ++ r)) as Hl.
  { intros w r nl' s' Hw (k & Hk & ->)%line_rest_suffix. exists (length w + k)%nat. rewrite length_app.
    split; [destruct w; [done|simpl; lia]|]. by rewrite drop_app_add'. }
  intros [c r _|r|c r n lt _ E Hn|r nl' s' Hr|r nl' s' Hr|r nl' s' _ Hr|body s' _|body c _|].
  - exists 1%nat. simpl. split; [lia|done].
  - exists 1%nat. simpl. split; [lia|done].
  - exists n. split; [|done]. split; [lia|]. by eapply unicode_space_bound.
  - by apply (Hl [CH "/"; CH "/"] r nl' s').
  - by apply (Hl _ r nl' s').
  - by apply (Hl _ r nl' s').
  - exists (4 + length body)%nat. simpl. rewrite length_app. simpl. split; [lia|].
    replace (body ++ CH "*" :: CH "/" :: s') with ((body ++ [CH "*"; CH "/"]) ++ s') by by rewrite <- app_assoc.
    by rewrite drop_app_length' by (rewrite length_app; simpl; lia).
  - exists (2 + length body)%nat. simpl. rewrite length_app. split; [lia|]. by rewrite drop_app_length.
  - exists 2%nat. simpl. split; [lia|done].
Qed.

Lemma Forall_suffix code p nl s : Forall byte_ok p → skip1 code p nl s → Forall byte_ok s ∧ (length s < length p)%nat.
Proof. intros Hp (k & Hk & ->)%skip1_suffix. split; [by apply Forall_drop|]. rewrite length_drop. lia. Qed.

(** The loop ends where no element is left. *)
Lemma skip_loop_spec rounds : ∀ code p acc,
  Forall byte_ok p → (length p < rounds)%nat →
  ∃ s nl, skip_loop rounds code p acc = (s, acc || nl) ∧ skips code p nl s ∧ (∀ nl' s', ¬ skip1 code s nl' s').
Proof.
  induction rounds as [|rounds IH]; intros code p acc Hp Hr; [lia|]. cbn [skip_loop].
  destruct (skip_step code p) as [[p1 nl]|] eqn:E.
  - pose proof (skip_step_sound code p p1 nl Hp E) as H1. destruct (Forall_suffix _ _ _ _ Hp H1) as [Hp1 Hl].
    destruct (IH code p1 (acc || nl)) as (s & nl1 & -> & Hs & Hstop); [done|lia|].
    exists s, (nl || nl1). rewrite orb_assoc. split; [done|]. split; [by econstructor|done].
  - exists p, false. rewrite orb_false_r. split; [done|]. split; [constructor|].
    intros nl' s' H1. by apply (skip_step_complete code p s' nl' Hp H1).
Qed.

Lemma skips_suffix code p nl s : skips code p nl s → ∃ k, (k ≤ length p)%nat ∧ s = drop k p.
Proof.
  induction 1 as [s|s nl s1 nl1 s2 H1 _ (k & Hk & ->)]; [by exists 0%nat; split; [lia|]|].
  apply skip1_suffix in H1 as (j & Hj & ->). exists (j + k)%nat. rewrite length_drop in Hk. split; [lia|].
  by rewrite drop_drop.
Qed.

End Elements.
