(* ===== verification/LexScan.v ===== *)
(** * The lexer: the scanners

    The functions of src/src/silver/lexer.c that read one token each: identifiers, numbers,
    strings, templates and operators.  [buf] is the text from the token on, so [rem] is its
    length.  A scanner gives the fields of the lexer state it sets, a [scan]; [s_val] is [None]
    when [tval] is left alone.

    Numbers written in binary, octal or hexadecimal are accumulated in a double, one rounded
    operation after the other; [step_double] is that arithmetic on the integers such doubles
    are.  Decimal numerals go to [ant_number_parse] of src/src/numbers.cc, which hands them to
    the double-conversion library: the class [Numerals]. *)

From stdpp Require Import base list strings.
From Stdlib Require Import Ascii.
From S2P Require Import Prelude Utils Utf8 BigIntApi BigIntNumber LexChars LexSkip.

Record scan := mk_scan { s_tok : token; s_len : nat; s_val : option number }.

Class Numerals := ant_number_parse : list Z → option number.

(** ** Loops the scanners share *)

(** How many bytes at the start of [s] satisfy [f]. *)
Fixpoint count_while (f : Z → bool) (s : list Z) : nat :=
  match s with c :: s => if f c then S (count_while f s) else 0%nat | [] => 0%nat end.

(** [memchr]. *)
Fixpoint memchr (c : Z) (s : list Z) : option nat :=
  match s with
  | [] => None
  | x :: s => if x =? c then Some 0%nat else S <$> memchr c s
  end.

(** ** Identifiers *)

(** The digits of [\u{...}]: how many there are, and the number they make in 32 bits. *)
Fixpoint braced_digits (s : list Z) (cp : Z) (n : nat) : nat * Z :=
  match s with
  | c :: s =>
      if is_xdigit c
      then braced_digits s (u32 (cp <<' 4) |' (if c <=? CH "9" then c - CH "0" else (c |' 0x20) - CH "a" + 10)) (S n)
      else (n, cp)
  | [] => (n, cp)
  end.

Definition fixed_digits (s : list Z) : Z :=
  foldl (λ cp c, u32 (cp <<' 4) |' (if c <=? CH "9" then c - CH "0" else (c |' 0x20) - CH "a" + 10)) 0 s.

(** The length of the escape at [buf] and its code point. *)
Definition parse_unicode_escape (buf : list Z) : option (nat * Z) :=
  if (length buf <=? 3)%nat then None
  else if negb (starts_with (bytes "\u") buf) then None
  else if at_ buf 2 =? CH "{" then
    let '(ndigits, cp) := braced_digits (drop 3 buf) 0 0 in
    let i := (3 + ndigits)%nat in
    if (ndigits =? 0)%nat || (length buf <=? i)%nat || negb (at_ buf i =? CH "}") || (0x10FFFF <? cp) then None
    else Some ((i + 1)%nat, cp)
  else if (length buf <=? 5)%nat then None
  else
    let digits := take 4 (drop 2 buf) in
    if forallb is_xdigit digits then Some (6%nat, fixed_digits digits) else None.

Section Identifiers.

Context `{Unicode}.

(** Into a buffer of [dstlen] bytes; [dst] is what is written so far. *)
Fixpoint decode_ident_loop (rounds : nat) (src dst : list Z) (dstlen : nat) : list Z :=
  match rounds with
  | O => dst
  | S rounds =>
      match src with
      | c :: src' =>
          if (length dst + 4 <? dstlen)%nat then
            match parse_unicode_escape src with
            | Some (el, cp) => decode_ident_loop rounds (drop el src) (dst ++ utf8_encode cp) dstlen
            | None => decode_ident_loop rounds src' (dst ++ [c]) dstlen
            end
          else dst
      | [] => dst
      end
  end.

Definition decode_ident_escapes (src : list Z) (dstlen : nat) : list Z :=
  decode_ident_loop (length src) src [] dstlen.

(** The first loop of [parseident]: where it stops, and whether to go on with the second. *)
Fixpoint ident_fast (s : list Z) (i : nat) : nat * bool :=
  match s with
  | c :: s =>
      if (128 <=? c) || (c =? CH "\") then (i, true)
      else if negb (is_ident_continue c) then (i, false)
      else ident_fast s (S i)
  | [] => (i, false)
  end.

(** The second: where it stops, and whether there was an escape. *)
Fixpoint ident_slow (rounds : nat) (buf : list Z) (tlen : nat) (has_escapes : bool) : nat * bool :=
  match rounds with
  | O => (tlen, has_escapes)
  | S rounds =>
      match drop tlen buf with
      | [] => (tlen, has_escapes)
      | c :: _ =>
          if c =? CH "\" then
            match parse_unicode_escape (drop tlen buf) with
            | Some (el, cp) =>
                if is_unicode_ident_continue cp then ident_slow rounds buf (tlen + el) true
                else (tlen, has_escapes)
            | None => (tlen, has_escapes)
            end
          else if c <? 128 then
            if negb (is_ident_continue c) then (tlen, has_escapes)
            else ident_slow rounds buf (S tlen) has_escapes
          else
            let '(n, cp) := utf8_next (drop tlen buf) in
            if (cp <? 0) || negb (is_unicode_id_continue cp) then (tlen, has_escapes)
            else ident_slow rounds buf (tlen + n) has_escapes
      end
  end.

(** The label [slow_path_loop]. *)
Definition ident_rest (buf : list Z) (tlen : nat) : token * nat :=
  let '(tlen, has_escapes) := ident_slow (length buf) buf tlen (at_ buf 0 =? CH "\") in
  if has_escapes then
    let kw := sv_parsekeyword (decode_ident_escapes (take tlen buf) 256) in
    (if is_identifier kw then TOK_IDENTIFIER else TOK_ERR, tlen)
  else (sv_parsekeyword (take tlen buf), tlen).

(** The token and the length, which stays [tlen] when nothing is read. *)
Definition parseident (buf : list Z) (tlen : nat) : token * nat :=
  match buf with
  | [] => (TOK_ERR, tlen)
  | c :: rest =>
      if (c <? 128) && negb (c =? CH "\") && is_ident_begin c then
        let '(i, slow) := ident_fast rest 1 in
        if slow then ident_rest buf i else (sv_parsekeyword (take i buf), i)
      else if c =? CH "\" then
        match parse_unicode_escape buf with
        | Some (esc_len, first_cp) =>
            if is_unicode_ident_begin first_cp then ident_rest buf esc_len else (TOK_ERR, tlen)
        | None => (TOK_ERR, tlen)
        end
      else if 128 <=? c then
        let '(n, cp) := utf8_next buf in
        if (cp <? 0) || negb (is_unicode_id_start cp) then (TOK_ERR, tlen) else ident_rest buf n
      else (TOK_ERR, tlen)
  end.

End Identifiers.

(** ** Numbers *)

Definition is_decimal_literal_char (c : Z) : bool := IS_DIGIT c || (c =? CH "_").

Definition scan_decimal_literal (buf : list Z) : nat :=
  let n1 := count_while is_decimal_literal_char buf in
  let p := drop n1 buf in
  let n2 := match p with
            | c :: p' => if c =? CH "." then S (count_while is_decimal_literal_char p') else 0%nat
            | [] => 0%nat
            end in
  let p := drop n2 p in
  let n3 := match p with
            | c :: p' =>
                if c |' 0x20 =? CH "e" then
                  let sign := match p' with
                              | d :: _ => if (d =? CH "+") || (d =? CH "-") then 1%nat else 0%nat
                              | [] => 0%nat
                              end in
                  S (sign + count_while is_decimal_literal_char (drop sign p'))
                else 0%nat
            | [] => 0%nat
            end in
  (n1 + n2 + n3)%nat.

Definition copy_without_numeric_separators (s : list Z) : list Z := filter (λ c, c ≠ CH "_") s.

(** [.len], and [.value] when [.ok]. *)
Definition parse_decimal_literal `{Numerals, Heap} (buf : list Z) : nat * option number :=
  let toklen := scan_decimal_literal buf in
  let digits := take toklen buf in
  if existsb (Z.eqb (CH "_")) digits then
    if (128 <? toklen)%nat && negb (malloc (Z.of_nat toklen)) then (toklen, None)
    else (toklen, ant_number_parse (copy_without_numeric_separators digits))
  else (toklen, ant_number_parse digits).

(** [val * base + digit]. *)
Definition step_double (base : Z) (val : option Z) (digit : Z) : option Z :=
  x ← val; y ← round_double (x * base); round_double (y + digit).

Definition number_of_double (v : option Z) : number :=
  match v with Some z => Finite false z 0 | None => Infinite false end.

(** The loops over the digits from [buf[i]] on: the value and the length. *)
Definition parse_digits (base : Z) (is_char : Z → bool) (digit : Z → Z) (i : nat) (buf : list Z) : nat * number :=
  let n := count_while is_char (drop i buf) in
  let digits := filter (λ c, c ≠ CH "_") (take n (drop i buf)) in
  ((i + n)%nat, number_of_double (foldl (λ v c, step_double base v (digit c)) (Some 0) digits)).

Definition parse_binary : list Z → nat * number :=
  parse_digits 2 (λ c, (c =? CH "0") || (c =? CH "1") || (c =? CH "_")) (λ c, c - CH "0") 2.

Definition parse_octal : list Z → nat * number :=
  parse_digits 8 (λ c, IS_OCTAL c || (c =? CH "_")) (λ c, c - CH "0") 2.

Definition parse_legacy_octal : list Z → nat * number := parse_digits 8 IS_OCTAL (λ c, c - CH "0") 1.

Definition parse_hex : list Z → nat * number :=
  parse_digits 16 (λ c, IS_XDIGIT c || (c =? CH "_"))
    (λ c, if CH "a" <=? c then c - CH "a" + 10 else if CH "A" <=? c then c - CH "A" + 10 else c - CH "0") 2.

Definition number_literal_has_invalid_tail (buf : list Z) (toklen : nat) : bool :=
  (toklen <? length buf)%nat && is_ident_continue (at_ buf toklen).

Section Numbers.

Context `{Numerals, Heap}.

(** The literal by its prefix; the scan to return at once when it is refused. *)
Definition number_value (strict : bool) (buf : list Z) : scan + nat * number :=
  let decimal :=
    match parse_decimal_literal buf with
    | (len, Some v) => inr (len, v)
    | (len, None) => inl (mk_scan TOK_ERR len None)
    end in
  if (at_ buf 0 =? CH "0") && (1 <? length buf)%nat then
    let c1 := at_ buf 1 |' 0x20 in
    if c1 =? CH "b" then inr (parse_binary buf)
    else if c1 =? CH "o" then inr (parse_octal buf)
    else if c1 =? CH "x" then inr (parse_hex buf)
    else if IS_OCTAL (at_ buf 1) then
      if strict then inl (mk_scan TOK_ERR 1 None) else inr (parse_legacy_octal buf)
    else if is_digit (at_ buf 1) && strict then inl (mk_scan TOK_ERR 1 None)
    else decimal
  else decimal.

Definition parse_number (strict : bool) (buf : list Z) : scan :=
  match number_value strict buf with
  | inl s => s
  | inr (numlen, value) =>
      let '(tok, toklen) :=
        if (numlen <? length buf)%nat && (at_ buf numlen =? CH "n") then (TOK_BIGINT, S numlen)
        else (TOK_NUMBER, numlen) in
      if number_literal_has_invalid_tail buf toklen then mk_scan TOK_ERR toklen (Some value)
      else mk_scan tok toklen (Some value)
  end.

End Numbers.

(** ** Strings *)

(** How far the escape at [buf[esc_pos]] reaches. *)
Definition escape_skip (buf : list Z) (esc_pos : nat) : nat :=
  let esc_char := at_ buf (esc_pos + 1) in
  if esc_char =? CH "x" then 4%nat
  else if esc_char =? CH "u" then
    if (esc_pos + 2 <? length buf)%nat && (at_ buf (esc_pos + 2) =? CH "{") then
      let j := (esc_pos + 3 + count_while (λ c, negb (c =? CH "}")%Z) (drop (esc_pos + 3) buf))%nat in
      if (j <? length buf)%nat then (j - esc_pos + 1)%nat else (length buf - esc_pos)%nat
    else 6%nat
  else 2%nat.

(** Where the string ends, behind its closing quote. *)
Fixpoint string_loop (rounds : nat) (buf : list Z) (i : nat) (quote : Z) : option nat :=
  match rounds with
  | O => None
  | S rounds =>
      if (i <? length buf)%nat then
        let p := drop i buf in
        match memchr quote p, memchr (CH "\") p with
        | None, _ => None
        | Some q, None => Some (i + q + 1)%nat
        | Some q, Some b =>
            if (q <? b)%nat then Some (i + q + 1)%nat
            else
              let esc_pos := (i + b)%nat in
              if (length buf <=? esc_pos + 1)%nat then None
              else
                let skip := escape_skip buf esc_pos in
                if (length buf <? esc_pos + skip)%nat then None
                else string_loop rounds buf (esc_pos + skip) quote
        end
      else None
  end.

Definition scan_string (buf : list Z) (quote : Z) : scan :=
  match string_loop (length buf) buf 1 quote with
  | Some tlen => mk_scan TOK_STRING tlen None
  | None => mk_scan TOK_ERR (length buf) None
  end.

(** ** Templates

    These give the text behind what they skip. *)

Fixpoint skip_string_literal (s : list Z) (quote : Z) : list Z :=
  match s with
  | [] => []
  | c :: s' =>
      if c =? CH "\" then match s' with _ :: s'' => skip_string_literal s'' quote | [] => [] end
      else if c =? quote then s'
      else skip_string_literal s' quote
  end.

Definition skip_line_comment (s : list Z) : list Z := drop (count_while (λ c, negb (c =? 10)) s) s.

Fixpoint skip_block_comment (s : list Z) : list Z :=
  match s with
  | c :: (d :: r) as t => if (c =? CH "*") && (d =? CH "/") then r else skip_block_comment t
  | _ => []
  end.

Definition is_expr_ws (c : Z) : bool :=
  (c =? 32) || (c =? 9) || (c =? 10) || (c =? 13) || (c =? 12) || (c =? 11).

Definition is_ident_ascii_start (c : Z) : bool :=
  (c =? CH "_") || (c =? CH "$") || between (CH "a") (CH "z") c || between (CH "A") (CH "Z") c.

Definition is_ident_ascii_continue (c : Z) : bool := is_ident_ascii_start c || between (CH "0") (CH "9") c.

(** The first loop of [skip_regex_literal]. *)
Fixpoint regex_body (s : list Z) (in_class : bool) : list Z :=
  match s with
  | [] => []
  | c :: s' =>
      match s' with
      | _ :: s'' =>
          if c =? CH "\" then regex_body s'' in_class
          else if c =? CH "[" then regex_body s' true
          else if (c =? CH "]") && in_class then regex_body s' false
          else if (c =? CH "/") && negb in_class then s'
          else regex_body s' in_class
      | [] => []
      end
  end.

Definition skip_regex_literal (s : list Z) : list Z :=
  let p := regex_body s false in drop (count_while is_ident_ascii_start p) p.

Definition regex_allowed_after_ident (word : list Z) : bool :=
  existsb (λ s, bool_decide (word = bytes s))
    ["if"; "in"; "do"; "of"; "for"; "else"; "case"; "throw"; "return"; "typeof"; "delete"; "void";
     "new"; "instanceof"].

(** After which a slash starts a regular expression. *)
Definition starts_operand (c : Z) : bool :=
  existsb (Z.eqb c) (bytes "([,;:?!~+-*%&|^=<>").

Definition is_digit_char (c : Z) : bool := between (CH "0") (CH "9") c.

(** What one round does: the template ends and [rest] is behind it, the loop goes on at a place
    and in a state, or another template starts. *)
Inductive template_next :=
  | Closed (rest : list Z)
  | GoOn (s : list Z) (expr_depth : Z) (can_start_regex : bool)
  | Nested.

Definition template_step (c : Z) (s : list Z) (expr_depth : Z) (can_start_regex : bool) : template_next :=
  if c =? CH "\" then GoOn (drop 1 s) expr_depth can_start_regex
  else if expr_depth =? 0 then
    if c =? CH "`" then Closed s
    else if (c =? CH "$") && starts_with [CH "{"] s then GoOn (drop 1 s) 1 true
    else GoOn s expr_depth can_start_regex
  else if (c =? 39) || (c =? 34) then GoOn (skip_string_literal s c) expr_depth can_start_regex
  else if c =? CH "`" then Nested
  else if (c =? CH "/") && (0 <? length s)%nat then
    if starts_with [CH "/"] s then GoOn (skip_line_comment (drop 1 s)) expr_depth can_start_regex
    else if starts_with [CH "*"] s then GoOn (skip_block_comment (drop 1 s)) expr_depth can_start_regex
    else if can_start_regex then GoOn (skip_regex_literal s) expr_depth false
    else GoOn s expr_depth true
  else if is_expr_ws c then GoOn s expr_depth can_start_regex
  else if is_ident_ascii_start c then
    let n := count_while is_ident_ascii_continue s in
    GoOn (drop n s) expr_depth (regex_allowed_after_ident (c :: take n s))
  else if is_digit_char c || ((c =? CH ".") && match s with d :: _ => is_digit_char d | [] => false end) then
    GoOn (drop (count_while (λ d, is_digit_char d || (d =? CH "_") || (d =? CH ".")) s) s) expr_depth false
  else if c =? CH "{" then GoOn s (expr_depth + 1) true
  else if c =? CH "}" then GoOn s (expr_depth - 1) false
  else GoOn s expr_depth (starts_operand c).

(** From behind the opening backtick, or from inside [expr_depth] braces; [None] when the text
    ends first. *)
Fixpoint skip_template_literal (rounds : nat) (s : list Z) (expr_depth : Z) (can_start_regex : bool)
    : option (list Z) :=
  match rounds, s with
  | S rounds, c :: s' =>
      match template_step c s' expr_depth can_start_regex with
      | Closed rest => Some rest
      | GoOn s d b => skip_template_literal rounds s d b
      | Nested =>
          match skip_template_literal rounds s' 0 true with
          | None => None
          | Some next => skip_template_literal rounds next expr_depth false
          end
      end
  | _, _ => None
  end.

Definition scan_template (buf : list Z) : scan :=
  match skip_template_literal (length buf) (drop 1 buf) 0 true with
  | Some rest =>
      let end_ := (length buf - length rest)%nat in
      if (end_ <=? 1)%nat || (length buf <? end_)%nat then mk_scan TOK_ERR (length buf) None
      else mk_scan TOK_TEMPLATE end_ None
  | None => mk_scan TOK_ERR (length buf) None
  end.

(** ** Operators *)

(** The tests of one case of the switch, in order. *)
Definition operator_case (c : Z) : list (string * token) :=
  if c =? CH "!" then [("!==", TOK_SNE); ("!=", TOK_NE); ("!", TOK_NOT)]
  else if c =? CH "=" then [("===", TOK_SEQ); ("==", TOK_EQ); ("=>", TOK_ARROW); ("=", TOK_ASSIGN)]
  else if c =? CH "<" then [("<<=", TOK_SHL_ASSIGN); ("<<", TOK_SHL); ("<=", TOK_LE); ("<", TOK_LT)]
  else if c =? CH ">" then
    [(">>>=", TOK_ZSHR_ASSIGN); (">>>", TOK_ZSHR); (">>=", TOK_SHR_ASSIGN); (">>", TOK_SHR); (">=", TOK_GE);
     (">", TOK_GT)]
  else if c =? CH "&" then [("&&=", TOK_LAND_ASSIGN); ("&&", TOK_LAND); ("&=", TOK_AND_ASSIGN); ("&", TOK_AND)]
  else if c =? CH "|" then [("||=", TOK_LOR_ASSIGN); ("||", TOK_LOR); ("|=", TOK_OR_ASSIGN); ("|", TOK_OR)]
  else if c =? CH "+" then [("++", TOK_POSTINC); ("+=", TOK_PLUS_ASSIGN); ("+", TOK_PLUS)]
  else if c =? CH "-" then [("--", TOK_POSTDEC); ("-=", TOK_MINUS_ASSIGN); ("-", TOK_MINUS)]
  else if c =? CH "*" then [("**=", TOK_EXP_ASSIGN); ("**", TOK_EXP); ("*=", TOK_MUL_ASSIGN); ("*", TOK_MUL)]
  else if c =? CH "/" then [("/=", TOK_DIV_ASSIGN); ("/", TOK_DIV)]
  else if c =? CH "%" then [("%=", TOK_REM_ASSIGN); ("%", TOK_REM)]
  else if c =? CH "^" then [("^=", TOK_XOR_ASSIGN); ("^", TOK_XOR)]
  else [].

Fixpoint first_prefix (l : list (string * token)) (buf : list Z) : option (token * nat) :=
  match l with
  | [] => None
  | (s, t) :: l => if starts_with (bytes s) buf then Some (t, length (bytes s)) else first_prefix l buf
  end.

(** [None]: the default case, which sets nothing. *)
Definition parse_operator `{Numerals, Heap} (buf : list Z) : option scan :=
  let c := at_ buf 0 in
  if c =? CH "?" then
    Some (if starts_with (bytes "??=") buf then mk_scan TOK_NULLISH_ASSIGN 3 None
          else if starts_with (bytes "??") buf then mk_scan TOK_NULLISH 2 None
          else if starts_with (bytes "?.") buf && ((length buf <? 3)%nat || negb (is_digit (at_ buf 2)))
          then mk_scan TOK_OPTIONAL_CHAIN 2 None
          else mk_scan TOK_Q 1 None)
  else if c =? CH "." then
    Some (if starts_with (bytes "...") buf then mk_scan TOK_REST 3 None
          else if (1 <? length buf)%nat && IS_DIGIT (at_ buf 1) then
            match parse_decimal_literal buf with
            | (len, Some value) =>
                if number_literal_has_invalid_tail buf len then mk_scan TOK_ERR len None
                else mk_scan TOK_NUMBER len (Some value)
            | (len, None) => mk_scan TOK_ERR len None
            end
          else mk_scan TOK_DOT 1 None)
  else (λ '(t, n), mk_scan t n None) <$> first_prefix (operator_case c) buf.
