(* ===== verification/LexLiteral.v ===== *)
(** * The lexer: string literals

    [decode_escape] of src/src/escape.c with its helpers, and [sv_lexer_str_literal] of
    src/src/silver/lexer.c.  [in_] is the text of the token with its quotes, so that a read
    past the token is [Ub]; the text written is a list of at most as many bytes as the buffer
    has, and a write past it is [Ub]. *)

From stdpp Require Import base list strings.
From Stdlib Require Import Ascii.
From S2P Require Import Prelude Utils Utf8 BigIntApi BigIntNumber LexChars LexSkip LexScan.

(** Whether the parser's arena grants [n] bytes. *)
Class Arena := parse_arena_bump : Z → bool.

(** [in_[i]]. *)
Definition rd (in_ : list Z) (i : nat) : outcome Z :=
  match in_ !! i with Some c => Ok c | None => Ub end.

(** Bytes written at the end of a buffer of [cap] bytes. *)
Definition put (cap : nat) (out bs : list Z) : outcome (list Z) :=
  if (length out + length bs <=? cap)%nat then Ok (out ++ bs) else Ub.

Definition is_octal_digit (c : Z) : bool := between (CH "0") (CH "7") c.

Definition is_octal_escape (in_ : list Z) (pos : nat) : outcome bool :=
  c ← rd in_ (pos + 1);
  if is_octal_digit c then
    if c =? CH "0" then d ← rd in_ (pos + 2); Ok (is_octal_digit d) else Ok true
  else Ok false.

(** All of the bytes from [i] on satisfy [is_xdigit], tested from left to right up to the first
    that does not. *)
Fixpoint all_xdigits (in_ : list Z) (i : nat) (n : nat) : outcome bool :=
  match n with
  | O => Ok true
  | S n => c ← rd in_ i; if is_xdigit c then all_xdigits in_ (S i) n else Ok false
  end.

(** The same, if they stand before [end_]. *)
Definition xdigits_before (in_ : list Z) (i n end_ : nat) : outcome bool :=
  if (i + n <=? end_)%nat then all_xdigits in_ i n else Ok false.

(** The number that [n] hexadecimal digits from [i] on make. *)
Fixpoint hex_value (in_ : list Z) (i n : nat) (acc : Z) : outcome Z :=
  match n with
  | O => Ok acc
  | S n => c ← rd in_ i; hex_value in_ (S i) n ((acc <<' 4) |' unhex c)
  end.

Section Escapes.

Context `{Unicode}.

(** These give how far the escape reaches behind its first two bytes, and the text with what
    it stands for. *)
Definition decode_hex_escape (in_ : list Z) (pos cap : nat) (out : list Z) : outcome (nat * list Z) :=
  cp ← hex_value in_ (pos + 2) 2 0;
  out ← put cap out (utf8_encode cp);
  Ok (2%nat, out).

(** The value of one to three octal digits from [pos + 1] on, and how many follow the first. *)
Definition octal_value (in_ : list Z) (pos : nat) : outcome (Z * nat) :=
  c ← rd in_ (pos + 1);
  let val := c - CH "0" in
  d ← rd in_ (pos + 2);
  if is_octal_digit d then
    let val := val * 8 + (d - CH "0") in
    e ← rd in_ (pos + 3);
    if is_octal_digit e && (val * 8 + (e - CH "0") <=? 255)
    then Ok (val * 8 + (e - CH "0"), 2%nat) else Ok (val, 1%nat)
  else Ok (val, 0%nat).

Definition decode_octal_escape (in_ : list Z) (pos cap : nat) (out : list Z) : outcome (nat * list Z) :=
  r ← octal_value in_ pos;
  out ← put cap out (utf8_encode r.1);
  Ok (r.2, out).

(** The loop over the digits of [\u{...}], from [i] on: where it stops, and the number. *)
Fixpoint braced_loop (rounds : nat) (in_ : list Z) (i end_ : nat) (cp : Z) : outcome (nat * Z) :=
  match rounds with
  | O => Ok (i, cp)
  | S rounds =>
      if (i <? end_)%nat then
        c ← rd in_ i;
        if is_xdigit c then braced_loop rounds in_ (S i) end_ (u32 (cp <<' 4) |' unhex c) else Ok (i, cp)
      else Ok (i, cp)
  end.

(** [i < end && in_[i] == c]. *)
Definition byte_is (in_ : list Z) (i end_ : nat) (c : Z) : outcome bool :=
  if (i <? end_)%nat then d ← rd in_ i; Ok (d =? c) else Ok false.

Definition decode_unicode_braced (in_ : list Z) (pos end_ cap : nat) (out : list Z) : outcome (nat * list Z) :=
  r ← braced_loop (end_ - (pos + 3)) in_ (pos + 3) end_ 0;
  let '(i, cp) := r in
  closed ← byte_is in_ i end_ (CH "}");
  if (closed : bool) then out ← put cap out (utf8_encode cp); Ok ((i - pos - 1)%nat, out)
  else out ← put cap out [CH "u"]; Ok (0%nat, out).

(** Whether an escape of four digits stands at [pos]. *)
Definition unicode_escape_at (in_ : list Z) (pos : nat) : outcome bool :=
  a ← rd in_ pos;
  if negb (a =? CH "\") then Ok false
  else
    b ← rd in_ (pos + 1);
    if negb (b =? CH "u") then Ok false else all_xdigits in_ (pos + 2) 4.

(** The low half that stands behind a high half, if both are there. *)
Definition low_half_at (in_ : list Z) (pos end_ : nat) (cp : Z) : outcome (option Z) :=
  if between 0xD800 0xDBFF cp && (pos + 11 <? end_)%nat then
    second ← unicode_escape_at in_ (pos + 6);
    if (second : bool) then
      lo ← hex_value in_ (pos + 8) 4 0;
      Ok (if between 0xDC00 0xDFFF lo then Some lo else None)
    else Ok None
  else Ok None.

Definition decode_unicode_fixed (in_ : list Z) (pos end_ cap : nat) (out : list Z) : outcome (nat * list Z) :=
  cp ← hex_value in_ (pos + 2) 4 0;
  low ← low_half_at in_ pos end_ cp;
  match low with
  | Some lo => out ← put cap out (utf8_encode (0x10000 + ((cp - 0xD800) <<' 10) + (lo - 0xDC00))); Ok (10%nat, out)
  | None => out ← put cap out (utf8_encode cp); Ok (4%nat, out)
  end.

(** The cases of the switch that stand for one character. *)
Definition simple_escape (c : Z) : option Z :=
  if c =? CH "n" then Some 10
  else if c =? CH "t" then Some 9
  else if c =? CH "r" then Some 13
  else if c =? CH "v" then Some 11
  else if c =? CH "f" then Some 12
  else if c =? CH "b" then Some 8
  else if c =? CH "\" then Some (CH "\")
  else None.

Definition decode_escape (in_ : list Z) (pos end_ cap : nat) (out : list Z) (quote : Z) : outcome (nat * list Z) :=
  c ← rd in_ (pos + 1);
  let one b := out ← put cap out [b]; Ok (0%nat, out) in
  match simple_escape c with
  | Some b => one b
  | None =>
      if is_octal_digit c then
        octal ← is_octal_escape in_ pos;
        if (octal : bool) then decode_octal_escape in_ pos cap out else one 0
      else if c =? CH "x" then
        hex ← xdigits_before in_ (pos + 2) 2 end_;
        if (hex : bool) then decode_hex_escape in_ pos cap out else one c
      else if c =? CH "u" then
        braced ← byte_is in_ (pos + 2) end_ (CH "{");
        if (braced : bool) then decode_unicode_braced in_ pos end_ cap out
        else
          fixed ← xdigits_before in_ (pos + 2) 4 end_;
          if (fixed : bool) then decode_unicode_fixed in_ pos end_ cap out else one c
      else one (if c =? quote then quote else c)
  end.

(** The loop of [sv_lexer_str_literal]; [n2] is the index before it is counted up. *)
Fixpoint literal_loop (rounds : nat) (strict : bool) (in_ : list Z) (n2 : nat) (out : list Z) : outcome (list Z) :=
  let tlen := length in_ in
  match rounds with
  | O => Ub
  | S rounds =>
      if (n2 + 2 <? tlen)%nat then
        let n2 := S n2 in
        c ← rd in_ n2;
        if c =? CH "\" then
          octal ← (if strict then is_octal_escape in_ n2 else Ok false);
          if (octal : bool) then js_mkerr_typed JS_ERR_SYNTAX "Octal escape sequences are not allowed in strict mode."
          else
            quote ← rd in_ 0;
            r ← decode_escape in_ n2 tlen tlen out quote;
            literal_loop rounds strict in_ (n2 + r.1 + 1) r.2
        else
          out ← put tlen out [c];
          literal_loop rounds strict in_ n2 out
      else Ok out
  end.

Definition sv_lexer_str_literal `{Arena} (strict : bool) (in_ : list Z) : outcome (list Z) :=
  let cap := length in_ in
  if (cap =? 0)%nat then Ok []
  else if negb (parse_arena_bump (Z.of_nat cap)) then js_mkerr "oom"
  else literal_loop (S cap) strict in_ 0 [].

End Escapes.
