(* ===== verification/Lexer.v ===== *)
(** * The lexer

    The state of src/src/silver/lexer.c and src/include/silver/lexer.h and the operations the
    parser calls.  A lexer has a buffer, of which it reads the first [clen] bytes, and the state
    of the current token: where it starts, its length, its value if it is a number, whether the
    parser has taken it, and whether a line ended before it. *)

From stdpp Require Import base list strings.
From Stdlib Require Import Ascii.
From S2P Require Import Prelude Utils Utf8 BigIntApi LexChars LexSkip LexScan.

Record sv_lexer_state_t := mk_lex_state {
  pos : nat;
  toff : nat;
  tlen : nat;
  tval : option number;
  tok : token;
  consumed : bool;
  had_newline : bool
}.

Record sv_lexer_t := mk_lexer { code : list Z; clen : nat; strict : bool; st : sv_lexer_state_t }.

Record sv_lexer_checkpoint_t := mk_checkpoint {
  cp_code : list Z;
  cp_clen : nat;
  cp_strict : bool;
  cp_st : sv_lexer_state_t
}.

(** The text the lexer reads. *)
Definition text (lx : sv_lexer_t) : list Z := take (clen lx) (code lx).

Definition set_st (lx : sv_lexer_t) (s : sv_lexer_state_t) : sv_lexer_t :=
  mk_lexer (code lx) (clen lx) (strict lx) s.

Definition sv_lexer_init (code : list Z) (clen : nat) (strict : bool) : sv_lexer_t :=
  mk_lexer code clen strict (mk_lex_state 0 0 0 None TOK_ERR true false).

Definition sv_lexer_save_state (lx : sv_lexer_t) : sv_lexer_state_t := st lx.

Definition sv_lexer_restore_state (lx : sv_lexer_t) (s : sv_lexer_state_t) : sv_lexer_t := set_st lx s.

Definition sv_lexer_push_source (lx : sv_lexer_t) (code' : list Z) (start end_ : nat)
    : sv_lexer_t * sv_lexer_checkpoint_t :=
  (mk_lexer code' end_ (strict lx) (mk_lex_state start start 0 None TOK_ERR true false),
   mk_checkpoint (code lx) (clen lx) (strict lx) (st lx)).

Definition sv_lexer_pop_source (cp : sv_lexer_checkpoint_t) : sv_lexer_t :=
  mk_lexer (cp_code cp) (cp_clen cp) (cp_strict cp) (cp_st cp).

Section Lexer.

Context `{Unicode, Numerals, Heap}.

(** [if (tlen == 0) tlen = 1]. *)
Definition at_least_one (s : scan) : scan := mk_scan (s_tok s) (Nat.max 1 (s_len s)) (s_val s).

(** The last resort, after [parse_operator] has set what it set. *)
Definition scan_other (buf : list Z) (op : option scan) : scan :=
  let '(t, len) := parseident buf (match op with Some s => s_len s | None => 0%nat end) in
  at_least_one (mk_scan t len (match op with Some s => s_val s | None => None end)).

(** The token at [buf], which is not empty. *)
Definition scan_token (strict : bool) (buf : list Z) : scan :=
  let c := at_ buf 0 in
  match (if c <? 128 then single_char_tok c else None) with
  | Some t => mk_scan t 1 None
  | None =>
      if IS_IDENT1 c then let '(t, len) := parseident buf 0 in mk_scan t len None
      else if IS_DIGIT c then at_least_one (parse_number strict buf)
      else if (c =? 34) || (c =? 39) then at_least_one (scan_string buf c)
      else if c =? CH "`" then at_least_one (scan_template buf)
      else
        let op := parse_operator buf in
        match op with
        | Some s => if is_err (s_tok s) then scan_other buf op else at_least_one s
        | None => scan_other buf op
        end
  end.

Definition sv_next_raw (lx : sv_lexer_t) : token * sv_lexer_t :=
  let s := st lx in
  if negb (consumed s) then (tok s, lx)
  else
    let '(off, nl) := sv_skiptonext (text lx) (pos s) in
    if (clen lx <=? off)%nat then (TOK_EOF, set_st lx (mk_lex_state off off 0 (tval s) TOK_EOF false nl))
    else
      let r := scan_token (strict lx) (drop off (text lx)) in
      (s_tok r,
       set_st lx (mk_lex_state (off + s_len r) off (s_len r)
         (match s_val r with Some v => Some v | None => tval s end) (s_tok r) false nl)).

Definition sv_lexer_next (lx : sv_lexer_t) : token * sv_lexer_t :=
  if negb (consumed (st lx)) then (tok (st lx), lx) else sv_next_raw lx.

(** [tval] is not put back. *)
Definition sv_lexer_lookahead (lx : sv_lexer_t) : token * sv_lexer_t :=
  let s := st lx in
  let '(t, lx') := sv_lexer_next (set_st lx
    (mk_lex_state (pos s) (toff s) (tlen s) (tval s) (tok s) true (had_newline s))) in
  (t, set_st lx' (mk_lex_state (pos s) (toff s) (tlen s) (tval (st lx')) (tok s) (consumed s) (had_newline s))).

(** The parser takes the token. *)
Definition consume (lx : sv_lexer_t) : sv_lexer_t :=
  let s := st lx in
  set_st lx (mk_lex_state (pos s) (toff s) (tlen s) (tval s) (tok s) true (had_newline s)).

(** [lookahead_crosses_line_terminator] of the parser. *)
Definition lookahead_crosses_line_terminator (lx : sv_lexer_t) : bool * sv_lexer_t :=
  let saved := sv_lexer_save_state lx in
  let '(_, lx') := sv_lexer_next (consume lx) in
  (had_newline (st lx'), sv_lexer_restore_state lx' saved).

End Lexer.
