(* ===== verification/LexBounds.v ===== *)
(** * The lexer: tokens lie in the text

    Every scanner reads within the text it is given and gives a token of at least one byte that
    lies in it; the loops that count rounds never run out of them. *)

From stdpp Require Import base list strings.
From Stdlib Require Import Ascii.
From S2P Require Import Prelude Utils Utf8 BigIntApi LexChars LexSkip LexScan Lexer.

(** ** Shared loops *)

Lemma count_while_le f s : (count_while f s ≤ length s)%nat.
Proof. induction s as [|c s IH]; simpl; [lia|]. destruct (f c); lia. Qed.

Lemma count_while_to f ds t : Forall (λ d, f d = true) ds → t = [] ∨ f (at_ t 0) = false → count_while f (ds ++ t) = length ds.
Proof.
  intros Hf Ht. induction Hf as [|d ds Hd Hf IH]; simpl; [|by rewrite Hd, IH].
  destruct t as [|c t]; [done|]. destruct Ht as [?|Hc]; [done|]. simpl. unfold at_ in Hc. simpl in Hc. by rewrite Hc.
Qed.

Lemma memchr_lt c s n : memchr c s = Some n → (n < length s)%nat.
Proof.
  revert n. induction s as [|x s IH]; simpl; intros n; [done|]. destruct (x =? c); [intros [= <-]; lia|].
  destruct (memchr c s) as [m|]; [|done]. intros [= <-]. specialize (IH m eq_refl). lia.
Qed.

(** ** Identifiers *)

Lemma braced_digits_bound s : ∀ cp n, (n ≤ (braced_digits s cp n).1 ≤ n + length s)%nat.
Proof.
  induction s as [|c s IH]; intros cp n; simpl; [lia|]. destruct (is_xdigit c); [|simpl; lia].
  specialize (IH (u32 (cp <<' 4) |' (if c <=? 57 then c - 48 else (c |' 0x20) - 97 + 10)) (S n)). lia.
Qed.

Lemma parse_unicode_escape_bound buf el cp :
  parse_unicode_escape buf = Some (el, cp) → (1 ≤ el ≤ length buf)%nat.
Proof.
  unfold parse_unicode_escape. destruct (Nat.leb_spec (length buf) 3); [done|]. case_match; [done|].
  case_match; [|destruct (Nat.leb_spec (length buf) 5); [done|]; case_match; [|done]; intros [= <- _]; lia].
  destruct (braced_digits (drop 3 buf) 0 0) as [nd v]. case_match eqn:E; [done|]. intros [= <- _].
  apply orb_false_iff in E as [[[_ E]%orb_false_iff _]%orb_false_iff _]. apply Nat.leb_gt in E. lia.
Qed.

Lemma ident_fast_bound s : ∀ i, (i ≤ (ident_fast s i).1 ≤ i + length s)%nat.
Proof.
  induction s as [|c s IH]; intros i; simpl; [lia|]. case_match; [simpl; lia|]. case_match; [simpl; lia|].
  specialize (IH (S i)). lia.
Qed.

Section Identifiers.

Context `{Unicode}.

Lemma utf8_next_bound p n cp : utf8_next p = (n, cp) → 0 <= cp → (1 ≤ n ≤ length p)%nat.
Proof.
  unfold utf8_next. destruct (utf8proc_iterate p) as [[m c]|] eqn:E; intros [= <- <-]; [|lia].
  intros _. by apply utf8proc_iterate_bounds in E as [? _].
Qed.

(** The second loop goes on from where it is and stays in the text. *)
Lemma ident_slow_bound rounds buf : ∀ n esc,
  (n ≤ length buf)%nat → (n ≤ (ident_slow rounds buf n esc).1 ≤ length buf)%nat.
Proof.
  induction rounds as [|rounds IH]; intros n esc Hn; [simpl; lia|]. cbn [ident_slow].
  destruct (drop n buf) as [|c r] eqn:E; [simpl; lia|].
  assert (length (drop n buf) = length buf - n)%nat as Hl by apply length_drop. rewrite E in Hl. simpl in Hl.
  destruct (c =? CH "\"); [|destruct (c <? 128)].
  - destruct (parse_unicode_escape (c :: r)) as [[el cp]|] eqn:Ee; [|simpl; lia].
    apply parse_unicode_escape_bound in Ee. simpl in Ee. case_match; [|simpl; lia].
    specialize (IH (n + el)%nat true). lia.
  - case_match; [simpl; lia|]. specialize (IH (S n) esc). lia.
  - destruct (utf8_next (c :: r)) as [m cp] eqn:Eu. destruct (Z.ltb_spec cp 0); [simpl; lia|]. simpl.
    case_match; [simpl; lia|]. apply utf8_next_bound in Eu; [|done]. simpl in Eu. specialize (IH (n + m)%nat esc). lia.
Qed.

(** More rounds change nothing. *)
Lemma ident_slow_enough k buf : ∀ rounds n esc,
  (length buf - n ≤ rounds)%nat → ident_slow (rounds + k) buf n esc = ident_slow rounds buf n esc.
Proof.
  induction rounds as [|rounds IH]; intros n esc Hr; simpl.
  { destruct k; [done|]. cbn [ident_slow]. by rewrite drop_ge by lia. }
  destruct (drop n buf) as [|c r] eqn:E; [done|].
  assert (length (drop n buf) = length buf - n)%nat as Hl by apply length_drop. rewrite E in Hl. simpl in Hl.
  destruct (c =? CH "\"); [|destruct (c <? 128)].
  - destruct (parse_unicode_escape (c :: r)) as [[el cp]|] eqn:Ee; [|done]. apply parse_unicode_escape_bound in Ee.
    case_match; [|done]. apply IH. lia.
  - case_match; [done|]. apply IH. lia.
  - destruct (utf8_next (c :: r)) as [m cp] eqn:Eu. destruct (Z.ltb_spec cp 0); [done|]. simpl.
    case_match; [done|]. apply utf8_next_bound in Eu; [|done]. apply IH. lia.
Qed.

Lemma ident_rest_bound buf n : (n ≤ length buf)%nat → (n ≤ (ident_rest buf n).2 ≤ length buf)%nat.
Proof.
  intros Hn. unfold ident_rest. pose proof (ident_slow_bound (length buf) buf n (at_ buf 0 =? CH "\") Hn) as Hb.
  destruct (ident_slow _ _ _ _) as [m esc]. simpl in Hb. by destruct esc.
Qed.

(** Either nothing is read and the length is left alone, or it is that of the identifier. *)
Lemma parseident_bound buf n t len :
  parseident buf n = (t, len) → (t = TOK_ERR ∧ len = n) ∨ (1 ≤ len ≤ length buf)%nat.
Proof.
  assert (∀ m, (1 ≤ m ≤ length buf)%nat → ident_rest buf m = (t, len) → (1 ≤ len ≤ length buf)%nat) as Hrest.
  { intros m Hm E. pose proof (ident_rest_bound buf m) as Hb. rewrite E in Hb. simpl in Hb. lia. }
  destruct buf as [|c r] eqn:Eb; [by intros [= <- <-]; left|]. rewrite <- Eb in *. unfold parseident. rewrite Eb, <- Eb.
  destruct ((c <? 128) && negb (c =? CH "\") && is_ident_begin c).
  { pose proof (ident_fast_bound r 1) as Hf. destruct (ident_fast r 1) as [i slow]. simpl in Hf.
    assert (length buf = S (length r)) by (by subst). destruct slow.
    - intros E. right. apply (Hrest i); [lia|done].
    - intros [= _ <-]. right. lia. }
  destruct (c =? CH "\").
  { destruct (parse_unicode_escape buf) as [[el cp]|] eqn:Ee; [|by intros [= <- <-]; left].
    apply parse_unicode_escape_bound in Ee. case_match; [intros E; right; by apply (Hrest el)|by intros [= <- <-]; left]. }
  destruct (128 <=? c); [|by intros [= <- <-]; left].
  destruct (utf8_next buf) as [m cp] eqn:Eu. destruct (Z.ltb_spec cp 0); [by intros [= <- <-]; left|]. simpl.
  case_match; [by intros [= <- <-]; left|]. intros E. right. apply utf8_next_bound in Eu; [|done]. by apply (Hrest m).
Qed.

End Identifiers.

(** ** Numbers *)

Lemma scan_decimal_bound buf : (scan_decimal_literal buf ≤ length buf)%nat.
Proof.
  unfold scan_decimal_literal. set (n1 := count_while _ buf).
  assert (n1 ≤ length buf)%nat as H1 by apply count_while_le.
  assert (length (drop n1 buf) = length buf - n1)%nat as L1 by apply length_drop.
  destruct (drop n1 buf) as [|c p] eqn:E1; [simpl; lia|]. simpl in L1.
  set (n2 := if c =? CH "." then _ else _).
  assert (n2 ≤ S (length p))%nat as H2.
  { subst n2. case_match; [|lia]. pose proof (count_while_le is_decimal_literal_char p). lia. }
  assert (length (drop n2 (c :: p)) = S (length p) - n2)%nat as L2 by by rewrite length_drop.
  destruct (drop n2 (c :: p)) as [|d q] eqn:E2; [lia|]. simpl in L2.
  case_match; [|lia]. set (sign := match q with _ :: _ => _ | [] => _ end).
  assert (sign ≤ length q)%nat by (subst sign; destruct q; [done|]; case_match; simpl; lia).
  pose proof (count_while_le is_decimal_literal_char (drop sign q)) as H3. rewrite length_drop in H3. lia.
Qed.

Lemma parse_digits_bound base f d i buf : (i ≤ length buf)%nat → (i ≤ (parse_digits base f d i buf).1 ≤ length buf)%nat.
Proof. intros Hi. simpl. pose proof (count_while_le f (drop i buf)) as Hc. rewrite length_drop in Hc. lia. Qed.

(** A digit is read. *)
Lemma scan_decimal_pos buf : IS_DIGIT (at_ buf 0) = true → buf ≠ [] → (1 ≤ scan_decimal_literal buf)%nat.
Proof.
  destruct buf as [|c r]; [done|]. unfold at_. simpl nth. intros Hd _. unfold scan_decimal_literal.
  assert (1 ≤ count_while is_decimal_literal_char (c :: r))%nat; [|lia].
  simpl. unfold is_decimal_literal_char at 1. rewrite Hd. simpl. lia.
Qed.

Section Numbers.

Context `{Numerals, Heap}.

Lemma parse_decimal_len buf : (parse_decimal_literal buf).1 = scan_decimal_literal buf.
Proof. unfold parse_decimal_literal. by repeat case_match. Qed.

Lemma number_value_bound strict buf :
  (1 ≤ length buf)%nat →
  (match number_value strict buf with inl s => s_len s | inr r => r.1 end ≤ length buf)%nat.
Proof.
  intros Hl. pose proof (scan_decimal_bound buf) as Hs. pose proof (parse_decimal_len buf) as Hd. unfold number_value.
  destruct (parse_decimal_literal buf) as [n v]. simpl in Hd. subst n.
  destruct ((at_ buf 0 =? CH "0") && (1 <? length buf)%nat) eqn:E; [|destruct v; simpl; lia].
  apply andb_true_iff in E as [_ E%Nat.ltb_lt]. unfold parse_binary, parse_octal, parse_hex, parse_legacy_octal.
  assert (∀ b f d i, (i ≤ 2)%nat → ((parse_digits b f d i buf).1 ≤ length buf)%nat) as Hp
    by (intros b f d i Hi; apply parse_digits_bound; lia).
  repeat match goal with |- context [if ?b then _ else _] => destruct b end;
    first [apply Hp; lia | destruct v; simpl; lia | simpl; lia].
Qed.

Lemma parse_number_bound strict buf : (1 ≤ length buf)%nat → (s_len (parse_number strict buf) ≤ length buf)%nat.
Proof.
  intros Hl. pose proof (number_value_bound strict buf Hl) as Hb. unfold parse_number.
  destruct (number_value strict buf) as [s|[n v]]; [simpl in Hb; lia|]. simpl in Hb.
  destruct ((n <? length buf)%nat && (at_ buf n =? CH "n")) eqn:E.
  - apply andb_true_iff in E as [E%Nat.ltb_lt _]. case_match; simpl; lia.
  - case_match; simpl; lia.
Qed.

End Numbers.

(** ** Strings *)

Lemma escape_skip_pos buf p : (p + 1 < length buf)%nat → (2 ≤ escape_skip buf p)%nat.
Proof. intros Hp. unfold escape_skip. repeat case_match; try lia. Qed.

Lemma string_loop_bound rounds buf q : ∀ i n, string_loop rounds buf i q = Some n → (i < n ≤ length buf)%nat.
Proof.
  induction rounds as [|rounds IH]; intros i n; [done|]. cbn [string_loop].
  destruct (Nat.ltb_spec i (length buf)) as [Hi|]; [|done].
  destruct (memchr q (drop i buf)) as [a|] eqn:Ea; [|done]. apply memchr_lt in Ea. rewrite length_drop in Ea.
  destruct (memchr (CH "\") (drop i buf)) as [b|] eqn:Eb; [|intros [= <-]; lia].
  destruct (Nat.ltb_spec a b); [intros [= <-]; lia|]. destruct (Nat.leb_spec (length buf) (i + b + 1)); [done|].
  destruct (Nat.ltb_spec (length buf) (i + b + escape_skip buf (i + b))); [done|]. intros E%IH.
  pose proof (escape_skip_pos buf (i + b)). lia.
Qed.

Lemma string_loop_enough k buf q : ∀ rounds i,
  (length buf - i ≤ rounds)%nat → string_loop (rounds + k) buf i q = string_loop rounds buf i q.
Proof.
  induction rounds as [|rounds IH]; intros i Hr; simpl.
  { destruct k; [done|]. cbn [string_loop]. by rewrite (proj2 (Nat.ltb_ge _ _)) by lia. }
  destruct (Nat.ltb_spec i (length buf)) as [Hi|]; [|done].
  destruct (memchr q (drop i buf)) as [a|]; [|done]. destruct (memchr (CH "\") (drop i buf)) as [b|]; [|done].
  destruct (a <? b)%nat; [done|]. destruct (Nat.leb_spec (length buf) (i + b + 1)); [done|].
  case_match; [done|]. apply IH. pose proof (escape_skip_pos buf (i + b)). lia.
Qed.

Lemma scan_string_bound buf q : (s_len (scan_string buf q) ≤ length buf)%nat.
Proof.
  unfold scan_string. destruct (string_loop _ _ _ _) eqn:E; [|simpl; lia]. apply string_loop_bound in E. simpl. lia.
Qed.

(** ** Templates *)

Lemma skip_string_literal_le s q : (length (skip_string_literal s q) ≤ length s)%nat.
Proof.
  remember (length s) as n eqn:Hn. revert s Hn. induction (lt_wf n) as [n _ IH]. intros [|c s] ->; simpl; [lia|].
  destruct (c =? CH "\").
  - destruct s as [|d s]; [simpl; lia|]. specialize (IH (length s) ltac:(simpl; lia) s eq_refl). simpl. lia.
  - case_match; [lia|]. specialize (IH (length s) ltac:(simpl; lia) s eq_refl). lia.
Qed.

Lemma skip_block_comment_le s : (length (skip_block_comment s) ≤ length s)%nat.
Proof.
  induction s as [|c s IH]; [done|]. destruct s as [|d r]; [simpl; lia|].
  change (skip_block_comment (c :: d :: r)) with (if (c =? CH "*") && (d =? CH "/") then r else skip_block_comment (d :: r)).
  case_match; simpl in *; lia.
Qed.

Lemma regex_body_le s : ∀ b, (length (regex_body s b) ≤ length s)%nat.
Proof.
  remember (length s) as n eqn:Hn. revert s Hn. induction (lt_wf n) as [n _ IH]. intros [|c [|d s]] -> b; [simpl; lia..|].
  assert (∀ b, length (regex_body s b) ≤ length s)%nat as H1 by (intros b'; apply (IH (length s)); [simpl; lia|done]).
  assert (∀ b, length (regex_body (d :: s) b) ≤ S (length s))%nat as H2
    by (intros b'; apply (IH (S (length s))); [simpl; lia|done]).
  change (regex_body (c :: d :: s) b) with (if c =? CH "\" then regex_body s b else if c =? CH "[" then regex_body (d :: s) true
    else if (c =? CH "]") && b then regex_body (d :: s) false else if (c =? CH "/") && negb b then d :: s
    else regex_body (d :: s) b).
  pose proof (H1 b). pose proof (H2 b). pose proof (H2 true). pose proof (H2 false). cbn [length].
  repeat match goal with |- context [if ?x then _ else _] => destruct x end; simpl length in *; lia.
Qed.

Lemma skip_regex_literal_le s : (length (skip_regex_literal s) ≤ length s)%nat.
Proof. unfold skip_regex_literal. rewrite length_drop. pose proof (regex_body_le s false). lia. Qed.

(** A round takes at least the byte it looks at. *)
Lemma template_step_le c s d b :
  match template_step c s d b with
  | Closed rest => (length rest ≤ length s)%nat
  | GoOn s' _ _ => (length s' ≤ length s)%nat
  | Nested => True
  end.
Proof.
  pose proof (skip_string_literal_le s c). pose proof (skip_regex_literal_le s).
  pose proof (skip_block_comment_le (drop 1 s)) as Hb. pose proof (length_drop s 1). rewrite length_drop in Hb.
  assert (length (skip_line_comment (drop 1 s)) ≤ length s)%nat by (unfold skip_line_comment; rewrite !length_drop; lia).
  unfold template_step.
  repeat match goal with |- context [if ?x then _ else _] => destruct x end; cbn zeta; rewrite ?length_drop; lia || done.
Qed.

Lemma skip_template_le rounds : ∀ s d b rest,
  skip_template_literal rounds s d b = Some rest → (length rest < length s)%nat.
Proof.
  induction rounds as [|rounds IH]; intros [|c s] d b rest; [done..|]. cbn [skip_template_literal length].
  pose proof (template_step_le c s d b) as Hs. destruct (template_step c s d b) as [r|s' d' b'|].
  - intros [= <-]. lia.
  - intros E%IH. lia.
  - destruct (skip_template_literal rounds s 0 true) as [next|] eqn:E1; [|done]. apply IH in E1. intros E2%IH. lia.
Qed.

Lemma skip_template_enough k rounds : ∀ s d b,
  (length s ≤ rounds)%nat → skip_template_literal (rounds + k) s d b = skip_template_literal rounds s d b.
Proof.
  induction rounds as [|rounds IH]; intros [|c s] d b Hl; [by destruct k|simpl in Hl; lia|done|].
  cbn [skip_template_literal Nat.add]. simpl in Hl. pose proof (template_step_le c s d b) as Hs.
  destruct (template_step c s d b) as [r|s' d' b'|]; [done|apply IH; lia|]. rewrite IH by lia.
  destruct (skip_template_literal rounds s 0 true) as [next|] eqn:E1; [|done]. apply skip_template_le in E1.
  apply IH. lia.
Qed.

Lemma scan_template_bound buf : (s_len (scan_template buf) ≤ length buf)%nat.
Proof. unfold scan_template. repeat case_match; simpl; lia. Qed.

(** ** Operators *)

Lemma starts_with_length w s : starts_with w s = true → (length w ≤ length s)%nat.
Proof. intros [r ->]%starts_with_iff. rewrite length_app. lia. Qed.

Lemma first_prefix_Some l buf t n :
  first_prefix l buf = Some (t, n) → ∃ w, (w, t) ∈ l ∧ n = length (bytes w) ∧ starts_with (bytes w) buf = true.
Proof.
  induction l as [|[w t'] l IH]; simpl; [done|]. case_match eqn:E.
  - intros [= <- <-]. exists w. split; [left|done].
  - intros (w' & ? & ? & ?)%IH. exists w'. split; [by right|done].
Qed.

Section Tokens.

Context `{Unicode, Numerals, Heap}.

Lemma parse_operator_bound buf s : (1 ≤ length buf)%nat → parse_operator buf = Some s → (s_len s ≤ length buf)%nat.
Proof.
  intros Hl. pose proof (scan_decimal_bound buf) as Hd. pose proof (parse_decimal_len buf) as Hp. unfold parse_operator.
  destruct (parse_decimal_literal buf) as [n v]. simpl in Hp. subst n. destruct (at_ buf 0 =? CH "?"); [|destruct (at_ buf 0 =? CH ".")].
  - intros Hs%(inj Some). subst s. destruct (starts_with (bytes "??=") buf) eqn:E1; [exact (starts_with_length _ _ E1)|].
    destruct (starts_with (bytes "??") buf) eqn:E2; [exact (starts_with_length _ _ E2)|].
    destruct (starts_with (bytes "?.") buf) eqn:E3; [apply starts_with_length in E3|]; simpl; [|lia].
    case_match; simpl in *; lia.
  - intros Hs%(inj Some). subst s. destruct (starts_with (bytes "...") buf) eqn:E1; [exact (starts_with_length _ _ E1)|].
    destruct v; repeat case_match; simpl; lia.
  - destruct (first_prefix (operator_case (at_ buf 0)) buf) as [[t n]|] eqn:E; [|done]. intros [= <-].
    apply first_prefix_Some in E as (w & _ & -> & Hw%starts_with_length). done.
Qed.

(** A token is at least one byte and lies in the text. *)
Lemma scan_token_bound strict buf : (1 ≤ length buf)%nat → (1 ≤ s_len (scan_token strict buf) ≤ length buf)%nat.
Proof.
  intros Hl. assert (∀ s, s_len s ≤ length buf → 1 ≤ s_len (at_least_one s) ≤ length buf)%nat as Hone by (simpl; lia).
  assert (∀ op, (match op with Some s => s_len s | None => 0%nat end ≤ length buf)%nat →
    (1 ≤ s_len (scan_other buf op) ≤ length buf)%nat) as Hother.
  { intros op Hop. unfold scan_other. destruct (parseident buf _) as [t len] eqn:E. apply Hone.
    apply parseident_bound in E as [[_ ->]|]; simpl; lia. }
  unfold scan_token. destruct (if at_ buf 0 <? 128 then single_char_tok (at_ buf 0) else None); [simpl; lia|].
  destruct (IS_IDENT1 (at_ buf 0)) eqn:Ei.
  { destruct (parseident buf 0) as [t len] eqn:E. simpl. apply parseident_bound in E as Hb.
    destruct Hb as [[_ ->]|]; [|done]. exfalso. destruct buf as [|c r]; [simpl in Hl; lia|].
    unfold at_ in Ei. simpl nth in Ei.
    assert (c < 128 ∧ c ≠ CH "\") as [Hc Hn].
    { unfold IS_IDENT1, has_class, char_type, between in Ei. split.
      - apply Z.nle_gt. intros Hc. repeat case_match; try lia; done.
      - by intros ->. }
    unfold parseident in E. rewrite (proj2 (Z.ltb_lt _ _) Hc), (proj2 (Z.eqb_neq _ _) Hn) in E. simpl in E.
    unfold is_ident_begin in E. rewrite (proj2 (Z.ltb_lt _ _) Hc) in E. unfold IS_IDENT1 in Ei. rewrite Ei in E.
    pose proof (ident_fast_bound r 1) as Hf. destruct (ident_fast r 1) as [i slow]. simpl in Hf. destruct slow.
    - pose proof (ident_rest_bound (c :: r) i) as Hr. rewrite E in Hr. simpl in Hr. lia.
    - injection E as _ E. lia. }
  destruct (IS_DIGIT (at_ buf 0)); [by apply Hone, parse_number_bound|].
  destruct ((at_ buf 0 =? 34) || (at_ buf 0 =? 39)); [apply Hone, scan_string_bound|].
  destruct (at_ buf 0 =? CH "`"); [apply Hone, scan_template_bound|]. destruct (parse_operator buf) as [s|] eqn:E; [|apply Hother; lia].
  apply parse_operator_bound in E; [|done]. case_match; [by apply Hother|by apply Hone].
Qed.

End Tokens.
