(* ===== verification/LexTokens.v ===== *)
(** * The lexer: from a text to its tokens

    What a call of the lexer gives, and that reading token after token comes to the end of
    every text. *)

From stdpp Require Import base list strings.
From Stdlib Require Import Ascii.
From S2P Require Import Prelude Utils Utf8 BigIntApi LexChars LexSkip LexScan Lexer LexBounds.

(** A lexer over bytes that stands in its text. *)
Definition wf_lexer (lx : sv_lexer_t) : Prop :=
  Forall byte_ok (code lx) ∧ (clen lx ≤ length (code lx))%nat ∧ (pos (st lx) ≤ clen lx)%nat.

Lemma length_text lx : wf_lexer lx → length (text lx) = clen lx.
Proof. intros (_ & Hl & _). unfold text. rewrite length_take. lia. Qed.

(** ** White space *)

(** Where skipping starts: behind the first line of the text if that starts with [#!]. *)
Inductive starts (t : list Z) : nat → list Z → bool → Prop :=
  | starts_hashbang r p nl : t = bytes "#!" ++ r → line_rest r nl p → starts t 0 p nl
  | starts_here n : ¬ (n = 0%nat ∧ starts_with (bytes "#!") t = true) → starts t n (drop n t) false.

(** From offset [n] on, elements of white space reach to [off], and none stands there. *)
Definition skipped `{Unicode} (t : list Z) (n : nat) (nl : bool) (off : nat) : Prop :=
  ∃ p nl0 nl1, starts t n p nl0 ∧ skips t p nl1 (drop off t) ∧ nl = nl0 || nl1 ∧
    ∀ nl' s, ¬ skip1 t (drop off t) nl' s.

Section Tokens.

Context `{Unicode, Numerals, Heap}.

Lemma starts_spec t n : ∃ p nl,
  (if (n =? 0)%nat && starts_with (bytes "#!") (drop n t) then skip_html_line_comment (drop 2 (drop n t))
   else (drop n t, false)) = (p, nl) ∧ starts t n p nl ∧ ∃ k, (n ≤ k)%nat ∧ p = drop k t.
Proof.
  destruct (Nat.eqb_spec n 0) as [->|Hn].
  - rewrite drop_0. destruct (starts_with (bytes "#!") t) eqn:E.
    + apply starts_with_iff in E as [r Er]. destruct (skip_html_line_comment (drop 2 t)) as [p nl] eqn:El.
      exists p, nl. split; [by rewrite Er in El |- *|]. apply skip_html_line_comment_spec in El.
      rewrite Er in El. change (drop 2 (bytes "#!" ++ r)) with r in El. split; [by econstructor|].
      apply line_rest_suffix in El as (k & _ & ->). exists (2 + k)%nat. split; [lia|]. by rewrite Er.
    + exists t, false. split; [done|]. split; [|by exists 0%nat]. rewrite <- (drop_0 t) at 2. constructor. rewrite E. by intros [_ ?].
  - exists (drop n t), false. split; [done|]. split; [constructor; by intros [-> _]|by exists n].
Qed.

(** The code skips white space, all of it and nothing else. *)
Lemma skiptonext_spec t n off nl :
  Forall byte_ok t → (n ≤ length t)%nat → sv_skiptonext t n = (off, nl) → skipped t n nl off ∧ (n ≤ off ≤ length t)%nat.
Proof.
  intros Ht Hn. unfold sv_skiptonext. destruct (starts_spec t n) as (p & nl0 & -> & Hs & k & Hk & Hp).
  destruct (skip_loop_spec (S (length t)) t p nl0) as (s & nl1 & -> & Hsk & Hstop).
  { subst p. by apply Forall_drop. }
  { subst p. rewrite length_drop. lia. }
  intros [= <- <-]. apply skips_suffix in Hsk as Hsuf. destruct Hsuf as (j & Hj & ->).
  assert (∃ m, drop j p = drop m t ∧ (n ≤ m)%nat) as (m & Em & Hm).
  { exists (k + j)%nat. rewrite Hp, drop_drop. split; [done|lia]. }
  rewrite Em, length_drop in *. destruct (decide (m ≤ length t)%nat).
  - replace (length t - (length t - m))%nat with m by lia. split; [|lia]. exists p, nl0, nl1. done.
  - replace (length t - (length t - m))%nat with (length t) by lia. split; [|lia]. exists p, nl0, nl1.
    rewrite (drop_ge t m) in * by lia. rewrite drop_all. done.
Qed.

(** ** Tokens *)

Lemma word_in_not_eof l buf : Forall (λ p, p.2 ≠ TOK_EOF) l → word_in l buf ≠ TOK_EOF.
Proof. induction 1 as [|[w t] l Ht Hl IH]; simpl; [done|]. by case_match. Qed.

Lemma keyword_not_eof buf : sv_parsekeyword buf ≠ TOK_EOF.
Proof.
  apply word_in_not_eof. unfold keyword_case.
  repeat match goal with |- context [if ?x then _ else _] => destruct x end; repeat constructor; done.
Qed.

Lemma parseident_not_eof buf n t len : parseident buf n = (t, len) → t ≠ TOK_EOF.
Proof.
  assert (∀ m, (ident_rest buf m).1 ≠ TOK_EOF) as Hr.
  { intros m. unfold ident_rest. destruct (ident_slow _ _ _ _) as [k []]; simpl; [by case_match|apply keyword_not_eof]. }
  unfold parseident. intros E.
  repeat (case_match; simplify_eq; try done; try apply keyword_not_eof);
    match goal with E : ident_rest ?b ?m = _ |- _ => specialize (Hr m); by rewrite E in Hr end.
Qed.

Lemma first_prefix_not_eof c buf t n : first_prefix (operator_case c) buf = Some (t, n) → t ≠ TOK_EOF.
Proof.
  intros (w & Hin & _)%first_prefix_Some.
  enough (Forall (λ p, p.2 ≠ TOK_EOF) (operator_case c)) as Hf by (by apply (proj1 (Forall_forall _ _) Hf (w, t))).
  clear Hin. unfold operator_case.
  repeat match goal with |- context [if ?x then _ else _] => destruct x end; repeat constructor; done.
Qed.

Lemma number_value_err strict buf s : number_value strict buf = inl s → s_tok s = TOK_ERR.
Proof. unfold number_value. intros E. repeat (case_match; simplify_eq; try done). Qed.

Lemma scan_token_not_eof strict buf : s_tok (scan_token strict buf) ≠ TOK_EOF.
Proof.
  assert (∀ op, s_tok (scan_other buf op) ≠ TOK_EOF) as Ho.
  { intros op. unfold scan_other. destruct (parseident buf _) as [t len] eqn:E. simpl. by eapply parseident_not_eof. }
  unfold scan_token. destruct (if at_ buf 0 <? 128 then single_char_tok (at_ buf 0) else None) as [t|] eqn:E1.
  { revert E1. destruct (at_ buf 0 <? 128); [|done]. unfold single_char_tok. intros E1. simpl.
    repeat (case_match; simplify_eq; try done). }
  destruct (IS_IDENT1 (at_ buf 0)).
  { destruct (parseident buf 0) as [t len] eqn:E. simpl. by eapply parseident_not_eof. }
  destruct (IS_DIGIT (at_ buf 0)).
  { simpl. unfold parse_number. destruct (number_value strict buf) as [s|[n v]] eqn:E; [by rewrite (number_value_err _ _ _ E)|].
    destruct ((n <? length buf)%nat && _); by destruct (number_literal_has_invalid_tail _ _). }
  destruct ((at_ buf 0 =? 34) || _); [simpl; unfold scan_string; by destruct (string_loop _ _ _ _)|].
  destruct (at_ buf 0 =? CH "`"); [simpl; unfold scan_template; repeat (case_match; try done)|].
  destruct (parse_operator buf) as [s|] eqn:E; [|apply Ho]. destruct (is_err (s_tok s)); [apply Ho|]. simpl.
  revert E. unfold parse_operator. destruct (at_ buf 0 =? CH "?"); [|destruct (at_ buf 0 =? CH ".")].
  - intros Hs%(inj Some). subst s. by repeat match goal with |- context [if ?x then _ else _] => destruct x end.
  - intros Hs%(inj Some). subst s. destruct (parse_decimal_literal buf) as [n [v|]];
      by repeat match goal with |- context [if ?x then _ else _] => destruct x end.
  - destruct (first_prefix _ _) as [[t n]|] eqn:E; [|done]. intros [= <-]. simpl. by eapply first_prefix_not_eof.
Qed.

(** What a call gives: the state behind a token. *)
Definition next_token (lx : sv_lexer_t) (t : token) (lx' : sv_lexer_t) : Prop :=
  let s' := st lx' in
  lx' = set_st lx s' ∧ tok s' = t ∧ consumed s' = false ∧
  skipped (text lx) (pos (st lx)) (had_newline s') (toff s') ∧
  (pos (st lx) ≤ toff s')%nat ∧ (toff s' + tlen s' = pos s' ∧ pos s' ≤ clen lx)%nat ∧
  if decide (toff s' = clen lx) then t = TOK_EOF ∧ tlen s' = 0%nat
  else t ≠ TOK_EOF ∧ (1 ≤ tlen s')%nat ∧
       let r := scan_token (strict lx) (drop (toff s') (text lx)) in t = s_tok r ∧ tlen s' = s_len r.

Lemma next_raw_spec lx t lx' :
  wf_lexer lx → consumed (st lx) = true → sv_next_raw lx = (t, lx') → next_token lx t lx'.
Proof.
  intros Hwf Hc. pose proof (length_text lx Hwf) as Hl. pose proof Hwf as (Hb & _ & Hp). unfold sv_next_raw. rewrite Hc. simpl.
  destruct (sv_skiptonext (text lx) (pos (st lx))) as [off nl] eqn:E.
  apply skiptonext_spec in E as [Hsk Hoff]; [|by apply Forall_take|lia]. rewrite Hl in Hoff.
  destruct (Nat.leb_spec (clen lx) off).
  - intros [= <- <-]. repeat split; simpl; try done; try lia. by rewrite decide_True by lia.
  - intros [= <- <-]. set (r := scan_token _ _).
    assert (1 ≤ s_len r ≤ clen lx - off)%nat as Hr.
    { rewrite <- Hl, <- length_drop. apply scan_token_bound. rewrite length_drop. lia. }
    repeat split; simpl; try done; try lia. rewrite decide_False by lia. split; [apply scan_token_not_eof|]. split; [lia|done].
Qed.

(** The lexer with another number. *)
Definition with_tval (lx : sv_lexer_t) (v : option number) : sv_lexer_t :=
  let s := st lx in set_st lx (mk_lex_state (pos s) (toff s) (tlen s) v (tok s) (consumed s) (had_newline s)).


(** ** All the tokens of a text *)

(** Token after token: each with its offset and its length. *)
Fixpoint tokenize (rounds : nat) (lx : sv_lexer_t) : list (token * nat * nat) :=
  match rounds with
  | O => []
  | S rounds =>
      let '(t, lx) := sv_lexer_next lx in
      (t, toff (st lx), tlen (st lx)) :: match t with TOK_EOF => [] | _ => tokenize rounds (consume lx) end
  end.

(** The tokens follow each other from [p] on to the end of the text at [n]. *)
Fixpoint reaches_end (p n : nat) (ts : list (token * nat * nat)) : Prop :=
  match ts with
  | [] => False
  | (TOK_EOF, off, len) :: ts => off = n ∧ (p ≤ n)%nat ∧ ts = []
  | (_, off, len) :: ts => (p ≤ off)%nat ∧ (1 ≤ len)%nat ∧ (off + len ≤ n)%nat ∧ reaches_end (off + len) n ts
  end.

Lemma reaches_end_cons p n t off len ts :
  t ≠ TOK_EOF → (p ≤ off)%nat → (1 ≤ len)%nat → (off + len ≤ n)%nat → reaches_end (off + len) n ts →
  reaches_end p n ((t, off, len) :: ts).
Proof.
  intros Ht Hp Hl Hn Hr. destruct t; first [by destruct (Ht eq_refl) | exact (conj Hp (conj Hl (conj Hn Hr)))].
Qed.

Lemma tokenize_ends rounds : ∀ lx,
  wf_lexer lx → consumed (st lx) = true → (clen lx - pos (st lx) < rounds)%nat →
  reaches_end (pos (st lx)) (clen lx) (tokenize rounds lx).
Proof.
  induction rounds as [|rounds IH]; intros lx Hwf Hc Hr; [lia|]. cbn [tokenize]. unfold sv_lexer_next. rewrite Hc. simpl negb.
  destruct (sv_next_raw lx) as [t lx'] eqn:E. pose proof (next_raw_spec lx t lx' Hwf Hc E) as (El & _ & _ & _ & Hge & [Hp Hle] & Hif).
  destruct (decide (toff (st lx') = clen lx)) as [Heq|Hne].
  - destruct Hif as [-> _]. simpl. split; [done|]. split; [lia|done].
  - destruct Hif as (Hnt & Hlen & _). assert (clen lx' = clen lx) as Hcl by by rewrite El.
    assert (wf_lexer (consume lx')) as Hwf'.
    { destruct Hwf as (Hb & Hcode & _). rewrite El. split; [done|]. split; [done|]. simpl. by rewrite El in Hle. }
    specialize (IH (consume lx') Hwf' eq_refl). simpl in IH. rewrite Hcl in IH.
    assert (match t with TOK_EOF => [] | _ => tokenize rounds (consume lx') end = tokenize rounds (consume lx')) as -> by by destruct t.
    apply reaches_end_cons; [done|lia|lia|lia|]. rewrite Hp. apply IH. lia.
Qed.

(** C6: reading a text token by token comes to its end, whatever the text: after at most as
    many tokens as the text has bytes there is [TOK_EOF], and the tokens follow each other in the
    text.  None of the loops is cut short: with more rounds they do the same. *)
Theorem tokenize_total code strict :
  Forall byte_ok code →
  reaches_end 0 (length code) (tokenize (S (length code)) (sv_lexer_init code (length code) strict)) ∧
  (∀ k buf q, string_loop (length buf + k) buf 1 q = string_loop (length buf) buf 1 q) ∧
  (∀ k buf, skip_template_literal (length buf + k) (drop 1 buf) 0 true = skip_template_literal (length buf) (drop 1 buf) 0 true) ∧
  (∀ k buf n esc, ident_slow (length buf + k) buf n esc = ident_slow (length buf) buf n esc).
Proof.
  intros Hb. split; [|split; [|split]].
  - apply (tokenize_ends (S (length code)) (sv_lexer_init code (length code) strict)); [split; [done|split; simpl; lia]|done|simpl; lia].
  - intros k buf q. apply string_loop_enough. lia.
  - intros k buf. apply skip_template_enough. rewrite length_drop. lia.
  - intros k buf n esc. apply ident_slow_enough. lia.
Qed.

End Tokens.

(** No decimal numbers, and memory enough. *)
Definition no_numerals : Numerals := λ _, None.

Definition sample : list Z := bytes "a /* " ++ [10] ++ bytes " */ <!-- b" ++ [10] ++ bytes "=> 'c'".


Lemma tokenize_total_witness :
  reaches_end 0 (length sample)
    (@tokenize standard_unicode no_numerals roomy_heap (S (length sample)) (sv_lexer_init sample (length sample) false)) ∧
  @tokenize standard_unicode no_numerals roomy_heap (S (length sample)) (sv_lexer_init sample (length sample) false) =
    [(TOK_IDENTIFIER, 0, 1); (TOK_ARROW, 17, 2); (TOK_STRING, 20, 3); (TOK_EOF, 23, 0)]%nat.
Proof.
  split; [|vm_compute; reflexivity].
  apply (@tokenize_total standard_unicode no_numerals roomy_heap sample false). apply (bool_decide_unpack _). vm_compute. exact I.
Defined.
