(* ===== verification/LexWords.v ===== *)
(** * The lexer: keywords and punctuators

    The switches of [sv_parsekeyword] and [parse_operator] against flat tables: a word is a
    keyword exactly if the table has it, and an operator is the longest of the table that the
    text starts with. *)

From stdpp Require Import base list strings.
From Stdlib Require Import Ascii Sorted.
From S2P Require Import Prelude Utils Utf8 BigIntApi LexChars LexSkip LexScan.

(** ** The tables *)

Definition keywords : list (string * token) :=
  [("break", TOK_BREAK); ("case", TOK_CASE); ("catch", TOK_CATCH); ("class", TOK_CLASS); ("const", TOK_CONST);
   ("continue", TOK_CONTINUE); ("debugger", TOK_DEBUGGER); ("default", TOK_DEFAULT); ("delete", TOK_DELETE);
   ("do", TOK_DO); ("else", TOK_ELSE); ("export", TOK_EXPORT); ("false", TOK_FALSE); ("finally", TOK_FINALLY);
   ("for", TOK_FOR); ("function", TOK_FUNC); ("if", TOK_IF); ("import", TOK_IMPORT); ("in", TOK_IN);
   ("instanceof", TOK_INSTANCEOF); ("new", TOK_NEW); ("null", TOK_NULL); ("return", TOK_RETURN);
   ("super", TOK_SUPER); ("switch", TOK_SWITCH); ("this", TOK_THIS); ("throw", TOK_THROW); ("true", TOK_TRUE);
   ("try", TOK_TRY); ("typeof", TOK_TYPEOF); ("var", TOK_VAR); ("void", TOK_VOID); ("while", TOK_WHILE);
   ("with", TOK_WITH); ("yield", TOK_YIELD); ("await", TOK_AWAIT); ("let", TOK_LET); ("static", TOK_STATIC);
   ("as", TOK_AS); ("async", TOK_ASYNC); ("from", TOK_FROM); ("of", TOK_OF); ("using", TOK_USING);
   ("undefined", TOK_UNDEF); ("globalThis", TOK_GLOBAL_THIS); ("window", TOK_WINDOW)].

Definition punctuators : list (string * token) :=
  [("?.", TOK_OPTIONAL_CHAIN); (".", TOK_DOT); ("...", TOK_REST); ("<", TOK_LT); (">", TOK_GT); ("<=", TOK_LE);
   (">=", TOK_GE); ("==", TOK_EQ); ("!=", TOK_NE); ("===", TOK_SEQ); ("!==", TOK_SNE); ("+", TOK_PLUS);
   ("-", TOK_MINUS); ("*", TOK_MUL); ("/", TOK_DIV); ("%", TOK_REM); ("**", TOK_EXP); ("++", TOK_POSTINC);
   ("--", TOK_POSTDEC); ("<<", TOK_SHL); (">>", TOK_SHR); (">>>", TOK_ZSHR); ("&", TOK_AND); ("|", TOK_OR);
   ("^", TOK_XOR); ("!", TOK_NOT); ("&&", TOK_LAND); ("||", TOK_LOR); ("??", TOK_NULLISH); ("?", TOK_Q);
   ("=", TOK_ASSIGN); ("+=", TOK_PLUS_ASSIGN); ("-=", TOK_MINUS_ASSIGN); ("*=", TOK_MUL_ASSIGN);
   ("/=", TOK_DIV_ASSIGN); ("%=", TOK_REM_ASSIGN); ("**=", TOK_EXP_ASSIGN); ("<<=", TOK_SHL_ASSIGN);
   (">>=", TOK_SHR_ASSIGN); (">>>=", TOK_ZSHR_ASSIGN); ("&=", TOK_AND_ASSIGN); ("|=", TOK_OR_ASSIGN);
   ("^=", TOK_XOR_ASSIGN); ("&&=", TOK_LAND_ASSIGN); ("||=", TOK_LOR_ASSIGN); ("??=", TOK_NULLISH_ASSIGN);
   ("=>", TOK_ARROW)].

(** [w] can be read at [buf]: it stands there, and is not the start of [?.5]. *)
Definition readable (w : string) (buf : list Z) : bool :=
  starts_with (bytes w) buf && negb (String.eqb w "?." && (3 <=? length buf)%nat && is_digit (at_ buf 2)).

(** ** Keywords *)

Definition keyword_chars : list Z := bytes "abcdefgilnorstuvwy".

Lemma keyword_case_nil c : c ∉ keyword_chars → keyword_case c = [].
Proof.
  intros Hc. unfold keyword_case.
  repeat match goal with |- context [c =? ?k] => destruct (Z.eqb_spec c k) as [->|];
    [exfalso; apply Hc, (bool_decide_unpack _); vm_compute; exact I|] end. done.
Qed.

Lemma word_in_find l buf t :
  word_in l buf = t → t ≠ TOK_IDENTIFIER → ∃ w, (w, t) ∈ l ∧ buf = bytes w.
Proof.
  intros <-. induction l as [|[w t'] l IH]; simpl; [done|]. case_bool_decide as Hb.
  - intros _. exists w. split; [left|done].
  - intros (w' & ? & ?)%IH. exists w'. split; [by right|done].
Qed.

(** The token of a word in a table. *)
Definition assoc (l : list (string * token)) (w : string) : option token :=
  snd <$> head (List.filter (λ p, String.eqb p.1 w) l).

Lemma assoc_in l w t : assoc l w = Some t → (w, t) ∈ l.
Proof.
  unfold assoc. induction l as [|[w' t'] l IH]; simpl; [done|]. destruct (String.eqb_spec w' w) as [->|_]; [intros [= ->]; left|right; by apply IH].
Qed.

Lemma keyword_cases_in_table : Forall (λ c, Forall (λ p, assoc keywords p.1 = Some p.2) (keyword_case c)) keyword_chars.
Proof. repeat constructor. Qed.

Lemma keywords_found : Forall (λ p, sv_parsekeyword (bytes p.1) = p.2) keywords.
Proof. repeat constructor. Qed.

Lemma keyword_case_in_table c p : p ∈ keyword_case c → p ∈ keywords.
Proof.
  destruct (decide (c ∈ keyword_chars)) as [Hc|Hc]; [|by rewrite (keyword_case_nil c Hc); intros ?%not_elem_of_nil].
  pose proof keyword_cases_in_table as Hk. rewrite Forall_forall in Hk. specialize (Hk c Hc).
  rewrite Forall_forall in Hk. destruct p as [w t]. intros Hp. apply assoc_in, (Hk _ Hp).
Qed.

Lemma keyword_iff buf t : t ≠ TOK_IDENTIFIER → sv_parsekeyword buf = t ↔ ∃ w, (w, t) ∈ keywords ∧ buf = bytes w.
Proof.
  intros Ht. split.
  - intros E. apply word_in_find in E as (w & Hw & ->); [|done]. exists w. split; [by eapply keyword_case_in_table|done].
  - intros (w & Hw & ->). pose proof keywords_found as Hk. rewrite Forall_forall in Hk. apply (Hk (w, t) Hw).
Qed.

(** ** Punctuators *)

Definition operator_chars : list Z := bytes "?.!=<>&|+-*/%^".

(** The tests of all the cases. *)
Definition op_case (c : Z) : list (string * token) :=
  if c =? CH "?" then [("??=", TOK_NULLISH_ASSIGN); ("??", TOK_NULLISH); ("?.", TOK_OPTIONAL_CHAIN); ("?", TOK_Q)]
  else if c =? CH "." then [("...", TOK_REST); (".", TOK_DOT)]
  else operator_case c.

Fixpoint first_readable (l : list (string * token)) (buf : list Z) : option (token * nat) :=
  match l with
  | [] => None
  | (w, t) :: l => if readable w buf then Some (t, length (bytes w)) else first_readable l buf
  end.

(** Longer words are tested first. *)
Definition longest_first (l : list (string * token)) : Prop :=
  StronglySorted (λ p q, (length (bytes q.1) ≤ length (bytes p.1))%nat) l.

Lemma first_readable_longest l buf :
  longest_first l →
  match first_readable l buf with
  | Some (t, n) => ∃ w, (w, t) ∈ l ∧ readable w buf = true ∧ n = length (bytes w) ∧
      ∀ w' t', (w', t') ∈ l → readable w' buf = true → (length (bytes w') ≤ n)%nat
  | None => ∀ w t, (w, t) ∈ l → readable w buf = false
  end.
Proof.
  intros Hs. induction Hs as [|[w t] l Hl IH Hw]; simpl; [by intros w t ?%not_elem_of_nil|].
  destruct (readable w buf) eqn:E.
  - exists w. split; [left|]. split; [done|]. split; [done|]. intros w' t' Hin _. apply elem_of_cons in Hin as [[= -> _]|Hin]; [done|].
    rewrite Forall_forall in Hw. apply (Hw _ Hin).
  - destruct (first_readable l buf) as [[t' n]|].
    + destruct IH as (w1 & Hin & Hr & -> & Hmax). exists w1. split; [by right|]. split; [done|]. split; [done|].
      intros w' t'' Hin' Hr'. apply elem_of_cons in Hin' as [[= -> _]|Hin']; [congruence|]. by eapply Hmax.
    + intros w' t' Hin. apply elem_of_cons in Hin as [[= -> _]|Hin]; [done|by eapply IH].
Qed.

Lemma op_case_nil c : c ∉ operator_chars → op_case c = [].
Proof.
  intros Hc. unfold op_case, operator_case.
  repeat match goal with |- context [c =? ?k] => destruct (Z.eqb_spec c k) as [->|];
    [exfalso; apply Hc, (bool_decide_unpack _); vm_compute; exact I|] end. done.
Qed.

Lemma op_cases_ok : Forall (λ c, Forall (λ p, assoc punctuators p.1 = Some p.2) (op_case c)) operator_chars.
Proof. repeat constructor. Qed.

Lemma op_cases_sorted : Forall (λ c, longest_first (op_case c)) operator_chars.
Proof. repeat constructor; simpl; lia. Qed.

Lemma punctuators_in_case : Forall (λ p, assoc (op_case (at_ (bytes p.1) 0)) p.1 = Some p.2 ∧ bytes p.1 ≠ []) punctuators.
Proof. repeat first [apply List.Forall_nil | apply List.Forall_cons; [split; [reflexivity|discriminate]|]]. Qed.

Lemma op_case_sorted c : longest_first (op_case c).
Proof.
  destruct (decide (c ∈ operator_chars)) as [Hc|Hc]; [|rewrite (op_case_nil c Hc); constructor].
  pose proof op_cases_sorted as Hk. rewrite Forall_forall in Hk. by apply Hk.
Qed.

Lemma op_case_in_table c p : p ∈ op_case c → p ∈ punctuators.
Proof.
  destruct (decide (c ∈ operator_chars)) as [Hc|Hc]; [|by rewrite (op_case_nil c Hc); intros ?%not_elem_of_nil].
  pose proof op_cases_ok as Hk. rewrite Forall_forall in Hk. specialize (Hk c Hc). rewrite Forall_forall in Hk.
  destruct p as [w t]. intros Hp. apply assoc_in, (Hk _ Hp).
Qed.

(** A word that can be read is tested. *)
Lemma readable_tested w t buf : (w, t) ∈ punctuators → readable w buf = true → (w, t) ∈ op_case (at_ buf 0).
Proof.
  intros Hin [[r ->]%starts_with_iff _]%andb_true_iff. pose proof punctuators_in_case as Hk. rewrite Forall_forall in Hk.
  destruct (Hk _ Hin) as [Hc Hne]. apply assoc_in in Hc. simpl in *. by destruct (bytes w).
Qed.

Lemma readable_plain w buf : w ≠ "?."%string → readable w buf = starts_with (bytes w) buf.
Proof. intros Hw. unfold readable. rewrite (proj2 (String.eqb_neq _ _) Hw). simpl. by rewrite andb_true_r. Qed.

Lemma first_prefix_readable l buf :
  Forall (λ p, p.1 ≠ "?."%string) l → first_prefix l buf = first_readable l buf.
Proof.
  induction 1 as [|[w t] l Hw Hl IH]; simpl; [done|]. by rewrite readable_plain, IH.
Qed.

Lemma operator_case_plain c : Forall (λ p, p.1 ≠ "?."%string) (operator_case c).
Proof.
  unfold operator_case. repeat match goal with |- context [if ?x then _ else _] => destruct x end; repeat constructor; done.
Qed.

(** A dot before a digit starts a number. *)
Definition starts_fraction (buf : list Z) : bool :=
  (at_ buf 0 =? CH ".") && (1 <? length buf)%nat && IS_DIGIT (at_ buf 1).

Section Operators.

Context `{Numerals, Heap}.

Lemma parse_operator_first buf :
  buf ≠ [] → starts_fraction buf = false →
  parse_operator buf = (λ '(t, n), mk_scan t n None) <$> first_readable (op_case (at_ buf 0)) buf.
Proof.
  intros Hne Hf. unfold parse_operator, op_case. destruct (at_ buf 0 =? CH "?") eqn:Eq; [|destruct (at_ buf 0 =? CH ".") eqn:Ed].
  - cbn [first_readable]. rewrite (readable_plain "??="), (readable_plain "??"), (readable_plain "?") by done.
    change (readable "?." buf) with (starts_with (bytes "?.") buf && negb ((3 <=? length buf)%nat && is_digit (at_ buf 2))).
    destruct (starts_with (bytes "??=") buf); [done|]. destruct (starts_with (bytes "??") buf); [done|].
    destruct (starts_with (bytes "?.") buf) eqn:Es; simpl andb.
    + replace ((length buf <? 3)%nat || negb (is_digit (at_ buf 2))) with (negb ((3 <=? length buf)%nat && is_digit (at_ buf 2))).
      2: { rewrite negb_andb, Nat.leb_antisym. by rewrite negb_involutive. }
      destruct (negb _); [done|]. replace (starts_with (bytes "?") buf) with true; [done|].
      destruct buf as [|c r]; [done|]. unfold at_ in Eq. apply Z.eqb_eq in Eq. simpl in Eq. by subst c.
    + replace (starts_with (bytes "?") buf) with true; [done|].
      destruct buf as [|c r]; [done|]. unfold at_ in Eq. apply Z.eqb_eq in Eq. simpl in Eq. by subst c.
  - cbn [first_readable]. rewrite !(readable_plain _ buf) by done.
    destruct (starts_with (bytes "...") buf); [done|]. unfold starts_fraction in Hf. rewrite Ed in Hf. simpl in Hf. rewrite Hf.
    replace (starts_with (bytes ".") buf) with true; [done|].
    destruct buf as [|c r]; [done|]. unfold at_ in Ed. apply Z.eqb_eq in Ed. simpl in Ed. by subst c.
  - by rewrite first_prefix_readable by apply operator_case_plain.
Qed.

(** C24: a word is a keyword exactly if the table of keywords has it, and gives its token.  Of
    the punctuators of the table that can be read the lexer takes the longest, and none if there
    is none. *)
Theorem words_correct buf :
  (∀ t, t ≠ TOK_IDENTIFIER → sv_parsekeyword buf = t ↔ ∃ w, (w, t) ∈ keywords ∧ buf = bytes w) ∧
  (buf ≠ [] → starts_fraction buf = false →
   match parse_operator buf with
   | Some s => ∃ w, (w, s_tok s) ∈ punctuators ∧ readable w buf = true ∧ s_len s = length (bytes w) ∧
       ∀ w' t', (w', t') ∈ punctuators → readable w' buf = true → (length (bytes w') ≤ s_len s)%nat
   | None => ∀ w t, (w, t) ∈ punctuators → readable w buf = false
   end).
Proof.
  split; [intros t; apply keyword_iff|]. intros Hne Hf. rewrite parse_operator_first by done.
  pose proof (first_readable_longest (op_case (at_ buf 0)) buf (op_case_sorted _)) as Hl.
  destruct (first_readable (op_case (at_ buf 0)) buf) as [[t n]|]; simpl.
  - destruct Hl as (w & Hin & Hr & -> & Hmax). exists w. split; [by eapply op_case_in_table|]. split; [done|].
    split; [done|]. intros w' t' Hin' Hr'. eapply Hmax; [by eapply readable_tested|done].
  - intros w t Hin. apply not_true_iff_false. intros Hr. pose proof (Hl w t (readable_tested w t buf Hin Hr)). congruence.
Qed.

End Operators.

Lemma words_correct_witness :
  sv_parsekeyword (bytes "while") = TOK_WHILE ∧
  ∃ s, parse_operator (H := λ _, None) (H0 := roomy_heap) (bytes ">>>=1") = Some s ∧ s_tok s = TOK_ZSHR_ASSIGN ∧ s_len s = 4%nat.
Proof.
  destruct (@words_correct (λ _, None) roomy_heap (bytes "while")) as [Hk _].
  destruct (@words_correct (λ _, None) roomy_heap (bytes ">>>=1")) as [_ Ho].
  split; [apply Hk; [done|]; exists "while"%string; split; [apply assoc_in; vm_compute; reflexivity|done]|].
  specialize (Ho ltac:(done) ltac:(vm_compute; reflexivity)). eexists. split; [vm_compute; reflexivity|by split].
Defined.
