(* ===== verification/LexNumber.v ===== *)
(** * The lexer: what numbers with a prefix mean

    The loops of [parse_binary], [parse_octal], [parse_legacy_octal] and [parse_hex] work in
    doubles.  Up to 2^53 nothing is rounded, and the number is the one that is written. *)

From stdpp Require Import base list strings.
From Stdlib Require Import Ascii.
From S2P Require Import Prelude Utils Utf8 BigIntApi BigIntNumber LexChars LexSkip LexScan LexBounds.

(** The value of a digit. *)
Definition digit_of (c : Z) : Z :=
  if between (CH "0") (CH "9") c then c - CH "0"
  else if between (CH "a") (CH "z") c then c - CH "a" + 10
  else if between (CH "A") (CH "Z") c then c - CH "A" + 10
  else 36.

(** [c] may stand in a number of base [base]: a digit, or a separator. *)
Definition radix_char (base c : Z) : bool := (digit_of c <? base) || (c =? CH "_").

(** The number that the digits make. *)
Definition radix_from (base acc : Z) (ds : list Z) : Z := foldl (λ v d, base * v + digit_of d) acc ds.

Definition radix (base : Z) (ds : list Z) : Z := radix_from base 0 (filter (λ c, c ≠ CH "_") ds).

Lemma digit_of_range c : 0 <= digit_of c.
Proof. unfold digit_of, between. repeat case_match; lia. Qed.

Lemma radix_from_ge base ds : 1 <= base → ∀ acc, 0 <= acc → acc <= radix_from base acc ds.
Proof.
  intros Hb. induction ds as [|d ds IH]; intros acc Ha; [done|]. pose proof (digit_of_range d).
  specialize (IH (base * acc + digit_of d) ltac:(nia)). change (acc <= radix_from base (base * acc + digit_of d) ds). nia.
Qed.

(** Below 2^53 no step rounds. *)
Lemma digits_exact base digit ds : 1 <= base → Forall (λ d, digit d = digit_of d) ds → ∀ acc, 0 <= acc → radix_from base acc ds < 2 ^ 53 →
  foldl (λ v c, step_double base v (digit c)) (Some acc) ds = Some (radix_from base acc ds).
Proof.
  intros Hb Hd. induction Hd as [|d ds Hd Hf IH]; intros acc Ha Hr; [done|]. cbn [foldl].
  change (radix_from base acc (d :: ds)) with (radix_from base (base * acc + digit_of d) ds) in *. pose proof (digit_of_range d).
  pose proof (radix_from_ge base ds Hb (base * acc + digit_of d) ltac:(nia)).
  unfold step_double at 2. cbn [mbind option_bind]. rewrite round_double_exact by lia. cbn [mbind option_bind].
  rewrite round_double_exact by lia. rewrite Hd, (Z.mul_comm acc). apply IH; [nia|done].
Qed.

(** The loops. *)
Lemma parse_digits_exact base is_char digit pre ds rest :
  1 <= base → Forall (λ d, is_char d = true ∧ (d ≠ CH "_" → digit d = digit_of d)) ds → rest = [] ∨ is_char (at_ rest 0) = false →
  radix base ds < 2 ^ 53 →
  parse_digits base is_char digit (length pre) (pre ++ ds ++ rest) = ((length pre + length ds)%nat, Finite false (radix base ds) 0).
Proof.
  intros Hb [Hf Hd]%Forall_and Hr Hv. unfold parse_digits. rewrite drop_app_length.
  rewrite count_while_to by done. rewrite take_app_length, digits_exact; [done|done| |done|done].
  apply Forall_forall. intros d [Hne Hin]%list_elem_of_filter. rewrite Forall_forall in Hd. by apply Hd.
Qed.

(** ** Numbers with a prefix *)

Definition radix_prefixes : list (Z * Z) := [(CH "b", 2); (CH "B", 2); (CH "o", 8); (CH "O", 8); (CH "x", 16); (CH "X", 16)].

(** Digits of base 2, 8 and 16 are those of the loops. *)
Lemma radix_char_loop base is_char digit :
  (base, is_char, digit) ∈
    [(2, λ c, (c =? CH "0") || (c =? CH "1") || (c =? CH "_"), λ c, c - CH "0");
     (8, λ c, IS_OCTAL c || (c =? CH "_"), λ c, c - CH "0");
     (16, λ c, IS_XDIGIT c || (c =? CH "_"),
       λ c, if CH "a" <=? c then c - CH "a" + 10 else if CH "A" <=? c then c - CH "A" + 10 else c - CH "0")] →
  ∀ c, byte_ok c → is_char c = radix_char base c ∧ (radix_char base c = true → c ≠ CH "_" → digit c = digit_of c).
Proof.
  intros Hin. enough (∀ c, byte_ok c → eqb (is_char c) (radix_char base c) &&
    (negb (radix_char base c) || (c =? CH "_") || (digit c =? digit_of c)) = true) as Hc.
  { intros c Hb. specialize (Hc c Hb). apply andb_true_iff in Hc as [He Hd]. apply eqb_prop in He. split; [done|].
    intros Hr Hu. rewrite Hr, (proj2 (Z.eqb_neq c _) Hu) in Hd. simpl in Hd. lia. }
  apply byte_cases. repeat (apply elem_of_cons in Hin as [[= -> -> ->]|Hin]; [vm_compute; reflexivity|]). by apply elem_of_nil in Hin.
Qed.

(** What may stand in a number may stand in a name. *)
Lemma radix_char_ident base c : base <= 36 → byte_ok c → is_ident_continue c = false → radix_char base c = false ∧ IS_OCTAL c = false.
Proof.
  intros Hb Hc Hi. assert (∀ c, byte_ok c → is_ident_continue c || (negb (radix_char 36 c) && negb (IS_OCTAL c)) = true) as Hall
    by (apply byte_cases; vm_compute; reflexivity).
  specialize (Hall c Hc). rewrite Hi in Hall. simpl in Hall. apply andb_true_iff in Hall as [Hr%negb_true_iff Ho%negb_true_iff].
  split; [|done]. unfold radix_char in *. apply orb_false_iff in Hr as [Hd ->]. rewrite orb_false_r. lia.
Qed.

Lemma radix_prefix_base l base : (l, base) ∈ radix_prefixes → 2 <= base <= 16.
Proof. intros Hin. repeat (apply elem_of_cons in Hin as [[= -> ->]|Hin]; [lia|]). by apply elem_of_nil in Hin. Qed.

Ltac solve_table := repeat first [apply list_elem_of_here | apply list_elem_of_further].

Section Numbers.

Context `{Numerals, Heap}.

(** What follows the digits decides between number, bigint and error. *)
Lemma parse_number_tail strict pre rest v :
  number_value strict (pre ++ rest) = inr (length pre, v) → rest = [] ∨ is_ident_continue (at_ rest 0) = false →
  parse_number strict (pre ++ rest) = mk_scan TOK_NUMBER (length pre) (Some v).
Proof.
  intros Hv Hr. assert (at_ (pre ++ rest) (length pre) = at_ rest 0) as Ha by (unfold at_; rewrite app_nth2, Nat.sub_diag by lia; done).
  unfold parse_number. rewrite Hv, Ha. unfold number_literal_has_invalid_tail.
  assert ((length pre <? length (pre ++ rest))%nat && is_ident_continue (at_ rest 0) = false) as Hi.
  { destruct Hr as [-> | ->]; [|by rewrite andb_false_r]. rewrite app_nil_r, Nat.ltb_irrefl. done. }
  assert ((length pre <? length (pre ++ rest))%nat && (at_ rest 0 =? CH "n") = false) as ->.
  { destruct (at_ rest 0 =? CH "n") eqn:En; [|by rewrite andb_false_r]. apply Z.eqb_eq in En. by rewrite En in Hi. }
  by rewrite Ha, Hi.
Qed.

Lemma parse_number_bigint strict pre rest v :
  number_value strict (pre ++ CH "n" :: rest) = inr (length pre, v) → rest = [] ∨ is_ident_continue (at_ rest 0) = false →
  parse_number strict (pre ++ CH "n" :: rest) = mk_scan TOK_BIGINT (S (length pre)) (Some v).
Proof.
  intros Hv Hr. assert (∀ k, at_ (pre ++ CH "n" :: rest) (k + length pre) = at_ (CH "n" :: rest) k) as Ha.
  { intros k. unfold at_. rewrite app_nth2 by lia. f_equal. lia. }
  pose proof (Ha 0%nat) as Ha0. pose proof (Ha 1%nat) as Ha1. simpl (_ + _)%nat in Ha0, Ha1.
  unfold parse_number. rewrite Hv, Ha0. change (at_ (CH "n" :: rest) 0 =? CH "n") with true.
  rewrite length_app. cbn [length]. rewrite (proj2 (Nat.ltb_lt _ _)) by lia. cbn [andb].
  unfold number_literal_has_invalid_tail. rewrite Ha1, length_app. cbn [length]. change (at_ (CH "n" :: rest) 1) with (at_ rest 0).
  destruct Hr as [-> | Hr].
  - rewrite (proj2 (Nat.ltb_ge _ _)) by (simpl; lia). done.
  - rewrite Hr, andb_false_r. done.
Qed.

(** The loops, from the prefix on. *)
Lemma number_value_radix strict l base ds rest :
  (l, base) ∈ radix_prefixes → Forall byte_ok ds → Forall byte_ok rest → Forall (λ d, radix_char base d = true) ds →
  rest = [] ∨ radix_char base (at_ rest 0) = false → radix base ds < 2 ^ 53 →
  number_value strict (CH "0" :: l :: ds ++ rest) = inr ((2 + length ds)%nat, Finite false (radix base ds) 0).
Proof.
  intros Hin Hbd Hbr Hf Hr Hv.
  assert (∀ is_char digit, (∀ c, byte_ok c → is_char c = radix_char base c ∧ (radix_char base c = true → c ≠ CH "_" → digit c = digit_of c)) →
    parse_digits base is_char digit 2 (CH "0" :: l :: ds ++ rest) = ((2 + length ds)%nat, Finite false (radix base ds) 0)) as Hp.
  { intros is_char digit Hc. apply (parse_digits_exact base is_char digit [CH "0"; l]).
    - apply radix_prefix_base in Hin. lia.
    - rewrite Forall_forall in *. intros d Hd. destruct (Hc d (Hbd d Hd)) as (-> & Hdig). split; [by apply Hf|apply Hdig; by apply Hf].
    - destruct Hr as [->|Hr]; [by left|right]. destruct rest as [|c rest]; [by rewrite <- Hr; apply (Hc 0); unfold byte_ok|].
      apply Forall_cons in Hbr as [Hbc _]. etrans; [apply (Hc c Hbc)|done].
    - done. }
  unfold number_value. cbn [at_ nth length]. simpl andb. cbv zeta.
  repeat (apply elem_of_cons in Hin as [[= -> ->]|Hin];
    [simpl; unfold parse_binary, parse_octal, parse_hex; rewrite Hp; [done|apply radix_char_loop; solve_table]|]).
  by apply elem_of_nil in Hin.
Qed.

Lemma octal_no_prefix d : byte_ok d → IS_OCTAL d = true →
  (d |' 0x20 =? CH "b") = false ∧ (d |' 0x20 =? CH "o") = false ∧ (d |' 0x20 =? CH "x") = false.
Proof.
  intros Hb Hd. assert (∀ c, byte_ok c → negb (IS_OCTAL c) || negb ((c |' 0x20 =? CH "b") || (c |' 0x20 =? CH "o") || (c |' 0x20 =? CH "x")) = true) as Hl
    by (apply byte_cases; vm_compute; reflexivity).
  specialize (Hl d Hb). rewrite Hd in Hl. simpl in Hl. by apply negb_true_iff, orb_false_iff in Hl as [[H1 H2]%orb_false_iff H3].
Qed.

Lemma number_value_legacy ds rest :
  Forall (λ d, IS_OCTAL d = true) ds → ds ≠ [] → Forall byte_ok ds → rest = [] ∨ IS_OCTAL (at_ rest 0) = false → radix 8 ds < 2 ^ 53 →
  number_value false (CH "0" :: ds ++ rest) = inr ((1 + length ds)%nat, Finite false (radix 8 ds) 0).
Proof.
  intros Hf Hne Hb Hr Hv. assert (parse_legacy_octal (CH "0" :: ds ++ rest) = ((1 + length ds)%nat, Finite false (radix 8 ds) 0)) as Hp.
  { apply (parse_digits_exact 8 _ _ [CH "0"]); [lia| |done|done]. rewrite Forall_forall in *. intros d Hd. split; [by apply Hf|]. intros Hu.
    destruct (radix_char_loop 8 (λ c, IS_OCTAL c || (c =? CH "_")) (λ c, c - CH "0") ltac:(solve_table) d (Hb d Hd)) as (He & Hdig).
    apply Hdig; [|done]. by rewrite <- He, (Hf d Hd). }
  destruct ds as [|d ds]; [done|]. apply Forall_cons in Hf as [Hd _]. apply Forall_cons in Hb as [Hbd _].
  destruct (octal_no_prefix d Hbd Hd) as (H1 & H2 & H3).
  unfold number_value. cbn [at_ nth length app]. cbn [app] in Hp. simpl andb. cbv zeta. rewrite H1, H2, H3, Hd, Hp. done.
Qed.

(** C25: a number with a prefix has the value that is written as long as that is below 2^53,
    with or without separators, and whatever follows that is not part of a name; behind [n] it is
    a bigint.  So has a number that starts with 0 and goes on in octal digits, which strict code
    may not have. *)
Theorem radix_number_correct strict l base ds rest :
  Forall byte_ok ds → Forall byte_ok rest → rest = [] ∨ is_ident_continue (at_ rest 0) = false → radix base ds < 2 ^ 53 →
  ((l, base) ∈ radix_prefixes → Forall (λ d, radix_char base d = true) ds →
   parse_number strict (CH "0" :: l :: ds ++ rest) = mk_scan TOK_NUMBER (2 + length ds) (Some (Finite false (radix base ds) 0)) ∧
   parse_number strict (CH "0" :: l :: ds ++ CH "n" :: rest) = mk_scan TOK_BIGINT (3 + length ds) (Some (Finite false (radix base ds) 0))) ∧
  (base = 8 → ds ≠ [] → Forall (λ d, between (CH "0") (CH "7") d = true) ds →
   parse_number strict (CH "0" :: ds ++ rest) =
     if strict then mk_scan TOK_ERR 1 None else mk_scan TOK_NUMBER (1 + length ds) (Some (Finite false (radix 8 ds) 0))).
Proof.
  intros Hbd Hbr Hr Hv. split.
  - intros Hin Hf. pose proof (radix_prefix_base _ _ Hin) as Hbase. split.
    + apply (parse_number_tail strict (CH "0" :: l :: ds)); [|done]. apply number_value_radix; try done.
      destruct rest as [|c rest]; [by left|right]. apply Forall_cons in Hbr as [Hc _]. destruct Hr as [?|Hr]; [done|].
      by apply (radix_char_ident base c); [lia|..].
    + apply (parse_number_bigint strict (CH "0" :: l :: ds)); [|done]. apply number_value_radix; try done; [by constructor|].
      right. change ((23 <? base) || false = false). rewrite orb_false_r. by apply Z.ltb_ge; lia.
  - intros -> Hne Hf. assert (Forall (λ d, IS_OCTAL d = true) ds) as Ho.
    { eapply Forall_impl; [exact (proj2 (Forall_and _ _) (conj Hbd Hf))|]. intros d [Hb Hd].
      assert (∀ c, byte_ok c → negb (between (CH "0") (CH "7") c) || IS_OCTAL c = true) as Hall by (apply byte_cases; vm_compute; reflexivity).
      specialize (Hall d Hb). by rewrite Hd in Hall. }
    destruct strict.
    + destruct ds as [|d ds]; [done|]. apply Forall_cons in Ho as [Ho _]. apply Forall_cons in Hbd as [Hb _].
      unfold parse_number, number_value. cbn [at_ nth length app]. cbn [Nat.ltb Nat.leb]. simpl andb. cbv zeta.
      destruct (octal_no_prefix d Hb Ho) as (-> & -> & ->). by rewrite Ho.
    + apply (parse_number_tail false (CH "0" :: ds)); [|done]. apply number_value_legacy; try done.
      destruct rest as [|c rest]; [by left|right]. apply Forall_cons in Hbr as [Hc _]. destruct Hr as [?|Hr]; [done|].
      by apply (radix_char_ident 8 c).
Qed.

End Numbers.

Lemma radix_number_correct_witness :
  parse_number (H := λ _, None) (H0 := roomy_heap) true (bytes "0xFF_ffn;") = mk_scan TOK_BIGINT 8 (Some (Finite false 65535 0)).
Proof.
  destruct (@radix_number_correct (λ _, None) roomy_heap true (CH "x") 16 (bytes "FF_ff") (bytes ";")) as [Hp _].
  1-2: apply (bool_decide_unpack _); vm_compute; exact I.
  1: by right.
  1: by vm_compute.
  apply Hp; [solve_table|by repeat constructor].
Defined.
