(* ===== verification/LexString.v ===== *)
(** * The lexer: what string literals mean

    [literal_text] gives the value of the text between the quotes as ECMAScript has it; the
    theorem is that the lexer finds the end of such a literal and computes its value, and that
    decoding any token stays within the token and its buffer. *)

From stdpp Require Import base list sets strings.
From Stdlib Require Import Ascii.
From S2P Require Import Prelude Utils Utf8 BigIntApi LexChars LexSkip LexScan LexLiteral LexBounds.

(** ** Decoding looks only at what follows *)

Lemma rd_drop s p k : rd s (p + k) = rd (drop p s) k.
Proof. unfold rd. by rewrite lookup_drop. Qed.

Lemma all_xdigits_drop s p n : ∀ k, all_xdigits s (p + k) n = all_xdigits (drop p s) k n.
Proof.
  induction n as [|n IH]; intros k; [done|]. cbn [all_xdigits]. rewrite rd_drop. destruct (rd (drop p s) k); [|done..]. simpl.
  case_match; [|done]. rewrite <- IH. f_equal. lia.
Qed.

Lemma hex_value_drop s p n : ∀ k acc, hex_value s (p + k) n acc = hex_value (drop p s) k n acc.
Proof.
  induction n as [|n IH]; intros k acc; [done|]. cbn [hex_value]. rewrite rd_drop. destruct (rd (drop p s) k); [|done..]. simpl.
  rewrite <- IH. f_equal. lia.
Qed.

(** The number that hexadecimal digits make. *)
Definition hexv (acc : Z) (ds : list Z) : Z := foldl (λ a d, 16 * a + unhex d) acc ds.

Lemma unhex_range c : is_xdigit c = true → 0 <= unhex c < 16.
Proof.
  intros Hx. assert (byte_ok c) as Hc.
  { unfold is_xdigit, between in Hx. unfold byte_ok. lia. }
  revert c Hc Hx. enough (∀ c, byte_ok c → negb (is_xdigit c) || ((0 <=? unhex c) && (unhex c <? 16)) = true) as Hb.
  { intros c Hc Hx. specialize (Hb c Hc). rewrite Hx in Hb. simpl in Hb. lia. }
  apply byte_cases. vm_compute. reflexivity.
Qed.

Lemma hex_step acc c : is_xdigit c = true → (acc <<' 4) |' unhex c = 16 * acc + unhex c.
Proof.
  intros Hx. pose proof (unhex_range c Hx). rewrite shiftl_mul, lor_add_low by lia. change (2 ^ 4) with 16. lia.
Qed.

Lemma all_xdigits_spec ds : ∀ s k, Forall (λ c, is_xdigit c = true) ds → take (length ds) (drop k s) = ds →
  all_xdigits s k (length ds) = Ok true.
Proof.
  induction ds as [|c ds IH]; intros s k Hd Ht; [done|]. apply Forall_cons in Hd as [Hc Hd].
  destruct (drop k s) as [|x r] eqn:E; [done|]. injection Ht as -> Ht. cbn [all_xdigits length]. unfold rd.
  assert (s !! k = Some c) as -> by (rewrite <- (Nat.add_0_r k), <- lookup_drop, E; done). simpl. rewrite Hc. apply IH; [done|].
  replace (S k) with (k + 1)%nat by lia. rewrite <- drop_drop, E. done.
Qed.

Lemma hex_value_spec ds : ∀ s k acc, Forall (λ c, is_xdigit c = true) ds → take (length ds) (drop k s) = ds →
  hex_value s k (length ds) acc = Ok (hexv acc ds).
Proof.
  induction ds as [|c ds IH]; intros s k acc Hd Ht; [done|]. apply Forall_cons in Hd as [Hc Hd].
  destruct (drop k s) as [|x r] eqn:E; [done|]. injection Ht as -> Ht. cbn [hex_value length]. unfold rd.
  assert (s !! k = Some c) as -> by (rewrite <- (Nat.add_0_r k), <- lookup_drop, E; done). simpl.
  rewrite hex_step by done. apply IH; [done|]. replace (S k) with (k + 1)%nat by lia. rewrite <- drop_drop, E. done.
Qed.

Lemma hexv_range ds : ∀ acc, Forall (λ c, is_xdigit c = true) ds → 0 <= acc →
  0 <= hexv acc ds < 16 ^ zlen ds * (acc + 1).
Proof.
  unfold zlen. induction ds as [|c ds IH]; intros acc Hd Ha; [simpl; lia|]. apply Forall_cons in Hd as [Hc Hd].
  pose proof (unhex_range c Hc). specialize (IH (16 * acc + unhex c) Hd ltac:(lia)).
  cbn [hexv foldl length]. fold (hexv (16 * acc + unhex c) ds). rewrite Nat2Z.inj_succ, Z.pow_succ_r by lia.
  assert (0 < 16 ^ Z.of_nat (length ds)) by (apply Z.pow_pos_nonneg; lia). nia.
Qed.

(** ** What escapes mean *)

(** [SingleEscapeCharacter]: what each stands for. *)
Definition single_escapes : list (Z * Z) :=
  [(CH "n", 10); (CH "t", 9); (CH "r", 13); (CH "v", 11); (CH "f", 12); (CH "b", 8); (CH "\", CH "\"); (34, 34); (39, 39)].

Definition decimal_digit (c : Z) : bool := between (CH "0") (CH "9") c.

(** [cp] is the first half of a pair whose second is the escape at the head of [rest]. *)
Definition low_follows (cp : Z) (rest : list Z) : bool :=
  between 0xD800 0xDBFF cp &&
  match rest with
  | a :: b :: c :: d :: e :: f :: _ =>
      (a =? CH "\") && (b =? CH "u") && forallb is_xdigit [c; d; e; f] &&
      between 0xDC00 0xDFFF (hexv 0 [c; d; e; f])
  | _ => false
  end.

(** The number that octal digits make. *)
Definition octv (ds : list Z) : Z := foldl (λ a d, 8 * a + (d - CH "0")) 0 ds.

(** [ds] are the digits of an octal escape before [rest]: as many as there are, up to three, while
    the number stays below 256. *)
Definition octal_escape (ds rest : list Z) : Prop :=
  Forall (λ d, is_octal_digit d = true) ds ∧
  match ds with
  | [a] => a ≠ CH "0" ∧ is_octal_digit (at_ rest 0) = false
  | [a; b] => CH "4" <= a ∨ is_octal_digit (at_ rest 0) = false
  | [a; b; c] => a < CH "4"
  | _ => False
  end.

(** The text [e] behind a backslash and before [rest] stands for [bs], in ECMAScript.  A surrogate
    that is not half of a pair of two escapes is stored as it is. *)
Inductive escape_value (strict : bool) : list Z → list Z → list Z → Prop :=
  | esc_single c b rest : (c, b) ∈ single_escapes → escape_value strict [c] rest [b]
  | esc_nul rest : decimal_digit (at_ rest 0) = false → escape_value strict [CH "0"] rest [0]
  | esc_hex d e rest : is_xdigit d = true → is_xdigit e = true → escape_value strict [CH "x"; d; e] rest (enc (hexv 0 [d; e]))
  | esc_fixed ds rest :
      Forall (λ d, is_xdigit d = true) ds → length ds = 4%nat → low_follows (hexv 0 ds) rest = false →
      escape_value strict (CH "u" :: ds) rest (enc (hexv 0 ds))
  | esc_pair ds es rest :
      Forall (λ d, is_xdigit d = true) ds → length ds = 4%nat → 0xD800 <= hexv 0 ds <= 0xDBFF →
      Forall (λ d, is_xdigit d = true) es → length es = 4%nat → 0xDC00 <= hexv 0 es <= 0xDFFF →
      escape_value strict (CH "u" :: ds ++ CH "\" :: CH "u" :: es) rest
        (enc (0x10000 + 0x400 * (hexv 0 ds - 0xD800) + (hexv 0 es - 0xDC00)))
  | esc_braced ds rest :
      Forall (λ d, is_xdigit d = true) ds → ds ≠ [] → hexv 0 ds <= 0x10FFFF →
      escape_value strict (CH "u" :: CH "{" :: ds ++ [CH "}"]) rest (enc (hexv 0 ds))
  | esc_octal ds rest : strict = false → octal_escape ds rest → escape_value strict ds rest (enc (octv ds))
  | esc_nul_89 rest : strict = false → at_ rest 0 = CH "8" ∨ at_ rest 0 = CH "9" → escape_value strict [CH "0"] rest [0]
  | esc_89 c rest : strict = false → c = CH "8" ∨ c = CH "9" → escape_value strict [c] rest [c]
  | esc_other c rest :
      c ∉ single_escapes.*1 → c ≠ CH "x" → c ≠ CH "u" → decimal_digit c = false → c ≠ 10 → c ≠ 13 →
      (c = 0xE2 → take 2 rest ≠ [0x80; 0xA8] ∧ take 2 rest ≠ [0x80; 0xA9]) →
      escape_value strict [c] rest [c].

(** [LineTerminatorSequence]: a line feed, a carriage return, both, and the separators U+2028 and
    U+2029. *)
Definition line_ends : list (list Z) := [[10]; [13]; [13; 10]; [0xE2; 0x80; 0xA8]; [0xE2; 0x80; 0xA9]].

(** The text between two quotes with its value [v] in ECMAScript.  It has [n] line continuations, a
    backslash before the end of a line, which stand for nothing; [w] is the value with these line
    ends left in it. *)
Inductive literal_text (strict : bool) (quote : Z) : nat → list Z → list Z → list Z → Prop :=
  | lit_end : literal_text strict quote 0 [] [] []
  | lit_char c n s v w :
      c ≠ CH "\" → c ≠ quote → c ≠ 10 → c ≠ 13 → literal_text strict quote n s v w →
      literal_text strict quote n (c :: s) (c :: v) (c :: w)
  | lit_escape e n s bs v w :
      escape_value strict e s bs → literal_text strict quote n s v w →
      literal_text strict quote n (CH "\" :: e ++ s) (bs ++ v) (bs ++ w)
  | lit_continuation lt n s v w :
      lt ∈ line_ends → (lt = [13] → at_ s 0 ≠ 10) → literal_text strict quote n s v w →
      literal_text strict quote (S n) (CH "\" :: lt ++ s) v (lt ++ w).

Section Decode.

Context `{Unicode}.

Lemma byte_is_drop s p k n c : (p ≤ n)%nat → byte_is s (p + k) n c = byte_is (drop p s) k (n - p) c.
Proof.
  intros Hp. unfold byte_is. rewrite rd_drop. replace (p + k <? n)%nat with (k <? n - p)%nat; [done|].
  destruct (Nat.ltb_spec k (n - p)), (Nat.ltb_spec (p + k) n); (done || lia).
Qed.

Lemma xdigits_before_drop s p k m n : (p ≤ n)%nat → xdigits_before s (p + k) m n = xdigits_before (drop p s) k m (n - p).
Proof.
  intros Hp. unfold xdigits_before. rewrite all_xdigits_drop. replace (p + k + m <=? n)%nat with (k + m <=? n - p)%nat; [done|].
  destruct (Nat.leb_spec (k + m) (n - p)), (Nat.leb_spec (p + k + m) n); (done || lia).
Qed.

Lemma braced_loop_drop rounds s p n : ∀ k cp, (p ≤ n)%nat →
  braced_loop rounds s (p + k) n cp = (r ← braced_loop rounds (drop p s) k (n - p) cp; Ok ((p + r.1)%nat, r.2)).
Proof.
  induction rounds as [|rounds IH]; intros k cp Hp; [done|]. cbn [braced_loop].
  replace (p + k <? n)%nat with (k <? n - p)%nat by (destruct (Nat.ltb_spec k (n - p)), (Nat.ltb_spec (p + k) n); (done || lia)).
  destruct (k <? n - p)%nat; [|done]. rewrite rd_drop. destruct (rd (drop p s) k) as [c|e|]; [|done..]. simpl.
  destruct (is_xdigit c); [|done]. rewrite <- IH by done. f_equal. lia.
Qed.

Lemma bind_ext {A B} (o : outcome A) (f g : A → outcome B) : (∀ x, f x = g x) → o ≫= f = o ≫= g.
Proof. intros Hfg. destruct o; [apply Hfg|done..]. Qed.

Lemma decode_escape_drop s p cap out q :
  (p ≤ length s)%nat → decode_escape s p (length s) cap out q = decode_escape (drop p s) 0 (length (drop p s)) cap out q.
Proof.
  intros Hp. rewrite length_drop. unfold decode_escape. rewrite (rd_drop s p). apply bind_ext. intros c.
  destruct (simple_escape c); [done|]. destruct (is_octal_digit c).
  { unfold is_octal_escape, decode_octal_escape, octal_value. by rewrite !(rd_drop s p). }
  destruct (c =? CH "x").
  { rewrite (xdigits_before_drop s p) by done. apply bind_ext. intros [|]; [|done]. unfold decode_hex_escape. by rewrite (hex_value_drop s p). }
  destruct (c =? CH "u"); [|done]. rewrite (byte_is_drop s p) by done. apply bind_ext. intros [|].
  - unfold decode_unicode_braced. rewrite (braced_loop_drop _ s p) by done.
    replace (length s - (p + 3))%nat with (length s - p - (0 + 3))%nat by lia. simpl (0 + 3)%nat.
    destruct (braced_loop _ _ _ _ _) as [[i cp]|e|]; [|done..]. simpl. rewrite (byte_is_drop s p) by done. apply bind_ext. intros [|]; [|done].
    apply bind_ext. intros o. do 2 f_equal. lia.
  - rewrite (xdigits_before_drop s p) by done. apply bind_ext. intros [|]; [|done]. unfold decode_unicode_fixed, low_half_at, unicode_escape_at.
    rewrite !(hex_value_drop s p). apply bind_ext. intros cp.
    replace (p + 11 <? length s)%nat with (0 + 11 <? length s - p)%nat
      by (destruct (Nat.ltb_spec (0 + 11) (length s - p)), (Nat.ltb_spec (p + 11) (length s)); (done || lia)).
    rewrite <- !Nat.add_assoc, !(rd_drop s p), (all_xdigits_drop s p). done.
Qed.

(** ** Decoding stays in the token *)

(** The last byte is a quote. *)
Definition ends_quoted (s : list Z) : Prop := ∃ t q, s = t ++ [q] ∧ (q = 34 ∨ q = 39).

Lemma ends_quoted_lookup s k c : ends_quoted s → s !! k = Some c → c ≠ 34 → c ≠ 39 → (S k < length s)%nat.
Proof.
  intros (t & q & -> & Hq) Hk H34 H39. rewrite length_app. simpl. apply lookup_lt_Some in Hk as Hl. rewrite length_app in Hl. simpl in Hl.
  destruct (decide (k = length t)) as [->|]; [|lia]. rewrite list_lookup_middle in Hk by done. simplify_eq. lia.
Qed.

Lemma rd_lt s k : (k < length s)%nat → ∃ c, s !! k = Some c ∧ rd s k = Ok c.
Proof. intros [c E]%lookup_lt_is_Some_2. exists c. unfold rd. by rewrite E. Qed.

Lemma all_xdigits_total s n : ∀ k, (k + n ≤ length s)%nat →
  ∃ b, all_xdigits s k n = Ok b ∧ (b = true → Forall (λ c, is_xdigit c = true) (take n (drop k s)) ∧ length (take n (drop k s)) = n).
Proof.
  induction n as [|n IH]; intros k Hk; [exists true; split; [done|]; rewrite take_0; by split|].
  destruct (rd_lt s k) as (c & E & Er); [lia|]. cbn [all_xdigits]. rewrite Er. simpl. destruct (is_xdigit c) eqn:Ex; [|by exists false].
  destruct (IH (S k)) as (b & Eb & Hb); [lia|]. exists b. split; [done|]. intros ->. destruct (Hb eq_refl) as [Hf Hl].
  rewrite (drop_S _ _ _ E). simpl. split; [by constructor|lia].
Qed.

(** What an escape does: [bs] is written, and the escape reaches [adv] bytes behind its first two. *)
Definition escapes (s : list Z) (q : Z) (bs : list Z) (adv : nat) : Prop :=
  (∀ cap out, decode_escape s 0 (length s) cap out q = (o ← put cap out bs; Ok (adv, o))) ∧
  (length bs ≤ adv + 2 ≤ length s)%nat.

Lemma encode_length cp : 0 <= cp < 2 ^ 32 →
  (length (utf8_encode cp) ≤ (if (cp <? 0x800)%Z then 2 else if (cp <? 0x10000)%Z then 3 else 4))%nat.
Proof.
  intros Hc. unfold utf8_encode. destruct (Z.ltb_spec cp 0x110000).
  - rewrite utf8proc_encode_codepoint by lia. unfold enc. repeat case_ltb; simpl; lia.
  - rewrite utf8proc_encode_none by lia. simpl. lia.
Qed.

Lemma braced_loop_total rounds s : ∀ k cp, 0 <= cp < 2 ^ 32 → (k ≤ length s)%nat →
  ∃ i cp', braced_loop rounds s k (length s) cp = Ok (i, cp') ∧ (k ≤ i ≤ length s)%nat ∧ 0 <= cp' < 2 ^ 32.
Proof.
  induction rounds as [|rounds IH]; intros k cp Hcp Hk; [exists k, cp; split; [done|]; lia|]. cbn [braced_loop].
  destruct (Nat.ltb_spec k (length s)); [|exists k, cp; split; [done|]; lia].
  destruct (rd_lt s k) as (c & E & ->); [done|]. simpl. destruct (is_xdigit c) eqn:Ex; [|exists k, cp; split; [done|]; lia].
  pose proof (unhex_range c Ex). pose proof (u32_range (cp <<' 4)).
  assert (0 <= u32 (cp <<' 4) |' unhex c < 2 ^ 32).
  { replace (u32 (cp <<' 4)) with (u32 (cp <<' 4) / 2 ^ 4 * 2 ^ 4) by (rewrite shiftl_mul by lia; word).
    rewrite lor_add_low by lia. rewrite shiftl_mul in * by lia. word. }
  destruct (IH (S k) (u32 (cp <<' 4) |' unhex c)) as (i & cp' & -> & Hi & Hc'); [done|lia|]. exists i, cp'. split; [done|]. lia.
Qed.

Lemma escapes_one s q c b : s !! 1%nat = Some c → (∀ cap out, decode_escape s 0 (length s) cap out q = (o ← put cap out [b]; Ok (0%nat, o))) →
  escapes s q [b] 0.
Proof. intros Hl%lookup_lt_Some Hd. split; [done|]. simpl. lia. Qed.

Lemma escapes_octal s q c :
  ends_quoted s → s !! 1%nat = Some c → simple_escape c = None → is_octal_digit c = true → ∃ bs adv, escapes s q bs adv.
Proof.
  intros Hq Hc Hse Ho. assert (∀ d, is_octal_digit d = true → d ≠ 34 ∧ d ≠ 39 ∧ 0 <= d - 48 <= 7) as Hd
    by (unfold is_octal_digit, between; lia).
  pose proof (Hd c Ho) as (? & ? & ?). assert (2 < length s)%nat as Hl2 by (by eapply ends_quoted_lookup).
  destruct (rd_lt s 2) as (d & E2 & Er2); [done|]. assert (rd s 1 = Ok c) as Er1 by (unfold rd; by rewrite Hc).
  assert (is_octal_escape s 0 = Ok (if c =? CH "0" then is_octal_digit d else true)) as Hoct.
  { unfold is_octal_escape. simpl (0 + _)%nat. rewrite Er1. simpl. rewrite Ho. destruct (c =? 48); [by rewrite Er2|done]. }
  assert (∃ v n, octal_value s 0 = Ok (v, n) ∧ 0 <= v <= 255 ∧ (n + 2 ≤ length s)%nat) as (v & n & Hv & Hr & Hn).
  { unfold octal_value. simpl (0 + _)%nat. rewrite Er1. simpl. rewrite Er2. simpl. destruct (is_octal_digit d) eqn:Eo2.
    - pose proof (Hd d Eo2) as (? & ? & ?). assert (3 < length s)%nat by (by eapply ends_quoted_lookup).
      destruct (rd_lt s 3) as (e & E3 & Er3); [done|]. rewrite Er3. simpl. destruct (is_octal_digit e) eqn:Eo3; simpl.
      + pose proof (Hd e Eo3) as (? & ? & ?). destruct (Z.leb_spec (((c - 48) * 8 + (d - 48)) * 8 + (e - 48)) 255).
        * eexists _, 2%nat. split; [reflexivity|]. lia.
        * eexists _, 1%nat. split; [reflexivity|]. lia.
      + eexists _, 1%nat. split; [reflexivity|]. lia.
    - eexists _, 0%nat. split; [reflexivity|]. lia. }
  destruct (if c =? CH "0" then is_octal_digit d else true) eqn:Eo.
  - exists (utf8_encode v), n. split.
    + intros cap out. unfold decode_escape. simpl (0 + 1)%nat. rewrite Er1. simpl. rewrite Hse, Ho, Hoct. simpl.
      unfold decode_octal_escape. rewrite Hv. done.
    + pose proof (encode_length v ltac:(lia)) as He. rewrite (proj2 (Z.ltb_lt v 0x800)) in He by lia. lia.
  - exists [0], 0%nat. apply (escapes_one s q c); [done|]. intros cap out. unfold decode_escape. simpl (0 + 1)%nat. rewrite Er1. simpl.
    rewrite Hse, Ho, Hoct. done.
Qed.

#[local] Arguments all_xdigits : simpl never.
#[local] Arguments hex_value : simpl never.
#[local] Arguments hexv : simpl never.

(** A call of [all_xdigits] that says yes has read digits. *)
Lemma xdigits_before_total s k n :
  ∃ b, xdigits_before s k n (length s) = Ok b ∧
    (b = true → (k + n ≤ length s)%nat ∧ ∃ ds, take n (drop k s) = ds ∧ length ds = n ∧ Forall (λ c, is_xdigit c = true) ds).
Proof.
  unfold xdigits_before. destruct (Nat.leb_spec (k + n) (length s)); [|by exists false].
  destruct (all_xdigits_total s n k) as (b & E & Hb); [done|]. exists b. split; [done|]. intros Et. destruct (Hb Et). by eauto.
Qed.

Lemma hex_value_total s k n : Forall (λ c, is_xdigit c = true) (take n (drop k s)) → length (take n (drop k s)) = n →
  hex_value s k n 0 = Ok (hexv 0 (take n (drop k s))) ∧ 0 <= hexv 0 (take n (drop k s)) < 16 ^ Z.of_nat n.
Proof.
  intros Hf Hl. pose proof (hex_value_spec _ s k 0 Hf) as Hv. pose proof (hexv_range _ 0 Hf) as Hr. unfold zlen in Hr. rewrite Hl in Hv, Hr.
  split; [by apply Hv|]. lia.
Qed.

Lemma escapes_hex s q : s !! 1%nat = Some (CH "x") → ∃ bs adv, escapes s q bs adv.
Proof.
  intros Hc. assert (rd s 1 = Ok (CH "x")) as Er1 by (unfold rd; by rewrite Hc).
  destruct (xdigits_before_total s 2 2) as (b & Eb & Hb). destruct b.
  - destruct (Hb eq_refl) as (Hl & ds & Eds & Hlen & Hf). subst ds. destruct (hex_value_total s 2 2 Hf Hlen) as [Hv Hr].
    exists (utf8_encode (hexv 0 (take 2 (drop 2 s)))), 2%nat. split.
    + intros cap out. unfold decode_escape. simpl (0 + _)%nat. rewrite Er1. simpl. rewrite Eb. simpl. unfold decode_hex_escape. change (0 + 2)%nat with 2%nat. by rewrite Hv.
    + pose proof (encode_length (hexv 0 (take 2 (drop 2 s))) ltac:(lia)) as He. repeat case_match; lia.
  - exists [CH "x"], 0%nat. apply (escapes_one s q (CH "x")); [done|]. intros cap out. unfold decode_escape. simpl (0 + _)%nat. rewrite Er1. simpl.
    by rewrite Eb.
Qed.

Lemma byte_is_total s k c : ∃ b, byte_is s k (length s) c = Ok b ∧ (b = true ↔ s !! k = Some c).
Proof.
  unfold byte_is. destruct (Nat.ltb_spec k (length s)) as [Hl|Hl].
  - destruct (rd_lt s k Hl) as (d & E & ->). simpl. eexists. split; [done|]. rewrite E. split; [intros ->%Z.eqb_eq; done|intros [= ->]; apply Z.eqb_refl].
  - exists false. split; [done|]. rewrite lookup_ge_None_2 by done. done.
Qed.

Lemma escapes_braced s q : s !! 1%nat = Some (CH "u") → s !! 2%nat = Some (CH "{") → ∃ bs adv, escapes s q bs adv.
Proof.
  intros Hc Hc2. assert (rd s 1 = Ok (CH "u")) as Er1 by (unfold rd; by rewrite Hc). apply lookup_lt_Some in Hc2 as Hl2.
  destruct (byte_is_total s 2 (CH "{")) as (b0 & Eb & Hb). rewrite (proj2 Hb Hc2) in Eb. clear Hb.
  destruct (braced_loop_total (length s - 3) s 3 0) as (i & cp & El & Hi & Hcp); [lia..|].
  destruct (byte_is_total s i (CH "}")) as (b & Ec & Hb').
  assert (∀ cap out, decode_escape s 0 (length s) cap out q =
    if b then (o ← put cap out (utf8_encode cp); Ok ((i - 1)%nat, o)) else (o ← put cap out [CH "u"]; Ok (0%nat, o))) as Hd.
  { intros cap out. unfold decode_escape. simpl (0 + _)%nat. rewrite Er1. simpl. rewrite Eb. simpl. unfold decode_unicode_braced. simpl (0 + _)%nat.
    rewrite El. simpl. rewrite Ec. simpl. destruct b; [|done]. by rewrite Nat.sub_0_r. }
  destruct b.
  - apply proj1 in Hb'. specialize (Hb' eq_refl). apply lookup_lt_Some in Hb' as Hli.
    exists (utf8_encode cp), (i - 1)%nat. split; [done|].
    pose proof (encode_length cp Hcp) as He. repeat case_match; lia.
  - exists [CH "u"], 0%nat. by apply (escapes_one s q (CH "u")).
Qed.

(** The low half behind a high half, if it is there, has its six bytes before the end. *)
Lemma low_half_total s cp : ∃ low, low_half_at s 0 (length s) cp = Ok low ∧
  (∀ lo, low = Some lo → between 0xD800 0xDBFF cp = true ∧ 0xDC00 <= lo <= 0xDFFF ∧ (12 ≤ length s)%nat).
Proof.
  unfold low_half_at. destruct (between _ _ cp); [|by exists None]. destruct (Nat.ltb_spec (0 + 11) (length s)) as [Hl|Hl]; [|by exists None].
  unfold unicode_escape_at. simpl in Hl |- *.
  destruct (rd_lt s 6) as (a & E6 & ->); [lia|]. simpl. destruct (negb _); [by exists None|].
  destruct (rd_lt s 7) as (b & E7 & ->); [lia|]. simpl. destruct (negb _); [by exists None|].
  destruct (all_xdigits_total s 4 8) as (b' & E & Hb); [lia|]. rewrite E. simpl. destruct b'; [|by exists None].
  destruct (Hb eq_refl) as [Hf Hlen]. destruct (hex_value_total s 8 4 Hf Hlen) as [-> _]. simpl.
  eexists. split; [done|]. intros lo Elo. destruct (between _ _ (hexv 0 _)) eqn:Eb; simplify_eq. unfold between in Eb. split; [done|]. lia.
Qed.

Lemma escapes_fixed s q : s !! 1%nat = Some (CH "u") → s !! 2%nat ≠ Some (CH "{") → ∃ bs adv, escapes s q bs adv.
Proof.
  intros Hc Hc2. assert (rd s 1 = Ok (CH "u")) as Er1 by (unfold rd; by rewrite Hc).
  destruct (byte_is_total s 2 (CH "{")) as (b0 & Eb0 & Hb0). destruct b0; [by destruct (Hc2 (proj1 Hb0 eq_refl))|].
  destruct (xdigits_before_total s 2 4) as (b & Eb & Hb).
  assert (∀ cap out, decode_escape s 0 (length s) cap out q =
    if b then decode_unicode_fixed s 0 (length s) cap out else (o ← put cap out [CH "u"]; Ok (0%nat, o))) as Hd.
  { intros cap out. unfold decode_escape. simpl (0 + _)%nat. rewrite Er1. simpl. rewrite Eb0. simpl. by rewrite Eb. }
  destruct b; [|exists [CH "u"], 0%nat; by apply (escapes_one s q (CH "u"))].
  destruct (Hb eq_refl) as (Hl & ds & Eds & Hlen & Hf). subst ds. destruct (hex_value_total s 2 4 Hf Hlen) as [Hv Hr].
  set (cp := hexv 0 (take 4 (drop 2 s))) in *. destruct (low_half_total s cp) as (low & El & Hlow).
  unfold decode_unicode_fixed in Hd. simpl (0 + _)%nat in Hd. rewrite Hv in Hd. simpl in Hd. rewrite El in Hd. simpl in Hd.
  destruct low as [lo|].
  - destruct (Hlow lo eq_refl) as (Hb1 & Hlo & H12). unfold between in Hb1. eexists _, 10%nat. split; [exact Hd|].
    rewrite shiftl_mul by lia. pose proof (encode_length (0x10000 + (cp - 0xD800) * 2 ^ 10 + (lo - 0xDC00)) ltac:(lia)) as He.
    repeat case_match; lia.
  - eexists _, 4%nat. split; [exact Hd|]. pose proof (encode_length cp ltac:(lia)) as He. repeat case_match; lia.
Qed.

(** An escape before a closing quote is decoded without a read past the quote, and writes no
    more bytes than it has. *)
Lemma decode_safe s q : ends_quoted s → (2 ≤ length s)%nat → ∃ bs adv, escapes s q bs adv.
Proof.
  intros Hq Hl. destruct (rd_lt s 1) as (c & Ec & Er); [lia|].
  destruct (simple_escape c) as [b|] eqn:Es.
  { exists [b], 0%nat. apply (escapes_one s q c); [done|]. intros cap out. unfold decode_escape. simpl (0 + 1)%nat. rewrite Er. simpl. by rewrite Es. }
  destruct (is_octal_digit c) eqn:Eo; [by eapply escapes_octal|].
  destruct (Z.eqb_spec c (CH "x")) as [->|Hx]; [by apply escapes_hex|].
  destruct (Z.eqb_spec c (CH "u")) as [->|Hu].
  { destruct (decide (s !! 2%nat = Some (CH "{"))); [by apply escapes_braced|by apply escapes_fixed]. }
  eexists [_], 0%nat. apply (escapes_one s q c); [done|]. intros cap out. unfold decode_escape. simpl (0 + 1)%nat. rewrite Er. simpl. rewrite Es, Eo.
  rewrite (proj2 (Z.eqb_neq c _) Hx), (proj2 (Z.eqb_neq c _) Hu). done.
Qed.

Lemma put_ok cap out bs : (length out + length bs ≤ cap)%nat → put cap out bs = Ok (out ++ bs).
Proof. intros Hl. unfold put. by rewrite (proj2 (Nat.leb_le _ _)). Qed.

Lemma is_octal_total s p : ends_quoted s → (p + 1 < length s)%nat → ∃ b, is_octal_escape s p = Ok b.
Proof.
  intros Hq Hl. unfold is_octal_escape. destruct (rd_lt s (p + 1)) as (c & Ec & ->); [done|]. simpl.
  destruct (is_octal_digit c) eqn:Eo; [|eauto]. destruct (c =? 48); [|eauto].
  assert (S (p + 1) < length s)%nat as Hl2 by (eapply ends_quoted_lookup; [done..| |]; unfold is_octal_digit, between in Eo; lia).
  destruct (rd_lt s (p + 2)) as (d & _ & ->); [lia|]. simpl. eauto.
Qed.

Lemma ends_quoted_drop s p : ends_quoted s → (p < length s)%nat → ends_quoted (drop p s).
Proof.
  intros (t & q & -> & Hq) Hp. rewrite length_app in Hp. simpl in Hp. exists (drop p t), q. split; [|done]. rewrite drop_app_le by lia. done.
Qed.

(** A token that ends in a quote is decoded without a read or a write out of range. *)
Lemma literal_loop_safe strict s : ends_quoted s → ∀ rounds n2 out,
  (length s ≤ n2 + rounds)%nat → (n2 < length s)%nat → (length out ≤ n2)%nat →
  literal_loop rounds strict s n2 out ≠ Ub ∧ (∀ v, literal_loop rounds strict s n2 out = Ok v → (length v < length s)%nat).
Proof.
  intros Hq. induction rounds as [|rounds IH]; intros n2 out Hr Hn Ho; [lia|]. cbn [literal_loop].
  destruct (Nat.ltb_spec (n2 + 2) (length s)) as [Hl|Hl]; [|split; [done|]; intros v [= <-]; lia].
  destruct (rd_lt s (S n2)) as (c & Ec & ->); [lia|]. simpl. destruct (Z.eqb_spec c 92) as [->|Hc].
  - assert (∃ b, (if strict then is_octal_escape s (S n2) else Ok false) = Ok b) as [b ->].
    { destruct strict; [apply is_octal_total; [done|lia]|eauto]. }
    simpl. destruct b; [by split|]. destruct (rd_lt s 0) as (q & _ & ->); [lia|]. simpl.
    rewrite decode_escape_drop by lia.
    destruct (decode_safe (drop (S n2) s) q) as (bs & adv & Hd & Hadv); [apply ends_quoted_drop; [done|lia]|rewrite length_drop; lia|].
    rewrite length_drop in Hadv. rewrite Hd, put_ok by lia. simpl. apply IH; rewrite ?length_app; lia.
  - rewrite put_ok by (simpl; lia). simpl. apply IH; rewrite ?length_app; simpl; lia.
Qed.

(** ** Escapes are decoded to what they mean *)

(** Behind [rest] stands the closing quote. *)
Definition decodes (strict : bool) (e rest bs : list Z) : Prop :=
  ∀ q, q = 34 ∨ q = 39 →
    (∀ cap out, decode_escape (CH "\" :: e ++ rest ++ [q]) 0 (length (CH "\" :: e ++ rest ++ [q])) cap out q
       = (o ← put cap out bs; Ok ((length e - 1)%nat, o))) ∧
    (strict = true → is_octal_escape (CH "\" :: e ++ rest ++ [q]) 0 = Ok false).

Lemma decodes_single strict c b rest : (c, b) ∈ single_escapes → decodes strict [c] rest [b].
Proof.
  intros Hin q [-> | ->]; unfold single_escapes in Hin;
    repeat (apply elem_of_cons in Hin as [[= -> ->]|Hin]; [by split|]); by apply elem_of_nil in Hin.
Qed.

Lemma head_quoted (f : Z → bool) rest q : f 34 = false → f 39 = false → q = 34 ∨ q = 39 → f (at_ rest 0) = false →
  ∃ d r, rest ++ [q] = d :: r ∧ f d = false.
Proof. intros Hf Hf' Hq Hr. destruct rest as [|d r]; [|by exists d, (r ++ [q])]. exists q, []. by destruct Hq as [-> | ->]. Qed.

Lemma decodes_nul strict rest : is_octal_digit (at_ rest 0) = false → decodes strict [CH "0"] rest [0].
Proof.
  intros Hr q Hq. destruct (head_quoted is_octal_digit rest q) as (d & r & -> & Hd); [done..|].
  split; [intros cap out|intros _]; unfold decode_escape, is_octal_escape; simpl; by rewrite Hd.
Qed.

Lemma digit_octal c : decimal_digit c = false → is_octal_digit c = false.
Proof. unfold decimal_digit, is_octal_digit, between. lia. Qed.

Lemma xdigits_before_spec ds s k n : Forall (λ c, is_xdigit c = true) ds → length ds = n → take n (drop k s) = ds → (k + n ≤ length s)%nat →
  xdigits_before s k n (length s) = Ok true ∧ hex_value s k n 0 = Ok (hexv 0 ds).
Proof.
  intros Hf <- Ht Hl. unfold xdigits_before. rewrite (proj2 (Nat.leb_le _ _)) by done.
  rewrite all_xdigits_spec, hex_value_spec by done. done.
Qed.

Lemma decodes_hex strict d e rest : is_xdigit d = true → is_xdigit e = true → decodes strict [CH "x"; d; e] rest (enc (hexv 0 [d; e])).
Proof.
  intros Hd He q Hq. split; [|done]. intros cap out.
  set (s := CH "\" :: [CH "x"; d; e] ++ rest ++ [q]). assert (Forall (λ c, is_xdigit c = true) [d; e]) as Hf by by repeat constructor.
  destruct (xdigits_before_spec [d; e] s 2 2) as [Hx Hv]; [done..|simpl; lia|].
  assert (rd s 1 = Ok (CH "x")) as Er by done. clearbody s. unfold decode_escape. change (0 + 1)%nat with 1%nat. rewrite Er. simpl. rewrite Hx. simpl. unfold decode_hex_escape. change (0 + 2)%nat with 2%nat.
  rewrite Hv. simpl. pose proof (hexv_range [d; e] 0 Hf ltac:(lia)) as Hr. unfold zlen in Hr. simpl length in Hr.
  unfold utf8_encode. rewrite utf8proc_encode_codepoint by lia. done.
Qed.

Lemma is_xdigit_not_brace d : is_xdigit d = true → d ≠ CH "{" ∧ d ≠ CH "}".
Proof. intros Hd. split; intros ->; done. Qed.

(** Four digits [ds] behind [\u]. *)
Lemma decode_fixed ds tail cap out q : Forall (λ d, is_xdigit d = true) ds → length ds = 4%nat →
  decode_escape (CH "\" :: CH "u" :: ds ++ tail) 0 (length (CH "\" :: CH "u" :: ds ++ tail)) cap out q
  = (low ← low_half_at (CH "\" :: CH "u" :: ds ++ tail) 0 (length (CH "\" :: CH "u" :: ds ++ tail)) (hexv 0 ds);
     match low with
     | Some lo => out ← put cap out (utf8_encode (0x10000 + ((hexv 0 ds - 0xD800) <<' 10) + (lo - 0xDC00))); Ok (10%nat, out)
     | None => out ← put cap out (utf8_encode (hexv 0 ds)); Ok (4%nat, out)
     end).
Proof.
  intros Hf Hl. set (s := CH "\" :: CH "u" :: ds ++ tail).
  assert (length s = 6 + length tail)%nat as Hs by (subst s; simpl; rewrite length_app; lia).
  destruct (xdigits_before_spec ds s 2 4) as [Hx Hv]; [done..|apply take_app_length'; lia|lia|].
  assert (rd s 1 = Ok (CH "u")) as Er by done. unfold decode_escape. change (0 + 1)%nat with 1%nat. rewrite Er.
  destruct (byte_is_total s 2 (CH "{")) as (b & Eb & Hb). destruct b.
  { destruct ds as [|d ds]; [done|]. apply Forall_cons in Hf as [Hd _]. destruct (is_xdigit_not_brace d Hd) as [Hne _].
    destruct Hne. assert (s !! 2%nat = Some d) as E by done. rewrite (proj1 Hb eq_refl) in E. congruence. }
  clearbody s. simpl. rewrite Eb. simpl. rewrite Hx. simpl. unfold decode_unicode_fixed. change (0 + 2)%nat with 2%nat. rewrite Hv. done.
Qed.

(** No pair is read where there is none. *)
Lemma low_half_none ds rest q :
  length ds = 4%nat → q = 34 ∨ q = 39 → low_follows (hexv 0 ds) rest = false →
  low_half_at (CH "\" :: CH "u" :: ds ++ rest ++ [q]) 0 (length (CH "\" :: CH "u" :: ds ++ rest ++ [q])) (hexv 0 ds)
  = Ok None.
Proof.
  intros Hl Hq. unfold low_half_at, low_follows. destruct (between 0xD800 0xDBFF (hexv 0 ds)); [|done]. cbn [andb].
  generalize (hexv 0 ds). intros _. destruct ds as [|d1 [|d2 [|d3 [|d4 [|]]]]]; try done. clear Hl.
  assert (is_xdigit q = false) as Hx by (by destruct Hq as [-> | ->]).
  unfold unicode_escape_at, rd.
  destruct rest as [|a [|b [|c [|d [|e [|f rest]]]]]]; try done; intros Hlow; cbn -[all_xdigits hex_value between hexv].
  - destruct (negb _); [done|]. destruct (negb _); [done|]. unfold all_xdigits, rd. cbn -[between hexv hex_value].
    destruct (is_xdigit c); [|done]. cbn -[between hexv hex_value]. destruct (is_xdigit d); [|done]. cbn -[between hexv hex_value].
    destruct (is_xdigit e); [|done]. cbn -[between hexv hex_value]. by rewrite Hx.
  - destruct (a =? 92); [|done]. destruct (b =? 117); [|done]. cbn [negb andb] in *.
    unfold all_xdigits, hex_value, rd. cbn -[between hexv].
    destruct (is_xdigit c) eqn:Ec; [|done]. cbn -[between hexv]. destruct (is_xdigit d) eqn:Ed; [|done]. cbn -[between hexv].
    destruct (is_xdigit e) eqn:Ee; [|done]. cbn -[between hexv]. destruct (is_xdigit f) eqn:Ef; [|done]. cbn -[between hexv].
    cbn -[between hexv] in Hlow. rewrite Ec, Ed, Ee, Ef in Hlow. cbn [andb] in Hlow.
    change (hexv 0 [c; d; e; f]) with (16 * (16 * (16 * (16 * 0 + unhex c) + unhex d) + unhex e) + unhex f) in Hlow.
    rewrite !hex_step by done. change (0 <<' 4) with 0. by rewrite Hlow.
Qed.

Lemma decodes_fixed strict ds rest : Forall (λ d, is_xdigit d = true) ds → length ds = 4%nat → low_follows (hexv 0 ds) rest = false →
  decodes strict (CH "u" :: ds) rest (enc (hexv 0 ds)).
Proof.
  intros Hf Hl Hs q Hq. split; [|done]. intros cap out. simpl app. rewrite decode_fixed, low_half_none by done. cbn [mbind outcome_bind].
  pose proof (hexv_range ds 0 Hf ltac:(lia)) as Hr. unfold zlen in Hr. rewrite Hl in Hr. cbn [length]. rewrite Hl.
  unfold utf8_encode. rewrite utf8proc_encode_codepoint by lia. done.
Qed.

Lemma decodes_pair strict ds es rest :
  Forall (λ d, is_xdigit d = true) ds → length ds = 4%nat → 0xD800 <= hexv 0 ds <= 0xDBFF →
  Forall (λ d, is_xdigit d = true) es → length es = 4%nat → 0xDC00 <= hexv 0 es <= 0xDFFF →
  decodes strict (CH "u" :: ds ++ CH "\" :: CH "u" :: es) rest (enc (0x10000 + 0x400 * (hexv 0 ds - 0xD800) + (hexv 0 es - 0xDC00))).
Proof.
  intros Hf Hl Hhi Hfe Hle Hlo q Hq. split; [|done]. intros cap out. simpl app. rewrite <- app_assoc. rewrite decode_fixed by done.
  set (s := CH "\" :: CH "u" :: ds ++ _). assert (length s = 13 + length rest)%nat as Hs.
  { subst s. simpl. rewrite !length_app. simpl. rewrite !length_app. simpl. lia. }
  assert (drop 6 s = CH "\" :: CH "u" :: es ++ rest ++ [q]) as Ed by (change (drop 6 s) with (drop 4 (ds ++ (CH "\" :: CH "u" :: es) ++ rest ++ [q])); rewrite (drop_app_length' ds); [done|lia]).
  assert (take 4 (drop 8 s) = es) as Ee by (change 8%nat with (6 + 2)%nat; rewrite <- drop_drop, Ed; apply take_app_length'; lia).
  assert (low_half_at s 0 (length s) (hexv 0 ds) = Ok (Some (hexv 0 es))) as ->.
  { unfold low_half_at. replace (between 0xD800 0xDBFF (hexv 0 ds)) with true by (unfold between; lia).
    rewrite (proj2 (Nat.ltb_lt _ _)) by lia. unfold unicode_escape_at. change (rd s (0 + 6)) with (rd s (6 + 0)). change (rd s (0 + 6 + 1)) with (rd s (6 + 1)).
    rewrite (rd_drop s 6 0), (rd_drop s 6 1), Ed. clearbody s. simpl.
    destruct (xdigits_before_spec es s 8 4) as [Hx Hv]; [done..|lia|]. unfold xdigits_before in Hx. rewrite (proj2 (Nat.leb_le _ _)) in Hx by lia.
    rewrite Hx. simpl. rewrite Hv. simpl. replace (between _ _ (hexv 0 es)) with true by (unfold between; lia). done. }
  simpl. rewrite shiftl_mul by lia. change (2 ^ 10) with 0x400. unfold utf8_encode. rewrite utf8proc_encode_codepoint by lia.
  rewrite length_app. simpl. rewrite Hl, Hle. rewrite (Z.mul_comm 0x400). done.
Qed.

Lemma hexv_ge ds : ∀ acc, Forall (λ c, is_xdigit c = true) ds → 0 <= acc → acc <= hexv acc ds.
Proof.
  induction ds as [|c ds IH]; intros acc Hd Ha; [by unfold hexv|]. apply Forall_cons in Hd as [Hc Hd].
  pose proof (unhex_range c Hc). specialize (IH (16 * acc + unhex c) Hd ltac:(lia)). change (acc <= hexv (16 * acc + unhex c) ds). lia.
Qed.

(** Digits whose number wraps at 32 bits. *)
Lemma hexv_wrap ds : ∀ a, hexv (a mod 2 ^ 32) ds mod 2 ^ 32 = hexv a ds mod 2 ^ 32.
Proof.
  induction ds as [|c ds IH]; intros a; [apply Z.mod_mod; lia|].
  change (hexv (16 * (a mod 2 ^ 32) + unhex c) ds mod 2 ^ 32 = hexv (16 * a + unhex c) ds mod 2 ^ 32).
  rewrite <- (IH (16 * (a mod 2 ^ 32) + unhex c)), <- (IH (16 * a + unhex c)). f_equal. f_equal.
  rewrite <- Z.add_mod_idemp_l, Z.mul_mod_idemp_r, Z.add_mod_idemp_l by lia. done.
Qed.

Lemma braced_step cp c : 0 <= cp < 2 ^ 32 → is_xdigit c = true → u32 (cp <<' 4) |' unhex c = (16 * cp + unhex c) mod 2 ^ 32.
Proof.
  intros Hcp Hc. pose proof (unhex_range c Hc).
  replace (u32 (cp <<' 4)) with (u32 (cp <<' 4) / 2 ^ 4 * 2 ^ 4) by (rewrite shiftl_mul by lia; word).
  rewrite lor_add_low by lia. rewrite shiftl_mul in * by lia. word.
Qed.

Lemma braced_loop_spec s tail ds : ∀ rounds k cp, Forall (λ c, is_xdigit c = true) ds → drop k s = ds ++ CH "}" :: tail →
  (length ds ≤ rounds)%nat → 0 <= cp < 2 ^ 32 →
  braced_loop rounds s k (length s) cp = Ok ((k + length ds)%nat, hexv cp ds mod 2 ^ 32).
Proof.
  induction ds as [|c ds IH]; intros rounds k cp Hd Ek Hr Hcp.
  - rewrite Nat.add_0_r. change (hexv cp []) with cp. rewrite Z.mod_small by done. destruct rounds as [|rounds]; [done|]. cbn [braced_loop].
    destruct (k <? length s)%nat; [|done]. rewrite <- (Nat.add_0_r k) at 1. rewrite rd_drop, Ek. done.
  - apply Forall_cons in Hd as [Hc Hd]. destruct rounds as [|rounds]; [simpl in Hr; lia|]. cbn [braced_loop].
    assert (k < length s)%nat as Hk by (apply (f_equal length) in Ek; rewrite length_drop in Ek; simpl in Ek; lia).
    rewrite (proj2 (Nat.ltb_lt _ _)) by done. rewrite <- (Nat.add_0_r k) at 1. rewrite rd_drop, Ek. simpl. rewrite Hc.
    rewrite braced_step by done. change (hexv cp (c :: ds)) with (hexv (16 * cp + unhex c) ds).
    rewrite IH; [rewrite hexv_wrap; do 2 f_equal; lia|done| |simpl in Hr; lia|apply Z.mod_pos_bound; lia].
    replace (S k) with (k + 1)%nat by lia. rewrite <- drop_drop, Ek. done.
Qed.

(** Any digits between braces. *)
Lemma decodes_braced_any strict ds rest :
  Forall (λ d, is_xdigit d = true) ds →
  decodes strict (CH "u" :: CH "{" :: ds ++ [CH "}"]) rest (utf8_encode (hexv 0 ds mod 2 ^ 32)).
Proof.
  intros Hf q Hq. split; [|done]. intros cap out. simpl app. rewrite <- app_assoc. simpl app.
  set (s := CH "\" :: _).
  assert (length s = 4 + length ds + length (rest ++ [q]))%nat as Hs by (subst s; simpl; rewrite length_app; simpl; lia).
  assert (braced_loop (length s - 3) s 3 (length s) 0 = Ok ((3 + length ds)%nat, hexv 0 ds mod 2 ^ 32)) as El
    by (eapply braced_loop_spec; [done|done|lia|lia]).
  assert (rd s (3 + length ds) = Ok (CH "}")) as Ec.
  { rewrite rd_drop. change (drop 3 s) with (ds ++ CH "}" :: rest ++ [q]). unfold rd. by rewrite list_lookup_middle. }
  assert (rd s 1 = Ok (CH "u") ∧ rd s 2 = Ok (CH "{")) as [E1 E2] by done. clearbody s.
  unfold decode_escape. change (0 + 1)%nat with 1%nat. rewrite E1. simpl. unfold byte_is. rewrite (proj2 (Nat.ltb_lt 2 _)) by lia. rewrite E2. simpl.
  unfold decode_unicode_braced. change (0 + 3)%nat with 3%nat. rewrite El. cbn -[Nat.add Z.modulo Z.pow]. unfold byte_is. rewrite (proj2 (Nat.ltb_lt _ _)) by lia.
  rewrite Ec. cbn -[Nat.add Z.modulo Z.pow]. apply bind_ext. intros o. do 2 f_equal.
  rewrite length_app. simpl. lia.
Qed.

Lemma decodes_braced strict ds rest :
  Forall (λ d, is_xdigit d = true) ds → hexv 0 ds <= 0x10FFFF → decodes strict (CH "u" :: CH "{" :: ds ++ [CH "}"]) rest (enc (hexv 0 ds)).
Proof.
  intros Hf Hv. pose proof (hexv_ge ds 0 Hf ltac:(lia)). pose proof (decodes_braced_any strict ds rest Hf) as Hd.
  rewrite Z.mod_small in Hd by lia. unfold utf8_encode in Hd. by rewrite utf8proc_encode_codepoint in Hd by lia.
Qed.

Lemma octal_digit_range d : is_octal_digit d = true → 48 <= d <= 55 ∧ simple_escape d = None.
Proof.
  intros Hod. assert (48 <= d <= 55) as Hr by (unfold is_octal_digit, between in Hod; lia). split; [done|].
  unfold simple_escape. repeat (rewrite (proj2 (Z.eqb_neq d _)) by lia). done.
Qed.

Lemma decode_octal s cap out q a v n : rd s 1 = Ok a → is_octal_digit a = true → is_octal_escape s 0 = Ok true → octal_value s 0 = Ok (v, n) →
  0 <= v < 256 → decode_escape s 0 (length s) cap out q = (o ← put cap out (enc v); Ok (n, o)).
Proof.
  intros Er Ha Ho Hv Hr. destruct (octal_digit_range a Ha) as [Har Hs]. unfold decode_escape. change (0 + 1)%nat with 1%nat. rewrite Er. simpl.
  rewrite Hs, Ha, Ho. simpl. unfold decode_octal_escape, utf8_encode. rewrite Hv. simpl. rewrite utf8proc_encode_codepoint by lia. done.
Qed.

(** One to three octal digits and the byte behind them. *)
Lemma decodes_octal ds rest : octal_escape ds rest → decodes false ds rest (enc (octv ds)).
Proof.
  intros [Hf Ho] q Hq. split; [|done]. intros cap out.
  destruct ds as [|a [|b [|c [|]]]]; try done; repeat (apply Forall_cons in Hf as [? Hf]).
  all: pose proof (octal_digit_range a ltac:(done)) as [Ha _].
  - destruct Ho as [Hz Ho]. destruct (head_quoted is_octal_digit rest q) as (d & r & -> & Hd); [done..|].
    apply (decode_octal _ cap out q a); [done..| | |]; unfold is_octal_escape, octal_value, octv; simpl; [|by rewrite Hd|lia].
    rewrite (proj2 (Z.eqb_neq a 48) Hz). by replace (is_octal_digit a) with true.
  - pose proof (octal_digit_range b ltac:(done)) as [Hb _].
    assert (∃ d r, rest ++ [q] = d :: r ∧ (is_octal_digit d = false ∨ 52 <= a)) as (d & r & -> & Hd).
    { destruct Ho as [Ho|Ho]; [|destruct (head_quoted is_octal_digit rest q) as (d & r & -> & Hd); [done..|by eauto]].
      destruct rest as [|d r]; simpl; eauto. }
    apply (decode_octal _ cap out q a); [done..| | |]; unfold is_octal_escape, octal_value, octv; simpl; [| |lia].
    + replace (is_octal_digit a) with true. destruct (a =? 48); [simpl; congruence|done].
    + replace (is_octal_digit b) with true. simpl. destruct (is_octal_digit d) eqn:Ed; simpl; [|do 2 f_equal; lia].
      pose proof (octal_digit_range d Ed) as [Hdr _]. destruct Hd as [Hd|Hd]; [done|].
      rewrite (proj2 (Z.leb_gt _ _)) by lia. do 2 f_equal. lia.
  - pose proof (octal_digit_range b ltac:(done)) as [Hb _]. pose proof (octal_digit_range c ltac:(done)) as [Hc _]. simpl in Ho.
    apply (decode_octal _ cap out q a); [done..| | |]; unfold is_octal_escape, octal_value, octv; simpl; [| |lia].
    + replace (is_octal_digit a) with true. destruct (a =? 48); [simpl; congruence|done].
    + replace (is_octal_digit b) with true. replace (is_octal_digit c) with true. simpl. rewrite (proj2 (Z.leb_le _ _)) by lia. do 2 f_equal. lia.
Qed.

(** A character that is no escape of its own. *)
Lemma decodes_other strict c rest : c ∉ single_escapes.*1 → c ≠ CH "x" → c ≠ CH "u" → is_octal_digit c = false → decodes strict [c] rest [c].
Proof.
  intros Hs Hx Hu Ho q Hq. assert (simple_escape c = None) as Hse.
  { unfold single_escapes in Hs. cbn in Hs. rewrite !not_elem_of_cons in Hs. destruct_and! Hs.
    unfold simple_escape. repeat (rewrite (proj2 (Z.eqb_neq c _)) by done). done. }
  split; [intros cap out|intros _; unfold is_octal_escape; simpl; by rewrite Ho].
  unfold decode_escape. simpl. rewrite Hse, Ho, (proj2 (Z.eqb_neq c _) Hx), (proj2 (Z.eqb_neq c _) Hu).
  destruct (Z.eqb_spec c q) as [->|]; done.
Qed.

Lemma escape_value_decodes strict e rest bs : escape_value strict e rest bs → decodes strict e rest bs.
Proof.
  destruct 1.
  - by apply decodes_single.
  - by apply decodes_nul, digit_octal.
  - by apply decodes_hex.
  - by apply decodes_fixed.
  - by apply decodes_pair.
  - by apply decodes_braced.
  - subst strict. by apply decodes_octal.
  - apply decodes_nul. unfold is_octal_digit, between. lia.
  - apply decodes_other; [|lia..|unfold is_octal_digit, between; lia]. unfold single_escapes. cbn.
    rewrite !not_elem_of_cons. repeat split; try lia. apply not_elem_of_nil.
  - apply decodes_other; [done..|by apply digit_octal].
Qed.

(** ** The value of a literal *)

Lemma escape_nonempty strict e rest bs : escape_value strict e rest bs → (0 < length e)%nat.
Proof. destruct 1 as [| | | | | |ds rest ? [_ Ho]| | |]; simpl; try lia. destruct ds; [done|simpl; lia]. Qed.

(** An escape is at least as long as what it stands for. *)
Lemma escape_value_length strict e rest bs : escape_value strict e rest bs → (length bs ≤ S (length e))%nat.
Proof.
  intros He. pose proof (escape_nonempty _ _ _ _ He) as Hne. destruct (escape_value_decodes _ _ _ _ He 34 (or_introl eq_refl)) as [Hd _].
  set (s := CH "\" :: e ++ rest ++ [34]) in *.
  assert (ends_quoted s) as Hq by (exists (CH "\" :: e ++ rest), 34; split; [subst s; simpl; by rewrite <- app_assoc|by left]).
  destruct (decode_safe s 34 Hq) as (bs' & adv & Hd' & Hl & _); [subst s; simpl; rewrite !length_app; simpl; lia|].
  specialize (Hd (length bs + length bs')%nat []). specialize (Hd' (length bs + length bs')%nat []).
  rewrite put_ok in Hd, Hd' by (simpl; lia). rewrite Hd in Hd'. injection Hd' as Ea Eb. simpl in Ea, Eb. subst bs' adv. lia.
Qed.

Lemma is_octal_escape_drop s p : is_octal_escape s p = is_octal_escape (drop p s) 0.
Proof. unfold is_octal_escape. by rewrite !(rd_drop s p). Qed.

(** A byte that stands for itself. *)
Lemma literal_loop_char rounds strict q pre c rest out : c ≠ CH "\" → (length out ≤ length pre)%nat →
  literal_loop (S rounds) strict (q :: pre ++ (c :: rest) ++ [q]) (length pre) out
  = literal_loop rounds strict (q :: (pre ++ [c]) ++ rest ++ [q]) (length (pre ++ [c])) (out ++ [c]).
Proof.
  intros Hc Ho. cbn [literal_loop]. rewrite (proj2 (Nat.ltb_lt _ _)) by (simpl; rewrite !length_app; simpl; rewrite length_app; simpl; lia).
  unfold rd. simpl ((_ :: _) !! _). rewrite list_lookup_middle by done. cbn -[put length]. rewrite (proj2 (Z.eqb_neq _ _) Hc).
  rewrite put_ok by (simpl; rewrite !length_app; simpl; lia). cbn [mbind outcome_bind].
  rewrite <- app_assoc, length_app. cbn [length app]. by rewrite Nat.add_1_r.
Qed.

Lemma literal_loop_chars strict q cs : ∀ rounds pre rest out, Forall (λ c, c ≠ CH "\") cs → (length out ≤ length pre)%nat →
  literal_loop (length cs + rounds) strict (q :: pre ++ (cs ++ rest) ++ [q]) (length pre) out
  = literal_loop rounds strict (q :: (pre ++ cs) ++ rest ++ [q]) (length (pre ++ cs)) (out ++ cs).
Proof.
  induction cs as [|c cs IH]; intros rounds pre rest out Hf Ho; [by rewrite !app_nil_r|]. apply Forall_cons in Hf as [Hc Hf].
  cbn [length Nat.add]. rewrite <- app_comm_cons, literal_loop_char, IH by (try done; rewrite !length_app; simpl; lia).
  by rewrite <- !app_assoc.
Qed.

(** A backslash and what it stands for. *)
Lemma literal_loop_escape rounds strict q pre e rest bs out :
  decodes strict e rest bs → q = 34 ∨ q = 39 → (0 < length e)%nat → (length bs ≤ S (length e))%nat → (length out ≤ length pre)%nat →
  literal_loop (S rounds) strict (q :: pre ++ (CH "\" :: e ++ rest) ++ [q]) (length pre) out
  = literal_loop rounds strict (q :: (pre ++ CH "\" :: e) ++ rest ++ [q]) (length (pre ++ CH "\" :: e)) (out ++ bs).
Proof.
  intros He Hq Hne Hlb Ho. destruct (He q Hq) as [Hd Hoct].
  set (t := q :: pre ++ (CH "\" :: e ++ rest) ++ [q]).
  assert (length t = length pre + length e + length rest + 3)%nat as Ht by (subst t; simpl; rewrite !length_app; simpl; rewrite !length_app; simpl; lia).
  assert (drop (S (length pre)) t = CH "\" :: e ++ rest ++ [q]) as Ed by (subst t; simpl; rewrite drop_app_length; simpl; by rewrite <- app_assoc).
  assert (rd t (S (length pre)) = Ok (CH "\")) as Er by (rewrite <- (Nat.add_0_r (S _)), rd_drop, Ed; done).
  assert (rd t 0 = Ok q) as Eq by done.
  replace (q :: (pre ++ CH "\" :: e) ++ rest ++ [q]) with t by (subst t; by rewrite <- (app_assoc pre); simpl; rewrite <- app_assoc).
  cbn [literal_loop]. rewrite (proj2 (Nat.ltb_lt _ _)) by lia. rewrite Er. cbn [mbind outcome_bind]. rewrite Z.eqb_refl.
  assert ((if strict then is_octal_escape t (S (length pre)) else Ok false) = Ok false) as ->.
  { destruct strict; [|done]. rewrite is_octal_escape_drop, Ed. by apply Hoct. }
  cbn [mbind outcome_bind]. rewrite Eq. cbn [mbind outcome_bind]. rewrite decode_escape_drop, Ed, Hd by lia. rewrite put_ok by lia.
  cbn [mbind outcome_bind fst snd]. f_equal. rewrite length_app. simpl. lia.
Qed.

(** The bytes of a line end: none is an escape of its own. *)
Lemma line_end_bytes strict lt rest : lt ∈ line_ends →
  ∃ c cs, lt = c :: cs ∧ decodes strict [c] (cs ++ rest) [c] ∧ c ≠ CH "x" ∧ c ≠ CH "u" ∧
    Forall (λ d, d ≠ 34 ∧ d ≠ 39 ∧ d ≠ CH "\") cs.
Proof.
  unfold line_ends. intros Hin.
  assert (∀ c, c = 10 ∨ c = 13 ∨ c = 0xE2 → ∀ r, decodes strict [c] r [c]) as Hd.
  { intros c Hc r. apply decodes_other; [|lia..|unfold is_octal_digit, between; lia]. unfold single_escapes. cbn.
    rewrite !not_elem_of_cons. repeat split; try lia. apply not_elem_of_nil. }
  repeat (apply elem_of_cons in Hin as [->|Hin]; [eexists _, _; split; [reflexivity|]; split; [apply Hd; lia|];
    split; [lia|]; split; [lia|]; repeat (constructor; [lia|]); constructor|]).
  by apply elem_of_nil in Hin.
Qed.

Lemma literal_loop_value strict q n body v w : literal_text strict q n body v w → q = 34 ∨ q = 39 → ∀ rounds pre out,
  (length out ≤ length pre)%nat → (length body < rounds)%nat →
  literal_loop rounds strict (q :: pre ++ body ++ [q]) (length pre) out = Ok (out ++ w).
Proof.
  intros Hb Hq. induction Hb as [|c n s v w Hc Hcq H10 H13 Hb IH|e n s bs v w He Hb IH|lt n s v w Hlt _ Hb IH];
    intros [|rounds] pre out Ho Hr; try (simpl in Hr; lia).
  - cbn [literal_loop]. rewrite (proj2 (Nat.ltb_ge _ _)); [by rewrite app_nil_r|]. simpl. rewrite length_app. simpl. lia.
  - rewrite literal_loop_char, IH by (try done; rewrite ?length_app; simpl in *; lia). by rewrite <- app_assoc.
  - pose proof (escape_nonempty _ _ _ _ He) as Hne. pose proof (escape_value_length _ _ _ _ He) as Hlb. simpl in Hr. rewrite length_app in Hr.
    rewrite (literal_loop_escape rounds strict q pre e s bs out) by (done || by apply escape_value_decodes).
    rewrite IH by (rewrite ?length_app; simpl; lia).
    by rewrite app_assoc.
  - destruct (line_end_bytes strict lt s Hlt) as (c & cs & -> & Hd & _ & _ & Hcs). simpl in Hr. rewrite length_app in Hr.
    change (CH "\" :: (c :: cs) ++ s) with (CH "\" :: [c] ++ cs ++ s).
    rewrite (literal_loop_escape rounds strict q pre [c] (cs ++ s) [c] out) by (done || (simpl; lia)).
    replace rounds with (length cs + (rounds - length cs))%nat by lia.
    rewrite literal_loop_chars, IH; [by rewrite <- !app_assoc|rewrite !length_app; simpl; lia|lia| |rewrite !length_app; simpl; lia].
    eapply Forall_impl; [done|]. by intros d (_ & _ & ?).
Qed.

(** A value with the line ends of continuations left in it is longer. *)
Lemma literal_text_longer strict q n body v w : literal_text strict q n body v w → (w = v ↔ n = 0%nat) ∧ (length v + n ≤ length w)%nat.
Proof.
  induction 1 as [|c n s v w _ _ _ _ _ [IH Hl]|e n s bs v w _ _ [IH Hl]|lt n s v w Hlt _ _ [IH Hl]]; [done|..].
  - split; [|simpl; lia]. rewrite <- IH. split; [by intros [= ->]|by intros ->].
  - split; [|rewrite !length_app; lia]. rewrite <- IH. split; [by intros ->%(inj (app bs))|by intros ->].
  - destruct (line_end_bytes strict lt [] Hlt) as (c & cs & -> & _). rewrite length_app. cbn [length]. split; [|lia].
    split; [|done]. intros E. apply (f_equal length) in E. rewrite length_app in E. simpl in E. lia.
Qed.

(** ** The end of a literal *)

Lemma memchr_in c s : c ∈ s → is_Some (memchr c s).
Proof.
  induction s as [|x s IH]; intros Hin; [by apply elem_of_nil in Hin|]. simpl. destruct (Z.eqb_spec x c); [eauto|].
  apply elem_of_cons in Hin as [->|Hin]; [done|]. by apply fmap_is_Some, IH.
Qed.

(** Scanning from [i] on, with rounds enough. *)
Definition scan_from (buf : list Z) (i : nat) (q : Z) : option nat := string_loop (length buf - i) buf i q.

Lemma scan_from_enough rounds buf i q : (length buf - i ≤ rounds)%nat → string_loop rounds buf i q = scan_from buf i q.
Proof. intros Hr. replace rounds with (length buf - i + (rounds - (length buf - i)))%nat by lia. by apply string_loop_enough. Qed.

Lemma drop_cons_length {A} (l : list A) i x t : drop i l = x :: t → length l = (i + S (length t))%nat.
Proof. intros E. apply (f_equal length) in E. rewrite length_drop in E. simpl in E. lia. Qed.

Lemma scan_quote buf i q t : drop i buf = q :: t → q ≠ CH "\" → scan_from buf i q = Some (S i).
Proof.
  intros E Hq. pose proof (drop_cons_length _ _ _ _ E) as Hl. unfold scan_from. replace (length buf - i)%nat with (S (length t)) by lia.
  cbn [string_loop]. rewrite (proj2 (Nat.ltb_lt _ _)) by lia. rewrite E. cbn [memchr]. rewrite Z.eqb_refl, (proj2 (Z.eqb_neq _ _) Hq).
  destruct (memchr _ t); simpl; f_equal; lia.
Qed.

Lemma scan_char buf i q c t : drop i buf = c :: t → c ≠ q → c ≠ CH "\" → t ≠ [] → scan_from buf i q = scan_from buf (S i) q.
Proof.
  intros E Hq Hb Ht. pose proof (drop_cons_length _ _ _ _ E) as Hl. assert (drop (S i) buf = t) as E'.
  { replace (S i) with (i + 1)%nat by lia. rewrite <- drop_drop, E. done. }
  assert (0 < length t)%nat by (destruct t; [done|simpl; lia]). rewrite <- (scan_from_enough (length buf - i) buf (S i)) by lia. unfold scan_from.
  replace (length buf - i)%nat with (S (length t)) by lia.
  cbn [string_loop]. rewrite !(proj2 (Nat.ltb_lt _ _)) by lia. rewrite E, E'. cbn [memchr].
  rewrite (proj2 (Z.eqb_neq c q) Hq), (proj2 (Z.eqb_neq c _) Hb).
  destruct (memchr q t) as [m|]; [|done]. destruct (memchr _ t) as [b|]; cbn [fmap option_fmap option_map].
  - replace (i + S m + 1)%nat with (S i + m + 1)%nat by lia. replace (i + S b)%nat with (S i + b)%nat by lia. done.
  - f_equal. lia.
Qed.

Lemma scan_escape buf i q t : drop i buf = CH "\" :: t → q ∈ t → q ≠ CH "\" → (0 < escape_skip buf i)%nat → (i + escape_skip buf i ≤ length buf)%nat →
  scan_from buf i q = scan_from buf (i + escape_skip buf i) q.
Proof.
  intros E Hin Hq H0 Hs. pose proof (drop_cons_length _ _ _ _ E) as Hl. assert (0 < length t)%nat by (destruct t; [by apply elem_of_nil in Hin|simpl; lia]).
  unfold scan_from at 1. replace (length buf - i)%nat with (S (length t)) by lia.
  rewrite <- (scan_from_enough (length t)) by lia. destruct (memchr_in q t Hin) as [m Em].
  cbn [string_loop]. rewrite (proj2 (Nat.ltb_lt _ _)) by lia. rewrite E. cbn [memchr].
  rewrite Em, Z.eqb_refl, (proj2 (Z.eqb_neq (CH "\") q) (not_eq_sym Hq)). cbn [fmap option_fmap option_map].
  rewrite Nat.add_0_r, (proj2 (Nat.ltb_ge (S m) 0)), (proj2 (Nat.leb_gt (length buf) (i + 1))), (proj2 (Nat.ltb_ge (length buf) _)) by lia. done.
Qed.

(** Bytes that are neither a backslash nor the quote. *)
Lemma scan_chars buf q cs : ∀ i t, Forall (λ c, c ≠ q ∧ c ≠ CH "\") cs → drop i buf = cs ++ t → t ≠ [] →
  scan_from buf i q = scan_from buf (i + length cs) q.
Proof.
  induction cs as [|c cs IH]; intros i t Hf E Ht; [by rewrite Nat.add_0_r|]. apply Forall_cons in Hf as [[Hq Hb] Hf].
  rewrite (scan_char _ _ _ _ _ E Hq Hb) by (destruct cs; [done|]; done). simpl. rewrite <- Nat.add_succ_comm. eapply IH; [done| |done].
  replace (S i) with (i + 1)%nat by lia. rewrite <- drop_drop, E. done.
Qed.

Lemma drop_more {A} (l s t : list A) i : drop i l = s ++ t → drop (i + length s) l = t.
Proof. intros E. rewrite <- drop_drop, E. apply drop_app_length. Qed.

(** An escape of two bytes and what follows it. *)
Lemma scan_short buf i q c ds t : drop i buf = CH "\" :: c :: ds ++ t → c ≠ CH "x" → c ≠ CH "u" →
  Forall (λ d, d ≠ q ∧ d ≠ CH "\") ds → q ∈ t → q ≠ CH "\" → scan_from buf i q = scan_from buf (i + 1 + length (c :: ds)) q.
Proof.
  intros E Hx Hu Hf Hin Hq. pose proof (drop_cons_length _ _ _ _ E) as Hl. simpl in Hl.
  assert (escape_skip buf i = 2%nat) as Hs.
  { unfold escape_skip. rewrite <- at_drop, E. cbn [at_ nth]. by rewrite (proj2 (Z.eqb_neq c _) Hx), (proj2 (Z.eqb_neq c _) Hu). }
  erewrite (scan_escape _ _ _ _ E); [|set_solver|done|lia..]. rewrite Hs. erewrite (scan_chars _ _ ds); [|done| |].
  - f_equal. simpl. lia.
  - eapply (drop_more _ [_; _]). exact E.
  - intros ->. by apply elem_of_nil in Hin.
Qed.

(** One of four digits. *)
Lemma scan_fixed buf i q ds t : drop i buf = CH "\" :: CH "u" :: ds ++ t → Forall (λ d, is_xdigit d = true) ds → length ds = 4%nat →
  q ∈ t → q ≠ CH "\" → scan_from buf i q = scan_from buf (i + 6) q.
Proof.
  intros E Hf Hl Hin Hq. pose proof (drop_cons_length _ _ _ _ E) as Hlb. simpl in Hlb. rewrite length_app in Hlb.
  assert (escape_skip buf i = 6%nat) as Hs.
  { unfold escape_skip. rewrite <- !at_drop, E. destruct ds as [|d ds]; [done|]. apply Forall_cons in Hf as [Hd _].
    destruct (is_xdigit_not_brace d Hd) as [Hb _]. cbn [at_ nth app]. simpl. rewrite (proj2 (Z.eqb_neq d _) Hb). by rewrite andb_false_r. }
  erewrite (scan_escape _ _ _ _ E); [|set_solver|done|lia..]. by rewrite Hs.
Qed.

Lemma scan_braced buf i q ds t : drop i buf = CH "\" :: CH "u" :: CH "{" :: ds ++ CH "}" :: t → Forall (λ d, is_xdigit d = true) ds →
  q ∈ t → q ≠ CH "\" → scan_from buf i q = scan_from buf (i + (4 + length ds)) q.
Proof.
  intros E Hf Hin Hq. pose proof (drop_cons_length _ _ _ _ E) as Hlb. simpl in Hlb. rewrite length_app in Hlb. simpl in Hlb.
  assert (escape_skip buf i = 4 + length ds)%nat as Hs.
  { unfold escape_skip. rewrite <- !at_drop, <- drop_drop, E. cbn [at_ nth drop]. rewrite (proj2 (Nat.ltb_lt _ _)) by lia. cbn -[Nat.ltb count_while].
    rewrite drop_0, count_while_to; [|eapply Forall_impl; [done|]; intros d Hd; destruct (is_xdigit_not_brace d Hd) as [_ Hb]; by rewrite (proj2 (Z.eqb_neq d _) Hb)|by right].
    rewrite (proj2 (Nat.ltb_lt _ _)) by lia. lia. }
  erewrite (scan_escape _ _ _ _ E); [|set_solver|done|lia..]. by rewrite Hs.
Qed.

Lemma scan_escape_value strict e rest bs buf i q t : escape_value strict e rest bs → q = 34 ∨ q = 39 → drop i buf = CH "\" :: e ++ t → q ∈ t →
  scan_from buf i q = scan_from buf (i + 1 + length e) q.
Proof.
  intros He Hq E Hin. assert (q ≠ CH "\") as Hqb by lia. assert (∀ c : Z, is_octal_digit c = true → c ≠ q ∧ c ≠ CH "\" ∧ c ≠ CH "x" ∧ c ≠ CH "u") as Hoct
    by (intros c; unfold is_octal_digit, between; lia).
  destruct He as [c b rest Hc|rest _|d d' rest Hd Hd'|ds rest Hf Hl _|ds es rest Hf Hl _ Hfe Hle _|ds rest Hf _ _|ds rest _ [Hf Ho]|rest _ _|c rest _ Hc|c rest _ Hx Hu _ _ _ _].
  - apply (scan_short _ _ _ c [] t E); [intros ->| intros ->|done..]; unfold single_escapes in Hc;
      repeat (apply elem_of_cons in Hc as [[=]|Hc]); by apply elem_of_nil in Hc.
  - by apply (scan_short _ _ _ _ [] t E).
  - pose proof (drop_cons_length _ _ _ _ E) as Hlb. simpl in Hlb. assert (escape_skip buf i = 4%nat) as Hs by (unfold escape_skip; by rewrite <- at_drop, E).
    erewrite (scan_escape _ _ _ _ E); [|set_solver|done|lia..]. rewrite Hs. f_equal. simpl. lia.
  - rewrite (scan_fixed _ _ _ ds t E) by done. f_equal. simpl. lia.
  - simpl in E. rewrite <- app_assoc in E. rewrite (scan_fixed _ _ _ ds _ E) by (try done; set_solver).
    assert (drop (i + 6) buf = CH "\" :: CH "u" :: es ++ t) as E2.
    { replace 6%nat with (length (CH "\" :: CH "u" :: ds)) by (simpl; lia). by eapply drop_more. }
    rewrite (scan_fixed _ _ _ es t E2) by done. f_equal. simpl. rewrite length_app. simpl. lia.
  - simpl in E. rewrite <- app_assoc in E. rewrite (scan_braced _ _ _ ds t E) by done. f_equal. simpl. rewrite length_app. simpl. lia.
  - destruct ds as [|a ds]; [done|]. apply Forall_cons in Hf as [Ha Hf]. destruct (Hoct a Ha) as (? & ? & ? & ?).
    apply (scan_short _ _ _ a ds t E); [done..| |done|done]. eapply Forall_impl; [done|]. intros d Hd. destruct (Hoct d Hd) as (? & ? & _). done.
  - by apply (scan_short _ _ _ _ [] t E).
  - apply (scan_short _ _ _ c [] t E); [lia..|done|done|done].
  - by apply (scan_short _ _ _ c [] t E).
Qed.

Lemma scan_literal_text strict q n body v w : literal_text strict q n body v w → q = 34 ∨ q = 39 → ∀ buf i rest,
  drop i buf = body ++ q :: rest → scan_from buf i q = Some (i + length body + 1)%nat.
Proof.
  intros Hb Hq. induction Hb as [|c n s v w Hc Hcq H10 H13 Hb IH|e n s bs v w He Hb IH|lt n s v w Hlt _ Hb IH]; intros buf i rest E.
  - rewrite (scan_quote _ _ _ _ E) by lia. f_equal. simpl. lia.
  - rewrite (scan_char _ _ _ _ _ E Hcq Hc) by (by destruct s). rewrite (IH buf (S i) rest); [f_equal; simpl; lia|].
    rewrite <- (drop_more _ [c] (s ++ q :: rest) i E). f_equal. simpl. lia.
  - simpl in E. rewrite <- app_assoc in E. rewrite (scan_escape_value _ _ _ _ _ _ _ _ He Hq E) by set_solver.
    rewrite (IH _ _ rest); [f_equal; simpl; rewrite length_app; lia|].
    rewrite <- (drop_more _ (CH "\" :: e) (s ++ q :: rest) i E). f_equal. simpl. lia.
  - destruct (line_end_bytes strict lt s Hlt) as (c & cs & -> & _ & Hx & Hu & Hcs). simpl in E. rewrite <- app_assoc in E.
    rewrite (scan_short _ _ _ c cs (s ++ q :: rest) E); [|done|done| |set_solver|lia].
    + rewrite (IH _ _ rest); [f_equal; simpl; rewrite length_app; lia|].
      rewrite <- (drop_more _ (CH "\" :: c :: cs) (s ++ q :: rest) i E). f_equal. simpl. lia.
    + eapply Forall_impl; [done|]. intros d (? & ? & ?). split; [|done]. by destruct Hq as [-> | ->].
Qed.

(** C12: a string literal, from its text to its value.  For any text that ECMAScript gives a
    value to as the body of a string literal ([literal_text]: plain characters, the
    single-character escapes, [\0], [\x], [\u] with four digits, surrogate pairs, braces, lone
    surrogates, in sloppy mode octal escapes, and line continuations), the scanner finds the closing
    quote, whatever follows it, and the decoder returns the value, except for line continuations:
    the line end behind the backslash stays in the result, where ECMAScript leaves it out, so
    that the result is the value exactly when the text has none.  Of any text at all between two
    quotes the decoder reads nothing behind the token, writes nothing behind its buffer, and returns
    less bytes than the token has. *)
Theorem string_literal_correct `{Arena} strict q body :
  q = 34 ∨ q = 39 →
  (∀ n v w rest, literal_text strict q n body v w →
     scan_string (q :: body ++ q :: rest) q = mk_scan TOK_STRING (length body + 2) None ∧
     (parse_arena_bump (zlen (q :: body ++ [q])) = true → sv_lexer_str_literal strict (q :: body ++ [q]) = Ok w) ∧
     (w = v ↔ n = 0%nat)) ∧
  sv_lexer_str_literal strict (q :: body ++ [q]) ≠ Ub ∧
  (∀ v, sv_lexer_str_literal strict (q :: body ++ [q]) = Ok v → (length v < length (q :: body ++ [q]))%nat).
Proof.
  intros Hq. split; [|].
  - intros n v w rest Hb. split; [|split].
    + unfold scan_string. rewrite scan_from_enough by lia. rewrite (scan_literal_text _ _ _ _ _ _ Hb Hq _ 1 rest) by done. f_equal. lia.
    + intros Ha. unfold sv_lexer_str_literal. cbn [length Nat.eqb]. unfold zlen in Ha. cbn [length] in Ha. rewrite Ha. cbn [negb].
      apply (literal_loop_value _ _ _ _ _ _ Hb Hq _ [] []); [done|]. rewrite length_app. lia.
    + by apply (literal_text_longer _ _ _ _ _ _ Hb).
  - assert (ends_quoted (q :: body ++ [q])) as He by (by exists (q :: body), q).
    unfold sv_lexer_str_literal. destruct (Nat.eqb_spec (length (q :: body ++ [q])) 0); [done|]. destruct (negb _); [by split|].
    apply literal_loop_safe; [done|lia|simpl; lia|simpl; lia].
Qed.

End Decode.

(** The body of a literal with every kind of escape that strict code has, a lone surrogate among
    them, and a continued line. *)
Definition sample_body : list Z := bytes "a\n\x41\u0042\uD83D\uDE00\uDC00\u{1F600}\0\z\" ++ [10].

Definition sample_value : list Z :=
  bytes "a" ++ [10] ++ bytes "AB" ++ enc 0x1F600 ++ enc 0xDC00 ++ enc 0x1F600 ++ [0] ++ bytes "z".

Lemma sample_literal : literal_text true 39 1 sample_body sample_value (sample_value ++ [10]).
Proof.
  apply (lit_char _ _ (CH "a")); [done..|].
  apply (lit_escape _ _ [CH "n"] _ _ [10]); [constructor; left|].
  apply (lit_escape _ _ (bytes "x41") _ _ [CH "A"]); [by apply (esc_hex _ (CH "4") (CH "1"))|].
  apply (lit_escape _ _ (bytes "u0042") _ _ [CH "B"]); [apply (esc_fixed _ (bytes "0042")); [by repeat constructor|done..]|].
  apply (lit_escape _ _ (bytes "uD83D\uDE00") _ _ (enc 0x1F600));
    [apply (esc_pair _ (bytes "D83D") (bytes "DE00")); [by repeat constructor|done|by vm_compute|by repeat constructor|done|by vm_compute]|].
  apply (lit_escape _ _ (bytes "uDC00") _ _ (enc 0xDC00)); [apply (esc_fixed _ (bytes "DC00")); [by repeat constructor|done..]|].
  apply (lit_escape _ _ (bytes "u{1F600}") _ _ (enc 0x1F600)); [apply (esc_braced _ (bytes "1F600")); [by repeat constructor|done|by vm_compute]|].
  apply (lit_escape _ _ (bytes "0") _ _ [0]); [by constructor|].
  apply (lit_escape _ _ (bytes "z") _ _ (bytes "z") [] [10]).
  { apply esc_other; [apply (bool_decide_unpack _); vm_compute; exact I|done..]. }
  apply (lit_continuation _ _ [10] 0 [] [] []); [left|done|constructor].
Qed.

Lemma string_literal_correct_witness :
  scan_string (39 :: sample_body ++ 39 :: bytes ";x") 39 = mk_scan TOK_STRING (length sample_body + 2) None ∧
  @sv_lexer_str_literal standard_unicode (λ _, true) true (39 :: sample_body ++ [39]) = Ok (sample_value ++ [10]).
Proof.
  destruct (@string_literal_correct standard_unicode (λ _, true) true 39 sample_body (or_intror eq_refl)) as [Hv _].
  destruct (Hv 1%nat sample_value (sample_value ++ [10]) (bytes ";x") sample_literal) as (Hscan & Hval & _).
  split; [exact Hscan|by apply Hval].
Defined.
