(* ===== verification/LexDivergence.v ===== *)
(** * The lexer: where it leaves ECMAScript

    What the lexer does with texts that ECMAScript refuses or reads differently, one rule after the
    other. *)

From stdpp Require Import base list strings.
From Stdlib Require Import Ascii.
From S2P Require Import Prelude Utils Utf8 BigIntApi BigIntNumber LexChars LexSkip LexScan LexLiteral LexString LexNumber.

(** Bytes of a string that are neither a backslash nor its quote. *)
Definition plain (q : Z) (cs : list Z) : Prop := Forall (λ c, c ≠ q ∧ c ≠ CH "\") cs.

(** ** White space and comments *)

Lemma skip_comment_unclosed body c : ∀ acc, unclosed (body ++ [c]) →
  skip_comment (body ++ [c]) acc = ([c], acc || bool_decide (10 ∈ body)).
Proof.
  induction body as [|x body IH]; intros acc Hu.
  { cbn. by rewrite orb_false_r. }
  pose proof (IH (acc || (x =? 10)) (unclosed_cons x _ Hu)) as E. rewrite <- orb_assoc, newline_cons in E.
  destruct (body ++ [c]) as [|d r] eqn:Eb; [by destruct body|].
  cbn [app]. rewrite Eb. cbn [skip_comment]. destruct ((x =? CH "*") && (d =? CH "/")) eqn:Ex; [|exact E].
  apply andb_true_iff in Ex as [->%Z.eqb_eq ->%Z.eqb_eq]. exfalso. apply (Hu [] r). cbn [app]. by rewrite Eb.
Qed.

Section Skipping.

Context `{Unicode}.

(** A byte that is neither white space nor a slash is not skipped. *)
Lemma skip_step_last code c : byte_ok c → class_of c = C_0 → skip_step code [c] = None.
Proof.
  intros Hb Hc. cbn [skip_step]. rewrite Hc. unfold skip_html.
  assert (∀ x y w, starts_with (x :: y :: w) [c] = false) as E by (intros; cbn; apply andb_false_r).
  change (bytes "<!--") with [60; 33; 45; 45]. change (bytes "-->") with [45; 45; 62]. by rewrite !E.
Qed.

Lemma skip_step_unclosed code body c : unclosed (body ++ [c]) →
  skip_step code (bytes "/*" ++ body ++ [c]) = Some ([c], bool_decide (10 ∈ body)).
Proof.
  intros Hu. change (skip_step code (bytes "/*" ++ body ++ [c])) with (Some (skip_comment (body ++ [c]) false)).
  by rewrite skip_comment_unclosed.
Qed.

Lemma skiptonext_unclosed body c : byte_ok c → class_of c = C_0 → unclosed (body ++ [c]) →
  sv_skiptonext (bytes "/*" ++ body ++ [c]) 0 = ((2 + length body)%nat, bool_decide (10 ∈ body)).
Proof.
  intros Hb Hc Hu. set (t := bytes "/*" ++ body ++ [c]).
  assert (length t = 3 + length body)%nat as Hl by (subst t; rewrite !length_app; simpl; lia).
  unfold sv_skiptonext. rewrite drop_0. cbn [Nat.eqb andb]. replace (starts_with (bytes "#!") t) with false by done. cbv beta iota.
  assert (skip_loop (S (length t)) t t false = ([c], bool_decide (10 ∈ body))) as ->; [|rewrite Hl; cbn [length]; f_equal; lia].
  rewrite Hl. cbn [Nat.add skip_loop]. rewrite (skip_step_unclosed t body c Hu : skip_step t t = _). cbn [orb]. by rewrite skip_step_last.
Qed.

Lemma skiptonext_line_comment body : 10 ∉ body → sv_skiptonext (bytes "//" ++ body) 0 = ((2 + length body)%nat, false).
Proof.
  intros Hb. set (t := bytes "//" ++ body). assert (length t = 2 + length body)%nat as Hl by done.
  unfold sv_skiptonext. rewrite drop_0. cbn [Nat.eqb andb]. replace (starts_with (bytes "#!") t) with false by done. cbv beta iota.
  rewrite Hl. cbn [Nat.add skip_loop]. assert (skip_step t t = Some (skip_html_line_comment body)) as -> by done.
  rewrite (proj2 (skip_html_line_comment_spec body [] false)) by (by constructor). cbn. done.
Qed.

Lemma skiptonext_returns n : sv_skiptonext (replicate n 13) 0 = (n, false).
Proof.
  unfold sv_skiptonext. rewrite drop_0. cbn [Nat.eqb andb]. replace (starts_with (bytes "#!") (replicate n 13)) with false by (by destruct n). cbv beta iota.
  assert (∀ code k rounds, (k < rounds)%nat → skip_loop rounds code (replicate k 13) false = ([], false)) as E.
  { intros code k. induction k as [|k IH]; intros rounds Hr; (destruct rounds as [|rounds]; [lia|]); [done|].
    cbn [skip_loop replicate]. assert (skip_step code (13 :: replicate k 13) = Some (replicate k 13, false)) as -> by done.
    apply IH. lia. }
  rewrite E by (rewrite length_replicate; lia). rewrite length_replicate. cbn [length]. f_equal. lia.
Qed.

End Skipping.

(** ** Strings *)

Lemma quote_in (q : Z) s t : q ∈ s ++ q :: t.
Proof. apply elem_of_app. right. apply list_elem_of_here. Qed.

Lemma scan_string_plain q cs rest : q = 34 ∨ q = 39 → plain q cs →
  scan_string (q :: cs ++ q :: rest) q = mk_scan TOK_STRING (length cs + 2) None.
Proof.
  intros Hq Hp. unfold scan_string. rewrite scan_from_enough by lia.
  rewrite (scan_chars _ _ cs 1 (q :: rest)) by done.
  rewrite (scan_quote _ _ _ rest); [f_equal; lia| |lia].
  change (drop (1 + length cs) (q :: cs ++ q :: rest)) with (drop (length cs) (cs ++ q :: rest)). apply drop_app_length.
Qed.

(** The two bytes behind [\x], whatever they are. *)
Lemma scan_string_hex q a c d b rest : q = 34 ∨ q = 39 → plain q a → plain q b →
  scan_string (q :: a ++ bytes "\x" ++ c :: d :: b ++ q :: rest) q = mk_scan TOK_STRING (length a + length b + 6) None.
Proof.
  intros Hq Ha Hb. set (buf := q :: a ++ _). assert (q ≠ CH "\") as Hqb by lia.
  assert (length buf = length a + length b + length rest + 6)%nat as Hl.
  { subst buf. cbn [length]. rewrite length_app. cbn. rewrite length_app. cbn [length]. lia. }
  assert (drop (1 + length a) buf = CH "\" :: CH "x" :: c :: d :: b ++ q :: rest) as E1.
  { change (drop (1 + length a) buf) with (drop (length a) (a ++ bytes "\x" ++ c :: d :: b ++ q :: rest)). apply drop_app_length. }
  unfold scan_string. rewrite scan_from_enough by lia. rewrite (scan_chars _ _ a 1 (CH "\" :: CH "x" :: c :: d :: b ++ q :: rest)) by done.
  assert (escape_skip buf (1 + length a) = 4%nat) as Hs by (unfold escape_skip; by rewrite <- at_drop, E1).
  rewrite (scan_escape _ _ _ _ E1), Hs by (lia || by apply (quote_in q (CH "x" :: c :: d :: b))).
  assert (drop (1 + length a + 4) buf = b ++ q :: rest) as E2 by (rewrite <- drop_drop, E1; done).
  rewrite (scan_chars _ _ b _ (q :: rest)) by done.
  rewrite (scan_quote _ _ _ rest); [f_equal; lia| |done].
  rewrite <- drop_drop, E2. apply drop_app_length.
Qed.

Section Values.

Context `{Unicode, Arena}.
Context (arena : ∀ n, parse_arena_bump n = true).

Lemma literal_granted strict s : s ≠ [] → sv_lexer_str_literal strict s = literal_loop (S (length s)) strict s 0 [].
Proof. intros Hs. unfold sv_lexer_str_literal. rewrite arena. by destruct s. Qed.

(** Plain bytes around one escape. *)
Lemma literal_one_escape strict q a e b bs : q = 34 ∨ q = 39 → plain q a → plain q b →
  (∀ r, decodes strict e r bs) → (0 < length e)%nat → (length bs ≤ S (length e))%nat →
  sv_lexer_str_literal strict (q :: a ++ CH "\" :: e ++ b ++ [q]) = Ok (a ++ bs ++ b).
Proof.
  intros Hq Ha Hb Hd He Hl. rewrite literal_granted by done.
  assert (∀ cs, plain q cs → Forall (λ c, c ≠ CH "\") cs) as Hpl by (intros cs Hcs; eapply Forall_impl; [exact Hcs|]; by intros c []).
  replace (S (length (q :: a ++ CH "\" :: e ++ b ++ [q]))) with (length a + S (length b + S (2 + length e)))%nat
    by (cbn [length]; rewrite length_app; cbn [length]; rewrite !length_app; cbn [length]; lia).
  replace (a ++ CH "\" :: e ++ b ++ [q]) with ([] ++ (a ++ CH "\" :: e ++ b) ++ [q]) by (cbn; by rewrite <- app_assoc; cbn; rewrite <- app_assoc).
  rewrite (literal_loop_chars strict q a _ [] (CH "\" :: e ++ b) []) by auto.
  rewrite (literal_loop_escape _ strict q ([] ++ a) e b bs) by done.
  pose proof (literal_loop_chars strict q b (S (2 + length e)) (([] ++ a) ++ CH "\" :: e) [] (([] ++ a) ++ bs)) as Eb.
  rewrite (app_nil_r b) in Eb. rewrite Eb by (auto; rewrite !length_app; cbn [length]; lia).
  cbn [literal_loop app]. rewrite (proj2 (Nat.ltb_ge _ _)) by (cbn [length]; rewrite !length_app; cbn [length]; lia).
  by rewrite <- app_assoc.
Qed.

(** The digits between braces wrap at 32 bits; a number that is no code point stands for nothing. *)
Lemma literal_braced strict q a ds b : q = 34 ∨ q = 39 → plain q a → plain q b → Forall (λ d, is_xdigit d = true) ds →
  sv_lexer_str_literal strict (q :: a ++ bytes "\u{" ++ ds ++ CH "}" :: b ++ [q])
  = Ok (a ++ (if hexv 0 ds mod 2 ^ 32 <=? 0x10FFFF then enc (hexv 0 ds mod 2 ^ 32) else []) ++ b).
Proof.
  intros Hq Ha Hb Hds. pose proof (Z.mod_pos_bound (hexv 0 ds) (2 ^ 32) ltac:(lia)) as Hr.
  assert (utf8_encode (hexv 0 ds mod 2 ^ 32) = if hexv 0 ds mod 2 ^ 32 <=? 0x10FFFF then enc (hexv 0 ds mod 2 ^ 32) else []) as <-.
  { unfold utf8_encode. destruct (Z.leb_spec (hexv 0 ds mod 2 ^ 32) 0x10FFFF).
    - apply utf8proc_encode_codepoint. lia.
    - apply utf8proc_encode_none. lia. }
  replace (bytes "\u{" ++ ds ++ CH "}" :: b ++ [q]) with (CH "\" :: (CH "u" :: CH "{" :: ds ++ [CH "}"]) ++ b ++ [q])
    by (cbn; by rewrite <- app_assoc).
  apply literal_one_escape; [done..| |simpl; lia|].
  - intros r. by apply decodes_braced_any.
  - pose proof (encode_length (hexv 0 ds mod 2 ^ 32) Hr) as He. cbn [length]. rewrite length_app. cbn [length]. repeat case_match; lia.
Qed.

(** [\8] and [\9] stand for the digit, in strict code too. *)
Lemma literal_89 strict q a c b : q = 34 ∨ q = 39 → plain q a → plain q b → c = CH "8" ∨ c = CH "9" →
  sv_lexer_str_literal strict (q :: a ++ CH "\" :: c :: b ++ [q]) = Ok (a ++ c :: b).
Proof.
  intros Hq Ha Hb Hc. apply (literal_one_escape strict q a [c] b [c]); [done..| |simpl; lia|simpl; lia].
  intros r. apply decodes_other; [|lia..|unfold is_octal_digit, between; lia]. unfold single_escapes. cbn.
  rewrite !not_elem_of_cons. repeat split; try lia. apply not_elem_of_nil.
Qed.

(** The other digits are refused there. *)
Lemma literal_octal_strict q a c rest : plain q a → between (CH "1") (CH "7") c = true →
  sv_lexer_str_literal true (q :: a ++ CH "\" :: c :: rest ++ [q])
  = js_mkerr_typed JS_ERR_SYNTAX "Octal escape sequences are not allowed in strict mode.".
Proof.
  intros Ha Hc. rewrite literal_granted by done.
  assert (Forall (λ c, c ≠ CH "\") a) as Hpl by (eapply Forall_impl; [exact Ha|]; by intros x []).
  replace (S (length (q :: a ++ CH "\" :: c :: rest ++ [q]))) with (length a + S (4 + length rest))%nat
    by (cbn [length]; rewrite length_app; cbn [length]; rewrite !length_app; cbn [length]; lia).
  change (a ++ CH "\" :: c :: rest ++ [q]) with ([] ++ a ++ (CH "\" :: c :: rest) ++ [q]). rewrite (app_assoc a).
  rewrite (literal_loop_chars true q a _ [] (CH "\" :: c :: rest) []) by done.
  set (t := q :: ([] ++ a) ++ (CH "\" :: c :: rest) ++ [q]).
  assert (drop (S (length ([] ++ a))) t = CH "\" :: c :: rest ++ [q]) as Ed by (subst t; cbn [drop app]; apply drop_app_length).
  assert (length t = length a + length rest + 4)%nat as Ht by (subst t; cbn [length app]; rewrite length_app; cbn [length app]; rewrite length_app; cbn [length]; lia).
  cbn [literal_loop]. rewrite (proj2 (Nat.ltb_lt _ _)) by (rewrite Ht; cbn [app]; lia).
  assert (rd t (S (length ([] ++ a))) = Ok (CH "\")) as -> by (rewrite <- (Nat.add_0_r (S _)), rd_drop, Ed; done).
  cbn [mbind outcome_bind]. rewrite Z.eqb_refl, is_octal_escape_drop, Ed. unfold is_octal_escape, rd. cbn [lookup list_lookup Nat.add mbind outcome_bind].
  unfold is_octal_digit, between in *. replace ((CH "0" <=? c) && (c <=? CH "7")) with true by lia. replace (c =? CH "0") with false by lia.
  done.
Qed.

End Values.

Section Divergence.

Context `{Unicode, Numerals, Heap, Arena}.

(** C40: what the lexer does where ECMAScript has an error or another reading.  A comment that is
    not closed is no error: the lexer goes on at its last byte, whatever stands before it, and reads
    that byte as code (unless it is white space itself); only the text [/*] is skipped whole.  A carriage return ends no line: a line
    comment runs over it to the next line feed, and any number of them report no line end.  A
    string may have a line feed in it anywhere.  [\x] in a string takes two more bytes with it, whatever
    they are, a closing quote included.  Hexadecimal digits between braces make a number modulo 2^32,
    which stands for its character if it is at most 0x10FFFF and for nothing if not; there may be none, which is 0.  [\8] and
    [\9] are allowed in strict code, where [\1] to [\7] are a SyntaxError.  A prefix [0x], [0o] or
    [0b] without a digit is the number 0.  Numbers above 2^53 are rounded at every digit: the
    binary digits of 2^54 + 3 are read as 2^54, and the nearest double is 2^54 + 4. *)
Theorem lexer_divergence :
  (∀ n, parse_arena_bump n = true) →
  (∀ code body c, unclosed (body ++ [c]) →
     skip_step code (bytes "/*" ++ body ++ [c]) = Some ([c], bool_decide (10 ∈ body))) ∧
  (∀ body c, byte_ok c → class_of c = C_0 → unclosed (body ++ [c]) →
     sv_skiptonext (bytes "/*" ++ body ++ [c]) 0 = ((2 + length body)%nat, bool_decide (10 ∈ body))) ∧
  sv_skiptonext (bytes "/*") 0 = (2%nat, false) ∧
  (∀ a b, 10 ∉ a → 10 ∉ b → sv_skiptonext (bytes "//" ++ a ++ 13 :: b) 0 = ((3 + length a + length b)%nat, false)) ∧
  (∀ n, sv_skiptonext (replicate n 13) 0 = (n, false)) ∧
  (∀ q, q = 34 ∨ q = 39 →
     (∀ a b rest, plain q a → plain q b →
        scan_string (q :: a ++ 10 :: b ++ q :: rest) q = mk_scan TOK_STRING (length a + length b + 3) None) ∧
     (∀ a c d b rest, plain q a → plain q b →
        scan_string (q :: a ++ bytes "\x" ++ c :: d :: b ++ q :: rest) q = mk_scan TOK_STRING (length a + length b + 6) None) ∧
     (∀ strict a ds b, plain q a → plain q b → Forall (λ d, is_xdigit d = true) ds →
        sv_lexer_str_literal strict (q :: a ++ bytes "\u{" ++ ds ++ CH "}" :: b ++ [q])
        = Ok (a ++ (if hexv 0 ds mod 2 ^ 32 <=? 0x10FFFF then enc (hexv 0 ds mod 2 ^ 32) else []) ++ b)) ∧
     (∀ strict a c b, plain q a → plain q b → c = CH "8" ∨ c = CH "9" →
        sv_lexer_str_literal strict (q :: a ++ CH "\" :: c :: b ++ [q]) = Ok (a ++ c :: b)) ∧
     (∀ a c rest, plain q a → between (CH "1") (CH "7") c = true →
        sv_lexer_str_literal true (q :: a ++ CH "\" :: c :: rest ++ [q])
        = js_mkerr_typed JS_ERR_SYNTAX "Octal escape sequences are not allowed in strict mode.")) ∧
  (∀ strict l base rest, (l, base) ∈ radix_prefixes → Forall byte_ok rest →
     rest = [] ∨ is_ident_continue (at_ rest 0) = false →
     parse_number strict (CH "0" :: l :: rest) = mk_scan TOK_NUMBER 2 (Some (Finite false 0 0))) ∧
  parse_number true (bytes "0b1" ++ replicate 52 (CH "0") ++ bytes "11") = mk_scan TOK_NUMBER 57 (Some (Finite false (2 ^ 54) 0)) ∧
  round_double (2 ^ 54 + 3) = Some (2 ^ 54 + 4).
Proof.
  intros Ha. split; [exact skip_step_unclosed|]. split; [exact skiptonext_unclosed|]. split; [reflexivity|]. split; [|split; [exact skiptonext_returns|split]].
  - intros a b H10 H10b. rewrite skiptonext_line_comment.
    + rewrite length_app. cbn [length]. f_equal. lia.
    + rewrite not_elem_of_app, not_elem_of_cons. split; [done|]. split; [lia|done].
  - intros q Hq. split_and!.
    + intros a b rest Hpa Hpb. pose proof (scan_string_plain q (a ++ 10 :: b) rest Hq) as Es. rewrite <- app_assoc in Es. cbn [app] in Es.
      rewrite Es; [rewrite length_app; cbn [length]; f_equal; lia|].
      apply Forall_app. split; [done|]. constructor; [lia|done].
    + intros a c d b rest Hpa Hpb. by apply scan_string_hex.
    + intros strict a ds b Hpa Hpb Hds. by apply literal_braced.
    + intros strict a c b Hpa Hpb Hc. by apply literal_89.
    + intros a c rest Hpa Hc. by apply literal_octal_strict.
  - split; [|split; vm_compute; reflexivity]. intros strict l base rest Hin Hb Hr.
    apply (parse_number_tail strict [CH "0"; l] rest); [|done]. pose proof (radix_prefix_base _ _ Hin).
    apply (number_value_radix strict l base [] rest); [done|constructor|done|constructor| |done].
    destruct rest as [|c rest]; [by left|right]. apply Forall_cons in Hb as [Hc _]. destruct Hr as [?|Hr]; [done|].
    by apply (radix_char_ident base c); [lia|..].
Qed.

End Divergence.

(** A quote taken for a digit, and a character of nine digits. *)
Lemma lexer_divergence_witness :
  scan_string (bytes "'\x'+'a'") 39 = mk_scan TOK_STRING 6 None ∧
  @sv_lexer_str_literal standard_unicode (λ _, true) true (bytes "'\u{100000041}'") = Ok [CH "A"].
Proof.
  destruct (@lexer_divergence standard_unicode (λ _, None) roomy_heap (λ _, true) (λ _, eq_refl))
    as (_ & _ & _ & _ & _ & Hs & _). destruct (Hs 39 (or_intror eq_refl)) as (_ & Hx & Hu & _). split.
  - apply (Hx [] 39 (CH "+") [] (bytes "a'")); constructor.
  - apply (Hu true [] (bytes "100000041") []); [constructor|constructor|]. repeat constructor.
Defined.
