(* ===== verification/Calendar.v ===== *)
(** * Dates: days, years and months

    The calendar of src/src/modules/date.c: [days_in_year], [days_from_year],
    [year_from_days] and the table of months, with the two divisions they use.  Time values are
    milliseconds, days are counted from the first of January 1970.  C's [/] and [%] truncate.

    The proleptic Gregorian calendar is given by which years are leap years: the day on which a
    year starts is 0 for 1970 and grows by the length of each year ([days_from_year_next]). *)

From stdpp Require Import base list.
From S2P Require Import Prelude Utils.

Definition math_mod (a b : Z) : Z :=
  let m := Z.rem a b in m + (if m <? 0 then 1 else 0) * b.

Definition floor_div_int64 (a b : Z) : Z :=
  let m := Z.rem a b in Z.quot (a - (m + (if m <? 0 then 1 else 0) * b)) b.

(** [!x]. *)
Definition lnot_c (x : Z) : Z := if x =? 0 then 1 else 0.

Definition days_in_year (y : Z) : Z :=
  365 + lnot_c (Z.rem y 4) - lnot_c (Z.rem y 100) + lnot_c (Z.rem y 400).

Definition days_from_year (y : Z) : Z :=
  365 * (y - 1970) + floor_div_int64 (y - 1969) 4 - floor_div_int64 (y - 1901) 100 + floor_div_int64 (y - 1601) 400.

(** The loop of [year_from_days] from the year [y] on: the year, and the day in it. *)
Fixpoint year_loop (rounds : nat) (d y : Z) : outcome (Z * Z) :=
  match rounds with
  | O => Ub
  | S rounds =>
      let d1 := d - days_from_year y in
      if d1 <? 0 then year_loop rounds d (y - 1)
      else if d1 <? days_in_year y then Ok (y, d1)
      else year_loop rounds d (y + 1)
  end.

(** A product that leaves 64 bits is undefined.  The first guess is at most one year off. *)
Definition year_from_days (d : Z) : outcome (Z * Z) :=
  if (- 2 ^ 63 <=? d * 10000) && (d * 10000 <? 2 ^ 63)
  then year_loop 3 d (floor_div_int64 (d * 10000) 3652425 + 1970)
  else Ub.

Definition month_days : list Z := [31; 28; 31; 30; 31; 30; 31; 31; 30; 31; 30; 31].

(** The length of month [i] of year [y]: the loops add the leap day to the second month. *)
Definition month_len (y : Z) (i : nat) : Z :=
  at_ month_days i + (if (i =? 1)%nat then days_in_year y - 365 else 0).

(** ** The divisions *)

Lemma math_mod_mod a b : 0 < b → math_mod a b = a mod b.
Proof.
  intros Hb. unfold math_mod. pose proof (Z.quot_rem a b ltac:(lia)). pose proof (Z.rem_bound_abs a b ltac:(lia)).
  destruct (Z.ltb_spec (Z.rem a b) 0).
  - apply (Z.mod_unique a b (Z.quot a b - 1)); lia.
  - apply (Z.mod_unique a b (Z.quot a b)); lia.
Qed.

Lemma floor_div_div a b : 0 < b → floor_div_int64 a b = a / b.
Proof.
  intros Hb. change (floor_div_int64 a b) with (Z.quot (a - math_mod a b) b). rewrite math_mod_mod by done.
  rewrite (Z.div_mod a b) at 1 by lia. replace (b * (a / b) + a mod b - a mod b) with (a / b * b) by lia. by rewrite Z.quot_mul by lia.
Qed.

(** ** Years *)

Definition leap (y : Z) : bool := (y mod 4 =? 0) && (negb (y mod 100 =? 0) || (y mod 400 =? 0)).

Lemma rem_zero y b : 0 < b → (Z.rem y b =? 0) = (y mod b =? 0).
Proof.
  intros Hb. destruct (Z.eqb_spec (y mod b) 0) as [E|E], (Z.eqb_spec (Z.rem y b) 0) as [E'|E']; try done; exfalso.
  - apply E'. apply Z.rem_divide; [lia|]. by apply Z.mod_divide; [lia|].
  - apply E. apply Z.mod_divide; [lia|]. by apply Z.rem_divide; [lia|].
Qed.

Lemma days_in_year_leap y : days_in_year y = if leap y then 366 else 365.
Proof.
  unfold days_in_year, lnot_c, leap. rewrite !rem_zero by lia.
  destruct (Z.eqb_spec (y mod 4) 0), (Z.eqb_spec (y mod 100) 0), (Z.eqb_spec (y mod 400) 0); simpl; Z.to_euclidean_division_equations; lia.
Qed.

Lemma days_from_year_div y : days_from_year y = 365 * (y - 1970) + (y - 1969) / 4 - (y - 1901) / 100 + (y - 1601) / 400.
Proof. unfold days_from_year. by rewrite !floor_div_div by lia. Qed.

Lemma div_next a b : 0 < b → (a + 1) / b = a / b + (if (a + 1) mod b =? 0 then 1 else 0).
Proof. intros Hb. destruct (Z.eqb_spec ((a + 1) mod b) 0); Z.to_euclidean_division_equations; nia. Qed.

(** Each year starts where the one before it ends, and 1970 starts on day 0. *)
Lemma days_from_year_next y : days_from_year (y + 1) = days_from_year y + days_in_year y.
Proof.
  rewrite !days_from_year_div, days_in_year_leap.
  replace (y + 1 - 1969) with ((y - 1969) + 1) by lia. replace (y + 1 - 1901) with ((y - 1901) + 1) by lia.
  replace (y + 1 - 1601) with ((y - 1601) + 1) by lia. rewrite !div_next by lia. unfold leap.
  replace (y - 1969 + 1) with (y + (-492) * 4) by lia. replace (y - 1901 + 1) with (y + (-19) * 100) by lia.
  replace (y - 1601 + 1) with (y + (-4) * 400) by lia. rewrite !Z.mod_add by lia.
  destruct (Z.eqb_spec (y mod 4) 0), (Z.eqb_spec (y mod 100) 0), (Z.eqb_spec (y mod 400) 0); simpl; Z.to_euclidean_division_equations; lia.
Qed.

Lemma days_in_year_range y : 365 <= days_in_year y <= 366.
Proof. rewrite days_in_year_leap. destruct (leap y); lia. Qed.

Lemma days_from_year_mono y z : y < z → days_from_year y + days_in_year y <= days_from_year z.
Proof.
  intros Hyz. replace z with (y + Z.of_nat (S (Z.to_nat (z - y - 1)))) by lia. generalize (Z.to_nat (z - y - 1)) as n. clear Hyz z.
  induction n as [|n IH]; [rewrite <- days_from_year_next; by apply Z.eq_le_incl; f_equal; lia|].
  replace (y + Z.of_nat (S (S n))) with (y + Z.of_nat (S n) + 1) by lia. rewrite (days_from_year_next (y + Z.of_nat (S n))).
  pose proof (days_in_year_range (y + Z.of_nat (S n))). lia.
Qed.

(** The year a day lies in. *)
Definition in_year (y d : Z) : Prop := days_from_year y <= d < days_from_year (y + 1).

Lemma in_year_unique y z d : in_year y d → in_year z d → y = z.
Proof.
  unfold in_year. rewrite !days_from_year_next. intros Hy Hz. destruct (Z.lt_trichotomy y z) as [H|[H|H]]; [|done|].
  - pose proof (days_from_year_mono y z H). lia.
  - pose proof (days_from_year_mono z y H). lia.
Qed.

Lemma days_from_year_linear y :
  3652425 * (y - 1970) - 30000 <= 10000 * days_from_year y <= 3652425 * (y - 1970) + 30000.
Proof. rewrite days_from_year_div. Z.to_euclidean_division_equations. lia. Qed.

Lemma year_loop_here rounds d y : in_year y d → year_loop (S rounds) d y = Ok (y, d - days_from_year y).
Proof.
  unfold in_year. rewrite days_from_year_next. intros Hy. cbn [year_loop]. rewrite (proj2 (Z.ltb_ge _ _)) by lia.
  by rewrite (proj2 (Z.ltb_lt _ _)) by lia.
Qed.

Lemma year_loop_step rounds d y :
  year_loop (S rounds) d y =
    if d - days_from_year y <? 0 then year_loop rounds d (y - 1)
    else if d - days_from_year y <? days_in_year y then Ok (y, d - days_from_year y)
    else year_loop rounds d (y + 1).
Proof. done. Qed.

(** The loop finds the year, at once or in one step. *)
Lemma year_from_days_spec d : - 2 ^ 63 <= d * 10000 < 2 ^ 63 → ∃ y, year_from_days d = Ok (y, d - days_from_year y) ∧ in_year y d.
Proof.
  intros Hd. unfold year_from_days. rewrite (proj2 (Z.leb_le _ _)), (proj2 (Z.ltb_lt _ _)) by lia. cbn [andb].
  rewrite floor_div_div by lia. set (y := d * 10000 / 3652425 + 1970).
  assert (3652425 * (y - 1970) <= d * 10000 < 3652425 * (y - 1970) + 3652425) as Hy
    by (subst y; Z.to_euclidean_division_equations; lia).
  clearbody y. pose proof (days_from_year_linear (y - 1)). pose proof (days_from_year_linear (y + 2)).
  destruct (Z.lt_ge_cases d (days_from_year y)) as [Hlt|Hge].
  - assert (in_year (y - 1) d) as Hin by (unfold in_year; replace (y - 1 + 1) with y by lia; lia).
    exists (y - 1). split; [|done]. rewrite year_loop_step, (proj2 (Z.ltb_lt (d - days_from_year y) 0)) by lia. by rewrite (year_loop_here 1 d).
  - destruct (Z.lt_ge_cases d (days_from_year (y + 1))) as [Hlt|Hge'].
    + exists y. split; [|done]. by apply year_loop_here.
    + assert (in_year (y + 1) d) as Hin by (unfold in_year; replace (y + 1 + 1) with (y + 2) by lia; lia).
      exists (y + 1). split; [|done]. rewrite days_from_year_next in Hge'.
      rewrite year_loop_step, (proj2 (Z.ltb_ge (d - days_from_year y) 0)), (proj2 (Z.ltb_ge (d - days_from_year y) _)) by lia. by rewrite (year_loop_here 1 d).
Qed.

(** ** Months *)

(** The loop of [date_extract_fields_from_time] from month [i] on: the month and the day in it. *)
Fixpoint month_loop (rounds : nat) (y : Z) (i : nat) (days : Z) : nat * Z :=
  match rounds with
  | O => (i, days)
  | S rounds =>
      let md := month_len y i in
      if days <? md then (i, days) else month_loop rounds y (S i) (days - md)
  end.

(** The loop of [date_make_fields]: the days before month [i + n], on top of [days]. *)
Fixpoint add_months (n : nat) (y : Z) (i : nat) (days : Z) : Z :=
  match n with
  | O => days
  | S n => add_months n y (S i) (days + month_len y i)
  end.

(** The days of a year before month [i]. *)
Definition days_before_month (y : Z) (i : nat) : Z := add_months i y 0 0.

Lemma month_len_range y i : (i < 12)%nat → 28 <= month_len y i <= 31.
Proof.
  intros Hi. unfold month_len, at_, month_days. pose proof (days_in_year_range y) as Hr. revert Hr. generalize (days_in_year y) as n. intros n Hr.
  do 12 (destruct i as [|i]; [simpl; lia|]). lia.
Qed.

Lemma add_months_acc n y : ∀ i d, add_months n y i d = d + add_months n y i 0.
Proof. induction n as [|n IH]; intros i d; simpl; [lia|]. rewrite IH, (IH _ (month_len y i)). lia. Qed.

Lemma add_months_S n y : ∀ i, add_months (S n) y i 0 = add_months n y i 0 + month_len y (i + n).
Proof.
  induction n as [|n IH]; intros i; [simpl; rewrite Nat.add_0_r; lia|].
  change (add_months (S (S n)) y i 0) with (add_months (S n) y (S i) (0 + month_len y i)). rewrite add_months_acc, IH.
  cbn [add_months]. rewrite (add_months_acc n y (S i) (0 + month_len y i)). replace (S i + n)%nat with (i + S n)%nat by lia. lia.
Qed.

Lemma days_before_next y i : days_before_month y (S i) = days_before_month y i + month_len y i.
Proof. unfold days_before_month. by rewrite add_months_S. Qed.

Lemma days_before_year y : days_before_month y 12 = days_in_year y.
Proof.
  unfold days_before_month, add_months, month_len, at_, month_days. generalize (days_in_year y) as n. intros n. simpl. lia.
Qed.

Lemma days_before_mono y i j : (i < j ≤ 12)%nat → days_before_month y i + month_len y i <= days_before_month y j.
Proof.
  intros [Hij Hj]. induction j as [|j IH]; [lia|]. rewrite days_before_next. destruct (decide (i = j)) as [->|]; [lia|].
  pose proof (month_len_range y j ltac:(lia)). specialize (IH ltac:(lia) ltac:(lia)). lia.
Qed.

Lemma days_before_nonneg y i : (i ≤ 12)%nat → 0 <= days_before_month y i.
Proof.
  intros Hi. destruct i as [|i]; [done|]. pose proof (days_before_mono y 0 (S i) ltac:(lia)) as Hm. pose proof (month_len_range y 0 ltac:(lia)).
  change (days_before_month y 0) with 0 in Hm. lia.
Qed.

(** A day of the year is one day of one month. *)
Lemma month_unique y i j a b : (i < 12)%nat → (j < 12)%nat → 0 <= a < month_len y i → 0 <= b < month_len y j →
  days_before_month y i + a = days_before_month y j + b → i = j ∧ a = b.
Proof.
  intros Hi Hj Ha Hb E. destruct (Nat.lt_trichotomy i j) as [H|[->|H]]; [|by split; [|lia]|].
  - pose proof (days_before_mono y i j ltac:(lia)). lia.
  - pose proof (days_before_mono y j i ltac:(lia)). lia.
Qed.

Lemma month_loop_spec rounds y : ∀ i days, 0 <= days → ∃ j r, month_loop rounds y i days = (j, r) ∧ (i ≤ j ≤ i + rounds)%nat ∧ 0 <= r ∧
  days_before_month y i + days = days_before_month y j + r ∧ ((j < i + rounds)%nat → r < month_len y j).
Proof.
  induction rounds as [|rounds IH]; intros i days Hd; [exists i, days; repeat split; try done; lia|]. cbn [month_loop].
  destruct (Z.ltb_spec days (month_len y i)); [exists i, days; repeat split; try done; lia|].
  destruct (IH (S i) (days - month_len y i)) as (j & r & -> & Hj & Hr & E & Hlt); [lia|]. exists j, r. split; [done|].
  rewrite days_before_next in E. split; [lia|]. split; [done|]. split; [lia|]. intros ?. apply Hlt. lia.
Qed.

(** The loop finds the month. *)
Lemma month_loop_year y days : 0 <= days < days_in_year y → ∃ j r, month_loop 11 y 0 days = (j, r) ∧ (j < 12)%nat ∧
  0 <= r < month_len y j ∧ days = days_before_month y j + r.
Proof.
  intros Hd. destruct (month_loop_spec 11 y 0 days) as (j & r & E & Hj & Hr & Es & Hlt); [lia|]. exists j, r. split; [done|]. split; [lia|].
  change (days_before_month y 0) with 0 in Es. split; [|lia]. split; [done|]. destruct (decide (j = 11)%nat) as [->|]; [|apply Hlt; lia].
  pose proof (days_before_next y 11). pose proof (days_before_year y). lia.
Qed.
