(* ===== verification/Date.v ===== *)
(** * Dates: time values and their fields

    The operations of src/src/modules/date.c on time values.  A time value, and a number given
    as an argument and truncated, is [None] when it is not finite and the integer it is
    otherwise: the doubles of this file that are finite are integers, but for the quotient by 12
    in [date_make_fields].  [rnd] rounds an integer to a double; every floating-point operation
    is one on integers followed by [rnd], or [floor_12].

    A Date object is the time value in its slot; [this] is [None] for a value that is no Date.
    What the system knows of time zones is the class [TimeZone]: the minutes from local time to
    UTC at a time. *)

From stdpp Require Import base list strings.
From S2P Require Import Prelude Utils BigIntNumber Calendar.

Class TimeZone := get_timezone_offset : Z → Z.

Record date_fields_t := mk_fields {
  year : Z; month : Z; day : Z; hour : Z; minute : Z; second : Z; millisecond : Z; weekday : Z; tz_minutes : Z
}.

Definition DATE_FIELD_YEAR : nat := 0.

Definition DATE_FIELD_MONTH : nat := 1.

Definition DATE_FIELD_DAY_OF_MONTH : nat := 2.

Definition DATE_FIELD_HOUR : nat := 3.

Definition DATE_FIELD_MINUTE : nat := 4.

Definition DATE_FIELD_SECOND : nat := 5.

Definition DATE_FIELD_MILLISECOND : nat := 6.

Definition DATE_FIELD_DAY_OF_WEEK : nat := 7.

Definition date_fields_get (f : date_fields_t) (index : nat) : Z :=
  match index with
  | 0%nat => year f | 1%nat => month f | 2%nat => day f | 3%nat => hour f | 4%nat => minute f
  | 5%nat => second f | 6%nat => millisecond f | 7%nat => weekday f | 8%nat => tz_minutes f | _ => 0
  end.

Definition date_fields_set (f : date_fields_t) (index : nat) (v : Z) : date_fields_t :=
  let '(mk_fields y mo d h mi s ms wd tz) := f in
  match index with
  | 0%nat => mk_fields v mo d h mi s ms wd tz
  | 1%nat => mk_fields y v d h mi s ms wd tz
  | 2%nat => mk_fields y mo v h mi s ms wd tz
  | 3%nat => mk_fields y mo d v mi s ms wd tz
  | 4%nat => mk_fields y mo d h v s ms wd tz
  | 5%nat => mk_fields y mo d h mi v ms wd tz
  | 6%nat => mk_fields y mo d h mi s v wd tz
  | 7%nat => mk_fields y mo d h mi s ms v tz
  | 8%nat => mk_fields y mo d h mi s ms wd v
  | _ => f
  end.

(** ** Doubles *)

(** The double nearest to an integer, [None] for an infinity. *)
Definition rnd (z : Z) : option Z :=
  if 0 <=? z then round_double z else Z.opp <$> round_double (- z).

(** The nearest integer, the even one of two. *)
Definition nearest (a b : Z) : Z :=
  let q := a / b in
  let r := a mod b in
  if 2 * r <? b then q else if b <? 2 * r then q + 1 else if Z.even q then q else q + 1.

(** The double nearest to [m / 12] for [m >= 0], as a fraction.  It has 53 significant bits, [k]
    of them behind the point.  Below 1 the fraction itself will do: its double lies on the same
    side of 0 and of 1. *)
Definition quotient_12 (m : Z) : Z * Z :=
  let k := 52 - Z.log2 (m / 12) in
  if m <? 12 then (m, 12)
  else if 0 <=? k then (nearest (m * 2 ^ k) 12, 2 ^ k)
  else (nearest m (12 * 2 ^ (- k)) * 2 ^ (- k), 1).

(** [floor(m / 12)]. *)
Definition floor_12 (m : Z) : Z :=
  if 0 <=? m then let '(q, d) := quotient_12 m in q / d
  else let '(q, d) := quotient_12 (- m) in - ((q + d - 1) / d).

(** ** Time values and fields *)

Definition date_timeclip (t : Z) : option Z :=
  if (-8640000000000000 <=? t) && (t <=? 8640000000000000) then Some t else None.

(** The fields of the local time [d], which is [tz] minutes ahead of UTC. *)
Definition fields_of (d tz : Z) : outcome date_fields_t :=
  let h := math_mod d 86400000 in
  let days := Z.quot (d - h) 86400000 in
  let ms := Z.rem h 1000 in
  let h := Z.quot (h - ms) 1000 in
  let s := Z.rem h 60 in
  let h := Z.quot (h - s) 60 in
  let m := Z.rem h 60 in
  let h := Z.quot (h - m) 60 in
  let wd := math_mod (days + 4) 7 in
  r ← year_from_days days;
  let '(y, days) := r in
  let '(i, days) := month_loop 11 y 0 days in
  Ok (mk_fields y (Z.of_nat i) (days + 1) h m s ms wd tz).

Section Date.

Context `{TimeZone}.

(** [Ok None] when 0 is returned. *)
Definition date_extract_fields_from_time (dval : option Z) (is_local force : bool) : outcome (option date_fields_t) :=
  match dval with
  | None => if force then f ← fields_of 0 0; Ok (Some f) else Ok None
  | Some d =>
      let tz := if is_local then - get_timezone_offset d else 0 in
      f ← fields_of (d + tz * 60000) tz;
      Ok (Some f)
  end.

(** The milliseconds since midnight. *)
Definition make_time (h m s milli : Z) : option Z :=
  time ← rnd (h * 3600000);
  temp ← rnd (m * 60000);
  time ← rnd (time + temp);
  temp ← rnd (s * 1000);
  time ← rnd (time + temp);
  rnd (time + milli).

Definition date_make_fields (f : date_fields_t) (is_local : bool) : option Z :=
  ym ← rnd (year f + floor_12 (month f));
  let mn := Z.rem (month f) 12 in
  let mn := if mn <? 0 then mn + 12 else mn in
  if (ym <? -271821) || (275760 <? ym) then None
  else
    let days := add_months (Z.to_nat mn) ym 0 (days_from_year ym) in
    d ← rnd (days + day f);
    d ← rnd (d - 1);
    time ← make_time (hour f) (minute f) (second f) (millisecond f);
    temp ← rnd (d * 86400000);
    tv ← rnd (temp + time);
    tv ← (if is_local then
            let ti := if tv <? - 2 ^ 63 then - 2 ^ 63 else if 2 ^ 63 <=? tv then 2 ^ 63 - 1 else tv in
            rnd (tv + get_timezone_offset ti * 60000)
          else Some tv);
    date_timeclip tv.

(** ** Date objects *)

Definition date_this_time_value (this : option (option Z)) : outcome (option Z) :=
  match this with Some t => Ok t | None => js_mkerr_typed JS_ERR_TYPE "not a Date object" end.

(** The slot after the call, and what is returned. *)
Definition date_set_this_time_value (this : option (option Z)) (v : option Z) : outcome (option Z * option Z) :=
  match this with Some _ => Ok (v, v) | None => js_mkerr_typed JS_ERR_TYPE "not a Date object" end.

Definition date_get_field (this : option (option Z)) (field : nat) (local_time legacy_get_year : bool) : outcome (option Z) :=
  t ← date_this_time_value this;
  r ← date_extract_fields_from_time t local_time false;
  match r with
  | None => Ok None
  | Some f =>
      let f := if legacy_get_year then date_fields_set f DATE_FIELD_YEAR (year f - 1900) else f in
      Ok (Some (date_fields_get f field))
  end.

(** The arguments from field [index] on; [None] when one is not finite. *)
Fixpoint set_fields (f : date_fields_t) (index : nat) (args : list (option Z)) : option date_fields_t :=
  match args with
  | [] => Some f
  | None :: _ => None
  | Some a :: args => set_fields (date_fields_set f index a) (S index) args
  end.

Definition zero_fields : date_fields_t := mk_fields 0 0 0 0 0 0 0 0 0.

Definition date_set_field (this : option (option Z)) (args : list (option Z)) (first_field end_field_exclusive : nat)
    (local_time : bool) : outcome (option Z * option Z) :=
  t ← date_this_time_value this;
  res ← date_extract_fields_from_time t local_time (first_field =? DATE_FIELD_YEAR)%nat;
  match set_fields (default zero_fields res) first_field (take (end_field_exclusive - first_field) args) with
  | None => date_set_this_time_value this None
  | Some f =>
      match res with
      | None => Ok (t, None)
      | Some _ => date_set_this_time_value this (match args with [] => None | _ => date_make_fields f local_time end)
      end
  end.

(** The loops of [Date.UTC] and of the constructor: a year of two digits is one of the last century. *)
Fixpoint constructor_fields (f : date_fields_t) (i : nat) (args : list (option Z)) : option date_fields_t :=
  match args with
  | [] => Some f
  | None :: _ => None
  | Some t :: args =>
      let f := date_fields_set f i t in
      let f := if (i =? 0)%nat && (0 <=? year f) && (year f <? 100) then date_fields_set f 0 (year f + 1900) else f in
      constructor_fields f (S i) args
  end.

Definition builtin_Date_UTC (args : list (option Z)) : option Z :=
  match args with
  | [] => None
  | _ => f ← constructor_fields (date_fields_set zero_fields DATE_FIELD_DAY_OF_MONTH 1) 0 (take 7 args); date_make_fields f false
  end.

(** The constructor with two arguments or more. *)
Definition builtin_Date_fields (args : list (option Z)) : option Z :=
  f ← constructor_fields (date_fields_set zero_fields DATE_FIELD_DAY_OF_MONTH 1) 0 (take 7 args); date_make_fields f true.

(** The constructor with a number, or a date. *)
Definition builtin_Date_number (v : option Z) : option Z := t ← v; date_timeclip t.

Definition builtin_Date_valueOf (this : option (option Z)) : outcome (option Z) := date_this_time_value this.

Definition builtin_Date_getTimezoneOffset (this : option (option Z)) : outcome (option Z) :=
  v ← date_this_time_value this; Ok (option_map get_timezone_offset v).

Definition builtin_Date_setTime (this : option (option Z)) (args : list (option Z)) : outcome (option Z * option Z) :=
  _ ← date_this_time_value this;
  date_set_this_time_value this (match args with v :: _ => t ← v; date_timeclip t | [] => None end).

Definition builtin_Date_setYear (this : option (option Z)) (args : list (option Z)) : outcome (option Z * option Z) :=
  _ ← date_this_time_value this;
  match args with
  | Some y :: _ =>
      date_set_field this [Some (if (0 <=? y) && (y <? 100) then y + 1900 else y)] DATE_FIELD_YEAR DATE_FIELD_MONTH true
  | _ => date_set_this_time_value this None
  end.

Definition builtin_Date_getYear (this : option (option Z)) : outcome (option Z) := date_get_field this DATE_FIELD_YEAR true true.

Definition builtin_Date_getFullYear (this : option (option Z)) : outcome (option Z) := date_get_field this DATE_FIELD_YEAR true false.

Definition builtin_Date_getUTCFullYear (this : option (option Z)) : outcome (option Z) := date_get_field this DATE_FIELD_YEAR false false.

Definition builtin_Date_getMonth (this : option (option Z)) : outcome (option Z) := date_get_field this DATE_FIELD_MONTH true false.

Definition builtin_Date_getUTCMonth (this : option (option Z)) : outcome (option Z) := date_get_field this DATE_FIELD_MONTH false false.

Definition builtin_Date_getDate (this : option (option Z)) : outcome (option Z) := date_get_field this DATE_FIELD_DAY_OF_MONTH true false.

Definition builtin_Date_getUTCDate (this : option (option Z)) : outcome (option Z) := date_get_field this DATE_FIELD_DAY_OF_MONTH false false.

Definition builtin_Date_getHours (this : option (option Z)) : outcome (option Z) := date_get_field this DATE_FIELD_HOUR true false.

Definition builtin_Date_getUTCHours (this : option (option Z)) : outcome (option Z) := date_get_field this DATE_FIELD_HOUR false false.

Definition builtin_Date_getMinutes (this : option (option Z)) : outcome (option Z) := date_get_field this DATE_FIELD_MINUTE true false.

Definition builtin_Date_getUTCMinutes (this : option (option Z)) : outcome (option Z) := date_get_field this DATE_FIELD_MINUTE false false.

Definition builtin_Date_getSeconds (this : option (option Z)) : outcome (option Z) := date_get_field this DATE_FIELD_SECOND true false.

Definition builtin_Date_getUTCSeconds (this : option (option Z)) : outcome (option Z) := date_get_field this DATE_FIELD_SECOND false false.

Definition builtin_Date_getMilliseconds (this : option (option Z)) : outcome (option Z) := date_get_field this DATE_FIELD_MILLISECOND true false.

Definition builtin_Date_getUTCMilliseconds (this : option (option Z)) : outcome (option Z) := date_get_field this DATE_FIELD_MILLISECOND false false.

Definition builtin_Date_getDay (this : option (option Z)) : outcome (option Z) := date_get_field this DATE_FIELD_DAY_OF_WEEK true false.

Definition builtin_Date_getUTCDay (this : option (option Z)) : outcome (option Z) := date_get_field this DATE_FIELD_DAY_OF_WEEK false false.

Definition builtin_Date_setMilliseconds (this : option (option Z)) (args : list (option Z)) : outcome (option Z * option Z) :=
  date_set_field this args DATE_FIELD_MILLISECOND DATE_FIELD_DAY_OF_WEEK true.

Definition builtin_Date_setUTCMilliseconds (this : option (option Z)) (args : list (option Z)) : outcome (option Z * option Z) :=
  date_set_field this args DATE_FIELD_MILLISECOND DATE_FIELD_DAY_OF_WEEK false.

Definition builtin_Date_setSeconds (this : option (option Z)) (args : list (option Z)) : outcome (option Z * option Z) :=
  date_set_field this args DATE_FIELD_SECOND DATE_FIELD_DAY_OF_WEEK true.

Definition builtin_Date_setUTCSeconds (this : option (option Z)) (args : list (option Z)) : outcome (option Z * option Z) :=
  date_set_field this args DATE_FIELD_SECOND DATE_FIELD_DAY_OF_WEEK false.

Definition builtin_Date_setMinutes (this : option (option Z)) (args : list (option Z)) : outcome (option Z * option Z) :=
  date_set_field this args DATE_FIELD_MINUTE DATE_FIELD_DAY_OF_WEEK true.

Definition builtin_Date_setUTCMinutes (this : option (option Z)) (args : list (option Z)) : outcome (option Z * option Z) :=
  date_set_field this args DATE_FIELD_MINUTE DATE_FIELD_DAY_OF_WEEK false.

Definition builtin_Date_setHours (this : option (option Z)) (args : list (option Z)) : outcome (option Z * option Z) :=
  date_set_field this args DATE_FIELD_HOUR DATE_FIELD_DAY_OF_WEEK true.

Definition builtin_Date_setUTCHours (this : option (option Z)) (args : list (option Z)) : outcome (option Z * option Z) :=
  date_set_field this args DATE_FIELD_HOUR DATE_FIELD_DAY_OF_WEEK false.

Definition builtin_Date_setDate (this : option (option Z)) (args : list (option Z)) : outcome (option Z * option Z) :=
  date_set_field this args DATE_FIELD_DAY_OF_MONTH DATE_FIELD_HOUR true.

Definition builtin_Date_setUTCDate (this : option (option Z)) (args : list (option Z)) : outcome (option Z * option Z) :=
  date_set_field this args DATE_FIELD_DAY_OF_MONTH DATE_FIELD_HOUR false.

Definition builtin_Date_setMonth (this : option (option Z)) (args : list (option Z)) : outcome (option Z * option Z) :=
  date_set_field this args DATE_FIELD_MONTH DATE_FIELD_DAY_OF_MONTH true.

Definition builtin_Date_setUTCMonth (this : option (option Z)) (args : list (option Z)) : outcome (option Z * option Z) :=
  date_set_field this args DATE_FIELD_MONTH DATE_FIELD_DAY_OF_MONTH false.

Definition builtin_Date_setFullYear (this : option (option Z)) (args : list (option Z)) : outcome (option Z * option Z) :=
  date_set_field this args DATE_FIELD_YEAR DATE_FIELD_HOUR true.

Definition builtin_Date_setUTCFullYear (this : option (option Z)) (args : list (option Z)) : outcome (option Z * option Z) :=
  date_set_field this args DATE_FIELD_YEAR DATE_FIELD_HOUR false.

End Date.
