(* ===== verification/DateFields.v ===== *)
(** * Dates: fields and time values are the same

    A civil date is valid fields; [time_of] is the time value ECMAScript gives fields, valid or
    not.  Between the time values and the valid civil dates the code is a bijection, and for any
    fields [date_make_fields] computes [time_of], clipped. *)

From stdpp Require Import base list strings.
From S2P Require Import Prelude Utils BigIntNumber Calendar Date.

(** ** The standard *)

(** MakeDay: months beyond the year are carried. *)
Definition make_day (y m d : Z) : Z :=
  days_from_year (y + m / 12) + days_before_month (y + m / 12) (Z.to_nat (m mod 12)) + d - 1.

Definition time_of (f : date_fields_t) : Z :=
  make_day (year f) (month f) (day f) * 86400000
  + (hour f * 3600000 + minute f * 60000 + second f * 1000 + millisecond f).

(** A date of the calendar and a time of the day. *)
Record civil (f : date_fields_t) : Prop := {
  civil_month : 0 <= month f < 12;
  civil_day : 1 <= day f <= month_len (year f) (Z.to_nat (month f));
  civil_hour : 0 <= hour f < 24;
  civil_minute : 0 <= minute f < 60;
  civil_second : 0 <= second f < 60;
  civil_ms : 0 <= millisecond f < 1000
}.

Definition in_range (t : Z) : Prop := -8640000000000000 <= t <= 8640000000000000.

Lemma make_day_civil f : civil f →
  make_day (year f) (month f) (day f) = days_from_year (year f) + (days_before_month (year f) (Z.to_nat (month f)) + (day f - 1)).
Proof.
  intros [Hm _ _ _ _ _]. unfold make_day. rewrite Z.div_small, Z.mod_small by lia. rewrite Z.add_0_r. lia.
Qed.

(** The day of the year is one of the year. *)
Lemma civil_in_year f : civil f → in_year (year f) (make_day (year f) (month f) (day f)).
Proof.
  intros Hf. rewrite make_day_civil by done. destruct Hf as [Hm Hd _ _ _ _]. unfold in_year. rewrite days_from_year_next.
  pose proof (days_before_nonneg (year f) (Z.to_nat (month f)) ltac:(lia)).
  pose proof (days_before_mono (year f) (Z.to_nat (month f)) 12 ltac:(lia)) as Hs. rewrite days_before_year in Hs. lia.
Qed.

(** ** From time values to fields *)

(** The time of the day in hours, minutes, seconds and milliseconds. *)
Lemma clock_split r : 0 <= r < 86400000 →
  let ms := Z.rem r 1000 in let h1 := Z.quot (r - ms) 1000 in
  let s := Z.rem h1 60 in let h2 := Z.quot (h1 - s) 60 in
  let m := Z.rem h2 60 in let h := Z.quot (h2 - m) 60 in
  0 <= h < 24 ∧ 0 <= m < 60 ∧ 0 <= s < 60 ∧ 0 <= ms < 1000 ∧ r = h * 3600000 + m * 60000 + s * 1000 + ms.
Proof.
  intros Hr. cbv zeta. rewrite (Z.rem_mod_nonneg r) by lia. set (ms := r mod 1000).
  assert (0 <= ms < 1000 ∧ Z.quot (r - ms) 1000 = r / 1000) as [Hms ->].
  { subst ms. split; [Z.to_euclidean_division_equations; lia|]. rewrite Z.quot_div_nonneg by (Z.to_euclidean_division_equations; lia). Z.to_euclidean_division_equations; lia. }
  assert (r = 1000 * (r / 1000) + ms) as Er by (subst ms; apply Z.div_mod; lia). clearbody ms.
  assert (0 <= r / 1000 < 86400) as Hq by lia. set (q := r / 1000) in *. clearbody q.
  rewrite (Z.rem_mod_nonneg q) by lia. set (s := q mod 60).
  assert (0 <= s < 60 ∧ Z.quot (q - s) 60 = q / 60) as [Hs ->].
  { subst s. split; [Z.to_euclidean_division_equations; lia|]. rewrite Z.quot_div_nonneg by (Z.to_euclidean_division_equations; lia). Z.to_euclidean_division_equations; lia. }
  assert (q = 60 * (q / 60) + s) as Eq by (subst s; apply Z.div_mod; lia). clearbody s.
  assert (0 <= q / 60 < 1440) as Hu by lia. set (u := q / 60) in *. clearbody u.
  rewrite (Z.rem_mod_nonneg u) by lia. set (m := u mod 60).
  assert (0 <= m < 60 ∧ Z.quot (u - m) 60 = u / 60) as [Hm ->].
  { subst m. split; [Z.to_euclidean_division_equations; lia|]. rewrite Z.quot_div_nonneg by (Z.to_euclidean_division_equations; lia). Z.to_euclidean_division_equations; lia. }
  assert (u = 60 * (u / 60) + m) as Eu by (subst m; apply Z.div_mod; lia). clearbody m. lia.
Qed.

(** The fields of a time are the civil date of that time, with its weekday: the first day was a
    Thursday. *)
Lemma fields_of_spec d tz : - 2 ^ 56 <= d <= 2 ^ 56 → ∃ f, fields_of d tz = Ok f ∧ civil f ∧ time_of f = d ∧
  weekday f = (d / 86400000 + 4) mod 7 ∧ tz_minutes f = tz.
Proof.
  intros Hd. unfold fields_of. rewrite !math_mod_mod by lia.
  assert (Z.quot (d - d mod 86400000) 86400000 = d / 86400000) as ->.
  { rewrite (Z.div_mod d 86400000) at 1 by lia. replace (86400000 * (d / 86400000) + d mod 86400000 - d mod 86400000) with (d / 86400000 * 86400000) by lia.
    by rewrite Z.quot_mul by lia. }
  assert (- 2 ^ 31 <= d / 86400000 <= 2 ^ 31) as Hday by (split; [apply Z.div_le_lower_bound|apply Z.div_le_upper_bound]; lia).
  pose proof (Z.mod_pos_bound d 86400000 ltac:(lia)) as Hr. pose proof (Z.div_mod d 86400000 ltac:(lia)) as Ed.
  pose proof (clock_split (d mod 86400000) Hr) as Hc. cbv zeta in Hc.
  destruct (year_from_days_spec (d / 86400000)) as (y & -> & Hy); [lia|]. cbn [mbind outcome_bind].
  destruct (month_loop_year y (d / 86400000 - days_from_year y)) as (j & r & -> & Hj & Hr' & Eday); [unfold in_year in Hy; rewrite days_from_year_next in Hy; lia|].
  eexists. split; [done|]. destruct Hc as (H1 & H2 & H3 & H4 & Et).
  split; [split; cbn; try done; rewrite ?Nat2Z.id; lia|]. split; [|done].
  unfold time_of, make_day. cbn [year month day hour minute second millisecond].
  rewrite Z.div_small, Z.mod_small, Nat2Z.id, Z.add_0_r by lia. lia.
Qed.

(** A civil date has one time value, and is found from it. *)
Lemma civil_unique f g : civil f → civil g → time_of f = time_of g →
  year f = year g ∧ month f = month g ∧ day f = day g ∧ hour f = hour g ∧ minute f = minute g ∧ second f = second g ∧ millisecond f = millisecond g.
Proof.
  intros Hf Hg E. pose proof (civil_in_year f Hf) as Yf. pose proof (civil_in_year g Hg) as Yg.
  pose proof Hf as [Hm1 Hd1 Hh1 Hi1 Hs1 Hx1]. pose proof Hg as [Hm2 Hd2 Hh2 Hi2 Hs2 Hx2]. unfold time_of in E.
  set (A := make_day (year f) (month f) (day f)) in *. set (B := make_day (year g) (month g) (day g)) in *.
  assert (A = B ∧ hour f = hour g ∧ minute f = minute g ∧ second f = second g ∧ millisecond f = millisecond g) as (EAB & -> & -> & -> & ->) by lia.
  rewrite EAB in Yf. pose proof (in_year_unique _ _ _ Yf Yg) as Ey. subst A B. rewrite !make_day_civil in EAB by done. rewrite Ey in *.
  destruct (month_unique (year g) (Z.to_nat (month f)) (Z.to_nat (month g)) (day f - 1) (day g - 1)) as [Em Edd]; [lia..|].
  repeat split; lia.
Qed.

(** ** Doubles are exact here *)

Lemma rnd_exact z : Z.abs z < 2 ^ 53 → rnd z = Some z.
Proof.
  intros Hz. unfold rnd. destruct (Z.leb_spec 0 z); [by apply round_double_exact; lia|].
  rewrite round_double_exact by lia. simpl. f_equal. lia.
Qed.

Lemma nearest_bounds a b : 0 < b → 2 * a - b <= 2 * b * nearest a b <= 2 * a + b ∧ (a mod b = 0 → nearest a b = a / b).
Proof.
  intros Hb. unfold nearest. pose proof (Z.div_mod a b ltac:(lia)). pose proof (Z.mod_pos_bound a b Hb).
  destruct (Z.ltb_spec (2 * (a mod b)) b); [split; [nia|done]|].
  destruct (Z.ltb_spec b (2 * (a mod b))); [split; [nia|lia]|]. destruct (Z.even _); split; try nia; lia.
Qed.

(** Rounding the quotient by 12 does not cross an integer. *)
Lemma quotient_12_spec m q d : 0 <= m < 2 ^ 50 → quotient_12 m = (q, d) → q / d = m / 12 ∧ (q + d - 1) / d = (m + 11) / 12.
Proof.
  intros Hm. unfold quotient_12. destruct (Z.ltb_spec m 12) as [H12|H12]; [intros [= <- <-]; split; Z.to_euclidean_division_equations; lia|].
  assert (0 <= Z.log2 (m / 12) < 47) as Hlog.
  { split; [apply Z.log2_nonneg|]. apply Z.log2_lt_pow2; [Z.to_euclidean_division_equations; lia|]. apply Z.div_lt_upper_bound; lia. }
  set (k := 52 - Z.log2 (m / 12)). rewrite (proj2 (Z.leb_le 0 k)) by lia. intros [= <- <-].
  assert (8 <= 2 ^ k) as HP by (change 8 with (2 ^ 3); apply Z.pow_le_mono_r; lia). set (P := 2 ^ k) in *. clearbody P. clear k Hlog.
  destruct (nearest_bounds (m * P) 12 ltac:(lia)) as [Hn H0]. pose proof (Z.div_mod m 12 ltac:(lia)) as Em. pose proof (Z.mod_pos_bound m 12 ltac:(lia)) as Hr.
  set (a := m / 12) in *. set (r := m mod 12) in *. set (q := nearest (m * P) 12) in *. clearbody a r.
  assert (a * P <= q < (a + 1) * P) as Hq by nia.
  assert (r = 0 → q = a * P) as Hz.
  { intros ->. replace (m * P) with (a * P * 12) in * by (rewrite Em; lia). rewrite H0; [by rewrite Z.div_mul|by rewrite Z.mod_mul]. }
  assert (r ≠ 0 → a * P < q) as Hnz by (intros ?; nia). clearbody q. split.
  - symmetry. apply (Z.div_unique _ _ _ (q - a * P)); lia.
  - destruct (Z.eq_dec r 0) as [E|E].
    + rewrite (Hz E). replace (m + 11) with (11 + a * 12) by lia. rewrite Z.div_add by lia. change (11 / 12) with 0.
      symmetry. apply (Z.div_unique _ _ _ (P - 1)); lia.
    + replace ((m + 11) / 12) with (a + 1) by (apply (Z.div_unique _ _ _ (r - 1)); lia).
      symmetry. apply (Z.div_unique _ _ _ (q - a * P - 1)); [left; specialize (Hnz E); lia|lia].
Qed.

Lemma floor_12_div m : Z.abs m < 2 ^ 50 → floor_12 m = m / 12.
Proof.
  intros Hm. unfold floor_12. destruct (Z.leb_spec 0 m).
  - destruct (quotient_12 m) as [q d] eqn:E. by apply quotient_12_spec in E as [-> _]; [|lia].
  - destruct (quotient_12 (- m)) as [q d] eqn:E. apply quotient_12_spec in E as [_ ->]; [|lia]. Z.to_euclidean_division_equations. lia.
Qed.

(** ** From fields to time values *)

(** No intermediate result passes 2^53. *)
Definition small (f : date_fields_t) : Prop :=
  Z.abs (year f) <= 2 ^ 40 ∧ Z.abs (month f) <= 2 ^ 40 ∧ Z.abs (day f) <= 2 ^ 40 ∧
  86400000 * Z.abs (make_day (year f) (month f) (day f))
  + 3600000 * Z.abs (hour f) + 60000 * Z.abs (minute f) + 1000 * Z.abs (second f) + Z.abs (millisecond f) <= 9000000000000000.

(** The year the code accepts. *)
Definition year_accepted (f : date_fields_t) : bool :=
  (-271821 <=? year f + month f / 12) && (year f + month f / 12 <=? 275760).

Lemma rem_12 m : (if Z.rem m 12 <? 0 then Z.rem m 12 + 12 else Z.rem m 12) = m mod 12.
Proof. rewrite <- math_mod_mod by lia. unfold math_mod. destruct (Z.rem m 12 <? 0); lia. Qed.

Lemma make_time_exact h m s ms :
  3600000 * Z.abs h + 60000 * Z.abs m + 1000 * Z.abs s + Z.abs ms < 2 ^ 53 →
  make_time h m s ms = Some (h * 3600000 + m * 60000 + s * 1000 + ms).
Proof. intros Hb. unfold make_time. by repeat (rewrite rnd_exact by lia; cbn [mbind option_bind]). Qed.

Section Make.

Context `{TimeZone}.

Definition zone_ok : Prop := ∀ t, Z.abs (get_timezone_offset t) <= 1440.

Lemma make_fields_exact f is_local : small f → (is_local = true → zone_ok) →
  date_make_fields f is_local =
    if year_accepted f
    then date_timeclip (time_of f + (if is_local then get_timezone_offset (time_of f) * 60000 else 0)) else None.
Proof.
  intros (Hy & Hm & Hd & Hw) Hz. unfold date_make_fields. rewrite floor_12_div by lia.
  assert (Z.abs (month f / 12) <= 2 ^ 40) as Hq by (Z.to_euclidean_division_equations; lia).
  rewrite rnd_exact by lia. cbn [mbind option_bind]. rewrite rem_12. unfold year_accepted.
  replace ((year f + month f / 12 <? -271821) || (275760 <? year f + month f / 12))
    with (negb ((-271821 <=? year f + month f / 12) && (year f + month f / 12 <=? 275760)))
    by (rewrite negb_andb, <- !Z.ltb_antisym; done).
  destruct ((-271821 <=? _) && _) eqn:Ea; [|done]. cbn [negb]. apply andb_true_iff in Ea as [Ea1%Z.leb_le Ea2%Z.leb_le].
  rewrite add_months_acc. fold (days_before_month (year f + month f / 12) (Z.to_nat (month f mod 12))).
  unfold time_of. unfold make_day in *. set (D := days_from_year (year f + month f / 12) + days_before_month (year f + month f / 12) (Z.to_nat (month f mod 12))) in *.
  assert (Z.abs D <= 2 ^ 41) as HD by lia. clearbody D.
  rewrite rnd_exact by lia. cbn [mbind option_bind]. rewrite rnd_exact by lia. cbn [mbind option_bind].
  rewrite make_time_exact by lia. cbn [mbind option_bind]. rewrite rnd_exact by lia. cbn [mbind option_bind]. rewrite rnd_exact by lia. cbn [mbind option_bind].
  set (tv := (D + day f - 1) * 86400000 + _). assert (Z.abs tv <= 9000000000000000) as Htv by (subst tv; lia). clearbody tv.
  destruct is_local; [|by rewrite Z.add_0_r]. rewrite (proj2 (Z.ltb_ge tv _)), (proj2 (Z.leb_gt _ tv)) by lia.
  pose proof (Hz eq_refl tv). rewrite rnd_exact by lia. done.
Qed.

(** The dates that have time values, a day more at either end. *)
Lemma civil_small f : civil f → Z.abs (time_of f) <= 8640000000000000 + 100000000 → small f ∧ year_accepted f = true.
Proof.
  intros Hf Ht. pose proof (civil_in_year f Hf) as Hy. pose proof Hf as [Hm Hd Hh Hi Hs Hx]. unfold time_of in Ht.
  set (D := make_day (year f) (month f) (day f)) in *. assert (Z.abs D <= 100000002) as HD by lia.
  assert (-271821 <= year f <= 275760) as Hr.
  { unfold in_year in Hy. rewrite days_from_year_next in Hy. split.
    - destruct (Z.lt_ge_cases (year f) (-271821)) as [Hl|]; [|done]. pose proof (days_from_year_mono _ _ Hl) as Hmo.
      change (days_from_year (-271821)) with (-100000109) in Hmo. lia.
    - destruct (Z.lt_ge_cases 275760 (year f)) as [Hl|]; [|done]. pose proof (days_from_year_mono _ _ Hl) as Hmo.
      change (days_from_year 275760) with 99999744 in Hmo. change (days_in_year 275760) with 366 in Hmo. lia. }
  pose proof (month_len_range (year f) (Z.to_nat (month f)) ltac:(lia)). split.
  - split; [lia|]. split; [lia|]. split; [lia|]. fold D. lia.
  - unfold year_accepted. rewrite Z.div_small by lia. apply andb_true_iff. split; apply Z.leb_le; lia.
Qed.

(** *** The two theorems *)



End Make.

(** ** Examples *)

(** A zone nine hours ahead of UTC. *)
Definition seoul : TimeZone := λ _, -540.

Lemma seoul_ok : @zone_ok seoul.
Proof. intros t. unfold get_timezone_offset, seoul. lia. Qed.


