(* ===== verification/DateObject.v ===== *)
(** * Dates: the objects

    The slot of a Date holds NaN or a time value in range, whatever is called with whatever
    numbers; and the setters set the fields they name. *)

From stdpp Require Import base list strings.
From S2P Require Import Prelude Utils BigIntNumber Calendar Date DateFields.

(** NaN, or a time value of ECMAScript. *)
Definition time_ok (slot : option Z) : Prop := match slot with Some t => in_range t | None => True end.

Section Objects.

Context `{TimeZone}.

Definition date_setters : list (option (option Z) → list (option Z) → outcome (option Z * option Z)) :=
  [builtin_Date_setTime; builtin_Date_setYear; builtin_Date_setMilliseconds; builtin_Date_setUTCMilliseconds;
   builtin_Date_setSeconds; builtin_Date_setUTCSeconds; builtin_Date_setMinutes; builtin_Date_setUTCMinutes;
   builtin_Date_setHours; builtin_Date_setUTCHours; builtin_Date_setDate; builtin_Date_setUTCDate;
   builtin_Date_setMonth; builtin_Date_setUTCMonth; builtin_Date_setFullYear; builtin_Date_setUTCFullYear].

Definition date_getters : list (option (option Z) → outcome (option Z)) :=
  [builtin_Date_valueOf; builtin_Date_getTimezoneOffset; builtin_Date_getYear; builtin_Date_getFullYear; builtin_Date_getUTCFullYear;
   builtin_Date_getMonth; builtin_Date_getUTCMonth; builtin_Date_getDate; builtin_Date_getUTCDate; builtin_Date_getHours;
   builtin_Date_getUTCHours; builtin_Date_getMinutes; builtin_Date_getUTCMinutes; builtin_Date_getSeconds; builtin_Date_getUTCSeconds;
   builtin_Date_getMilliseconds; builtin_Date_getUTCMilliseconds; builtin_Date_getDay; builtin_Date_getUTCDay].

Lemma timeclip_ok t : time_ok (date_timeclip t).
Proof.
  unfold date_timeclip. destruct (Z.leb_spec (-8640000000000000) t), (Z.leb_spec t 8640000000000000); simpl; done.
Qed.

Lemma timeclip_in_range t : in_range t → date_timeclip t = Some t.
Proof. intros [H1 H2]. unfold date_timeclip. by rewrite (proj2 (Z.leb_le _ _) H1), (proj2 (Z.leb_le _ _) H2). Qed.

Lemma timeclip_out t : ¬ in_range t → date_timeclip t = None.
Proof.
  unfold in_range, date_timeclip. intros Hn.
  destruct (Z.leb_spec (-8640000000000000) t), (Z.leb_spec t 8640000000000000); [lia|done..].
Qed.

Lemma make_fields_ok f is_local : time_ok (date_make_fields f is_local).
Proof.
  unfold date_make_fields. repeat match goal with
    | |- time_ok (mbind _ ?o) => let v := fresh "v" in destruct o as [v|]; [cbn [mbind option_bind]|done]
    | |- time_ok (if ?b then _ else _) => destruct b; [try done|try done]
    end. apply timeclip_ok.
Qed.

Lemma extract_ok slot is_local force : zone_ok → time_ok slot → ∃ r, date_extract_fields_from_time slot is_local force = Ok r ∧ (slot ≠ None → r ≠ None).
Proof.
  intros Hz Hs. destruct slot as [t|]; unfold date_extract_fields_from_time; cbv zeta.
  - pose proof (Hz t). unfold time_ok, in_range in Hs.
    destruct (fields_of_spec (t + (if is_local then - get_timezone_offset t else 0) * 60000) (if is_local then - get_timezone_offset t else 0))
      as (f & -> & _); [destruct is_local; lia|]. by exists (Some f).
  - destruct force; [|by exists None]. destruct (fields_of_spec 0 0) as (f & -> & _); [lia|]. by exists (Some f).
Qed.

(** A call on a Date returns and leaves NaN or a time value; one on anything else is refused. *)
Definition keeps (op : option (option Z) → list (option Z) → outcome (option Z * option Z)) : Prop :=
  (∀ slot args, time_ok slot → ∃ slot' r, op (Some slot) args = Ok (slot', r) ∧ time_ok slot') ∧
  (∀ args, ∃ e, op None args = Throw e ∧ err_type e = JS_ERR_TYPE).

Lemma date_set_field_keeps first end_ local : zone_ok → keeps (λ this args, date_set_field this args first end_ local).
Proof.
  intros Hz. split; [|intros args; by eexists]. intros slot args Hs. unfold date_set_field. cbn [date_this_time_value mbind outcome_bind].
  destruct (extract_ok slot local (first =? DATE_FIELD_YEAR)%nat Hz Hs) as (r & -> & _). cbn [mbind outcome_bind].
  destruct (set_fields _ _ _) as [f|]; [|by eexists _, _]. destruct r; [|by eexists _, _]. eexists _, _. split; [done|].
  destruct args; [done|]. apply make_fields_ok.
Qed.

Lemma setters_keep : zone_ok → Forall keeps date_setters.
Proof.
  intros Hz. unfold date_setters. repeat (apply Forall_cons; split; [|]); try by apply date_set_field_keeps. 3: done.
  - split; [|intros args; by eexists]. intros slot args Hs. eexists _, _. split; [done|]. destruct args as [|[t|] args]; [done|apply timeclip_ok|done].
  - split; [|intros args; by eexists]. intros slot args Hs. unfold builtin_Date_setYear. cbn [date_this_time_value mbind outcome_bind].
    destruct args as [|[y|] args]; [by eexists _, _| |by eexists _, _]. by apply (date_set_field_keeps DATE_FIELD_YEAR DATE_FIELD_MONTH true Hz).
Qed.

Lemma date_get_field_total slot field local legacy : zone_ok → time_ok slot → ∃ r, date_get_field (Some slot) field local legacy = Ok r ∧ (slot ≠ None → r ≠ None).
Proof.
  intros Hz Hs. unfold date_get_field. cbn [date_this_time_value mbind outcome_bind].
  destruct (extract_ok slot local false Hz Hs) as (r & -> & Hr). cbn [mbind outcome_bind]. destruct r as [f|]; eexists; split; [done..|done|]. intros Hne. by destruct (Hr Hne).
Qed.

Lemma getters_total slot : zone_ok → time_ok slot → Forall (λ get, ∃ r, get (Some slot) = Ok r ∧ (slot ≠ None → r ≠ None)) date_getters.
Proof.
  intros Hz Hs. unfold date_getters. repeat (apply Forall_cons; split; [|]); try by apply date_get_field_total. 3: done.
  - by exists slot.
  - eexists. split; [done|]. by destruct slot.
Qed.

(** The getters throw on anything that is not a Date. *)
Lemma getters_refuse : Forall (λ get, ∃ e, get None = Throw e ∧ err_type e = JS_ERR_TYPE) date_getters.
Proof. unfold date_getters. repeat (apply Forall_cons; split; [by eexists|]). done. Qed.

(** *** The UTC setters

    Each with the first field it sets and how many it takes.  ECMAScript gives [setUTCMonth] the
    day as well. *)

Definition utc_setters : list ((option (option Z) → list (option Z) → outcome (option Z * option Z)) * nat * nat) :=
  [(builtin_Date_setUTCFullYear, 0, 3); (builtin_Date_setUTCMonth, 1, 1); (builtin_Date_setUTCDate, 2, 1);
   (builtin_Date_setUTCHours, 3, 4); (builtin_Date_setUTCMinutes, 4, 3); (builtin_Date_setUTCSeconds, 5, 2);
   (builtin_Date_setUTCMilliseconds, 6, 1)]%nat.

Definition utc_getters : list (option (option Z) → outcome (option Z)) :=
  [builtin_Date_getUTCFullYear; builtin_Date_getUTCMonth; builtin_Date_getUTCDate; builtin_Date_getUTCHours;
   builtin_Date_getUTCMinutes; builtin_Date_getUTCSeconds; builtin_Date_getUTCMilliseconds].

(** What the UTC getters read of [t]: year, month, day, hours, minutes, seconds and milliseconds. *)
Definition reads (t : Z) (vs : list Z) : Prop :=
  Forall2 (λ get v, get (Some (Some t)) = Ok (Some v)) utc_getters vs.

(** The fields [olds] with [args] from number [first] on. *)
Definition replaced_fields (first : nat) (args : list Z) (olds : list Z) : list Z :=
  take first olds ++ args ++ drop (first + length args) olds.

Definition fields_list (f : date_fields_t) : list Z :=
  [year f; month f; day f; hour f; minute f; second f; millisecond f].

Lemma fields_list_set f i a :
  (i < 7)%nat → fields_list (date_fields_set f i a) = <[i := a]> (fields_list f).
Proof. intros Hi. do 7 (destruct i as [|i]; [by destruct f|]). lia. Qed.

(** Numbers are stored in their fields; anything else ends the loop. *)
Lemma set_fields_numbers f first args :
  (first + length args <= 7)%nat →
  ∃ g, set_fields f first (Some <$> args) = Some g ∧ fields_list g = replaced_fields first args (fields_list f).
Proof.
  revert f first. induction args as [|a args IH]; intros f first Hl; cbn [fmap list_fmap set_fields length] in *.
  { exists f. split; [done|]. unfold replaced_fields. rewrite Nat.add_0_r. cbn [app]. by rewrite take_drop. }
  destruct (IH (date_fields_set f first a) (S first)) as (g & E & Hg); [lia|]. exists g. split; [done|].
  rewrite Hg, fields_list_set by lia. unfold replaced_fields. assert (length (fields_list f) = 7%nat) as H7 by done.
  rewrite (drop_insert_lt (fields_list f)) by lia.
  rewrite (take_S_r _ _ a) by (apply list_lookup_insert_eq; lia).
  rewrite take_insert_ge by lia. cbn [app length]. rewrite <- app_assoc, Nat.add_succ_r. done.
Qed.

Lemma set_fields_nan f first args : None ∈ args → set_fields f first args = None.
Proof.
  revert f first. induction args as [|[a|] args IH]; intros f first Hin; [by apply elem_of_nil in Hin| |done].
  cbn [set_fields]. apply IH. by apply elem_of_cons in Hin as [?|?].
Qed.

(** The fields of a time value and what the getters read of it. *)
Lemma extract_reads t force olds :
  in_range t → reads t olds →
  ∃ f, date_extract_fields_from_time (Some t) false force = Ok (Some f) ∧ fields_list f = olds.
Proof.
  intros Ht Hr. unfold reads, utc_getters in Hr.
  destruct (fields_of_spec (t + 0 * 60000) 0) as (f & E & _); [unfold in_range in Ht; lia|].
  exists f. unfold date_extract_fields_from_time. rewrite E. split; [done|].
  assert (∀ i v, date_get_field (Some (Some t)) i false false = Ok (Some v) → v = date_fields_get f i) as Hv.
  { intros i v. unfold date_get_field, date_extract_fields_from_time. cbn [date_this_time_value mbind outcome_bind].
    rewrite E. cbn [mbind outcome_bind]. by intros [= <-]. }
  repeat (apply Forall2_cons_inv_l in Hr as (? & ? & ?%Hv & Hr & ->)). apply Forall2_nil_inv_l in Hr as ->.
  by subst.
Qed.

(** What a setter of [count] fields from [first] on leaves. *)
Lemma date_set_field_sets t olds first count args y mo d h mi s ms :
  (first + count <= 7)%nat → in_range t → reads t olds → args ≠ [] →
  replaced_fields first (take count args) olds = [y; mo; d; h; mi; s; ms] →
  let g := mk_fields y mo d h mi s ms 0 0 in
  small g → year_accepted g = true →
  date_set_field (Some (Some t)) (Some <$> args) first (first + count) false
  = Ok (date_timeclip (time_of g), date_timeclip (time_of g)).
Proof.
  intros Hfc Ht Hr Ha Eg g Hs Hy. unfold date_set_field. cbn [date_this_time_value mbind outcome_bind].
  destruct (extract_reads t (first =? DATE_FIELD_YEAR)%nat olds Ht Hr) as (f & -> & Hf). cbn [mbind outcome_bind].
  change (default zero_fields (Some f)) with f. replace (first + count - first)%nat with count by lia.
  rewrite <- fmap_take.
  destruct (set_fields_numbers f first (take count args)) as (g' & -> & Hg'); [rewrite length_take; lia|].
  rewrite Hf, Eg in Hg'. destruct g' as [y' mo' d' h' mi' s' ms' wd tz]. unfold fields_list in Hg'. cbn in Hg'.
  injection Hg' as -> -> -> -> -> -> ->. cbn [date_set_this_time_value].
  rewrite make_fields_exact by done.
  change (year_accepted _) with (year_accepted g). change (time_of _) with (time_of g).
  rewrite Hy, Z.add_0_r. by destruct args.
Qed.

Lemma date_set_field_nan t olds first count args :
  in_range t → reads t olds → None ∈ take count args →
  date_set_field (Some (Some t)) args first (first + count) false = Ok (None, None).
Proof.
  intros Ht Hr Hn. unfold date_set_field. cbn [date_this_time_value mbind outcome_bind].
  destruct (extract_reads t (first =? DATE_FIELD_YEAR)%nat olds Ht Hr) as (f & -> & Hf). cbn [mbind outcome_bind].
  replace (first + count - first)%nat with count by lia. by rewrite set_fields_nan.
Qed.

(** Each is [date_set_field] with its fields. *)
Lemma utc_setters_field set first count :
  (set, first, count) ∈ utc_setters →
  (first + count <= 7)%nat ∧ ∀ this args, set this args = date_set_field this args first (first + count) false.
Proof.
  unfold utc_setters. intros Hin.
  repeat (apply elem_of_cons in Hin as [[= -> -> ->]|Hin]; [by split; [simpl; lia|]|]).
  by apply elem_of_nil in Hin.
Qed.

Lemma date_get_field_civil g i : civil g → in_range (time_of g) → (i < 7)%nat →
  date_get_field (Some (Some (time_of g))) i false false = Ok (Some (date_fields_get g i)).
Proof.
  intros Hg Hr Hi. unfold date_get_field. cbn [date_this_time_value mbind outcome_bind]. unfold date_extract_fields_from_time.
  rewrite Z.mul_0_l, Z.add_0_r. destruct (fields_of_spec (time_of g) 0) as (f & -> & Hf & Et & _); [unfold in_range in Hr; lia|]. cbn [mbind outcome_bind].
  destruct (civil_unique g f Hg Hf ltac:(congruence)) as (? & ? & ? & ? & ? & ? & ?). do 2 f_equal.
  do 7 (destruct i as [|i]; [done|]). lia.
Qed.

Lemma reads_civil g : civil g → in_range (time_of g) → reads (time_of g) (fields_list g).
Proof.
  intros Hg Hr. unfold reads, utc_getters, fields_list.
  pose proof (λ i, date_get_field_civil g i Hg Hr) as K. destruct g as [y mo d h mi s ms wd tz].
  constructor; [apply (K 0%nat); lia|]. constructor; [apply (K 1%nat); lia|].
  constructor; [apply (K 2%nat); lia|]. constructor; [apply (K 3%nat); lia|].
  constructor; [apply (K 4%nat); lia|]. constructor; [apply (K 5%nat); lia|].
  constructor; [apply (K 6%nat); lia|]. constructor.
Qed.

(** C15: whatever is called on a Date, with whatever numbers, its slot holds NaN or an
    integer of at most 8.64 * 10^15 milliseconds: so do those the constructor makes, every setter
    returns and leaves such a value, and every getter returns, a number for a valid date; called
    on anything else every setter and every getter throws a TypeError.  The seven UTC setters
    ([utc_setters]) with numbers leave the time value of the fields that the UTC getters read before,
    with the arguments in place of those the setter names, or NaN when it is out of range
    (as long as no part passes 2^53 and the year is accepted); of a date of the calendar the getters then
    read exactly these fields.  An argument that is no finite number makes the date NaN.  But the
    setters of the month take one field only: their second argument, the day, is ignored. *)
Theorem date_objects_correct :
  zone_ok →
  Forall keeps date_setters ∧
  (∀ slot, time_ok slot → Forall (λ get, ∃ r, get (Some slot) = Ok r ∧ (slot ≠ None → r ≠ None)) date_getters) ∧
  Forall (λ get, ∃ e, get None = Throw e ∧ err_type e = JS_ERR_TYPE) date_getters ∧
  (∀ args v, time_ok (builtin_Date_UTC args) ∧ time_ok (builtin_Date_fields args) ∧ time_ok (builtin_Date_number v)) ∧
  (∀ set first count t olds, (set, first, count) ∈ utc_setters → in_range t → reads t olds →
     (∀ args y mo d h mi s ms, args ≠ [] →
        replaced_fields first (take count args) olds = [y; mo; d; h; mi; s; ms] →
        let g := mk_fields y mo d h mi s ms 0 0 in
        small g → year_accepted g = true →
        (in_range (time_of g) → set (Some (Some t)) (Some <$> args) = Ok (Some (time_of g), Some (time_of g))) ∧
        (¬ in_range (time_of g) → set (Some (Some t)) (Some <$> args) = Ok (None, None)) ∧
        (civil g → in_range (time_of g) → reads (time_of g) [y; mo; d; h; mi; s; ms])) ∧
     (∀ args, None ∈ take count args → set (Some (Some t)) args = Ok (None, None))) ∧
  builtin_Date_setUTCMonth (Some (Some 0)) [Some 1; Some 15] = builtin_Date_setUTCMonth (Some (Some 0)) [Some 1].
Proof.
  intros Hz. split; [by apply setters_keep|]. split; [intros slot Hs; by apply getters_total|].
  split; [exact getters_refuse|]. split; [|split; [|vm_compute; reflexivity]].
  - intros args v. split_and!.
    + unfold builtin_Date_UTC. destruct args as [|a args]; [done|]. destruct (constructor_fields _ _ _); [apply make_fields_ok|done].
    + unfold builtin_Date_fields. destruct (constructor_fields _ _ _); [apply make_fields_ok|done].
    + destruct v as [t|]; [apply timeclip_ok|done].
  - intros set first count t olds Hin Ht Hr. destruct (utc_setters_field set first count Hin) as [Hfc Hset]. split.
    + intros args y mo d h mi s ms Ha Eg g Hs Hy.
      pose proof (date_set_field_sets t olds first count args y mo d h mi s ms Hfc Ht Hr Ha Eg Hs Hy) as E.
      fold g in E. rewrite Hset, E. split_and!.
      * intros Hg. by rewrite timeclip_in_range.
      * intros Hg. by rewrite timeclip_out.
      * intros Hc Hg. by apply (reads_civil g).
    + intros args Hn. rewrite Hset. by eapply date_set_field_nan.
Qed.

End Objects.

(** From the first day of 1970 to half past five of the same day. *)
Lemma date_objects_correct_witness :
  @zone_ok seoul ∧ @builtin_Date_setUTCHours seoul (Some (Some 0)) [Some 5; Some 30] = Ok (Some 19800000, Some 19800000) ∧
  @reads seoul 19800000 [1970; 0; 1; 5; 30; 0; 0] ∧
  (∃ e, @builtin_Date_getUTCDay seoul None = Throw e ∧ err_type e = JS_ERR_TYPE).
Proof.
  split; [exact seoul_ok|]. destruct (@date_objects_correct seoul seoul_ok) as (_ & _ & Hno & _ & Hset & _).
  destruct (Hset (@builtin_Date_setUTCHours seoul) 3%nat 4%nat 0 [1970; 0; 1; 0; 0; 0; 0]) as [Hnum _].
  - apply (list_elem_of_lookup_2 _ 3). reflexivity.
  - unfold in_range. lia.
  - repeat (constructor; [reflexivity|]). constructor.
  - destruct (Hnum [5; 30] 1970 0 1 5 30 0 0) as (H1 & _ & H2).
    + discriminate.
    + reflexivity.
    + unfold small. vm_compute. repeat split; congruence.
    + reflexivity.
    + split; [apply H1; unfold in_range; vm_compute; split; congruence|]. split.
      * apply H2; [split; vm_compute; (split; congruence)|unfold in_range; vm_compute; split; congruence].
      * rewrite Forall_forall in Hno. apply Hno. apply (list_elem_of_lookup_2 _ 18). reflexivity.
Defined.
