(* ===== verification/DateText.v ===== *)
(** * Dates: printing and parsing

    [get_date_string] and [Date.parse] of src/src/modules/date.c.  The parsers read a text up to
    its terminator; a position in it is what is left of the text, and its first byte is 0 at the
    end.  They never step over the terminator: each step of the model is one over a byte. *)

From stdpp Require Import base list strings.
From Stdlib Require Import Ascii.
From S2P Require Import Prelude Utils Utf8 BigIntText BigIntNumber LexChars Calendar Date.

(** ** Printing *)

Definition month_names : list Z := bytes "JanFebMarAprMayJunJulAugSepOctNovDec".

Definition day_names : list Z := bytes "SunMonTueWedThuFriSat".

(** [%.3s]. *)
Definition name3 (names : list Z) (i : Z) : list Z := take 3 (drop (Z.to_nat (3 * i)) names).

(** [%0wd]. *)
Definition zpad (w : nat) (s : list Z) : list Z := replicate (w - length s) (CH "0") ++ s.

Definition fmt_0d (w : nat) (n : Z) : list Z := if n <? 0 then CH "-" :: zpad (w - 1) (fmt_u (- n)) else zpad w (fmt_u n).

(** [%+07d]. *)
Definition fmt_plus_07d (n : Z) : list Z := (if n <? 0 then CH "-" else CH "+") :: zpad 6 (fmt_u (Z.abs n)).

(** [%0*d] with the width [4 + (y < 0)]. *)
Definition fmt_year (y : Z) : list Z := fmt_0d (4 + (if y <? 0 then 1 else 0)) y.

Inductive date_string_fmt_t := DATE_STRING_FMT_UTC | DATE_STRING_FMT_LOCAL | DATE_STRING_FMT_ISO | DATE_STRING_FMT_LOCALE.

Inductive date_string_part_t := DATE_STRING_PART_DATE | DATE_STRING_PART_TIME | DATE_STRING_PART_ALL.

Definition is_fmt_local (fmt : date_string_fmt_t) : bool := match fmt with DATE_STRING_FMT_LOCAL => true | _ => false end.

Definition is_part_all (part : date_string_part_t) : bool := match part with DATE_STRING_PART_ALL => true | _ => false end.

(** The first [switch]. *)
Definition date_part (fmt : date_string_fmt_t) (all : bool) (f : date_fields_t) : list Z :=
  match fmt with
  | DATE_STRING_FMT_UTC =>
      name3 day_names (weekday f) ++ bytes ", " ++ fmt_0d 2 (day f) ++ bytes " " ++ name3 month_names (month f) ++ bytes " "
      ++ fmt_year (year f) ++ bytes " "
  | DATE_STRING_FMT_LOCAL =>
      name3 day_names (weekday f) ++ bytes " " ++ name3 month_names (month f) ++ bytes " " ++ fmt_0d 2 (day f) ++ bytes " "
      ++ fmt_year (year f) ++ (if all then bytes " " else [])
  | DATE_STRING_FMT_ISO =>
      (if (0 <=? year f) && (year f <=? 9999) then fmt_0d 4 (year f) else fmt_plus_07d (year f))
      ++ bytes "-" ++ fmt_0d 2 (month f + 1) ++ bytes "-" ++ fmt_0d 2 (day f) ++ bytes "T"
  | DATE_STRING_FMT_LOCALE =>
      fmt_0d 2 (month f + 1) ++ bytes "/" ++ fmt_0d 2 (day f) ++ bytes "/" ++ fmt_year (year f) ++ (if all then bytes ", " else [])
  end.

Definition hms (f : date_fields_t) : list Z :=
  fmt_0d 2 (hour f) ++ bytes ":" ++ fmt_0d 2 (minute f) ++ bytes ":" ++ fmt_0d 2 (second f).

(** The second. *)
Definition time_part (fmt : date_string_fmt_t) (f : date_fields_t) : list Z :=
  match fmt with
  | DATE_STRING_FMT_UTC => hms f ++ bytes " GMT"
  | DATE_STRING_FMT_LOCAL =>
      let tz := tz_minutes f in
      hms f ++ bytes " GMT" ++ bytes (if tz <? 0 then "-" else "+")
      ++ fmt_0d 2 (Z.quot (Z.abs tz) 60) ++ fmt_0d 2 (Z.rem (Z.abs tz) 60)
  | DATE_STRING_FMT_ISO => hms f ++ bytes "." ++ fmt_0d 3 (millisecond f) ++ bytes "Z"
  | DATE_STRING_FMT_LOCALE =>
      fmt_0d 2 (Z.rem (hour f + 11) 12 + 1) ++ bytes ":" ++ fmt_0d 2 (minute f) ++ bytes ":" ++ fmt_0d 2 (second f)
      ++ bytes " " ++ bytes (if hour f <? 12 then "A" else "P") ++ bytes "M"
  end.

Definition get_date_string `{TimeZone} (this : option (option Z)) (fmt : date_string_fmt_t) (part : date_string_part_t) : outcome (list Z) :=
  t ← date_this_time_value this;
  r ← date_extract_fields_from_time t (is_fmt_local fmt) false;
  match r with
  | None =>
      match fmt with
      | DATE_STRING_FMT_ISO => js_mkerr_typed JS_ERR_RANGE "Date value is NaN"
      | _ => Ok (bytes "Invalid Date")
      end
  | Some f =>
      Ok ((match part with DATE_STRING_PART_TIME => [] | _ => date_part fmt (is_part_all part) f end)
          ++ (match part with DATE_STRING_PART_DATE => [] | _ => time_part fmt f end))
  end.

Definition builtin_Date_toUTCString `{TimeZone} this : outcome (list Z) := get_date_string this DATE_STRING_FMT_UTC DATE_STRING_PART_ALL.

Definition builtin_Date_toString `{TimeZone} this : outcome (list Z) := get_date_string this DATE_STRING_FMT_LOCAL DATE_STRING_PART_ALL.

Definition builtin_Date_toISOString `{TimeZone} this : outcome (list Z) := get_date_string this DATE_STRING_FMT_ISO DATE_STRING_PART_ALL.

Definition builtin_Date_toDateString `{TimeZone} this : outcome (list Z) := get_date_string this DATE_STRING_FMT_LOCAL DATE_STRING_PART_DATE.

Definition builtin_Date_toTimeString `{TimeZone} this : outcome (list Z) := get_date_string this DATE_STRING_FMT_LOCAL DATE_STRING_PART_TIME.

Definition builtin_Date_toLocaleString `{TimeZone} this : outcome (list Z) := get_date_string this DATE_STRING_FMT_LOCALE DATE_STRING_PART_ALL.

Definition builtin_Date_toLocaleDateString `{TimeZone} this : outcome (list Z) := get_date_string this DATE_STRING_FMT_LOCALE DATE_STRING_PART_DATE.

Definition builtin_Date_toLocaleTimeString `{TimeZone} this : outcome (list Z) := get_date_string this DATE_STRING_FMT_LOCALE DATE_STRING_PART_TIME.

(** ** Parsing *)

(** [sp[*pp]]. *)
Definition cur (s : list Z) : Z := at_ s 0.

Definition string_skip_char (s : list Z) (c : Z) : bool * list Z :=
  match s with
  | x :: r => if x =? c then (true, r) else (false, s)
  | [] => (false, s)
  end.

Fixpoint skip_bytes (f : Z → bool) (s : list Z) : list Z :=
  match s with x :: r => if f x then skip_bytes f r else s | [] => [] end.

Definition string_skip_spaces : list Z → list Z := skip_bytes (λ c, c =? CH " ").

Definition string_skip_separators : list Z → list Z :=
  skip_bytes (λ c, (c =? CH "-") || (c =? CH "/") || (c =? CH ".") || (c =? CH ",")).

Definition string_skip_until (stoplist : list Z) : list Z → list Z := skip_bytes (λ c, negb (bool_decide (c ∈ stoplist))).

Definition digit_c (c : Z) : bool := between (CH "0") (CH "9") c.

(** The loop of [string_get_digits]: the number, how many digits were read, and the rest. *)
Fixpoint digits_from (s : list Z) (v : Z) (n max_digits : nat) : option (Z * nat * list Z) :=
  match s with
  | c :: r =>
      if digit_c c then
        if 100000000 <=? v then None
        else
          let v := v * 10 + c - CH "0" in
          if (0 <? max_digits)%nat && (S n =? max_digits)%nat then Some (v, S n, r) else digits_from r v (S n) max_digits
      else Some (v, n, s)
  | [] => Some (v, n, s)
  end.

Definition string_get_digits (s : list Z) (min_digits max_digits : nat) : option (Z * list Z) :=
  match digits_from s 0 0 max_digits with
  | Some (v, n, r) => if (n <? min_digits)%nat then None else Some (v, r)
  | None => None
  end.

(** The loop of [string_get_milliseconds], for at most [n] digits. *)
Fixpoint ms_from (n : nat) (s : list Z) (ms mul : Z) : Z * list Z :=
  match n, s with
  | S n, c :: r => if digit_c c then ms_from n r (ms + (c - CH "0") * mul) (Z.quot mul 10) else (ms, s)
  | _, _ => (ms, s)
  end.

(** The new value if there is one, and the rest. *)
Definition string_get_milliseconds (s : list Z) : option Z * list Z :=
  if (cur s =? CH ".") || (cur s =? CH ",") then
    let '(ms, r) := ms_from 9 (tl s) 0 100 in
    if (length r <? length (tl s))%nat then (Some ms, r) else (None, s)
  else (None, s).

(** [while (n > 4) { n -= 2; hh /= 100; }]. *)
Fixpoint shorten (n : nat) (hh : Z) : nat * Z :=
  match n with
  | S (S m) => if (4 <? n)%nat then shorten m (Z.quot hh 100) else (n, hh)
  | _ => (n, hh)
  end.

Definition string_get_tzoffset (s : list Z) (strict : bool) : option (Z * list Z) :=
  let sgn := cur s in
  let p := tl s in
  if (sgn =? CH "+") || (sgn =? CH "-") then
    r ← string_get_digits p 1 0;
    let '(hh, q) := r in
    let n := (length p - length q)%nat in
    if strict && negb (n =? 2)%nat && negb (n =? 4)%nat then None
    else
      let '(n, hh) := shorten n hh in
      r ← (if (2 <? n)%nat then Some (Z.quot hh 100, Z.rem hh 100, q)
           else match string_skip_char q (CH ":") with
                | (true, q) => r ← string_get_digits q 2 2; Some (hh, r.1, r.2)
                | (false, q) => Some (hh, 0, q)
                end);
      let '(hh, mm, q) := r in
      if (23 <? hh) || (59 <? mm) then None
      else
        let tz := hh * 60 + mm in
        Some (if sgn =? CH "+" then tz else - tz, q)
  else if sgn =? CH "Z" then Some (0, p) else None.

Definition to_upper_ascii (c : Z) : Z := if between (CH "a") (CH "z") c then c - 32 else c.

Fixpoint string_match (s w : list Z) : option (list Z) :=
  match w, s with
  | [], _ => Some s
  | c :: w, x :: r => if to_upper_ascii x =? to_upper_ascii c then string_match r w else None
  | _ :: _, [] => None
  end.

(** The index of the first of the names of three letters that stands at [s]. *)
Fixpoint find_abbrev (s : list Z) (names : list Z) (n count : nat) : option nat :=
  match count with
  | O => None
  | S count =>
      match string_match s (take 3 (drop (3 * n) names)) with
      | Some _ => Some n
      | None => find_abbrev s names (S n) count
      end
  end.

Definition string_get_month (s : list Z) : option (Z * list Z) :=
  n ← find_abbrev s month_names 0 12; Some (Z.of_nat n + 1, drop 3 s).

(** *** Texts in the format of the standard *)

(** [if (sp[p]) ...], and the end of the text. *)
Definition iso_tail (f : date_fields_t) (p : list Z) (is_local : bool) : option (date_fields_t * bool) :=
  if negb (cur p =? 0) then
    r ← string_get_tzoffset p true;
    let '(tz, p) := r in
    if cur p =? 0 then Some (date_fields_set f 8 tz, false) else None
  else Some (f, is_local).

Definition iso_year (sp : list Z) : option (Z * list Z) :=
  let sgn := cur sp in
  if (sgn =? CH "-") || (sgn =? CH "+") then
    r ← string_get_digits (tl sp) 6 6;
    let '(y, p) := r in
    if sgn =? CH "-" then if y =? 0 then None else Some (- y, p) else Some (y, p)
  else string_get_digits sp 4 4.

Definition iso_date (f : date_fields_t) (p : list Z) : option (date_fields_t * list Z) :=
  match string_skip_char p (CH "-") with
  | (true, p) =>
      r ← string_get_digits p 2 2;
      let '(m, p) := r in
      if m <? 1 then None
      else
        let f := date_fields_set f 1 (m - 1) in
        match string_skip_char p (CH "-") with
        | (true, p) =>
            r ← string_get_digits p 2 2;
            let '(d, p) := r in
            if d <? 1 then None else Some (date_fields_set f 2 d, p)
        | (false, p) => Some (f, p)
        end
  | (false, p) => Some (f, p)
  end.

(** The hour and the minute behind [T]. *)
Definition iso_hour_minute (p : list Z) : option (Z * Z * list Z) :=
  r ← string_get_digits p 2 2;
  let '(h, p) := r in
  match string_skip_char p (CH ":") with
  | (true, p) => r ← string_get_digits p 2 2; Some (h, r.1, r.2)
  | (false, _) => None
  end.

Definition set_ms (f : date_fields_t) (ms : option Z) : date_fields_t :=
  match ms with Some v => date_fields_set f 6 v | None => f end.

Definition parse_isostring (sp : list Z) : option (date_fields_t * bool) :=
  r ← iso_year sp;
  let '(y, p) := r in
  r ← iso_date (mk_fields y 0 1 0 0 0 0 0 0) p;
  let '(f, p) := r in
  match string_skip_char p (CH "T") with
  | (true, p) =>
      match iso_hour_minute p with
      | None => Some (date_fields_set f 3 100, true)
      | Some (h, m, p) =>
          let f := date_fields_set (date_fields_set f 3 h) 4 m in
          match string_skip_char p (CH ":") with
          | (true, p) =>
              r ← string_get_digits p 2 2;
              let '(s, p) := r in
              let '(ms, p) := string_get_milliseconds p in
              iso_tail (set_ms (date_fields_set f 5 s) ms) p true
          | (false, p) => iso_tail f p true
          end
      end
  | (false, p) => iso_tail f p false
  end.

(** *** Other texts *)

Definition js_tzabbr : list (list Z * Z) :=
  [(bytes "GMT", 0); (bytes "UTC", 0); (bytes "UT", 0); (bytes "Z", 0); (bytes "EDT", -4 * 60); (bytes "EST", -5 * 60);
   (bytes "CDT", -5 * 60); (bytes "CST", -6 * 60); (bytes "MDT", -6 * 60); (bytes "MST", -7 * 60); (bytes "PDT", -7 * 60);
   (bytes "PST", -8 * 60); (bytes "WET", 0); (bytes "WEST", 1 * 60); (bytes "CET", 1 * 60); (bytes "CEST", 2 * 60);
   (bytes "EET", 2 * 60); (bytes "EEST", 3 * 60)].

Fixpoint tzabbr_from (s : list Z) (l : list (list Z * Z)) : option (Z * list Z) :=
  match l with
  | [] => None
  | (w, off) :: l => match string_match s w with Some r => Some (off, r) | None => tzabbr_from s l end
  end.

Definition string_get_tzabbr (s : list Z) : option (Z * list Z) := tzabbr_from s js_tzabbr.

(** The variables of [parse_otherstring]; [nums] is [num] up to [num_index]. *)
Record other := mk_other { o_fields : date_fields_t; o_local : bool; has_year : bool; has_mon : bool; has_time : bool; nums : list Z }.

Definition o_set (o : other) (i : nat) (v : Z) : other :=
  mk_other (date_fields_set (o_fields o) i v) (o_local o) (has_year o) (has_mon o) (has_time o) (nums o).

Definition o_set_year (o : other) (v : Z) : other :=
  mk_other (date_fields_set (o_fields o) 0 v) (o_local o) true (has_mon o) (has_time o) (nums o).

Definition o_set_mon (o : other) (v : Z) : other :=
  mk_other (date_fields_set (o_fields o) 1 v) (o_local o) (has_year o) true (has_time o) (nums o).

Definition o_set_tz (o : other) (v : Z) : other :=
  mk_other (date_fields_set (o_fields o) 8 v) false (has_year o) (has_mon o) (has_time o) (nums o).

Definition o_set_time (o : other) (f : date_fields_t) : other :=
  mk_other f (o_local o) (has_year o) (has_mon o) true (nums o).

Definition o_push (o : other) (v : Z) : other :=
  mk_other (o_fields o) (o_local o) (has_year o) (has_mon o) (has_time o) (nums o ++ [v]).

(** A year of two digits. *)
Definition short_year (v : Z) : Z := v + (if v <? 100 then 1 else 0) * 1900 + (if v <? 50 then 1 else 0) * 100.

(** The branch for [+] and [-]. *)
Definition other_sign (s : list Z) (o : other) : option (list Z * other) :=
  match (if has_time o then string_get_tzoffset s false else None) with
  | Some (tz, p) => Some (p, o_set_tz o tz)
  | None =>
      match string_get_digits (tl s) 1 0 with
      | Some (val, p) =>
          if cur s =? CH "-" then if val =? 0 then None else Some (p, o_set_year o (- val)) else Some (p, o_set_year o val)
      | None => Some (tl s, o)
      end
  end.

(** The minutes and the seconds behind the hour [val] and its colon. *)
Definition other_time (val : Z) (p : list Z) (o : other) : option (list Z * other) :=
  r ← string_get_digits p 1 2;
  let '(m, p) := r in
  let f := date_fields_set (date_fields_set (o_fields o) 3 val) 4 m in
  match string_skip_char p (CH ":") with
  | (true, p) =>
      r ← string_get_digits p 1 2;
      let '(sec, p) := r in
      let '(ms, p) := string_get_milliseconds p in
      Some (p, o_set_time o (set_ms (date_fields_set f 5 sec) ms))
  | (false, p) => if negb (cur p =? 0) && negb (cur p =? CH " ") then None else Some (p, o_set_time o f)
  end.

(** The branch for a number of [n] digits. *)
Definition other_number (val : Z) (n : nat) (p : list Z) (o : other) : option (list Z * other) :=
  match string_skip_char p (CH ":") with
  | (true, p) => other_time val p o
  | (false, p) =>
      if (2 <? n)%nat then Some (p, o_set_year o val)
      else if (val <? 1) || (31 <? val) then Some (p, o_set_year o (short_year val))
      else if (length (nums o) =? 3)%nat then None
      else Some (p, o_push o val)
  end.

(** The loop over a text in parentheses: the rest, and the level it ends on. *)
Fixpoint paren_loop (s : list Z) (level : Z) : list Z * Z :=
  match s with
  | [] => ([], level)
  | c :: r =>
      let level := level + (if c =? CH "(" then 1 else 0) - (if c =? CH ")" then 1 else 0) in
      if level =? 0 then (r, level) else paren_loop r level
  end.

(** One round on a text that does not start with a space.  The separators are not skipped behind
    [PM], [AM] and the name of a zone. *)
Definition other_step (s : list Z) (o : other) : option (list Z * other) :=
  let seps r := '(p, o) ← r; Some (string_skip_separators p, o) in
  let c := cur s in
  if (c =? CH "+") || (c =? CH "-") then seps (other_sign s o)
  else
    match string_get_digits s 1 0 with
    | Some (val, p) => seps (other_number val (length s - length p) p o)
    | None =>
        match string_get_month s with
        | Some (m, p) => seps (Some (string_skip_until (bytes "0123456789 -/(") p, o_set_mon o m))
        | None =>
            match (if has_time o then string_match s (bytes "PM") else None) with
            | Some p =>
                let h := hour (o_fields o) in
                Some (p, if h =? 12 then o else o_set o 3 (h + 12))
            | None =>
                match (if has_time o then string_match s (bytes "AM") else None) with
                | Some p =>
                    let h := hour (o_fields o) in
                    if 12 <? h then None else Some (p, if h =? 12 then o_set o 3 (h - 12) else o)
                | None =>
                    match string_get_tzabbr s with
                    | Some (off, p) => Some (p, o_set_tz o off)
                    | None =>
                        if c =? CH "(" then
                          let '(p, level) := paren_loop s 0 in
                          if 0 <? level then None else seps (Some (p, o))
                        else if c =? CH ")" then None
                        else if has_year o || has_mon o || has_time o || negb (length (nums o) =? 0)%nat then None
                        else seps (Some (string_skip_until (bytes " -/(") s, o))
                    end
                end
            end
        end
    end.

Fixpoint other_loop (rounds : nat) (s : list Z) (o : other) : option other :=
  let s := string_skip_spaces s in
  if cur s =? 0 then Some o
  else
    match rounds with
    | O => None
    | S rounds => '(p, o) ← other_step s o; other_loop rounds p o
    end.

(** What the numbers that were read stand for. *)
Definition other_fields (o : other) : option date_fields_t :=
  let f := o_fields o in
  let set2 i a j b := date_fields_set (date_fields_set f i a) j b in
  match nums o with
  | [] => if has_year o then Some f else None
  | [a] => Some (if has_mon o then date_fields_set f 2 a else date_fields_set f 1 a)
  | [a; b] =>
      Some (if has_year o then set2 1%nat a 2%nat b
            else if has_mon o then set2 0%nat (short_year b) 2%nat a
            else set2 1%nat a 2%nat b)
  | [a; b; c] => Some (date_fields_set (set2 1%nat a 2%nat b) 0 (short_year c))
  | _ => None
  end.

Definition b2n (b : bool) : nat := if b then 1 else 0.

Definition parse_otherstring (sp : list Z) : option (date_fields_t * bool) :=
  o ← other_loop (length sp) sp (mk_other (mk_fields 2001 1 1 0 0 0 0 0 0) true false false false []);
  if (3 <? length (nums o) + b2n (has_year o) + b2n (has_mon o))%nat then None
  else
    f ← other_fields o;
    if (month f <? 1) || (day f <? 1) then None else Some (date_fields_set f 1 (month f - 1), o_local o).

(** *** Date.parse *)

(** The text up to its first NUL. *)
Fixpoint c_text (s : list Z) : list Z :=
  match s with c :: r => if c =? 0 then [] else c :: c_text r | [] => [] end.

Definition fields_valid (f : date_fields_t) : bool :=
  (month f <=? 11) && (day f <=? 31) && (hour f <=? 24) && (minute f <=? 59) && (second f <=? 59)
  && negb ((hour f =? 24) && negb ((minute f =? 0) && (second f =? 0) && (millisecond f =? 0))).

(** For a string; [None] is NaN. *)
Definition date_parse_string_to_ms `{Heap, TimeZone} (text : list Z) : option Z :=
  if negb (malloc (zlen text + 1)) then None
  else
    let sp := c_text text in
    r ← (match parse_isostring sp with Some r => Some r | None => parse_otherstring sp end);
    let '(f, is_local) := r in
    if negb (fields_valid f) then None
    else
      t ← date_make_fields f is_local;
      rnd (t - tz_minutes f * 60000).

(** The constructor with a string. *)
Definition builtin_Date_string `{Heap, TimeZone} (text : list Z) : option Z := t ← date_parse_string_to_ms text; date_timeclip t.

Definition builtin_Date_parse `{Heap, TimeZone} (args : list (list Z)) : option Z :=
  match args with [] => None | text :: _ => date_parse_string_to_ms text end.
