(* ===== verification/DateParse.v ===== *)
(** * Dates: the tokens of a date text

    What [Date.parse] reads from each part of the texts that [toISOString], [toUTCString] and
    [toString] make, and from the whole. *)

From stdpp Require Import base list strings.
From Stdlib Require Import Ascii.
From S2P Require Import Prelude Utils Utf8 BigIntText BigIntNumber LexChars Calendar Date DateFields DateObject DateText.

(** ** Numbers in the text *)

(** The last [w] decimal digits of a number. *)
Fixpoint dw (w : nat) (n : Z) : list Z :=
  match w with O => [] | S w => dw w (n / 10) ++ [CH "0" + n mod 10] end.

Lemma dw_length w n : length (dw w n) = w.
Proof. revert n. induction w as [|w IH]; intros n; [done|]. cbn [dw]. rewrite length_app, IH. simpl. lia. Qed.

Lemma dw_zero w : dw w 0 = replicate w (CH "0").
Proof.
  induction w as [|w IH]; [done|]. cbn [dw]. change (0 / 10) with 0. rewrite IH. change (48 + 0 mod 10) with 48.
  by rewrite <- replicate_cons_app.
Qed.

(** Padding gives as many digits as were asked for, or as the number has. *)
Lemma zpad_dec w fuel n : 0 <= n < 10 ^ Z.of_nat fuel → (1 <= fuel)%nat →
  ∃ k, zpad (S w) (dec_digits fuel n) = dw k n ∧ (S w <= k)%nat ∧ n < 10 ^ Z.of_nat k ∧ (k = S w ∨ 10 ^ (Z.of_nat k - 1) <= n).
Proof.
  revert w n. induction fuel as [|fuel IH]; intros w n Hn Hf; [lia|]. cbn [dec_digits].
  destruct (Z.ltb_spec n 10) as [Hs|Hb].
  - exists (S w). unfold zpad. cbn [length dw]. rewrite Z.div_small, Z.mod_small, dw_zero by lia.
    split; [do 2 f_equal; lia|]. split; [lia|]. split; [|by left]. rewrite Nat2Z.inj_succ, Z.pow_succ_r by lia.
    pose proof (Z.pow_pos_nonneg 10 (Z.of_nat w) ltac:(lia) ltac:(lia)). lia.
  - rewrite Nat2Z.inj_succ, Z.pow_succ_r in Hn by lia.
    assert (1 <= fuel)%nat as Hf' by (destruct fuel; simpl in Hn; lia).
    assert (0 <= n / 10 < 10 ^ Z.of_nat fuel) as Hq by (split; [apply Z.div_pos; lia|apply Z.div_lt_upper_bound; lia]).
    destruct (IH (w - 1)%nat (n / 10) Hq Hf') as (k & E & Hk & Hlt & Hex). exists (S k).
    assert (zpad (S w) (dec_digits fuel (n / 10) ++ [CH "0" + n mod 10]) = zpad w (dec_digits fuel (n / 10)) ++ [CH "0" + n mod 10]) as ->.
    { unfold zpad. rewrite length_app, app_assoc. do 2 f_equal. f_equal. simpl. lia. }
    assert (zpad w (dec_digits fuel (n / 10)) = zpad (S (w - 1)) (dec_digits fuel (n / 10))) as ->.
    { destruct w as [|w]; [|by replace (S (S w - 1)) with (S w) by lia]. unfold zpad. do 2 f_equal.
      destruct fuel; [lia|]. cbn [dec_digits]. destruct (_ <? _); [done|]. rewrite length_app. simpl. lia. }
    rewrite E. split; [done|]. split; [lia|]. split; [rewrite Nat2Z.inj_succ, Z.pow_succ_r by lia; Z.to_euclidean_division_equations; lia|].
    replace (Z.of_nat (S k) - 1) with (Z.succ (Z.of_nat k - 1)) by lia. destruct Hex as [->|Hex].
    + destruct w as [|w]; [right; simpl; lia|left; lia].
    + right. rewrite Z.pow_succ_r by lia. Z.to_euclidean_division_equations; lia.
Qed.

Lemma zpad_u_most w m n : (1 <= w <= m)%nat → (m <= 10)%nat → 0 <= n < 10 ^ Z.of_nat m →
  ∃ k, zpad w (fmt_u n) = dw k n ∧ (w <= k <= m)%nat ∧ n < 10 ^ Z.of_nat k.
Proof.
  intros Hw Hm Hn. destruct w as [|w]; [lia|]. destruct (zpad_dec w 10 n) as (k & E & Hk & Hlt & Hx); [|lia|].
  { pose proof (Z.pow_le_mono_r 10 (Z.of_nat m) 10 ltac:(lia) ltac:(lia)). lia. }
  exists k. split; [done|]. split; [|done]. destruct Hx as [->|Hx]; [lia|].
  assert (Z.of_nat k - 1 < Z.of_nat m) by (apply (Z.pow_lt_mono_r_iff 10); lia). lia.
Qed.

Lemma zpad_u w n : (1 <= w <= 10)%nat → 0 <= n < 10 ^ Z.of_nat w → zpad w (fmt_u n) = dw w n.
Proof. intros Hw Hn. destruct (zpad_u_most w w n) as (k & -> & Hk & _); [lia..|done|]. f_equal. lia. Qed.

(** The digits are read one after the other. *)
Lemma dw_snoc_from w n v k m r :
  (m = 0 ∨ k + w < m)%nat → 0 <= v → 0 <= n < 10 ^ Z.of_nat w → v * 10 ^ Z.of_nat w + n < 100000000 →
  digits_from (dw w n ++ r) v k m = digits_from r (v * 10 ^ Z.of_nat w + n) (k + w) m.
Proof.
  revert n r. induction w as [|w IH]; intros n r Hm Hv Hn Hb; cbn [dw]; [simpl in *; rewrite Nat.add_0_r; f_equal; lia|].
  rewrite Nat2Z.inj_succ, Z.pow_succ_r in * by lia. pose proof (Z.div_mod n 10 ltac:(lia)) as En.
  pose proof (Z.mod_pos_bound n 10 ltac:(lia)) as Hr.
  assert (0 <= n / 10 < 10 ^ Z.of_nat w) as Hq by (split; [apply Z.div_pos; lia|apply Z.div_lt_upper_bound; lia]).
  assert (0 <= v * 10 ^ Z.of_nat w) by (apply Z.mul_nonneg_nonneg; [done|apply Z.pow_nonneg; lia]).
  rewrite <- app_assoc, IH by lia. cbn [digits_from app].
  unfold digit_c, between. rewrite (proj2 (Z.leb_le _ _)), (proj2 (Z.leb_le (48 + n mod 10) _)) by lia. cbn [andb].
  rewrite (proj2 (Z.leb_gt _ _)) by lia.
  replace ((0 <? m)%nat && (S (k + w) =? m)%nat) with false.
  - f_equal; lia.
  - destruct Hm as [->|Hm]; [done|]. by rewrite (proj2 (Nat.eqb_neq _ _)), andb_false_r by lia.
Qed.

(** Exactly [w] digits. *)
Lemma get_digits_exact w n r : (1 <= w <= 8)%nat → 0 <= n < 10 ^ Z.of_nat w → string_get_digits (dw w n ++ r) w w = Some (n, r).
Proof.
  intros Hw Hn. destruct w as [|w]; [lia|]. unfold string_get_digits. cbn [dw].
  rewrite Nat2Z.inj_succ, Z.pow_succ_r in Hn by lia. pose proof (Z.div_mod n 10 ltac:(lia)) as En.
  pose proof (Z.mod_pos_bound n 10 ltac:(lia)) as Hr. pose proof (Z.pow_le_mono_r 10 (Z.of_nat w) 7 ltac:(lia) ltac:(lia)).
  assert (0 <= n / 10 < 10 ^ Z.of_nat w) as Hq by (split; [apply Z.div_pos; lia|apply Z.div_lt_upper_bound; lia]).
  rewrite <- app_assoc, dw_snoc_from by lia. cbn [digits_from app].
  unfold digit_c, between. rewrite (proj2 (Z.leb_le _ _)), (proj2 (Z.leb_le (48 + n mod 10) _)) by lia. cbn [andb].
  rewrite (proj2 (Z.leb_gt _ _)) by lia. rewrite Nat.add_0_l, Nat.eqb_refl. change (0 <? S w)%nat with true. cbn [andb].
  rewrite Nat.ltb_irrefl. do 2 f_equal. lia.
Qed.

(** All the digits there are. *)
Lemma get_digits_all w n m r : (1 <= w <= 8)%nat → (1 <= m <= w)%nat → 0 <= n < 10 ^ Z.of_nat w → digit_c (cur r) = false →
  string_get_digits (dw w n ++ r) m 0 = Some (n, r).
Proof.
  intros Hw Hm Hn Hr. unfold string_get_digits. pose proof (Z.pow_le_mono_r 10 (Z.of_nat w) 8 ltac:(lia) ltac:(lia)).
  rewrite dw_snoc_from by lia. rewrite Z.mul_0_l, !Z.add_0_l, Nat.add_0_l.
  assert (digits_from r n w 0 = Some (n, w, r)) as -> by (destruct r; [done|]; cbn in *; by rewrite Hr).
  by rewrite (proj2 (Nat.ltb_ge _ _)) by lia.
Qed.

(** Two digits: the month, the day and the time. *)
Lemma fmt_02 n : 0 <= n < 100 → fmt_0d 2 n = dw 2 n.
Proof. intros Hn. unfold fmt_0d. rewrite (proj2 (Z.ltb_ge _ _)) by lia. by apply zpad_u; [lia|]. Qed.

Lemma get_02 n r : 0 <= n < 100 → string_get_digits (fmt_0d 2 n ++ r) 2 2 = Some (n, r).
Proof. intros Hn. rewrite fmt_02 by done. by apply get_digits_exact; [lia|]. Qed.

Lemma get_02_short n r : 0 <= n < 100 → string_get_digits (fmt_0d 2 n ++ r) 1 2 = Some (n, r).
Proof.
  intros Hn. pose proof (get_02 n r Hn) as E. revert E. unfold string_get_digits.
  destruct (digits_from _ _ _ _) as [[[v k] q]|]; [|done]. destruct (Nat.ltb_spec k 2); [done|]. by rewrite (proj2 (Nat.ltb_ge _ _)) by lia.
Qed.

Lemma get_02_all n r : 0 <= n < 100 → digit_c (cur r) = false → string_get_digits (fmt_0d 2 n ++ r) 1 0 = Some (n, r).
Proof. intros Hn Hr. rewrite fmt_02 by done. by apply get_digits_all; [lia..| |]. Qed.

(** A text that starts with a digit. *)
Lemma dw_cons w n : ∃ d l, dw (S w) n = d :: l ∧ CH "0" <= d <= CH "9".
Proof.
  revert n. induction w as [|w IH]; intros n.
  - exists (48 + n mod 10), []. pose proof (Z.mod_pos_bound n 10 ltac:(lia)). split; [done|lia].
  - destruct (IH (n / 10)) as (d & l & E & Hd). exists d, (l ++ [48 + n mod 10]). split; [|done]. change (dw (S (S w)) n) with (dw (S w) (n / 10) ++ [48 + n mod 10]). by rewrite E.
Qed.

(** *** The year *)

Definition year_ok (y : Z) : Prop := -999999 <= y <= 999999.

(** The year of [toUTCString] and [toString]: at least four digits. *)
Lemma fmt_year_spec y : year_ok y → ∃ k, (4 <= k <= 6)%nat ∧ Z.abs y < 10 ^ Z.of_nat k ∧
  fmt_year y = (if y <? 0 then [CH "-"] else []) ++ dw k (Z.abs y).
Proof.
  unfold year_ok. intros Hy. destruct (zpad_u_most 4 6 (Z.abs y)) as (k & E & Hk & Hlt); [lia..|]. exists k.
  split; [done|]. split; [done|]. unfold fmt_year, fmt_0d. destruct (Z.ltb_spec y 0).
  - replace (- y) with (Z.abs y) by lia. simpl (_ - 1)%nat. by rewrite E.
  - replace y with (Z.abs y) at 1 by lia. done.
Qed.

(** The year of [toISOString]: four digits, or a sign and six. *)
Lemma iso_year_spec y r : year_ok y →
  iso_year ((if (0 <=? y) && (y <=? 9999) then fmt_0d 4 y else fmt_plus_07d y) ++ r) = Some (y, r).
Proof.
  unfold year_ok. intros Hy. destruct (Z.leb_spec 0 y) as [H0|H0], (Z.leb_spec y 9999) as [H9|H9]; cbn [andb]; try lia.
  - unfold fmt_0d. rewrite (proj2 (Z.ltb_ge _ _)), zpad_u by lia. unfold iso_year. destruct (dw_cons 3 y) as (d & l & E & Hd).
    replace (cur (dw 4 y ++ r)) with d by (by rewrite E). rewrite (proj2 (Z.eqb_neq _ _)), (proj2 (Z.eqb_neq d (CH "+"))) by lia. cbn [orb].
    apply get_digits_exact; lia.
  - unfold fmt_plus_07d. rewrite (proj2 (Z.ltb_ge _ _)), zpad_u by lia. unfold iso_year. cbn [cur at_ nth app tl].
    change ((CH "+" =? CH "-") || (CH "+" =? CH "+")) with true. cbn iota. rewrite get_digits_exact by lia. cbn [mbind option_bind].
    change (CH "+" =? CH "-") with false. by rewrite Z.abs_eq by lia.
  - unfold fmt_plus_07d. rewrite (proj2 (Z.ltb_lt _ _)), zpad_u by lia. unfold iso_year. cbn [cur at_ nth app tl].
    change ((CH "-" =? CH "-") || (CH "-" =? CH "+")) with true. cbn iota. rewrite get_digits_exact by lia. cbn [mbind option_bind].
    change (CH "-" =? CH "-") with true. cbn iota. rewrite (proj2 (Z.eqb_neq _ _)) by lia. do 2 f_equal. lia.
Qed.

(** *** The format of the standard *)

Lemma digit_c_digit n : digit_c (CH "0" + n mod 10) = true.
Proof.
  pose proof (Z.mod_pos_bound n 10 ltac:(lia)). unfold digit_c, between.
  by rewrite (proj2 (Z.leb_le _ _)), (proj2 (Z.leb_le (48 + n mod 10) _)) by lia.
Qed.

Lemma ms_from_digit k n r v m : ms_from (S k) (CH "0" + n mod 10 :: r) v m = ms_from k r (v + n mod 10 * m) (Z.quot m 10).
Proof. cbn [ms_from]. rewrite digit_c_digit. f_equal. lia. Qed.

Lemma get_ms n r : 0 <= n < 1000 → digit_c (cur r) = false → string_get_milliseconds (CH "." :: fmt_0d 3 n ++ r) = (Some n, r).
Proof.
  intros Hn Hr. unfold fmt_0d. rewrite (proj2 (Z.ltb_ge _ _)), zpad_u by lia. unfold string_get_milliseconds.
  change ((cur (CH "." :: dw 3 n ++ r) =? CH ".") || _) with true. cbn iota. cbn [tl dw app].
  remember r as r' eqn:Er.
  assert (∀ k v m, ms_from k r' v m = (v, r')) as Hend by (intros [|k] v m; [done|]; destruct r'; [done|]; cbn in *; by rewrite Hr).
  rewrite !ms_from_digit, Hend. cbn [length].
  rewrite (proj2 (Nat.ltb_lt _ _)) by lia. do 2 f_equal. change (Z.quot 100 10) with 10. change (Z.quot 10 10) with 1. Z.to_euclidean_division_equations; lia.
Qed.

Lemma skip_char_hit c r : string_skip_char (c :: r) c = (true, r).
Proof. unfold string_skip_char. by rewrite Z.eqb_refl. Qed.

Ltac text_norm :=
  repeat match goal with |- context [bytes ?s] => let v := eval vm_compute in (bytes s) in change (bytes s) with v end;
  repeat rewrite <- app_assoc; cbn [app].

(** A date and a time without the weekday and the zone. *)
Definition plain (f : date_fields_t) (ms : Z) : date_fields_t :=
  mk_fields (year f) (month f) (day f) (hour f) (minute f) (second f) ms 0 0.

Lemma civil_day_31 f : civil f → 1 <= day f <= 31.
Proof. intros [Hm Hd _ _ _ _]. pose proof (month_len_range (year f) (Z.to_nat (month f)) ltac:(lia)). lia. Qed.

Lemma parse_iso f : civil f → year_ok (year f) →
  parse_isostring (date_part DATE_STRING_FMT_ISO true f ++ time_part DATE_STRING_FMT_ISO f) = Some (plain f (millisecond f), false).
Proof.
  intros Hf Hy. pose proof (civil_day_31 f Hf) as Hd. destruct Hf as [Hm _ Hh Hi Hs Hx].
  unfold date_part, time_part, hms. text_norm. unfold parse_isostring. rewrite iso_year_spec by done. cbn [mbind option_bind].
  unfold iso_date. rewrite skip_char_hit, get_02 by lia. cbn [mbind option_bind]. rewrite (proj2 (Z.ltb_ge (month f + 1) 1)) by lia.
  rewrite skip_char_hit, get_02 by lia. cbn [mbind option_bind]. rewrite (proj2 (Z.ltb_ge (day f) 1)) by lia. cbn [mbind option_bind]. rewrite skip_char_hit.
  unfold iso_hour_minute. rewrite get_02 by lia. cbn [mbind option_bind]. rewrite skip_char_hit, get_02 by lia. cbn [mbind option_bind fst snd].
  rewrite skip_char_hit, get_02 by lia. cbn [mbind option_bind]. rewrite get_ms by done. unfold plain.
  cbn -[Z.sub]. do 3 f_equal. lia.
Qed.

(** *** Other formats, token by token *)

Lemma other_loop_space rounds s o : other_loop rounds (CH " " :: s) o = other_loop rounds s o.
Proof. by destruct rounds. Qed.

Lemma skip_bytes_stop f s : f (cur s) = false → skip_bytes f s = s.
Proof. destruct s as [|c r]; [done|]. intros E. cbn in *. by rewrite E. Qed.

Lemma other_round rounds s o p o' : cur s ≠ CH " " → cur s ≠ 0 → other_step s o = Some (p, o') →
  other_loop (S rounds) s o = other_loop rounds p o'.
Proof.
  intros Hsp H0 E. cbn [other_loop]. unfold string_skip_spaces. rewrite skip_bytes_stop by (by apply Z.eqb_neq).
  rewrite (proj2 (Z.eqb_neq _ _)) by done. by rewrite E.
Qed.

(** The start of the loop. *)
Definition other_start : other := mk_other (mk_fields 2001 1 1 0 0 0 0 0 0) true false false false [].

Lemma step_weekday wd r : 0 <= wd < 7 →
  other_step (name3 day_names wd ++ CH "," :: CH " " :: r) other_start = Some (CH " " :: r, other_start) ∧
  other_step (name3 day_names wd ++ CH " " :: r) other_start = Some (CH " " :: r, other_start).
Proof.
  intros Hw. assert (wd = 0 ∨ wd = 1 ∨ wd = 2 ∨ wd = 3 ∨ wd = 4 ∨ wd = 5 ∨ wd = 6) as Hc by lia.
  destruct_or! Hc; subst wd; split; vm_compute; reflexivity.
Qed.

Lemma step_month m r o : 0 <= m < 12 →
  other_step (name3 month_names m ++ CH " " :: r) o = Some (CH " " :: r, o_set_mon o (m + 1)).
Proof.
  intros Hm. assert (m = 0 ∨ m = 1 ∨ m = 2 ∨ m = 3 ∨ m = 4 ∨ m = 5 ∨ m = 6 ∨ m = 7 ∨ m = 8 ∨ m = 9 ∨ m = 10 ∨ m = 11) as Hc by lia.
  destruct_or! Hc; subst m; vm_compute; reflexivity.
Qed.

(** A number, that is no sign. *)
Lemma other_step_number s o val p : digit_c (cur s) = true → string_get_digits s 1 0 = Some (val, p) →
  other_step s o = '(q, o) ← other_number val (length s - length p) p o; Some (string_skip_separators q, o).
Proof.
  intros Hd E. unfold other_step. rewrite E. unfold digit_c, between in Hd. apply andb_true_iff in Hd as [H1%Z.leb_le H2%Z.leb_le].
  by rewrite (proj2 (Z.eqb_neq _ _)), (proj2 (Z.eqb_neq (cur s) (CH "-"))) by lia.
Qed.

Lemma cur_dw w n r : digit_c (cur (dw (S w) n ++ r)) = true.
Proof.
  destruct (dw_cons w n) as (d & l & -> & Hd). unfold digit_c, between. cbn.
  by rewrite (proj2 (Z.leb_le _ _)), (proj2 (Z.leb_le d _)) by lia.
Qed.

Lemma cur_02 n r : 0 <= n < 100 → digit_c (cur (fmt_0d 2 n ++ r)) = true.
Proof. intros Hn. rewrite fmt_02 by done. apply cur_dw. Qed.

Lemma step_day d r o : 1 <= d <= 31 → (length (nums o) < 3)%nat →
  other_step (fmt_0d 2 d ++ CH " " :: r) o = Some (CH " " :: r, o_push o d).
Proof.
  intros Hd Ho. rewrite (other_step_number _ _ d (CH " " :: r)); [|apply cur_02; lia|by apply get_02_all; [lia|]].
  rewrite fmt_02, length_app, dw_length by lia. replace (2 + _ - _)%nat with 2%nat by lia. unfold other_number.
  change (string_skip_char (CH " " :: r) (CH ":")) with (false, CH " " :: r). cbn iota. change (2 <? 2)%nat with false. cbn iota.
  rewrite (proj2 (Z.ltb_ge d 1)), (proj2 (Z.ltb_ge 31 d)), (proj2 (Nat.eqb_neq _ 3)) by lia. done.
Qed.

Lemma step_year y r o : year_ok y → has_time o = false →
  other_step (fmt_year y ++ CH " " :: r) o = Some (CH " " :: r, o_set_year o y).
Proof.
  intros Hy Ho. destruct (fmt_year_spec y Hy) as (k & Hk & Hlt & ->). destruct k as [|k]; [lia|].
  assert (string_get_digits (dw (S k) (Z.abs y) ++ CH " " :: r) 1 0 = Some (Z.abs y, CH " " :: r)) as Eg by (apply get_digits_all; [lia..|done]).
  destruct (Z.ltb_spec y 0).
  - unfold other_step. cbn [app cur at_ nth]. change ((CH "-" =? CH "+") || (CH "-" =? CH "-")) with true. cbn iota. unfold other_sign.
    rewrite Ho. cbn iota. cbn [tl]. rewrite Eg. cbn [cur at_ nth]. change (CH "-" =? CH "-") with true. cbn iota.
    rewrite (proj2 (Z.eqb_neq _ _)) by lia. cbn [mbind option_bind]. change (string_skip_separators (CH " " :: r)) with (CH " " :: r).
    do 4 f_equal. lia.
  - cbn [app]. rewrite (other_step_number _ _ (Z.abs y) (CH " " :: r)); [|apply cur_dw|done].
    rewrite length_app, dw_length. replace (S k + _ - _)%nat with (S k) by lia. unfold other_number.
    change (string_skip_char (CH " " :: r) (CH ":")) with (false, CH " " :: r). cbn iota. rewrite (proj2 (Nat.ltb_lt 2 (S k))) by lia.
    cbn [mbind option_bind]. change (string_skip_separators (CH " " :: r)) with (CH " " :: r). do 3 f_equal. lia.
Qed.

Definition with_time (g f : date_fields_t) : date_fields_t :=
  date_fields_set (date_fields_set (date_fields_set g 3 (hour f)) 4 (minute f)) 5 (second f).

Lemma step_time f r o : civil f → other_step (hms f ++ CH " " :: r) o = Some (CH " " :: r, o_set_time o (with_time (o_fields o) f)).
Proof.
  intros [_ _ Hh Hi Hs _]. unfold hms. text_norm.
  rewrite (other_step_number _ _ (hour f) (CH ":" :: fmt_0d 2 (minute f) ++ CH ":" :: fmt_0d 2 (second f) ++ CH " " :: r));
    [|apply cur_02; lia|by apply get_02_all; [lia|]].
  unfold other_number. rewrite skip_char_hit. unfold other_time. rewrite get_02_short by lia. cbn [mbind option_bind].
  rewrite skip_char_hit, get_02_short by lia. done.
Qed.

Lemma step_gmt r o : other_step (bytes "GMT" ++ r) o = Some (r, o_set_tz o 0).
Proof. destruct o as [f l hy hm ht ns]. destruct ht, r; vm_compute; reflexivity. Qed.

Lemma get_hhmm h m : 0 <= h < 24 → 0 <= m < 60 →
  string_get_digits (fmt_0d 2 h ++ fmt_0d 2 m) 1 0 = Some (h * 100 + m, []).
Proof.
  intros Hh Hm. assert (fmt_0d 2 h ++ fmt_0d 2 m = dw 4 (h * 100 + m) ++ []) as ->; [|by apply get_digits_all; [lia..|]].
  rewrite app_nil_r, !fmt_02 by lia. cbn [dw app]. apply (f_equal2 cons); [|apply (f_equal2 cons); [|apply (f_equal2 cons); [|apply (f_equal2 cons); [|done]]]];
    Z.to_euclidean_division_equations; lia.
Qed.

Lemma step_offset tz o : Z.abs tz < 1440 → has_time o = true →
  other_step (bytes (if tz <? 0 then "-" else "+") ++ fmt_0d 2 (Z.quot (Z.abs tz) 60) ++ fmt_0d 2 (Z.rem (Z.abs tz) 60)) o
  = Some ([], o_set_tz o tz).
Proof.
  intros Htz Ho. assert (0 <= Z.quot (Z.abs tz) 60 < 24 ∧ 0 <= Z.rem (Z.abs tz) 60 < 60) as [Hh Hm] by (Z.to_euclidean_division_equations; lia).
  pose proof (Z.quot_rem (Z.abs tz) 60 ltac:(lia)) as Ea.
  set (h := Z.quot (Z.abs tz) 60) in *. set (m := Z.rem (Z.abs tz) 60) in *. clearbody h m. set (p := fmt_0d 2 h ++ fmt_0d 2 m).
  assert (length p = 4%nat) as Hl by (subst p; by rewrite length_app, !fmt_02, !dw_length by lia).
  assert (∀ sgn, sgn = CH "+" ∨ sgn = CH "-" →
    string_get_tzoffset (sgn :: p) false = Some (if sgn =? CH "+" then Z.abs tz else - Z.abs tz, [])) as Hg.
  { intros sgn Hsgn. unfold string_get_tzoffset. cbn [cur at_ nth tl]. replace ((sgn =? CH "+") || (sgn =? CH "-")) with true by (by destruct Hsgn as [-> | ->]).
    subst p. rewrite get_hhmm by done. cbn [mbind option_bind length]. rewrite Hl. change (shorten (4 - 0) (h * 100 + m)) with (4%nat, h * 100 + m).
    cbn [andb]. cbn iota.
    replace (Z.quot (h * 100 + m) 100) with h by (Z.to_euclidean_division_equations; lia).
    replace (Z.rem (h * 100 + m) 100) with m by (Z.to_euclidean_division_equations; lia).
    change (2 <? 4)%nat with true. cbn iota. cbn [mbind option_bind]. rewrite (proj2 (Z.ltb_ge 23 h)), (proj2 (Z.ltb_ge 59 m)) by lia. cbn [orb]. replace (h * 60 + m) with (Z.abs tz) by lia. done. }
  destruct (Z.ltb_spec tz 0); text_norm; unfold other_step; cbn [cur at_ nth].
  - change ((CH "-" =? CH "+") || (CH "-" =? CH "-")) with true. cbn iota. unfold other_sign. rewrite Ho, Hg by (by right).
    cbn [mbind option_bind]. change (string_skip_separators []) with (@nil Z). change (CH "-" =? CH "+") with false. do 4 f_equal. lia.
  - change ((CH "+" =? CH "+") || (CH "+" =? CH "-")) with true. cbn iota. unfold other_sign. rewrite Ho, Hg by (by left).
    cbn [mbind option_bind]. change (string_skip_separators []) with (@nil Z). change (CH "+" =? CH "+") with true. do 4 f_equal. lia.
Qed.

(** *** The whole text *)

Lemma digit_visible s : digit_c (cur s) = true → cur s ≠ CH " " ∧ cur s ≠ 0.
Proof. unfold digit_c, between. intros [H1%Z.leb_le H2%Z.leb_le]%andb_true_iff. lia. Qed.

Lemma round_number rounds s o p o' : digit_c (cur s) = true → other_step s o = Some (CH " " :: p, o') →
  other_loop (S rounds) s o = other_loop rounds p o'.
Proof. intros [H1 H2]%digit_visible E. rewrite (other_round _ _ _ _ _ H1 H2 E). apply other_loop_space. Qed.

Lemma name3_visible names i r : names = day_names ∧ 0 <= i < 7 ∨ names = month_names ∧ 0 <= i < 12 →
  cur (name3 names i ++ r) ≠ CH " " ∧ cur (name3 names i ++ r) ≠ 0.
Proof.
  intros [[-> Hi]|[-> Hi]].
  - assert (i = 0 ∨ i = 1 ∨ i = 2 ∨ i = 3 ∨ i = 4 ∨ i = 5 ∨ i = 6) as Hc by lia. by destruct_or! Hc; subst i.
  - assert (i = 0 ∨ i = 1 ∨ i = 2 ∨ i = 3 ∨ i = 4 ∨ i = 5 ∨ i = 6 ∨ i = 7 ∨ i = 8 ∨ i = 9 ∨ i = 10 ∨ i = 11) as Hc by lia. by destruct_or! Hc; subst i.
Qed.

Lemma round_name names i rounds r o p o' : names = day_names ∧ 0 <= i < 7 ∨ names = month_names ∧ 0 <= i < 12 →
  other_step (name3 names i ++ r) o = Some (CH " " :: p, o') →
  other_loop (S rounds) (name3 names i ++ r) o = other_loop rounds p o'.
Proof. intros Hi E. destruct (name3_visible names i r Hi) as [H1 H2]. rewrite (other_round _ _ _ _ _ H1 H2 E). apply other_loop_space. Qed.

Lemma round_year rounds y r o : year_ok y → has_time o = false →
  other_loop (S rounds) (fmt_year y ++ CH " " :: r) o = other_loop rounds r (o_set_year o y).
Proof.
  intros Hy Ho. rewrite (other_round _ _ o (CH " " :: r) (o_set_year o y)); [apply other_loop_space| | |by apply step_year].
  all: destruct (fmt_year_spec y Hy) as ([|k] & Hk & _ & ->); [lia|]; destruct (y <? 0); [done|]; apply digit_visible; apply cur_dw.
Qed.

(** What the first tokens, up to the time, leave. *)
Definition other_read (f : date_fields_t) (tz : Z) : other :=
  mk_other (mk_fields (year f) (month f + 1) 1 (hour f) (minute f) (second f) 0 0 tz) false true true true [day f].

Lemma other_utc f rounds : civil f → year_ok (year f) → 0 <= weekday f < 7 →
  other_loop (6 + rounds) (date_part DATE_STRING_FMT_UTC true f ++ time_part DATE_STRING_FMT_UTC f) other_start = Some (other_read f 0).
Proof.
  intros Hf Hy Hw. pose proof (civil_day_31 f Hf) as Hd. pose proof Hf as [Hm _ Hh Hi Hs Hx].
  unfold date_part, time_part. text_norm. cbn [Nat.add].
  erewrite round_name; [|by left|by apply step_weekday].
  erewrite round_number; [|apply cur_02; lia|apply step_day; [lia|simpl; lia]].
  erewrite round_name; [|by right|by apply step_month].
  rewrite round_year by done.
  erewrite round_number; [|unfold hms; rewrite <- app_assoc; apply cur_02; lia|by apply step_time].
  erewrite other_round; [|done|done|apply (step_gmt [])]. by destruct rounds.
Qed.

Lemma other_local f rounds : civil f → year_ok (year f) → 0 <= weekday f < 7 → Z.abs (tz_minutes f) < 1440 →
  other_loop (7 + rounds) (date_part DATE_STRING_FMT_LOCAL true f ++ time_part DATE_STRING_FMT_LOCAL f) other_start
  = Some (other_read f (tz_minutes f)).
Proof.
  intros Hf Hy Hw Htz. pose proof (civil_day_31 f Hf) as Hd. pose proof Hf as [Hm _ Hh Hi Hs Hx].
  unfold date_part, time_part. cbv zeta. cbn [Nat.add]. set (zone := bytes (if tz_minutes f <? 0 then _ else _) ++ _).
  text_norm.
  erewrite round_name; [|by left|by apply step_weekday].
  erewrite round_name; [|by right|by apply step_month].
  erewrite round_number; [|apply cur_02; lia|apply step_day; [lia|simpl; lia]].
  rewrite round_year by done.
  erewrite round_number; [|unfold hms; rewrite <- app_assoc; apply cur_02; lia|by apply step_time].
  erewrite other_round; [|done|done|apply (step_gmt zone)].
  erewrite other_round; [| | |by apply step_offset].
  - by destruct rounds.
  - by destruct (tz_minutes f <? 0).
  - by destruct (tz_minutes f <? 0).
Qed.

Lemma iso_year_name i r : 0 <= i < 7 → iso_year (name3 day_names i ++ r) = None.
Proof.
  intros Hi. assert (i = 0 ∨ i = 1 ∨ i = 2 ∨ i = 3 ∨ i = 4 ∨ i = 5 ∨ i = 6) as Hc by lia. by destruct_or! Hc; subst i.
Qed.

Lemma other_read_fields f tz : 0 <= month f → 1 <= day f →
  (let o := other_read f tz in
   if (3 <? length (nums o) + b2n (has_year o) + b2n (has_mon o))%nat then None
   else g ← other_fields o; if (month g <? 1) || (day g <? 1) then None else Some (date_fields_set g 1 (month g - 1), o_local o))
  = Some (date_fields_set (plain f 0) 8 tz, false).
Proof.
  intros Hm Hd. cbn -[Z.ltb Z.add Z.sub]. rewrite (proj2 (Z.ltb_ge (month f + 1) 1)), (proj2 (Z.ltb_ge (day f) 1)) by lia.
  cbn [orb]. do 3 f_equal. lia.
Qed.

Lemma parse_utc f : civil f → year_ok (year f) → 0 <= weekday f < 7 →
  let text := date_part DATE_STRING_FMT_UTC true f ++ time_part DATE_STRING_FMT_UTC f in
  parse_isostring text = None ∧ parse_otherstring text = Some (plain f 0, false).
Proof.
  intros Hf Hy Hw text. pose proof (civil_day_31 f Hf) as Hd. pose proof Hf as [Hm _ _ _ _ _]. split.
  - subst text. unfold date_part. text_norm. unfold parse_isostring. rewrite iso_year_name by done. done.
  - unfold parse_otherstring. fold other_start.
    assert (∃ k, length text = 6 + k)%nat as (k & ->).
    { exists (length text - 6)%nat. subst text. unfold date_part, time_part. text_norm. repeat progress (rewrite ?length_app; cbn [length]). lia. }
    subst text. rewrite other_utc by done. apply other_read_fields; lia.
Qed.

Lemma parse_local f : civil f → year_ok (year f) → 0 <= weekday f < 7 → Z.abs (tz_minutes f) < 1440 →
  let text := date_part DATE_STRING_FMT_LOCAL true f ++ time_part DATE_STRING_FMT_LOCAL f in
  parse_isostring text = None ∧ parse_otherstring text = Some (date_fields_set (plain f 0) 8 (tz_minutes f), false).
Proof.
  intros Hf Hy Hw Htz text. pose proof (civil_day_31 f Hf) as Hd. pose proof Hf as [Hm _ _ _ _ _]. split.
  - subst text. unfold date_part. text_norm. unfold parse_isostring. rewrite iso_year_name by done. done.
  - unfold parse_otherstring. fold other_start.
    assert (∃ k, length text = 7 + k)%nat as (k & ->).
    { exists (length text - 7)%nat. subst text. unfold date_part, time_part. cbv zeta. text_norm. repeat progress (rewrite ?length_app; cbn [length]). lia. }
    subst text. rewrite other_local by done. apply other_read_fields; lia.
Qed.
