(* ===== verification/DateRoundTrip.v ===== *)
(** * Dates: what is printed is parsed

    The texts of Dates fit their buffer, and [Date.parse] reads the time values they stand for;
    the loop of [parse_otherstring] ends. *)

From stdpp Require Import base list strings.
From Stdlib Require Import Ascii.
From S2P Require Import Prelude Utils Utf8 BigIntText BigIntNumber LexChars Calendar Date DateFields DateObject DateText DateParse.

(** ** The loop ends *)

Lemma skip_bytes_le f s : (length (skip_bytes f s) <= length s)%nat.
Proof. induction s as [|c s IH]; [done|]. cbn [skip_bytes]. destruct (f c); simpl; lia. Qed.

Lemma skip_char_le s c : (length (string_skip_char s c).2 <= length s)%nat.
Proof. destruct s as [|x r]; [done|]. simpl. destruct (x =? c); simpl; lia. Qed.

Lemma digits_from_length s v n m v' n' r : digits_from s v n m = Some (v', n', r) → (length r + n' = length s + n ∧ n <= n')%nat.
Proof.
  revert v n. induction s as [|c s IH]; intros v n; cbn [digits_from]; [by intros [= <- <- <-]|].
  destruct (digit_c c); [|by intros [= <- <- <-]]. destruct (100000000 <=? v); [done|]. cbv zeta.
  destruct (_ && _); [intros [= <- <- <-]; simpl; lia|]. intros E%IH. simpl. lia.
Qed.

Lemma get_digits_length s a b v r : string_get_digits s a b = Some (v, r) → (length r + a <= length s)%nat.
Proof.
  unfold string_get_digits. destruct (digits_from s 0 0 b) as [[[v' n'] r']|] eqn:E; [|done]. apply digits_from_length in E.
  destruct (Nat.ltb_spec n' a); [done|]. intros [= <- <-]. lia.
Qed.

Lemma ms_from_length n s ms mul : (length (ms_from n s ms mul).2 <= length s)%nat.
Proof.
  revert s ms mul. induction n as [|n IH]; intros s ms mul; [done|]. destruct s as [|c r]; [done|]. cbn [ms_from].
  destruct (digit_c c); [|done]. specialize (IH r (ms + (c - 48) * mul) (Z.quot mul 10)). simpl. lia.
Qed.

Lemma get_ms_length s ms r : string_get_milliseconds s = (ms, r) → (length r <= length s)%nat.
Proof.
  unfold string_get_milliseconds. destruct (_ || _); [|by intros [= <- <-]].
  pose proof (ms_from_length 9 (tl s) 0 100) as Hl. destruct (ms_from 9 (tl s) 0 100) as [v q]. cbn in Hl.
  destruct (_ <? _)%nat; intros [= <- <-]; [|done]. destruct s; simpl in *; lia.
Qed.

Lemma string_match_length s w r : string_match s w = Some r → (length r + length w = length s)%nat.
Proof.
  revert s. induction w as [|c w IH]; intros [|x s]; cbn; try (by intros [= <-]; cbn; lia).
  destruct (_ =? _); [|done]. intros E%IH. lia.
Qed.

Lemma tzoffset_length s strict tz r : string_get_tzoffset s strict = Some (tz, r) → (length r < length s)%nat.
Proof.
  destruct s as [|c s]; [done|]. unfold string_get_tzoffset. cbn [tl length]. destruct (_ || _).
  - destruct (string_get_digits s 1 0) as [[hh q]|] eqn:E; [|done]. apply get_digits_length in E. cbn [mbind option_bind].
    destruct (_ && _); [done|]. destruct (shorten _ hh) as [n h]. destruct (2 <? n)%nat; cbn [mbind option_bind].
    + destruct (_ || _); [done|]. intros [= <- <-]. lia.
    + pose proof (skip_char_le q (CH ":")) as Hs. destruct (string_skip_char q (CH ":")) as [[] q']; cbn in Hs.
      * destruct (string_get_digits q' 2 2) as [[mm q2]|] eqn:E2; [|done]. apply get_digits_length in E2. cbn [mbind option_bind fst snd].
        destruct (_ || _); [done|]. intros [= <- <-]. lia.
      * cbn [mbind option_bind]. destruct (_ || _); [done|]. intros [= <- <-]. lia.
  - destruct (_ =? _); [|done]. intros [= <- <-]. lia.
Qed.

Lemma tzabbr_length s tz r : string_get_tzabbr s = Some (tz, r) → (length r < length s)%nat.
Proof.
  assert (Forall (λ p, (0 < length p.1)%nat) js_tzabbr) as Hl by (vm_compute; repeat constructor).
  unfold string_get_tzabbr. induction js_tzabbr as [|[w off] l IH]; [done|]. apply Forall_cons in Hl as [Hw Hl]. cbn [tzabbr_from].
  destruct (string_match s w) as [q|] eqn:E; [|by apply IH]. apply string_match_length in E. simpl in Hw. intros [= <- <-]. lia.
Qed.

Lemma other_sign_length s o p o' : other_sign s o = Some (p, o') → s ≠ [] → (length p < length s)%nat.
Proof.
  intros E Hs. assert (S (length (tl s)) = length s) as Hl by (by destruct s). revert E. unfold other_sign.
  destruct (if has_time o then _ else _) as [[tz q]|] eqn:Et.
  - intros [= <- <-]. destruct (has_time o); [|done]. by eapply tzoffset_length.
  - destruct (string_get_digits (tl s) 1 0) as [[v q]|] eqn:Eg; [|intros [= <- <-]; lia]. apply get_digits_length in Eg.
    destruct (_ =? _); [destruct (_ =? _); [done|]|]; intros [= <- <-]; lia.
Qed.

Lemma other_time_length val p o q o' : other_time val p o = Some (q, o') → (length q <= length p)%nat.
Proof.
  unfold other_time. destruct (string_get_digits p 1 2) as [[m p1]|] eqn:E; [|done]. apply get_digits_length in E. cbn [mbind option_bind].
  pose proof (skip_char_le p1 (CH ":")) as Hs. destruct (string_skip_char p1 (CH ":")) as [[] p2]; cbn in Hs.
  - destruct (string_get_digits p2 1 2) as [[s p3]|] eqn:E2; [|done]. apply get_digits_length in E2. cbn [mbind option_bind].
    destruct (string_get_milliseconds p3) as [ms p4] eqn:E3. apply get_ms_length in E3. intros [= <- <-]. lia.
  - destruct (_ && _); [done|]. intros [= <- <-]. lia.
Qed.

Lemma other_number_length val n p o q o' : other_number val n p o = Some (q, o') → (length q <= length p)%nat.
Proof.
  unfold other_number. pose proof (skip_char_le p (CH ":")) as Hs. destruct (string_skip_char p (CH ":")) as [[] p1]; cbn in Hs.
  - intros E%other_time_length. lia.
  - destruct (_ <? _)%nat; [intros [= <- <-]; lia|]. destruct (_ || _); [intros [= <- <-]; lia|]. destruct (_ =? _)%nat; [done|]. intros [= <- <-]. lia.
Qed.

Lemma paren_loop_length s level : (length (paren_loop s level).1 <= length s - 1)%nat.
Proof.
  revert level. induction s as [|c s IH]; intros level; [done|]. cbn [paren_loop]. destruct (_ =? 0); [simpl; lia|].
  specialize (IH (level + (if c =? CH "(" then 1 else 0) - (if c =? CH ")" then 1 else 0))). simpl in *. lia.
Qed.

(** A word, or the slash the words stop at. *)
Lemma skip_word_length s : cur s ≠ CH " " → cur s ≠ CH "-" → cur s ≠ CH "(" → s ≠ [] →
  (length (string_skip_separators (string_skip_until (bytes " -/(") s)) < length s)%nat.
Proof.
  destruct s as [|c s]; [done|]. cbn [cur at_ nth]. intros H1 H2 H3 _. unfold string_skip_until. cbn [skip_bytes].
  destruct (bool_decide_reflect (c ∈ bytes " -/(")) as [Hc|Hc]; cbn [negb].
  - assert (c = CH "/") as -> by (change (c ∈ [32; 45; 47; 40]) in Hc; rewrite !elem_of_cons in Hc; destruct Hc as [->|[->|[->|[->|Hc]]]]; [done..|by apply not_elem_of_nil in Hc]). unfold string_skip_separators. cbn [skip_bytes].
    match goal with |- context [if ?b then _ else _] => change b with true end. cbn iota. match goal with |- (length (skip_bytes ?f s) < _)%nat => pose proof (skip_bytes_le f s) end. simpl. lia.
  - unfold string_skip_separators. match goal with |- (length (skip_bytes ?f (skip_bytes ?g s)) < _)%nat => pose proof (skip_bytes_le f (skip_bytes g s)); pose proof (skip_bytes_le g s) end.
    simpl. lia.
Qed.

(** Every round reads something. *)
Lemma other_step_shorter s o p o' : cur s ≠ CH " " → s ≠ [] → other_step s o = Some (p, o') → (length p < length s)%nat.
Proof.
  intros Hsp Hne. unfold other_step. cbv zeta. pose proof (λ q, skip_bytes_le (λ c, (c =? CH "-") || (c =? CH "/") || (c =? CH ".") || (c =? CH ",")) q) as Hsep.
  fold string_skip_separators in Hsep. destruct (_ || _) eqn:Esign.
  { destruct (other_sign s o) as [[q o2]|] eqn:E; [|done]. apply other_sign_length in E; [|done]. intros [= <- <-]. specialize (Hsep q). lia. }
  apply orb_false_iff in Esign as [_ Eminus%Z.eqb_neq].
  destruct (string_get_digits s 1 0) as [[val q]|] eqn:Eg.
  { apply get_digits_length in Eg. destruct (other_number _ _ q o) as [[q2 o2]|] eqn:E; [|done]. apply other_number_length in E.
    intros [= <- <-]. specialize (Hsep q2). lia. }
  destruct (string_get_month s) as [[m q]|] eqn:Em.
  { intros [= <- <-]. assert (length q < length s)%nat.
    { unfold string_get_month in Em. destruct (find_abbrev _ _ _ _); [|done]. injection Em as <- <-. rewrite length_drop. destruct s; [done|]. simpl. lia. }
    specialize (Hsep (string_skip_until (bytes "0123456789 -/(") q)). pose proof (skip_bytes_le (λ c, negb (bool_decide (c ∈ bytes "0123456789 -/("))) q).
    unfold string_skip_until in *. lia. }
  destruct (if has_time o then _ else _) as [q|] eqn:Epm.
  { intros [= <- <-]. destruct (has_time o); [|done]. apply string_match_length in Epm. simpl in Epm. lia. }
  clear Epm. destruct (if has_time o then _ else _) as [q|] eqn:Eam.
  { destruct (12 <? _); [done|]. intros [= <- <-]. destruct (has_time o); [|done]. apply string_match_length in Eam. simpl in Eam. lia. }
  destruct (string_get_tzabbr s) as [[off q]|] eqn:Et; [apply tzabbr_length in Et; by intros [= <- <-]|].
  destruct (Z.eqb_spec (cur s) (CH "(")).
  { pose proof (paren_loop_length s 0) as Hp. destruct (paren_loop s 0) as [q l]. destruct (0 <? l); [done|]. intros [= <- <-]. specialize (Hsep q). destruct s; [done|].
    simpl in *. lia. }
  destruct (_ =? CH ")"); [done|]. destruct (_ || _ || _ || _); [done|]. intros [= <- <-]. by apply skip_word_length.
Qed.

Lemma other_loop_enough s o rounds : (length s <= rounds)%nat → other_loop rounds s o = other_loop (length s) s o.
Proof.
  remember (length s) as n eqn:En. revert s o rounds En. induction n as [n IH] using lt_wf_ind. intros s o rounds -> Hr.
  pose proof (skip_bytes_le (λ c, c =? CH " ") s) as Hs. fold string_skip_spaces in Hs.
  assert (cur (string_skip_spaces s) ≠ CH " ") as Hsp.
  { unfold string_skip_spaces. clear. induction s as [|c s IH]; [done|]. cbn [skip_bytes]. destruct (Z.eqb_spec c (CH " ")); [done|done]. }
  destruct (length s) as [|n] eqn:El; [by destruct s, rounds|]. destruct rounds as [|rounds]; [lia|]. cbn [other_loop].
  destruct (Z.eqb_spec (cur (string_skip_spaces s)) 0) as [|H0]; [done|].
  destruct (other_step (string_skip_spaces s) o) as [[p o']|] eqn:E; [|done]. cbn [mbind option_bind].
  apply other_step_shorter in E; [|done|by intros Hn; rewrite Hn in H0].
  rewrite (IH (length p) ltac:(lia) p o' rounds eq_refl ltac:(lia)). by rewrite (IH (length p) ltac:(lia) p o' n eq_refl ltac:(lia)).
Qed.

(** ** The texts *)

(** A text of at most [n] bytes, none of them NUL. *)
Definition short (n : nat) (s : list Z) : Prop := (length s <= n)%nat ∧ Forall (λ c, c ≠ 0) s.

Lemma short_app a b s r : short a s → short b r → short (a + b) (s ++ r).
Proof. intros [H1 H2] [H3 H4]. split; [rewrite length_app; lia|by apply Forall_app]. Qed.

Lemma short_le a b s : short a s → (a <= b)%nat → short b s.
Proof. intros [H1 H2] Hab. split; [lia|done]. Qed.

Lemma short_dw w n : short w (dw w n).
Proof.
  split; [by rewrite dw_length|]. revert n. induction w as [|w IH]; intros n; [done|]. cbn [dw]. apply Forall_app. split; [apply IH|].
  pose proof (Z.mod_pos_bound n 10 ltac:(lia)). repeat constructor. lia.
Qed.

Lemma short_02 n : 0 <= n < 100 → short 2 (fmt_0d 2 n).
Proof. intros Hn. rewrite fmt_02 by done. apply short_dw. Qed.

Lemma short_03 n : 0 <= n < 1000 → short 3 (fmt_0d 3 n).
Proof. intros Hn. unfold fmt_0d. rewrite (proj2 (Z.ltb_ge _ _)), zpad_u by lia. apply short_dw. Qed.

Lemma short_year y : year_ok y → short 7 (fmt_year y).
Proof.
  intros Hy. destruct (fmt_year_spec y Hy) as (k & Hk & _ & ->). eapply short_le; [apply (short_app 1 k); [|apply short_dw]|lia].
  destruct (y <? 0); split; simpl; by auto with lia.
Qed.

Lemma short_iso_year y : year_ok y → short 7 (if (0 <=? y) && (y <=? 9999) then fmt_0d 4 y else fmt_plus_07d y).
Proof.
  unfold year_ok. intros Hy. destruct (_ && _) eqn:E.
  - apply andb_true_iff in E as [E1%Z.leb_le E2%Z.leb_le]. unfold fmt_0d. rewrite (proj2 (Z.ltb_ge _ _)), zpad_u by lia. eapply short_le; [apply short_dw|lia].
  - unfold fmt_plus_07d. rewrite zpad_u by lia. apply (short_app 1 6 [_]); [|apply short_dw]. destruct (y <? 0); split; simpl; by auto with lia.
Qed.

Lemma short_name names i : Forall (λ c, c ≠ 0) names → short 3 (name3 names i).
Proof. intros Hn. unfold name3. split; [rewrite length_take; lia|]. by apply Forall_take, Forall_drop. Qed.

Lemma short_day i : short 3 (name3 day_names i).
Proof. apply short_name. repeat (constructor; [done|]). constructor. Qed.

Lemma short_month i : short 3 (name3 month_names i).
Proof. apply short_name. repeat (constructor; [done|]). constructor. Qed.

Lemma short_bytes n s : bool_decide (Forall (λ c, c ≠ 0) (bytes s)) = true → length (bytes s) = n → short n (bytes s).
Proof. intros H1%bool_decide_eq_true H2. split; [lia|done]. Qed.

Lemma short_nil : short 0 [].
Proof. by split. Qed.

Create HintDb date_text.
#[export] Hint Resolve short_app short_02 short_03 short_year short_iso_year short_nil short_day short_month : date_text.
#[export] Hint Extern 2 (short _ (bytes _)) => eapply short_bytes; vm_compute; reflexivity : date_text.

Lemma date_string_short fmt part f : civil f → year_ok (year f) → Z.abs (tz_minutes f) <= 1440 →
  short 63 ((match part with DATE_STRING_PART_TIME => [] | _ => date_part fmt (is_part_all part) f end)
      ++ (match part with DATE_STRING_PART_DATE => [] | _ => time_part fmt f end)).
Proof.
  intros Hf Hy Htz. pose proof (civil_day_31 f Hf) as Hd. destruct Hf as [Hm _ Hh Hi Hs Hx].
  assert (∀ all, short 32 (date_part fmt all f)) as Hdate.
  { intros all. destruct fmt, all; unfold date_part; (eapply short_le; [repeat first [apply short_app|solve [eauto with date_text lia]|apply short_02; lia]|lia]). }
  assert (short 31 (time_part fmt f)) as Htime.
  { assert (0 <= Z.quot (Z.abs (tz_minutes f)) 60 < 100 ∧ 0 <= Z.rem (Z.abs (tz_minutes f)) 60 < 100) as [??] by (Z.to_euclidean_division_equations; lia).
    assert (0 <= Z.rem (hour f + 11) 12 + 1 < 100) by (Z.to_euclidean_division_equations; lia).
    destruct fmt; unfold time_part, hms; cbv zeta; [| destruct (tz_minutes f <? 0) | | destruct (hour f <? 12) ];
      (eapply short_le; [repeat first [apply short_app|solve [eauto with date_text lia]|apply short_02; lia|apply short_03; lia]|lia]). }
  destruct part; (eapply short_le; [apply short_app; eauto using short_nil|lia]).
Qed.

(** ** Back to the time value *)

Lemma c_text_id s : Forall (λ c, c ≠ 0) s → c_text s = s.
Proof. induction 1 as [|c s Hc _ IH]; [done|]. cbn [c_text]. by rewrite (proj2 (Z.eqb_neq _ _)), IH. Qed.

Lemma civil_year_ok f : civil f → Z.abs (time_of f) <= 8640000000000000 + 100000000 → year_ok (year f).
Proof.
  intros Hf Ht. destruct (civil_small f Hf Ht) as [_ Hy]. unfold year_accepted in Hy. rewrite Z.div_small in Hy by apply Hf.
  apply andb_true_iff in Hy as [H1%Z.leb_le H2%Z.leb_le]. unfold year_ok. lia.
Qed.

Lemma civil_fields_valid f : civil f → fields_valid f = true.
Proof.
  intros Hf. pose proof (civil_day_31 f Hf). destruct Hf as [Hm _ Hh Hi Hs Hx]. unfold fields_valid.
  rewrite (proj2 (Z.eqb_neq (hour f) 24)) by lia. repeat (apply andb_true_iff; split); try (apply Z.leb_le; lia). done.
Qed.

(** The civil date without its milliseconds is that much earlier. *)
Lemma plain_civil f ms tz : civil f → 0 <= ms < 1000 →
  let g := date_fields_set (plain f ms) 8 tz in civil g ∧ time_of g = time_of f - millisecond f + ms ∧ tz_minutes g = tz.
Proof. intros [Hm Hd Hh Hi Hs Hx] Hms. split; [by split|]. split; [|done]. unfold time_of. simpl. lia. Qed.

(** The milliseconds of a time. *)
Lemma civil_ms_mod f : civil f → millisecond f = time_of f mod 1000.
Proof. intros [_ _ _ _ _ Hx]. unfold time_of. Z.to_euclidean_division_equations. lia. Qed.

Section RoundTrip.

Context `{Heap, TimeZone}.

Lemma parse_text text g : malloc (zlen text + 1) = true → Forall (λ c, c ≠ 0) text →
  match parse_isostring text with Some r => Some r | None => parse_otherstring text end = Some (g, false) →
  civil g → in_range (time_of g) → Z.abs (tz_minutes g) <= 1440 →
  date_parse_string_to_ms text = Some (time_of g - tz_minutes g * 60000).
Proof.
  intros Hm Hn E Hg Hr Htz. unfold date_parse_string_to_ms. rewrite Hm, c_text_id by done. cbn [negb]. rewrite E. cbn [mbind option_bind].
  rewrite civil_fields_valid by done. cbn [negb]. unfold in_range in Hr. destruct (civil_small g Hg ltac:(lia)) as [Hsm Hya].
  rewrite make_fields_exact, Hya, Z.add_0_r, timeclip_in_range by done. cbn [mbind option_bind]. apply rnd_exact. lia.
Qed.

(** The fields that are printed. *)
Lemma get_date_string_fields t fmt part : in_range t → zone_ok →
  ∃ f, get_date_string (Some (Some t)) fmt part =
      Ok ((match part with DATE_STRING_PART_TIME => [] | _ => date_part fmt (is_part_all part) f end)
          ++ (match part with DATE_STRING_PART_DATE => [] | _ => time_part fmt f end)) ∧
    civil f ∧ year_ok (year f) ∧ 0 <= weekday f < 7 ∧
    (let tz := if is_fmt_local fmt then - get_timezone_offset t else 0 in tz_minutes f = tz ∧ time_of f = t + tz * 60000).
Proof.
  intros Ht Hz. pose proof (Hz t) as Ho. unfold in_range in Ht. set (tz := if is_fmt_local fmt then - get_timezone_offset t else 0).
  assert (Z.abs tz <= 1440) by (subst tz; destruct (is_fmt_local fmt); lia).
  destruct (fields_of_spec (t + tz * 60000) tz) as (f & E & Hf & Et & Hw & Htz); [lia|]. exists f.
  split; [|split; [done|split; [apply civil_year_ok; [done|lia]|split; [rewrite Hw; apply Z.mod_pos_bound; lia|done]]]].
  unfold get_date_string. cbn [date_this_time_value mbind outcome_bind date_extract_fields_from_time]. fold tz. by rewrite E.
Qed.

Lemma seconds_in_range t : in_range t → in_range (t - t mod 1000) ∧ 0 <= t mod 1000 < 1000.
Proof. unfold in_range. intros Ht. Z.to_euclidean_division_equations. lia. Qed.

(** C16: for every time value each of the methods of Date that make a text, whatever the
    format and the part, fills at most 63 of the 96 bytes of its buffer.  Date.parse reads the
    time value back from the text of toISOString, and from those of toUTCString and toString the
    time value to the second, the latter in every zone less than a day from UTC, if the local
    time is in range.  The loop of the second parser ends on every text: it never takes more
    rounds than the text has bytes.  But the text of toLocaleString is that of UTC whatever the
    zone is; a text with an offset is clipped before the offset is applied, so that Date.parse
    returns a number that is no time value and refuses a time value; and the format of the
    standard accepts the 30th of February. *)
Theorem date_text_correct t :
  in_range t → zone_ok → (∀ n, malloc n = true) →
  (∀ fmt part, ∃ s, get_date_string (Some (Some t)) fmt part = Ok s ∧ (length s <= 63)%nat) ∧
  (∃ s, builtin_Date_toISOString (Some (Some t)) = Ok s ∧ builtin_Date_parse [s] = Some t) ∧
  (∃ s, builtin_Date_toUTCString (Some (Some t)) = Ok s ∧ builtin_Date_parse [s] = Some (t - t mod 1000)) ∧
  (Z.abs (get_timezone_offset t) < 1440 → in_range (t - get_timezone_offset t * 60000) →
   ∃ s, builtin_Date_toString (Some (Some t)) = Ok s ∧ builtin_Date_parse [s] = Some (t - t mod 1000)) ∧
  (∀ s o rounds, (length s <= rounds)%nat → other_loop rounds s o = other_loop (length s) s o) ∧
  (∀ zone this, builtin_Date_toLocaleString this = @builtin_Date_toLocaleString zone this) ∧
  builtin_Date_parse [bytes "+275760-09-13T00:00:00-01:00"] = Some 8640000003600000 ∧
  builtin_Date_parse [bytes "+275760-09-13T01:00:00+01:00"] = None ∧
  builtin_Date_parse [bytes "2021-02-30"] = builtin_Date_parse [bytes "2021-03-02"].
Proof.
  intros Ht Hz Hm. pose proof (Hz t) as Ho. destruct (seconds_in_range t Ht) as [Hsec Hms].
  split; [|split; [|split; [|split; [|split; [|split]]]]].
  - intros fmt part. destruct (get_date_string_fields t fmt part Ht Hz) as (f & E & Hf & Hy & _ & Htz & _). eexists. split; [exact E|].
    apply date_string_short; [done..|]. destruct (is_fmt_local fmt); lia.
  - destruct (get_date_string_fields t DATE_STRING_FMT_ISO DATE_STRING_PART_ALL Ht Hz) as (f & E & Hf & Hy & _ & Htz & Et). simpl in Htz, Et.
    eexists. split; [exact E|]. unfold builtin_Date_parse. destruct (plain_civil f (millisecond f) 0 Hf ltac:(apply Hf)) as (Hc & Eg & _).
    rewrite (parse_text _ (date_fields_set (plain f (millisecond f)) 8 0)); [|done|apply (date_string_short _ DATE_STRING_PART_ALL); [done..|lia]|by rewrite parse_iso|exact Hc|rewrite Eg|simpl; lia].
    + f_equal. rewrite Eg. simpl. lia.
    + replace (time_of f - _ + _) with t by lia. done.
  - destruct (get_date_string_fields t DATE_STRING_FMT_UTC DATE_STRING_PART_ALL Ht Hz) as (f & E & Hf & Hy & Hw & Htz & Et). simpl in Htz, Et.
    eexists. split; [exact E|]. unfold builtin_Date_parse. destruct (plain_civil f 0 0 Hf ltac:(lia)) as (Hc & Eg & _).
    rewrite (civil_ms_mod f Hf) in Eg. replace (time_of f) with t in Eg by lia. destruct (parse_utc f Hf Hy Hw) as [E1 E2].
    rewrite (parse_text _ (date_fields_set (plain f 0) 8 0)); [|done|apply (date_string_short _ DATE_STRING_PART_ALL); [done..|lia]|cbn [is_part_all]; rewrite E1; exact E2|exact Hc|rewrite Eg|simpl; lia].
    + f_equal. rewrite Eg. simpl. lia.
    + by replace (t - t mod 1000 + 0) with (t - t mod 1000) by lia.
  - intros Hoff Hloc. destruct (get_date_string_fields t DATE_STRING_FMT_LOCAL DATE_STRING_PART_ALL Ht Hz) as (f & E & Hf & Hy & Hw & Htz & Et). simpl in Htz, Et.
    eexists. split; [exact E|]. unfold builtin_Date_parse. destruct (plain_civil f 0 (tz_minutes f) Hf ltac:(lia)) as (Hc & Eg & Eg2).
    destruct (parse_local f Hf Hy Hw ltac:(lia)) as [E1 E2]. rewrite (civil_ms_mod f Hf), Et, Z.add_0_r in Eg.
    replace (t + - get_timezone_offset t * 60000) with (t - get_timezone_offset t * 60000) in Eg by lia.
    rewrite (parse_text _ (date_fields_set (plain f 0) 8 (tz_minutes f))); [|done|apply (date_string_short _ DATE_STRING_PART_ALL); [done..|lia]|cbn [is_part_all]; rewrite E1; exact E2|exact Hc|rewrite Eg|rewrite Eg2; lia].
    + f_equal. rewrite Eg, Eg2, Htz. Z.to_euclidean_division_equations. lia.
    + by apply seconds_in_range.
  - intros s o rounds. apply other_loop_enough.
  - done.
  - unfold builtin_Date_parse, date_parse_string_to_ms. rewrite !Hm. split; [vm_compute; reflexivity|]. split; vm_compute; reflexivity.
Qed.

End RoundTrip.

(** A second before 1970. *)
Lemma date_text_correct_witness :
  in_range (-1) ∧ @zone_ok seoul ∧ (∀ n, @malloc roomy_heap n = true) ∧
  (∃ s, @builtin_Date_toISOString seoul (Some (Some (-1))) = Ok s ∧ @builtin_Date_parse roomy_heap seoul [s] = Some (-1)) ∧
  ∃ s, @builtin_Date_toString seoul (Some (Some (-1))) = Ok s ∧ @builtin_Date_parse roomy_heap seoul [s] = Some (-1000).
Proof.
  assert (in_range (-1)) as Hr by (unfold in_range; lia).
  destruct (@date_text_correct roomy_heap seoul (-1) Hr seoul_ok (λ _, eq_refl)) as (_ & Hiso & _ & Hloc & _).
  split; [exact Hr|]. split; [exact seoul_ok|]. split; [done|]. split; [exact Hiso|].
  apply Hloc; unfold in_range, get_timezone_offset, seoul; lia.
Defined.
